(* ===== verification/_CoqProject ===== *)
-Q . S2P
Prelude.v
Primes.v
MoneroIo.v
Dalek.v
Ed25519.v
UnreducedScalar.v
Merkle.v
RingSignatures.v
Borromean.v
Mlsag.v
Clsag.v
ClsagSign.v
ClsagMultisig.v
Bulletproofs.v
BpCore.v
BpOriginal.v
BpAlgebra.v
BpVectors.v
BpOriginalProofs.v
BpRange.v
BpComplete.v
BpPlus.v
BpWip.v
BpPlusComplete.v
BpTheorems.v
ClsagMultisigProofs.v
RingCT.v
Transaction.v
Block.v
Interface.v
Base58.v
Address.v
Epee.v
Extra.v
WalletOutput.v
ViewPair.v
Scan.v
DecoySelection.v
Send.v
SendKeys.v
SendWeight.v
SendNew.v
SendTx.v
SendSign.v
SendEventuality.v
SendScan.v
SendCodec.v
SendTheorems.v
SendMultisig.v
SendMultisigProofs.v
DaemonEpee.v
DaemonEpeeProofs.v
Daemon.v
DaemonProofs.v
DaemonBin.v
DaemonBinProofs.v
DaemonRequests.v
SimpleRequest.v
SendEquality.v
