(* ===== verification/Prelude.v ===== *)
(** * A verification development of monero-oxide

    The repository (paths below are under [src/monero-oxide/]) implements the
    Monero protocol: its data and their encodings, its proofs, a wallet, and a
    client of the daemon.  This development models it as executable
    definitions, translated from the code function by function under the code's
    names, and proves what the code is relied upon for.  This file is the root:
    after this description, the vocabulary the other files share.

    ** How the program is put together

    Bytes and VarInts ([io]), scalars and points ([ed25519]) are what every
    format is written in.  Transactions and blocks ([src]) are made of RingCT
    data ([src/ringct.rs]), which holds the proofs of the crates under [ringct].
    The traits of [interface] say what's asked of a node, and validate what an
    untrusted one answers; [interface/daemon] is a client which implements
    them over HTTP, JSON and EPEE (the crate [epee]), and
    [interface/daemon/simple-request] the transport it posts over.  The wallet scans the blocks so
    validated, selects decoys over the interface, and makes and signs
    transactions, alone or with other participants.

    ** How it is modelled

    - A Rust function is a Rocq function; a [Result] is an [outcome], whose third
      case is a panic: a failed [expect], an index out of range, an overflow in
      a checked build, a division by zero.  That there is none is a theorem.
    - A [w]-bit integer is a [Z] in [U w], its bounds checked or wrapped where
      the code does; bytes, and strings as their bytes, are lists of [Z];
      [usize] has 64 bits ([USIZE_BITS]).
    - [R: Read] is the state of a [reader], as mutated on errors too; calls to
      the interface, or over a transport, are a [query] over the state of
      whoever answers; the EPEE decoder, which its handles borrow, and the
      buffer a multisignature's mask is sent through, are explicit states.
    - A loop which isn't structural takes fuel and is a [Panic] without it, so a
      theorem which excludes panics shows the fuel enough: a collection's
      length for the loops which consume it ([Extra.read], [Merkle], [ringct_outputs],
      [fetch_transactions]), an iterator's remaining items and one more for the
      EPEE responses, the bytes left and one more for [Epee.step], the
      blocks requested for [fetch_loop], twice as many and one for
      [contiguous_blocks] (a batch which fails is retried by single blocks),
      64 for the loops which double or halve a [u64], 20 digits for a
      [usize] and 10 bytes for a VarInt.  The few which return what they have
      instead ([VarInt.write], [pow_of_2_loop], [lr_len_loop], [Base58.chunks])
      are shown to yield the result which only an ended loop does.  The code's
      own bounds, as the 10 rounds per ring member of the selection of decoys, are kept.
    - What is not under [src/] is a parameter, with its documented behaviour as
      a class of laws: [Dalek] and [DalekLaws] (curve25519-dalek and a function of crypto-bigint),
      [Keccak] and [KeccakLaws] (sha3), [Rand] (rand, rand_chacha), [DecoyRng]
      (rand_distr), the transcripts, the views and the machines of
      multisignatures (flexible-transcript, dkg, modular-frost; [MachinesLaws]),
      [Hex], [Json] and [HttpTransport] (hex, serde_json, the transport; their
      laws are in DaemonProofs), [Http] and [Digest] (simple-request, http, digest_auth;
      [HttpLaws]).  [Primitives] and [Setup] (Ed25519) state what the
      code's own [expect]s rely on: no data hashes to the scalar zero, [H] is a
      point of prime order, the map to the curve is total.  Each class of laws has an instance, so that the
      theorems' hypotheses hold somewhere; Dalek's is the group of order
      [8L], with [L] proved prime in Primes.  Randomness is an explicit stream.
    - Where the source has a trait, the model has a class, and where a promise
      is relied upon a class of laws: [Codec] and [ReaderSafe] (below) for a format,
      [PotentiallyPrunedLaws] for the two kinds of transactions, and in
      Interface a [Deserialized] and a [Laws] class per trait, the first what any
      answer satisfies, the second what the blanket implementation makes of it.

    ** The files

    - Prelude, Primes, Dalek: vocabulary, third-party code, a concrete instance.
    - MoneroIo ([io/src]); Ed25519, UnreducedScalar ([ed25519/src]): bytes,
      VarInts, scalars, points, commitments.
    - Merkle ([src/merkle.rs]); RingSignatures ([src/ring_signatures.rs]); Borromean,
      Mlsag ([ringct/borromean], [ringct/mlsag]).
    - Clsag ([ringct/clsag/src/lib.rs], [decoys.rs]) with ClsagSign for signing;
      ClsagMultisig ([multisig.rs]) with ClsagMultisigProofs.
    - Bulletproofs (data, [ringct/bulletproofs/src/lib.rs]); BpCore
      ([core.rs], vectors, [batch_verifier.rs], [generators]); BpOriginal
      ([original/]) and BpPlus ([plus/]); proofs of completeness in BpAlgebra,
      BpVectors (algebra), BpOriginalProofs (inner product), BpRange (bits),
      BpComplete (range proof), BpWip, BpPlusComplete (the same of
      Bulletproofs+), and BpTheorems.
    - RingCT, Transaction, Block ([src/ringct.rs], [transaction.rs], [block.rs]).
    - Interface ([interface/src]): traits, validation, fee rates.
    - Base58, Address ([wallet/base58], [wallet/address]); Epee ([epee/src]).
    - Extra, WalletOutput, ViewPair, Scan, DecoySelection ([wallet/src/extra.rs],
      [output.rs], [view_pair.rs] and [lib.rs], [scan.rs], [decoys.rs]).
    - Send ([wallet/src/send/mod.rs], [tx.rs], [tx_keys.rs], [eventuality.rs]), with proofs in
      SendKeys, SendWeight, SendNew, SendTx, SendSign, SendEventuality,
      SendScan, SendCodec and SendTheorems, and equality in SendEquality;
      SendMultisig ([send/multisig.rs]) with SendMultisigProofs.
    - DaemonEpee ([interface/daemon/src/bin_rpc/epee.rs]), Daemon ([lib.rs],
      [blocks.rs]) and DaemonBin ([bin_rpc/mod.rs], [blocks_bin.rs]), with
      DaemonEpeeProofs, DaemonProofs, DaemonBinProofs and DaemonRequests;
      SimpleRequest ([interface/daemon/simple-request/src/lib.rs]), with its proofs.

    A type of the code is the type [t] of a Module of its name where it has
    methods, which are the definitions of the Module.

    ** What is proved

    - Formats: every value is read back from its encoding, what is read is the
      one encoding of what's yielded, and no bytes panic a reader (VarInts,
      transactions, blocks, extra, outputs, addresses, signable transactions);
      pruning splits an encoding; the proof of work and the Merkle root commit
      to what they are to.
    - Proofs: what CLSAG and Bulletproofs(+) sign or prove is accepted by
      their verifiers, alone or in a batch, but for the degenerate values the
      verifiers refuse; the other signatures (ring, Borromean, MLSAG) as far as
      the code makes or checks them.  Soundness rests on assumptions
      about discrete logarithms and is not stated.
    - The decoder: its packed stack refines a list, a step skips exactly an
      item; and handles stay in sync with it whatever they're called for, return,
      or are dropped for, but for entries abandoned: by a forget, and by [fields]
      of an entry which isn't an object (a finding), after which it still has
      all they need.
    - The interface: whatever an untrusted node answers, what's validated is of
      the hashes and numbers requested, up to collisions of Keccak; and what's
      scanned of a block requested by hash depends on the hash, not on who answers.
    - The wallet: the scanner finds what's sent to it and only that; decoys are
      distinct and sorted; a valid intent becomes a transaction which balances, pays
      its fee and verifies, which its eventuality matches, and whose outputs
      their recipients find.
    - Multisignatures: participants who follow the protocol make a signature;
      whatever others send, nothing panics, and a transaction which is completed is
      the one intended and verifies.
    - The daemon: over any transport its client keeps what the interface asks
      of it without a panic, its loops end and return all that was requested;
      from a daemon which answers, it gets exactly its blocks; its binary
      requests read, by the repository's decoder, as what was requested.  The
      transport retries once at most and doesn't panic, and takes the
      credentials a URL has.
    The theorems named in the manifest carry an identifier in their comment.
    Hypotheses are discharged at concrete inputs by the lemmas which end in
    [_witness].

    ** Not modelled

    - The insides of tokio, simple-request and digest_auth: connections, TLS, and
      the time a request takes; a timeout is an [await] which is interrupted.
    - [Debug], [Zeroize], that equality takes constant time (what it decides is
      modelled), getters, the arguments formatted into error messages, and the
      source text which the build script of [ringct/bulletproofs] writes.  [debug_assert]s are left
      out; those which could fail are theorems.
    - [cache] and [from_cache] of the signing machines, which are
      [unimplemented!]; asynchrony, as awaiting is a call.
    - Memory, but where aliasing matters (above); allocation can't fail, and a
      [reserve] has no effect.
    - The inside of rand_distr: a gamma sample is an operation of the generator,
      so its rejection loop is taken to end.
    - Tests, audits, and the vectors they use. *)

(** ** Vocabulary

    [outcome] (success, error, panic), the state-passing [reader] monad every
    decoder is written in, bytes and little-endian integers as integers of a
    fixed width, the [Codec] interface a writer/reader pair offers to the
    formats built on top of it, and the tactics and hints used everywhere. *)

From Stdlib Require Import ZArith Lia Sorted.
From stdpp Require Import base list strings numbers.

#[global] Open Scope Z_scope.

(** ** Outcomes

    A Rust function returning [Result<A, E>] either yields a value, yields an
    error or panics (a failed [expect], an arithmetic overflow in a checked
    build, an index out of bounds).  Panics are kept so that their absence is
    a theorem. *)

Inductive outcome (E A : Type) : Type :=
| Ok (a : A)
| Err (e : E)
| Panic.

Arguments Ok {E A} a.
Arguments Err {E A} e.
Arguments Panic {E A}.

Lemma Ok_inj {E A} (a b : A) : @Ok E A a = Ok b -> a = b.
Proof. intros [= H]. exact H. Qed.

Declare Scope oxide_scope.
Delimit Scope oxide_scope with oxide.
#[global] Open Scope oxide_scope.

Definition obind {E A B} (m : outcome E A) (k : A -> outcome E B) : outcome E B :=
  match m with
  | Ok a => k a
  | Err e => Err e
  | Panic => Panic
  end.

Notation "'let?' x := m 'in' k" := (obind m (fun x => k))
  (at level 10, x pattern, m at level 100, k at level 200) : oxide_scope.

Definition omap_err {E F A} (f : E -> F) (m : outcome E A) : outcome F A :=
  match m with
  | Ok a => Ok a
  | Err e => Err (f e)
  | Panic => Panic
  end.

(** [Result::ok] *)
Definition ok_opt {E A} (m : outcome E A) : option A :=
  match m with Ok a => Some a | _ => None end.

(** [Option::ok_or] *)
Definition ok_or {E A} (o : option A) (e : E) : outcome E A :=
  match o with Some a => Ok a | None => Err e end.

(** [Option::expect] and [unwrap] *)
Definition expect {E A} (o : option A) : outcome E A :=
  match o with Some a => Ok a | None => Panic end.

Lemma obind_ok_inv {E A B} (m : outcome E A) (k : A -> outcome E B) b :
  obind m k = Ok b -> exists a, m = Ok a /\ k a = Ok b.
Proof. destruct m; cbn; [eauto|discriminate..]. Qed.

(** Invert one step of a computation which succeeded. *)
Ltac obind_inv H :=
  match type of H with
  | obind _ _ = Ok _ => let x := fresh "x" in let Hx := fresh "Hx" in
      apply obind_ok_inv in H as (x & Hx & H)
  end.

(** One computation per element, in order *)
Fixpoint each {E A B} (f : A -> outcome E B) (l : list A) : outcome E (list B) :=
  match l with
  | [] => Ok []
  | a :: l =>
      let? b := f a in
      let? bs := each f l in
      Ok (b :: bs)
  end.

Lemma each_ok {E A B} (f : A -> outcome E B) l bs : each f l = Ok bs <-> Forall2 (fun a b => f a = Ok b) l bs.
Proof.
  revert bs. induction l as [|a l IH]; intros bs; cbn [each].
  - split; [intros [= <-]; constructor|intros H; inversion H; reflexivity].
  - split.
    + intros H. apply obind_ok_inv in H as (b & Hb & H). apply obind_ok_inv in H as (bs' & Hbs & H).
      apply Ok_inj in H as <-. constructor; [exact Hb|]. apply IH, Hbs.
    + intros H. inversion H as [|? b ? bs' Hb Hbs]; subst. rewrite Hb. cbn [obind]. apply IH in Hbs as ->. reflexivity.
Qed.

Lemma each_total {E A B} (P : B -> Prop) (f : A -> outcome E B) l :
  (forall a, In a l -> exists b, f a = Ok b /\ P b) -> exists bs, each f l = Ok bs /\ Forall P bs /\ length bs = length l.
Proof.
  induction l as [|a l IH]; intros H; [exists []; cbn; auto|].
  destruct (H a (or_introl eq_refl)) as (b & Hb & HP). destruct IH as (bs & Hbs & HPs & Hl); [intros; apply H; right; assumption|].
  exists (b :: bs). cbn [each]. rewrite Hb, Hbs. cbn. auto.
Qed.

Lemma each_map {E A B} (f : A -> outcome E B) (g : A -> B) l : Forall (fun a => f a = Ok (g a)) l -> each f l = Ok (map g l).
Proof. induction 1 as [|a l Ha _ IH]; cbn; [reflexivity|]. rewrite Ha, IH. reflexivity. Qed.

Lemma each_no_panic {E A B} (f : A -> outcome E B) l : Forall (fun a => f a <> Panic) l -> each f l <> Panic.
Proof.
  induction 1 as [|a l Ha _ IH]; cbn; [discriminate|]. destruct (f a); cbn; [|discriminate|congruence].
  destruct (each f l); cbn; congruence.
Qed.

(** [iter().enumerate()] *)
Definition enumerate {A} (l : list A) : list (nat * A) := zip (seq 0 (length l)) l.

Lemma zip_fst_snd {A B} (l : list (A * B)) : zip (map fst l) (map snd l) = l.
Proof. induction l as [|[a b] l IH]; cbn; f_equal; exact IH. Qed.

(** [Result::expect] *)
Definition expect_ok {E F A} (m : outcome E A) : outcome F A :=
  match m with Ok a => Ok a | _ => Panic end.

(** A loop with a state *)
Fixpoint ofold {E A S} (f : S -> A -> outcome E S) (s : S) (l : list A) : outcome E S :=
  match l with
  | [] => Ok s
  | a :: l =>
      let? s := f s a in ofold f s l
  end.

(** [l[i]] and [l[i] = x], which panic out of range *)
Definition index {E A} (l : list A) (i : nat) : outcome E A := expect (l !! i).
Definition set_at {E A} (l : list A) (i : nat) (x : A) : outcome E (list A) :=
  if (i <? length l)%nat then Ok (<[i := x]> l) else Panic.

Lemma ofold_app {E A S} (f : S -> A -> outcome E S) s l l' :
  ofold f s (l ++ l') = let? s := ofold f s l in ofold f s l'.
Proof. revert s. induction l as [|a l IH]; intros s; cbn; [reflexivity|]. destruct (f s a); cbn; [apply IH|reflexivity..]. Qed.

Definition no_panic {E A} (m : outcome E A) : Prop :=
  match m with Panic => False | _ => True end.

(** ** Machine integers and bytes

    An unsigned integer of width [w] is a [Z] in [U w]. *)

Definition U (w z : Z) : Prop := 0 <= z < 2 ^ w.

#[export] Instance U_dec w z : Decision (U w z).
Proof. unfold U. apply _. Defined.

Definition USIZE_BITS : Z := 64.
Definition U64_MAX : Z := 2 ^ 64 - 1.
Definition USIZE_MAX : Z := 2 ^ USIZE_BITS - 1.

Abbreviation bytes := (list Z).

Definition is_bytes (bs : bytes) : Prop := Forall (U 8) bs.

(** [[u8; n]] *)
Definition is_array (n : nat) (bs : bytes) : Prop := is_bytes bs /\ length bs = n.

#[export] Instance is_bytes_dec bs : Decision (is_bytes bs).
Proof. unfold is_bytes. apply _. Defined.
#[export] Instance is_array_dec n bs : Decision (is_array n bs).
Proof. unfold is_array. apply _. Defined.

(** A byte string literal *)
Definition bstr (s : string) : bytes := map (fun c => Z.of_N (Ascii.N_of_ascii c)) (String.list_ascii_of_string s).

(** [usize] value of a collection's length *)
Definition len {A} (l : list A) : Z := Z.of_nat (length l).

(** ** The reader monad

    [R: Read] is [&mut &[u8]]: the bytes left.  The reader's state is returned
    on every outcome, since callers observe it after an error as well. *)

Definition reader (E A : Type) : Type := bytes -> outcome E A * bytes.

Definition rret {E A} (a : A) : reader E A := fun bs => (Ok a, bs).
Definition rfail {E A} (e : E) : reader E A := fun bs => (Err e, bs).
Definition rpanic {E A} : reader E A := fun bs => (Panic, bs).
Definition rlift {E A} (m : outcome E A) : reader E A := fun bs => (m, bs).

Definition rbind {E A B} (m : reader E A) (k : A -> reader E B) : reader E B :=
  fun bs =>
    match m bs with
    | (Ok a, bs') => k a bs'
    | (Err e, bs') => (Err e, bs')
    | (Panic, bs') => (Panic, bs')
    end.

Notation "'let*' x := m 'in' k" := (rbind m (fun x => k))
  (at level 10, x pattern, m at level 100, k at level 200) : oxide_scope.

Definition rmap {E A B} (f : A -> B) (m : reader E A) : reader E B :=
  let* x := m in rret (f x).

(** [Result::ok] of a read, leaving the reader where the read left it. *)
Definition rok {E A} (m : reader E A) : reader E (option A) :=
  fun bs =>
    match m bs with
    | (Ok a, bs') => (Ok (Some a), bs')
    | (Err _, bs') => (Ok None, bs')
    | (Panic, bs') => (Panic, bs')
    end.

Lemma rbind_ok_inv {E A B} (m : reader E A) (k : A -> reader E B) bs b rest :
  rbind m k bs = (Ok b, rest) ->
  exists a bs', m bs = (Ok a, bs') /\ k a bs' = (Ok b, rest).
Proof. unfold rbind. destruct (m bs) as [[a|e|] bs']; naive_solver. Qed.

Lemma rbind_ok {E A B} (m : reader E A) (k : A -> reader E B) bs a bs' :
  m bs = (Ok a, bs') -> rbind m k bs = k a bs'.
Proof. unfold rbind. intros ->. reflexivity. Qed.

Lemma rbind_rret {E A B} (a : A) (k : A -> reader E B) bs : rbind (rret a) k bs = k a bs.
Proof. reflexivity. Qed.

Lemma rbind_err {E A B} (m : reader E A) (k : A -> reader E B) bs e bs' :
  m bs = (Err e, bs') -> rbind m k bs = (Err e, bs').
Proof. unfold rbind. intros ->. reflexivity. Qed.

Lemma rfail_ok_inv {E A} (e : E) bs (a : A) rest :
  rfail e bs = (Ok a, rest) -> False.
Proof. discriminate. Qed.

Lemma rret_ok_inv {E A} (x : A) bs a rest :
  @rret E A x bs = (Ok a, rest) -> x = a /\ bs = rest.
Proof. intros [= -> ->]. auto. Qed.

(** ** Interfaces: safe readers and codecs *)

(** On valid bytes the reader never panics and only consumes a prefix. *)
Class ReaderSafe {E A} (r : reader E A) : Prop :=
  reader_safe : forall bs, is_bytes bs ->
    no_panic (fst (r bs)) /\ exists pre, bs = pre ++ snd (r bs).

(** What a writer/reader pair promises to the formats built on top of it:
    [P] describes the values the writer may be given, the reader recovers
    every written value and leaves what follows, and every accepted input is
    the writer's output for the value read (no two encodings of one value). *)
Class Codec {E A} (r : reader E A) (w : A -> bytes) (P : A -> Prop) : Prop := {
  codec_bytes : forall a, P a -> is_bytes (w a);
  codec_rt : forall a rest, P a -> r (w a ++ rest) = (Ok a, rest);
  codec_sound : forall bs a rest,
    is_bytes bs -> r bs = (Ok a, rest) -> P a /\ bs = w a ++ rest;
  codec_safe :: ReaderSafe r
}.

Create HintDb oxide discriminated.

Lemma is_bytes_app bs bs' : is_bytes (bs ++ bs') <-> is_bytes bs /\ is_bytes bs'.
Proof. apply Forall_app. Qed.

Lemma is_bytes_app_r bs bs' : is_bytes (bs ++ bs') -> is_bytes bs'.
Proof. rewrite is_bytes_app. tauto. Qed.

Lemma is_bytes_app_2 bs bs' : is_bytes bs -> is_bytes bs' -> is_bytes (bs ++ bs').
Proof. rewrite is_bytes_app. tauto. Qed.

Lemma is_bytes_cons b bs : U 8 b -> is_bytes bs -> is_bytes (b :: bs).
Proof. constructor; assumption. Qed.

Lemma is_bytes_nil : is_bytes [].
Proof. constructor. Qed.

Lemma is_array_bytes n bs : is_array n bs -> is_bytes bs.
Proof. intros [? ?]. assumption. Qed.

Lemma is_array_length n bs : is_array n bs -> length bs = n.
Proof. intros [? ?]. assumption. Qed.

#[export] Hint Resolve is_bytes_app_2 is_bytes_cons is_bytes_nil is_array_bytes
  is_array_length codec_bytes : oxide.

Section Safe.
Context {E : Type}.

Lemma rret_safe {A} (a : A) : ReaderSafe (@rret E A a).
Proof. intros bs _. split; [exact I | exists []; reflexivity]. Qed.

Lemma rfail_safe {A} (e : E) : ReaderSafe (@rfail E A e).
Proof. intros bs _. split; [exact I | exists []; reflexivity]. Qed.

Lemma rbind_safe_post {A B} (P : A -> Prop) (m : reader E A) (k : A -> reader E B) :
  ReaderSafe m ->
  (forall bs a rest, is_bytes bs -> m bs = (Ok a, rest) -> P a) ->
  (forall a, P a -> ReaderSafe (k a)) ->
  ReaderSafe (rbind m k).
Proof.
  intros Hm HP Hk bs Hbs. destruct (Hm bs Hbs) as [Hn [pre Hpre]].
  unfold rbind. destruct (m bs) as [[a|e|] bs'] eqn:Em; cbn in *; [|eauto|tauto].
  assert (Hb' : is_bytes bs') by (eapply is_bytes_app_r; rewrite <- Hpre; exact Hbs).
  destruct (Hk a (HP _ _ _ Hbs Em) bs' Hb') as [Hn' [pre' Hpre']].
  split; [exact Hn'|]. exists (pre ++ pre').
  rewrite Hpre at 1. rewrite <- app_assoc. f_equal. exact Hpre'.
Qed.

Lemma rbind_safe {A B} (m : reader E A) (k : A -> reader E B) :
  ReaderSafe m -> (forall a, ReaderSafe (k a)) -> ReaderSafe (rbind m k).
Proof. intros Hm Hk. apply (rbind_safe_post (fun _ => True)); auto. Qed.

Lemma codec_bind_safe {A B} (r : reader E A) w P (k : A -> reader E B) :
  Codec r w P -> (forall a, P a -> ReaderSafe (k a)) -> ReaderSafe (rbind r k).
Proof.
  intros HC Hk. apply (rbind_safe_post P); [apply _| |exact Hk].
  intros bs a rest Hb Hr. exact (proj1 (codec_sound _ _ _ Hb Hr)).
Qed.

Lemma rok_safe {A} (m : reader E A) : ReaderSafe m -> ReaderSafe (rok m).
Proof.
  intros Hm bs Hbs. destruct (Hm bs Hbs) as [Hn Hpre]. unfold rok.
  destruct (m bs) as [[a|e|] bs']; cbn in *; auto.
Qed.

(** Two codecs of the same reader read the same value from one prefix. *)
Lemma codec_inj {A} (r : reader E A) w P a b rest rest' :
  Codec r w P -> P a -> P b -> w a ++ rest = w b ++ rest' -> a = b /\ rest = rest'.
Proof.
  intros HC Ha Hb Heq.
  assert (r (w a ++ rest) = r (w b ++ rest')) as Hr by congruence.
  rewrite (codec_rt a), (codec_rt b) in Hr by assumption.
  injection Hr. auto.
Qed.

(** A codec for a type whose values are those of another through a pair of
    inverse maps. *)
Lemma codec_iso {A B} (r : reader E A) w P (f : A -> B) (g : B -> A) (Q : B -> Prop) :
  Codec r w P ->
  (forall b, Q b -> P (g b) /\ f (g b) = b) ->
  (forall a, P a -> Q (f a) /\ g (f a) = a) ->
  Codec (rmap f r) (fun b => w (g b)) Q.
Proof.
  intros HC HQ HP. split.
  - intros b Hb. apply (codec_bytes (r := r)), HQ, Hb.
  - intros b rest Hb. destruct (HQ b Hb) as [Hg Hf]. unfold rmap.
    erewrite rbind_ok by (apply codec_rt, Hg). unfold rret. congruence.
  - intros bs b rest Hbs (a & bs' & Hr & H)%rbind_ok_inv.
    apply rret_ok_inv in H as [<- <-].
    destruct (codec_sound _ _ _ Hbs Hr) as [Ha ->].
    destruct (HP a Ha) as [? Hgf]. rewrite Hgf. auto.
  - apply rbind_safe; [apply _ | intros; apply rret_safe].
Qed.
End Safe.

#[export] Hint Resolve rret_safe rfail_safe rok_safe : oxide.
#[export] Existing Instances rret_safe rfail_safe rok_safe.

(** ** Tactics *)

(** Discharge side conditions about bytes, following concatenations down to
    writers with a codec. *)
Ltac bytes_tac :=
  repeat first
    [ apply is_bytes_nil
    | assumption
    | match goal with
      | |- is_bytes (_ ++ _) => apply is_bytes_app_2
      | |- is_bytes (_ :: _) => apply is_bytes_cons
      | |- is_bytes (if ?b then _ else _) => destruct b
      | H : ?P ?a |- is_bytes (?w ?a) => exact (codec_bytes (w := w) (P := P) a H)
      | |- is_bytes (?w ?a) => refine (codec_bytes (w := w) a _); solve [eauto with oxide]
      end
    | solve [eauto 6 with oxide] ].

(** A closed decidable statement, by evaluation *)
Ltac decide_now := apply (bool_decide_unpack _); vm_compute; exact I.

(** Invert one step of a successful read. *)
Ltac read_inv1 :=
  match goal with
  | H : rbind _ _ _ = (Ok _, _) |- _ =>
      let a := fresh "a" in let bs' := fresh "bs" in let Hm := fresh "Hm" in
      apply rbind_ok_inv in H as (a & bs' & Hm & H)
  | H : rret _ _ = (Ok _, _) |- _ =>
      let H1 := fresh in let H2 := fresh in
      apply rret_ok_inv in H as [H1 H2]; try subst
  | H : rfail _ _ = (Ok _, _) |- _ => discriminate H
  | H : rpanic _ = (Ok _, _) |- _ => discriminate H
  | Hb : is_bytes ?bs, Hm : ?r ?bs = (Ok ?a, ?bs') |- _ =>
      let HP := fresh "HP" in let Hbs := fresh "Hbs" in
      destruct (codec_sound (r := r) bs a bs' Hb Hm) as [HP Hbs]; clear Hm;
      first [ subst bs | idtac ];
      let Hb' := fresh "Hb" in
      assert (Hb' : is_bytes bs') by (eapply is_bytes_app_r; (exact Hb || (rewrite <- Hbs; exact Hb)))
  | H : (if ?b then _ else _) _ = (Ok _, _) |- _ =>
      let E := fresh "E" in destruct b eqn:E
  | H : _ _ = (Ok _, _) |- _ => discriminate H
  end.
Ltac read_inv := repeat (read_inv1; cbn beta in * ).

(** Run the leading reads of a decoder on their written values. *)
Ltac read_run1 := erewrite rbind_ok by (eapply codec_rt; eauto with oxide).
Ltac read_run :=
  cbn beta; repeat rewrite <- app_assoc; rewrite ?app_nil_l;
  repeat (first [rewrite rbind_rret | read_run1]; cbn beta; rewrite ?app_nil_l).

(** Safety of a decoder, following its structure. *)
Ltac safe_step :=
  match goal with
  | |- ReaderSafe (rret _) => apply rret_safe
  | |- ReaderSafe (rfail _) => apply rfail_safe
  | |- ReaderSafe (rbind _ _) => apply rbind_safe; [ | intros ? ]
  | |- ReaderSafe (if ?b then _ else _) => destruct b
  | |- ReaderSafe (rmap _ _) => unfold rmap
  | |- ReaderSafe (match ?x with _ => _ end) => destruct x
  | |- ReaderSafe _ => apply _
  end.
Ltac safe_tac := repeat (safe_step; cbn beta).

(** ** Little-endian integers *)

(** [to_le_bytes] of an [n]-byte integer *)
Fixpoint to_le (n : nat) (z : Z) : bytes :=
  match n with
  | O => []
  | S n' => z mod 256 :: to_le n' (z / 256)
  end.

(** [from_le_bytes] *)
Fixpoint from_le (bs : bytes) : Z :=
  match bs with
  | [] => 0
  | b :: bs' => b + 256 * from_le bs'
  end.

Lemma to_le_length n z : length (to_le n z) = n.
Proof. revert z. induction n; intros; cbn; auto. Qed.

Lemma U8_mod z : U 8 (z mod 256).
Proof. unfold U. change (2 ^ 8) with 256. apply Z.mod_pos_bound. lia. Qed.

Lemma to_le_bytes n z : is_bytes (to_le n z).
Proof.
  revert z. induction n; intros; cbn; constructor; auto using U8_mod. apply IHn.
Qed.

Lemma to_le_array n z : is_array n (to_le n z).
Proof. split; [apply to_le_bytes | apply to_le_length]. Qed.

Lemma pow8_succ n : 2 ^ (8 * Z.of_nat (S n)) = 256 * 2 ^ (8 * Z.of_nat n).
Proof.
  rewrite Nat2Z.inj_succ. replace (8 * Z.succ (Z.of_nat n)) with (8 + 8 * Z.of_nat n) by lia.
  rewrite Z.pow_add_r by lia. reflexivity.
Qed.

Lemma from_to_le n z : U (8 * Z.of_nat n) z -> from_le (to_le n z) = z.
Proof.
  revert z. induction n as [|n IH]; intros z [H1 H2]; cbn [to_le from_le].
  - cbn in H2. lia.
  - rewrite pow8_succ in H2. rewrite IH.
    + pose proof (Z.div_mod z 256). lia.
    + split; [apply Z.div_pos; lia | apply Z.div_lt_upper_bound; lia].
Qed.

Lemma from_le_U bs : is_bytes bs -> U (8 * len bs) (from_le bs).
Proof.
  unfold len. induction 1 as [|b bs Hb _ IH]; [cbn; unfold U; cbn; lia|].
  unfold U in *. cbn [length from_le]. rewrite pow8_succ. change (2 ^ 8) with 256 in Hb. lia.
Qed.

Lemma to_from_le bs : is_bytes bs -> to_le (length bs) (from_le bs) = bs.
Proof.
  induction 1 as [|b bs Hb _ IH]; cbn [length to_le from_le]; [reflexivity|].
  change (U 8 b) with (0 <= b < 2 ^ 8) in Hb. change (2 ^ 8) with 256 in Hb.
  rewrite (Z.mul_comm 256), Z.mod_add, Z.mod_small, Z.div_add, Z.div_small by lia.
  rewrite Z.add_0_l, IH. reflexivity.
Qed.

#[global] Arguments to_le : simpl never.
#[global] Arguments from_le : simpl never.

#[export] Hint Resolve to_le_bytes to_le_array : oxide.

(** A decidable fact about every byte, by evaluation. *)
Lemma byte_forall (P : Z -> bool) :
  forallb P (seqZ 0 256) = true -> forall b, U 8 b -> P b = true.
Proof.
  intros H b Hb. rewrite forallb_forall in H. apply H.
  apply list_elem_of_In, elem_of_seqZ. unfold U in Hb. lia.
Qed.

Lemma U_mono w w' z : 0 <= w <= w' -> U w z -> U w' z.
Proof.
  intros Hw [? ?]. split; [assumption|].
  apply Z.lt_le_trans with (2 ^ w); [assumption|]. apply Z.pow_le_mono_r; lia.
Qed.

Lemma insert_middle {A} (pre : list A) x y suf :
  <[length pre := y]> (pre ++ x :: suf) = pre ++ y :: suf.
Proof.
  rewrite <- (Nat.add_0_r (length pre)) at 1. rewrite insert_app_r. reflexivity.
Qed.

Lemma zeros_bytes n : is_bytes (repeat 0 n).
Proof. induction n; constructor; [unfold U; lia|assumption]. Qed.

(** ** Stable sorts

    [sort_by], by whether an element is to go before another *)

Fixpoint insert_by {A} (lt : A -> A -> bool) (a : A) (l : list A) : list A :=
  match l with
  | [] => [a]
  | b :: l => if lt a b then a :: b :: l else b :: insert_by lt a l
  end.

Definition sort_by {A} (lt : A -> A -> bool) (l : list A) : list A := foldl (fun l a => insert_by lt a l) [] l.

Section Sorting.
Context {A : Type} (lt : A -> A -> bool).

Lemma insert_by_perm a l : insert_by lt a l ≡ₚ a :: l.
Proof.
  induction l as [|b l IH]; cbn [insert_by]; [reflexivity|]. destruct (lt a b); [reflexivity|]. rewrite IH. apply Permutation_swap.
Qed.

Context (R : A -> A -> Prop) (Htrans : forall a b c, R a b -> R b c -> R a c).
Context (Hlt : forall a b, if lt a b then R a b else R b a).

Lemma insert_by_sorted a l : StronglySorted R l -> StronglySorted R (insert_by lt a l).
Proof.
  induction 1 as [|b l Hl IH Hb]; cbn [insert_by]; [repeat constructor|]. pose proof (Hlt a b) as Hab. destruct (lt a b).
  - constructor; [constructor; assumption|]. constructor; [exact Hab|]. eapply list.Forall_impl; [exact Hb|]. cbn. eauto.
  - constructor; [exact IH|]. rewrite insert_by_perm. constructor; assumption.
Qed.

Lemma sort_by_fold l acc : foldl (fun l a => insert_by lt a l) acc l ≡ₚ acc ++ l.
Proof.
  revert acc. induction l as [|a l IH]; intros acc; cbn [foldl]; [rewrite app_nil_r; auto|].
  rewrite IH, insert_by_perm. apply Permutation_middle.
Qed.

Lemma sort_by_sorted l : StronglySorted R (sort_by lt l).
Proof.
  unfold sort_by. generalize (SSorted_nil R). generalize (@nil A) as acc. induction l as [|a l IH]; intros acc Hs; [exact Hs|].
  apply IH, insert_by_sorted, Hs.
Qed.
End Sorting.

Lemma sort_by_map {A B} (f : A -> B) (lt : B -> B -> bool) l :
  sort_by lt (map f l) = map f (sort_by (fun a b => lt (f a) (f b)) l).
Proof.
  assert (Hi : forall a l, insert_by lt (f a) (map f l) = map f (insert_by (fun a b => lt (f a) (f b)) a l)).
  { intros a k. induction k as [|b k IH]; cbn; [reflexivity|]. destruct (lt (f a) (f b)); cbn; [reflexivity|]. rewrite IH. reflexivity. }
  unfold sort_by. change (@nil B) with (map f []). generalize (@nil A) as acc. induction l as [|a l IH]; intros acc; cbn [map foldl]; [reflexivity|].
  rewrite Hi. apply IH.
Qed.

Lemma sort_by_perm {A} (lt : A -> A -> bool) l : sort_by lt l ≡ₚ l.
Proof. apply (sort_by_fold lt l []). Qed.
