(* ===== verification/Primes.v ===== *)
(** The primality of the order of the prime-order subgroup, by Pocklington's
    criterion, so that the model of [curve25519_dalek] has inverses. *)

From Stdlib Require Import ZArith Lia Zmod Zpow_facts.
From stdpp Require Import base list numbers.
From S2P Require Import Prelude.

#[local] Open Scope Z_scope.

Lemma prime_factor n : 1 < n -> exists p, Z.prime p /\ (p | n).
Proof.
  intros Hn. assert (H : forall b, 0 <= b -> forall n, 1 < n <= b -> exists p, Z.prime p /\ (p | n)).
  { apply (natlike_ind (fun b => forall n, 1 < n <= b -> exists p, Z.prime p /\ (p | n))); [lia|].
    intros b Hb IH m Hm.
    destruct (decide (Exists (fun d => (m mod d =? 0) = true) (seqZ 2 (m - 2)))) as [He|He].
    - apply list.Exists_exists in He as (d & Hd & Hdm). apply elem_of_seqZ in Hd. apply Z.eqb_eq, Z.mod_divide in Hdm; [|lia].
      destruct (IH d) as (p & Hp & Hpd); [lia|]. exists p. split; [exact Hp|]. exact (Z.divide_trans _ _ _ Hpd Hdm).
    - exists m. split; [|apply Z.divide_refl]. split; [lia|]. intros d Hd Hdm. apply He, list.Exists_exists. exists d.
      split; [apply elem_of_seqZ; lia|]. apply Z.eqb_eq, Z.mod_divide; [lia|exact Hdm]. }
  exact (H n ltac:(lia) n ltac:(lia)).
Qed.

(** [n] is prime when its prime factors are more than its square root. *)
Lemma prime_of_factors n : 1 < n -> (forall p, Z.prime p -> (p | n) -> n < p * p) -> Z.prime n.
Proof.
  intros Hn Hp. split; [exact Hn|]. intros d Hd [e He].
  assert (He1 : 1 < e) by nia. destruct (Z.le_ge_cases d e) as [Hde|Hde].
  - destruct (prime_factor d) as (p & Hpp & Hpd); [lia|]. pose proof (Z.divide_pos_le p d ltac:(lia) Hpd) as Hle.
    pose proof (Hp p Hpp (Z.divide_trans _ _ _ Hpd (ex_intro _ e He))). pose proof (Z.prime_ge_2 _ Hpp). nia.
  - destruct (prime_factor e) as (p & Hpp & Hpd); [lia|]. pose proof (Z.divide_pos_le p e ltac:(lia) Hpd) as Hle.
    assert (Hen : (e | n)) by (exists d; lia).
    pose proof (Hp p Hpp (Z.divide_trans _ _ _ Hpd Hen)). pose proof (Z.prime_ge_2 _ Hpp). nia.
Qed.

(** Trial division *)
Lemma prime_trial n s : 1 < n < s * s -> 0 < s -> forallb (fun d => negb (n mod d =? 0)) (seqZ 2 (s - 2)) = true -> Z.prime n.
Proof.
  intros Hn Hs Hf. apply prime_of_factors; [lia|]. intros p Hp Hpn. pose proof (Z.prime_ge_2 _ Hp).
  destruct (Z.le_gt_cases s p); [nia|]. rewrite forallb_forall in Hf. specialize (Hf p).
  rewrite (proj2 (Z.eqb_eq _ _)) in Hf by (apply Z.mod_divide; [lia|exact Hpn]).
  discriminate Hf. apply list_elem_of_In, elem_of_seqZ. lia.
Qed.

(** What [a] shows of the prime factor [q] of [n - 1]: that it divides the
    predecessor of each prime factor of [n] *)
Definition certifies (n q a : Z) : bool :=
  ((n - 1) mod q =? 0) && (Zpow_mod (Zpow_mod a ((n - 1) / q) n) q n =? 1) &&
  (Z.gcd (Zpow_mod a ((n - 1) / q) n - 1) n =? 1).

Lemma certified_factor n q a p : 1 < n -> Z.prime q -> certifies n q a = true -> Z.prime p -> (p | n) -> (q | p - 1).
Proof.
  intros Hn Hq Hc Hp [m Hm]. unfold certifies in Hc. apply andb_prop in Hc as [[_ Hpow]%andb_prop Hgcd].
  apply Z.eqb_eq in Hpow, Hgcd. set (b := Zpow_mod a ((n - 1) / q) n) in *. rewrite Zpow_mod_correct in Hpow by lia.
  pose proof (Z.prime_ge_2 _ Hp). pose proof (Z.prime_ge_2 _ Hq).
  assert (Hbq : Zmod.pow (Zmod.of_Z p b) q = Zmod.one).
  { rewrite <- Zmod.of_Z_pow by lia. apply Zmod.to_Z_inj. rewrite Zmod.to_Z_1 by lia. rewrite Zmod.to_Z_of_Z.
    rewrite (Z.div_mod (b ^ q) n) by lia. rewrite Hpow, Hm. replace (m * p * (b ^ q / (m * p)) + 1) with (1 + (m * (b ^ q / (m * p))) * p) by ring.
    rewrite Z.mod_add by lia. reflexivity. }
  assert (Hb0 : Zmod.of_Z p b <> Zmod.zero).
  { intros Hz. rewrite Hz, Zmod.pow_0_l in Hbq by lia. apply (Zmod.one_neq_zero (m := p)); [lia|]. symmetry. exact Hbq. }
  assert (Hcop : Z.gcd (Zmod.to_Z (Zmod.of_Z p b)) p = 1).
  { rewrite Z.gcd_comm. apply Z.coprime_prime_small; [exact Hp|]. pose proof (Zmod.to_Z_range (Zmod.of_Z p b)) as Hr.
    assert (Zmod.to_Z (Zmod.of_Z p b) <> 0); [|lia]. intros Hz. apply Hb0, Zmod.to_Z_inj. rewrite Hz, Zmod.to_Z_0. reflexivity. }
  destruct (Z.eq_dec ((p - 1) mod q) 0) as [Hd|Hd]; [apply Z.mod_divide; [lia|exact Hd]|]. exfalso.
  assert (Hqp : Z.coprime q (p - 1)) by (apply Z.coprime_prime_l; [exact Hq|]; intros Hd'; apply Hd, Z.mod_divide; [lia|exact Hd']).
  apply Z.Bezout_coprime in Hqp as (u & v & Huv).
  assert (Hb1 : Zmod.of_Z p b = Zmod.one).
  { rewrite <- (Zmod.pow_1_r (Zmod.of_Z p b)), <- Huv, Zmod.pow_add_r_coprime by exact Hcop.
    rewrite (Z.mul_comm u), (Z.mul_comm v), !Zmod.pow_mul_r_coprime by exact Hcop. rewrite Hbq.
    change (p - 1) with (Z.pred p). rewrite Zmod.fermat_nz by assumption. rewrite !Zmod.pow_1_l. apply Zmod.mul_1_l. }
  apply (f_equal Zmod.to_Z) in Hb1. rewrite Zmod.to_Z_of_Z, Zmod.to_Z_1, Z.mod_1_l in Hb1 by lia.
  assert (Hdiv : (p | b - 1)).
  { exists (b / p). rewrite (Z.div_mod b p) at 1 by lia. lia. }
  assert (Hg : (p | 1)) by (rewrite <- Hgcd; apply Z.gcd_greatest; [exact Hdiv|exists m; lia]).
  apply Z.divide_pos_le in Hg; lia.
Qed.

Lemma pocklington n q a : 1 < n <= q * q -> Z.prime q -> certifies n q a = true -> Z.prime n.
Proof.
  intros Hn Hq Hc. apply prime_of_factors; [lia|]. intros p Hp Hpn. pose proof (Z.prime_ge_2 _ Hp).
  pose proof (certified_factor n q a p ltac:(lia) Hq Hc Hp Hpn) as Hd. apply Z.divide_pos_le in Hd; [|lia].
  pose proof (Z.prime_ge_2 _ Hq). assert (q * q <= (p - 1) * (p - 1)) by (apply Z.mul_le_mono_nonneg; lia). lia.
Qed.

Lemma prime_531581 : Z.prime 531581.
Proof. apply (prime_trial _ 730); [lia|lia|vm_compute; reflexivity]. Qed.

Lemma prime_1224481 : Z.prime 1224481.
Proof. apply (prime_trial _ 1107); [lia|lia|vm_compute; reflexivity]. Qed.

Lemma prime_1257559732178653 : Z.prime 1257559732178653.
Proof.
  apply prime_of_factors; [lia|]. intros p Hp Hpn. pose proof (Z.prime_ge_2 _ Hp).
  pose proof (certified_factor 1257559732178653 531581 2 p ltac:(lia) prime_531581 ltac:(vm_compute; reflexivity) Hp Hpn) as H1.
  pose proof (certified_factor 1257559732178653 1224481 2 p ltac:(lia) prime_1224481 ltac:(vm_compute; reflexivity) Hp Hpn) as [k Hk].
  rewrite Hk in H1. rewrite Z.divide_prime_mul in H1 by exact prime_531581. destruct H1 as [H1|H1].
  - apply Z.divide_pos_le in H1; [|lia]. assert (531581 * 1224481 <= p) by lia.
    assert (531581 * 1224481 * (531581 * 1224481) <= p * p) by (apply Z.mul_le_mono_nonneg; lia). lia.
  - exfalso. destruct H1 as [j Hj]. lia.
Qed.

Lemma prime_4434155615661930479 : Z.prime 4434155615661930479.
Proof. apply (pocklington _ 1257559732178653 2); [lia|exact prime_1257559732178653|vm_compute; reflexivity]. Qed.

Lemma prime_172054593956031949258510691 : Z.prime 172054593956031949258510691.
Proof. apply (pocklington _ 4434155615661930479 2); [lia|exact prime_4434155615661930479|vm_compute; reflexivity]. Qed.

Lemma prime_19757330305831588566944191468367130476339 : Z.prime 19757330305831588566944191468367130476339.
Proof. apply (pocklington _ 172054593956031949258510691 2); [lia|exact prime_172054593956031949258510691|vm_compute; reflexivity]. Qed.

Lemma prime_276602624281642239937218680557139826668747 : Z.prime 276602624281642239937218680557139826668747.
Proof.
  apply (pocklington _ 19757330305831588566944191468367130476339 2);
    [lia|exact prime_19757330305831588566944191468367130476339|vm_compute; reflexivity].
Qed.

Lemma order_prime : Z.prime (2 ^ 252 + 27742317777372353535851937790883648493).
Proof.
  apply (pocklington _ 276602624281642239937218680557139826668747 2);
    [lia|exact prime_276602624281642239937218680557139826668747|vm_compute; reflexivity].
Qed.
