(* ===== verification/MoneroIo.v ===== *)
(** The [monero-io] crate ([io/src/lib.rs], [io/src/varint.rs]): byte and list
    reading and writing over [&mut &[u8]] and [Vec<u8>], and Monero's VarInt. *)

From Stdlib Require Import ZArith Lia.
From stdpp Require Import base list strings numbers.
From S2P Require Import Prelude.

(** [std_shims::io::Error], as this code raises it: [read_exact] finding too
    few bytes, or [io::Error::other] with a message. *)
Inductive io_error : Type :=
| UnexpectedEof
| Other (msg : string).

Abbreviation io_reader := (reader io_error).

Definition rother {A} (msg : string) : io_reader A := rfail (Other msg).

Definition ok_or_other {A} (o : option A) (msg : string) : io_reader A :=
  match o with Some a => rret a | None => rother msg end.

(** ** Bytes ([io/src/lib.rs]) *)

(** [write_byte] *)
Definition write_byte (byte : Z) : bytes := [byte].

(** [Read::read_exact] of [&[u8]] into a buffer of [n] bytes, as [read_bytes]
    uses it: with too few bytes left the slice is emptied and an error returned. *)
Definition read_bytes (n : nat) : io_reader bytes :=
  fun bs =>
    if (length bs <? n)%nat then (Err UnexpectedEof, [])
    else (Ok (take n bs), drop n bs).

Definition read_byte : io_reader Z :=
  let* b := read_bytes 1 in
  match b with
  | b0 :: _ => rret b0
  | [] => rpanic
  end.

Definition read_u16 : io_reader Z := rmap from_le (read_bytes 2).
Definition read_u32 : io_reader Z := rmap from_le (read_bytes 4).
Definition read_u64 : io_reader Z := rmap from_le (read_bytes 8).

(** [write_raw_vec]: the elements in order, each as [f] writes it. *)
Fixpoint write_raw_vec {A} (f : A -> bytes) (values : list A) : bytes :=
  match values with
  | [] => []
  | value :: values' => f value ++ write_raw_vec f values'
  end.

(** [read_raw_vec]: [len] elements in order, stopping at the first error. *)
Fixpoint read_raw_vec {E A} (f : reader E A) (len : nat) : reader E (list A) :=
  match len with
  | O => rret []
  | S len' =>
      let* x := f in
      let* xs := read_raw_vec f len' in
      rret (x :: xs)
  end.

(** [read_array]: the conversion to an array panics on another length. *)
Definition read_array {A} (f : io_reader A) (n : nat) : io_reader (list A) :=
  let* vec := read_raw_vec f n in
  if (length vec =? n)%nat then rret vec else rpanic.

(** ** VarInt ([io/src/varint.rs]) *)

Module VarInt.

Definition VARINT_CONTINUATION_FLAG : Z := 128.
(** [!VARINT_CONTINUATION_FLAG] on a [u8] *)
Definition VARINT_VALUE_MASK : Z := Z.lxor 255 VARINT_CONTINUATION_FLAG.

(** The types the sealed trait is implemented for. *)
Inductive ty : Type := u8 | u32 | u64 | usize.

(** [size_of::<Self>() * 8], also [Self::BITS] *)
Definition BITS (t : ty) : Z :=
  match t with u8 => 8 | u32 => 32 | u64 => 64 | usize => USIZE_BITS end.

(** [upper_bound], whose [assert!] holds for the widths it is used at. *)
Definition upper_bound (bits : Z) : Z := (bits + (7 - 1)) / 7.

Definition LOWER_BOUND (t : ty) : Z := 1.
Definition UPPER_BOUND (t : ty) : Z := upper_bound (BITS t).

(** [u64::BITS - x.leading_zeros()] *)
Definition bit_length (x : Z) : Z := if x =? 0 then 0 else Z.log2 x + 1.

(** [varint_len]: [bits.div_ceil(7).max(1)] *)
Definition varint_len (x : Z) : Z :=
  let bits := bit_length x in
  let encoded_bytes := (bits + 6) / 7 in
  Z.max encoded_bytes 1.

(** One iteration of [read]'s loop on the byte [b]: the checks in the order
    of the code, with the arithmetic that would panic in a checked build
    ([1u8 << (U_BITS - bits)], [<< bits] and [+=] on a [u64]) made explicit.
    Yields the new [res] and [bits] and whether another byte follows. *)
Definition read_step (U_BITS bits res b : Z) : outcome io_error (Z * Z * bool) :=
  if negb (bits =? 0) && (b =? 0) then Err (Other "non-canonical varint")
  else
    let? overflow :=
      if U_BITS <=? bits + 7 then
        if (U_BITS - bits <? 0) || (8 <=? U_BITS - bits) then Panic
        else Ok (Z.shiftl 1 (U_BITS - bits) <=? b)
      else Ok false in
    if (overflow : bool) then Err (Other "varint overflow")
    else if 64 <=? bits then Panic
    else
      let term := Z.shiftl (Z.land b VARINT_VALUE_MASK) bits mod 2 ^ 64 in
      if 2 ^ 64 <=? res + term then Panic
      else Ok (res + term, bits + 7,
               Z.land b VARINT_CONTINUATION_FLAG =? VARINT_CONTINUATION_FLAG).

(** [read]'s loop, by recursion on the bytes left: every iteration reads one
    ([read_byte], unfolded). *)
Fixpoint read_loop (U_BITS bits res : Z) (bs : bytes) {struct bs}
  : outcome io_error Z * bytes :=
  match bs with
  | [] => (Err UnexpectedEof, [])
  | b :: bs' =>
      match read_step U_BITS bits res b with
      | Ok (res', bits', true) => read_loop U_BITS bits' res' bs'
      | Ok (res', _, false) => (Ok res', bs')
      | Err e => (Err e, bs')
      | Panic => (Panic, bs')
      end
  end.

(** [VarInt::read] *)
Definition read (t : ty) : io_reader Z :=
  let* res := read_loop (BITS t) 0 0 in
  if res <? 2 ^ BITS t then rret res
  else rother "VarInt does not fit into integer type".

(** [VarInt::write]'s loop; [write] gives it [UPPER_BOUND] of a [u64] rounds,
    which [write_loop_fuel] shows to be enough. *)
Fixpoint write_loop (fuel : nat) (varint : Z) : bytes :=
  match fuel with
  | O => []
  | S fuel' =>
      let b := Z.land varint VARINT_VALUE_MASK in
      let varint' := Z.shiftr varint 7 in
      let b := if negb (varint' =? 0) then Z.lor b VARINT_CONTINUATION_FLAG else b in
      write_byte b ++ (if negb (varint' =? 0) then write_loop fuel' varint' else [])
  end.

Definition write (varint : Z) : bytes := write_loop 10 varint.

End VarInt.

(** [write_vec] *)
Definition write_vec {A} (f : A -> bytes) (values : list A) : bytes :=
  VarInt.write (len values) ++ write_raw_vec f values.

(** [read_vec] *)
Definition read_vec {A} (f : io_reader A) (length_bound : option Z) : io_reader (list A) :=
  let* declared_length := VarInt.read VarInt.usize in
  match length_bound with
  | Some bound =>
      if bound <? declared_length then rother "vector exceeds bound on length"
      else read_raw_vec f (Z.to_nat declared_length)
  | None => read_raw_vec f (Z.to_nat declared_length)
  end.

(** ** Correctness of VarInt *)

Section VarIntProofs.
Import VarInt.

Lemma mask_mod b : U 8 b -> Z.land b VARINT_VALUE_MASK = b mod 128.
Proof. intros _. change VARINT_VALUE_MASK with (Z.ones 7). rewrite Z.land_ones by lia. reflexivity. Qed.

Lemma mask_mod_any x : Z.land x VARINT_VALUE_MASK = x mod 128.
Proof. change VARINT_VALUE_MASK with (Z.ones 7). rewrite Z.land_ones by lia. reflexivity. Qed.

Lemma flag_ge b : U 8 b ->
  (Z.land b VARINT_CONTINUATION_FLAG =? VARINT_CONTINUATION_FLAG) = (128 <=? b).
Proof.
  intros Hb. apply Bool.eqb_prop.
  apply (byte_forall (fun b => Bool.eqb (Z.land b 128 =? 128) (128 <=? b))); [reflexivity|assumption].
Qed.

Lemma lor_flag v : 0 <= v < 128 -> Z.lor v VARINT_CONTINUATION_FLAG = v + 128.
Proof.
  intros Hv. assert (Hb : implb (v <? 128) (Z.lor v 128 =? v + 128) = true).
  { apply (byte_forall (fun v => implb (v <? 128) (Z.lor v 128 =? v + 128))); [reflexivity|].
    unfold U. lia. }
  destruct (Z.ltb_spec v 128); [apply Z.eqb_eq, Hb | lia].
Qed.

Lemma write_loop_S f x : 0 <= x ->
  write_loop (S f) x =
    if x <? 128 then [x] else (x mod 128 + 128) :: write_loop f (x / 128).
Proof.
  intros Hx. cbn [write_loop]. unfold write_byte. rewrite mask_mod_any.
  rewrite Z.shiftr_div_pow2 by lia. change (2 ^ 7) with 128.
  pose proof (Z.mod_pos_bound x 128).
  destruct (Z.ltb_spec x 128).
  - rewrite Z.div_small, Z.mod_small by lia. reflexivity.
  - assert (1 <= x / 128) by (apply Z.div_le_lower_bound; lia).
    destruct (Z.eqb_spec (x / 128) 0); [lia|]. cbn [negb app].
    rewrite lor_flag by lia. reflexivity.
Qed.

Lemma read_step_spec W bits res b :
  8 <= W <= 64 -> 0 <= bits < W -> U bits res -> U 8 b ->
  read_step W bits res b =
    if negb (bits =? 0) && (b =? 0) then Err (Other "non-canonical varint")
    else if (W <=? bits + 7) && (2 ^ (W - bits) <=? b) then Err (Other "varint overflow")
    else Ok (res + b mod 128 * 2 ^ bits, bits + 7, 128 <=? b).
Proof.
  intros HW Hbits Hres Hb. unfold read_step.
  destruct (negb (bits =? 0) && (b =? 0)); [reflexivity|].
  rewrite flag_ge, mask_mod by assumption. rewrite Z.shiftl_mul_pow2, Z.mul_1_l by lia.
  assert (Hok : b mod 128 * 2 ^ bits + res < 2 ^ 64 -> forall x y : outcome io_error (Z * Z * bool),
    (if 64 <=? bits then x
     else let term := Z.shiftl (b mod 128) bits mod 2 ^ 64 in
          if 2 ^ 64 <=? res + term then y
          else Ok (res + term, bits + 7, 128 <=? b))
    = Ok (res + b mod 128 * 2 ^ bits, bits + 7, 128 <=? b)).
  { intros Hlt x y. pose proof (Z.mod_pos_bound b 128). unfold U in Hres.
    destruct (Z.leb_spec 64 bits); [lia|]. cbv zeta.
    rewrite Z.shiftl_mul_pow2 by lia.
    assert (0 <= b mod 128 * 2 ^ bits) by (apply Z.mul_nonneg_nonneg; lia).
    rewrite (Z.mod_small (_ * _)) by lia.
    destruct (Z.leb_spec (2 ^ 64) (res + b mod 128 * 2 ^ bits)); [lia|reflexivity]. }
  pose proof (Z.mod_pos_bound b 128). unfold U in *.
  assert (Hp : 2 ^ bits > 0) by (apply Z.lt_gt, Z.pow_pos_nonneg; lia).
  destruct (Z.leb_spec W (bits + 7)) as [HW'|HW']; cbn [andb obind].
  - destruct (Z.ltb_spec (W - bits) 0); [lia|]. destruct (Z.leb_spec 8 (W - bits)); [lia|].
    cbn [orb obind]. destruct (Z.leb_spec (2 ^ (W - bits)) b); [reflexivity|].
    apply Hok. assert (2 ^ W <= 2 ^ 64) by (apply Z.pow_le_mono_r; lia).
    assert (2 ^ W = 2 ^ (W - bits) * 2 ^ bits) by (rewrite <- Z.pow_add_r by lia; f_equal; lia).
    assert (b mod 128 <= b) by (apply Z.mod_le; lia). nia.
  - apply Hok. assert (2 ^ (bits + 7) <= 2 ^ 64) by (apply Z.pow_le_mono_r; lia).
    rewrite Z.pow_add_r in * by lia. change (2 ^ 7) with 128 in *. nia.
Qed.

(** What one accepted byte leaves for the rest of the loop. *)
Lemma read_step_inv W bits res b res' bits' more :
  8 <= W <= 64 -> 0 <= bits < W -> U bits res -> U 8 b ->
  read_step W bits res b = Ok (res', bits', more) ->
  res' = res + b mod 128 * 2 ^ bits /\ bits' = bits + 7 /\ more = (128 <=? b) /\
  (bits <> 0 -> b <> 0) /\ (W <= bits + 7 -> b < 2 ^ (W - bits)) /\
  (more = true -> bits' < W) /\ U bits' res'.
Proof.
  intros HW Hbits Hres Hb. rewrite read_step_spec by assumption.
  destruct (negb (bits =? 0) && (b =? 0)) eqn:E1; [discriminate|].
  destruct ((W <=? bits + 7) && (2 ^ (W - bits) <=? b)) eqn:E2; [discriminate|].
  intros [= <- <- <-]. apply andb_false_iff in E1, E2.
  pose proof (Z.mod_pos_bound b 128). unfold U in *.
  assert (2 ^ (bits + 7) = 128 * 2 ^ bits) as Hp
    by (rewrite Z.pow_add_r by lia; change (2 ^ 7) with 128; lia).
  split_and!; try reflexivity.
  - intros ? ->. destruct E1 as [E1|E1]; lia.
  - intros Hm. destruct E2 as [E2|E2]; lia.
  - intros Hm. destruct E2 as [E2|E2]; [lia|].
    destruct (Z.le_gt_cases W (bits + 7)); [|lia]. exfalso.
    assert (2 ^ (W - bits) <= 2 ^ 7) by (apply Z.pow_le_mono_r; lia).
    change (2 ^ 7) with 128 in *. lia.
  - nia.
  - nia.
Qed.

Lemma read_loop_write W f x bits res rest :
  8 <= W <= 64 -> 0 <= bits < W -> U bits res ->
  0 <= x < 2 ^ (W - bits) -> (0 < f)%nat -> x < 2 ^ (7 * Z.of_nat f) ->
  (bits <> 0 -> x <> 0) ->
  read_loop W bits res (write_loop f x ++ rest) = (Ok (res + x * 2 ^ bits), rest).
Proof.
  revert x bits res. induction f as [|f IH]; intros x bits res HW Hbits Hres Hx Hf0 Hf Hnz.
  - lia.
  - rewrite write_loop_S by lia.
    destruct (Z.ltb_spec x 128) as [Hlt|Hge]; cbn [app read_loop].
    + rewrite read_step_spec by (unfold U in *; lia).
      destruct (negb (bits =? 0) && (x =? 0)) eqn:E1.
      { apply andb_true_iff in E1 as [E1%negb_true_iff E1']. lia. }
      destruct ((W <=? bits + 7) && (2 ^ (W - bits) <=? x)) eqn:E2.
      { apply andb_true_iff in E2 as [E2 E2']. lia. }
      destruct (Z.leb_spec 128 x); [lia|]. rewrite Z.mod_small by lia. reflexivity.
    + pose proof (Z.mod_pos_bound x 128).
      assert (Hdiv : x = 128 * (x / 128) + x mod 128) by (apply Z.div_mod; lia).
      assert (Hq : 1 <= x / 128) by (apply Z.div_le_lower_bound; lia).
      assert (HW7 : bits + 7 < W).
      { destruct (Z.le_gt_cases W (bits + 7)); [|lia].
        assert (2 ^ (W - bits) <= 2 ^ 7) by (apply Z.pow_le_mono_r; lia).
        change (2 ^ 7) with 128 in *. lia. }
      rewrite read_step_spec by (unfold U in *; lia).
      destruct (negb (bits =? 0) && (x mod 128 + 128 =? 0)) eqn:E1.
      { apply andb_true_iff in E1 as [_ E1']. lia. }
      destruct (Z.leb_spec W (bits + 7)); [lia|]. cbn [andb].
      destruct (Z.leb_spec 128 (x mod 128 + 128)); [|lia].
      replace ((x mod 128 + 128) mod 128) with (x mod 128)
        by (rewrite <- (Z.mul_1_l 128) at 3; rewrite Z.mod_add, Z.mod_mod by lia; reflexivity).
      assert (Hp7 : 2 ^ (bits + 7) = 128 * 2 ^ bits)
        by (rewrite Z.pow_add_r by lia; change (2 ^ 7) with 128; lia).
      rewrite IH; unfold U in *; try lia.
      * f_equal. f_equal. nia.
      * nia.
      * split; [lia|]. apply Z.div_lt_upper_bound; [lia|].
        replace (W - (bits + 7)) with (W - bits - 7) by lia.
        replace (128 * 2 ^ (W - bits - 7)) with (2 ^ (W - bits)); [lia|].
        change 128 with (2 ^ 7). rewrite <- Z.pow_add_r by lia. f_equal. lia.
      * destruct f; [cbn in Hf; lia | lia].
      * apply Z.div_lt_upper_bound; [lia|].
        replace (7 * Z.of_nat (S f)) with (7 + 7 * Z.of_nat f) in Hf by lia.
        rewrite Z.pow_add_r in Hf by lia. change (2 ^ 7) with 128 in Hf. lia.
Qed.

Lemma read_loop_sound W bits res bs v rest :
  8 <= W <= 64 -> 0 <= bits < W -> U bits res -> is_bytes bs ->
  read_loop W bits res bs = (Ok v, rest) ->
  exists x, v = res + x * 2 ^ bits /\ 0 <= x < 2 ^ (W - bits) /\ (bits <> 0 -> x <> 0) /\
    forall f, (0 < f)%nat -> x < 2 ^ (7 * Z.of_nat f) -> bs = write_loop f x ++ rest.
Proof.
  intros HW Hbits Hres Hbs. revert bits res Hbits Hres.
  induction Hbs as [|b bs Hb _ IH]; intros bits res Hbits Hres; cbn [read_loop]; [discriminate|].
  destruct (read_step W bits res b) as [[[res' bits'] more]|e|] eqn:Es; [|discriminate..].
  apply read_step_inv in Es as (-> & -> & -> & Hnz & Hov & Hmore & Hres'); try assumption.
  pose proof (Z.mod_pos_bound b 128). pose proof Hb as Hb'.
  change (0 <= b < 2 ^ 8) in Hb'. change (2 ^ 8) with 256 in Hb'.
  destruct (Z.leb_spec 128 b) as [Hge|Hlt].
  - specialize (Hmore eq_refl).
    intros (x & -> & Hx & Hxnz & Hw)%IH; [|lia|assumption].
    assert (Hx0 : x <> 0) by (apply Hxnz; lia).
    assert (Hbm : b mod 128 = b - 128).
    { replace b with ((b - 128) + 1 * 128) at 1 by lia. rewrite Z.mod_add by lia. apply Z.mod_small. lia. }
    exists (b mod 128 + 128 * x).
    assert (HpW : 2 ^ (W - bits) = 128 * 2 ^ (W - (bits + 7)))
      by (change 128 with (2 ^ 7); rewrite <- Z.pow_add_r by lia; f_equal; lia).
    assert (Hp : 2 ^ (bits + 7) = 128 * 2 ^ bits)
      by (rewrite Z.pow_add_r by lia; change (2 ^ 7) with 128; lia).
    split_and!; [rewrite Hp; ring|lia|nia|lia|].
    intros [|f] Hf0 Hf; [lia|]. rewrite write_loop_S by lia.
    destruct (Z.ltb_spec (b mod 128 + 128 * x) 128); [lia|].
    rewrite (Z.mul_comm 128 x), Z.mod_add, Z.mod_mod, Z.div_add, Z.div_small by lia.
    rewrite Z.add_0_l. cbn [app]. f_equal; [lia|]. apply Hw.
    { destruct f; [cbn in Hf; lia | lia]. }
    replace (7 * Z.of_nat (S f)) with (7 + 7 * Z.of_nat f) in Hf by lia.
    rewrite Z.pow_add_r in Hf by lia. change (2 ^ 7) with 128 in Hf. lia.
  - intros [= <- <-]. rewrite Z.mod_small by lia. exists b.
    split_and!; [reflexivity|lia| |lia|].
    + destruct (Z.le_gt_cases W (bits + 7)); [auto|].
      assert (2 ^ 7 < 2 ^ (W - bits)) by (apply Z.pow_lt_mono_r; lia).
      change (2 ^ 7) with 128 in *. lia.
    + intros [|f] Hf0 Hf; [lia|].
      rewrite write_loop_S by lia. destruct (Z.ltb_spec b 128); [reflexivity|lia].
Qed.

Lemma read_loop_safe W bits res bs :
  8 <= W <= 64 -> 0 <= bits < W -> U bits res -> is_bytes bs ->
  no_panic (fst (read_loop W bits res bs)) /\
  exists pre, bs = pre ++ snd (read_loop W bits res bs).
Proof.
  intros HW Hbits Hres Hbs. revert bits res Hbits Hres.
  induction Hbs as [|b bs Hb _ IH]; intros bits res Hbits Hres; cbn [read_loop].
  { split; [exact I | exists []; reflexivity]. }
  destruct (read_step W bits res b) as [[[res' bits'] more]|e|] eqn:Es.
  - apply read_step_inv in Es as (-> & -> & -> & _ & _ & Hmore & Hres'); try assumption.
    destruct (128 <=? b).
    + specialize (Hmore eq_refl). destruct (IH (bits + 7) _ ltac:(lia) Hres') as [Hn [pre Hp]].
      split; [exact Hn|]. exists (b :: pre). cbn. f_equal. exact Hp.
    + split; [exact I | exists [b]; reflexivity].
  - split; [exact I | exists [b]; reflexivity].
  - rewrite read_step_spec in Es by assumption.
    repeat case_match; discriminate Es.
Qed.

Lemma BITS_range t : 8 <= BITS t <= 64.
Proof. destruct t; cbn; unfold USIZE_BITS; lia. Qed.

Lemma U64_BITS t x : U (BITS t) x -> U 64 x.
Proof. apply U_mono. pose proof (BITS_range t). lia. Qed.

Lemma read_safe t : ReaderSafe (read t).
Proof.
  unfold read. apply rbind_safe; [|intros; destruct (_ <? _); apply _].
  intros bs Hbs. pose proof (BITS_range t). apply read_loop_safe; [lia|lia|cbn; unfold U; lia|assumption].
Qed.

Lemma write_loop_bytes f x : 0 <= x -> is_bytes (write_loop f x).
Proof.
  revert x. induction f as [|f IH]; intros x Hx; [constructor|].
  rewrite write_loop_S by assumption. pose proof (Z.mod_pos_bound x 128).
  destruct (Z.ltb_spec x 128).
  - repeat constructor. all: try (change (2 ^ 8) with 256; lia).
  - constructor; [unfold U; change (2 ^ 8) with 256; lia|]. apply IH, Z.div_pos; lia.
Qed.

(** Monero's VarInt is a codec for each of the widths it is used at: exact
    round trip, one accepted encoding per value, and no panicking input. *)
#[export] Instance varint_codec t : Codec (read t) write (U (BITS t)).
Proof.
  pose proof (BITS_range t) as HB. split.
  - intros x Hx. apply write_loop_bytes. apply Hx.
  - intros x rest Hx. pose proof (U64_BITS _ _ Hx) as Hx64. unfold U in Hx, Hx64.
    unfold read. erewrite rbind_ok.
    2: { unfold write. apply read_loop_write; rewrite ?Z.sub_0_r; cbn; unfold U; lia. }
    rewrite Z.mul_1_r, Z.add_0_l. destruct (Z.ltb_spec x (2 ^ BITS t)); [reflexivity|lia].
  - intros bs x rest Hbs. unfold read. intros (v & bs' & Hl & H)%rbind_ok_inv.
    apply read_loop_sound in Hl as (y & -> & Hy & _ & Hw); [|lia|lia|cbn; unfold U; lia|assumption].
    rewrite Z.sub_0_r in Hy. rewrite Z.mul_1_r, Z.add_0_l in H.
    destruct (Z.ltb_spec y (2 ^ BITS t)); [|lia]. apply rret_ok_inv in H as [-> ->].
    split; [exact Hy|]. apply Hw; [lia|]. pose proof (U64_BITS t x Hy). unfold U in *. cbn. lia.
  - apply read_safe.
Qed.

Lemma bit_length_div x : 128 <= x -> bit_length x = bit_length (x / 128) + 7.
Proof.
  intros Hx. unfold bit_length. assert (1 <= x / 128) by (apply Z.div_le_lower_bound; lia).
  destruct (Z.eqb_spec x 0), (Z.eqb_spec (x / 128) 0); try lia.
  change 128 with (2 ^ 7). rewrite <- Z.shiftr_div_pow2, Z.log2_shiftr by lia.
  assert (Z.log2 (2 ^ 7) <= Z.log2 x) by (apply Z.log2_le_mono; lia).
  rewrite Z.log2_pow2 in * by lia. lia.
Qed.

Lemma bit_length_le n x : 0 <= n -> U n x -> bit_length x <= n.
Proof.
  intros Hn [Hx1 Hx2]. unfold bit_length. destruct (Z.eqb_spec x 0); [lia|].
  assert (Z.log2 x < n) by (apply Z.log2_lt_pow2; lia). lia.
Qed.

Lemma bit_length_nonneg x : 0 <= bit_length x.
Proof. unfold bit_length. destruct (_ =? _); [lia|]. pose proof (Z.log2_nonneg x). lia. Qed.

Lemma write_loop_len f x :
  (0 < f)%nat -> U (7 * Z.of_nat f) x -> len (write_loop f x) = varint_len x.
Proof.
  revert x. induction f as [|f IH]; intros x Hf Hx; [lia|].
  rewrite write_loop_S by apply Hx. unfold varint_len.
  pose proof (bit_length_nonneg x). destruct (Z.ltb_spec x 128).
  - assert (bit_length x <= 7) by (apply bit_length_le; [lia|split; [apply Hx|lia]]).
    assert ((bit_length x + 6) / 7 <= 1).
    { apply Z.lt_succ_r, Z.div_lt_upper_bound; lia. }
    change (len [x]) with 1. lia.
  - assert (1 <= x / 128) by (apply Z.div_le_lower_bound; lia).
    assert (Hx' : U (7 * Z.of_nat f) (x / 128)).
    { unfold U in *. split; [lia|]. apply Z.div_lt_upper_bound; [lia|].
      replace (7 * Z.of_nat (S f)) with (7 + 7 * Z.of_nat f) in Hx by lia.
      rewrite Z.pow_add_r in Hx by lia. change (2 ^ 7) with 128 in Hx. lia. }
    destruct f as [|f]; [unfold U in Hx'; cbn in Hx'; lia|].
    change (len (?b :: ?l)) with (Z.of_nat (S (length l))). rewrite Nat2Z.inj_succ.
    change (Z.of_nat (length ?l)) with (len l). rewrite IH by (assumption || lia).
    unfold varint_len. rewrite (bit_length_div x) by lia.
    replace (bit_length (x / 128) + 7 + 6) with (bit_length (x / 128) + 6 + 1 * 7) by lia.
    rewrite Z.div_add by lia.
    assert (1 <= bit_length (x / 128)).
    { unfold bit_length. destruct (Z.eqb_spec (x / 128) 0); [lia|].
      pose proof (Z.log2_nonneg (x / 128)). lia. }
    assert (1 <= (bit_length (x / 128) + 6) / 7) by (apply Z.div_le_lower_bound; lia). lia.
Qed.

Lemma write_len x : U 64 x -> len (write x) = varint_len x.
Proof. intros Hx. apply write_loop_len; [lia|]. apply (U_mono 64); [lia|assumption]. Qed.

(** [varint_len] never exceeds the bound declared for the type. *)
Lemma varint_len_bounds t x : U (BITS t) x -> LOWER_BOUND t <= varint_len x <= UPPER_BOUND t.
Proof.
  intros Hx. unfold varint_len, LOWER_BOUND, UPPER_BOUND, upper_bound.
  pose proof (BITS_range t).
  assert (bit_length x <= BITS t) by (apply bit_length_le; [lia|assumption]).
  assert ((bit_length x + 6) / 7 <= (BITS t + (7 - 1)) / 7) by (apply Z.div_le_mono; lia).
  assert (1 <= (BITS t + (7 - 1)) / 7) by (apply Z.div_le_lower_bound; lia). lia.
Qed.

Lemma varint_len_mono x y : 0 <= x <= y -> varint_len x <= varint_len y.
Proof.
  intros Hxy. unfold varint_len, bit_length.
  destruct (Z.eqb_spec x 0), (Z.eqb_spec y 0); try lia.
  - pose proof (Z.log2_nonneg y). assert (0 <= (Z.log2 y + 1 + 6) / 7) by (apply Z.div_pos; lia).
    change ((0 + 6) / 7) with 0. lia.
  - assert (Z.log2 x <= Z.log2 y) by (apply Z.log2_le_mono; lia).
    assert ((Z.log2 x + 1 + 6) / 7 <= (Z.log2 y + 1 + 6) / 7) by (apply Z.div_le_mono; lia). lia.
Qed.
End VarIntProofs.

(** ** Correctness of the byte and list combinators *)

Section IoProofs.
#[export] Instance read_bytes_codec n : Codec (read_bytes n) (fun b => b) (is_array n).
Proof.
  split.
  - apply is_array_bytes.
  - intros a rest [_ Ha]. unfold read_bytes. rewrite length_app.
    destruct (Nat.ltb_spec (length a + length rest) n); [lia|].
    rewrite take_app_length', drop_app_length' by lia. reflexivity.
  - intros bs a rest Hbs. unfold read_bytes. destruct (Nat.ltb_spec (length bs) n); [discriminate|].
    intros [= <- <-]. rewrite take_drop. split; [|reflexivity]. split.
    + apply (is_bytes_app _ (drop n bs)). rewrite take_drop. assumption.
    + rewrite length_take. lia.
  - intros bs _. unfold read_bytes. destruct (_ <? _)%nat; cbn; (split; [exact I|]).
    + exists bs. rewrite app_nil_r. reflexivity.
    + exists (take n bs). rewrite take_drop. reflexivity.
Qed.

#[export] Instance read_byte_codec : Codec read_byte write_byte (U 8).
Proof.
  split.
  - intros a Ha. repeat constructor; apply Ha.
  - intros a rest Ha. reflexivity.
  - intros bs a rest Hbs. unfold read_byte. intros H. read_inv1. read_inv1.
    destruct a0 as [|b [|c l]]; [discriminate|..]; apply rret_ok_inv in H as [-> ->].
    + split; [|reflexivity]. apply Forall_inv in Hbs. exact Hbs.
    + destruct HP as [_ [=]].
  - unfold read_byte. eapply codec_bind_safe; [apply _|]. intros [|b l] [_ Hl]; [discriminate|apply _].
Qed.

Lemma read_le_codec n : Codec (E := io_error) (rmap from_le (read_bytes n)) (to_le n) (U (8 * Z.of_nat n)).
Proof.
  apply (codec_iso (read_bytes n) (fun b => b) (is_array n) from_le (to_le n)).
  - apply _.
  - intros z Hz. split; [apply to_le_array | apply from_to_le, Hz].
  - intros a [Ha <-]. split; [apply from_le_U, Ha | apply to_from_le, Ha].
Qed.

#[export] Instance read_u16_codec : Codec read_u16 (to_le 2) (U 16) := read_le_codec 2.
#[export] Instance read_u32_codec : Codec read_u32 (to_le 4) (U 32) := read_le_codec 4.
#[export] Instance read_u64_codec : Codec read_u64 (to_le 8) (U 64) := read_le_codec 8.

Definition vec_n {A} (P : A -> Prop) (n : nat) (l : list A) : Prop :=
  length l = n /\ Forall P l.

(** What [read_vec] with this bound may return. *)
Definition vec_ok {A} (P : A -> Prop) (bound : option Z) (l : list A) : Prop :=
  Forall P l /\ U USIZE_BITS (len l) /\
  match bound with Some b => len l <= b | None => True end.

Lemma write_raw_vec_bytes {A} (w : A -> bytes) (P : A -> Prop) l :
  (forall a, P a -> is_bytes (w a)) -> Forall P l -> is_bytes (write_raw_vec w l).
Proof. intros Hw. induction 1; cbn; auto using is_bytes_nil, is_bytes_app_2. Qed.

Context {E A : Type} (f : reader E A) (w : A -> bytes) (P : A -> Prop).

#[export] Instance read_raw_vec_codec n :
  Codec f w P -> Codec (read_raw_vec f n) (write_raw_vec w) (vec_n P n).
Proof.
  intros HC. split.
  - intros l [_ Hl]. apply (write_raw_vec_bytes w P); [apply (codec_bytes (r := f)) | exact Hl].
  - induction n as [|n IH]; intros [|a l] rest [Hn HF]; try discriminate; [reflexivity|].
    cbn. rewrite <- app_assoc. apply Forall_cons_1 in HF as [Ha HF].
    erewrite rbind_ok by (apply codec_rt, Ha). erewrite rbind_ok; [reflexivity|].
    apply IH. split; [injection Hn; auto|assumption].
  - induction n as [|n IH]; intros bs l rest Hbs; cbn.
    + intros [<- <-]%rret_ok_inv. split; [split; [reflexivity|constructor]|reflexivity].
    + intros (x & bs' & Hx & H)%rbind_ok_inv. apply codec_sound in Hx as [HPx ->]; [|assumption].
      apply rbind_ok_inv in H as (xs & bs'' & Hxs & H). apply rret_ok_inv in H as [<- <-].
      destruct (IH bs' xs bs'') as [[Hn HF] ->]; [eapply is_bytes_app_r; eassumption|assumption|].
      split; [split; [cbn; congruence|constructor; assumption]|]. cbn. rewrite app_assoc. reflexivity.
  - induction n as [|n IH]; cbn; [apply _|]. apply rbind_safe; [apply _|intros]. apply rbind_safe; [exact IH|apply _].
Qed.
End IoProofs.

#[export] Instance read_array_codec {A} (f : io_reader A) w P n :
  Codec f w P -> Codec (read_array f n) (write_raw_vec w) (vec_n P n).
Proof.
  intros HC. split.
  - apply (codec_bytes (r := read_raw_vec f n)).
  - intros l rest Hl. unfold read_array. erewrite rbind_ok by (apply codec_rt, Hl).
    destruct Hl as [-> _]. rewrite Nat.eqb_refl. reflexivity.
  - intros bs l rest Hbs H. unfold read_array in H. read_inv. auto.
  - unfold read_array. eapply codec_bind_safe; [apply _|]. intros l [-> _]. rewrite Nat.eqb_refl. apply _.
Qed.

#[export] Instance read_vec_codec {A} (f : io_reader A) w P bound :
  Codec f w P -> Codec (read_vec f bound) (write_vec w) (vec_ok P bound).
Proof.
  intros HC. unfold vec_ok, write_vec. split.
  - intros l (HF & HU & _). apply is_bytes_app_2.
    + apply (codec_bytes (r := VarInt.read VarInt.usize)), HU.
    + apply (codec_bytes (r := read_raw_vec f (length l))). split; auto.
  - intros l rest (HF & HU & Hb). unfold read_vec. rewrite <- app_assoc.
    erewrite rbind_ok by (apply (codec_rt (r := VarInt.read VarInt.usize)), HU).
    assert (Hl : read_raw_vec f (Z.to_nat (len l)) (write_raw_vec w l ++ rest) = (Ok l, rest)).
    { apply codec_rt. split; [unfold len; lia|assumption]. }
    destruct bound as [b|]; [|exact Hl]. destruct (Z.ltb_spec b (len l)); [lia|exact Hl].
  - intros bs l rest Hbs H. unfold read_vec in H. read_inv1. read_inv1.
    assert (Hl : read_raw_vec f (Z.to_nat a) bs0 = (Ok l, rest) -> vec_ok P None l /\ a = len l /\ bs0 = write_raw_vec w l ++ rest).
    { intros Hr. apply codec_sound in Hr as [[Hn HF] ->]; [|assumption].
      assert (a = len l) as -> by (unfold len, U in *; lia). unfold vec_ok. auto. }
    destruct bound as [b|].
    + destruct (Z.ltb_spec b a); [discriminate H|]. apply Hl in H as ((HF & HU & _) & -> & ->).
      rewrite app_assoc. auto.
    + apply Hl in H as ((HF & HU & _) & -> & ->). rewrite app_assoc. auto.
  - unfold read_vec. apply rbind_safe; [apply _|]. intros n. destruct bound; [destruct (_ <? _)|]; apply _.
Qed.

#[global] Arguments write_vec : simpl never.
#[global] Arguments read_vec : simpl never.
#[global] Arguments VarInt.write : simpl never.
#[global] Arguments VarInt.read : simpl never.
#[global] Arguments VarInt.varint_len : simpl never.
#[global] Typeclasses Opaque VarInt.write write_vec write_raw_vec to_le.

(** The codec at each width, with the width evaluated *)
#[export] Instance varint_u8_codec : Codec (VarInt.read VarInt.u8) VarInt.write (U 8) := varint_codec VarInt.u8.
#[export] Instance varint_u32_codec : Codec (VarInt.read VarInt.u32) VarInt.write (U 32) := varint_codec VarInt.u32.
#[export] Instance varint_u64_codec : Codec (VarInt.read VarInt.u64) VarInt.write (U 64) := varint_codec VarInt.u64.
#[export] Instance varint_usize_codec :
  Codec (VarInt.read VarInt.usize) VarInt.write (U 64) := varint_codec VarInt.usize.

Lemma read_bytes_rt n b rest : is_array n b -> read_bytes n (b ++ rest) = (Ok b, rest).
Proof. apply (codec_rt (w := fun b => b)). Qed.

Ltac read_run1 ::=
  erewrite rbind_ok by (first [ eapply read_bytes_rt; solve [eauto with oxide]
                              | eapply codec_rt; solve [eauto with oxide] ]).

(** ** Properties *)

Section Properties.
Import VarInt.

(** C21: For each width the code uses it at, [VarInt::read] recovers every
    written integer and leaves what follows, never panics on any bytes
    (its shifts and sums stay within their widths), and accepts one encoding
    per integer: whatever it reads is what [VarInt::write] writes. *)
Theorem varint_canonical (t : ty) :
  (forall x rest, U (BITS t) x -> read t (write x ++ rest) = (Ok x, rest)) /\
  (forall bs, is_bytes bs ->
    no_panic (fst (read t bs)) /\
    forall x rest, read t bs = (Ok x, rest) -> U (BITS t) x /\ bs = write x ++ rest).
Proof.
  split; [apply codec_rt|]. intros bs Hbs. split; [exact (proj1 (read_safe t bs Hbs))|].
  intros x rest. apply codec_sound, Hbs.
Qed.

(** [VarInt::varint_len] is the length [VarInt::write] produces, lies
    within the bounds declared for the type, and grows with the integer. *)
Theorem varint_len_exact (t : ty) x y : U (BITS t) x -> U (BITS t) y ->
  len (write x) = varint_len x /\ LOWER_BOUND t <= varint_len x <= UPPER_BOUND t /\
  (x <= y -> varint_len x <= varint_len y).
Proof.
  intros Hx Hy. split; [apply write_len, (U64_BITS t), Hx|].
  split; [apply varint_len_bounds, Hx|]. intros Hle. apply varint_len_mono. unfold U in Hx. lia.
Qed.
End Properties.

(** The two-byte integers of a [u8] *)
Lemma varint_canonical_witness :
  VarInt.read VarInt.u8 ([200; 1] ++ [9]) = (Ok 200, [9]) /\ [200; 1; 9] = VarInt.write 200 ++ [9].
Proof.
  assert (Hb : is_bytes [200; 1; 9]) by decide_now.
  split; [exact (proj1 (varint_canonical VarInt.u8) 200 [9] ltac:(decide_now))|].
  refine (proj2 (proj2 (proj2 (varint_canonical VarInt.u8) [200; 1; 9] Hb) 200 [9] _)).
  vm_compute. reflexivity.
Defined.

Lemma varint_len_exact_witness :
  len (VarInt.write 300) = VarInt.varint_len 300 /\ VarInt.varint_len 300 = 2.
Proof.
  split; [|reflexivity]. apply (varint_len_exact VarInt.u32 300 300); decide_now.
Defined.
