(* ===== verification/Dalek.v ===== *)
(** The third-party code the repository calls, as parameters.

    [Dalek] collects the operations of [curve25519_dalek] (and of
    [crypto_bigint], in one function) that the code uses
    and [Keccak] the hash of [sha3], [Rand] the generators of [rand]; [DalekLaws] and [KeccakLaws] state the
    documented behaviour the theorems rely on: scalars are the integers modulo
    the prime order [L], points a commutative group with canonical 32-byte
    encodings, on whose torsion-free points the scalars act.  [Model] at the
    end is a concrete structure satisfying every law (the group [Z/8L], in
    which the curve's group is cyclic as well), used by the witnesses. *)

From Stdlib Require Import ZArith Lia.
From stdpp Require Import base list strings numbers.
From S2P Require Import Prelude Primes.

(** The order of the prime-order subgroup. *)
Definition L : Z := 2 ^ 252 + 27742317777372353535851937790883648493.

Class Dalek := {
  DScalar : Type;
  EdwardsPoint : Type;
  (** [curve25519_dalek::Scalar] *)
  sc_from_canonical_bytes : bytes -> option DScalar;
  sc_from_bytes_mod_order : bytes -> DScalar;
  sc_from_bytes_mod_order_wide : bytes -> DScalar;
  sc_to_bytes : DScalar -> bytes;
  sc_from_u64 : Z -> DScalar;
  sc_add : DScalar -> DScalar -> DScalar;
  sc_sub : DScalar -> DScalar -> DScalar;
  sc_mul : DScalar -> DScalar -> DScalar;
  sc_neg : DScalar -> DScalar;
  (** [invert] and [batch_invert], of scalars which aren't zero *)
  sc_invert : DScalar -> DScalar;
  sc_batch_invert : list DScalar -> list DScalar;
  sc_eqb : DScalar -> DScalar -> bool;
  sc_ZERO : DScalar;
  sc_ONE : DScalar;
  (** [curve25519_dalek::EdwardsPoint] *)
  ed_compress : EdwardsPoint -> bytes;
  ed_decompress : bytes -> option EdwardsPoint;
  ed_add : EdwardsPoint -> EdwardsPoint -> EdwardsPoint;
  ed_sub : EdwardsPoint -> EdwardsPoint -> EdwardsPoint;
  ed_neg : EdwardsPoint -> EdwardsPoint;
  ed_mul : DScalar -> EdwardsPoint -> EdwardsPoint;
  ed_mul_by_cofactor : EdwardsPoint -> EdwardsPoint;
  ed_eqb : EdwardsPoint -> EdwardsPoint -> bool;
  ed_is_identity : EdwardsPoint -> bool;
  ed_is_torsion_free : EdwardsPoint -> bool;
  ed_identity : EdwardsPoint;
  ED25519_BASEPOINT_POINT : EdwardsPoint;
  ED25519_BASEPOINT_COMPRESSED : bytes;
  (** [multiscalar_mul] and its variable-time variant *)
  ed_multiscalar_mul : list DScalar -> list EdwardsPoint -> EdwardsPoint;
  (** [vartime_double_scalar_mul_basepoint(a, A, b)] is [a A + b B] *)
  ed_double_scalar_mul_basepoint : DScalar -> EdwardsPoint -> DScalar -> EdwardsPoint;
  (** [VartimeEdwardsPrecomputation::new(points)] and, on it,
      [vartime_mixed_multiscalar_mul(static_scalars, dynamic_scalars, dynamic_points)] *)
  ed_mixed_multiscalar_mul : list EdwardsPoint -> list DScalar -> list DScalar -> list EdwardsPoint -> EdwardsPoint;
  (** [MontgomeryPoint(bytes).to_edwards(sign)] *)
  ed_from_montgomery : bytes -> bool -> option EdwardsPoint;
  (** [crypto_bigint]'s residues modulo [2^255 - 19], as [biased_hash] uses them *)
  Residue : Type;
  re_new : Z -> Residue;
  re_retrieve : Residue -> Z;
  re_add : Residue -> Residue -> Residue;
  re_sub : Residue -> Residue -> Residue;
  re_neg : Residue -> Residue;
  re_mul : Residue -> Residue -> Residue;
  re_invert : Residue -> Residue;
  re_pow : Residue -> Z -> Residue;
  re_eqb : Residue -> Residue -> bool;
  (** The integer a scalar stands for; not an operation of the code, it only
      states the laws. *)
  sc_val : DScalar -> Z
}.

(** [sha3::Keccak256::digest] *)
Class Keccak := keccak_digest : bytes -> bytes.

Class KeccakLaws (K : Keccak) : Prop :=
  keccak_array : forall bs, is_array 32 (keccak_digest bs).

(** [rand_chacha] and [rand].  A [ChaCha20Rng] is its seed until it's used:
    [chacha20] is what each fill of 64 bytes yields, [shuffle] the
    [SliceRandom::shuffle] with the generator. *)
Class Rand := {
  chacha20 : bytes -> nat -> bytes;
  shuffle : forall {A : Type}, bytes -> list A -> list A
}.

Class RandLaws (R : Rand) : Prop := shuffle_perm : forall A seed (l : list A), shuffle seed l ≡ₚ l.

(** The sum a multiscalar multiplication computes. *)
Fixpoint ed_msm {D : Dalek} (ss : list DScalar) (ps : list EdwardsPoint) : EdwardsPoint :=
  match ss, ps with
  | s :: ss', p :: ps' => ed_add (ed_mul s p) (ed_msm ss' ps')
  | _, _ => ed_identity
  end.

Class DalekLaws (D : Dalek) : Prop := {
  sc_val_range : forall s, 0 <= sc_val s < L;
  sc_val_inj : forall s t, sc_val s = sc_val t -> s = t;
  sc_canonical : forall b s, is_array 32 b ->
    sc_from_canonical_bytes b = Some s <-> from_le b < L /\ sc_val s = from_le b;
  sc_mod_order : forall b, is_array 32 b -> sc_val (sc_from_bytes_mod_order b) = from_le b mod L;
  sc_mod_order_wide : forall b, is_array 64 b ->
    sc_val (sc_from_bytes_mod_order_wide b) = from_le b mod L;
  sc_bytes : forall s, sc_to_bytes s = to_le 32 (sc_val s);
  sc_u64_val : forall x, U 64 x -> sc_val (sc_from_u64 x) = x;
  sc_add_val : forall s t, sc_val (sc_add s t) = (sc_val s + sc_val t) mod L;
  sc_sub_val : forall s t, sc_val (sc_sub s t) = (sc_val s - sc_val t) mod L;
  sc_mul_val : forall s t, sc_val (sc_mul s t) = (sc_val s * sc_val t) mod L;
  sc_neg_val : forall s, sc_val (sc_neg s) = - sc_val s mod L;
  sc_invert_mul : forall s, s <> sc_ZERO -> sc_mul s (sc_invert s) = sc_ONE;
  sc_batch_invert_map : forall ss, Forall (fun s => s <> sc_ZERO) ss -> sc_batch_invert ss = map sc_invert ss;
  sc_zero_val : sc_val sc_ZERO = 0;
  sc_one_val : sc_val sc_ONE = 1;
  sc_eqb_spec : forall s t, sc_eqb s t = true <-> s = t;
  ed_compress_array : forall p, is_array 32 (ed_compress p);
  ed_decompress_compress : forall p, ed_decompress (ed_compress p) = Some p;
  ed_eqb_spec : forall p q, ed_eqb p q = true <-> p = q;
  ed_add_comm : forall p q, ed_add p q = ed_add q p;
  ed_add_assoc : forall p q r, ed_add p (ed_add q r) = ed_add (ed_add p q) r;
  ed_add_id : forall p, ed_add p ed_identity = p;
  ed_sub_add : forall p q, ed_add (ed_sub p q) q = p;
  ed_neg_add : forall p, ed_add (ed_neg p) p = ed_identity;
  ed_is_identity_spec : forall p, ed_is_identity p = true <-> p = ed_identity;
  ed_mul_one : forall p, ed_mul sc_ONE p = p;
  ed_mul_zero : forall p, ed_mul sc_ZERO p = ed_identity;
  ed_mul_add_r : forall s p q, ed_mul s (ed_add p q) = ed_add (ed_mul s p) (ed_mul s q);
  ed_mul_add_l : forall s t p, ed_is_torsion_free p = true ->
    ed_mul (sc_add s t) p = ed_add (ed_mul s p) (ed_mul t p);
  ed_mul_mul : forall s t p, ed_is_torsion_free p = true ->
    ed_mul s (ed_mul t p) = ed_mul (sc_mul s t) p;
  ed_mul_free : forall s p, ed_is_torsion_free p = true -> ed_is_torsion_free (ed_mul s p) = true;
  ed_add_free : forall p q, ed_is_torsion_free p = true -> ed_is_torsion_free q = true ->
    ed_is_torsion_free (ed_add p q) = true;
  ed_cofactor_free : forall p, ed_is_torsion_free (ed_mul_by_cofactor p) = true;
  ed_cofactor_mul : forall s p, ed_mul_by_cofactor (ed_mul s p) = ed_mul s (ed_mul_by_cofactor p);
  ed_identity_free : ed_is_torsion_free ed_identity = true;
  ed_basepoint_free : ed_is_torsion_free ED25519_BASEPOINT_POINT = true;
  ed_basepoint_compressed : ED25519_BASEPOINT_COMPRESSED = ed_compress ED25519_BASEPOINT_POINT;
  ed_multiscalar_mul_sum : forall ss ps, length ss = length ps ->
    ed_multiscalar_mul ss ps = ed_msm ss ps;
  ed_mixed_sum : forall sps sss ds dps, length sss = length sps -> length ds = length dps ->
    ed_mixed_multiscalar_mul sps sss ds dps = ed_msm (sss ++ ds) (sps ++ dps);
  ed_cofactor_eight : forall p, ed_mul_by_cofactor p = ed_mul (sc_from_u64 8) p;
  ed_double_scalar_sum : forall a p b,
    ed_double_scalar_mul_basepoint a p b = ed_add (ed_mul a p) (ed_mul b ED25519_BASEPOINT_POINT);
  ed_basepoint_order : forall s, ed_mul s ED25519_BASEPOINT_POINT = ed_identity -> s = sc_ZERO
}.

(** ** Consequences of the laws *)

Section Laws.
Context {D : Dalek} {DL : DalekLaws D}.

Lemma L_pos : 0 < L.
Proof. reflexivity. Qed.

Lemma L_lt : L < 2 ^ 256.
Proof. reflexivity. Qed.

Lemma sc_val_U s : U 256 (sc_val s).
Proof. pose proof (sc_val_range s). pose proof L_lt. unfold U. lia. Qed.

Lemma sc_bytes_array s : is_array 32 (sc_to_bytes s).
Proof. rewrite sc_bytes. apply to_le_array. Qed.

Lemma sc_canonical_to_bytes s : sc_from_canonical_bytes (sc_to_bytes s) = Some s.
Proof.
  apply sc_canonical; [apply sc_bytes_array|]. rewrite sc_bytes, from_to_le.
  - pose proof (sc_val_range s). lia.
  - apply (sc_val_U s).
Qed.

Lemma sc_to_bytes_canonical b s :
  is_array 32 b -> sc_from_canonical_bytes b = Some s -> sc_to_bytes s = b.
Proof.
  intros Hb Hs. pose proof (proj1 (sc_canonical b s Hb) Hs) as [_ Hv].
  rewrite sc_bytes, Hv. destruct Hb as [Hb <-]. apply to_from_le, Hb.
Qed.

Lemma sc_to_bytes_inj s t : sc_to_bytes s = sc_to_bytes t -> s = t.
Proof.
  intros H. assert (Some s = Some t) by (rewrite <- !sc_canonical_to_bytes, H; reflexivity).
  congruence.
Qed.

Lemma ed_compress_inj p q : ed_compress p = ed_compress q -> p = q.
Proof.
  intros H. assert (Some p = Some q) by (rewrite <- !ed_decompress_compress, H; reflexivity).
  congruence.
Qed.

Lemma ed_add_cancel p q r : ed_add p r = ed_add q r -> p = q.
Proof.
  intros H. assert (Hr : ed_add r (ed_sub ed_identity r) = ed_identity)
    by (rewrite ed_add_comm; apply ed_sub_add).
  rewrite <- (ed_add_id p), <- (ed_add_id q), <- Hr, !ed_add_assoc, H. reflexivity.
Qed.

Lemma ed_add_sub p q : ed_sub (ed_add p q) q = p.
Proof. apply (ed_add_cancel _ _ q), ed_sub_add. Qed.

Lemma ed_id_add p : ed_add ed_identity p = p.
Proof. rewrite ed_add_comm. apply ed_add_id. Qed.

Lemma ed_add_swap p q r s : ed_add (ed_add p q) (ed_add r s) = ed_add (ed_add p r) (ed_add q s).
Proof. rewrite !ed_add_assoc. f_equal. rewrite <- !ed_add_assoc. f_equal. apply ed_add_comm. Qed.

Lemma sc_ext s t : sc_val s mod L = sc_val t mod L -> s = t.
Proof.
  intros H. apply sc_val_inj. pose proof (sc_val_range s). pose proof (sc_val_range t).
  rewrite !Z.mod_small in H by lia. exact H.
Qed.

Lemma sc_mul_comm s t : sc_mul s t = sc_mul t s.
Proof. apply sc_val_inj. rewrite !sc_mul_val. f_equal. ring. Qed.

Lemma sc_add_comm s t : sc_add s t = sc_add t s.
Proof. apply sc_val_inj. rewrite !sc_add_val. f_equal. ring. Qed.

Lemma sc_add_assoc s t u : sc_add s (sc_add t u) = sc_add (sc_add s t) u.
Proof.
  apply sc_val_inj. rewrite !sc_add_val, Z.add_mod_idemp_r, Z.add_mod_idemp_l by (unfold L; lia).
  f_equal. ring.
Qed.

Lemma sc_add_zero s : sc_add s sc_ZERO = s.
Proof.
  apply sc_val_inj. rewrite sc_add_val, sc_zero_val, Z.add_0_r. apply Z.mod_small, sc_val_range.
Qed.

Lemma sc_zero_add s : sc_add sc_ZERO s = s.
Proof. rewrite sc_add_comm. apply sc_add_zero. Qed.

Lemma sc_sub_add s t : sc_add (sc_sub s t) t = s.
Proof.
  apply sc_ext. rewrite sc_add_val, sc_sub_val, Z.mod_mod by (unfold L; lia).
  rewrite Z.add_mod_idemp_l by (unfold L; lia). f_equal. ring.
Qed.

Lemma ed_mul_sub s t p : ed_is_torsion_free p = true ->
  ed_mul (sc_sub s t) p = ed_sub (ed_mul s p) (ed_mul t p).
Proof.
  intros Hp. apply (ed_add_cancel _ _ (ed_mul t p)).
  rewrite <- ed_mul_add_l, sc_sub_add, ed_sub_add by assumption. reflexivity.
Qed.
End Laws.

(** ** A structure satisfying the laws *)

Module Model.

Definition N : Z := 8 * L.

Definition H_VAL : Z := Eval vm_compute in
  from_le [139; 101; 89; 112; 21; 55; 153; 175; 42; 234; 220; 159; 241; 173; 208; 234;
           108; 114; 81; 213; 65; 84; 207; 169; 44; 23; 58; 13; 211; 156; 31; 148].

(** Encodings: the identity [0] is encoded as [1], the point [16] as the
    bytes of Monero's generator [H], every other point as itself. *)
Definition enc (p : Z) : Z :=
  if p =? 0 then 1 else if p =? 1 then 0 else if p =? 16 then H_VAL else p.

Definition dec (e : Z) : option Z :=
  if e =? 1 then Some 0 else if e =? 0 then Some 1 else if e =? H_VAL then Some 16
  else if e =? 16 then None else if e <? N then Some e else None.

(** A point is an integer modulo [N]; a scalar an integer modulo [L].  Both
    are subset types so that the laws hold of every value. *)
Record mod_t (n : Z) : Type := mk_mod { mod_z : Z; mod_z_ok : (0 <=? mod_z) && (mod_z <? n) = true }.
#[local] Arguments mod_z {n} _.

Lemma mod_t_ok n z : 0 < n -> (0 <=? z mod n) && (z mod n <? n) = true.
Proof. intros Hn. pose proof (Z.mod_pos_bound z n Hn). lia. Qed.

Lemma L_pos' : 0 < L. Proof. reflexivity. Qed.
Lemma N_pos : 0 < N. Proof. reflexivity. Qed.

Definition scalar := mod_t L.
Definition point := mod_t N.

(** Replaces a proof of a boolean equation by [eq_refl], so that elements
    evaluate to a canonical form. *)
Definition canon (b : bool) : b = true -> b = true :=
  match b with true => fun _ => eq_refl | false => fun H => H end.

(** The moduli, evaluated *)
Definition l : Z := Eval vm_compute in L.
Definition n : Z := Eval vm_compute in N.
Definition p25519 : Z := Eval vm_compute in 2 ^ 255 - 19.
Definition ones_256 : Z := Eval vm_compute in Z.ones 256.

Definition to_s (z : Z) : scalar := mk_mod L (z mod l) (canon _ (mod_t_ok L z L_pos')).
Definition to_p (z : Z) : point := mk_mod N (z mod n) (canon _ (mod_t_ok N z N_pos)).

#[export] Instance dalek : Dalek := {
  DScalar := scalar;
  EdwardsPoint := point;
  sc_from_canonical_bytes b := if from_le b <? l then Some (to_s (from_le b)) else None;
  sc_from_bytes_mod_order b := to_s (from_le b);
  sc_from_bytes_mod_order_wide b := to_s (from_le b);
  sc_to_bytes s := to_le 32 (mod_z s);
  sc_from_u64 := to_s;
  sc_add s t := to_s (mod_z s + mod_z t);
  sc_sub s t := to_s (mod_z s - mod_z t);
  sc_mul s t := to_s (mod_z s * mod_z t);
  sc_neg s := to_s (- mod_z s);
  sc_invert s := to_s (Z.invmod (mod_z s) l);
  sc_batch_invert ss := map (fun s => to_s (Z.invmod (mod_z s) l)) ss;
  sc_eqb s t := mod_z s =? mod_z t;
  sc_ZERO := to_s 0;
  sc_ONE := to_s 1;
  ed_compress p := to_le 32 (enc (mod_z p));
  ed_decompress b := to_p <$> dec (from_le b);
  ed_add p q := to_p (mod_z p + mod_z q);
  ed_sub p q := to_p (mod_z p - mod_z q);
  ed_neg p := to_p (- mod_z p);
  ed_mul s p := to_p (mod_z s * mod_z p);
  ed_mul_by_cofactor p := to_p (8 * mod_z p);
  ed_eqb p q := mod_z p =? mod_z q;
  ed_is_identity p := mod_z p =? 0;
  ed_is_torsion_free p := mod_z p mod 8 =? 0;
  ed_identity := to_p 0;
  ED25519_BASEPOINT_POINT := to_p 8;
  ED25519_BASEPOINT_COMPRESSED := to_le 32 8;
  ed_multiscalar_mul ss ps :=
    to_p (foldr Z.add 0 (zip_with (fun s p => mod_z s * mod_z p) ss ps));
  ed_mixed_multiscalar_mul sps sss ds dps :=
    to_p (foldr Z.add 0 (zip_with (fun s p => mod_z s * mod_z p) (sss ++ ds) (sps ++ dps)));
  ed_double_scalar_mul_basepoint a p b := to_p (mod_z a * mod_z p + mod_z b * 8);
  ed_from_montgomery b sign := Some (to_p (8 * from_le b + (if sign then 8 else 0)));
  Residue := Z;
  re_new x := x mod p25519;
  re_retrieve x := x;
  re_add x y := (x + y) mod p25519;
  re_sub x y := (x - y) mod p25519;
  re_neg x := - x mod p25519;
  re_mul x y := (x * y) mod p25519;
  re_invert x := x;
  re_pow x e := (x * e) mod p25519;
  re_eqb := Z.eqb;
  sc_val := @mod_z _
}.

(** No law speaks of the residues, whose power and inverse are placeholders.
    A placeholder hash: a polynomial of the preimage's bytes modulo [2^256]. *)
#[export] Instance keccak : Keccak := fun bs =>
  to_le 32 (foldl (fun a b => Z.land (a * 1000000007 + b + 1) ones_256) 0 bs).

#[export] Instance keccak_laws : KeccakLaws keccak.
Proof. intros bs. apply to_le_array. Qed.

Lemma mod_t_eq m (x y : mod_t m) : mod_z x = mod_z y -> x = y.
Proof.
  destruct x as [x Hx], y as [y Hy]. cbn. intros ->. f_equal. apply proof_irrel.
Qed.

Lemma mod_t_range m (x : mod_t m) : 0 <= mod_z x < m.
Proof. destruct x as [x Hx]. cbn. lia. Qed.

Lemma enc_dec p : 0 <= p < N -> dec (enc p) = Some p.
Proof.
  intros Hp. unfold enc. assert (HH : N <= H_VAL) by (vm_compute; discriminate).
  assert (HN : 16 < N) by reflexivity.
  repeat match goal with |- context [if ?b then _ else _] => destruct b eqn:? end; unfold dec;
  repeat match goal with |- context [if ?b then _ else _] => destruct b eqn:? end; try reflexivity;
    try (f_equal; lia); lia.
Qed.

Lemma enc_U p : 0 <= p < N -> U 256 (enc p).
Proof.
  intros Hp. unfold enc, U. assert (H_VAL < 2 ^ 256) by reflexivity.
  assert (0 <= H_VAL) by (vm_compute; discriminate). assert (N < 2 ^ 256) by reflexivity.
  repeat match goal with |- context [if ?b then _ else _] => destruct b eqn:? end; lia.
Qed.

Lemma mod8_mod x : (x mod N) mod 8 = x mod 8.
Proof. apply Z.mod_mod_divide. exists L. unfold N. ring. Qed.

(** Multiples of 8 form the subgroup of order [L]. *)
Lemma mul_L_mod k x : x mod 8 = 0 -> ((k mod L) * x) mod N = (k * x) mod N.
Proof.
  intros Hx. apply Z.mod_divide in Hx as [y ->]; [|lia]. unfold N.
  replace (k mod L * (y * 8)) with (8 * (k mod L * y)) by ring.
  replace (k * (y * 8)) with (8 * (k * y)) by ring.
  rewrite !Z.mul_mod_distr_l by (unfold L; lia). f_equal.
  rewrite Z.mul_mod_idemp_l by (unfold L; lia). reflexivity.
Qed.

Ltac mt := apply mod_t_eq; cbn -[L N l n]; change l with L; change n with N.

#[export] Instance dalek_laws : DalekLaws dalek.
Proof.
  assert (HL : L <> 0) by discriminate. assert (HN : N <> 0) by discriminate.
  split; cbn -[L N l n Z.mul]; change l with L; change n with N.
  - apply mod_t_range.
  - intros; apply mod_t_eq; assumption.
  - intros b s [Hb Hlen]. pose proof (from_le_U b Hb) as [Hf _].
    destruct (Z.ltb_spec (from_le b) L); split; intros H'.
    + injection H' as <-. cbn -[L N l n]; change l with L; change n with N. rewrite Z.mod_small by lia. auto.
    + f_equal. mt. rewrite Z.mod_small by lia. symmetry. apply H'.
    + discriminate.
    + lia.
  - reflexivity.
  - reflexivity.
  - reflexivity.
  - intros x Hx. apply Z.mod_small. unfold U in Hx. assert (2 ^ 64 < L) by reflexivity. lia.
  - reflexivity.
  - reflexivity.
  - reflexivity.
  - reflexivity.
  - intros s Hs. mt. rewrite Z.mul_mod_idemp_r, Z.mul_comm by assumption.
    pose proof (mod_t_range _ s). rewrite Z.invmod_prime; [reflexivity|exact order_prime|].
    rewrite Z.mod_small by assumption. intros Hz. apply Hs. mt. exact Hz.
  - reflexivity.
  - reflexivity.
  - reflexivity.
  - intros s t. rewrite Z.eqb_eq. split; [apply mod_t_eq | congruence].
  - intros; apply to_le_array.
  - intros p. pose proof (mod_t_range _ p). rewrite from_to_le by (apply enc_U; assumption).
    rewrite enc_dec by assumption. cbn. f_equal. mt. apply Z.mod_small. assumption.
  - intros p q. rewrite Z.eqb_eq. split; [apply mod_t_eq | congruence].
  - intros p q. mt. f_equal. ring.
  - intros p q r. mt. rewrite Z.add_mod_idemp_r, Z.add_mod_idemp_l by assumption. f_equal. ring.
  - intros p. mt. rewrite Z.add_mod_idemp_r, Z.add_0_r by assumption. apply Z.mod_small, mod_t_range.
  - intros p q. mt. rewrite Z.add_mod_idemp_l by assumption.
    replace (_ - _ + _) with (mod_z p) by ring. apply Z.mod_small, mod_t_range.
  - intros p. mt. rewrite Z.add_mod_idemp_l, Z.add_opp_diag_l by assumption. reflexivity.
  - intros p. rewrite Z.eqb_eq. split; [intros; mt; assumption | intros ->; reflexivity].
  - intros p. mt. rewrite (Z.mod_small 1), Z.mul_1_l by (vm_compute; intuition discriminate).
    apply Z.mod_small, mod_t_range.
  - intros p. mt. reflexivity.
  - intros s p q. mt. rewrite Z.mul_mod_idemp_r, Z.add_mod_idemp_l, Z.add_mod_idemp_r by assumption.
    f_equal. ring.
  - intros s t p Hp%Z.eqb_eq. mt. rewrite mul_L_mod by assumption.
    rewrite Z.add_mod_idemp_l, Z.add_mod_idemp_r by assumption. f_equal. ring.
  - intros s t p Hp%Z.eqb_eq. mt. rewrite mul_L_mod by assumption.
    rewrite Z.mul_mod_idemp_r by assumption. f_equal. ring.
  - intros s p Hp%Z.eqb_eq. rewrite mod8_mod, Z.mul_mod, Hp, Z.mul_0_r by lia. reflexivity.
  - intros p q Hp%Z.eqb_eq Hq%Z.eqb_eq. rewrite mod8_mod, Z.add_mod, Hp, Hq by lia. reflexivity.
  - intros p. rewrite mod8_mod, Z.mul_comm, Z.mod_mul by lia. reflexivity.
  - intros s p. mt. rewrite !Z.mul_mod_idemp_r by assumption. f_equal. ring.
  - reflexivity.
  - reflexivity.
  - reflexivity.
  - intros ss. induction ss as [|s ss IH]; intros [|q ps] [=]; [reflexivity|].
    cbn -[L N l n Z.mul]; change l with L; change n with N. rewrite <- IH by assumption. mt.
    rewrite <- Z.add_mod by assumption. reflexivity.
  - intros sps sss ds dps H1 H2. assert (Hl : length (sss ++ ds) = length (sps ++ dps))
      by (rewrite !length_app; congruence). revert Hl. generalize (sss ++ ds) (sps ++ dps). clear -HN HL.
    intros ss. induction ss as [|s ss IH]; intros [|q ps] [=]; [reflexivity|].
    cbn -[L N l n Z.mul]; change l with L; change n with N. rewrite <- IH by assumption. mt.
    rewrite <- Z.add_mod by assumption. reflexivity.
  - intros p. mt. rewrite (Z.mod_small 8 L) by (vm_compute; intuition discriminate). reflexivity.
  - intros a p b. mt. rewrite (Z.mod_small 8 N) by (vm_compute; intuition discriminate).
    rewrite <- Z.add_mod by assumption. reflexivity.
  - intros s Hs. apply (f_equal (@mod_z _)) in Hs. cbn -[L N l n] in Hs; change l with L in Hs; change n with N in Hs. mt.
    rewrite (Z.mod_small 8 N) in Hs by (vm_compute; intuition discriminate).
    pose proof (mod_t_range _ s). change (0 mod N) with 0 in Hs. change (0 mod L) with 0.
    rewrite Z.mod_small in Hs by (unfold N; lia). lia.
Qed.
End Model.
