(* ===== verification/Ed25519.v ===== *)
(** The [monero-ed25519] crate ([ed25519/src/scalar.rs], [compressed_point.rs],
    [point.rs], [commitment.rs]) and [keccak256] of [monero-primitives]:
    scalars and points as the bytes the code keeps them in, Pedersen
    commitments, and the codecs of the three types. *)

From Stdlib Require Import ZArith Lia.
From stdpp Require Import base list strings numbers.
From S2P Require Import Prelude Dalek MoneroIo.

(** [primitives::keccak256] *)
Definition keccak256 {K : Keccak} (data : bytes) : bytes := keccak_digest data.

(** Two different preimages, one of each list, with the same hash.  The lists
    are those a computation hashed: that some preimages collide says nothing. *)
Definition collides {K : Keccak} (xs ys : list bytes) : Prop :=
  exists x y, x ∈ xs /\ y ∈ ys /\ x <> y /\ keccak256 x = keccak256 y.

Lemma collides_mono {K : Keccak} xs xs' ys ys' : xs ⊆ xs' -> ys ⊆ ys' -> collides xs ys -> collides xs' ys'.
Proof. intros Hx Hy (x & y & ? & ? & ? & ?). exists x, y. auto. Qed.

Lemma collides_l {K : Keccak} xs ys xs' ys' : collides xs ys -> collides (xs ++ xs') (ys ++ ys').
Proof. apply collides_mono; intros z; rewrite elem_of_app; auto. Qed.

Lemma collides_r {K : Keccak} xs ys xs' ys' : collides xs ys -> collides (xs' ++ xs) (ys' ++ ys).
Proof. apply collides_mono; intros z; rewrite elem_of_app; auto. Qed.

Lemma keccak_inj {K : Keccak} x y : keccak256 x = keccak256 y -> x = y \/ collides [x] [y].
Proof.
  intros H. destruct (decide (x = y)); [auto|]. right. exists x, y. split_and!; auto; left.
Qed.

(** [<[u8; N]>::eq], also what [ct_eq] of byte arrays decides *)
Definition bytes_eqb (a b : bytes) : bool := bool_decide (a = b).

(** [<[u8; N] as Ord>::cmp]: lexicographic *)
Fixpoint bytes_cmp (a b : bytes) : comparison :=
  match a, b with
  | [], [] => Eq
  | [], _ :: _ => Lt
  | _ :: _, [] => Gt
  | x :: a', y :: b' => match x ?= y with Eq => bytes_cmp a' b' | c => c end
  end.

(** ** Scalars ([scalar.rs])

    The struct wraps its 32 bytes; the model is those bytes. *)

Abbreviation Scalar := bytes.

Module Scalar.
Section Ops.
Context {D : Dalek} {K : Keccak}.

Definition ZERO : Scalar := repeat 0 32.
Definition ONE : Scalar := 1 :: repeat 0 31.
Definition INV_EIGHT : Scalar :=
  [121; 47; 220; 226; 41; 229; 6; 97; 208; 218; 28; 125; 179; 157; 211; 7;
   0; 0; 0; 0; 0; 0; 0; 0; 0; 0; 0; 0; 0; 0; 0; 6].

Definition write (self : Scalar) : bytes := self.

Definition read : io_reader Scalar :=
  let* b := read_bytes 32 in
  match sc_from_canonical_bytes b with
  | Some _ => rret b
  | None => rother "unreduced scalar"
  end.

Definition from (scalar : DScalar) : Scalar := sc_to_bytes scalar.

Definition into {E} (self : Scalar) : outcome E DScalar :=
  expect (sc_from_canonical_bytes self).

(** [random], given the 64 bytes the generator fills [raw] with *)
Definition random (raw : bytes) : Scalar := sc_to_bytes (sc_from_bytes_mod_order_wide raw).

Definition hash {E} (data : bytes) : outcome E Scalar :=
  let scalar := sc_from_bytes_mod_order (keccak_digest data) in
  if sc_eqb scalar sc_ZERO then Panic else Ok (from scalar).

Definition eqb (a b : Scalar) : bool := bytes_eqb a b.

Definition conditional_select (a b : Scalar) (choice : bool) : Scalar :=
  zip_with (fun x y => if choice then y else x) a b.
End Ops.
End Scalar.

(** ** Compressed points ([compressed_point.rs]) *)

Abbreviation CompressedPoint := bytes.

Module CompressedPoint.
Section Ops.
Context {D : Dalek}.

Definition IDENTITY : CompressedPoint := 1 :: repeat 0 31.
Definition G : CompressedPoint := ED25519_BASEPOINT_COMPRESSED.
Definition H : CompressedPoint :=
  [139; 101; 89; 112; 21; 55; 153; 175; 42; 234; 220; 159; 241; 173; 208; 234;
   108; 114; 81; 213; 65; 84; 207; 169; 44; 23; 58; 13; 211; 156; 31; 148].

Definition read : io_reader CompressedPoint := read_bytes 32.
Definition write (self : CompressedPoint) : bytes := self.
Definition to_bytes (self : CompressedPoint) : bytes := self.
Definition eqb (a b : CompressedPoint) : bool := bytes_eqb a b.
Definition cmp (a b : CompressedPoint) : comparison := bytes_cmp a b.

(** Only the canonical encoding of a point decompresses. *)
Definition decompress (self : CompressedPoint) : option EdwardsPoint :=
  match ed_decompress self with
  | Some point => if bytes_eqb (ed_compress point) self then Some point else None
  | None => None
  end.
End Ops.
End CompressedPoint.

(** ** Points ([point.rs])

    [Point] wraps an [EdwardsPoint]; [from] and [into] are the identity. *)

Abbreviation Point := EdwardsPoint.

Module Point.
Section Ops.
Context {D : Dalek}.

(** [crypto_bigint]'s [square] is the product with itself. *)
Definition re_square (x : Residue) : Residue := re_mul x x.
Definition re_one : Residue := re_new 1.
Definition MODULUS : Z := 2 ^ 255 - 19.
Definition A : Residue := re_new 486662.

Definition is_quadratic_residue_8_mod_5 (value : Residue) : bool :=
  let SQRT_EXP := Z.shiftr MODULUS 3 + 1 in
  let Z := re_pow (re_add re_one re_one) (Z.shiftr MODULUS 2) in
  let y := re_pow value SQRT_EXP in
  let other_candidate := re_mul y Z in
  re_eqb (re_square y) value || re_eqb (re_square other_candidate) value.

(** [biased_hash], with the [expect] on the mapped point *)
Definition biased_hash {K : Keccak} {E} (bytes : bytes) : outcome E Point :=
  let r := re_new (from_le (keccak_digest bytes)) in
  let r_square := re_square r in
  let ur_square := re_add r_square r_square in
  let one_plus_ur_square := re_add re_one ur_square in
  let one_plus_ur_square_inv := re_invert one_plus_ur_square in
  let upsilon := re_mul (re_neg A) one_plus_ur_square_inv in
  let other_candidate := re_sub (re_neg upsilon) A in
  let epsilon :=
    is_quadratic_residue_8_mod_5
      (re_add (re_mul (re_add upsilon A) (re_square upsilon)) upsilon) in
  let u := if epsilon then upsilon else other_candidate in
  let? res := expect (ed_from_montgomery (to_le 32 (re_retrieve u)) epsilon) in
  Ok (ed_mul_by_cofactor res).

Definition compress (self : Point) : CompressedPoint := ed_compress self.
Definition eqb (a b : Point) : bool := ed_eqb a b.
Definition conditional_select (a b : Point) (choice : bool) : Point := if choice then b else a.

Definition key_image (self : Point) : option EdwardsPoint :=
  if ed_is_identity self || negb (ed_is_torsion_free self) then None else Some self.
End Ops.
End Point.

(** [CompressedPoint::read(r)?.decompress().ok_or(..)], the way points are read
    throughout the code *)
Definition read_point {D : Dalek} (msg : string) : io_reader Point :=
  let* b := CompressedPoint.read in ok_or_other (CompressedPoint.decompress b) msg.

(** ** Commitments ([commitment.rs]) *)

Module Commitment.
Record t := new { mask : Scalar; amount : Z }.

Section Ops.
Context {D : Dalek}.

(** The static [H] *)
Definition H {E} : outcome E EdwardsPoint := expect (ed_decompress CompressedPoint.H).

Definition zero : t := new (Scalar.from sc_ONE) 0.

Definition commit {E} (self : t) : outcome E Point :=
  let? mask := Scalar.into (mask self) in
  let? h := H in
  Ok (ed_multiscalar_mul [mask; sc_from_u64 (amount self)] [ED25519_BASEPOINT_POINT; h]).

Definition eqb (a b : t) : bool :=
  Scalar.eqb (mask a) (mask b) && (amount a =? amount b).

Definition write (self : t) : bytes :=
  Scalar.write (mask self) ++ to_le 8 (amount self).

Definition read : io_reader t :=
  let* mask := Scalar.read in
  let* amount := read_u64 in
  rret (new mask amount).
End Ops.
End Commitment.

(** ** Codecs and laws *)

Lemma bytes_eqb_spec a b : bytes_eqb a b = true <-> a = b.
Proof. apply bool_decide_eq_true. Qed.

Lemma bytes_eqb_refl a : bytes_eqb a a = true.
Proof. apply bytes_eqb_spec. reflexivity. Qed.

(** Instances are found by the writers' names, not by their bodies. *)
#[global] Typeclasses Opaque Scalar.write Scalar.read CompressedPoint.write CompressedPoint.read
  Point.compress write_byte.

Section Codecs.
Context {D : Dalek}.

(** The bytes a [Scalar] may hold *)
Definition scalar_ok (b : Scalar) : Prop :=
  is_array 32 b /\ is_Some (sc_from_canonical_bytes b).

Definition commitment_ok (c : Commitment.t) : Prop :=
  scalar_ok (Commitment.mask c) /\ U 64 (Commitment.amount c).

#[export] Instance scalar_codec : Codec Scalar.read Scalar.write scalar_ok.
Proof.
  split.
  - intros b [[Hb _] _]. exact Hb.
  - intros b rest [Hb [s Hs]]. unfold Scalar.read, Scalar.write.
    erewrite rbind_ok by (apply read_bytes_rt, Hb). rewrite Hs. reflexivity.
  - intros bs b rest Hbs H. unfold Scalar.read in H. read_inv1. read_inv1.
    read_inv1; [|discriminate H].
    apply rret_ok_inv in H as [<- <-]. split; [|reflexivity]. split; eauto.
  - unfold Scalar.read. apply rbind_safe; [apply _|]. intros b. destruct (sc_from_canonical_bytes b); apply _.
Qed.

#[export] Instance compressed_point_codec :
  Codec CompressedPoint.read CompressedPoint.write (is_array 32) := read_bytes_codec 32.

#[export] Instance commitment_codec : Codec Commitment.read Commitment.write commitment_ok.
Proof.
  split.
  - intros c [Hm Ha]. apply is_bytes_app_2; [apply Hm | apply to_le_bytes].
  - intros [m a] rest [Hm Ha]. unfold Commitment.read, Commitment.write. read_run. reflexivity.
  - intros bs c rest Hbs H. unfold Commitment.read in H. read_inv.
    split; [split; assumption|]. unfold Commitment.write. cbn. rewrite <- app_assoc. reflexivity.
  - unfold Commitment.read. safe_tac.
Qed.

Lemma decompress_compress {DL : DalekLaws D} (p : Point) :
  CompressedPoint.decompress (Point.compress p) = Some p.
Proof.
  unfold CompressedPoint.decompress, Point.compress. rewrite ed_decompress_compress, bytes_eqb_refl.
  reflexivity.
Qed.

Lemma compress_decompress b p :
  CompressedPoint.decompress b = Some p -> Point.compress p = b.
Proof.
  unfold CompressedPoint.decompress. destruct (ed_decompress b) as [q|]; [|discriminate].
  destruct (bytes_eqb (ed_compress q) b) eqn:E; [|discriminate].
  intros [= <-]. apply bytes_eqb_spec, E.
Qed.

Lemma ok_or_other_safe {A} (o : option A) msg : ReaderSafe (ok_or_other o msg).
Proof. destruct o; apply _. Qed.

#[export] Instance read_point_codec {DL : DalekLaws D} msg :
  Codec (read_point msg) Point.compress (fun _ => True).
Proof.
  split.
  - intros p _. apply ed_compress_array.
  - intros p rest _. unfold read_point.
    erewrite rbind_ok by (apply read_bytes_rt, ed_compress_array).
    fold (Point.compress p). rewrite decompress_compress. reflexivity.
  - intros bs p rest Hbs H. unfold read_point in H. read_inv1. read_inv1.
    destruct (CompressedPoint.decompress a) eqn:E; [|discriminate H].
    apply rret_ok_inv in H as [-> ->]. apply compress_decompress in E. subst. auto.
  - unfold read_point. apply rbind_safe; [apply _|intros; apply ok_or_other_safe].
Qed.

Context {DL : DalekLaws D}.

Lemma scalar_from_ok s : scalar_ok (Scalar.from s).
Proof. split; [apply sc_bytes_array | rewrite sc_canonical_to_bytes; eauto]. Qed.

Lemma scalar_into_from {E} s : Scalar.into (E := E) (Scalar.from s) = Ok s.
Proof. unfold Scalar.into, Scalar.from. rewrite sc_canonical_to_bytes. reflexivity. Qed.

Lemma scalar_into_ok {E} b : scalar_ok b -> exists s, Scalar.into (E := E) b = Ok s /\ Scalar.from s = b.
Proof.
  intros [Hb [s Hs]]. exists s. unfold Scalar.into. rewrite Hs. split; [reflexivity|].
  apply sc_to_bytes_canonical; assumption.
Qed.

Lemma scalar_into_all b : scalar_ok b -> exists s, (forall E, Scalar.into (E := E) b = Ok s) /\ Scalar.from s = b.
Proof.
  intros Hb. destruct (scalar_into_ok (E := unit) b Hb) as (s & Hs & He). exists s. split; [|exact He]. intros E.
  revert Hs. unfold Scalar.into. destruct (sc_from_canonical_bytes b); [|discriminate]. intros [= ->]. reflexivity.
Qed.
End Codecs.

#[export] Existing Instances ok_or_other_safe.

(** ** What the code relies on not to panic *)

(** The hash to a scalar is asserted not to be zero, and the generator [H] is a
    point. *)
Class Primitives {D : Dalek} {K : Keccak} : Prop := {
  hash_nonzero : forall data, sc_eqb (sc_from_bytes_mod_order (keccak_digest data)) sc_ZERO = false;
  H_is_point : is_Some (ed_decompress CompressedPoint.H)
}.

(** The generator [H] is in the prime-order subgroup, and the map to the curve
    reaches a point. *)
Class Setup {D : Dalek} {K : Keccak} : Prop := {
  H_is_free : exists h, CompressedPoint.decompress CompressedPoint.H = Some h /\ ed_is_torsion_free h = true;
  biased_hash_total : forall data, exists p, forall E, Point.biased_hash (E := E) data = Ok p
}.

Section Total.
Context {D : Dalek} {DL : DalekLaws D} {K : Keccak}.

Lemma biased_hash_free {E} b p : Point.biased_hash (E := E) b = Ok p -> ed_is_torsion_free p = true.
Proof.
  unfold Point.biased_hash. cbv zeta. destruct (ed_from_montgomery _ _); cbn; [|discriminate].
  intros [= <-]. apply ed_cofactor_free.
Qed.

Context {PR : Primitives}.

Lemma hash_total data : exists s, forall E, Scalar.hash (E := E) data = Ok (Scalar.from s).
Proof. eexists. intros E. unfold Scalar.hash. rewrite hash_nonzero. reflexivity. Qed.

Lemma commit_total c : commitment_ok c -> exists P, forall E, Commitment.commit (E := E) c = Ok P.
Proof.
  intros [Hm _]. destruct (scalar_into_all _ Hm) as (s & Hs & _). destruct H_is_point as [h Hh].
  eexists. intros E. unfold Commitment.commit, Commitment.H. rewrite Hs, Hh. reflexivity.
Qed.
End Total.
