(* ===== verification/UnreducedScalar.v ===== *)
(** [ed25519/src/unreduced_scalar.rs]: the scalars legacy proofs did not
    require to be reduced, and the non-standard reduction ref10's [slide]
    performed on them. *)

From Stdlib Require Import ZArith Lia.
From stdpp Require Import base list strings numbers.
From S2P Require Import Prelude Dalek MoneroIo Ed25519.

Abbreviation UnreducedScalar := bytes.

Module UnreducedScalar.

Definition read : io_reader UnreducedScalar := read_bytes 32.
Definition write (self : UnreducedScalar) : bytes := self.

(** [as_bits] *)
Definition as_bits (self : UnreducedScalar) : list Z :=
  (fun i => Z.land 1 (Z.shiftr (self !!! (i / 8)%nat) (Z.of_nat (i mod 8)))) <$> seq 0 256.

(** [i8] arithmetic wraps in an unchecked build. *)
Definition i8 (z : Z) : Z := (z + 128) mod 256 - 128.

(** [for k in k .. 256 { if naf[k] == 0 { naf[k] = 1; break; } naf[k] = 0; }],
    over the [n] indexes left *)
Fixpoint carry (n k : nat) (naf : list Z) : list Z :=
  match n with
  | O => naf
  | S n' =>
      if naf !!! k =? 0 then <[k := 1]> naf
      else carry n' (S k) (<[k := 0]> naf)
  end.

(** The inner loop of [non_adjacent_form] at index [i], over the values of
    [b] left. *)
Fixpoint window (i : nat) (bs : list nat) (naf : list Z) : list Z :=
  match bs with
  | [] => naf
  | b :: bs' =>
      if (256 <=? i + b)%nat then naf
      else
        let potential_carry := i8 (Z.shiftl (naf !!! (i + b)%nat) (Z.of_nat b)) in
        if negb (potential_carry =? 0) then
          if i8 (naf !!! i + potential_carry) <=? 15 then
            let naf := <[i := i8 (naf !!! i + potential_carry)]> naf in
            let naf := <[(i + b)%nat := 0]> naf in
            window i bs' naf
          else if -15 <=? i8 (naf !!! i - potential_carry) then
            let naf := <[i := i8 (naf !!! i - potential_carry)]> naf in
            window i bs' (carry (256 - (i + b)) (i + b) naf)
          else naf
        else window i bs' naf
  end.

Definition naf_step (naf : list Z) (i : nat) : list Z :=
  if negb (naf !!! i =? 0) then window i (seq 1 5) naf else naf.

(** [non_adjacent_form] *)
Definition non_adjacent_form (self : UnreducedScalar) : list Z :=
  foldl naf_step (as_bits self) (seq 0 256).

Section Slide.
Context {D : Dalek}.

(** The static [PRECOMPUTED_SCALARS]: 1, 3, .., 15 *)
Definition PRECOMPUTED_SCALARS : list DScalar :=
  sc_ONE :: ((fun i => sc_from_u64 (Z.of_nat i * 2 + 1)) <$> seq 1 7).

(** One digit of the Horner evaluation; the index panics out of range. *)
Definition slide_digit {E} (recovered : outcome E DScalar) (numb : Z) : outcome E DScalar :=
  let? recovered := recovered in
  let recovered := sc_add recovered recovered in
  match numb ?= 0 with
  | Gt => let? s := expect (PRECOMPUTED_SCALARS !! Z.to_nat (numb / 2)) in
          Ok (sc_add recovered s)
  | Lt => let? s := expect (PRECOMPUTED_SCALARS !! Z.to_nat (- numb / 2)) in
          Ok (sc_sub recovered s)
  | Eq => Ok recovered
  end.

(** The part of [ref10_slide_scalar_vartime] past its shortcut *)
Definition slide {E} (self : UnreducedScalar) : outcome E DScalar :=
  foldl slide_digit (Ok sc_ZERO) (rev (non_adjacent_form self)).

(** [ref10_slide_scalar_vartime] *)
Definition ref10_slide_scalar_vartime {E} (self : UnreducedScalar) : outcome E Scalar :=
  if Z.land (self !!! 31%nat) 128 =? 0 then
    Ok (Scalar.from (sc_from_bytes_mod_order self))
  else
    let? recovered := slide self in
    Ok (Scalar.from recovered).
End Slide.
End UnreducedScalar.

(** ** Correctness of the non-adjacent form

    The proofs follow the loop on the suffix of the array from index [i] on:
    the digits before it are final, those after it are still bits. *)

Section NafProofs.
Import UnreducedScalar.

Fixpoint val (l : list Z) : Z :=
  match l with
  | [] => 0
  | d :: l' => d + 2 * val l'
  end.

Definition bit (d : Z) : Prop := d = 0 \/ d = 1.
Definition digit (d : Z) : Prop := d = 0 \/ (Z.Odd d /\ -15 <= d <= 15).

Lemma pow2_len_cons {A} (x : A) l : 2 ^ len (x :: l) = 2 * 2 ^ len l.
Proof. unfold len. cbn [length]. rewrite Nat2Z.inj_succ, Z.pow_succ_r by lia. reflexivity. Qed.

Lemma pow2_len_pos {A} (l : list A) : 0 < 2 ^ len l.
Proof. apply Z.pow_pos_nonneg; unfold len; lia. Qed.

Lemma val_app a b : val (a ++ b) = val a + 2 ^ len a * val b.
Proof.
  induction a as [|x a IH]; [cbn [app val]; change (2 ^ len (@nil Z)) with 1; ring|].
  cbn [app val]. rewrite IH, pow2_len_cons. ring.
Qed.

Lemma val_bits l : Forall bit l -> 0 <= val l < 2 ^ len l.
Proof.
  induction 1 as [|d l Hd _ IH]; [unfold len; cbn; lia|]. rewrite pow2_len_cons. cbn [val]. destruct Hd; lia.
Qed.

(** [carry] on the suffix it runs over *)
Fixpoint carry_l (l : list Z) : list Z :=
  match l with
  | [] => []
  | x :: l' => if x =? 0 then 1 :: l' else 0 :: carry_l l'
  end.

Lemma carry_eq pre suf : carry (length suf) (length pre) (pre ++ suf) = pre ++ carry_l suf.
Proof.
  revert pre. induction suf as [|x suf IH]; intros pre; [reflexivity|]. cbn [length carry carry_l].
  rewrite list_lookup_total_middle by reflexivity. rewrite !insert_middle.
  destruct (x =? 0); [reflexivity|].
  replace (S (length pre)) with (length (pre ++ [0])) by (rewrite length_app; cbn; lia).
  replace (pre ++ 0 :: suf) with ((pre ++ [0]) ++ suf) by (rewrite <- app_assoc; reflexivity).
  rewrite IH, <- app_assoc. reflexivity.
Qed.

Lemma carry_l_length l : length (carry_l l) = length l.
Proof. induction l as [|x l IH]; cbn; [reflexivity|]. destruct (x =? 0); cbn; congruence. Qed.

Lemma carry_l_bits l : Forall bit l -> Forall bit (carry_l l).
Proof.
  induction 1 as [|x l Hx Hl IH]; cbn; [constructor|].
  destruct (x =? 0); constructor; auto; unfold bit; lia.
Qed.

(** Adding one, dropping the carry out of the last place. *)
Lemma carry_l_val l : Forall bit l ->
  val (carry_l l) = val l + 1 - (if val l + 1 =? 2 ^ len l then 2 ^ len l else 0).
Proof.
  induction 1 as [|x l Hx Hl IH]; [reflexivity|]. cbn [carry_l val]. rewrite pow2_len_cons.
  pose proof (val_bits l Hl). destruct Hx as [-> | ->]; cbn [Z.eqb val].
  - destruct (Z.eqb_spec (0 + 2 * val l + 1) (2 * 2 ^ len l)); lia.
  - rewrite IH. destruct (Z.eqb_spec (val l + 1) (2 ^ len l)),
      (Z.eqb_spec (1 + 2 * val l + 1) (2 * 2 ^ len l)); lia.
Qed.

(** [window] on the digit [x] at index [i] and the suffix after it; [ks]
    holds the values of [b], less one. *)
Fixpoint window_l (ks : list nat) (x : Z) (suf : list Z) : Z * list Z :=
  match ks with
  | [] => (x, suf)
  | k :: ks' =>
      match suf !! k with
      | None => (x, suf)
      | Some y =>
          let pc := y * 2 ^ Z.of_nat (S k) in
          if pc =? 0 then window_l ks' x suf
          else if x + pc <=? 15 then window_l ks' (x + pc) (<[k := 0]> suf)
          else if -15 <=? x - pc then
            window_l ks' (x - pc) (take k suf ++ carry_l (drop k suf))
          else (x, suf)
      end
  end.

Definition carried (k : nat) (suf : list Z) : list Z := take k suf ++ carry_l (drop k suf).

Lemma carried_length k suf : length (carried k suf) = length suf.
Proof.
  unfold carried. rewrite length_app, carry_l_length, <- length_app, take_drop. reflexivity.
Qed.

Lemma carried_bits k suf : Forall bit suf -> Forall bit (carried k suf).
Proof.
  intros H. apply Forall_app. split; [apply Forall_take, H | apply carry_l_bits, Forall_drop, H].
Qed.

Lemma bit_pow_bound y k : bit y -> (k < 5)%nat -> 0 <= y * 2 ^ Z.of_nat (S k) <= 32.
Proof.
  intros Hy Hk. assert (2 ^ Z.of_nat (S k) <= 2 ^ 5) by (apply Z.pow_le_mono_r; lia).
  change (2 ^ 5) with 32 in *. pose proof (Z.pow_nonneg 2 (Z.of_nat (S k)) ltac:(lia)).
  destruct Hy as [-> | ->]; lia.
Qed.

Lemma i8_small z : -128 <= z < 128 -> i8 z = z.
Proof. intros Hz. unfold i8. rewrite Z.mod_small; lia. Qed.

Lemma window_eq ks pre x suf :
  Forall (fun k => (k < 5)%nat) ks -> -15 <= x <= 15 -> Forall bit suf ->
  (length pre + S (length suf) = 256)%nat ->
  window (length pre) (S <$> ks) (pre ++ x :: suf) =
    let '(x', suf') := window_l ks x suf in pre ++ x' :: suf'.
Proof.
  intros Hks. revert x suf. induction Hks as [|k ks Hk Hks IH]; intros x suf Hx Hs Hlen; [reflexivity|].
  cbn [fmap list_fmap window window_l]. destruct (suf !! k) as [y|] eqn:Hy.
  - pose proof (lookup_lt_Some _ _ _ Hy) as Hlt.
    destruct (Nat.leb_spec 256 (length pre + S k)); [lia|].
    assert (Hl : (pre ++ x :: suf) !!! (length pre + S k)%nat = y).
    { rewrite lookup_total_app_r by lia. replace (length pre + S k - length pre)%nat with (S k) by lia.
      apply list_lookup_total_correct. exact Hy. }
    assert (Hby : bit y) by (eapply Forall_lookup_1; eassumption).
    pose proof (bit_pow_bound y k Hby Hk).
    rewrite Hl, list_lookup_total_middle, Z.shiftl_mul_pow2, !i8_small by (reflexivity || lia).
    cbv zeta. destruct (Z.eqb_spec (y * 2 ^ Z.of_nat (S k)) 0); cbn [negb]; [apply IH; auto|].
    rewrite !insert_middle.
    destruct (Z.leb_spec (x + y * 2 ^ Z.of_nat (S k)) 15).
    + rewrite insert_app_r. cbn [insert list_insert]. apply IH; [lia| |rewrite length_insert; assumption].
      apply Forall_insert; [assumption | left; reflexivity].
    + destruct (Z.leb_spec (-15) (x - y * 2 ^ Z.of_nat (S k))); [|reflexivity].
      set (x' := x - y * 2 ^ Z.of_nat (S k)) in *.
      assert (Hc : carry (256 - (length pre + S k)) (length pre + S k) (pre ++ x' :: suf)
                   = pre ++ x' :: carried k suf).
      { replace (pre ++ x' :: suf) with ((pre ++ x' :: take k suf) ++ drop k suf)
          by (rewrite <- app_assoc; cbn [app]; rewrite take_drop; reflexivity).
        replace (length pre + S k)%nat with (length (pre ++ x' :: take k suf))
          by (rewrite length_app; cbn [length]; rewrite length_take; lia).
        replace (256 - length (pre ++ x' :: take k suf))%nat with (length (drop k suf))
          by (rewrite length_app; cbn [length]; rewrite length_take, length_drop; lia).
        rewrite carry_eq, <- app_assoc. reflexivity. }
      rewrite Hc. fold (carried k suf).
      apply IH; [lia|apply carried_bits; assumption|rewrite carried_length; assumption].
  - apply lookup_ge_None_1 in Hy. destruct (Nat.leb_spec 256 (length pre + S k)); [reflexivity|lia].
Qed.

Lemma insert_zero_val suf k : suf !! k = Some 1 -> val (<[k := 0]> suf) = val suf - 2 ^ Z.of_nat k.
Proof.
  intros Hk. pose proof (lookup_lt_Some _ _ _ Hk).
  rewrite <- (take_drop_middle suf k 1 Hk) at 1 2.
  assert (Hl : length (take k suf) = k) by (rewrite length_take; lia).
  rewrite <- Hl at 1. rewrite insert_middle, !val_app. cbn [val]. unfold len. rewrite Hl. lia.
Qed.

Lemma carried_val suf k : Forall bit suf -> suf !! k = Some 1 ->
  exists q, val (carried k suf) = val suf + 2 ^ Z.of_nat k + q * 2 ^ len suf.
Proof.
  intros Hs Hk. pose proof (lookup_lt_Some _ _ _ Hk). unfold carried. rewrite val_app.
  rewrite carry_l_val by (apply Forall_drop, Hs).
  assert (Hv : val suf = val (take k suf) + 2 ^ Z.of_nat k * val (drop k suf)).
  { rewrite <- (take_drop k suf) at 1. rewrite val_app. unfold len. rewrite length_take.
    replace (k `min` length suf)%nat with k by lia. reflexivity. }
  assert (Hp : 2 ^ len suf = 2 ^ Z.of_nat k * 2 ^ len (drop k suf)).
  { unfold len. rewrite length_drop, <- Z.pow_add_r by lia. f_equal. lia. }
  replace (len (take k suf)) with (Z.of_nat k) by (unfold len; rewrite length_take; lia).
  destruct (_ =? _); [exists (-1) | exists 0]; rewrite Hv, Hp; ring.
Qed.

(** The inner loop keeps the value modulo the weight past the array and
    leaves an odd digit of at most 15. *)
Lemma window_l_inv ks x suf x' suf' :
  Forall (fun k => (k < 5)%nat) ks -> Z.Odd x -> -15 <= x <= 15 -> Forall bit suf ->
  window_l ks x suf = (x', suf') ->
  Z.Odd x' /\ -15 <= x' <= 15 /\ Forall bit suf' /\ length suf' = length suf /\
  exists q, x' + 2 * val suf' = x + 2 * val suf + q * 2 ^ len (x :: suf).
Proof.
  intros Hks. revert x suf. induction Hks as [|k ks Hk Hks IH]; intros x suf Hodd Hx Hs; cbn [window_l].
  { intros [= <- <-]. split_and!; auto; try lia. exists 0. lia. }
  destruct (suf !! k) as [y|] eqn:Hy.
  2: { intros [= <- <-]. split_and!; auto; try lia. exists 0. lia. }
  assert (Hby : bit y) by (eapply Forall_lookup_1; eassumption).
  destruct Hby as [-> | ->]; cbn zeta; [rewrite Z.mul_0_l; apply IH; assumption|].
  rewrite Z.mul_1_l. set (pc := 2 ^ Z.of_nat (S k)).
  assert (Hpc : 0 < pc) by (apply Z.pow_pos_nonneg; lia).
  assert (Heven : exists m, pc = 2 * m).
  { exists (2 ^ Z.of_nat k). unfold pc. rewrite Nat2Z.inj_succ, Z.pow_succ_r by lia. reflexivity. }
  assert (Hpk : pc = 2 * 2 ^ Z.of_nat k) by (unfold pc; rewrite Nat2Z.inj_succ, Z.pow_succ_r by lia; reflexivity).
  destruct Heven as [m Hm], Hodd as [o Ho].
  destruct (Z.eqb_spec pc 0); [lia|]. destruct (Z.leb_spec (x + pc) 15).
  - intros (?&?&?&Hl&q&Hq)%IH; [|exists (o + m); lia|lia|apply Forall_insert; [assumption|left; reflexivity]].
    split_and!; auto; try lia; [rewrite Hl, length_insert; reflexivity|]. exists q.
    rewrite insert_zero_val in Hq by assumption.
    replace (2 ^ len (x :: suf)) with (2 ^ len (x + pc :: <[k:=0]> suf))
      by (unfold len; cbn [length]; rewrite length_insert; reflexivity). lia.
  - destruct (Z.leb_spec (-15) (x - pc)).
    + fold (carried k suf).
      intros (?&?&?&Hl&q&Hq)%IH; [|exists (o - m); lia|lia|apply carried_bits; assumption].
      split_and!; auto; try lia; [rewrite Hl; apply carried_length|].
      destruct (carried_val suf k Hs Hy) as [q' Hq']. exists (q + q').
      replace (2 ^ len (x - pc :: carried k suf)) with (2 ^ len (x :: suf)) in Hq
        by (unfold len; cbn [length]; rewrite carried_length; reflexivity).
      rewrite Hq'  in Hq. rewrite pow2_len_cons in *. lia.
    + intros [= <- <-]. split_and!; auto; try lia; [exists o; lia|]. exists 0. lia.
Qed.

(** When the value leaves room for it, nothing is lost: the window keeps
    the value exactly, and the suffix still leaves room for the next one. *)
Lemma window_l_exact suf x' suf' :
  Forall bit suf -> 1 + 2 * val suf < 2 ^ len suf ->
  window_l (seq 0 5) 1 suf = (x', suf') ->
  x' + 2 * val suf' = 1 + 2 * val suf /\ 2 * val suf' <= 2 ^ len suf.
Proof.
  intros Hs Hlt.
  do 5 (destruct suf as [|? suf];
    [ repeat match goal with H : Forall bit (_ :: _) |- _ => apply Forall_cons_1 in H as [[-> | ->] H] end;
      intros Hw; lazy in Hw; injection Hw as <- <-; unfold len in *; cbn in *; lia | ]).
  repeat match goal with H : Forall bit (_ :: _) |- _ => apply Forall_cons_1 in H as [[-> | ->] H] end;
    rewrite !pow2_len_cons in *; cbn [val] in Hlt;
    intros Hw; lazy -[carry_l] in Hw; injection Hw as <- <-; cbn [val carry_l Z.eqb];
    pose proof (pow2_len_pos suf); pose proof (val_bits suf Hs);
    rewrite ?carry_l_val by assumption;
    try (destruct (Z.eqb_spec (val suf + 1) (2 ^ len suf))); lia.
Qed.

Lemma foldl_cons {A B} (f : A -> B -> A) a b l : foldl f a (b :: l) = foldl f (f a b) l.
Proof. reflexivity. Qed.

(** The outer loop over the suffix [suf], the digits before it final. *)
Lemma naf_loop suf pre :
  Forall bit suf -> (length pre + length suf = 256)%nat ->
  exists out, foldl naf_step (pre ++ suf) (seq (length pre) (length suf)) = pre ++ out /\
    length out = length suf /\ Forall digit out /\
    (exists q, val out = val suf + q * 2 ^ len suf) /\
    (2 * val suf <= 2 ^ len suf -> val out = val suf).
Proof.
  remember (length suf) as n eqn:Hn. revert pre suf Hn.
  induction n as [|n IH]; intros pre [|x suf] Hn Hs Hlen; try discriminate.
  { exists []. split_and!; auto. exists 0. reflexivity. }
  injection Hn as Hn. apply Forall_cons_1 in Hs as [Hx Hs].
  cbn [seq]. rewrite foldl_cons. unfold naf_step at 2.
  rewrite list_lookup_total_middle by reflexivity.
  assert (Hstep : forall x' suf', length suf' = n -> Forall bit suf' -> digit x' ->
    (exists q, x' + 2 * val suf' = x + 2 * val suf + q * 2 ^ len (x :: suf)) ->
    (2 * (x + 2 * val suf) <= 2 ^ len (x :: suf) ->
      x' + 2 * val suf' = x + 2 * val suf /\ 2 * val suf' <= 2 ^ len suf) ->
    exists out, foldl naf_step (pre ++ x' :: suf') (seq (S (length pre)) n) = pre ++ out /\
      length out = S n /\ Forall digit out /\
      (exists q, val out = val (x :: suf) + q * 2 ^ len (x :: suf)) /\
      (2 * val (x :: suf) <= 2 ^ len (x :: suf) -> val out = val (x :: suf))).
  { intros x' suf' Hl Hs' Hx' [q Hq] Hexact. cbn [length] in Hlen.
    destruct (IH (pre ++ [x']) suf') as (out & Hout & Hol & Hod & [q' Hq'] & Hoe);
      [congruence|assumption|rewrite length_app; cbn; lia|].
    assert (Hlen' : len suf' = len suf) by (unfold len; congruence). rewrite Hlen' in *.
    rewrite <- app_assoc, length_app, Nat.add_1_r in Hout. cbn [app] in Hout.
    exists (x' :: out). rewrite Hout, <- app_assoc. cbn [app length val]. rewrite pow2_len_cons in *.
    split_and!; auto.
    - exists (q + q'). rewrite Hq'. lia.
    - intros Hle. apply Hexact in Hle as [He Hle]. rewrite (Hoe Hle). exact He. }
  destruct Hx as [-> | ->]; cbn [Z.eqb negb].
  - apply Hstep; auto; [left; reflexivity|exists 0; lia|rewrite pow2_len_cons; lia].
  - change (seq 1 5) with (S <$> seq 0 5). rewrite window_eq; [|repeat constructor; lia|lia|assumption|cbn in Hlen; lia].
    destruct (window_l (seq 0 5) 1 suf) as [x' suf'] eqn:Hw.
    pose proof (window_l_inv (seq 0 5) 1 suf x' suf' ltac:(repeat constructor; lia)
                  ltac:(exists 0; reflexivity) ltac:(lia) Hs Hw) as (Hodd & Hr & Hb & Hl & Hq).
    apply Hstep; [congruence|assumption|right; auto|assumption|].
    intros Hle. rewrite pow2_len_cons in Hle.
    destruct suf as [|y suf].
    + cbn in Hw. injection Hw as <- <-. split; [reflexivity|unfold len; cbn; lia].
    + apply window_l_exact; [assumption| |assumption].
      rewrite (pow2_len_cons y) in *. lia.
Qed.

Lemma naf_spec bits : Forall bit bits -> length bits = 256%nat ->
  let naf := foldl naf_step bits (seq 0 256) in
  length naf = 256%nat /\ Forall digit naf /\
  (exists q, val naf = val bits + q * 2 ^ 256) /\
  (val bits < 2 ^ 255 -> val naf = val bits).
Proof.
  intros Hb Hl. destruct (naf_loop bits [] Hb Hl) as (out & Hout & Hol & Hod & Hq & He).
  rewrite Hl in *. cbn [app length] in Hout. cbv zeta. rewrite Hout.
  unfold len in *. rewrite Hl in *. split_and!; auto. intros Hlt. apply He.
  change (Z.of_nat 256) with 256. replace (2 ^ 256) with (2 * 2 ^ 255) by reflexivity. lia.
Qed.

(** *** [as_bits] lists the bits of the little-endian integer. *)

Definition byte_bits (b : Z) : list Z := (fun k => Z.land 1 (Z.shiftr b (Z.of_nat k))) <$> seq 0 8.

Lemma byte_bits_spec b : U 8 b -> Forall bit (byte_bits b) /\ val (byte_bits b) = b.
Proof.
  intros Hb.
  assert (H : forallb (fun d => (d =? 0) || (d =? 1)) (byte_bits b) && (val (byte_bits b) =? b) = true).
  { apply (byte_forall (fun b => forallb (fun d => (d =? 0) || (d =? 1)) (byte_bits b) && (val (byte_bits b) =? b)));
      [vm_compute; reflexivity|assumption]. }
  apply andb_true_iff in H as [H1 H2%Z.eqb_eq]. split; [|assumption].
  apply Forall_forall. intros d Hd. rewrite forallb_forall in H1.
  pose proof (H1 d Hd) as Hb01. apply orb_true_iff in Hb01. unfold bit. lia.
Qed.

Lemma bits_concat pre bs :
  (fun i => Z.land 1 (Z.shiftr ((pre ++ bs) !!! (i / 8)%nat) (Z.of_nat (i mod 8))))
    <$> seq (8 * length pre) (8 * length bs) = concat (byte_bits <$> bs).
Proof.
  revert pre. induction bs as [|b bs IH]; intros pre; [rewrite Nat.mul_0_r; reflexivity|].
  replace (8 * length (b :: bs))%nat with (8 + 8 * length bs)%nat by (cbn [length]; lia).
  rewrite seq_app, fmap_app. cbn [fmap list_fmap concat]. f_equal.
  - unfold byte_bits. change (list_fmap Z (list Z)) with (@fmap list _ Z (list Z)).
    rewrite <- (Nat.add_0_r (8 * length pre)), <- fmap_add_seq, <- list_fmap_compose.
    apply list_fmap_ext. intros i k Hk. apply lookup_seq in Hk as [-> Hi]. cbn [compose Nat.add].
    rewrite (Nat.mul_comm 8), Nat.div_add_l, Nat.div_small, Nat.add_0_r by lia.
    rewrite (Nat.add_comm _ i), Nat.Div0.mod_add, Nat.mod_small by lia.
    rewrite list_lookup_total_middle by reflexivity. reflexivity.
  - specialize (IH (pre ++ [b])). rewrite length_app, <- app_assoc in IH. cbn [app length] in IH.
    replace (8 * length pre + 8)%nat with (8 * (length pre + 1))%nat by lia. exact IH.
Qed.

Lemma as_bits_concat self : length self = 32%nat -> as_bits self = concat (byte_bits <$> self).
Proof.
  intros Hl. pose proof (bits_concat [] self) as H. rewrite Hl in H. exact H.
Qed.

Lemma concat_bits_spec bs : is_bytes bs ->
  Forall bit (concat (byte_bits <$> bs)) /\ val (concat (byte_bits <$> bs)) = from_le bs /\
  length (concat (byte_bits <$> bs)) = (8 * length bs)%nat.
Proof.
  induction 1 as [|b bs Hb _ (IH1 & IH2 & IH3)]; [repeat constructor|].
  destruct (byte_bits_spec b Hb) as [Hf Hv]. cbn [fmap list_fmap concat].
  split_and!.
  - apply Forall_app. split; assumption.
  - rewrite val_app, Hv. change (list_fmap Z (list Z)) with (@fmap list _ Z (list Z)). rewrite IH2. reflexivity.
  - rewrite length_app. change (list_fmap Z (list Z)) with (@fmap list _ Z (list Z)). rewrite IH3.
    cbn [length]. change (length (byte_bits b)) with 8%nat. lia.
Qed.

Lemma non_adjacent_form_spec self : is_array 32 self ->
  length (non_adjacent_form self) = 256%nat /\ Forall digit (non_adjacent_form self) /\
  (exists q, val (non_adjacent_form self) = from_le self + q * 2 ^ 256) /\
  (from_le self < 2 ^ 255 -> val (non_adjacent_form self) = from_le self).
Proof.
  intros [Hb Hl]. unfold non_adjacent_form. rewrite as_bits_concat by assumption.
  destruct (concat_bits_spec self Hb) as (Hf & Hv & Hlen). rewrite Hl in Hlen.
  pose proof (naf_spec _ Hf Hlen) as H. cbv zeta in H. rewrite Hv in H. exact H.
Qed.
End NafProofs.

(** ** Evaluation of the digits modulo [L] *)

Section SlideProofs.
Import UnreducedScalar.
Context {D : Dalek} {DL : DalekLaws D}.

Lemma precomputed_val d : Z.Odd d -> 0 < d <= 15 ->
  exists s, PRECOMPUTED_SCALARS !! Z.to_nat (d / 2) = Some s /\ sc_val s = d.
Proof.
  intros [k ->] Hd. assert (Hk : (2 * k + 1) / 2 = k).
  { rewrite Z.mul_comm, Z.div_add_l by lia. change (1 / 2) with 0. lia. }
  rewrite Hk. assert (k = 0 \/ k = 1 \/ k = 2 \/ k = 3 \/ k = 4 \/ k = 5 \/ k = 6 \/ k = 7) as Hcase by lia.
  unfold PRECOMPUTED_SCALARS. cbn [seq fmap list_fmap].
  repeat destruct Hcase as [-> | Hcase]; try subst k; cbn;
    (eexists; split; [reflexivity|]); [apply sc_one_val|..];
    rewrite sc_u64_val; solve [reflexivity | unfold U; lia].
Qed.

Lemma slide_digit_spec {E} s d : digit d ->
  exists s', slide_digit (E := E) (Ok s) d = Ok s' /\ sc_val s' = (2 * sc_val s + d) mod L.
Proof.
  pose proof L_pos. intros Hd. unfold slide_digit. cbn [obind].
  assert (Hdbl : sc_val (sc_add s s) = (2 * sc_val s) mod L) by (rewrite sc_add_val; f_equal; lia).
  destruct Hd as [-> | [Hodd Hr]].
  - eexists. split; [reflexivity|]. rewrite Hdbl. f_equal. lia.
  - destruct (Z.compare_spec d 0) as [-> | Hneg | Hpos].
    + destruct Hodd. lia.
    + destruct (precomputed_val (- d)) as (t & Ht & Hv).
      { destruct Hodd as [k ->]. exists (- k - 1). lia. }
      { lia. }
      rewrite Ht. cbn [expect obind]. eexists. split; [reflexivity|].
      rewrite sc_sub_val, Hdbl, Hv, Zminus_mod_idemp_l. f_equal. lia.
    + destruct (precomputed_val d) as (t & Ht & Hv); [assumption|lia|].
      rewrite Ht. cbn [expect obind]. eexists. split; [reflexivity|].
      rewrite sc_add_val, Hdbl, Hv, Z.add_mod_idemp_l by lia. reflexivity.
Qed.

Lemma slide_foldl {E} l : Forall digit l ->
  exists s, foldl (slide_digit (E := E)) (Ok sc_ZERO) (rev l) = Ok s /\ sc_val s = val l mod L.
Proof.
  induction 1 as [|d l Hd _ (s & Hs & Hv)].
  - exists sc_ZERO. split; [reflexivity|]. rewrite sc_zero_val. reflexivity.
  - cbn [rev]. rewrite foldl_app, Hs. cbn [foldl].
    destruct (slide_digit_spec (E := E) s d Hd) as (s' & -> & Hv'). exists s'. split; [reflexivity|].
    pose proof L_pos. rewrite Hv', Hv, Z.add_comm. cbn [val].
    rewrite <- Z.add_mod_idemp_r, Z.mul_mod_idemp_r, Z.add_mod_idemp_r by lia. reflexivity.
Qed.

Lemma slide_spec {E} self : is_array 32 self ->
  exists s, slide (E := E) self = Ok s /\ sc_val s = val (non_adjacent_form self) mod L.
Proof. intros H. apply slide_foldl, non_adjacent_form_spec, H. Qed.
End SlideProofs.

(** ** Properties *)

Section Properties.
Import UnreducedScalar.

Lemma from_le_app a b : from_le (a ++ b) = from_le a + 256 ^ len a * from_le b.
Proof.
  induction a as [|x a IH].
  - change (256 ^ len (@nil Z)) with 1. change (from_le []) with 0. cbn [app]. lia.
  - change (from_le ((x :: a) ++ b)) with (x + 256 * from_le (a ++ b)).
    change (from_le (x :: a)) with (x + 256 * from_le a). rewrite IH.
    unfold len. cbn [length]. rewrite Nat2Z.inj_succ, Z.pow_succ_r by lia. ring.
Qed.

Lemma top_bit b : U 8 b -> (Z.land b 128 =? 0) = (b <? 128).
Proof.
  intros Hb. apply Bool.eqb_prop.
  apply (byte_forall (fun b => Bool.eqb (Z.land b 128 =? 0) (b <? 128))); [reflexivity|assumption].
Qed.

(** The shortcut's test: the integer is below [2^255]. *)
Lemma shortcut_spec self : is_array 32 self ->
  (Z.land (self !!! 31%nat) 128 =? 0) = (from_le self <? 2 ^ 255).
Proof.
  intros [Hb Hl]. destruct (lookup_lt_is_Some_2 self 31) as [b Hs]; [lia|].
  rewrite (list_lookup_total_correct _ _ _ Hs).
  rewrite <- (take_drop_middle self 31 b Hs) at 1.
  rewrite (drop_ge self) by lia. rewrite from_le_app.
  change (from_le [b]) with (b + 256 * 0).
  assert (Hl31 : len (take 31 self) = 31) by (unfold len; rewrite length_take; lia).
  rewrite Hl31. assert (HU : U 8 b) by (eapply Forall_lookup_1; eassumption).
  rewrite top_bit by assumption.
  pose proof (from_le_U (take 31 self)) as Hr. rewrite Hl31 in Hr.
  change (256 ^ 31) with (2 ^ (8 * 31)). replace (2 ^ 255) with (128 * 2 ^ (8 * 31)) by reflexivity.
  specialize (Hr (Forall_take _ _ _ Hb)). unfold U in Hr.
  destruct (Z.ltb_spec b 128), (Z.ltb_spec (from_le (take 31 self) + 2 ^ (8 * 31) * (b + 256 * 0)) (128 * 2 ^ (8 * 31)));
    reflexivity || (exfalso; nia).
Qed.

(** [UnreducedScalar::non_adjacent_form] on any 32 bytes: 256 digits,
    each zero or odd and within -15 and 15, which sum to the little-endian
    integer modulo [2^256], and to exactly the integer when its top bit is
    clear (nothing is carried out of the array). *)
Theorem non_adjacent_form_correct self : is_array 32 self ->
  length (non_adjacent_form self) = 256%nat /\
  Forall (fun d => d = 0 \/ (Z.Odd d /\ -15 <= d <= 15)) (non_adjacent_form self) /\
  val (non_adjacent_form self) mod 2 ^ 256 = from_le self mod 2 ^ 256 /\
  (from_le self < 2 ^ 255 -> val (non_adjacent_form self) = from_le self).
Proof.
  intros H. destruct (non_adjacent_form_spec self H) as (Hl & Hd & [q Hq] & He).
  split_and!; try assumption. rewrite Hq, Z.mod_add by lia. reflexivity.
Qed.

Context {D : Dalek} {DL : DalekLaws D}.

Lemma ref10_spec {E} self : is_array 32 self ->
  exists s, slide (E := E) self = Ok s /\
    ref10_slide_scalar_vartime (E := E) self = Ok (Scalar.from s) /\
    sc_val s = val (non_adjacent_form self) mod L.
Proof.
  intros H. destruct (slide_spec (E := E) self H) as (s & Hs & Hv).
  exists s. split_and!; [assumption| |assumption].
  unfold ref10_slide_scalar_vartime. rewrite shortcut_spec by assumption.
  destruct (Z.ltb_spec (from_le self) (2 ^ 255)); [|rewrite Hs; reflexivity].
  f_equal. f_equal. apply sc_val_inj. rewrite Hv, sc_mod_order by assumption.
  destruct (non_adjacent_form_spec self H) as (_ & _ & _ & ->); [reflexivity|assumption].
Qed.

(** [UnreducedScalar::ref10_slide_scalar_vartime] never indexes out of
    its table, always yields the value of the digits modulo the group order,
    its shortcut for a clear top bit yields what the digits do, and on
    such bytes the result is the plain reduction of the integer. *)
Theorem ref10_slide_scalar_correct self : is_array 32 self ->
  exists s : DScalar,
    ref10_slide_scalar_vartime (E := io_error) self = Ok (Scalar.from s) /\
    slide (E := io_error) self = Ok s /\
    sc_val s = val (non_adjacent_form self) mod L /\
    (Z.land (self !!! 31%nat) 128 = 0 -> sc_val s = from_le self mod L).
Proof.
  intros H. destruct (ref10_spec (E := io_error) self H) as (s & Hs & Hr & Hv).
  exists s. split_and!; try assumption. intros Ht%Z.eqb_eq.
  rewrite shortcut_spec in Ht by assumption. apply Z.ltb_lt in Ht.
  destruct (non_adjacent_form_spec self H) as (_ & _ & _ & He). rewrite Hv, He by assumption. reflexivity.
Qed.
End Properties.

(** 32 bytes of [255]: the digits miss [2^256]. *)
Lemma non_adjacent_form_correct_witness :
  let self := repeat 255 32 in
  is_array 32 self /\ val (UnreducedScalar.non_adjacent_form self) = -1 /\
  length (UnreducedScalar.non_adjacent_form self) = 256%nat.
Proof.
  split; [vm_compute; repeat constructor; discriminate|].
  split; [vm_compute; reflexivity|].
  apply (non_adjacent_form_correct (repeat 255 32)).
  vm_compute; repeat constructor; discriminate.
Defined.

Section Witness.
Import Model.

Lemma ref10_slide_scalar_correct_witness :
  is_array 32 (repeat 255 32) /\
  exists s : DScalar,
    UnreducedScalar.ref10_slide_scalar_vartime (E := io_error) (repeat 255 32) = Ok (Scalar.from s) /\
    sc_val s = (-1) mod L.
Proof.
  split; [vm_compute; repeat constructor; discriminate|].
  destruct (ref10_slide_scalar_correct (D := Model.dalek) (repeat 255 32)) as (s & H1 & _ & H2 & _).
  { vm_compute; repeat constructor; discriminate. }
  exists s. split; [exact H1|]. rewrite H2. vm_compute. reflexivity.
Defined.
End Witness.
