(* ===== verification/Merkle.v ===== *)
(** [src/merkle.rs]: Monero's Merkle tree hash, computed in place over a
    mutable slice, against a recursive definition of the same tree. *)

From Stdlib Require Import ZArith Lia.
From stdpp Require Import base list strings numbers.
From S2P Require Import Prelude Dalek MoneroIo Ed25519.

(** ** The computation *)

Module Merkle.
Section Ops.
Context {K : Keccak}.

(** The closure [pair] *)
Definition pair (left right : bytes) : bytes := keccak256 (left ++ right).

(** One iteration of the inner [for], index checks included *)
Definition pair_step {E} (start : nat) (leaves : outcome E (list bytes)) (i : nat)
  : outcome E (list bytes) :=
  let? leaves := leaves in
  let? l := expect (leaves !! (start + 2 * i)%nat) in
  let? r := expect (leaves !! (start + 2 * i + 1)%nat) in
  if (start + i <? length leaves)%nat then Ok (<[(start + i)%nat := pair l r]> leaves)
  else Panic.

(** The [while] loop.  Each iteration shortens the slice, so its length
    bounds the iterations; running out of [fuel] is a panic, which
    [merkle_root_spec] excludes. *)
Fixpoint reduce {E} (fuel : nat) (leaves : list bytes) (low_pow_2 : nat)
  : outcome E (list bytes) :=
  match fuel with
  | O => Panic
  | S fuel' =>
      if (length leaves =? 1)%nat then Ok leaves
      else
        let low_pow_2 :=
          if (length leaves =? low_pow_2)%nat then Nat.div2 low_pow_2 else low_pow_2 in
        if (length leaves <? low_pow_2)%nat then Panic
        else
          let overage := (length leaves - low_pow_2)%nat in
          if (low_pow_2 <? overage)%nat then Panic
          else
            let start := (low_pow_2 - overage)%nat in
            let? leaves := foldl (pair_step start) (Ok leaves) (seq 0 overage) in
            reduce fuel' (take low_pow_2 leaves) low_pow_2
  end.

(** [merkle_root] *)
Definition merkle_root {E} (leaves : list bytes) : outcome E (option bytes) :=
  match leaves with
  | [] => Ok None
  | [leaf] => Ok (Some leaf)
  | [l; r] => Ok (Some (pair l r))
  | _ =>
      let highest_bit_set := S (Nat.log2 (length leaves)) in
      let low_pow_2 := Nat.shiftl 1 (highest_bit_set - 1) in
      let? leaves := reduce (length leaves) leaves low_pow_2 in
      let? root := expect (leaves !! 0%nat) in
      Ok (Some root)
  end.
End Ops.
End Merkle.

(** ** The tree *)

Module MerkleSpec.
Import Merkle.
Section Ops.
Context {K : Keccak}.

Fixpoint pairs (l : list bytes) : list bytes :=
  match l with
  | a :: b :: l' => pair a b :: pairs l'
  | _ => []
  end.

(** The root of the perfect tree over [2 ^ n] leaves *)
Fixpoint perfect (n : nat) (l : list bytes) : bytes :=
  match n with
  | O => hd [] l
  | S n' => pair (perfect n' (take (2 ^ n') l)) (perfect n' (drop (2 ^ n') l))
  end.

(** The last leaves past the greatest power of two are paired off first,
    then the tree is perfect. *)
Definition root (l : list bytes) : bytes :=
  let n := Nat.log2 (length l) in
  let overage := (length l - 2 ^ n)%nat in
  perfect n (take (2 ^ n - overage) l ++ pairs (drop (2 ^ n - overage) l)).
End Ops.
End MerkleSpec.

(** ** The computation yields the tree's root *)

Section Proofs.
Import Merkle MerkleSpec.
Context {K : Keccak}.

Lemma pairs_length n l : length l = (2 * n)%nat -> length (pairs l) = n.
Proof.
  revert l. induction n as [|n IH]; intros [|a [|b l]] Hl; cbn in *; try lia.
  rewrite IH; lia.
Qed.

Lemma pairs_app n l l' : length l = (2 * n)%nat -> pairs (l ++ l') = pairs l ++ pairs l'.
Proof.
  revert l. induction n as [|n IH]; intros [|a [|b l]] Hl; cbn in *; try lia; [reflexivity|].
  rewrite IH by lia. reflexivity.
Qed.

Lemma perfect_pairs n l : length l = (2 ^ S n)%nat -> perfect (S n) l = perfect n (pairs l).
Proof.
  revert l. induction n as [|n IH]; intros l Hl.
  - destruct l as [|a [|b [|c l]]]; cbn in Hl; try lia. reflexivity.
  - assert (Hp : (2 ^ S n = 2 * 2 ^ n)%nat) by (rewrite Nat.pow_succ_r'; reflexivity).
    assert (Hl1 : length (take (2 ^ S n) l) = (2 ^ S n)%nat)
      by (rewrite length_take, Hl; rewrite (Nat.pow_succ_r' 2 (S n)); lia).
    assert (Hl2 : length (drop (2 ^ S n) l) = (2 ^ S n)%nat)
      by (rewrite length_drop, Hl; rewrite (Nat.pow_succ_r' 2 (S n)); lia).
    transitivity (pair (perfect (S n) (take (2 ^ S n) l)) (perfect (S n) (drop (2 ^ S n) l)));
      [reflexivity|].
    rewrite (IH _ Hl1), (IH _ Hl2).
    rewrite <- (take_drop (2 ^ S n) l) at 3. rewrite (pairs_app (2 ^ n)) by lia.
    assert (Hq : length (pairs (take (2 ^ S n) l)) = (2 ^ n)%nat) by (apply pairs_length; lia).
    cbn [perfect]. rewrite take_app_length', drop_app_length' by (symmetry; exact Hq || exact Hq).
    reflexivity.
Qed.

(** The inner loop replaces the suffix [B] by its pairs, leaving scratch
    values behind. *)
Lemma pair_loop {E} m A P J B :
  length B = (2 * m)%nat -> length P = length J ->
  exists J', foldl (pair_step (E := E) (length A)) (Ok (A ++ P ++ J ++ B)) (seq (length P) m)
              = Ok (A ++ P ++ pairs B ++ J').
Proof.
  revert P J B. induction m as [|m IH]; intros P J B HB HP.
  - destruct B; [|cbn in HB; lia]. exists J. cbn. rewrite app_nil_r. reflexivity.
  - destruct B as [|a [|b B]]; [cbn in HB; lia..|]. cbn [seq foldl].
    assert (Hl : forall x k, (A ++ P ++ J ++ a :: b :: B) !! (length A + 2 * length P + k)%nat = Some x <->
                             (a :: b :: B) !! k = Some x).
    { intros x k. rewrite (lookup_app_r A) by lia. rewrite (lookup_app_r P) by lia.
      rewrite (lookup_app_r J) by lia. replace (_ - _)%nat with k by lia. reflexivity. }
    unfold pair_step at 2. cbn [obind].
    rewrite (proj2 (Hl b 1%nat) eq_refl).
    rewrite <- (Nat.add_0_r (length A + 2 * length P)), (proj2 (Hl a 0%nat) eq_refl).
    cbn [expect obind].
    destruct (Nat.ltb_spec (length A + length P) (length (A ++ P ++ J ++ a :: b :: B))) as [_|Hge];
      [|rewrite !length_app in Hge; cbn in Hge; lia].
    assert (Htl : exists t T, J ++ [a; b] = t :: T) by (destruct J; cbn; eauto).
    destruct Htl as (t & T & HT).
    assert (HTl : length T = S (length P)).
    { apply (f_equal length) in HT. rewrite length_app in HT. cbn in HT. lia. }
    destruct (IH (P ++ [pair a b]) T B) as [J' HJ'].
    { cbn in HB. lia. }
    { rewrite length_app. cbn. lia. }
    exists J'. rewrite length_app, Nat.add_1_r in HJ'. rewrite <- !app_assoc in HJ'. cbn [app] in HJ'.
    cbn [pairs app]. rewrite <- HJ'. f_equal. f_equal.
    replace (A ++ P ++ J ++ a :: b :: B) with ((A ++ P) ++ t :: T ++ B).
    + rewrite <- length_app, insert_middle, <- app_assoc. reflexivity.
    + rewrite <- app_assoc. do 2 f_equal. rewrite app_comm_cons, <- HT, <- app_assoc. reflexivity.
Qed.

(** One iteration of the [while] loop *)
Lemma reduce_step {E} fuel l low :
  (low < length l <= 2 * low)%nat ->
  reduce (E := E) (S fuel) l (if (length l =? 2 * low)%nat then 2 * low else low)
    = reduce fuel (take (low - (length l - low)) l ++ pairs (drop (low - (length l - low)) l)) low.
Proof.
  intros Hl. cbn [reduce].
  destruct (Nat.eqb_spec (length l) 1); [lia|].
  assert (Hlow : (if length l =? (if length l =? 2 * low then 2 * low else low)
                  then Nat.div2 (if length l =? 2 * low then 2 * low else low)
                  else (if length l =? 2 * low then 2 * low else low))%nat = low).
  { destruct (Nat.eqb_spec (length l) (2 * low)) as [->|].
    - rewrite Nat.eqb_refl. apply Nat.div2_double.
    - destruct (Nat.eqb_spec (length l) low); [lia|reflexivity]. }
  cbv zeta. rewrite Hlow.
  destruct (Nat.ltb_spec (length l) low); [lia|].
  destruct (Nat.ltb_spec low (length l - low)); [lia|].
  set (ov := (length l - low)%nat). set (start := (low - ov)%nat).
  assert (Hs : length (take start l) = start) by (rewrite length_take; lia).
  destruct (pair_loop (E := E) ov (take start l) [] [] (drop start l)) as [J' HJ'];
    [rewrite length_drop; lia|reflexivity|].
  cbn [app length] in HJ'. rewrite take_drop, Hs in HJ'. rewrite HJ'. cbn [obind].
  f_equal. rewrite app_assoc. apply take_app_length'.
  rewrite length_app, Hs, (pairs_length ov) by (rewrite length_drop; lia). lia.
Qed.

Lemma reduce_perfect {E} n fuel l :
  length l = (2 ^ n)%nat -> (n < fuel)%nat ->
  reduce (E := E) fuel l (2 ^ n) = Ok [perfect n l].
Proof.
  revert fuel l. induction n as [|n IH]; intros [|fuel] l Hl Hf; try lia.
  - destruct l as [|x [|y l]]; cbn in Hl; try lia. reflexivity.
  - pose proof (Nat.pow_nonzero 2 n ltac:(lia)).
    pose proof (reduce_step (E := E) fuel l (2 ^ n)) as Hs.
    rewrite Hl, Nat.pow_succ_r', Nat.eqb_refl in Hs. rewrite Nat.pow_succ_r', Hs by lia.
    replace (2 ^ n - (2 * 2 ^ n - 2 ^ n))%nat with 0%nat by lia. rewrite take_0, drop_0, app_nil_l.
    rewrite IH, perfect_pairs; [reflexivity|exact Hl| |lia].
    apply pairs_length. rewrite <- Nat.pow_succ_r'. exact Hl.
Qed.

Lemma log2_bounds n : (0 < n)%nat -> (2 ^ Nat.log2 n <= n < 2 * 2 ^ Nat.log2 n)%nat.
Proof. intros H. pose proof (Nat.log2_spec n H) as Hs. rewrite Nat.pow_succ_r' in Hs. exact Hs. Qed.

Lemma root_power n l : length l = (2 ^ n)%nat -> root l = perfect n l.
Proof.
  intros Hl. unfold root. rewrite Hl, Nat.log2_pow2, Nat.sub_diag, Nat.sub_0_r by lia.
  rewrite take_ge, drop_ge, app_nil_r by lia. reflexivity.
Qed.

Lemma reduce_root {E} l : (2 < length l)%nat ->
  reduce (E := E) (length l) l (2 ^ Nat.log2 (length l)) = Ok [root l].
Proof.
  intros Hl. pose proof (log2_bounds (length l) ltac:(lia)) as Hb.
  pose proof (Nat.log2_lt_lin (length l) ltac:(lia)) as Hlin.
  destruct (Nat.eq_dec (length l) (2 ^ Nat.log2 (length l))%nat) as [He|He].
  - rewrite (root_power _ _ He). apply reduce_perfect; [exact He|exact Hlin].
  - assert (Hfuel : (S (Nat.log2 (length l)) < length l)%nat).
    { pose proof (Nat.pow_gt_lin_r 2 (Nat.log2 (length l)) ltac:(lia)). lia. }
    destruct (length l) as [|f] eqn:El; [lia|].
    pose proof (reduce_step (E := E) f l (2 ^ Nat.log2 (S f))%nat) as Hs.
    rewrite El in Hs. destruct (Nat.eqb_spec (S f) (2 * 2 ^ Nat.log2 (S f))); [lia|].
    rewrite Hs by lia. unfold root. rewrite El. apply reduce_perfect; [|lia].
    rewrite length_app, length_take, El.
    rewrite (pairs_length (S f - 2 ^ Nat.log2 (S f))) by (rewrite length_drop, El; lia). lia.
Qed.

Lemma merkle_root_root {E} l :
  merkle_root (E := E) l = Ok (match l with [] => None | _ => Some (root l) end).
Proof.
  destruct l as [|a [|b [|c l]]]; [reflexivity..|].
  unfold merkle_root. cbv zeta. rewrite Nat.shiftl_1_l.
  replace (S (Nat.log2 (length (a :: b :: c :: l))) - 1)%nat
    with (Nat.log2 (length (a :: b :: c :: l))) by lia.
  rewrite reduce_root by (cbn; lia). reflexivity.
Qed.

Lemma pair_array {KL : KeccakLaws K} a b : is_array 32 (pair a b).
Proof. apply keccak_array. Qed.

(** ** Binding *)

(** What is hashed for the pairs of a list, for the tree over a list of a
    power of two, and for the tree over any list *)
Fixpoint pair_inputs (l : list bytes) : list bytes :=
  match l with a :: b :: l => (a ++ b) :: pair_inputs l | _ => [] end.

Fixpoint perfect_inputs (n : nat) (l : list bytes) : list bytes :=
  match n with O => [] | S n => pair_inputs l ++ perfect_inputs n (pairs l) end.

Definition root_inputs (l : list bytes) : list bytes :=
  let n := Nat.log2 (length l) in
  let s := (2 ^ n - (length l - 2 ^ n))%nat in
  pair_inputs (drop s l) ++ perfect_inputs n (take s l ++ pairs (drop s l)).

Context {KL : KeccakLaws K}.

Lemma pairs_arrays n l : length l = (2 * n)%nat -> Forall (is_array 32) (pairs l).
Proof.
  revert l. induction n as [|n IH]; intros [|a [|b l]] Hl; cbn in *; try lia; [constructor|].
  constructor; [apply pair_array|apply IH; lia].
Qed.

Lemma pairs_inj n l l' :
  length l = (2 * n)%nat -> length l' = (2 * n)%nat ->
  Forall (is_array 32) l -> Forall (is_array 32) l' ->
  pairs l = pairs l' -> l = l' \/ collides (pair_inputs l) (pair_inputs l').
Proof.
  revert l l'. induction n as [|n IH]; intros [|a [|b l]] [|a' [|b' l']] Hl Hl' Hf Hf'; cbn in *;
    try lia; [auto|].
  apply Forall_cons_1 in Hf as [Ha Hf], Hf' as [Ha' Hf'].
  apply Forall_cons_1 in Hf as [Hb Hf], Hf' as [Hb' Hf'].
  intros [= Hp Hps]. destruct (decide (a ++ b = a' ++ b')) as [Hab|Hab].
  - apply app_inj_1 in Hab as [-> ->]; [|destruct Ha, Ha'; congruence].
    destruct (IH l l') as [->|Hc]; auto; try lia. right. exact (collides_r _ _ [_] [_] Hc).
  - right. exists (a ++ b), (a' ++ b'). split_and!; auto; left.
Qed.

Lemma perfect_inj n l l' :
  length l = (2 ^ n)%nat -> length l' = (2 ^ n)%nat ->
  Forall (is_array 32) l -> Forall (is_array 32) l' ->
  perfect n l = perfect n l' -> l = l' \/ collides (perfect_inputs n l) (perfect_inputs n l').
Proof.
  revert l l'. induction n as [|n IH]; intros l l' Hl Hl' Hf Hf' He.
  - destruct l as [|x [|y l]], l' as [|x' [|y' l']]; cbn in Hl, Hl'; try lia. cbn in He. left. congruence.
  - rewrite !perfect_pairs in He by assumption. rewrite Nat.pow_succ_r' in *. cbn [perfect_inputs].
    apply IH in He as [He|Hc]; eauto using pairs_length, pairs_arrays.
    + apply (pairs_inj (2 ^ n)) in He as [He|Hc]; auto. right. apply collides_l, Hc.
    + right. apply collides_r, Hc.
Qed.

Lemma root_inj l l' :
  length l = length l' -> (0 < length l)%nat ->
  Forall (is_array 32) l -> Forall (is_array 32) l' ->
  root l = root l' -> l = l' \/ collides (root_inputs l) (root_inputs l').
Proof.
  intros Hl Hpos Hf Hf'. unfold root, root_inputs. rewrite <- Hl.
  pose proof (log2_bounds (length l) Hpos).
  set (n := Nat.log2 (length l)) in *. set (ov := (length l - 2 ^ n)%nat).
  set (s := (2 ^ n - ov)%nat).
  assert (Hd : length (drop s l) = (2 * ov)%nat) by (rewrite length_drop; lia).
  assert (Hd' : length (drop s l') = (2 * ov)%nat) by (rewrite length_drop; lia).
  intros He. apply perfect_inj in He as [He|Hc]; auto.
  - apply app_inj_1 in He as [Ht Hp]; [|rewrite !length_take; lia].
    apply (pairs_inj ov) in Hp as [Hp|Hc]; auto using Forall_drop.
    + left. rewrite <- (take_drop s l), <- (take_drop s l'). congruence.
    + right. apply collides_l, Hc.
  - right. apply collides_r, Hc.
  - rewrite length_app, length_take, (pairs_length ov) by assumption. lia.
  - rewrite length_app, length_take, (pairs_length ov) by assumption. lia.
  - apply Forall_app. eauto using Forall_take, pairs_arrays.
  - apply Forall_app. eauto using Forall_take, pairs_arrays.
Qed.

Lemma root_array l : (0 < length l)%nat -> Forall (is_array 32) l -> is_array 32 (root l).
Proof.
  intros Hp Hf. unfold root. destruct (Nat.log2 (length l)) as [|n] eqn:El.
  - pose proof (log2_bounds (length l) Hp) as Hb. rewrite El in Hb.
    destruct l as [|x [|y l]]; cbn in Hb; try lia. apply Forall_inv in Hf. exact Hf.
  - apply pair_array.
Qed.
End Proofs.

(** ** Properties *)

Section Properties.
Import Merkle MerkleSpec.
Context {K : Keccak}.

(** C20: [merkle_root] terminates without an out-of-range index or underflow
    on every list of leaves, and yields nothing for an empty list and the
    root of the tree as recursively defined otherwise. *)
Theorem merkle_root_spec leaves :
  merkle_root (E := io_error) leaves
    = Ok (match leaves with [] => None | _ => Some (root leaves) end).
Proof. apply merkle_root_root. Qed.

(** For a known amount of leaves the root commits to every one of them:
    two lists of as many 32-byte leaves with the same root are the same
    list, or two different pairs hashed to compute the two roots collide. *)
Theorem merkle_root_binding {KL : KeccakLaws K} l l' :
  length l = length l' -> Forall (is_array 32) l -> Forall (is_array 32) l' ->
  merkle_root (E := io_error) l = merkle_root l' ->
  l = l' \/ collides (root_inputs l) (root_inputs l').
Proof.
  intros Hl Hf Hf'. rewrite !merkle_root_root.
  destruct l as [|x l], l' as [|x' l']; try discriminate; [auto|].
  intros [= He]. apply (root_inj (x :: l) (x' :: l')); auto. cbn. lia.
Qed.
End Properties.

(** Five leaves: three kept, the last two paired off. *)
Lemma merkle_root_binding_witness :
  let l := (fun i => repeat (Z.of_nat i) 32) <$> seq 1 5 in
  Forall (is_array 32) l /\
  (l = l \/ collides (K := Model.keccak) (root_inputs (K := Model.keccak) l) (root_inputs (K := Model.keccak) l)).
Proof.
  assert (H : Forall (is_array 32) ((fun i => repeat (Z.of_nat i) 32) <$> seq 1 5)).
  { repeat constructor; vm_compute; reflexivity || discriminate. }
  split; [exact H|].
  apply (merkle_root_binding (K := Model.keccak) (KL := Model.keccak_laws)); auto.
Defined.
