(* ===== verification/RingSignatures.v ===== *)
(** [src/ring_signatures.rs]: the ring signatures of the original CryptoNote
    protocol, their codec and their verification. *)

From Stdlib Require Import ZArith Lia.
From stdpp Require Import base list strings numbers.
From S2P Require Import Prelude Dalek MoneroIo Ed25519.

Module Signature.
Record t := new { c : Scalar; s : Scalar }.

Section Ops.
Context {D : Dalek}.

Definition write (self : t) : bytes := Scalar.write (c self) ++ Scalar.write (s self).

Definition read : io_reader t :=
  let* c := Scalar.read in
  let* s := Scalar.read in
  rret (new c s).
End Ops.
End Signature.

Module RingSignature.
Record t := new { sigs : list Signature.t }.

Section Ops.
Context {D : Dalek} {K : Keccak}.

Definition write (self : t) : bytes := write_raw_vec Signature.write (sigs self).

Definition read (members : nat) : io_reader t :=
  let* sigs := read_raw_vec Signature.read members in
  rret (new sigs).

(** The [for] loop of [verify] over the ring zipped with the signatures;
    [None] is its early [return false]. *)
Fixpoint verify_loop {E} (key_image : EdwardsPoint) (members : list (CompressedPoint * Signature.t))
  (buf : bytes) (sum : DScalar) : outcome E (option (bytes * DScalar)) :=
  match members with
  | [] => Ok (Some (buf, sum))
  | (ring_member, sig) :: members' =>
      match CompressedPoint.decompress ring_member with
      | None => Ok None
      | Some decomp_ring_member =>
          let? c := Scalar.into (Signature.c sig) in
          let? s := Scalar.into (Signature.s sig) in
          let Li := ed_double_scalar_mul_basepoint c decomp_ring_member s in
          let buf := buf ++ ed_compress Li in
          let? hashed := Point.biased_hash (CompressedPoint.to_bytes ring_member) in
          let Ri := ed_add (ed_mul s hashed) (ed_mul c key_image) in
          let buf := buf ++ ed_compress Ri in
          verify_loop key_image members' buf (sc_add sum c)
      end
  end.

(** [verify] *)
Definition verify {E} (self : t) (msg_hash : bytes) (ring : list CompressedPoint)
  (key_image : CompressedPoint) : outcome E bool :=
  if negb (length ring =? length (sigs self))%nat then Ok false
  else
    match CompressedPoint.decompress key_image with
    | None => Ok false
    | Some key_image =>
        match Point.key_image key_image with
        | None => Ok false
        | Some key_image =>
            let? r := verify_loop key_image (zip ring (sigs self)) msg_hash sc_ZERO in
            match r with
            | None => Ok false
            | Some (buf, sum) =>
                let? h := Scalar.hash buf in
                Ok (Scalar.eqb (Scalar.from sum) h)
            end
        end
    end.
End Ops.
End RingSignature.

Section Codecs.
Context {D : Dalek}.

Definition signature_ok (x : Signature.t) : Prop :=
  scalar_ok (Signature.c x) /\ scalar_ok (Signature.s x).

Definition ring_signature_ok (members : nat) (x : RingSignature.t) : Prop :=
  vec_n signature_ok members (RingSignature.sigs x).

#[export] Instance signature_codec : Codec Signature.read Signature.write signature_ok.
Proof.
  split.
  - intros x [Hc Hs]. unfold Signature.write. bytes_tac.
  - intros [c s] rest [Hc Hs]. unfold Signature.read, Signature.write. read_run. reflexivity.
  - intros bs x rest Hbs H. unfold Signature.read in H. read_inv.
    split; [split; assumption|]. unfold Signature.write. cbn. rewrite <- app_assoc. reflexivity.
  - unfold Signature.read. safe_tac.
Qed.

#[export] Instance ring_signature_codec members :
  Codec (RingSignature.read members) RingSignature.write (ring_signature_ok members).
Proof.
  apply (codec_iso (read_raw_vec Signature.read members) _ (vec_n signature_ok members)
           RingSignature.new RingSignature.sigs); [apply _| |].
  - intros [sigs] H. split; [exact H|reflexivity].
  - intros sigs H. split; [exact H|reflexivity].
Qed.
End Codecs.

(** ** Completeness

    The repository only verifies these signatures.  [sign] is the protocol its
    comment describes: every member but the signer's gets some pair, the
    signer's points are its nonce's, the challenges sum to the hash of the
    transcript, and the signer's response closes its equation. *)

Module RingSignatureSpec.
Import RingSignature.
Section Ops.
Context {D : Dalek} {K : Keccak}.

(** The signer of key [x], with nonce [r], between the members [pre] and
    [suf] and the pairs chosen for them. *)
Definition sign {E} (x r : DScalar) (msg_hash : bytes) (pre suf : list (CompressedPoint * Signature.t))
  : outcome E (option RingSignature.t) :=
  let? hA := Point.biased_hash (ed_compress (ed_mul x ED25519_BASEPOINT_POINT)) in
  let? a := verify_loop (ed_mul x hA) pre [] sc_ZERO in
  let? b := verify_loop (ed_mul x hA) suf [] sc_ZERO in
  match a, b with
  | Some (buf_a, sum_a), Some (buf_b, sum_b) =>
      let? h := Scalar.hash (msg_hash ++ buf_a ++
                  (ed_compress (ed_mul r ED25519_BASEPOINT_POINT) ++ ed_compress (ed_mul r hA)) ++ buf_b) in
      let? h := Scalar.into h in
      let c := sc_sub h (sc_add sum_a sum_b) in
      let s := sc_sub r (sc_mul c x) in
      Ok (Some (new (pre.*2 ++ Signature.new (Scalar.from c) (Scalar.from s) :: suf.*2)))
  | _, _ => Ok None
  end.

Definition ring (x : DScalar) (pre suf : list (CompressedPoint * Signature.t)) : list CompressedPoint :=
  pre.*1 ++ ed_compress (ed_mul x ED25519_BASEPOINT_POINT) :: suf.*1.
End Ops.
End RingSignatureSpec.

Section Completeness.
Import RingSignature RingSignatureSpec.
Context {D : Dalek} {DL : DalekLaws D} {K : Keccak}.

Lemma key_image_some p q : Point.key_image p = Some q -> q = p.
Proof.
  unfold Point.key_image. destruct (_ || _); [discriminate|]. intros [= <-]. reflexivity.
Qed.

(** With [s = r - c x] the signer's two points are the nonce's. *)
Lemma signer_points (x r c : DScalar) hA : ed_is_torsion_free hA = true ->
  ed_double_scalar_mul_basepoint c (ed_mul x ED25519_BASEPOINT_POINT) (sc_sub r (sc_mul c x))
    = ed_mul r ED25519_BASEPOINT_POINT /\
  ed_add (ed_mul (sc_sub r (sc_mul c x)) hA) (ed_mul c (ed_mul x hA)) = ed_mul r hA.
Proof.
  intros Hf. pose proof ed_basepoint_free. rewrite ed_double_scalar_sum.
  rewrite !ed_mul_mul, !ed_mul_sub by assumption.
  split; [rewrite ed_add_comm|]; apply ed_sub_add.
Qed.

(** The loop only appends to its buffer and adds to its sum. *)
Lemma verify_loop_frame {E} ki l buf sum b s :
  verify_loop (E := E) ki l [] sc_ZERO = Ok (Some (b, s)) ->
  verify_loop (E := E) ki l buf sum = Ok (Some (buf ++ b, sc_add sum s)).
Proof.
  cut (forall buf0 sum0 b s, verify_loop (E := E) ki l buf0 sum0 = Ok (Some (b, s)) ->
         exists b' s', b = buf0 ++ b' /\ s = sc_add sum0 s' /\
           forall buf sum, verify_loop (E := E) ki l buf sum = Ok (Some (buf ++ b', sc_add sum s'))).
  { intros H (b' & s' & -> & -> & H')%H. rewrite H'. cbn [app]. rewrite sc_zero_add. reflexivity. }
  clear buf sum b s. induction l as [|[A sig] l IH]; intros buf0 sum0 b s; cbn [verify_loop].
  - intros [= <- <-]. exists [], sc_ZERO. rewrite app_nil_r, sc_add_zero.
    split_and!; auto. intros buf sum. rewrite app_nil_r, sc_add_zero. reflexivity.
  - destruct (CompressedPoint.decompress A) as [p|]; [|discriminate].
    destruct (Scalar.into (Signature.c sig)) as [c|e|]; try discriminate. cbn [obind].
    destruct (Scalar.into (Signature.s sig)) as [s0|e|]; try discriminate. cbn [obind].
    destruct (Point.biased_hash _) as [hA|e|]; try discriminate. cbn [obind].
    intros (b' & s' & -> & -> & H')%IH. do 2 eexists. split_and!.
    + rewrite <- !app_assoc. reflexivity.
    + rewrite <- sc_add_assoc. reflexivity.
    + intros buf sum. rewrite H', <- !app_assoc, <- sc_add_assoc. reflexivity.
Qed.

Lemma verify_loop_app {E} ki l l' buf sum b s :
  verify_loop (E := E) ki l buf sum = Ok (Some (b, s)) ->
  verify_loop (E := E) ki (l ++ l') buf sum = verify_loop ki l' b s.
Proof.
  revert buf sum. induction l as [|[A sig] l IH]; intros buf sum; cbn [verify_loop app].
  - intros [= <- <-]. reflexivity.
  - destruct (CompressedPoint.decompress A) as [p|]; [|discriminate].
    destruct (Scalar.into (Signature.c sig)) as [c|e|]; try discriminate. cbn [obind].
    destruct (Scalar.into (Signature.s sig)) as [s0|e|]; try discriminate. cbn [obind].
    destruct (Point.biased_hash _) as [hA|e|]; try discriminate. cbn [obind]. apply IH.
Qed.

Lemma sign_verify x r msg_hash pre suf sg hA :
  Point.biased_hash (E := io_error) (ed_compress (ed_mul x ED25519_BASEPOINT_POINT)) = Ok hA ->
  is_Some (Point.key_image (ed_mul x hA)) ->
  sign (E := io_error) x r msg_hash pre suf = Ok (Some sg) ->
  verify (E := io_error) sg msg_hash (ring x pre suf) (ed_compress (ed_mul x hA)) = Ok true.
Proof.
  intros HhA [ki Hki] Hs. unfold sign in Hs. rewrite HhA in Hs. cbn [obind] in Hs.
  destruct (verify_loop _ pre _ _) as [[[ba sa]|]|e|] eqn:Ha; try discriminate;
  destruct (verify_loop _ suf _ _) as [[[bb sb]|]|e|] eqn:Hb; try discriminate. cbn [obind] in Hs.
  destruct (Scalar.hash _) as [hb|e|] eqn:Hh; try discriminate. cbn [obind] in Hs.
  destruct (Scalar.into hb) as [h|e|] eqn:Hhi; try discriminate. cbn [obind] in Hs.
  injection Hs as <-. unfold verify, ring. cbn [sigs].
  rewrite !length_app. cbn [length]. rewrite !length_fmap, Nat.eqb_refl. cbn [negb].
  fold (Point.compress (ed_mul x hA)). rewrite decompress_compress, Hki.
  apply key_image_some in Hki as ->.
  rewrite zip_with_app by (rewrite !length_fmap; reflexivity). cbn [zip_with]. rewrite !zip_fst_snd.
  rewrite (verify_loop_app _ _ _ _ _ _ _ (verify_loop_frame _ _ _ _ _ _ Ha)).
  cbn [verify_loop Signature.c Signature.s].
  fold (Point.compress (ed_mul x ED25519_BASEPOINT_POINT)). rewrite decompress_compress.
  rewrite !scalar_into_from. cbn [obind]. unfold CompressedPoint.to_bytes, Point.compress. rewrite HhA. cbn [obind].
  destruct (signer_points x r (sc_sub h (sc_add sa sb)) hA) as [-> ->];
    [exact (biased_hash_free _ _ HhA)|].
  rewrite (verify_loop_frame _ _ _ _ _ _ Hb). cbn [obind].
  rewrite <- !app_assoc in *. rewrite Hh. cbn [obind].
  assert (Hsum : sc_add (sc_add (sc_add sc_ZERO sa) (sc_sub h (sc_add sa sb))) sb = h).
  { rewrite sc_zero_add, (sc_add_comm sa), <- sc_add_assoc. apply sc_sub_add. }
  rewrite Hsum. unfold Scalar.eqb. f_equal. apply bytes_eqb_spec.
  unfold Scalar.hash in Hh. destruct (sc_eqb _ _); [discriminate|]. injection Hh as <-.
  rewrite scalar_into_from in Hhi. injection Hhi as <-. reflexivity.
Qed.

(** Completeness of [RingSignature::verify]: for any ring in which the
    member at some position is [x G], any nonce and any pairs for the other
    members, the signature made as the protocol describes verifies against
    the key image [x biased_hash(x G)], provided that is a valid key image. *)
Theorem ring_signature_complete x r msg_hash pre suf sg hA :
  Point.biased_hash (E := io_error) (ed_compress (ed_mul x ED25519_BASEPOINT_POINT)) = Ok hA ->
  is_Some (Point.key_image (ed_mul x hA)) ->
  sign (E := io_error) x r msg_hash pre suf = Ok (Some sg) ->
  verify (E := io_error) sg msg_hash (ring x pre suf) (ed_compress (ed_mul x hA)) = Ok true.
Proof. apply sign_verify. Qed.
End Completeness.

Section Witness.
Import Model RingSignatureSpec.

(** A ring of three, the signer second. *)
Lemma ring_signature_complete_witness :
  let x := sc_from_u64 5 in
  let r := sc_from_u64 1234 in
  let other := Signature.new (to_le 32 7) (to_le 32 11) in
  let pre := [(ed_compress (ed_mul (sc_from_u64 9) ED25519_BASEPOINT_POINT), other)] in
  let suf := [(ed_compress (ed_mul (sc_from_u64 3) ED25519_BASEPOINT_POINT), other)] in
  exists hA sg,
    Point.biased_hash (E := io_error) (ed_compress (ed_mul x ED25519_BASEPOINT_POINT)) = Ok hA /\
    sign (E := io_error) x r (repeat 0 32) pre suf = Ok (Some sg) /\
    RingSignature.verify (E := io_error) sg (repeat 0 32) (ring x pre suf) (ed_compress (ed_mul x hA)) = Ok true.
Proof.
  intros x r other pre suf.
  eexists _, _. split; [vm_compute; reflexivity|]. split; [vm_compute; reflexivity|].
  apply (ring_signature_complete (DL := dalek_laws) x r _ pre suf).
  - vm_compute. reflexivity.
  - vm_compute. eexists. reflexivity.
  - vm_compute. reflexivity.
Defined.
End Witness.
