(* ===== verification/Borromean.v ===== *)
(** [ringct/borromean/src/lib.rs]: 64-bit range proofs from Borromean ring
    signatures. *)

From Stdlib Require Import ZArith Lia.
From stdpp Require Import base list strings numbers.
From S2P Require Import Prelude Dalek MoneroIo Ed25519 UnreducedScalar.

Section Table.
Context {D : Dalek}.

(** One assignment of the loop that fills [H_POW_2_CELL] *)
Definition h_pow_2_step {E} (res : outcome E (list EdwardsPoint)) (i : nat) : outcome E (list EdwardsPoint) :=
  let? res := res in
  let? prior := expect (res !! (i - 1)%nat) in
  if (i <? length res)%nat then Ok (<[i := ed_add prior prior]> res) else Panic.

(** [H_pow_2] *)
Definition H_pow_2 {E} : outcome E (list EdwardsPoint) :=
  let? H := expect (ed_decompress (CompressedPoint.to_bytes CompressedPoint.H)) in
  foldl h_pow_2_step (Ok (repeat H 64)) (seq 1 63).

(** [iter().sum::<EdwardsPoint>()] *)
Definition ed_sum (points : list EdwardsPoint) : EdwardsPoint := foldl ed_add ed_identity points.

(** [map(|c| c.decompress()).collect::<Option<Vec<_>>>()] *)
Fixpoint decompress_all (points : list CompressedPoint) : option (list EdwardsPoint) :=
  match points with
  | [] => Some []
  | c :: points' =>
      match CompressedPoint.decompress c with
      | None => None
      | Some p => match decompress_all points' with None => None | Some ps => Some (p :: ps) end
      end
  end.
End Table.

Module BorromeanSignatures.
Record t := new { s0 : list UnreducedScalar; s1 : list UnreducedScalar; ee : Scalar }.

Section Ops.
Context {D : Dalek} {K : Keccak}.

Definition read : io_reader t :=
  let* s0 := read_array UnreducedScalar.read 64 in
  let* s1 := read_array UnreducedScalar.read 64 in
  let* ee := Scalar.read in
  rret (new s0 s1 ee).

(** Both [for] loops write every element in order. *)
Definition write (self : t) : bytes :=
  write_raw_vec UnreducedScalar.write (s0 self) ++
  write_raw_vec UnreducedScalar.write (s1 self) ++
  Scalar.write (ee self).

(** [transcript[a .. b].copy_from_slice(src)] *)
Definition copy_into {E} (dst : bytes) (a b : nat) (src : bytes) : outcome E bytes :=
  if (b - a =? length src)%nat && (a <=? b)%nat && (b <=? length dst)%nat
  then Ok (take a dst ++ src ++ drop b dst) else Panic.

Definition verify_step {E} (self : t) (keys_a keys_b : list EdwardsPoint)
  (transcript : outcome E bytes) (i : nat) : outcome E bytes :=
  let? transcript := transcript in
  let? ee := Scalar.into (ee self) in
  let? key_a := expect (keys_a !! i) in
  let? s0 := expect (s0 self !! i) in
  let? s0 := UnreducedScalar.ref10_slide_scalar_vartime s0 in
  let? s0 := Scalar.into s0 in
  let LL := ed_double_scalar_mul_basepoint ee key_a s0 in
  let? h := Scalar.hash (ed_compress LL) in
  let? h := Scalar.into h in
  let? key_b := expect (keys_b !! i) in
  let? s1 := expect (s1 self !! i) in
  let? s1 := UnreducedScalar.ref10_slide_scalar_vartime s1 in
  let? s1 := Scalar.into s1 in
  let LV := ed_double_scalar_mul_basepoint h key_b s1 in
  copy_into transcript (i * 32) ((i + 1) * 32) (ed_compress LV).

Definition verify {E} (self : t) (keys_a keys_b : list EdwardsPoint) : outcome E bool :=
  let? transcript := foldl (verify_step self keys_a keys_b) (Ok (repeat 0 2048)) (seq 0 64) in
  let? h := Scalar.hash transcript in
  Ok (Scalar.eqb h (ee self)).
End Ops.
End BorromeanSignatures.

Module BorromeanRange.
Record t := new { sigs : BorromeanSignatures.t; bit_commitments : list CompressedPoint }.

Section Ops.
Context {D : Dalek} {K : Keccak}.

Definition read : io_reader t :=
  let* sigs := BorromeanSignatures.read in
  let* bit_commitments := read_array CompressedPoint.read 64 in
  rret (new sigs bit_commitments).

Definition write (self : t) : bytes :=
  BorromeanSignatures.write (sigs self) ++ write_raw_vec CompressedPoint.write (bit_commitments self).

(** The loop that fills [commitments_sub_one] *)
Definition sub_one_step {E} (bits table : list EdwardsPoint)
  (res : outcome E (list EdwardsPoint)) (i : nat) : outcome E (list EdwardsPoint) :=
  let? res := res in
  let? b := expect (bits !! i) in
  let? h := expect (table !! i) in
  if (i <? length res)%nat then Ok (<[i := ed_sub b h]> res) else Panic.

(** [verify] *)
Definition verify {E} (self : t) (commitment : CompressedPoint) : outcome E bool :=
  match decompress_all (bit_commitments self) with
  | None => Ok false
  | Some bits =>
      if negb (bytes_eqb (ed_compress (ed_sum bits)) (CompressedPoint.to_bytes commitment)) then Ok false
      else
        let? table := H_pow_2 in
        let? commitments_sub_one :=
          foldl (sub_one_step bits table) (Ok (repeat ed_identity 64)) (seq 0 64) in
        BorromeanSignatures.verify (sigs self) bits commitments_sub_one
  end.
End Ops.
End BorromeanRange.

(** ** Codecs *)

#[global] Typeclasses Opaque UnreducedScalar.write UnreducedScalar.read.

Section Codecs.
Context {D : Dalek}.

#[export] Instance unreduced_scalar_codec :
  Codec UnreducedScalar.read UnreducedScalar.write (is_array 32) := read_bytes_codec 32.

Definition borromean_signatures_ok (x : BorromeanSignatures.t) : Prop :=
  vec_n (is_array 32) 64 (BorromeanSignatures.s0 x) /\
  vec_n (is_array 32) 64 (BorromeanSignatures.s1 x) /\
  scalar_ok (BorromeanSignatures.ee x).

Definition borromean_range_ok (x : BorromeanRange.t) : Prop :=
  borromean_signatures_ok (BorromeanRange.sigs x) /\
  vec_n (is_array 32) 64 (BorromeanRange.bit_commitments x).

#[export] Instance borromean_signatures_codec :
  Codec BorromeanSignatures.read BorromeanSignatures.write borromean_signatures_ok.
Proof.
  split.
  - intros x (H0 & H1 & Hee). unfold BorromeanSignatures.write. bytes_tac.
  - intros [s0 s1 ee] rest (H0 & H1 & Hee).
    unfold BorromeanSignatures.read, BorromeanSignatures.write. read_run. reflexivity.
  - intros bs x rest Hbs H. unfold BorromeanSignatures.read in H. read_inv.
    split; [split_and!; assumption|]. unfold BorromeanSignatures.write. cbn.
    rewrite <- !app_assoc. reflexivity.
  - unfold BorromeanSignatures.read. safe_tac.
Qed.

#[export] Instance borromean_range_codec :
  Codec BorromeanRange.read BorromeanRange.write borromean_range_ok.
Proof.
  split.
  - intros x [Hs Hb]. unfold BorromeanRange.write. bytes_tac.
  - intros [s b] rest [Hs Hb]. unfold BorromeanRange.read, BorromeanRange.write. read_run. reflexivity.
  - intros bs x rest Hbs H. unfold BorromeanRange.read in H. read_inv.
    split; [split; assumption|]. unfold BorromeanRange.write. cbn. rewrite <- !app_assoc. reflexivity.
  - unfold BorromeanRange.read. safe_tac.
Qed.
End Codecs.
