(* ===== verification/Mlsag.v ===== *)
(** [ringct/mlsag/src/lib.rs]: MLSAG ring signatures, the ring matrixes they
    are verified against and the builder of aggregate matrixes. *)

From Stdlib Require Import ZArith Lia.
From stdpp Require Import base list strings numbers.
From S2P Require Import Prelude Dalek MoneroIo Ed25519 Borromean.

Inductive MlsagError : Type :=
| InvalidRing
| InvalidAmountOfKeyImages
| InvalidSs
| InvalidKeyImage
| InvalidCi.

(** The matrix: a list of ring members, each a list of points. *)
Record RingMatrix {D : Dalek} := mk_RingMatrix { matrix : list (list EdwardsPoint) }.
Arguments mk_RingMatrix {D} _.

Module Matrix.
Section Ops.
Context {D : Dalek}.

(** [RingMatrix::new] *)
Definition new (matrix : list (list EdwardsPoint)) : outcome MlsagError RingMatrix :=
  if (length matrix <? 2)%nat then Err InvalidRing
  else
    match matrix with
    | [] => Err InvalidRing
    | first :: _ =>
        if forallb (fun member =>
             negb ((length member =? 0)%nat || negb (length member =? length first)%nat)) matrix
        then Ok (mk_RingMatrix matrix)
        else Err InvalidRing
    end.

Definition decomp (p : CompressedPoint) : outcome MlsagError EdwardsPoint :=
  ok_or (CompressedPoint.decompress p) InvalidRing.

(** The loop of [individual] *)
Fixpoint individual_loop (ring : list (CompressedPoint * CompressedPoint)) (pseudo_out : CompressedPoint)
  : outcome MlsagError (list (list EdwardsPoint)) :=
  match ring with
  | [] => Ok []
  | (key, commitment) :: ring' =>
      let? k := decomp key in
      let? c := decomp commitment in
      let? p := decomp pseudo_out in
      let? rest := individual_loop ring' pseudo_out in
      Ok ([k; ed_sub c p] :: rest)
  end.

(** [RingMatrix::individual] *)
Definition individual (ring : list (CompressedPoint * CompressedPoint)) (pseudo_out : CompressedPoint)
  : outcome MlsagError RingMatrix :=
  let? m := individual_loop ring pseudo_out in new m.

Definition members (self : RingMatrix) : nat := length (matrix self).

Definition member_len {E} (self : RingMatrix) : outcome E nat :=
  let? first := expect (matrix self !! 0%nat) in Ok (length first).
End Ops.
End Matrix.

Module Mlsag.
Record t := new { ss : list (list Scalar); cc : Scalar }.

Section Ops.
Context {D : Dalek} {K : Keccak}.

Definition write (self : t) : bytes :=
  write_raw_vec (write_raw_vec Scalar.write) (ss self) ++ Scalar.write (cc self).

Definition read (decoys ss_2_elements : nat) : io_reader t :=
  let* ss := read_raw_vec (read_raw_vec Scalar.read ss_2_elements) decoys in
  let* cc := Scalar.read in
  rret (new ss cc).

(** The inner loop of [verify]: one ring member's entries, with the key
    images as options, the last one absent. *)
Fixpoint entries_loop (ci : DScalar) (entries : list (EdwardsPoint * Scalar * option CompressedPoint))
  (buf : bytes) : outcome MlsagError bytes :=
  match entries with
  | [] => Ok buf
  | (ring_member_entry, s, ki) :: entries' =>
      let? s := Scalar.into s in
      let L := ed_double_scalar_mul_basepoint ci ring_member_entry s in
      let compressed_ring_member_entry := ed_compress ring_member_entry in
      let buf := buf ++ compressed_ring_member_entry ++ ed_compress L in
      let? buf :=
        match ki with
        | None => Ok buf
        | Some ki =>
            match CompressedPoint.decompress ki with
            | None => Err InvalidKeyImage
            | Some ki =>
                let? ki := ok_or (Point.key_image ki) InvalidKeyImage in
                let? hashed := Point.biased_hash compressed_ring_member_entry in
                let R := ed_add (ed_mul s hashed) (ed_mul ci ki) in
                Ok (buf ++ ed_compress R)
            end
        end in
      entries_loop ci entries' buf
  end.

(** The outer loop: the buffer restarts from the message for each member. *)
Fixpoint members_loop (msg : bytes) (key_images : list (option CompressedPoint)) (ci : DScalar)
  (members : list (list EdwardsPoint * list Scalar)) : outcome MlsagError DScalar :=
  match members with
  | [] => Ok ci
  | (ring_member, ss) :: members' =>
      if negb (length ring_member =? length ss)%nat then Err InvalidSs
      else
        let? buf := entries_loop ci (zip (zip ring_member ss) key_images) msg in
        let? h := Scalar.hash buf in
        let? ci := Scalar.into h in
        members_loop msg key_images ci members'
  end.

(** [verify] *)
Definition verify (self : t) (msg : bytes) (ring : RingMatrix) (key_images : list CompressedPoint)
  : outcome MlsagError unit :=
  let? member_len := Matrix.member_len ring in
  if negb (member_len =? length key_images + 1)%nat then Err InvalidAmountOfKeyImages
  else
    let? ci := Scalar.into (cc self) in
    let key_images_iter := (Some <$> key_images) ++ [None] in
    if negb (length (matrix ring) =? length (ss self))%nat then Err InvalidSs
    else
      let? ci := members_loop msg key_images_iter ci (zip (matrix ring) (ss self)) in
      let? cc := Scalar.into (cc self) in
      if negb (sc_eqb ci cc) then Err InvalidCi else Ok tt.
End Ops.
End Mlsag.

(** ** Aggregate matrixes *)

Record AggregateRingMatrixBuilder {D : Dalek} := mk_Builder {
  key_ring : list (list EdwardsPoint);
  amounts_ring : list EdwardsPoint;
  sum_out : EdwardsPoint
}.
Arguments mk_Builder {D} _ _ _.

Module Aggregate.
Section Ops.
Context {D : Dalek}.

(** [sum::<Option<EdwardsPoint>>()] *)
Definition sum_commitments (commitments : list CompressedPoint) : option EdwardsPoint :=
  match decompress_all commitments with None => None | Some ps => Some (ed_sum ps) end.

(** [new] *)
Definition new (commitments : list CompressedPoint) (fee : Z) : outcome MlsagError AggregateRingMatrixBuilder :=
  let? sum := ok_or (sum_commitments commitments) InvalidRing in
  let? h := Commitment.H in
  Ok (mk_Builder [] [] (ed_add sum (ed_mul (sc_from_u64 fee) h))).

(** The loop of [push_ring] from index [i] on; the builder is mutated in
    place, so it is returned on an error as well. *)
Fixpoint push_loop (i : nat) (ring : list (CompressedPoint * CompressedPoint))
  (self : AggregateRingMatrixBuilder) : outcome MlsagError unit * AggregateRingMatrixBuilder :=
  match ring with
  | [] => (Ok tt, self)
  | (key, commitment) :: ring' =>
      match CompressedPoint.decompress key with
      | None => (Err InvalidRing, self)
      | Some key =>
          match key_ring self !! i with
          | None => (Panic, self)
          | Some column =>
              let self := mk_Builder (<[i := column ++ [key]]> (key_ring self))
                            (amounts_ring self) (sum_out self) in
              match CompressedPoint.decompress commitment with
              | None => (Err InvalidRing, self)
              | Some commitment =>
                  match amounts_ring self !! i with
                  | None => (Panic, self)
                  | Some amount =>
                      push_loop (S i) ring'
                        (mk_Builder (key_ring self)
                           (<[i := ed_add amount commitment]> (amounts_ring self)) (sum_out self))
                  end
              end
          end
      end
  end.

(** [push_ring] *)
Definition push_ring (self : AggregateRingMatrixBuilder) (ring : list (CompressedPoint * CompressedPoint))
  : outcome MlsagError unit * AggregateRingMatrixBuilder :=
  let self :=
    if (length (key_ring self) =? 0)%nat then
      mk_Builder (repeat [] (length ring)) (repeat (ed_neg (sum_out self)) (length ring)) (sum_out self)
    else self in
  if negb (length (amounts_ring self) =? length ring)%nat || (length ring =? 0)%nat
  then (Err InvalidRing, self)
  else push_loop 0 ring self.

(** The loop of [build] *)
Definition build_step {E} (res : outcome E (list (list EdwardsPoint))) (x : nat * EdwardsPoint)
  : outcome E (list (list EdwardsPoint)) :=
  let? key_ring := res in
  let? column := expect (key_ring !! fst x) in
  Ok (<[fst x := column ++ [snd x]]> key_ring).

(** [build] *)
Definition build (self : AggregateRingMatrixBuilder) : outcome MlsagError RingMatrix :=
  let? key_ring :=
    foldl build_step (Ok (key_ring self)) (zip (seq 0 (length (amounts_ring self))) (amounts_ring self)) in
  Matrix.new key_ring.
End Ops.
End Aggregate.

(** ** Codec *)

Section Codecs.
Context {D : Dalek}.

Definition mlsag_ok (decoys ss_2_elements : nat) (x : Mlsag.t) : Prop :=
  vec_n (vec_n scalar_ok ss_2_elements) decoys (Mlsag.ss x) /\ scalar_ok (Mlsag.cc x).

#[export] Instance mlsag_codec decoys ss_2_elements :
  Codec (Mlsag.read decoys ss_2_elements) Mlsag.write (mlsag_ok decoys ss_2_elements).
Proof.
  split.
  - intros x [Hs Hc]. unfold Mlsag.write. bytes_tac.
  - intros [ss cc] rest [Hs Hc]. unfold Mlsag.read, Mlsag.write. read_run. reflexivity.
  - intros bs x rest Hbs H. unfold Mlsag.read in H. read_inv.
    split; [split; assumption|]. unfold Mlsag.write. cbn. rewrite <- !app_assoc. reflexivity.
  - unfold Mlsag.read. safe_tac.
Qed.
End Codecs.

(** ** Matrixes are rectangular *)

Section Shape.
Context {D : Dalek}.

(** What [RingMatrix::new] admits: two members or more, each as long as the
    first and not empty. *)
Definition rectangular (m : list (list EdwardsPoint)) (n : nat) : Prop :=
  (2 <= length m)%nat /\ (0 < n)%nat /\ Forall (fun member => length member = n) m.

Lemma matrix_new_spec m r :
  Matrix.new m = Ok r <-> matrix r = m /\ exists n, rectangular m n.
Proof.
  unfold Matrix.new. destruct (Nat.ltb_spec (length m) 2) as [Hl|Hl].
  { split; [discriminate|]. intros (_ & n & H & _). lia. }
  destruct m as [|first m]; [cbn in Hl; lia|].
  destruct (forallb _ _) eqn:E.
  - rewrite forallb_forall in E. split.
    + intros [= <-]. split; [reflexivity|]. exists (length first).
      assert (H0 := E first (or_introl eq_refl)). cbn beta in H0. split_and!; [exact Hl| |].
      { apply negb_true_iff, orb_false_iff in H0 as [H0%Nat.eqb_neq _]. lia. }
      apply List.Forall_forall. intros x Hx. specialize (E x Hx). cbn beta in E.
      apply negb_true_iff, orb_false_iff in E as [_ E%negb_false_iff%Nat.eqb_eq]. exact E.
    + intros [<- _]. destruct r. reflexivity.
  - split; [discriminate|]. intros (_ & n & _ & Hn & HF). exfalso.
    apply not_true_iff_false in E. apply E. rewrite forallb_forall. intros x Hx.
    rewrite List.Forall_forall in HF. pose proof (HF first (or_introl eq_refl)) as H1. cbn in H1.
    specialize (HF x Hx). cbn in HF.
      apply negb_true_iff, orb_false_iff. split; [apply Nat.eqb_neq; lia|].
      apply negb_false_iff, Nat.eqb_eq. congruence.
Qed.
End Shape.
