(* ===== verification/Clsag.v ===== *)
(** [ringct/clsag/src/lib.rs] and [decoys.rs]: the decoys of an input, the
    CLSAG signature, its codec, signing and verification. *)

From Stdlib Require Import ZArith Lia Sorted.
From stdpp Require Import base list strings numbers.
From S2P Require Import Prelude Dalek MoneroIo Ed25519 RingSignatures.

(** ** Decoys ([decoys.rs]) *)

Module Decoys.
Section Rec.
Context {D : Dalek}.
Record t := mk { offsets : list Z; signer_index : Z; ring : list (Point * Point) }.
End Rec.
Arguments t : clear implicits.
Arguments t {D}.
Arguments mk {D} _ _ _.

Definition MAX_RING_SIZE : Z := 255.

Section Ops.
Context {D : Dalek}.

(** The loop of [new] over the offsets, with the running sum modulo
    [2^64]; [first] is [i == 0]. *)
Fixpoint offsets_representable (first : bool) (sum : Z) (offsets : list Z) : bool :=
  match offsets with
  | [] => true
  | offset :: offsets' =>
      let new_sum := (sum + offset) mod 2 ^ 64 in
      (if first then true else sum <? new_sum) && offsets_representable false new_sum offsets'
  end.

(** [new]: [as u8] truncates. *)
Definition new (offsets : list Z) (signer_index : Z) (ring : list (Point * Point)) : option t :=
  let ring_len_does_not_exceed_max :=
    (Z.shiftr (len ring) 8 =? 0) && negb (MAX_RING_SIZE <? len ring mod 2 ^ 8) in
  let signer_index_points_to_ring_member := signer_index <? len ring mod 2 ^ 8 in
  let offsets_align_with_ring := (length offsets =? length ring)%nat in
  if ring_len_does_not_exceed_max && signer_index_points_to_ring_member &&
     offsets_align_with_ring && offsets_representable true 0 offsets
  then Some (mk offsets signer_index ring)
  else None.

(** [len] *)
Definition length_ (self : t) : nat := length (offsets self).

(** The loop of [positions]: [res[m - 1] + self.offsets[m]], whose sum
    overflows in a checked build *)
Definition positions_step {E} (self : t) (res : outcome E (list Z)) (m : nat) : outcome E (list Z) :=
  let? res := res in
  let? prior := expect (res !! (m - 1)%nat) in
  let? offset := expect (offsets self !! m) in
  if 2 ^ 64 <=? prior + offset then Panic else Ok (res ++ [prior + offset]).

(** [positions] *)
Definition positions {E} (self : t) : outcome E (list Z) :=
  let? first := expect (offsets self !! 0%nat) in
  foldl (positions_step self) (Ok [first]) (seq 1 (length_ self - 1)).

Definition select_step (self : t) (result : Point * Point) (x : nat * (Point * Point)) : Point * Point :=
  let select := Z.of_nat (fst x) =? signer_index self in
  (Point.conditional_select (fst result) (fst (snd x)) select,
   Point.conditional_select (snd result) (snd (snd x)) select).

(** [signer_ring_members] *)
Definition signer_ring_members {E} (self : t) : outcome E (Point * Point) :=
  let? result := expect (ring self !! 0%nat) in
  Ok (foldl (select_step self) result (drop 1 (zip (seq 0 (length (ring self))) (ring self)))).

Definition write_pair (pair : Point * Point) : bytes :=
  CompressedPoint.write (Point.compress (fst pair)) ++ CompressedPoint.write (Point.compress (snd pair)).

(** [write], also [serialize] *)
Definition write (self : t) : bytes :=
  write_vec VarInt.write (offsets self) ++ [signer_index self] ++ write_raw_vec write_pair (ring self).

Definition read_pair : io_reader (Point * Point) :=
  let* k := read_point "Decoys had invalid key in ring" in
  let* c := read_point "Decoys had invalid commitment in ring" in
  rret (k, c).

(** [read] *)
Definition read : io_reader t :=
  let* offsets := read_vec (VarInt.read VarInt.u64) (Some MAX_RING_SIZE) in
  let len := length offsets in
  let* signer_index := read_byte in
  let* ring := read_raw_vec read_pair len in
  ok_or_other (new offsets signer_index ring) "invalid Decoys".
End Ops.
End Decoys.

(** ** CLSAG ([lib.rs]) *)

Inductive ClsagError : Type :=
| InvalidRing
| InvalidKey
| InvalidCommitment
| InvalidImage
| InvalidD
| InvalidS
| InvalidC1.

Module ClsagContext.
Section Ops.
Context {D : Dalek}.
Record t := mk { commitment : Commitment.t; decoys : Decoys.t }.

(** [new] *)
Definition new (decoys : Decoys.t) (commitment : Commitment.t) : outcome ClsagError t :=
  let? members := Decoys.signer_ring_members decoys in
  let? c := Commitment.commit commitment in
  if negb (Point.eqb (snd members) c) then Err InvalidCommitment
  else Ok (mk commitment decoys).
End Ops.
Arguments t : clear implicits.
Arguments t {D}.
Arguments mk {D} _ _.
End ClsagContext.

Module Clsag.
Record t := new { D : CompressedPoint; s : list Scalar; c1 : Scalar }.

Section Mode.
Context {Dk : Dalek}.

Inductive Mode :=
| Sign (signer_index : Z) (A AH : EdwardsPoint)
| Verify (c1 : DScalar) (D_serialized : CompressedPoint).
End Mode.

(** The bytes of ["CLSAG_"], ["agg_0"] and ["round"] *)
Definition PREFIX : bytes := [67; 76; 83; 65; 71; 95].
Definition AGG_0 : bytes := [97; 103; 103; 95; 48].
Definition ROUND : bytes := [114; 111; 117; 110; 100].

Section Ops.
Context {Dk : Dalek} {K : Keccak}.

Definition write (self : t) : bytes :=
  write_raw_vec Scalar.write (s self) ++ Scalar.write (c1 self) ++ CompressedPoint.write (D self).

Definition read (decoys : nat) : io_reader t :=
  let* s := read_raw_vec Scalar.read decoys in
  let* c1 := Scalar.read in
  let* D := CompressedPoint.read in
  rret (new D s c1).

(** [Scalar::hash(..).into()] *)
Definition hash_into {E} (to_hash : bytes) : outcome E DScalar :=
  let? h := Scalar.hash to_hash in Scalar.into h.

Definition PREFIX_AGG_0_LEN : nat := length PREFIX + length AGG_0.

(** The transcript [core] aggregates the keys with, under [agg_0] *)
Definition agg_transcript (ring : list (Point * Point)) (I pseudo_out : EdwardsPoint) (D_bytes : bytes) : bytes :=
  PREFIX ++ AGG_0 ++ repeat 0 (32 - PREFIX_AGG_0_LEN)
  ++ concat ((fun m => Point.compress (fst m)) <$> ring)
  ++ concat ((fun m => Point.compress (snd m)) <$> ring)
  ++ ed_compress I ++ D_bytes ++ ed_compress pseudo_out.

(** [to_hash[PREFIX.len() + i] = ROUND[i]] *)
Definition write_round (to_hash : bytes) : bytes :=
  foldl (fun to_hash i => <[(length PREFIX + i)%nat := ROUND !!! i]> to_hash) to_hash (seq 0 (length ROUND)).

(** The mutable state of [core]'s loop *)
Record loop_state := mk_loop { ls_in_range : bool; ls_c : DScalar; ls_c1 : DScalar; ls_to_hash : bytes }.

(** One iteration of [core]'s loop.  [msm_L] and [msm_R] are the
    multiplications of either mode. *)
Definition core_step {E} (n : nat) (start finish : nat) (mu_P mu_C : DScalar) (P C : list EdwardsPoint)
  (I D_torsion_free : EdwardsPoint) (s : list Scalar) (A_c1 : Mode)
  (state : outcome E loop_state) (i : nat) : outcome E loop_state :=
  let? st := state in
  let in_range := ls_in_range st || (i =? start)%nat in
  let in_range := xorb in_range (i =? finish)%nat in
  let i := (i mod n)%nat in
  let c_p := sc_mul mu_P (ls_c st) in
  let c_c := sc_mul mu_C (ls_c st) in
  let? s_i := expect (s !! i) in
  let? s_i := Scalar.into s_i in
  let? P_i := expect (P !! i) in
  let? C_i := expect (C !! i) in
  let L :=
    match A_c1 with
    | Sign _ _ _ => ed_multiscalar_mul [s_i; c_p; c_c] [ED25519_BASEPOINT_POINT; P_i; C_i]
    | Verify _ _ => ed_mixed_multiscalar_mul [ED25519_BASEPOINT_POINT] [s_i] [c_p; c_c] [P_i; C_i]
    end in
  let? PH := Point.biased_hash (ed_compress P_i) in
  let R :=
    match A_c1 with
    | Sign _ _ _ => ed_multiscalar_mul [c_p; c_c; s_i] [I; D_torsion_free; PH]
    | Verify _ _ => ed_mixed_multiscalar_mul [I; D_torsion_free] [c_p; c_c] [s_i] [PH]
    end in
  let to_hash := take ((2 * n + 3) * 32) (ls_to_hash st) ++ ed_compress L ++ ed_compress R in
  let? h := hash_into to_hash in
  let c := if in_range then h else ls_c st in
  let c1 := if in_range && (i =? n - 1)%nat then c else ls_c1 st in
  Ok (mk_loop in_range c c1 to_hash).

(** [core]: [((D_inv_eight, c * mu_P, c * mu_C), c1)] *)
Definition core {E} (ring : list (Point * Point)) (I pseudo_out : EdwardsPoint) (msg_hash : bytes)
  (D_torsion_free : EdwardsPoint) (s : list Scalar) (A_c1 : Mode)
  : outcome E (EdwardsPoint * DScalar * DScalar * DScalar) :=
  let n := length ring in
  let? inv_eight := Scalar.into Scalar.INV_EIGHT in
  let D_inv_eight := ed_mul inv_eight D_torsion_free in
  let P := fst <$> ring in
  let C := (fun member => ed_sub (snd member) pseudo_out) <$> ring in
  let D_bytes :=
    match A_c1 with Sign _ _ _ => ed_compress D_inv_eight | Verify _ D_serialized => D_serialized end in
  let to_hash := agg_transcript ring I pseudo_out D_bytes in
  let? mu_P := hash_into to_hash in
  let to_hash := <[(PREFIX_AGG_0_LEN - 1)%nat := 49]> to_hash in
  let? mu_C := hash_into to_hash in
  let to_hash := take ((2 * n + 1) * 32) to_hash in
  let to_hash := write_round to_hash in
  let to_hash := to_hash ++ ed_compress pseudo_out ++ msg_hash in
  let? (start, finish, iter_end, c, to_hash) :=
    match A_c1 with
    | Sign signer_index A AH =>
        let signer_index := Z.to_nat signer_index in
        let to_hash := to_hash ++ ed_compress A ++ ed_compress AH in
        let? c := hash_into to_hash in
        Ok ((signer_index + 1)%nat, (signer_index + n)%nat, (2 * n)%nat, c, to_hash)
    | Verify c1 _ => Ok (0%nat, n, n, c1, to_hash)
    end in
  let? st := foldl (core_step n start finish mu_P mu_C P C I D_torsion_free s A_c1)
               (Ok (mk_loop false c c to_hash)) (seq 0 iter_end) in
  Ok (D_inv_eight, sc_mul (ls_c st) mu_P, sc_mul (ls_c st) mu_C, ls_c1 st).

(** [verify] *)
Definition verify (self : t) (ring : list (CompressedPoint * CompressedPoint)) (I pseudo_out : CompressedPoint)
  (msg_hash : bytes) : outcome ClsagError unit :=
  if (length ring =? 0)%nat then Err InvalidRing
  else if negb (length ring =? length (s self))%nat then Err InvalidS
  else
    let? I := ok_or (CompressedPoint.decompress I) InvalidImage in
    let? I := ok_or (Point.key_image I) InvalidImage in
    let? pseudo_out := ok_or (CompressedPoint.decompress pseudo_out) InvalidCommitment in
    let? D_point := ok_or (CompressedPoint.decompress (D self)) InvalidD in
    let D_torsion_free := ed_mul_by_cofactor D_point in
    if ed_is_identity D_torsion_free then Err InvalidD
    else
      let? ring :=
        ok_or (mapM (fun r => k ← CompressedPoint.decompress (fst r);
                              c ← CompressedPoint.decompress (snd r); Some (k, c)) ring) InvalidRing in
      let? self_c1 := Scalar.into (c1 self) in
      let? (_, c1) := core ring I pseudo_out msg_hash D_torsion_free (s self) (Verify self_c1 (D self)) in
      if negb (sc_eqb c1 self_c1) then Err InvalidC1 else Ok tt.

(** The generator of randomness: what each [fill_bytes] of 64 bytes yields *)
Definition rng : Type := nat -> bytes.

(** [Scalar::random(rng)] *)
Definition random (g : rng) : Scalar * rng := (Scalar.random (g 0%nat), fun n => g (S n)).

Fixpoint random_vec (n : nat) (g : rng) : list Scalar * rng :=
  match n with
  | O => ([], g)
  | S n' =>
      let (x, g) := random g in
      let (xs, g) := random_vec n' g in
      (x :: xs, g)
  end.

(** [struct ClsagSignCore] *)
Record ClsagSignCore := mk_core {
  incomplete_clsag : t; pseudo_out : EdwardsPoint; key_challenge : DScalar; challenged_mask : DScalar }.

(** [sign_core] *)
Definition sign_core {E} (g : rng) (I : EdwardsPoint) (input : ClsagContext.t) (mask : DScalar)
  (msg_hash : bytes) (A AH : EdwardsPoint) : outcome E (ClsagSignCore * rng) :=
  let signer_index := Decoys.signer_index (ClsagContext.decoys input) in
  let? pseudo_out :=
    Commitment.commit (Commitment.new (Scalar.from mask) (Commitment.amount (ClsagContext.commitment input))) in
  let? m := Scalar.into (Commitment.mask (ClsagContext.commitment input)) in
  let mask_delta := sc_sub m mask in
  let? members := Decoys.signer_ring_members (ClsagContext.decoys input) in
  let? H := Point.biased_hash (Point.compress (fst members)) in
  let D := ed_mul mask_delta H in
  let (s, g) := random_vec (length (Decoys.ring (ClsagContext.decoys input))) g in
  let? (D, c_p, c_c, c1) :=
    core (Decoys.ring (ClsagContext.decoys input)) I pseudo_out msg_hash D s (Sign signer_index A AH) in
  Ok (mk_core (new (ed_compress D) s (Scalar.from c1)) pseudo_out c_p (sc_mul c_c mask_delta), g).

(** The key image generator and key image of an input of [sign] *)
Definition key_image (input : Scalar * ClsagContext.t) : outcome ClsagError (EdwardsPoint * EdwardsPoint) :=
  let? key := Scalar.into (fst input) in
  let? members := Decoys.signer_ring_members (ClsagContext.decoys (snd input)) in
  if negb (ed_eqb (ed_mul key ED25519_BASEPOINT_POINT) (fst members)) then Err InvalidKey
  else
    let? key_image_generator := Point.biased_hash (ed_compress (fst members)) in
    Ok (key_image_generator, ed_mul key key_image_generator).

(** [for s_index in 0 ..= MAX_RING_SIZE], selecting the signer's response *)
Fixpoint assign_signer {E} (indexes : list nat) (signer_index : nat) (signer_s : Scalar) (s : list Scalar)
  : outcome E (list Scalar) :=
  match indexes with
  | [] => Ok s
  | s_index :: indexes' =>
      if (s_index =? length s)%nat then Ok s
      else
        let? x := expect (s !! s_index) in
        assign_signer indexes' signer_index signer_s
          (<[s_index := Scalar.conditional_select x signer_s (s_index =? signer_index)%nat]> s)
  end.

(** The body of [sign]'s loop for one input, once its mask is known *)
Definition sign_input (g : rng) (input : Scalar * ClsagContext.t) (key_image_generator key_image : EdwardsPoint)
  (mask : DScalar) (msg_hash : bytes) : outcome ClsagError (t * Point * rng) :=
  let (nonce, g) := random g in
  let? nonce := Scalar.into nonce in
  let? (core, g) := sign_core g key_image (snd input) mask msg_hash
                      (ed_mul nonce ED25519_BASEPOINT_POINT) (ed_mul nonce key_image_generator) in
  let? key := Scalar.into (fst input) in
  let signer_s :=
    Scalar.from (sc_sub nonce (sc_add (sc_mul (key_challenge core) key) (challenged_mask core))) in
  let clsag := incomplete_clsag core in
  let? s := assign_signer (seq 0 (Z.to_nat Decoys.MAX_RING_SIZE + 1))
              (Z.to_nat (Decoys.signer_index (ClsagContext.decoys (snd input)))) signer_s (s clsag) in
  Ok (new (D clsag) s (c1 clsag), pseudo_out core, g).

(** The loop of [sign] over the inputs, each with its key image generator and
    key image; the last input's mask makes the sums balance. *)
Fixpoint sign_loop (g : rng) (inputs : list ((Scalar * ClsagContext.t) * (EdwardsPoint * EdwardsPoint)))
  (sum_outputs : Scalar) (sum_pseudo_outs : DScalar) (msg_hash : bytes)
  : outcome ClsagError (list (t * Point) * rng) :=
  match inputs with
  | [] => Ok ([], g)
  | (input, (key_image_generator, key_image)) :: inputs' =>
      let? (mask, sum_pseudo_outs, g) :=
        match inputs' with
        | [] =>
            let? sum_outputs := Scalar.into sum_outputs in
            Ok (sc_sub sum_outputs sum_pseudo_outs, sum_pseudo_outs, g)
        | _ :: _ =>
            let (mask, g) := random g in
            let? mask := Scalar.into mask in
            Ok (mask, sc_add sum_pseudo_outs mask, g)
        end in
      let? (clsag, pseudo_out, g) := sign_input g input key_image_generator key_image mask msg_hash in
      let? (res, g) := sign_loop g inputs' sum_outputs sum_pseudo_outs msg_hash in
      Ok ((clsag, pseudo_out) :: res, g)
  end.

(** The loop of [sign] that creates the key images *)
Fixpoint key_images_loop (inputs : list (Scalar * ClsagContext.t))
  : outcome ClsagError (list (EdwardsPoint * EdwardsPoint)) :=
  match inputs with
  | [] => Ok []
  | input :: inputs' =>
      let? x := key_image input in
      let? xs := key_images_loop inputs' in
      Ok (x :: xs)
  end.

(** [sign].  The [debug_assert!] that each signature verifies is left out:
    [clsag_sign_verify] proves it. *)
Definition sign (g : rng) (inputs : list (Scalar * ClsagContext.t)) (sum_outputs : Scalar) (msg_hash : bytes)
  : outcome ClsagError (list (t * Point) * rng) :=
  let? key_images := key_images_loop inputs in
  sign_loop g (zip inputs key_images) sum_outputs sc_ZERO msg_hash.
End Ops.
End Clsag.

(** ** Codecs *)

Section Codecs.
Context {Dk : Dalek}.

Definition clsag_ok (decoys : nat) (x : Clsag.t) : Prop :=
  vec_n scalar_ok decoys (Clsag.s x) /\ scalar_ok (Clsag.c1 x) /\ is_array 32 (Clsag.D x).

#[export] Instance clsag_codec decoys : Codec (Clsag.read decoys) Clsag.write (clsag_ok decoys).
Proof.
  split.
  - intros x (Hs & Hc & HD). unfold Clsag.write. bytes_tac.
  - intros [D s c1] rest (Hs & Hc & HD). unfold Clsag.read, Clsag.write. read_run. reflexivity.
  - intros bs x rest Hbs H. unfold Clsag.read in H. read_inv.
    split; [split_and!; assumption|]. unfold Clsag.write. cbn. rewrite <- !app_assoc. reflexivity.
  - unfold Clsag.read. safe_tac.
Qed.
End Codecs.

(** ** Decoys: representable positions, the signer's members *)

Section DecoysProofs.
Context {Dk : Dalek}.
Import Decoys.

Fixpoint sum_list (l : list Z) : Z := match l with [] => 0 | x :: l' => x + sum_list l' end.

(** The positions that the offsets stand for *)
Fixpoint prefix_sums (acc : Z) (offsets : list Z) : list Z :=
  match offsets with [] => [] | o :: offsets' => (acc + o) :: prefix_sums (acc + o) offsets' end.

(** After the first, offsets are not zero, and the last position is a [u64]. *)
Definition offsets_ok (offsets : list Z) : Prop :=
  match offsets with [] => True | _ :: offsets' => Forall (fun o => 0 < o) offsets' end /\
  sum_list offsets < 2 ^ 64.

Lemma sum_list_nonneg l : Forall (U 64) l -> 0 <= sum_list l.
Proof. induction 1 as [|x l [Hx _] _ IH]; cbn; lia. Qed.

Lemma representable_spec l sum : Forall (U 64) l -> U 64 sum ->
  offsets_representable false sum l = true <-> Forall (fun o => 0 < o) l /\ sum + sum_list l < 2 ^ 64.
Proof.
  intros Hl. revert sum. induction Hl as [|o l Ho Hl IH]; intros sum Hs; cbn [offsets_representable sum_list].
  - split; [intros _; split; [constructor|unfold U in Hs; lia]|reflexivity].
  - pose proof (sum_list_nonneg l Hl). rewrite andb_true_iff, Z.ltb_lt, Forall_cons_iff. unfold U in Hs, Ho.
    destruct (Z.lt_ge_cases (sum + o) (2 ^ 64)) as [Hlt|Hge].
    + rewrite Z.mod_small by lia. rewrite IH by (unfold U; lia). split; intros; destruct_and?; split_and?; try assumption; lia.
    + replace ((sum + o) mod 2 ^ 64) with (sum + o - 2 ^ 64)
        by (apply (Z.mod_unique_pos _ _ 1); lia). split; [intros [? _]; lia|intros (_ & ?); lia].
Qed.

Lemma representable_true l : Forall (U 64) l -> offsets_representable true 0 l = true <-> offsets_ok l.
Proof.
  intros [|o l' Ho Hl]; [cbn; split; [intros _; split; [exact I|reflexivity]|reflexivity]|].
  cbn [offsets_representable andb]. change (0 + o) with o. unfold U in Ho. rewrite Z.mod_small by lia.
  rewrite representable_spec by assumption. unfold offsets_ok. cbn [sum_list]. reflexivity.
Qed.

Definition decoys_ok (d : t) : Prop :=
  Forall (U 64) (offsets d) /\ 0 <= signer_index d < len (ring d) /\ len (ring d) <= MAX_RING_SIZE /\
  length (offsets d) = length (ring d) /\ offsets_ok (offsets d).

Lemma decoys_new_spec offs i r d : Forall (U 64) offs -> U 8 i ->
  new offs i r = Some d <-> d = mk offs i r /\ decoys_ok d.
Proof.
  intros Ho Hi. unfold new, MAX_RING_SIZE.
  assert (Hlen : (Z.shiftr (len r) 8 =? 0) && negb (255 <? len r mod 2 ^ 8) = true <-> len r <= 255).
  { unfold len. rewrite Z.shiftr_div_pow2 by lia. change (2 ^ 8) with 256.
    rewrite andb_true_iff, Z.eqb_eq, negb_true_iff, Z.ltb_ge. split; [intros [Hd Hm]|intros Hl];
      [|split]; Z.to_euclidean_division_equations; lia. }
  split.
  - destruct (_ && _ && _ && _) eqn:E; [|discriminate]. intros [= <-].
    apply andb_true_iff in E as [E H4]. apply andb_true_iff in E as [E H3]. apply andb_true_iff in E as [E H2].
    apply Hlen in E. apply Nat.eqb_eq in H3. apply representable_true in H4; [|exact Ho].
    apply Z.ltb_lt in H2. rewrite Z.mod_small in H2 by (unfold len in *; lia). unfold U in Hi.
    split; [reflexivity|]. unfold decoys_ok, MAX_RING_SIZE. cbn. split_and!; (assumption || lia || apply H4).
  - intros [-> (_ & Hs & Hm & Hl & Hok)]. cbn in *. rewrite (proj2 Hlen Hm).
    rewrite Z.mod_small by (unfold len, MAX_RING_SIZE in *; lia).
    rewrite (proj2 (Z.ltb_lt _ _)), (proj2 (Nat.eqb_eq _ _) Hl), (proj2 (representable_true _ Ho) Hok) by lia.
    reflexivity.
Qed.

Lemma select_skip d l k a : 0 <= signer_index d -> (Z.to_nat (signer_index d) < k)%nat ->
  foldl (select_step d) a (zip (seq k (length l)) l) = a.
Proof.
  intros Hi. revert k a. induction l as [|m l IH]; intros k a Hk; cbn; [reflexivity|].
  rewrite IH by lia. unfold select_step. cbn. rewrite (proj2 (Z.eqb_neq _ _)) by lia. destruct a; reflexivity.
Qed.

(** Selecting over the members from index [k] on *)
Lemma select_members d l k a : 0 <= signer_index d -> (k <= Z.to_nat (signer_index d))%nat ->
  (Z.to_nat (signer_index d) < k + length l)%nat ->
  l !! (Z.to_nat (signer_index d) - k)%nat = Some (foldl (select_step d) a (zip (seq k (length l)) l)).
Proof.
  intros Hi. revert k a. induction l as [|m l IH]; intros k a Hk Hl; cbn in Hl; [lia|]. cbn [length seq zip_with foldl].
  destruct (Nat.eq_dec (Z.to_nat (signer_index d)) k) as [Heq|Hne].
  - rewrite select_skip by lia. unfold select_step. cbn. rewrite (proj2 (Z.eqb_eq _ _)) by lia.
    replace (Z.to_nat (signer_index d) - k)%nat with 0%nat by lia. destruct m; reflexivity.
  - rewrite <- IH by lia. replace (Z.to_nat (signer_index d) - k)%nat with (S (Z.to_nat (signer_index d) - S k)) by lia.
    reflexivity.
Qed.

Lemma signer_ring_members_spec {E} d : decoys_ok d ->
  exists m, signer_ring_members (E := E) d = Ok m /\ ring d !! Z.to_nat (signer_index d) = Some m.
Proof.
  intros (_ & Hi & _). unfold signer_ring_members, len in *. destruct (ring d) as [|m l] eqn:Hr; [cbn in Hi; lia|].
  cbn [lookup list_lookup expect obind length seq zip_with drop].
  eexists. split; [reflexivity|]. cbn in Hi.
  destruct (Z.to_nat (signer_index d)) as [|i] eqn:Hz.
  - cbn. f_equal. symmetry. apply select_skip; lia.
  - change (l !! i = Some (foldl (select_step d) m (zip (seq 1 (length l)) l))).
    rewrite <- select_members by (rewrite ?Hz; lia). rewrite Hz. f_equal. lia.
Qed.

Lemma prefix_sums_app acc l l' : prefix_sums acc (l ++ l') = prefix_sums acc l ++ prefix_sums (acc + sum_list l) l'.
Proof.
  revert acc. induction l as [|x l IH]; intros acc; cbn; [rewrite Z.add_0_r; reflexivity|].
  rewrite IH, Z.add_assoc. reflexivity.
Qed.

Lemma sum_list_app l l' : sum_list (l ++ l') = sum_list l + sum_list l'.
Proof. induction l as [|x l IH]; cbn; lia. Qed.

Lemma prefix_sums_length acc l : length (prefix_sums acc l) = length l.
Proof. revert acc. induction l; intros; cbn; auto. Qed.

Lemma prefix_sums_last acc l x : prefix_sums acc (l ++ [x]) !! length l = Some (acc + sum_list l + x).
Proof.
  rewrite prefix_sums_app, lookup_app_r by (rewrite prefix_sums_length; lia).
  rewrite prefix_sums_length, Nat.sub_diag. reflexivity.
Qed.

Lemma positions_fold {E} d pre x suf : offsets d = (pre ++ [x]) ++ suf -> sum_list (offsets d) < 2 ^ 64 ->
  Forall (U 64) (offsets d) ->
  foldl (positions_step (E := E) d) (Ok (prefix_sums 0 (pre ++ [x]))) (seq (S (length pre)) (length suf))
    = Ok (prefix_sums 0 (offsets d)).
Proof.
  revert pre x. induction suf as [|y suf IH]; intros pre x Ho Hs Hu; cbn [length seq foldl].
  - rewrite app_nil_r in Ho. rewrite Ho. reflexivity.
  - unfold positions_step at 2. cbn [obind Nat.sub]. rewrite Nat.sub_0_r, prefix_sums_last. cbn [expect obind].
    assert (Hy : offsets d !! S (length pre) = Some y).
    { rewrite Ho, lookup_app_r by (rewrite length_app; cbn; lia). rewrite length_app. cbn.
      replace (S (length pre) - (length pre + 1))%nat with 0%nat by lia. reflexivity. }
    rewrite Hy. cbn [expect obind].
    assert (Hlt : 0 + sum_list pre + x + y < 2 ^ 64).
    { rewrite Ho, !sum_list_app in Hs. cbn in Hs. rewrite Ho in Hu. apply Forall_app in Hu as [_ Hu].
      apply Forall_cons_iff in Hu as [_ Hu]. pose proof (sum_list_nonneg suf Hu). lia. }
    rewrite (proj2 (Z.leb_gt _ _)) by exact Hlt.
    assert (Heq : prefix_sums 0 (pre ++ [x]) ++ [0 + sum_list pre + x + y] = prefix_sums 0 ((pre ++ [x]) ++ [y])).
    { rewrite (prefix_sums_app 0 (pre ++ [x])), sum_list_app. cbn. do 2 f_equal. lia. }
    rewrite Heq. replace (S (S (length pre))) with (S (length (pre ++ [x]))) by (rewrite length_app; cbn; lia).
    apply IH; [rewrite Ho, <- !app_assoc; reflexivity|assumption..].
Qed.

Lemma positions_sums {E} d : decoys_ok d -> positions (E := E) d = Ok (prefix_sums 0 (offsets d)).
Proof.
  intros (Hu & Hi & _ & Hl & _ & Hs). unfold positions, length_, len in *.
  destruct (offsets d) as [|x suf] eqn:Ho; [cbn in Hl; lia|]. cbn [lookup list_lookup expect obind length].
  rewrite <- Ho in *. pose proof (positions_fold (E := E) d [] x suf Ho Hs Hu) as H. cbn [app length prefix_sums] in H.
  change (0 + x) with x in H. replace (S (length suf) - 1)%nat with (length suf) by lia. exact H.
Qed.

Lemma prefix_sums_increasing acc l : Forall (fun o => 0 < o) l -> Sorted Z.lt (acc :: prefix_sums acc l).
Proof.
  intros Hl. revert acc. induction Hl as [|o l Ho _ IH]; intros acc; cbn; [repeat constructor|].
  constructor; [apply IH|constructor; lia].
Qed.

(** Conversely, increasing sums need positive offsets. *)
Lemma sorted_sums_positive acc l : Sorted Z.lt (acc :: prefix_sums acc l) -> Forall (fun o => 0 < o) l.
Proof.
  revert acc. induction l as [|o l IH]; intros acc Hs; [constructor|]. cbn in Hs.
  apply Sorted_inv in Hs as [Hs Hh]. apply HdRel_inv in Hh. constructor; [lia|exact (IH _ Hs)].
Qed.

Lemma sums_bound acc l : Forall (U 64) (prefix_sums acc l) -> acc < 2 ^ 64 -> acc + sum_list l < 2 ^ 64.
Proof.
  revert acc. induction l as [|o l IH]; intros acc HU Ha; cbn in *; [lia|].
  apply Forall_cons_iff in HU as [Ho HU]. unfold U in Ho. specialize (IH _ HU ltac:(lia)). lia.
Qed.

Lemma sorted_sums_ok l : Sorted Z.lt (prefix_sums 0 l) -> Forall (U 64) (prefix_sums 0 l) -> offsets_ok l.
Proof.
  intros Hs HU. split; [|apply (sums_bound 0 l HU); lia].
  destruct l as [|o l]; [exact I|]. apply (sorted_sums_positive o). exact Hs.
Qed.

Lemma prefix_sums_U acc l : Forall (U 64) l -> 0 <= acc -> acc + sum_list l < 2 ^ 64 ->
  Forall (U 64) (prefix_sums acc l).
Proof.
  intros Hl. revert acc. induction Hl as [|o l Ho Hl IH]; intros acc Ha Hs; cbn in *; constructor.
  - pose proof (sum_list_nonneg l Hl). unfold U in *. lia.
  - unfold U in Ho. apply IH; lia.
Qed.

#[export] Instance read_pair_codec {DL : DalekLaws Dk} : Codec read_pair write_pair (fun _ => True).
Proof.
  split.
  - intros [k c] _. unfold write_pair. apply is_bytes_app_2; apply ed_compress_array.
  - intros [k c] rest _. unfold read_pair, write_pair, CompressedPoint.write. cbn [fst snd]. read_run. reflexivity.
  - intros bs x rest Hbs H. unfold read_pair in H. read_inv. split; [exact I|].
    unfold write_pair, CompressedPoint.write. cbn. rewrite <- app_assoc. reflexivity.
  - unfold read_pair. safe_tac.
Qed.

#[export] Instance decoys_codec {DL : DalekLaws Dk} : Codec read write decoys_ok.
Proof.
  split.
  - intros d (Hu & Hi & Hm & Hl & _). unfold write, MAX_RING_SIZE, len in *. apply is_bytes_app_2.
    + apply (codec_bytes (r := read_vec (VarInt.read VarInt.u64) None)). split; [exact Hu|].
      unfold U, USIZE_BITS, len. split; [lia|exact I].
    + apply is_bytes_app_2; [repeat constructor; lia|].
      apply (codec_bytes (r := read_raw_vec read_pair (length (ring d)))). split; [reflexivity|].
      apply Forall_forall. auto.
  - intros d rest Hd. pose proof Hd as (Hu & Hi & Hm & Hl & _). unfold read, write. rewrite <- app_assoc.
    erewrite rbind_ok by (apply (codec_rt (r := read_vec (VarInt.read VarInt.u64) (Some MAX_RING_SIZE)));
      unfold vec_ok, U, USIZE_BITS, MAX_RING_SIZE, len in *; split_and!; (assumption || lia)).
    rewrite <- app_assoc. unfold MAX_RING_SIZE, len in *.
    erewrite rbind_ok by (apply (codec_rt (r := read_byte) (w := write_byte)); unfold U; lia).
    rewrite Hl. erewrite rbind_ok by (apply (codec_rt (r := read_raw_vec read_pair (length (ring d))));
      split; [reflexivity|apply Forall_forall; auto]).
    assert (Hn : new (offsets d) (signer_index d) (ring d) = Some d)
      by (apply decoys_new_spec; [exact Hu|unfold U; lia|split; [destruct d; reflexivity|exact Hd]]).
    rewrite Hn. reflexivity.
  - intros bs d rest Hbs H. unfold read in H. apply rbind_ok_inv in H as (offs & bs1 & Ho & H).
    destruct (codec_sound _ _ _ Hbs Ho) as [[Hu _] ->]. apply is_bytes_app_r in Hbs.
    apply rbind_ok_inv in H as (i & bs2 & Hi & H).
    destruct (codec_sound _ _ _ Hbs Hi) as [Hi' ->]. apply is_bytes_app_r in Hbs.
    apply rbind_ok_inv in H as (r & bs3 & Hr & H).
    destruct (codec_sound _ _ _ Hbs Hr) as [_ ->].
    destruct (new offs i r) as [d'|] eqn:Hn; [|discriminate H]. apply rret_ok_inv in H as [<- <-].
    apply decoys_new_spec in Hn as [-> Hd]; [|assumption..]. split; [exact Hd|].
    unfold write. cbn. rewrite <- !app_assoc. reflexivity.
  - unfold read. safe_tac.
Qed.
End DecoysProofs.

(** ** The loop of [core] *)

(** A loop that stops at its first failure *)
Section Fold.
Context {E A B : Type} (f : outcome E A -> B -> outcome E A).
Hypothesis f_err : forall e b, f (Err e) b = Err e.
Hypothesis f_panic : forall b, f Panic b = Panic.

Lemma foldl_err e l : foldl f (Err e) l = Err e.
Proof. induction l; cbn; rewrite ?f_err; auto. Qed.

Lemma foldl_panic l : foldl f Panic l = Panic.
Proof. induction l; cbn; rewrite ?f_panic; auto. Qed.

Lemma foldl_ok_inv l a a' : foldl f a l = Ok a' -> exists a0, a = Ok a0.
Proof. destruct a as [a|e|]; [eauto|rewrite foldl_err|rewrite foldl_panic]; discriminate. Qed.
End Fold.

Section Rounds.
Import Clsag.
Context {Dk : Dalek} {DL : DalekLaws Dk} {K : Keccak}.

(** What a run of the loop has fixed: the ring's keys and commitments to zero,
    the images, the aggregation coefficients, the responses, and the part of
    the transcript [base] every round starts from. *)
Context (P C : list EdwardsPoint) (I Dp : EdwardsPoint) (mu_P mu_C : DScalar) (s : list Scalar) (base : bytes).
Context (n : nat) (Hbase : length base = ((2 * n + 3) * 32)%nat).
Context (start finish : nat) (mode : Mode).
Context {E : Type}.

(** The next challenge *)
Definition round (i : nat) (c : DScalar) : outcome E DScalar :=
  let? s_i := expect (s !! i) in
  let? s_i := Scalar.into s_i in
  let? P_i := expect (P !! i) in
  let? C_i := expect (C !! i) in
  let? PH := Point.biased_hash (ed_compress P_i) in
  hash_into (base ++
    ed_compress (ed_msm [s_i; sc_mul mu_P c; sc_mul mu_C c] [ED25519_BASEPOINT_POINT; P_i; C_i]) ++
    ed_compress (ed_msm [sc_mul mu_P c; sc_mul mu_C c; s_i] [I; Dp; PH])).

(** [k] rounds from the index [a] on *)
Fixpoint chain (k a : nat) (c : DScalar) : outcome E DScalar :=
  match k with
  | O => Ok c
  | S k' => let? c' := round (a mod n) c in chain k' (S a) c'
  end.

Lemma chain_app k k' a c :
  chain (k + k') a c = let? c' := chain k a c in chain k' (a + k) c'.
Proof.
  revert a c. induction k as [|k IH]; intros a c; cbn [chain plus obind]; [rewrite Nat.add_0_r; reflexivity|].
  destruct (round _ _); cbn [obind]; [|reflexivity..]. rewrite IH, <- plus_n_Sm. reflexivity.
Qed.

Let step := core_step (E := E) n start finish mu_P mu_C P C I Dp s mode.

Definition based (st : loop_state) : Prop := take ((2 * n + 3) * 32) (ls_to_hash st) = base.

Definition range_at (r : bool) (i : nat) : bool := xorb (r || (i =? start)%nat) (i =? finish)%nat.

(** Either mode's iteration is a round, kept when in range. *)
Lemma core_step_round st i : based st ->
  match round (i mod n) (ls_c st) with
  | Ok h =>
      let r := range_at (ls_in_range st) i in
      let c := if r then h else ls_c st in
      exists st', step (Ok st) i = Ok st' /\ based st' /\ ls_in_range st' = r /\ ls_c st' = c /\
        ls_c1 st' = if r && (i mod n =? n - 1)%nat then c else ls_c1 st
  | Err e => step (Ok st) i = Err e
  | Panic => step (Ok st) i = Panic
  end.
Proof.
  intros Hst. unfold step, core_step, round. cbn [obind].
  destruct (s !! (i mod n)%nat) as [s_i|]; cbn [expect obind]; [|reflexivity].
  destruct (Scalar.into s_i) as [x|e|]; cbn [obind]; [|reflexivity..].
  destruct (P !! (i mod n)%nat) as [P_i|]; cbn [expect obind]; [|reflexivity].
  destruct (C !! (i mod n)%nat) as [C_i|]; cbn [expect obind]; [|reflexivity].
  set (L := match mode with Sign _ _ _ => _ | Verify _ _ => _ end).
  assert (HL : L = ed_msm [x; sc_mul mu_P (ls_c st); sc_mul mu_C (ls_c st)] [ED25519_BASEPOINT_POINT; P_i; C_i])
    by (subst L; destruct mode; [rewrite ed_multiscalar_mul_sum|rewrite ed_mixed_sum]; reflexivity).
  rewrite <- HL. clearbody L. clear HL.
  destruct (Point.biased_hash _) as [PH|e|]; cbn [obind]; [|reflexivity..].
  set (R := match mode with Sign _ _ _ => _ | Verify _ _ => _ end).
  assert (HR : R = ed_msm [sc_mul mu_P (ls_c st); sc_mul mu_C (ls_c st); x] [I; Dp; PH])
    by (subst R; destruct mode; [rewrite ed_multiscalar_mul_sum|rewrite ed_mixed_sum]; reflexivity).
  rewrite <- HR. clearbody R. clear HR.
  rewrite Hst. destruct (hash_into _) as [h|e|]; cbn [obind]; [|reflexivity..].
  eexists. split; [reflexivity|]. unfold based. cbn [ls_to_hash ls_in_range ls_c ls_c1].
  rewrite take_app_length' by (symmetry; exact Hbase). auto.
Qed.

Lemma step_ok_inv st i st' : based st -> step (Ok st) i = Ok st' ->
  let r := range_at (ls_in_range st) i in
  based st' /\ ls_in_range st' = r /\
  exists h, round (i mod n) (ls_c st) = Ok h /\ ls_c st' = (if r then h else ls_c st) /\
    ls_c1 st' = if r && (i mod n =? n - 1)%nat then ls_c st' else ls_c1 st.
Proof.
  intros Hst Hs. pose proof (core_step_round st i Hst) as H.
  destruct (round _ _) as [h|e|] eqn:Hr; [|rewrite Hs in H; discriminate..].
  destruct H as (st'' & H & Hb & H1 & H2 & H3). rewrite Hs in H. injection H as <-.
  split; [exact Hb|]. split; [exact H1|]. exists h. rewrite H2. auto.
Qed.

Lemma fold_ok_inv i l st st' : foldl step (Ok st) (i :: l) = Ok st' ->
  exists st1, step (Ok st) i = Ok st1 /\ foldl step (Ok st1) l = Ok st'.
Proof.
  cbn [foldl]. intros H. destruct (foldl_ok_inv step) with (l := l) (a := step (Ok st) i) (a' := st') as [st1 H1];
    [reflexivity|reflexivity|exact H|]. exists st1. rewrite H1 in H. auto.
Qed.

(** Out of range the challenge stays. *)
Lemma fold_out k a st st' : based st -> ls_in_range st = false ->
  (forall i, (a <= i < a + k)%nat -> i <> start /\ i <> finish) ->
  foldl step (Ok st) (seq a k) = Ok st' ->
  based st' /\ ls_in_range st' = false /\ ls_c st' = ls_c st /\ ls_c1 st' = ls_c1 st.
Proof.
  revert a st. induction k as [|k IH]; intros a st Hb Hr Hi; cbn [seq].
  - cbn. intros [= <-]. auto.
  - intros (st1 & Hs & Hf)%fold_ok_inv. apply step_ok_inv in Hs as (Hb1 & Hr1 & h & _ & Hc & Hc1); [|exact Hb].
    destruct (Hi a) as [H1 H2]; [lia|].
    assert (Hr' : range_at (ls_in_range st) a = false)
      by (unfold range_at; rewrite Hr, (proj2 (Nat.eqb_neq _ _) H1), (proj2 (Nat.eqb_neq _ _) H2); reflexivity).
    rewrite Hr' in *. cbn [andb] in Hc1. destruct (IH (S a) st1 Hb1 Hr1) as (? & ? & ? & ?); [intros i H; apply Hi; lia|exact Hf|].
    split_and!; try assumption; congruence.
Qed.

Definition crosses (a k : nat) : Prop := exists i, (a <= i < a + k)%nat /\ (i mod n = n - 1)%nat.

(** In range the challenges are chained; [c1] is kept until the last index. *)
Lemma fold_in k a st : based st -> (start <= a)%nat -> (a + k <= finish)%nat ->
  ls_in_range st = true \/ a = start -> ~ crosses a k ->
  match chain k a (ls_c st) with
  | Ok c' => exists st', foldl step (Ok st) (seq a k) = Ok st' /\ based st' /\
      (ls_in_range st' = true \/ (k = 0%nat /\ ls_in_range st' = ls_in_range st)) /\
      ls_c st' = c' /\ ls_c1 st' = ls_c1 st
  | Err e => foldl step (Ok st) (seq a k) = Err e
  | Panic => foldl step (Ok st) (seq a k) = Panic
  end.
Proof.
  revert a st. induction k as [|k IH]; intros a st Hb Ha Hk Hr Hcr; cbn [seq chain].
  - exists st. cbn. auto 6.
  - pose proof (core_step_round st a Hb) as Hs.
    destruct (round _ _) as [h|e|] eqn:Hrd; cbn [obind foldl]; [|rewrite Hs; apply foldl_err; reflexivity
      |rewrite Hs; apply foldl_panic; reflexivity].
    assert (Hr1 : range_at (ls_in_range st) a = true).
    { unfold range_at. rewrite (proj2 (Nat.eqb_neq a finish)) by lia.
      destruct Hr as [-> | ->]; [reflexivity|rewrite Nat.eqb_refl, orb_true_r; reflexivity]. }
    rewrite Hr1 in Hs. destruct Hs as (st1 & Hs & Hb1 & Hr1' & Hc & Hc1). cbn [andb] in Hc1.
    rewrite (proj2 (Nat.eqb_neq (a mod n) (n - 1))) in Hc1
      by (intros Hx; apply Hcr; exists a; split; [lia|exact Hx]).
    rewrite Hs. assert (Hcr1 : ~ crosses (S a) k) by (intros (i & Hi & Hx); apply Hcr; exists i; split; [lia|exact Hx]).
    specialize (IH (S a) st1 Hb1 ltac:(lia) ltac:(lia) (or_introl Hr1') Hcr1). rewrite Hc in IH.
    destruct (chain k (S a) h); [|exact IH..]. destruct IH as (st' & Hf & Hb' & Hrr & Hcc & Hcc1).
    exists st'. split; [exact Hf|]. split; [exact Hb'|].
    split; [left; destruct Hrr as [?|[_ ?]]; congruence|]. split; [exact Hcc|congruence].
Qed.

(** In range, the last index sets [c1]. *)
Lemma step_last a st : based st -> (start <= a)%nat -> (a < finish)%nat ->
  ls_in_range st = true \/ a = start -> (a mod n = n - 1)%nat ->
  match round (a mod n) (ls_c st) with
  | Ok h => exists st', step (Ok st) a = Ok st' /\ based st' /\ ls_in_range st' = true /\ ls_c st' = h /\ ls_c1 st' = h
  | Err e => step (Ok st) a = Err e
  | Panic => step (Ok st) a = Panic
  end.
Proof.
  intros Hb Ha Hf Hr Hl. pose proof (core_step_round st a Hb) as Hs.
  destruct (round _ _) as [h|e|]; [|exact Hs..].
  assert (Hr1 : range_at (ls_in_range st) a = true).
  { unfold range_at. rewrite (proj2 (Nat.eqb_neq a finish)) by lia.
    destruct Hr as [-> | ->]; [reflexivity|rewrite Nat.eqb_refl, orb_true_r; reflexivity]. }
  rewrite Hr1, Hl, Nat.eqb_refl in Hs. cbn [andb] in Hs.
  destruct Hs as (st' & Hs & Hb' & Hr' & Hc & Hc1). exists st'. rewrite Hc1. auto.
Qed.
End Rounds.

Section Runs.
Import Clsag.
Context {Dk : Dalek} {DL : DalekLaws Dk} {K : Keccak}.
Context (P C : list EdwardsPoint) (I Dp : EdwardsPoint) (mu_P mu_C : DScalar) (base : bytes).
Context (n : nat) (Hbase : length base = ((2 * n + 3) * 32)%nat) (Hn : (0 < n)%nat).
Context {E : Type}.
Let chain s := chain (E := E) P C I Dp mu_P mu_C s base n.
Let round s := round (E := E) P C I Dp mu_P mu_C s base.

Lemma chain_shift s k a c : chain s k (a + n) c = chain s k a c.
Proof.
  unfold chain. revert a c. induction k as [|k IH]; intros a c; cbn [Clsag.chain]; [reflexivity|].
  replace ((a + n) mod n)%nat with (a mod n)%nat
    by (pose proof (Nat.Div0.mod_add a 1 n) as Hm; rewrite Nat.mul_1_l in Hm; symmetry; exact Hm).
  destruct (Clsag.round _ _ _ _ _ _ _ _ _ _); cbn [obind]; [|reflexivity..]. apply (IH (S a)).
Qed.

Lemma not_crosses a k b : (b * n <= a)%nat -> (a + k <= b * n + n - 1)%nat -> ~ crosses n a k.
Proof.
  intros Ha Hk (i & Hi & Hm). pose proof (Nat.div_mod_eq i n).
  assert (i / n = b)%nat by (symmetry; apply (Nat.div_unique _ _ _ (i - b * n)); nia). nia.
Qed.

Lemma mod_last b : ((b * n + (n - 1)) mod n = n - 1)%nat.
Proof. rewrite Nat.add_comm, Nat.Div0.mod_add. apply Nat.mod_small. lia. Qed.

(** Verification walks the whole ring. *)
Lemma verify_run s c c' th mode : take ((2 * n + 3) * 32) th = base -> chain s n 0 c = Ok c' ->
  exists st, foldl (core_step (E := E) n 0 n mu_P mu_C P C I Dp s mode) (Ok (mk_loop false c c th)) (seq 0 n) = Ok st /\
    ls_c1 st = c'.
Proof.
  intros Hth Hc. unfold chain in Hc.
  pose proof (chain_app P C I Dp mu_P mu_C s base n (E := E) (n - 1) 1 0 c) as Hca.
  replace (n - 1 + 1)%nat with n in Hca by lia. rewrite Hca in Hc. clear Hca.
  replace (seq 0 n) with (seq 0 (n - 1 + 1)) by (f_equal; lia). rewrite seq_app, foldl_app.
  pose proof (fold_in P C I Dp mu_P mu_C s base n Hbase 0 n mode (E := E) (n - 1) 0 (mk_loop false c c th)
    Hth ltac:(lia) ltac:(lia) (or_intror eq_refl) (not_crosses 0 (n - 1) 0 ltac:(lia) ltac:(lia))) as Hf.
  cbn [ls_c] in Hf. destruct (Clsag.chain _ _ _ _ _ _ _ _ _ (n - 1) 0 c) as [c2|e|]; [|discriminate..].
  destruct Hf as (st & Hf & Hb & Hr & Hc2 & _). rewrite Hf. cbn [obind Clsag.chain] in Hc.
  cbn [seq foldl].
  pose proof (step_last P C I Dp mu_P mu_C s base n Hbase 0 n mode (E := E) (0 + (n - 1)) st Hb ltac:(lia) ltac:(lia)) as Hl.
  rewrite Hc2 in Hl. destruct (Clsag.round _ _ _ _ _ _ _ _ _ c2) as [h|e|]; [|discriminate..].
  injection Hc as ->. destruct Hl as (st' & Hl & _ & _ & _ & Hc1).
  - destruct Hr as [Hr|[Hk Hr]]; [left; exact Hr|right; lia].
  - exact (mod_last 0).
  - exists st'. split; [exact Hl|exact Hc1].
Qed.

Lemma fold_in_ok s start finish mode k a st st' : based base n st -> (start <= a)%nat -> (a + k <= finish)%nat ->
  ls_in_range st = true \/ a = start -> ~ crosses n a k ->
  foldl (core_step (E := E) n start finish mu_P mu_C P C I Dp s mode) (Ok st) (seq a k) = Ok st' ->
  chain s k a (ls_c st) = Ok (ls_c st') /\ based base n st' /\
  (ls_in_range st' = true \/ (k = 0%nat /\ ls_in_range st' = ls_in_range st)) /\ ls_c1 st' = ls_c1 st.
Proof.
  intros Hb Ha Hk Hr Hcr Hf.
  pose proof (fold_in P C I Dp mu_P mu_C s base n Hbase start finish mode (E := E) k a st Hb Ha Hk Hr Hcr) as H.
  fold (chain s k a (ls_c st)) in H. rewrite Hf in H. destruct (chain s k a (ls_c st)); [|discriminate H..].
  destruct H as (st1 & [= <-] & Hb' & Hr' & <- & Hc1). auto.
Qed.

(** The part of the run in range *)
Lemma sign_run_range s j mode st st' : (j < n)%nat -> based base n st -> ls_in_range st = false -> ls_c1 st = ls_c st ->
  foldl (core_step (E := E) n (j + 1) (j + n) mu_P mu_C P C I Dp s mode) (Ok st) (seq (j + 1) (n - 1)) = Ok st' ->
  based base n st' /\ (ls_in_range st' = true \/ n = 1%nat) /\
  chain s (n - 1 - j) (j + 1) (ls_c st) = Ok (ls_c1 st') /\ chain s j 0 (ls_c1 st') = Ok (ls_c st').
Proof.
  intros Hj Hb Hr Hc1 Hf. destruct (Nat.eq_dec j (n - 1)%nat) as [->|Hne].
  - apply fold_in_ok in Hf as (Hch & Hb' & Hr' & Hc1'); [|assumption|lia|lia|right; reflexivity|apply (not_crosses _ _ 1); lia].
    split; [exact Hb'|]. split; [destruct Hr' as [?|[? _]]; [left; assumption|right; lia]|].
    rewrite Nat.sub_diag, Hc1', Hc1. split; [reflexivity|].
    rewrite <- chain_shift. replace (0 + n)%nat with (n - 1 + 1)%nat by lia. exact Hch.
  - replace (n - 1)%nat with ((n - 2 - j) + (1 + j))%nat in Hf by lia. rewrite !seq_app, !foldl_app in Hf.
    cbn [seq foldl] in Hf.
    destruct (foldl_ok_inv (core_step (E := E) n (j + 1) (j + n) mu_P mu_C P C I Dp s mode)
      (fun _ _ => eq_refl) (fun _ => eq_refl) _ _ _ Hf) as [st2 Hst2].
    rewrite Hst2 in Hf.
    destruct (foldl _ (Ok st) _) as [st1| |] eqn:Hst1 in Hst2; [|discriminate..].
    apply fold_in_ok in Hst1 as (Hch1 & Hb1 & Hr1 & Hc11); [|assumption|lia|lia|right; reflexivity|apply (not_crosses _ _ 0); lia].
    replace (j + 1 + (n - 2 - j))%nat with (n - 1)%nat in * by lia.
    pose proof (step_last P C I Dp mu_P mu_C s base n Hbase (j + 1) (j + n) mode (E := E) (n - 1) st1 Hb1
      ltac:(lia) ltac:(lia) ltac:(destruct Hr1 as [?|[? _]]; [left; assumption|right; lia]) (mod_last 0)) as Hl.
    destruct (Clsag.round _ _ _ _ _ _ _ _ _ (ls_c st1)) as [h|e|] eqn:Hrd; [|congruence..].
    destruct Hl as (st2' & Hl & Hb2 & Hr2 & Hc2 & Hc12). rewrite Hst2 in Hl. injection Hl as <-.
    replace (n - 1 + 1)%nat with n in Hf by lia.
    apply fold_in_ok in Hf as (Hch3 & Hb3 & Hr3 & Hc13); [|assumption|lia|lia|left; assumption|apply (not_crosses _ _ 1); lia].
    split; [exact Hb3|]. split; [left; destruct Hr3 as [?|[_ ?]]; congruence|].
    rewrite Hc13, Hc12. split.
    + replace (n - 1 - j)%nat with ((n - 2 - j) + 1)%nat by lia. unfold chain in *. rewrite chain_app, Hch1.
      cbn [obind Clsag.chain]. replace (j + 1 + (n - 2 - j))%nat with (n - 1)%nat by lia. rewrite Hrd. reflexivity.
    + rewrite <- chain_shift, <- Hc2. exact Hch3.
Qed.

(** Signing walks it from the member after the signer's, back to the signer's. *)
Lemma sign_run s j c0 th mode st : (j < n)%nat -> take ((2 * n + 3) * 32) th = base ->
  foldl (core_step (E := E) n (j + 1) (j + n) mu_P mu_C P C I Dp s mode) (Ok (mk_loop false c0 c0 th)) (seq 0 (2 * n))
    = Ok st ->
  chain s (n - 1 - j) (j + 1) c0 = Ok (ls_c1 st) /\ chain s j 0 (ls_c1 st) = Ok (ls_c st).
Proof.
  intros Hj Hth Hf.
  pose proof (foldl_ok_inv (core_step (E := E) n (j + 1) (j + n) mu_P mu_C P C I Dp s mode)
      (fun _ _ => eq_refl) (fun _ => eq_refl)) as Hinv.
  replace (2 * n)%nat with ((j + 1) + ((n - 1) + (1 + (n - 1 - j))))%nat in Hf by lia.
  rewrite (seq_app (j + 1)), foldl_app, (seq_app (n - 1)), foldl_app, (seq_app 1), foldl_app, Nat.add_0_l in Hf.
  destruct (Hinv _ _ _ Hf) as [st3 Hst3]. rewrite Hst3 in Hf.
  destruct (Hinv _ _ _ Hst3) as [st2 Hst2]. rewrite Hst2 in Hst3.
  destruct (Hinv _ _ _ Hst2) as [st1 Hst1]. rewrite Hst1 in Hst2.
  apply (fold_out _ _ _ _ _ _ _ base n Hbase) in Hst1 as (Hb1 & Hr1 & Hc1 & Hc11); [|exact Hth|reflexivity|lia].
  cbn [ls_c ls_c1] in Hc1, Hc11.
  apply sign_run_range in Hst2 as (Hb2 & Hr2 & Hch & Hch'); [|assumption..|congruence].
  rewrite <- Hc1. cbn [seq foldl] in Hst3. replace (j + 1 + (n - 1))%nat with (j + n)%nat in * by lia.
  apply (step_ok_inv _ _ _ _ _ _ _ base n Hbase) in Hst3 as (Hb3 & Hr3 & h & _ & Hc3 & Hc13); [|exact Hb2].
  assert (Hra : range_at (j + 1) (j + n) (ls_in_range st2) (j + n) = false).
  { unfold range_at. rewrite Nat.eqb_refl. destruct Hr2 as [-> | ->]; [reflexivity|].
    rewrite Nat.eqb_refl, orb_true_r. reflexivity. }
  rewrite Hra in *. cbn [andb] in Hc13.
  apply (fold_out _ _ _ _ _ _ _ base n Hbase) in Hf as (_ & _ & Hc4 & Hc14); [|exact Hb3|exact Hr3|lia].
  rewrite Hc4, Hc14, Hc3, Hc13. auto.
Qed.
End Runs.

(** ** One signature *)

Section Core.
Import Clsag.
Context {Dk : Dalek} {DL : DalekLaws Dk} {K : Keccak}.

Lemma concat_length_32 {A} (f : A -> bytes) l : (forall x, length (f x) = 32%nat) ->
  length (concat (f <$> l)) = (length l * 32)%nat.
Proof. intros Hf. induction l as [|x l IH]; [reflexivity|]. cbn. rewrite length_app, Hf, IH. reflexivity. Qed.

Lemma compress_length p : length (Point.compress p) = 32%nat.
Proof. apply ed_compress_array. Qed.

Lemma agg_length ring I pseudo_out D_bytes :
  length (agg_transcript ring I pseudo_out D_bytes) = ((2 * length ring + 3) * 32 + length D_bytes)%nat.
Proof.
  unfold agg_transcript. rewrite !length_app, !concat_length_32 by (intros; apply compress_length).
  rewrite !(compress_length : forall p, length (ed_compress p) = _), repeat_length. cbn [length PREFIX AGG_0 PREFIX_AGG_0_LEN plus Nat.sub]. lia.
Qed.

Lemma write_round_length t : length (write_round t) = length t.
Proof.
  unfold write_round. generalize (seq 0 (length ROUND)). intros l. revert t.
  induction l as [|i l IH]; intros t; cbn; [reflexivity|]. rewrite IH. apply length_insert.
Qed.

(** The part of the transcript every round starts from *)
Definition core_base (ring : list (Point * Point)) (I pseudo_out : EdwardsPoint) (D_bytes msg_hash : bytes) : bytes :=
  write_round (take ((2 * length ring + 1) * 32)
    (<[(PREFIX_AGG_0_LEN - 1)%nat := 49]> (agg_transcript ring I pseudo_out D_bytes)))
  ++ ed_compress pseudo_out ++ msg_hash.

Lemma core_base_length ring I pseudo_out D_bytes msg_hash : length msg_hash = 32%nat ->
  length (core_base ring I pseudo_out D_bytes msg_hash) = ((2 * length ring + 3) * 32)%nat.
Proof.
  intros Hm. unfold core_base.
  rewrite !length_app, write_round_length, length_take, length_insert, agg_length, Hm.
  rewrite (compress_length : forall p, length (ed_compress p) = _). lia.
Qed.

(** The sum of a response's and the challenges' multiples closes on the nonce. *)
Lemma response_closes r c_p c_c x z p : ed_is_torsion_free p = true ->
  ed_add (ed_mul (sc_sub r (sc_add (sc_mul c_p x) (sc_mul c_c z))) p)
    (ed_add (ed_mul c_p (ed_mul x p)) (ed_mul c_c (ed_mul z p))) = ed_mul r p.
Proof.
  intros Hp. rewrite !ed_mul_mul, <- !ed_mul_add_l, sc_sub_add by assumption. reflexivity.
Qed.

Lemma msm_L r c_p c_c x z p : ed_is_torsion_free p = true ->
  ed_msm [sc_sub r (sc_add (sc_mul c_p x) (sc_mul c_c z)); c_p; c_c] [p; ed_mul x p; ed_mul z p] = ed_mul r p.
Proof. intros Hp. cbn [ed_msm]. rewrite ed_add_id. apply response_closes, Hp. Qed.

Lemma msm_R r c_p c_c x z p : ed_is_torsion_free p = true ->
  ed_msm [c_p; c_c; sc_sub r (sc_add (sc_mul c_p x) (sc_mul c_c z))] [ed_mul x p; ed_mul z p; p] = ed_mul r p.
Proof.
  intros Hp. cbn [ed_msm]. rewrite ed_add_id, ed_add_assoc, ed_add_comm. apply response_closes, Hp.
Qed.

(** Rounds do not read the response of another index. *)
Lemma chain_insert P C I Dp mu_P mu_C s base n {E} j x k a c : (a + k <= j \/ (j < a /\ a + k <= n))%nat -> (j < n)%nat ->
  chain P C I Dp mu_P mu_C (<[j := x]> s) base n (E := E) k a c = chain P C I Dp mu_P mu_C s base n k a c.
Proof.
  intros Hj Hn. revert a c Hj. induction k as [|k IH]; intros a c Hj; cbn [chain]; [reflexivity|].
  assert (Hr : round P C I Dp mu_P mu_C (<[j := x]> s) base (E := E) (a mod n) c = round P C I Dp mu_P mu_C s base (a mod n) c).
  { unfold round. rewrite (Nat.mod_small a n) by lia. rewrite list_lookup_insert_ne by lia. reflexivity. }
  rewrite Hr. destruct (round P C I Dp mu_P mu_C s base (a mod n) c); cbn [obind]; [|reflexivity..]. apply IH. lia.
Qed.

Lemma core_complete {E} ring I pseudo_out msg_hash Dp s j x z r PH Cm D_inv c_p c_c c1 :
  length msg_hash = 32%nat -> length s = length ring ->
  ring !! j = Some (ed_mul x ED25519_BASEPOINT_POINT, Cm) ->
  ed_sub Cm pseudo_out = ed_mul z ED25519_BASEPOINT_POINT ->
  Point.biased_hash (E := E) (ed_compress (ed_mul x ED25519_BASEPOINT_POINT)) = Ok PH ->
  I = ed_mul x PH -> Dp = ed_mul z PH ->
  core (E := E) ring I pseudo_out msg_hash Dp s
    (Sign (Z.of_nat j) (ed_mul r ED25519_BASEPOINT_POINT) (ed_mul r PH)) = Ok (D_inv, c_p, c_c, c1) ->
  Ok D_inv = (let? e := Scalar.into (E := E) Scalar.INV_EIGHT in Ok (ed_mul e Dp)) /\
  exists x1 x2 x3,
  core (E := E) ring I pseudo_out msg_hash Dp
    (<[j := Scalar.from (sc_sub r (sc_add (sc_mul c_p x) (sc_mul c_c z)))]> s)
    (Verify c1 (ed_compress D_inv)) = Ok (x1, x2, x3, c1).
Proof.
  intros Hm Hs Hj HC HPH HI HD Hc. assert (Hjn : (j < length ring)%nat) by (eapply lookup_lt_Some, Hj).
  unfold core in Hc |- *. destruct (Scalar.into Scalar.INV_EIGHT) as [e|e|]; [|discriminate..]. cbn [obind] in Hc |- *.
  set (agg := agg_transcript ring I pseudo_out _) in Hc.
  destruct (hash_into agg) as [mu_P|?|] eqn:HmP; [|discriminate..]. cbn [obind] in Hc.
  destruct (hash_into (<[_ := 49]> agg)) as [mu_C|?|] eqn:HmC; [|discriminate..]. cbn [obind] in Hc.
  rewrite Nat2Z.id in Hc.
  destruct (hash_into (_ ++ ed_compress (ed_mul r ED25519_BASEPOINT_POINT) ++ _)) as [c0|?|] eqn:Hc0; [|discriminate..].
  cbn [obind] in Hc.
  destruct (foldl _ _ _) as [st|?|] eqn:Hf; [|discriminate..]. cbn [obind] in Hc. injection Hc as <- <- <- <-.
  split; [reflexivity|]. fold agg. rewrite HmP. cbn [obind]. rewrite HmC. cbn [obind].
  set (base := write_round _ ++ ed_compress pseudo_out ++ msg_hash) in *.
  assert (Hbase : length base = ((2 * length ring + 3) * 32)%nat) by (apply (core_base_length ring I pseudo_out), Hm).
  set (P := fst <$> ring) in *. set (C := (fun member => ed_sub (snd member) pseudo_out) <$> ring) in *.
  apply (sign_run P C I Dp mu_P mu_C base (length ring) Hbase ltac:(lia)) in Hf as [Hch1 Hch2];
    [|exact Hjn|apply take_app_length', eq_sym, Hbase].
  set (s' := <[j := _]> s).
  assert (Hch : chain P C I Dp mu_P mu_C s' base (length ring) (E := E) (length ring) 0 (ls_c1 st) = Ok (ls_c1 st)).
  { pose proof (chain_app P C I Dp mu_P mu_C s' base (length ring) (E := E) j (1 + (length ring - 1 - j)) 0 (ls_c1 st)) as Ha.
    replace (j + (1 + (length ring - 1 - j)))%nat with (length ring) in Ha by lia. rewrite Ha. unfold s' at 1.
    rewrite chain_insert, Hch2 by lia. cbn [obind plus chain].
    rewrite (Nat.mod_small j) by lia.
    assert (Hr : round P C I Dp mu_P mu_C s' base (E := E) j (ls_c st) = Ok c0).
    { unfold round, s'. rewrite list_lookup_insert_eq by lia. cbn [expect obind]. rewrite scalar_into_from. cbn [obind].
      unfold P, C. rewrite !list_lookup_fmap, Hj. cbn [fmap option_fmap option_map expect obind fst snd].
      rewrite HPH. cbn [obind]. rewrite HC, HI, HD, !(sc_mul_comm (ls_c st)).
      rewrite msm_L by apply ed_basepoint_free. rewrite msm_R by exact (biased_hash_free _ _ HPH).
      exact Hc0. }
    rewrite Hr. cbn [obind]. unfold s'. rewrite chain_insert by lia. rewrite <- Hch1. f_equal. lia. }
  destruct (verify_run P C I Dp mu_P mu_C base (length ring) Hbase ltac:(lia) (E := E) s' (ls_c1 st) (ls_c1 st) base
    (Verify (ls_c1 st) (ed_compress (ed_mul e Dp)))) as (st' & Hf & Hc1); [apply firstn_all2; lia|exact Hch|].
  rewrite Hf. cbn [obind]. do 3 eexists. rewrite Hc1. reflexivity.
Qed.
End Core.

(** ** Signing *)

Section Sign.
Import Clsag.
Context {Dk : Dalek} {DL : DalekLaws Dk} {K : Keccak}.

Lemma ed_mul_identity s : ed_mul s ed_identity = ed_identity.
Proof.
  apply (ed_add_cancel _ _ (ed_mul s ed_identity)). rewrite <- ed_mul_add_r, ed_add_id, ed_id_add. reflexivity.
Qed.

Lemma inv_eight_spec {E} : exists e, Scalar.into (E := E) Scalar.INV_EIGHT = Ok e /\
  forall p, ed_is_torsion_free p = true -> ed_mul_by_cofactor (ed_mul e p) = p.
Proof.
  assert (Ha : is_array 32 Scalar.INV_EIGHT) by decide_now.
  destruct (sc_from_canonical_bytes Scalar.INV_EIGHT) as [e|] eqn:He.
  - exists e. unfold Scalar.into. rewrite He. split; [reflexivity|]. intros p Hp.
    apply sc_canonical in He as [_ He]; [|exact Ha].
    rewrite ed_cofactor_mul, ed_cofactor_eight, ed_mul_mul by exact Hp.
    assert (H1 : sc_mul e (sc_from_u64 8) = sc_ONE).
    { apply sc_val_inj. rewrite sc_mul_val, He, sc_u64_val, sc_one_val by (unfold U; lia). reflexivity. }
    rewrite H1. apply ed_mul_one.
  - exfalso.
    assert (Hc : sc_from_canonical_bytes Scalar.INV_EIGHT = Some (sc_from_bytes_mod_order Scalar.INV_EIGHT)).
    { apply sc_canonical; [exact Ha|]. rewrite sc_mod_order by exact Ha. split; [reflexivity|].
      apply Z.mod_small. vm_compute. split; [discriminate|reflexivity]. }
    congruence.
Qed.

Lemma commit_spec {E} c p : Commitment.commit (E := E) c = Ok p ->
  exists m h, Scalar.into (E := E) (Commitment.mask c) = Ok m /\ Commitment.H (E := E) = Ok h /\
    p = ed_add (ed_mul m ED25519_BASEPOINT_POINT) (ed_mul (sc_from_u64 (Commitment.amount c)) h).
Proof.
  unfold Commitment.commit. destruct (Scalar.into _) as [m| |]; [|discriminate..]. cbn [obind].
  destruct Commitment.H as [h| |]; [|discriminate..]. cbn [obind].
  rewrite ed_multiscalar_mul_sum by reflexivity. cbn [ed_msm]. rewrite ed_add_id. intros Hp%Ok_inj.
  exists m, h. auto.
Qed.

(** Two commitments to one amount differ by the difference of their masks. *)
Lemma commit_delta {E} m mask amount p q : Commitment.commit (E := E) (Commitment.new m amount) = Ok p ->
  Commitment.commit (E := E) (Commitment.new (Scalar.from mask) amount) = Ok q ->
  forall x, Scalar.into (E := E) m = Ok x -> ed_sub p q = ed_mul (sc_sub x mask) ED25519_BASEPOINT_POINT.
Proof.
  intros (m1 & h1 & H1 & H2 & ->)%commit_spec (m2 & h2 & H3 & H4 & ->)%commit_spec x Hx.
  cbn [Commitment.mask Commitment.amount] in *. rewrite Hx in H1. injection H1 as <-.
  rewrite scalar_into_from in H3. injection H3 as <-. rewrite H2 in H4. injection H4 as <-.
  apply (ed_add_cancel _ _ (ed_add (ed_mul mask ED25519_BASEPOINT_POINT) (ed_mul (sc_from_u64 amount) h1))).
  rewrite ed_sub_add, ed_add_assoc, <- ed_mul_add_l, sc_sub_add by apply ed_basepoint_free. reflexivity.
Qed.

Lemma random_vec_length n g : length (fst (random_vec n g)) = n.
Proof.
  revert g. induction n as [|n IH]; intros g; cbn; [reflexivity|]. specialize (IH (fun n => g (S n))).
  destruct (random_vec n _) as [xs g']. cbn in *. congruence.
Qed.

Lemma conditional_select_false {n} a b : length a = n -> length b = n -> Scalar.conditional_select a b false = a.
Proof.
  intros Ha Hb. unfold Scalar.conditional_select. revert n b Ha Hb.
  induction a as [|x a IH]; intros n [|y b] Ha Hb; cbn in *; [reflexivity|reflexivity|congruence|].
  f_equal. apply (IH (length a)); congruence.
Qed.

Lemma conditional_select_true {n} a b : length a = n -> length b = n -> Scalar.conditional_select a b true = b.
Proof.
  intros Ha Hb. unfold Scalar.conditional_select. revert n b Ha Hb.
  induction a as [|x a IH]; intros n [|y b] Ha Hb; cbn in *; [reflexivity|congruence|reflexivity|].
  f_equal. apply (IH (length a)); congruence.
Qed.

(** The selections over every index are an assignment. *)
Lemma assign_signer_spec {E} k m j x s : Forall (fun y => length y = 32%nat) s -> length x = 32%nat ->
  (m <= length s < m + k)%nat -> (j < length s)%nat ->
  assign_signer (E := E) (seq m k) j x s = Ok (if (j <? m)%nat then s else <[j := x]> s).
Proof.
  revert m s. induction k as [|k IH]; intros m s Hs Hx Hm Hj; [lia|]. cbn [seq assign_signer].
  destruct (Nat.eqb_spec m (length s)) as [->|Hne].
  { destruct (Nat.ltb_spec j (length s)); [reflexivity|lia]. }
  destruct (s !! m) as [y|] eqn:Hy; [|apply lookup_ge_None in Hy; lia]. cbn [expect obind].
  pose proof (proj1 (Forall_lookup _ _) Hs _ _ Hy) as Hyl.
  destruct (Nat.eqb_spec m j) as [<-|Hmj].
  - rewrite (conditional_select_true (n := 32)) by assumption.
    rewrite IH by (rewrite ?length_insert; try apply Forall_insert; auto || lia).
    rewrite (proj2 (Nat.ltb_lt m (S m))), (proj2 (Nat.ltb_ge m m)) by lia. reflexivity.
  - rewrite (conditional_select_false (n := 32)) by assumption. rewrite list_insert_id by exact Hy.
    rewrite IH by (auto || lia). destruct (Nat.ltb_spec j (S m)), (Nat.ltb_spec j m); lia || reflexivity.
Qed.

Lemma random_vec_32 n g : Forall (fun y => length y = 32%nat) (fst (random_vec n g)).
Proof.
  revert g. induction n as [|n IH]; intros g; cbn; [constructor|]. specialize (IH (fun n => g (S n))).
  destruct (random_vec n _) as [xs g']. constructor; [apply sc_bytes_array|exact IH].
Qed.

(** A context [ClsagContext::new] yields, on decoys as [Decoys::new] does *)
Definition context_ok (x : ClsagContext.t) : Prop :=
  decoys_ok (ClsagContext.decoys x) /\
  exists d c, ClsagContext.new d c = Ok x.

Lemma context_members x : context_ok x -> exists k c,
  Decoys.ring (ClsagContext.decoys x) !! Z.to_nat (Decoys.signer_index (ClsagContext.decoys x)) = Some (k, c) /\
  (forall E, Decoys.signer_ring_members (E := E) (ClsagContext.decoys x) = Ok (k, c)) /\
  Commitment.commit (E := ClsagError) (ClsagContext.commitment x) = Ok c.
Proof.
  intros [Hd (d & c & Hn)].
  destruct (signer_ring_members_spec (E := ClsagError) _ Hd) as ([k C] & Hm & Hr). exists k, C.
  split; [exact Hr|]. split.
  - intros E. destruct (signer_ring_members_spec (E := E) _ Hd) as (m & -> & Hr'). congruence.
  - unfold ClsagContext.new in Hn. destruct (Decoys.signer_ring_members d) as [m| |] eqn:Hm'; [|discriminate..].
    cbn [obind] in Hn. destruct (Commitment.commit c) as [p| |] eqn:Hc; [|discriminate..]. cbn [obind] in Hn.
    destruct (Point.eqb (snd m) p) eqn:He; [|discriminate]. cbn [negb] in Hn. injection Hn as <-.
    cbn [ClsagContext.commitment ClsagContext.decoys] in *. apply ed_eqb_spec in He.
    rewrite Hm in Hm'. injection Hm' as <-. cbn in He. congruence.
Qed.

(** The ring as [verify] takes it *)
Definition compressed_ring (x : ClsagContext.t) : list (CompressedPoint * CompressedPoint) :=
  (fun m => (Point.compress (fst m), Point.compress (snd m))) <$> Decoys.ring (ClsagContext.decoys x).

Lemma decompress_ring l :
  mapM (fun r => k ← CompressedPoint.decompress (fst r); c ← CompressedPoint.decompress (snd r); Some (k, c))
    ((fun m => (Point.compress (fst m), Point.compress (snd m))) <$> l) = Some l.
Proof.
  apply mapM_Some. induction l as [|[k c] l IH]; constructor; [|exact IH]. cbn.
  rewrite !decompress_compress. reflexivity.
Qed.

(** What verification makes of an honest signature: the key image or [D] may
    be the identity, which only a degenerate key or mask leads to. *)
Definition honest_result (I : EdwardsPoint) (cl : Clsag.t) : outcome ClsagError unit :=
  if ed_is_identity I then Err InvalidImage
  else if bytes_eqb (Clsag.D cl) (Point.compress ed_identity) then Err InvalidD
  else Ok tt.

Lemma cofactor_identity e p : ed_mul_by_cofactor (ed_mul e p) = p ->
  ed_is_identity p = bytes_eqb (ed_compress (ed_mul e p)) (Point.compress ed_identity).
Proof.
  intros Hp. apply Bool.eq_iff_eq_true. rewrite ed_is_identity_spec, bytes_eqb_spec. split.
  - intros ->. rewrite ed_mul_identity. reflexivity.
  - intros H%ed_compress_inj. rewrite <- Hp, H, ed_cofactor_eight. apply ed_mul_identity.
Qed.

(** What [sign_core] yields is completed by the response to its challenges,
    whoever computes it. *)
Lemma sign_core_verifies g x xk C r PH mask msg_hash core g' : length msg_hash = 32%nat -> decoys_ok (ClsagContext.decoys x) ->
  let j := Z.to_nat (Decoys.signer_index (ClsagContext.decoys x)) in
  Decoys.ring (ClsagContext.decoys x) !! j = Some (ed_mul xk ED25519_BASEPOINT_POINT, C) ->
  Commitment.commit (E := ClsagError) (ClsagContext.commitment x) = Ok C ->
  Point.biased_hash (E := ClsagError) (ed_compress (ed_mul xk ED25519_BASEPOINT_POINT)) = Ok PH ->
  sign_core (E := ClsagError) g (ed_mul xk PH) x mask msg_hash (ed_mul r ED25519_BASEPOINT_POINT) (ed_mul r PH) = Ok (core, g') ->
  let signer_s := Scalar.from (sc_sub r (sc_add (sc_mul (key_challenge core) xk) (challenged_mask core))) in
  let clsag := incomplete_clsag core in
  Forall (fun y => length y = 32%nat) (s clsag) /\ length (s clsag) = length (Decoys.ring (ClsagContext.decoys x)) /\
  verify (new (D clsag) (<[j := signer_s]> (s clsag)) (c1 clsag)) (compressed_ring x) (Point.compress (ed_mul xk PH))
    (Point.compress (pseudo_out core)) msg_hash = honest_result (ed_mul xk PH) clsag /\
  Commitment.commit (E := ClsagError)
    (Commitment.new (Scalar.from mask) (Commitment.amount (ClsagContext.commitment x))) = Ok (pseudo_out core) /\
  exists m D_inv, Scalar.into (E := ClsagError) (Commitment.mask (ClsagContext.commitment x)) = Ok m /\
    D clsag = ed_compress D_inv /\ ed_mul_by_cofactor D_inv = ed_mul (sc_sub m mask) PH.
Proof.
  intros Hmsg Hx j Hring Hcom HPH Hs.
  assert (Hmem : Decoys.signer_ring_members (E := ClsagError) (ClsagContext.decoys x) = Ok (ed_mul xk ED25519_BASEPOINT_POINT, C)).
  { destruct (signer_ring_members_spec (E := ClsagError) _ Hx) as (m & -> & Hm). unfold j in Hring. congruence. }
  unfold sign_core in Hs.
  destruct (Commitment.commit _) as [po'| |] eqn:Hpo in Hs; [|discriminate..]. cbn [obind] in Hs.
  destruct (Scalar.into (Commitment.mask _)) as [m| |] eqn:Hm; [|discriminate..]. cbn [obind] in Hs.
  rewrite Hmem in Hs. cbn [obind fst] in Hs. unfold Point.compress at 1 in Hs. rewrite HPH in Hs. cbn [obind] in Hs.
  pose proof (random_vec_length (length (Decoys.ring (ClsagContext.decoys x))) g) as Hsl.
  pose proof (random_vec_32 (length (Decoys.ring (ClsagContext.decoys x))) g) as Hs32.
  destruct (random_vec _ g) as [s g2]. cbn [fst] in Hsl, Hs32.
  destruct (Clsag.core _ _ _ _ _ _ _) as [[[[D_inv c_p] c_c] c1]| |] eqn:Hcore; [|discriminate..]. cbn [obind] in Hs.
  injection Hs as <- <-. cbn [incomplete_clsag key_challenge challenged_mask pseudo_out Clsag.s Clsag.D Clsag.c1].
  split; [exact Hs32|]. split; [exact Hsl|]. pose proof Hx as (_ & Hi & _).
  assert (Hj : Z.of_nat j = Decoys.signer_index (ClsagContext.decoys x)) by lia.
  rewrite <- Hj in Hcore.
  destruct (ClsagContext.commitment x) as [cm ca] eqn:Hcx. cbn [Commitment.mask Commitment.amount] in *.
  apply core_complete with (x := xk) (z := sc_sub m mask) (r := r) (PH := PH) (Cm := C) in Hcore as [HD (x1 & x2 & x3 & Hv)];
    [|exact Hmsg|exact Hsl|exact Hring|exact (commit_delta _ _ _ _ _ Hcom Hpo m Hm)|exact HPH|reflexivity|reflexivity].
  pose proof (biased_hash_free _ _ HPH) as Hfree.
  destruct (inv_eight_spec (E := ClsagError)) as (e & He & Hcof). rewrite He in HD. cbn [obind] in HD.
  injection HD as ->. specialize (Hcof (ed_mul (sc_sub m mask) PH) (ed_mul_free _ _ Hfree)).
  split; [|split; [exact Hpo|exists m, (ed_mul e (ed_mul (sc_sub m mask) PH)); split; [reflexivity|split; [reflexivity|exact Hcof]]]].
  unfold verify, honest_result, compressed_ring. cbn [Clsag.s Clsag.D Clsag.c1].
  rewrite !length_fmap, length_insert, Hsl, Nat.eqb_refl. cbn [negb].
  assert (Hne : length (Decoys.ring (ClsagContext.decoys x)) <> 0%nat) by (pose proof (lookup_lt_Some _ _ _ Hring); lia).
  rewrite (proj2 (Nat.eqb_neq _ _) Hne), decompress_compress. cbn [ok_or obind]. unfold Point.key_image.
  rewrite (ed_mul_free _ _ Hfree), orb_false_r.
  destruct (ed_is_identity (ed_mul xk PH)); [reflexivity|]. cbn [ok_or obind].
  fold (Point.compress (ed_mul e (ed_mul (sc_sub m mask) PH))). rewrite !decompress_compress. cbn [ok_or obind].
  rewrite Hcof, (cofactor_identity e _ Hcof). unfold Point.compress at 1.
  destruct (bytes_eqb _ _); [reflexivity|]. rewrite decompress_ring. cbn [ok_or obind].
  rewrite scalar_into_from. cbn [obind]. unfold Point.compress. rewrite Hv. cbn [obind].
  rewrite (proj2 (sc_eqb_spec _ _) eq_refl). reflexivity.
Qed.

Lemma sign_input_spec g key x PH I mask msg_hash cl po g' : length msg_hash = 32%nat -> context_ok x ->
  key_image (key, x) = Ok (PH, I) -> sign_input g (key, x) PH I mask msg_hash = Ok (cl, po, g') ->
  verify cl (compressed_ring x) (Point.compress I) (Point.compress po) msg_hash = honest_result I cl /\
  Commitment.commit (E := ClsagError)
    (Commitment.new (Scalar.from mask) (Commitment.amount (ClsagContext.commitment x))) = Ok po.
Proof.
  intros Hmsg Hx Hki Hs. destruct (context_members x Hx) as (k & C & Hring & Hmem & Hcom).
  unfold key_image in Hki. cbn [fst snd] in Hki.
  destruct (Scalar.into key) as [xk| |] eqn:Hkey; [|discriminate..]. cbn [obind] in Hki. rewrite Hmem in Hki.
  cbn [obind fst] in Hki. destruct (ed_eqb _ k) eqn:Hk; [|discriminate]. apply ed_eqb_spec in Hk. cbn [negb] in Hki.
  destruct (Point.biased_hash _) as [PH'| |] eqn:HPH; [|discriminate..]. cbn [obind] in Hki. injection Hki as -> <-.
  rewrite <- Hk in *. unfold sign_input in Hs. destruct (random g) as [nonce g1]. destruct (Scalar.into nonce) as [r| |]; [|discriminate..].
  cbn [obind fst snd] in Hs. destruct (sign_core _ _ _ _ _ _ _) as [[core g2]| |] eqn:Hcore; [|discriminate..]. cbn [obind] in Hs.
  pose proof Hx as [Hd _]. pose proof Hd as (_ & Hi & Hmax & _). unfold len, Decoys.MAX_RING_SIZE in Hi, Hmax.
  destruct (sign_core_verifies _ _ _ _ _ _ _ _ _ _ Hmsg Hd Hring Hcom HPH Hcore) as (H32 & Hsl & Hv & Hpo & _).
  rewrite Hkey in Hs. cbn [obind] in Hs.
  rewrite assign_signer_spec in Hs by (assumption || apply sc_bytes_array || (rewrite Hsl; unfold Decoys.MAX_RING_SIZE; lia)).
  cbn [obind Nat.ltb Nat.leb] in Hs. injection Hs as <- <- <-. split; [exact Hv|exact Hpo].
Qed.

Definition point_sum (l : list EdwardsPoint) : EdwardsPoint := foldr ed_add ed_identity l.

(** The sum of the inputs' amounts, over [H] *)
Definition amounts_H (h : EdwardsPoint) (inputs : list (Scalar * ClsagContext.t)) : EdwardsPoint :=
  point_sum ((fun x => ed_mul (sc_from_u64 (Commitment.amount (ClsagContext.commitment (snd x)))) h) <$> inputs).

Lemma sub_add_mask so sp mask : sc_add mask (sc_sub so (sc_add sp mask)) = sc_sub so sp.
Proof.
  apply sc_val_inj. rewrite sc_add_val, !sc_sub_val, sc_add_val, Z.add_mod_idemp_r by (unfold L; lia).
  rewrite Z.add_sub_assoc, Zminus_mod_idemp_r. f_equal. ring.
Qed.

Lemma key_images_spec inputs kis : key_images_loop inputs = Ok kis ->
  Forall2 (fun input ki => key_image input = Ok ki) inputs kis.
Proof.
  revert kis. induction inputs as [|x inputs IH]; intros kis; cbn [key_images_loop].
  - intros [= <-]. constructor.
  - destruct (key_image x) as [ki| |] eqn:Hx; [|discriminate..]. cbn [obind].
    destruct (key_images_loop inputs) as [xs| |]; [|discriminate..]. cbn [obind]. intros [= <-].
    constructor; [exact Hx|]. apply IH. reflexivity.
Qed.

(** Each pseudo-out commits to its input's amount; their masks sum to what
    is left of [sum_outputs]. *)
Lemma sign_loop_spec g inputs kis sum_outputs sp msg_hash res g' : length msg_hash = 32%nat ->
  Forall (fun x => context_ok (snd x)) inputs -> Forall2 (fun input ki => key_image input = Ok ki) inputs kis ->
  sign_loop g (zip inputs kis) sum_outputs sp msg_hash = Ok (res, g') ->
  Forall2 (fun x y => exists gen I, key_image x = Ok (gen, I) /\
    verify (fst y) (compressed_ring (snd x)) (Point.compress I) (Point.compress (snd y)) msg_hash
      = honest_result I (fst y)) inputs res /\
  (inputs <> [] -> exists so h, Scalar.into (E := ClsagError) sum_outputs = Ok so /\ Commitment.H (E := ClsagError) = Ok h /\
    point_sum (snd <$> res) = ed_add (ed_mul (sc_sub so sp) ED25519_BASEPOINT_POINT) (amounts_H h inputs)).
Proof.
  intros Hmsg Hok Hki. revert g sp res g'. induction Hki as [|[key x] [PH I] inputs kis Hx Hki IH];
    intros g sp res g'; cbn [zip_with sign_loop].
  - intros [= <- <-]. split; [constructor|contradiction].
  - apply Forall_cons_iff in Hok as [Hcx Hok]. specialize (IH Hok). cbn [snd] in Hcx.
    destruct (match zip inputs kis with [] => _ | _ :: _ => _ end) as [[[mask sp'] g1]| |] eqn:Hmask; [|discriminate..].
    cbn [obind]. destruct (sign_input _ _ _ _ _ _) as [[[cl po] g2]| |] eqn:Hsi; [|discriminate..]. cbn [obind].
    destruct (sign_loop g2 _ _ _ _) as [[res' g3]| |] eqn:Hl; [|discriminate..]. cbn [obind]. intros [= <- <-].
    apply (sign_input_spec _ _ _ _ _ _ _ _ _ _ Hmsg Hcx Hx) in Hsi as [Hv Hpo].
    apply IH in Hl as [HF Hsum]. split.
    + constructor; [|exact HF]. exists PH, I. auto.
    + intros _. apply commit_spec in Hpo as (m & h & Hm & Hh & ->). cbn [Commitment.mask Commitment.amount] in *.
      rewrite scalar_into_from in Hm. injection Hm as <-. rename mask into m.
      destruct Hki as [|y ki inputs kis Hy Hki]; cbn [zip_with] in Hmask.
      * destruct (Scalar.into sum_outputs) as [so| |] eqn:Hso; [|discriminate..]. cbn [obind] in Hmask.
        injection Hmask as <- <- <-. exists so, h. split; [reflexivity|]. split; [exact Hh|].
        apply Forall2_nil_inv_l in HF as ->. unfold amounts_H, point_sum. cbn. rewrite !ed_add_id. reflexivity.
      * destruct (random g) as [mk g4]. destruct (Scalar.into mk) as [m'| |]; [|discriminate..]. cbn [obind] in Hmask.
        injection Hmask as <- <- <-. destruct Hsum as (so & h' & Hso & Hh' & Hsum); [discriminate|].
        rewrite Hh in Hh'. injection Hh' as <-. exists so, h. split; [exact Hso|]. split; [exact Hh|].
        unfold amounts_H in *. cbn [fmap list_fmap point_sum foldr] in *. unfold point_sum in Hsum at 1. cbn [fst snd foldr] in *.
        rewrite Hsum, ed_add_swap, <- ed_mul_add_l, sub_add_mask by apply ed_basepoint_free. reflexivity.
Qed.

Lemma sign_spec g inputs sum_outputs msg_hash res g' : length msg_hash = 32%nat ->
  Forall (fun x => context_ok (snd x)) inputs -> sign g inputs sum_outputs msg_hash = Ok (res, g') ->
  Forall2 (fun x y => exists gen I, key_image x = Ok (gen, I) /\
    verify (fst y) (compressed_ring (snd x)) (Point.compress I) (Point.compress (snd y)) msg_hash
      = honest_result I (fst y)) inputs res /\
  (inputs <> [] -> exists so h, Scalar.into (E := ClsagError) sum_outputs = Ok so /\ Commitment.H (E := ClsagError) = Ok h /\
    point_sum (snd <$> res) = ed_add (ed_mul so ED25519_BASEPOINT_POINT) (amounts_H h inputs)).
Proof.
  intros Hmsg Hok. unfold sign. destruct (key_images_loop inputs) as [kis| |] eqn:Hki; [|discriminate..].
  cbn [obind]. apply key_images_spec in Hki. intros Hl.
  destruct (sign_loop_spec g inputs kis sum_outputs sc_ZERO msg_hash res g' Hmsg Hok Hki Hl) as [HF Hs].
  split; [exact HF|]. intros Hne. destruct (Hs Hne) as (so & h & Hso & Hh & Hsum). exists so, h.
  rewrite <- (sc_add_zero (sc_sub so sc_ZERO)), sc_sub_add in Hsum. auto.
Qed.
End Sign.

(** ** Properties *)

Section Properties.
Import Clsag.
Context {Dk : Dalek} {DL : DalekLaws Dk} {K : Keccak}.

(** C4: Completeness of CLSAG: every signature [sign] yields, for any amount
    of inputs, rings of any size, signers at any index and any randomness,
    verifies against its ring, key image, pseudo-out and message, except that
    an identity key image or [D] is refused as such. *)
Theorem clsag_sign_verify g inputs sum_outputs msg_hash res g' : length msg_hash = 32%nat ->
  Forall (fun x => context_ok (snd x)) inputs -> sign g inputs sum_outputs msg_hash = Ok (res, g') ->
  Forall2 (fun x y => exists gen I, key_image x = Ok (gen, I) /\
    verify (fst y) (compressed_ring (snd x)) (Point.compress I) (Point.compress (snd y)) msg_hash
      = honest_result I (fst y)) inputs res.
Proof. intros Hmsg Hok Hs. apply (sign_spec g inputs sum_outputs msg_hash res g' Hmsg Hok Hs). Qed.

(** The pseudo-outs [sign] yields balance: their sum commits to the
    inputs' amounts under exactly the output masks' sum, so a transaction
    whose amounts balance satisfies the protocol's equation. *)
Theorem clsag_sign_balances g inputs sum_outputs msg_hash res g' : length msg_hash = 32%nat ->
  Forall (fun x => context_ok (snd x)) inputs -> inputs <> [] -> sign g inputs sum_outputs msg_hash = Ok (res, g') ->
  exists so h, Scalar.into (E := ClsagError) sum_outputs = Ok so /\ Commitment.H (E := ClsagError) = Ok h /\
    foldr ed_add ed_identity (snd <$> res) = ed_add (ed_mul so ED25519_BASEPOINT_POINT) (amounts_H h inputs).
Proof. intros Hmsg Hok Hne Hs. apply (sign_spec g inputs sum_outputs msg_hash res g' Hmsg Hok Hs), Hne. Qed.

(** [Decoys::new] accepts exactly the decoys with a ring of at most 255
    members, an offset for each, a signer among them, and offsets whose
    positions are strictly increasing [u64]s; on such decoys [positions] and
    [signer_ring_members] never panic and yield the offsets' running sums and
    the signer's members, and [read] inverts [write]. *)
Theorem decoys_representable (offsets : list Z) (signer_index : Z) (ring : list (Point * Point)) :
  Forall (U 64) offsets -> U 8 signer_index ->
  let positions_of := prefix_sums 0 offsets in
  (is_Some (Decoys.new offsets signer_index ring) <->
     len ring <= 255 /\ length offsets = length ring /\ signer_index < len ring /\
     Sorted Z.lt positions_of /\ Forall (U 64) positions_of) /\
  forall d, Decoys.new offsets signer_index ring = Some d ->
    Decoys.positions (E := unit) d = Ok positions_of /\
    (exists m, ring !! Z.to_nat signer_index = Some m /\ Decoys.signer_ring_members (E := unit) d = Ok m) /\
    forall rest, Decoys.read (Decoys.write d ++ rest) = (Ok d, rest).
Proof.
  intros Ho Hi positions_of. split.
  - split.
    + intros [d Hd]. apply decoys_new_spec in Hd as [-> (_ & Hs & Hm & Hl & Hok)]; [|assumption..]. cbn in *.
      destruct Hok as [Hpos Hsum]. split_and!; [assumption..|lia| |apply prefix_sums_U; (assumption || lia)].
      unfold positions_of. destruct offsets as [|o l]; [constructor|]. cbn. apply prefix_sums_increasing, Hpos.
    + intros (Hm & Hl & Hs & Hsort & HU). exists (Decoys.mk offsets signer_index ring).
      apply decoys_new_spec; [assumption..|]. split; [reflexivity|]. unfold decoys_ok. cbn.
      split_and!; try assumption; [apply Hi|]. apply sorted_sums_ok; assumption.
  - intros d Hd. pose proof Hd as Hd'. apply decoys_new_spec in Hd as [Heq Hok]; [|assumption..].
    split; [rewrite (positions_sums d Hok), Heq; reflexivity|]. split.
    + destruct (signer_ring_members_spec (E := unit) d Hok) as (m & Hm & Hr). exists m. rewrite Heq in Hr at 1 2. auto.
    + intros rest. apply codec_rt, Hok.
Qed.
End Properties.

Section Witness.
Import Model.

(** A ring of three, the signer last *)
Definition example_decoys : Decoys.t :=
  Decoys.mk [10; 1; 5] 2 [(to_p 24, to_p 80); (to_p 72, to_p 16); (to_p 40, to_p 104)].

Definition example_context : ClsagContext.t :=
  ClsagContext.mk (Commitment.new (to_le 32 7) 3) example_decoys.

Definition example_inputs : list (Scalar * ClsagContext.t) := [(to_le 32 5, example_context)].

Definition example_rng : Clsag.rng := fun n => to_le 64 (Z.of_nat n * 1000003 + 12345).

Lemma example_decoys_ok : decoys_ok example_decoys.
Proof.
  split; [decide_now|]. split; [split; [discriminate|reflexivity]|]. split; [discriminate|].
  split; [reflexivity|]. split; [decide_now|reflexivity].
Qed.

Lemma example_context_new :
  ClsagContext.new example_decoys (Commitment.new (to_le 32 7) 3) = Ok example_context.
Proof.
  assert (H : match Decoys.signer_ring_members (E := ClsagError) example_decoys,
                    Commitment.commit (E := ClsagError) (Commitment.new (to_le 32 7) 3) with
              | Ok m, Ok p => Point.eqb (snd m) p | _, _ => false end = true) by (vm_compute; reflexivity).
  unfold ClsagContext.new. destruct (Decoys.signer_ring_members _); [|discriminate H..]. cbn [obind].
  destruct (Commitment.commit _); [|discriminate H..]. cbn [obind]. rewrite H. reflexivity.
Qed.

Lemma example_ok : Forall (fun x => context_ok (snd x)) example_inputs.
Proof.
  constructor; [|constructor]. split; [exact example_decoys_ok|].
  exists example_decoys, (Commitment.new (to_le 32 7) 3). exact example_context_new.
Qed.

Lemma example_signs :
  match Clsag.sign example_rng example_inputs (to_le 32 9) (repeat 7 32) with Ok _ => true | _ => false end = true.
Proof. vm_compute. reflexivity. Qed.

Lemma clsag_sign_verify_witness :
  exists res g', Clsag.sign example_rng example_inputs (to_le 32 9) (repeat 7 32) = Ok (res, g') /\
    Forall2 (fun x y => exists gen I, Clsag.key_image x = Ok (gen, I) /\
      Clsag.verify (fst y) (compressed_ring (snd x)) (Point.compress I) (Point.compress (snd y)) (repeat 7 32)
        = honest_result I (fst y)) example_inputs res.
Proof.
  destruct (Clsag.sign example_rng example_inputs (to_le 32 9) (repeat 7 32)) as [[res g']| |] eqn:Hs;
    [|pose proof example_signs as H; rewrite Hs in H; discriminate H..].
  exists res, g'. split; [reflexivity|].
  exact (clsag_sign_verify (DL := dalek_laws) example_rng example_inputs (to_le 32 9) (repeat 7 32) res g' eq_refl example_ok Hs).
Defined.

Lemma clsag_sign_balances_witness :
  exists res g' so h, Clsag.sign example_rng example_inputs (to_le 32 9) (repeat 7 32) = Ok (res, g') /\
    foldr ed_add ed_identity (snd <$> res) = ed_add (ed_mul so ED25519_BASEPOINT_POINT) (amounts_H h example_inputs).
Proof.
  destruct (Clsag.sign example_rng example_inputs (to_le 32 9) (repeat 7 32)) as [[res g']| |] eqn:Hs;
    [|pose proof example_signs as H; rewrite Hs in H; discriminate H..].
  exists res, g'.
  destruct (clsag_sign_balances (DL := dalek_laws) example_rng example_inputs (to_le 32 9) (repeat 7 32) res g' eq_refl example_ok ltac:(discriminate) Hs)
    as (so & h & _ & _ & H).
  exists so, h. split; [reflexivity|exact H].
Defined.

Lemma decoys_representable_witness :
  exists d, Decoys.new [10; 1; 5] 2 (Decoys.ring example_decoys) = Some d /\
    Decoys.positions (E := unit) d = Ok [10; 11; 16].
Proof.
  destruct (decoys_representable (DL := dalek_laws) [10; 1; 5] 2 (Decoys.ring example_decoys)
    ltac:(decide_now) ltac:(decide_now)) as [H1 H2].
  destruct (proj2 H1) as [d Hd]; [split_and!; try decide_now|].
  - repeat constructor; vm_compute; reflexivity.
  - exists d. split; [exact Hd|]. exact (proj1 (H2 d Hd)).
Defined.

(** The signature of the example is accepted, and refused for another message. *)
Definition example_verdicts : list bool :=
  match Clsag.sign example_rng example_inputs (to_le 32 9) (repeat 7 32),
        Clsag.key_image (to_le 32 5, example_context) with
  | Ok ([(cl, po)], _), Ok (_, image) =>
      (fun msg =>
         match Clsag.verify cl (compressed_ring example_context) (Point.compress image) (Point.compress po) msg with
         | Ok _ => true | _ => false end) <$> [repeat 7 32; repeat 8 32]
  | _, _ => []
  end.

Example clsag_example : example_verdicts = [true; false].
Proof. vm_compute. reflexivity. Qed.
End Witness.
