(* ===== verification/ClsagSign.v ===== *)
(** Signing CLSAGs doesn't fail ([ringct/clsag/src/lib.rs]): with the keys of
    the signers, [sign] panics on no input, and its only error is for a key
    which isn't the ring member's. *)

From Stdlib Require Import ZArith Lia.
From stdpp Require Import base list strings numbers.
From S2P Require Import Prelude Dalek MoneroIo Ed25519 Clsag.

Section Total.
Context {D : Dalek} {DL : DalekLaws D} {K : Keccak} {PR : Primitives} {ST : Setup}.
Import Clsag.

Lemma hash_into_total data : exists h, forall E, hash_into (E := E) data = Ok h.
Proof. destruct (hash_total data) as [h Hh]. exists h. intros E. unfold hash_into. rewrite Hh. apply scalar_into_from. Qed.

Lemma random_vec_from n g : exists xs, fst (random_vec n g) = map Scalar.from xs /\ length xs = n.
Proof.
  revert g. induction n as [|n IH]; intros g; [exists []; auto|]. cbn [random_vec]. unfold random.
  destruct (IH (fun n => g (S n))) as (xs & Hxs & Hl). destruct (random_vec n _) as [ys g']. cbn [fst] in *.
  exists (sc_from_bytes_mod_order_wide (g 0%nat) :: xs). cbn. rewrite Hxs, Hl. auto.
Qed.

(** ** The rounds *)

Lemma core_step_total {E} n start finish mu_P mu_C P C I Dp xs mode st i : (0 < n)%nat -> length P = n -> length C = n -> length xs = n ->
  exists st', core_step (E := E) n start finish mu_P mu_C P C I Dp (map Scalar.from xs) mode (Ok st) i = Ok st'.
Proof.
  intros Hn HP HC Hx. unfold core_step. cbn [obind]. cbv zeta. pose proof (Nat.mod_upper_bound i n ltac:(lia)) as Hi.
  assert (Hl : forall {A} (l : list A), length l = n -> is_Some (l !! (i mod n)%nat)) by (intros A l Hl; apply lookup_lt_is_Some; lia).
  rewrite list_lookup_fmap. destruct (Hl _ _ Hx) as [x ->], (Hl _ _ HP) as [p ->], (Hl _ _ HC) as [c ->].
  cbn [fmap option_fmap option_map expect obind]. rewrite scalar_into_from. cbn [obind].
  destruct (biased_hash_total (ed_compress p)) as [PH HPH]. rewrite HPH. cbn [obind].
  destruct mode; (match goal with |- context [obind (hash_into ?d)] => destruct (hash_into_total d) as [h Hh]; rewrite Hh end;
    eexists; reflexivity).
Qed.

Lemma core_fold_total {E} n start finish mu_P mu_C P C I Dp xs mode l st : (0 < n)%nat -> length P = n -> length C = n -> length xs = n ->
  exists st', foldl (core_step (E := E) n start finish mu_P mu_C P C I Dp (map Scalar.from xs) mode) (Ok st) l = Ok st'.
Proof.
  intros Hn HP HC Hx. revert st. induction l as [|i l IH]; intros st; [eexists; reflexivity|]. cbn [foldl].
  destruct (core_step_total (E := E) n start finish mu_P mu_C P C I Dp xs mode st i Hn HP HC Hx) as [st' ->]. apply IH.
Qed.

Lemma core_total {E} ring I pseudo_out msg_hash Dp xs mode : ring <> [] -> length xs = length ring ->
  exists r, core (E := E) ring I pseudo_out msg_hash Dp (map Scalar.from xs) mode = Ok r.
Proof.
  intros Hr Hx. assert (Hn : (0 < length ring)%nat) by (destruct ring; [congruence|cbn; lia]). unfold core.
  destruct (inv_eight_spec (E := E)) as (e & He & _). rewrite He. cbn [obind]. cbv zeta.
  destruct (hash_into_total (agg_transcript ring I pseudo_out
    match mode with Sign _ _ _ => ed_compress (ed_mul e Dp) | Verify _ D_serialized => D_serialized end)) as [mu_P HP].
  rewrite HP. cbn [obind]. match goal with |- context [obind (hash_into ?d)] => destruct (hash_into_total d) as [mu_C HC]; rewrite HC end. cbn [obind].
  assert (Hfold : forall start finish mP mC l st, exists st', foldl (core_step (E := E) (length ring) start finish mP mC (fst <$> ring)
    ((fun member => ed_sub (snd member) pseudo_out) <$> ring) I Dp (map Scalar.from xs) mode) (Ok st) l = Ok st').
  { intros. apply core_fold_total; rewrite ?length_fmap; auto. }
  destruct mode as [j A AH|c1 Ds].
  - match goal with |- context [obind (hash_into ?d)] => destruct (hash_into_total d) as [c Hc]; rewrite Hc end. cbn [obind].
    match goal with |- context [foldl (core_step _ ?a ?b ?p ?q _ _ _ _ _ _) (Ok ?s) ?l] => destruct (Hfold a b p q l s) as [st' ->] end.
    eexists. reflexivity.
  - cbn [obind]. match goal with |- context [foldl (core_step _ ?a ?b ?p ?q _ _ _ _ _ _) (Ok ?s) ?l] => destruct (Hfold a b p q l s) as [st' ->] end.
    eexists. reflexivity.
Qed.

(** [verify] doesn't panic on what's read. *)
Lemma scalars_from l : Forall scalar_ok l -> exists xs, l = map Scalar.from xs /\ length xs = length l.
Proof.
  induction 1 as [|b l Hb _ (xs & -> & Hl)]; [exists []; auto|]. destruct (scalar_into_all _ Hb) as (x & _ & <-).
  exists (x :: xs). cbn. auto.
Qed.

Lemma verify_total n self ring I pseudo_out msg_hash : clsag_ok n self -> no_panic (verify self ring I pseudo_out msg_hash).
Proof.
  intros ((_ & Hs) & Hc1 & _). unfold verify. destruct (Nat.eqb_spec (length ring) 0) as [H0|H0]; [exact Logic.I|].
  destruct (Nat.eqb_spec (length ring) (length (Clsag.s self))) as [Hl|Hl]; [|exact Logic.I]. cbn [negb].
  destruct (CompressedPoint.decompress I) as [I'|]; [|exact Logic.I]. cbn [ok_or obind].
  destruct (Point.key_image I') as [I''|]; [|exact Logic.I]. cbn [ok_or obind].
  destruct (CompressedPoint.decompress pseudo_out) as [po|]; [|exact Logic.I]. cbn [ok_or obind].
  destruct (CompressedPoint.decompress (Clsag.D self)) as [Dp|]; [|exact Logic.I]. cbn [ok_or obind].
  destruct (ed_is_identity _); [exact Logic.I|]. destruct (mapM _ ring) as [r|] eqn:Hr; [|exact Logic.I]. cbn [ok_or obind].
  apply mapM_Some_1, list.Forall2_length in Hr. destruct (scalar_into_all _ Hc1) as (c & Hc & _). rewrite Hc. cbn [obind].
  destruct (scalars_from _ Hs) as (xs & Hxs & Hxl). rewrite Hxs.
  match goal with |- context [core r ?i ?p ?h ?d _ ?mode] =>
    destruct (core_total (E := ClsagError) r i p h d xs mode) as ([[[? ?] ?] c1'] & ->) end; [intros ->; cbn in Hr; lia|lia|].
  cbn [obind]. destruct (sc_eqb _ _); exact Logic.I.
Qed.

(** ** Signing *)

(** The signer's key is that of the ring's member. *)
Definition signs (input : Scalar * ClsagContext.t) : Prop := exists x members,
  fst input = Scalar.from x /\ (forall E, Decoys.signer_ring_members (E := E) (ClsagContext.decoys (snd input)) = Ok members) /\
  ed_mul x ED25519_BASEPOINT_POINT = fst members.

Lemma key_image_total input : signs input -> exists r, key_image input = Ok r.
Proof.
  intros (x & members & Hx & Hm & Hk). unfold key_image. rewrite Hx, scalar_into_from. cbn [obind]. rewrite Hm. cbn [obind].
  rewrite (proj2 (ed_eqb_spec _ _) Hk). cbn [negb]. destruct (biased_hash_total (ed_compress (fst members))) as [g Hg]. rewrite Hg.
  eexists. reflexivity.
Qed.

Lemma key_images_loop_total inputs : Forall signs inputs -> exists kis, key_images_loop inputs = Ok kis.
Proof.
  induction 1 as [|x inputs Hx _ [kis IH]]; [eexists; reflexivity|]. cbn [key_images_loop].
  destruct (key_image_total x Hx) as [r ->]. cbn [obind]. rewrite IH. eexists. reflexivity.
Qed.

Definition context_commitment_ok (x : ClsagContext.t) : Prop := context_ok x /\ commitment_ok (ClsagContext.commitment x).


Lemma sign_core_total {E} g I x mask msg_hash A AH : context_commitment_ok x -> exists core xs g',
  sign_core (E := E) g I x mask msg_hash A AH = Ok (core, g') /\
  Clsag.s (incomplete_clsag core) = map Scalar.from xs /\ length xs = length (Decoys.ring (ClsagContext.decoys x)) /\
  scalar_ok (Clsag.c1 (incomplete_clsag core)) /\ is_array 32 (Clsag.D (incomplete_clsag core)).
Proof.
  intros [Hx Hc]. destruct (context_members x Hx) as (k & C & Hring & Hmem & _). unfold sign_core.
  destruct (commit_total (Commitment.new (Scalar.from mask) (Commitment.amount (ClsagContext.commitment x)))) as [po Hpo];
    [split; [apply scalar_from_ok|apply Hc]|]. rewrite Hpo. cbn [obind].
  destruct (scalar_into_all _ (proj1 Hc)) as (m & Hm & _). rewrite Hm. cbn [obind]. rewrite Hmem. cbn [obind fst].
  destruct (biased_hash_total (Point.compress k)) as [PH HPH]. rewrite HPH. cbn [obind].
  destruct (random_vec_from (length (Decoys.ring (ClsagContext.decoys x))) g) as (xs & Hxs & Hxl).
  destruct (random_vec _ g) as [ss g']. cbn [fst] in Hxs. subst ss.
  assert (Hne : Decoys.ring (ClsagContext.decoys x) <> []) by (intros H; rewrite H in Hring; discriminate).
  match goal with |- context [core ?r ?i ?p ?h ?d (map Scalar.from xs) ?mode] =>
    destruct (core_total (E := E) r i p h d xs mode Hne Hxl) as ([[[Dp c_p] c_c] c1] & Hcore); rewrite Hcore end.
  eexists _, xs, g'. split; [reflexivity|]. cbn [incomplete_clsag Clsag.s Clsag.c1 Clsag.D].
  split; [reflexivity|]. split; [exact Hxl|]. split; [apply scalar_from_ok|apply ed_compress_array].
Qed.

(** What's signed is encodable, with as many responses as the ring has members. *)
Definition signed_ok (x : Scalar * ClsagContext.t) (y : Clsag.t * Point) : Prop :=
  clsag_ok (length (Decoys.ring (ClsagContext.decoys (snd x)))) (fst y).

Definition signer_ok (x : Scalar * ClsagContext.t) : Prop := signs x /\ context_commitment_ok (snd x).

Lemma sign_input_total g x I PH mask msg_hash : signer_ok x ->
  exists cl po g', sign_input g x I PH mask msg_hash = Ok (cl, po, g') /\ signed_ok x (cl, po).
Proof.
  intros [(k & _ & Hk & _) Hx]. unfold sign_input, random, Scalar.random. rewrite scalar_into_from. cbn [obind].
  match goal with |- context [sign_core ?g ?i ?y ?m ?h ?a ?b] =>
    destruct (sign_core_total (E := ClsagError) g i y m h a b Hx) as (core & xs & g' & Hcore & Hs & Hl & Hc1 & HD); rewrite Hcore end.
  cbn [obind]. rewrite Hk, scalar_into_from. cbn [obind]. pose proof Hx as [[(_ & Hi & Hmax & _) _] _]. unfold len, Decoys.MAX_RING_SIZE in Hi, Hmax.
  assert (Hf : Forall scalar_ok (Clsag.s (incomplete_clsag core))) by (rewrite Hs; apply Forall_map, Forall_true; intros; apply scalar_from_ok).
  rewrite assign_signer_spec.
  - cbn [obind Nat.ltb Nat.leb]. eexists _, _, _. split; [reflexivity|]. split; [|split; assumption]. cbn [fst Clsag.s].
    split; [|apply Forall_insert; [exact Hf|apply scalar_from_ok]]. rewrite length_insert, Hs, length_map. exact Hl.
  - eapply list.Forall_impl; [exact Hf|]. intros y [Hy _]. apply is_array_length, Hy.
  - apply sc_bytes_array.
  - rewrite Hs, length_map, Hl. unfold Decoys.MAX_RING_SIZE. lia.
  - rewrite Hs, length_map, Hl. lia.
Qed.

Lemma sign_loop_total inputs kis sum_outputs msg_hash : Forall signer_ok inputs -> length kis = length inputs ->
  forall g sp, exists res g', sign_loop g (zip inputs kis) (Scalar.from sum_outputs) sp msg_hash = Ok (res, g') /\ Forall2 signed_ok inputs res.
Proof.
  intros Hin. revert kis. induction Hin as [|x inputs Hx _ IH]; intros [|[I PH] kis] Hl g sp; try discriminate.
  - exists [], g. split; [reflexivity|constructor].
  - cbn [zip_with sign_loop]. assert (Hmask : exists mask sp' g1, match zip inputs kis with
      | [] => let? so := Scalar.into (E := ClsagError) (Scalar.from sum_outputs) in Ok (sc_sub so sp, sp, g)
      | _ :: _ => let (mask, g) := random g in let? mask := Scalar.into mask in Ok (mask, sc_add sp mask, g) end = Ok (mask, sp', g1)).
    { destruct (zip inputs kis); [|unfold random, Scalar.random]; rewrite scalar_into_from; cbn [obind]; eexists _, _, _; reflexivity. }
    destruct Hmask as (mask & sp' & g1 & ->). cbn [obind].
    destruct (sign_input_total g1 x I PH mask msg_hash Hx) as (cl & po & g2 & -> & Hok). cbn [obind].
    destruct (IH kis ltac:(cbn in Hl; lia) g2 sp') as (res & g3 & -> & HF). cbn [obind].
    exists ((cl, po) :: res), g3. split; [reflexivity|]. constructor; assumption.
Qed.

Lemma sign_total g inputs sum_outputs msg_hash : Forall signer_ok inputs ->
  exists res g', sign g inputs (Scalar.from sum_outputs) msg_hash = Ok (res, g') /\ Forall2 signed_ok inputs res.
Proof.
  intros Hin. destruct (key_images_loop_total inputs) as [kis Hk]; [eapply list.Forall_impl; [exact Hin|]; intros x [H _]; exact H|].
  unfold sign. rewrite Hk. cbn [obind]. apply sign_loop_total; [exact Hin|]. apply key_images_spec, list.Forall2_length in Hk. lia.
Qed.
End Total.
