(* ===== verification/ClsagMultisig.v ===== *)
(** [ringct/clsag/src/multisig.rs]: CLSAG as an algorithm of [modular-frost].
    The transcripts ([flexible-transcript]), the points of prime order
    ([dalek_ff_group]) and what the algorithm is given of a threshold key
    ([dkg]'s [ThresholdView], [modular-frost]) are parameters.  The buffer which
    the sender and the receiver of the mask share is a state of its own, passed
    along; what an error leaves behind is returned with it. *)

From Stdlib Require Import ZArith Lia.
From stdpp Require Import base list strings numbers gmap.
From S2P Require Import Prelude Dalek MoneroIo Ed25519 Clsag ClsagSign.

(** [RecommendedTranscript] *)
Class Transcripts := {
  transcript : Type;
  transcript_new : bytes -> transcript;
  domain_separate : bytes -> transcript -> transcript;
  append_message : bytes -> bytes -> transcript -> transcript;
  challenge : bytes -> transcript -> bytes * transcript;
  rng_seed : bytes -> transcript -> bytes * transcript
}.

(** [Participant], [FrostError], and the encoding of a point of prime order,
    [dfg::EdwardsPoint::from_bytes] *)
Class Frost {D : Dalek} := {
  Participant : Type;
  participant_to_bytes : Participant -> bytes;
  FrostError : Type;
  InternalError : string -> FrostError;
  dfg_from_bytes : bytes -> option EdwardsPoint
}.

Class FrostLaws {D : Dalek} (F : Frost) : Prop := {
  dfg_free : forall b p, dfg_from_bytes b = Some p -> ed_is_torsion_free p = true;
  dfg_compress : forall p, ed_is_torsion_free p = true -> dfg_from_bytes (ed_compress p) = Some p
}.

(** What [ThresholdView]'s methods return *)
Record ThresholdView {D : Dalek} {F : Frost} := mk_view {
  group_key : EdwardsPoint;
  view_scalar : DScalar;
  view_offset : DScalar;
  interpolation_factor : Participant -> option DScalar;
  verification_share : Participant -> EdwardsPoint;
  secret_share : DScalar
}.

Module ClsagMultisig.
Section Ops.
Context {D : Dalek} {K : Keccak} {R : Rand} {T : Transcripts} {F : Frost}.

(** What the signers bind the ring to *)
Definition transcript_member {E} (t : transcript) (x : nat * (Point * Point)) : outcome E transcript :=
  let (i, pair) := x in
  let? i := if (i <=? 255)%nat then Ok (Z.of_nat i) else Panic in
  Ok (append_message (bstr "commitment") (CompressedPoint.to_bytes (Point.compress (snd pair)))
        (append_message (bstr "key") (CompressedPoint.to_bytes (Point.compress (fst pair)))
           (append_message (bstr "member") [i] t))).

Definition context_transcript {E} (self : ClsagContext.t) (t : transcript) : outcome E transcript :=
  let decoys := ClsagContext.decoys self in
  ofold transcript_member (append_message (bstr "signer_index") [Decoys.signer_index decoys] t)
    (enumerate (Decoys.ring decoys)).

(** The buffer the mask is sent with; [send], and [recv] with the drop of the
    receiver *)
Definition channel : Type := option DScalar.
Definition send (mask : DScalar) (buf : channel) : channel := Some mask.
Definition recv (buf : channel) : option DScalar * channel := (buf, None).

(** [struct ClsagAddendum] *)
Record ClsagAddendum := mk_addendum { key_image_share : EdwardsPoint }.

Definition write_addendum (self : ClsagAddendum) : bytes := ed_compress (key_image_share self).

Record Interim := mk_interim { i_p : DScalar; i_c : DScalar; i_clsag : Clsag.t; i_pseudo_out : EdwardsPoint }.

(** [struct ClsagMultisig]; [mask_recv] is whether the receiver was taken. *)
Record t := mk {
  transcript_of : transcript;
  key_image_generator : EdwardsPoint;
  key_image_shares : gmap bytes EdwardsPoint;
  image : EdwardsPoint;
  context : ClsagContext.t;
  mask_recv : bool;
  mask : option DScalar;
  msg_hash : option bytes;
  interim : option Interim
}.

Definition with_transcript (self : t) (transcript_of : transcript) : t :=
  mk transcript_of (key_image_generator self) (key_image_shares self) (image self) (context self) (mask_recv self) (mask self)
    (msg_hash self) (interim self).
Definition with_mask (self : t) (transcript_of : transcript) (mask : option DScalar) : t :=
  mk transcript_of (key_image_generator self) (key_image_shares self) (image self) (context self) false mask (msg_hash self) (interim self).
Definition with_share (self : t) (transcript_of : transcript) (key : bytes) (share : EdwardsPoint) : t :=
  mk transcript_of (key_image_generator self) (<[key := share]> (key_image_shares self)) (ed_add (image self) share) (context self)
    (mask_recv self) (mask self) (msg_hash self) (interim self).
Definition with_interim (self : t) (transcript_of : transcript) (msg_hash : bytes) (interim : Interim) : t :=
  mk transcript_of (key_image_generator self) (key_image_shares self) (image self) (context self) (mask_recv self) (mask self)
    (Some msg_hash) (Some interim).

(** [ClsagMultisig::new], with the buffer made for the mask *)
Definition new {E} (transcript_of : transcript) (context : ClsagContext.t) : outcome E (t * channel) :=
  let? members := Decoys.signer_ring_members (ClsagContext.decoys context) in
  let? generator := Point.biased_hash (CompressedPoint.to_bytes (Point.compress (fst members))) in
  Ok (mk transcript_of generator ∅ ed_identity context true None None None, None).

Definition nonces (self : t) : list (list EdwardsPoint) := [[ED25519_BASEPOINT_POINT; key_image_generator self]].

Definition preprocess_addendum (self : t) (original_secret_share : DScalar) : ClsagAddendum :=
  mk_addendum (ed_mul original_secret_share (key_image_generator self)).

Definition read_addendum : io_reader ClsagAddendum :=
  let* bs := read_bytes 32 in
  let* share := ok_or_other (dfg_from_bytes bs) "invalid key image" in
  if negb (bytes_eqb (ed_compress share) bs) then rother "non-canonical key image"
  else rret (mk_addendum share).

(** The mask's receiver is taken by the first addendum processed, which the
    offset goes with. *)
Definition take_mask (view : ThresholdView) (buf : channel) (self : t) : outcome FrostError DScalar * (t * channel) :=
  if mask_recv self then
    match context_transcript (E := FrostError) (context self) (domain_separate (bstr "CLSAG") (transcript_of self)) with
    | Ok transcript_of =>
        let (mask, buf) := recv buf in
        match mask with
        | None => (Err (InternalError "CLSAG mask was not provided before process_addendum"), (with_mask self transcript_of None, buf))
        | Some mask =>
            (Ok (view_offset view),
             (with_mask self (append_message (bstr "mask") (sc_to_bytes mask) transcript_of) (Some mask), buf))
        end
    | Err e => (Err e, (self, buf))
    | Panic => (Panic, (self, buf))
    end
  else (Ok sc_ZERO, (self, buf)).

(** The rest of [process_addendum] *)
Definition contribute (view : ThresholdView) (l : Participant) (addendum : ClsagAddendum) (offset : DScalar) (self : t)
  : outcome FrostError unit * t :=
  let transcript_of := append_message (bstr "participant") (participant_to_bytes l) (transcript_of self) in
  let transcript_of := append_message (bstr "key_image_share") (ed_compress (key_image_share addendum)) transcript_of in
  match interpolation_factor view l with
  | None => (Err (InternalError "processing addendum for non-participant"), with_transcript self transcript_of)
  | Some factor =>
      let interpolated_key_image_share :=
        ed_add (ed_mul (view_scalar view) (ed_mul factor (key_image_share addendum))) (ed_mul offset (key_image_generator self)) in
      (Ok tt, with_share self transcript_of (ed_compress (verification_share view l)) interpolated_key_image_share)
  end.

Definition process_addendum (view : ThresholdView) (l : Participant) (addendum : ClsagAddendum) (self : t) (buf : channel)
  : outcome FrostError unit * (t * channel) :=
  match Decoys.signer_ring_members (E := FrostError) (ClsagContext.decoys (context self)) with
  | Ok members =>
      if negb (ed_eqb (group_key view) (fst members))
      then (Err (InternalError "CLSAG is being signed with a distinct key than intended"), (self, buf))
      else
        match take_mask view buf self with
        | (Ok offset, (self, buf)) => let (r, self) := contribute view l addendum offset self in (r, (self, buf))
        | (Err e, s) => (Err e, s)
        | (Panic, s) => (Panic, s)
        end
  | Err e => (Err e, (self, buf))
  | Panic => (Panic, (self, buf))
  end.

(** The functions which can't fail, but panic, are computations of the errors
    of CLSAG. *)
Definition sign_share (view : ThresholdView) (nonce_sums : list (list EdwardsPoint)) (nonces : list DScalar) (msg : bytes) (self : t)
  : outcome ClsagError (DScalar * t) :=
  let (seed, transcript_of) := rng_seed (bstr "decoy_responses") (transcript_of self) in
  let? msg_hash := if (length msg =? 32)%nat then Ok msg else Panic in
  let? mask := expect (mask self) in
  let? sums := index nonce_sums 0 in
  let? A := index sums 0 in
  let? AH := index sums 1 in
  let? (sign_core, _) := Clsag.sign_core (chacha20 seed) (image self) (context self) mask msg_hash A AH in
  let self := with_interim self transcript_of msg_hash
    (mk_interim (Clsag.key_challenge sign_core) (Clsag.challenged_mask sign_core) (Clsag.incomplete_clsag sign_core)
       (Clsag.pseudo_out sign_core)) in
  let? nonce := index nonces 0 in
  Ok (sc_sub nonce (sc_mul (Clsag.key_challenge sign_core) (secret_share view)), self).

Definition verify (self : t) (sum : DScalar) : outcome ClsagError (option (Clsag.t * EdwardsPoint)) :=
  let? interim := expect (interim self) in
  let clsag := i_clsag interim in
  let signer_s := Scalar.from (sc_sub sum (i_c interim)) in
  let? s := Clsag.assign_signer (seq 0 (Z.to_nat Decoys.MAX_RING_SIZE + 1))
              (Z.to_nat (Decoys.signer_index (ClsagContext.decoys (context self)))) signer_s (Clsag.s clsag) in
  let clsag := Clsag.new (Clsag.D clsag) s (Clsag.c1 clsag) in
  let ring := map (fun m => (Point.compress (fst m), Point.compress (snd m))) (Decoys.ring (ClsagContext.decoys (context self))) in
  let? msg_hash := expect (msg_hash self) in
  match Clsag.verify clsag ring (ed_compress (image self)) (ed_compress (i_pseudo_out interim)) msg_hash with
  | Ok _ => Ok (Some (clsag, i_pseudo_out interim))
  | Err _ => Ok None
  | Panic => Panic
  end.

(** The transcript whose challenge is the weight of the second equality *)
Definition weight_transcript (self : t) (verification_share key_image_share rG rH : EdwardsPoint) (p share : DScalar) : transcript :=
  fold_left (fun t x => append_message (bstr (fst x)) (snd x) t)
    [("G"%string, ed_compress ED25519_BASEPOINT_POINT); ("H"%string, ed_compress (key_image_generator self));
     ("xG"%string, ed_compress verification_share); ("xH"%string, ed_compress key_image_share);
     ("rG"%string, ed_compress rG); ("rH"%string, ed_compress rH); ("c"%string, sc_to_bytes p); ("s"%string, sc_to_bytes share)]
    (transcript_new (bstr "monero-oxide v0.1 ClsagMultisig::verify_share")).

Definition verify_share (self : t) (verification_share : EdwardsPoint) (nonces : list (list EdwardsPoint)) (share : DScalar)
  : outcome ClsagError (list (DScalar * EdwardsPoint)) :=
  let? interim := expect (interim self) in
  let? key_image_share := expect (key_image_shares self !! ed_compress verification_share) in
  let? nonces := index nonces 0 in
  let? rG := index nonces 0 in
  let? rH := index nonces 1 in
  let p := i_p interim in
  let (weight, _) := challenge (bstr "weight") (weight_transcript self verification_share key_image_share rG rH p share) in
  let weight := sc_from_bytes_mod_order_wide weight in
  let part_one := [(share, ED25519_BASEPOINT_POINT); (sc_neg sc_ONE, rG); (p, verification_share)] in
  let part_two := [(sc_mul weight share, key_image_generator self); (sc_neg weight, rH); (sc_mul weight p, key_image_share)] in
  Ok (part_one ++ part_two).
End Ops.
End ClsagMultisig.
