(* ===== verification/Bulletproofs.v ===== *)
(** [ringct/bulletproofs/src/lib.rs]: the Bulletproof and Bulletproof+ proofs
    as data, their encodings and the weight clawback; the structs of
    [original/mod.rs], [original/inner_product.rs], [plus/mod.rs],
    [plus/aggregate_range_proof.rs] and [plus/weighted_inner_product.rs] that
    hold a proof. *)

From Stdlib Require Import ZArith Lia.
From stdpp Require Import base list strings numbers.
From S2P Require Import Prelude Dalek MoneroIo Ed25519.

Definition MAX_COMMITMENTS : Z := 16.
Definition COMMITMENT_BITS : Z := 64.
(** [COMMITMENT_BITS.ilog2()] *)
Definition LOG_COMMITMENT_BITS : Z := Z.log2 COMMITMENT_BITS.
Definition MAX_LR : Z := Z.log2 MAX_COMMITMENTS + LOG_COMMITMENT_BITS.

Section Data.
Context {D : Dalek}.

Record IpProof := mk_IpProof {
  ip_L : list CompressedPoint;
  ip_R : list CompressedPoint;
  ip_a : DScalar;
  ip_b : DScalar
}.

Record OriginalProof := mk_OriginalProof {
  bp_A : CompressedPoint;
  bp_S : CompressedPoint;
  bp_T1 : CompressedPoint;
  bp_T2 : CompressedPoint;
  bp_tau_x : DScalar;
  bp_mu : DScalar;
  bp_t_hat : DScalar;
  bp_ip : IpProof
}.

Record WipProof := mk_WipProof {
  wip_L : list CompressedPoint;
  wip_R : list CompressedPoint;
  wip_A : CompressedPoint;
  wip_B : CompressedPoint;
  wip_r_answer : DScalar;
  wip_s_answer : DScalar;
  wip_delta_answer : DScalar
}.

Record PlusProof := mk_PlusProof {
  bpp_A : CompressedPoint;
  bpp_wip : WipProof
}.

Inductive Bulletproof :=
| Original (bp : OriginalProof)
| Plus (bp : PlusProof).

(** [Scalar::read(r)?.into()] *)
Definition read_dscalar : io_reader DScalar :=
  let* s := Scalar.read in rlift (Scalar.into s).

(** [w.write_all(&scalar.to_bytes())] *)
Definition write_dscalar (s : DScalar) : bytes := sc_to_bytes s.
End Data.

Module Bulletproof.
(** [bp_fields] *)
Definition bp_fields (plus : bool) : Z := if plus then 6 else 9.

(** The [while] loop of [calculate_clawback]; [fuel] bounds the doublings,
    and [calculate_clawback_closed] shows it is enough. *)
Fixpoint pad_loop {E} (fuel : nat) (n_outputs LR_len n_padded_outputs : Z) : outcome E (Z * Z) :=
  if n_padded_outputs <? Z.min n_outputs MAX_COMMITMENTS then
    match fuel with
    | O => Panic
    | S fuel' =>
        let LR_len := LR_len + 1 in
        pad_loop fuel' n_outputs LR_len (Z.shiftl 1 LR_len)
    end
  else Ok (LR_len, n_padded_outputs).

(** [calculate_clawback]: the subtraction underflows in a checked build. *)
Definition calculate_clawback {E} (plus : bool) (n_outputs : Z) : outcome E (Z * Z) :=
  let? (LR_len, n_padded_outputs) := pad_loop 64 n_outputs 0 1 in
  let LR_len := LR_len + LOG_COMMITMENT_BITS in
  if 2 <? n_padded_outputs then
    let fields := bp_fields plus in
    let base := ((fields + 2 * (LOG_COMMITMENT_BITS + 1)) * 32) / 2 in
    let size := (fields + 2 * LR_len) * 32 in
    if base * n_padded_outputs <? size then Panic
    else Ok ((base * n_padded_outputs - size) * 4 / 5, LR_len)
  else Ok (0, LR_len).

Section Ops.
Context {D : Dalek}.

(** [write_core] *)
Definition write_core (self : Bulletproof) (specific_write_vec : list CompressedPoint -> bytes) : bytes :=
  match self with
  | Original bp =>
      CompressedPoint.write (bp_A bp) ++ CompressedPoint.write (bp_S bp) ++
      CompressedPoint.write (bp_T1 bp) ++ CompressedPoint.write (bp_T2 bp) ++
      write_dscalar (bp_tau_x bp) ++ write_dscalar (bp_mu bp) ++
      specific_write_vec (ip_L (bp_ip bp)) ++ specific_write_vec (ip_R (bp_ip bp)) ++
      write_dscalar (ip_a (bp_ip bp)) ++ write_dscalar (ip_b (bp_ip bp)) ++
      write_dscalar (bp_t_hat bp)
  | Plus bp =>
      CompressedPoint.write (bpp_A bp) ++
      CompressedPoint.write (wip_A (bpp_wip bp)) ++ CompressedPoint.write (wip_B (bpp_wip bp)) ++
      write_dscalar (wip_r_answer (bpp_wip bp)) ++ write_dscalar (wip_s_answer (bpp_wip bp)) ++
      write_dscalar (wip_delta_answer (bpp_wip bp)) ++
      specific_write_vec (wip_L (bpp_wip bp)) ++ specific_write_vec (wip_R (bpp_wip bp))
  end.

Definition signature_write (self : Bulletproof) : bytes :=
  write_core self (write_raw_vec CompressedPoint.write).

(** [write], also [serialize] *)
Definition write (self : Bulletproof) : bytes :=
  write_core self (write_vec CompressedPoint.write).

(** [read] *)
Definition read : io_reader Bulletproof :=
  let* A := CompressedPoint.read in
  let* S_ := CompressedPoint.read in
  let* T1 := CompressedPoint.read in
  let* T2 := CompressedPoint.read in
  let* tau_x := read_dscalar in
  let* mu := read_dscalar in
  let* L := read_vec CompressedPoint.read (Some MAX_LR) in
  let* R := read_vec CompressedPoint.read (Some MAX_LR) in
  let* a := read_dscalar in
  let* b := read_dscalar in
  let* t_hat := read_dscalar in
  rret (Original (mk_OriginalProof A S_ T1 T2 tau_x mu t_hat (mk_IpProof L R a b))).

(** [read_plus] *)
Definition read_plus : io_reader Bulletproof :=
  let* A := CompressedPoint.read in
  let* wA := CompressedPoint.read in
  let* wB := CompressedPoint.read in
  let* r_answer := read_dscalar in
  let* s_answer := read_dscalar in
  let* delta_answer := read_dscalar in
  let* L := read_vec CompressedPoint.read (Some MAX_LR) in
  let* R := read_vec CompressedPoint.read (Some MAX_LR) in
  rret (Plus (mk_PlusProof A (mk_WipProof L R wA wB r_answer s_answer delta_answer))).
End Ops.
End Bulletproof.

(** ** Codecs *)

#[global] Typeclasses Opaque write_dscalar.

Section Codecs.
Context {D : Dalek} {DL : DalekLaws D}.

#[export] Instance read_dscalar_codec : Codec read_dscalar write_dscalar (fun _ => True).
Proof.
  split.
  - intros s _. apply sc_bytes_array.
  - intros s rest _. unfold read_dscalar.
    erewrite rbind_ok by (apply (codec_rt (r := Scalar.read) (w := Scalar.write) (Scalar.from s)), scalar_from_ok).
    rewrite scalar_into_from. reflexivity.
  - intros bs s rest Hbs H. unfold read_dscalar in H. read_inv1. read_inv1.
    destruct (scalar_into_ok (E := io_error) _ HP) as (t & Ht & Hb'). unfold rlift in H. rewrite Ht in H.
    injection H as -> ->. split; [exact I|]. unfold write_dscalar, Scalar.from in *. rewrite Hb'. reflexivity.
  - unfold read_dscalar. eapply codec_bind_safe; [apply _|]. intros b Hb bs _.
    destruct (scalar_into_ok (E := io_error) _ Hb) as (t & Ht & _). unfold rlift. rewrite Ht.
    split; [exact I|exists []; reflexivity].
Qed.

Definition points_ok (l : list CompressedPoint) : Prop := vec_ok (is_array 32) (Some MAX_LR) l.

Definition bulletproof_ok (plus : bool) (x : Bulletproof) : Prop :=
  match x with
  | Original bp =>
      plus = false /\ is_array 32 (bp_A bp) /\ is_array 32 (bp_S bp) /\ is_array 32 (bp_T1 bp) /\
      is_array 32 (bp_T2 bp) /\ points_ok (ip_L (bp_ip bp)) /\ points_ok (ip_R (bp_ip bp))
  | Plus bp =>
      plus = true /\ is_array 32 (bpp_A bp) /\ is_array 32 (wip_A (bpp_wip bp)) /\
      is_array 32 (wip_B (bpp_wip bp)) /\ points_ok (wip_L (bpp_wip bp)) /\ points_ok (wip_R (bpp_wip bp))
  end.

Lemma write_dscalar_bytes s : is_bytes (write_dscalar s).
Proof. apply sc_bytes_array. Qed.

Lemma write_points_bytes l : points_ok l -> is_bytes (write_vec CompressedPoint.write l).
Proof. apply (codec_bytes (r := read_vec CompressedPoint.read (Some MAX_LR))). Qed.

#[local] Hint Resolve write_dscalar_bytes write_points_bytes : oxide.

#[export] Instance bulletproof_codec : Codec Bulletproof.read Bulletproof.write (bulletproof_ok false).
Proof.
  split.
  - intros [bp|bp]; [|intros [[=] _]]. intros (_ & HA & HS & HT1 & HT2 & HL & HR).
    unfold Bulletproof.write, Bulletproof.write_core. bytes_tac.
  - intros [[A S_ T1 T2 tau_x mu t_hat [L R a b]]|bp] rest; [|intros [[=] _]].
    intros (_ & HA & HS & HT1 & HT2 & HL & HR).
    unfold Bulletproof.write, Bulletproof.write_core, Bulletproof.read. cbn in *. read_run. reflexivity.
  - intros bs x rest Hbs H. unfold Bulletproof.read in H. read_inv.
    split; [split_and!; assumption || reflexivity|]. unfold Bulletproof.write. cbn.
    rewrite <- !app_assoc. reflexivity.
  - unfold Bulletproof.read. safe_tac.
Qed.

#[export] Instance bulletproof_plus_codec :
  Codec Bulletproof.read_plus Bulletproof.write (bulletproof_ok true).
Proof.
  split.
  - intros [bp|bp]; [intros [[=] _]|]. intros (_ & HA & HwA & HwB & HL & HR).
    unfold Bulletproof.write, Bulletproof.write_core. bytes_tac.
  - intros [bp|[A [L R wA wB r s d]]] rest; [intros [[=] _]|].
    intros (_ & HA & HwA & HwB & HL & HR).
    unfold Bulletproof.write, Bulletproof.write_core, Bulletproof.read_plus. cbn in *. read_run. reflexivity.
  - intros bs x rest Hbs H. unfold Bulletproof.read_plus in H. read_inv.
    split; [split_and!; assumption || reflexivity|]. unfold Bulletproof.write. cbn.
    rewrite <- !app_assoc. reflexivity.
  - unfold Bulletproof.read_plus. safe_tac.
Qed.
End Codecs.

(** ** The clawback *)

Section Clawback.
(** The least power of two holding the outputs the clawback counts *)
Definition padded_outputs (n_outputs : Z) : Z := 2 ^ Z.log2_up (Z.min n_outputs MAX_COMMITMENTS).

Lemma clawback_cases {E} plus n : 0 <= n ->
  Bulletproof.calculate_clawback (E := E) plus n =
    Bulletproof.calculate_clawback plus (Z.min n MAX_COMMITMENTS) /\
  padded_outputs n = padded_outputs (Z.min n MAX_COMMITMENTS).
Proof.
  intros Hn. unfold Bulletproof.calculate_clawback, padded_outputs.
  assert (Hm : Z.min (Z.min n MAX_COMMITMENTS) MAX_COMMITMENTS = Z.min n MAX_COMMITMENTS) by lia.
  rewrite Hm. split; [|reflexivity].
  assert (Hp : forall f a b, Bulletproof.pad_loop (E := E) f n a b = Bulletproof.pad_loop f (Z.min n MAX_COMMITMENTS) a b).
  { induction f as [|f IH]; intros a b; cbn [Bulletproof.pad_loop]; rewrite Hm; [reflexivity|]. cbv zeta. rewrite IH. reflexivity. }
  rewrite Hp. reflexivity.
Qed.

Lemma clawback_total (plus : bool) (n : Z) : 0 <= n ->
  exists c lr, 0 <= c /\ forall E, Bulletproof.calculate_clawback (E := E) plus n = Ok (c, lr).
Proof.
  intros Hn. assert (Hc : exists k, (k <= 16)%nat /\ Z.min n MAX_COMMITMENTS = Z.of_nat k)
    by (exists (Z.to_nat (Z.min n MAX_COMMITMENTS)); unfold MAX_COMMITMENTS; lia).
  destruct Hc as (k & Hk & He).
  assert (H : exists c lr, 0 <= c /\ forall E, Bulletproof.calculate_clawback (E := E) plus (Z.of_nat k) = Ok (c, lr)).
  { clear He. do 17 (destruct k as [|k]; [destruct plus; do 2 eexists; (split; [|intros E; vm_compute; reflexivity]); discriminate|]). lia. }
  destruct H as (c & lr & H0 & H). exists c, lr. split; [exact H0|]. intros E.
  destruct (clawback_cases (E := E) plus n Hn) as [-> _]. rewrite He. apply H.
Qed.

(** [Bulletproof::calculate_clawback] terminates without underflow for
    every amount of outputs, pads the outputs (at most 16 of them) to a power
    of two [p], yields [log2 p + 6] L/R terms, and four fifths of what [p]
    single-output proofs' share would weigh beyond the aggregate's size. *)
Theorem calculate_clawback_closed (plus : bool) (n : Z) : 0 <= n ->
  let p := padded_outputs n in
  let fields := if plus then 6 else 9 in
  let size := (fields + 2 * (Z.log2 p + 6)) * 32 in
  let base := (fields + 14) * 16 in
  Bulletproof.calculate_clawback (E := io_error) plus n =
    Ok (if p <=? 2 then 0 else (base * p - size) * 4 / 5, Z.log2 p + 6) /\
  (2 < p -> size <= base * p) /\ Z.log2 p + 6 <= MAX_LR.
Proof.
  intros Hn. destruct (clawback_cases (E := io_error) plus n Hn) as [-> ->].
  assert (Hr : 0 <= Z.min n MAX_COMMITMENTS <= 16) by (unfold MAX_COMMITMENTS; lia).
  remember (Z.min n MAX_COMMITMENTS) as m eqn:Hm. clear Hm Hn n.
  assert (Hc : exists k, (k <= 16)%nat /\ m = Z.of_nat k) by (exists (Z.to_nat m); lia).
  destruct Hc as (k & Hk & ->). clear Hr.
  do 17 (destruct k as [|k]; [destruct plus; vm_compute; repeat split; intros; discriminate|]).
  lia.
Qed.
End Clawback.

Lemma calculate_clawback_closed_witness :
  0 <= 5 /\ Bulletproof.calculate_clawback (E := io_error) true 5 = Ok (1433, 9) /\
  fst (1433, 9) = (((6 + 14) * 16 * 8 - (6 + 2 * 9) * 32) * 4 / 5).
Proof.
  split; [lia|]. split; [|vm_compute; reflexivity].
  destruct (calculate_clawback_closed true 5) as [-> _]; [lia|]. vm_compute. reflexivity.
Defined.
