(* ===== verification/BpCore.v ===== *)
(** What Bulletproofs and Bulletproofs+ share
    ([ringct/bulletproofs/src/core.rs], [scalar_vector.rs], [point_vector.rs],
    [batch_verifier.rs] and [ringct/bulletproofs/generators/src/lib.rs]):
    vectors of scalars and points, the generators, and the batch verifier.
    The [debug_assert]s are omitted; those which could fail are theorems. *)

From Stdlib Require Import ZArith Lia.
From stdpp Require Import base list strings numbers.
From S2P Require Import Prelude Dalek MoneroIo Ed25519 Clsag Bulletproofs.

(** ** [core.rs] *)

Section Core.
Context {D : Dalek}.

Definition multiexp (pairs : list (DScalar * EdwardsPoint)) : EdwardsPoint :=
  ed_multiscalar_mul (map fst pairs) (map snd pairs).

Definition multiexp_vartime (pairs : list (DScalar * EdwardsPoint)) : EdwardsPoint :=
  ed_multiscalar_mul (map fst pairs) (map snd pairs).

(** The body of the [while] loop of [challenge_products] *)
Definition slot_step {E} (challenge : DScalar * DScalar) (products : list DScalar) (slots : nat) : outcome E (list DScalar) :=
  let? p := index products (slots / 2) in
  let? products := set_at products slots (sc_mul p (fst challenge)) in
  let? p := index products (slots / 2) in
  set_at products (slots - 1) (sc_mul p (snd challenge)).

(** The [while] loop, with at most [fuel] steps *)
Fixpoint slots_loop {E} (fuel : nat) (challenge : DScalar * DScalar) (products : list DScalar) (slots : nat)
  : outcome E (list DScalar) :=
  if (slots =? 0)%nat then Ok products
  else
    match fuel with
    | O => Panic
    | S fuel =>
        let? products := slot_step challenge products slots in
        slots_loop fuel challenge products (slots - 2)
    end.

(** The [for] loop, from its [j]th challenge *)
Fixpoint challenges_loop {E} (j : nat) (challenges : list (DScalar * DScalar)) (products : list DScalar)
  : outcome E (list DScalar) :=
  match challenges with
  | [] => Ok products
  | challenge :: challenges =>
      let? products := slots_loop (2 ^ (j + 1)) challenge products (2 ^ (j + 1) - 1) in
      challenges_loop (j + 1) challenges products
  end.

Definition challenge_products {E} (challenges : list (DScalar * DScalar)) : outcome E (list DScalar) :=
  let products := repeat sc_ONE (2 ^ length challenges) in
  match challenges with
  | [] => Ok products
  | challenge :: challenges =>
      let? products := set_at products 0 (snd challenge) in
      let? products := set_at products 1 (fst challenge) in
      challenges_loop 1 challenges products
  end.

(** [Scalar::random(rng).into()] *)
Definition random_scalar {E} (g : Clsag.rng) : outcome E (DScalar * Clsag.rng) :=
  let (s, g) := Clsag.random g in
  let? s := Scalar.into s in Ok (s, g).

(** [Scalar::hash(..).into()] *)
Definition hash_scalar {K : Keccak} {E} (data : bytes) : outcome E DScalar :=
  let? s := Scalar.hash data in Scalar.into s.

(** [INV_EIGHT.into()] *)
Definition inv_eight {E} : outcome E DScalar := Scalar.into Scalar.INV_EIGHT.

(** The static [MONERO_H] *)
Definition MONERO_H {E} : outcome E EdwardsPoint := expect (CompressedPoint.decompress CompressedPoint.H).

(** [CompressedPoint::decompress(&p).map(|p| EdwardsPoint::mul_by_cofactor(&p.into()))] *)
Definition decomp_mul_cofactor (p : CompressedPoint) : option EdwardsPoint :=
  option_map ed_mul_by_cofactor (CompressedPoint.decompress p).
End Core.

(** ** [scalar_vector.rs] *)

Module ScalarVector.
Section Ops.
Context {D : Dalek}.

Definition add_scalar (self : list DScalar) (scalar : DScalar) : list DScalar := map (fun s => sc_add s scalar) self.
Definition sub_scalar (self : list DScalar) (scalar : DScalar) : list DScalar := map (fun s => sc_sub s scalar) self.
Definition mul_scalar (self : list DScalar) (scalar : DScalar) : list DScalar := map (fun s => sc_mul s scalar) self.

(** The elements [other] has none for stay as they are. *)
Fixpoint zip_mut (f : DScalar -> DScalar -> DScalar) (self other : list DScalar) : list DScalar :=
  match self, other with
  | s :: self, o :: other => f s o :: zip_mut f self other
  | _, _ => self
  end.

Definition add (self other : list DScalar) : list DScalar := zip_mut sc_add self other.
Definition sub (self other : list DScalar) : list DScalar := zip_mut sc_sub self other.
Definition mul (self other : list DScalar) : list DScalar := zip_mut sc_mul self other.

Definition mul_points (self : list DScalar) (b : list EdwardsPoint) : EdwardsPoint := multiexp (zip self b).

Definition new (len : nat) : list DScalar := repeat sc_ZERO len.

(** [res[i - 1] * x] for each [i] left *)
Fixpoint powers_loop (x last : DScalar) (n : nat) : list DScalar :=
  match n with
  | O => []
  | S n => let next := sc_mul last x in next :: powers_loop x next n
  end.

Definition powers (x : DScalar) (len : nat) : list DScalar := take len (sc_ONE :: x :: powers_loop x x (len - 2)).

Definition sum (self : list DScalar) : DScalar := foldl sc_add sc_ZERO self.

Definition inner_product (self vector : list DScalar) : DScalar := sum (mul self vector).

Definition weighted_inner_product (self vector y : list DScalar) : DScalar := sum (mul (mul self vector) y).

Definition split {A} (self : list A) : list A * list A := (take (length self / 2) self, drop (length self / 2) self).
End Ops.
End ScalarVector.

(** ** [point_vector.rs] *)

Module PointVector.
Section Ops.
Context {D : Dalek}.

Definition mul_vec {E} (self : list EdwardsPoint) (vector : list DScalar) : outcome E (list EdwardsPoint) :=
  if negb (length self =? length vector)%nat then Panic else Ok (zip_with (fun val s => ed_mul s val) self vector).

Definition split (self : list EdwardsPoint) : list EdwardsPoint * list EdwardsPoint :=
  (take (length self / 2) self, drop (length self / 2) self).
End Ops.
End PointVector.

(** ** Generators *)

Module Generators.
Section Ops.
Context {D : Dalek} {K : Keccak}.
Record t := mk { G : list EdwardsPoint; H : list EdwardsPoint }.

Definition MAX_MN : Z := MAX_COMMITMENTS * COMMITMENT_BITS.

(** The generators of one iteration: that of [H] and that of [G] *)
Definition pair {E} (preimage : bytes) (i : nat) : outcome E (EdwardsPoint * EdwardsPoint) :=
  let i := 2 * Z.of_nat i in
  let? h := Point.biased_hash (keccak256 (preimage ++ VarInt.write i)) in
  let? g := Point.biased_hash (keccak256 (preimage ++ VarInt.write (i + 1))) in
  Ok (h, g).

Definition bulletproofs_generators {E} (dst : bytes) : outcome E t :=
  let preimage := CompressedPoint.to_bytes CompressedPoint.H ++ dst in
  let? pairs := each (pair preimage) (seq 0 (Z.to_nat MAX_MN)) in
  Ok (mk (map snd pairs) (map fst pairs)).
End Ops.
End Generators.

(** The bytes of ["bulletproof"] and ["bulletproof_plus"] *)
Definition BULLETPROOF_DST : bytes := [98; 117; 108; 108; 101; 116; 112; 114; 111; 111; 102].
Definition BULLETPROOF_PLUS_DST : bytes := BULLETPROOF_DST ++ [95; 112; 108; 117; 115].

(** The statics [original::GENERATORS] and [plus::GENERATORS] *)
Section Statics.
Context {D : Dalek} {K : Keccak}.
Definition GENERATORS {E} : outcome E Generators.t := Generators.bulletproofs_generators BULLETPROOF_DST.
Definition PLUS_GENERATORS {E} : outcome E Generators.t := Generators.bulletproofs_generators BULLETPROOF_PLUS_DST.
End Statics.

(** ** [batch_verifier.rs] *)

Module InternalBatchVerifier.
Section Ops.
Context {D : Dalek}.
Record t := mk {
  g : DScalar;
  h : DScalar;
  g_bold : list DScalar;
  h_bold : list DScalar;
  other : list (DScalar * EdwardsPoint)
}.

Definition default_ : t := mk sc_ZERO sc_ZERO [] [] [].

(** [generators[i]] for each scalar *)
Definition verify {E} (self : t) (G H : EdwardsPoint) (generators : Generators.t) : outcome E bool :=
  if (length (Generators.G generators) <? length (g_bold self))%nat || (length (Generators.H generators) <? length (h_bold self))%nat
  then Panic
  else
    let scalars := [g self; h self] ++ g_bold self ++ h_bold self ++ map fst (other self) in
    let points := [G; H] ++ take (length (g_bold self)) (Generators.G generators) ++
                  take (length (h_bold self)) (Generators.H generators) ++ map snd (other self) in
    Ok (ed_is_identity (ed_multiscalar_mul scalars points)).

(** The mutations *)
Definition add_g (self : t) (x : DScalar) : t := mk (sc_add (g self) x) (h self) (g_bold self) (h_bold self) (other self).
Definition add_h (self : t) (x : DScalar) : t := mk (g self) (sc_add (h self) x) (g_bold self) (h_bold self) (other self).
Definition sub_h (self : t) (x : DScalar) : t := mk (g self) (sc_sub (h self) x) (g_bold self) (h_bold self) (other self).
Definition push (self : t) (x : DScalar * EdwardsPoint) : t := mk (g self) (h self) (g_bold self) (h_bold self) (other self ++ [x]).
Definition with_g_bold (self : t) (g_bold : list DScalar) : t := mk (g self) (h self) g_bold (h_bold self) (other self).
Definition with_h_bold (self : t) (h_bold : list DScalar) : t := mk (g self) (h self) (g_bold self) h_bold (other self).

(** [self.g_bold[i] += x(i)] for each [i] below [n], and so on *)
Definition update_each {E} (op : DScalar -> DScalar -> DScalar) (l : list DScalar) (n : nat) (x : nat -> outcome E DScalar)
  : outcome E (list DScalar) :=
  ofold (fun l i =>
    let? d := x i in
    let? s := index l i in
    set_at l i (op s d)) l (seq 0 n).

(** [while l.len() < n { l.push(Scalar::ZERO) }] *)
Definition extend (l : list DScalar) (n : nat) : list DScalar := l ++ repeat sc_ZERO (n - length l).
End Ops.
End InternalBatchVerifier.

Module BatchVerifier.
Section Ops.
Context {D : Dalek} {K : Keccak}.
Import InternalBatchVerifier.

(** [BulletproofsBatchVerifier::verify] and [BulletproofsPlusBatchVerifier::verify] *)
Definition verify_original {E} (self : InternalBatchVerifier.t) : outcome E bool :=
  let? h := MONERO_H in
  let? generators := GENERATORS in
  verify self ED25519_BASEPOINT_POINT h generators.

Definition verify_plus {E} (self : InternalBatchVerifier.t) : outcome E bool :=
  let? h := MONERO_H in
  let? generators := PLUS_GENERATORS in
  verify self h ED25519_BASEPOINT_POINT generators.

(** [struct BatchVerifier] *)
Record t := mk { original : InternalBatchVerifier.t; plus : InternalBatchVerifier.t }.

Definition new : t := mk default_ default_.

Definition verify {E} (self : t) : outcome E bool :=
  let? o := verify_original (original self) in
  if o : bool then verify_plus (plus self) else Ok false.
End Ops.
End BatchVerifier.
