(* ===== verification/BpOriginal.v ===== *)
(** Bulletproofs: the inner-product argument
    ([ringct/bulletproofs/src/original/inner_product.rs]) and the aggregate
    range proof ([original/mod.rs]), proving and verifying.  The proofs
    themselves are data of [Bulletproofs]. *)

From Stdlib Require Import ZArith Lia.
From stdpp Require Import base list strings numbers.
From S2P Require Import Prelude Dalek MoneroIo Ed25519 Clsag Bulletproofs BpCore.

(** The bits of an amount *)
Definition BITS : nat := Z.to_nat COMMITMENT_BITS.

(** [while next_pow_of_2 < i { next_pow_of_2 <<= 1 }], with at most [fuel] shifts *)
Fixpoint pow_of_2_loop (fuel next_pow_of_2 i : nat) : nat :=
  if (next_pow_of_2 <? i)%nat then
    match fuel with O => next_pow_of_2 | S fuel => pow_of_2_loop fuel (2 * next_pow_of_2) i end
  else next_pow_of_2.

Definition padded_pow_of_2 (i : nat) : nat := pow_of_2_loop i 1 i.

(** [while (1 << lr_len) < n { lr_len += 1 }] *)
Fixpoint lr_len_loop (fuel lr_len n : nat) : nat :=
  if (2 ^ lr_len <? n)%nat then
    match fuel with O => lr_len | S fuel => lr_len_loop fuel (S lr_len) n end
  else lr_len.

(** ** The inner-product argument *)

Inductive IpError : Type :=
| IncorrectAmountOfGenerators
| DifferingLrLengths
| InvalidPoint.

Module IpWitness.
Section Ops.
Context {D : Dalek}.
Record t := mk { a : list DScalar; b : list DScalar }.

Definition new (a b : list DScalar) : option t :=
  if (length a =? 0)%nat || negb (length a =? length b)%nat then None
  else if negb (padded_pow_of_2 (length a) =? length a)%nat then None
  else Some (mk a b).
End Ops.
End IpWitness.

Module IpStatement.
Import ScalarVector InternalBatchVerifier.
Section Ops.
Context {D : Dalek} {K : Keccak}.
Record t := mk { h_bold_weights : list DScalar; u : DScalar }.

Definition new_without_P_transcript (h_bold_weights : list DScalar) (u : DScalar) : t := mk h_bold_weights u.

Definition transcript_L_R {E} (transcript : DScalar) (L R : CompressedPoint) : outcome E DScalar :=
  hash_scalar (sc_to_bytes transcript ++ CompressedPoint.to_bytes L ++ CompressedPoint.to_bytes R).

(** What the [while] loop of [prove] keeps *)
Record prover := mk_prover {
  transcript : DScalar;
  pg : list EdwardsPoint;
  ph : list EdwardsPoint;
  pa : list DScalar;
  pb : list DScalar;
  L_vec : list CompressedPoint;
  R_vec : list CompressedPoint
}.

(** The body of the loop *)
Definition prove_round {E} (u : EdwardsPoint) (s : prover) : outcome E prover :=
  let? inv := inv_eight in
  let (a1, a2) := split (pa s) in
  let (b1, b2) := split (pb s) in
  let (g_bold1, g_bold2) := PointVector.split (pg s) in
  let (h_bold1, h_bold2) := PointVector.split (ph s) in
  let cl := inner_product a1 b2 in
  let cr := inner_product a2 b1 in
  let L := multiexp_vartime (zip a1 g_bold2 ++ zip b2 h_bold1 ++ [(cl, u)]) in
  let L := ed_compress (ed_mul inv L) in
  let R := multiexp_vartime (zip a2 g_bold1 ++ zip b1 h_bold2 ++ [(cr, u)]) in
  let R := ed_compress (ed_mul inv R) in
  let? x := transcript_L_R (transcript s) L R in
  let x_inv := sc_invert x in
  let g_bold := zip_with (fun a b => multiexp_vartime [(x_inv, a); (x, b)]) g_bold1 g_bold2 in
  let h_bold := zip_with (fun a b => multiexp_vartime [(x, a); (x_inv, b)]) h_bold1 h_bold2 in
  let a := add (mul_scalar a1 x) (mul_scalar a2 x_inv) in
  let b := add (mul_scalar b1 x_inv) (mul_scalar b2 x) in
  Ok (mk_prover x g_bold h_bold a b (L_vec s ++ [L]) (R_vec s ++ [R])).

Fixpoint prove_loop {E} (fuel : nat) (u : EdwardsPoint) (s : prover) : outcome E prover :=
  if (1 <? length (pg s))%nat then
    match fuel with
    | O => Panic
    | S fuel =>
        let? s := prove_round u s in prove_loop fuel u s
    end
  else Ok s.

Definition prove (self : t) (transcript : DScalar) (witness : IpWitness.t) : outcome IpError IpProof :=
  let n := length (IpWitness.a witness) in
  let? generators := GENERATORS in
  let? _ := if (length (Generators.G generators) <? n)%nat then Panic else Ok tt in
  let? _ := if (length (Generators.H generators) <? n)%nat then Panic else Ok tt in
  let g_bold_slice := take n (Generators.G generators) in
  let h_bold_slice := take n (Generators.H generators) in
  let? h := MONERO_H in
  let u := ed_mul (u self) h in
  if negb (length (h_bold_weights self) =? length g_bold_slice)%nat then Err IncorrectAmountOfGenerators
  else
    let? h_bold := PointVector.mul_vec h_bold_slice (h_bold_weights self) in
    let? s := prove_loop n u
      (mk_prover transcript g_bold_slice h_bold (IpWitness.a witness) (IpWitness.b witness) [] []) in
    let? a := index (pa s) 0 in
    let? b := index (pb s) 0 in
    Ok (mk_IpProof (L_vec s) (R_vec s) a b).

(** The challenges of [L] and [R] *)
Fixpoint challenges {E} (transcript : DScalar) (LR : list (CompressedPoint * CompressedPoint)) : outcome E (list DScalar) :=
  match LR with
  | [] => Ok []
  | (L, R) :: LR =>
      let? x := transcript_L_R transcript L R in
      let? xs := challenges x LR in
      Ok (x :: xs)
  end.

(** The loop which queues [L] and [R] *)
Fixpoint queue_LR (verifier : InternalBatchVerifier.t) (verifier_weight : DScalar)
  (l : list ((DScalar * DScalar) * (CompressedPoint * CompressedPoint))) : outcome IpError InternalBatchVerifier.t :=
  match l with
  | [] => Ok verifier
  | ((x, x_inv), (L, R)) :: l =>
      let? L := ok_or (decomp_mul_cofactor L) InvalidPoint in
      let? R := ok_or (decomp_mul_cofactor R) InvalidPoint in
      let verifier := push verifier (sc_mul verifier_weight (sc_mul x x), L) in
      let verifier := push verifier (sc_mul verifier_weight (sc_mul x_inv x_inv), R) in
      queue_LR verifier verifier_weight l
  end.

Definition verify (self : t) (verifier : InternalBatchVerifier.t) (ip_rows : nat) (transcript verifier_weight : DScalar)
  (proof : IpProof) : outcome IpError InternalBatchVerifier.t :=
  let? generators := GENERATORS in
  let? _ := if (length (Generators.G generators) <? ip_rows)%nat then Panic else Ok tt in
  let? _ := if (length (Generators.H generators) <? ip_rows)%nat then Panic else Ok tt in
  let lr_len := lr_len_loop ip_rows 0 ip_rows in
  if negb (length (ip_L proof) =? lr_len)%nat then Err IncorrectAmountOfGenerators
  else if negb (length (ip_L proof) =? length (ip_R proof))%nat then Err DifferingLrLengths
  else
    let? xs := challenges transcript (zip (ip_L proof) (ip_R proof)) in
    let x_invs := sc_batch_invert xs in
    let? verifier := queue_LR verifier verifier_weight (zip (zip xs x_invs) (zip (ip_L proof) (ip_R proof))) in
    let? product_cache := challenge_products (zip xs x_invs) in
    let c := sc_mul (ip_a proof) (ip_b proof) in
    let? g_bold := update_each sc_sub (g_bold verifier) ip_rows (fun i =>
      let? p := index product_cache i in
      Ok (sc_mul (sc_mul verifier_weight p) (ip_a proof))) in
    let? h_bold := update_each sc_sub (h_bold verifier) ip_rows (fun i =>
      let? p := index product_cache (length product_cache - 1 - i) in
      let? w := index (h_bold_weights self) i in
      Ok (sc_mul (sc_mul (sc_mul verifier_weight p) (ip_b proof)) w)) in
    Ok (sub_h (with_h_bold (with_g_bold verifier g_bold) h_bold) (sc_mul (sc_mul verifier_weight c) (u self))).
End Ops.
End IpStatement.

(** ** The aggregate range proof *)

Module OriginalStatement.
Import ScalarVector InternalBatchVerifier.
Section Ops.
Context {D : Dalek} {K : Keccak}.

(** [AggregateRangeStatement] *)
Definition t : Type := list EdwardsPoint.

(** [AggregateRangeStatement::new], and [AggregateRangeWitness::new] *)
Definition new (commitments : list EdwardsPoint) : option t :=
  if (length commitments =? 0)%nat || (MAX_COMMITMENTS <? len commitments) then None else Some commitments.

Definition witness_new (commitments : list Commitment.t) : option (list Commitment.t) :=
  if (length commitments =? 0)%nat || (MAX_COMMITMENTS <? len commitments) then None else Some commitments.

Definition initial_transcript {E} (self : t) : outcome E (DScalar * list EdwardsPoint) :=
  let? inv := inv_eight in
  let V := map (ed_mul inv) self in
  let? transcript := hash_scalar (concat (map ed_compress V)) in
  Ok (transcript, V).

Definition transcript_A_S {E} (transcript : DScalar) (A S : CompressedPoint) : outcome E (DScalar * DScalar) :=
  let? y := hash_scalar (sc_to_bytes transcript ++ CompressedPoint.to_bytes A ++ CompressedPoint.to_bytes S) in
  let? z := hash_scalar (sc_to_bytes y) in
  Ok (y, z).

Definition transcript_T12 {E} (transcript : DScalar) (T1 T2 : CompressedPoint) : outcome E DScalar :=
  hash_scalar (sc_to_bytes transcript ++ sc_to_bytes transcript ++ CompressedPoint.to_bytes T1 ++ CompressedPoint.to_bytes T2).

Definition transcript_tau_x_mu_t_hat {E} (transcript tau_x mu t_hat : DScalar) : outcome E DScalar :=
  hash_scalar (sc_to_bytes transcript ++ sc_to_bytes transcript ++ sc_to_bytes tau_x ++ sc_to_bytes mu ++ sc_to_bytes t_hat).

(** The loop over the bits of the [i]th amount *)
Definition amount_bits {E} (aL : list DScalar) (i : nat) (amount : Z) : outcome E (list DScalar) :=
  let? (aL, _) := ofold (fun (s : list DScalar * Z) j =>
    let (aL, amount) := s in
    let? aL := set_at aL (i * BITS + j) (sc_from_u64 (Z.land amount 1)) in
    Ok (aL, Z.shiftr amount 1)) (aL, amount) (seq 0 BITS) in
  Ok aL.

(** [A] and [S] *)
Definition vector_commitment {E} (mask : DScalar) (l r : list DScalar) (generators : Generators.t) : outcome E CompressedPoint :=
  let? inv := inv_eight in
  let terms := (mask, ED25519_BASEPOINT_POINT) :: zip l (Generators.G generators) ++ zip r (Generators.H generators) in
  Ok (ed_compress (ed_mul inv (multiexp terms))).

(** [sL] and [sR], drawn in turn *)
Fixpoint random_pairs {E} (n : nat) (rng : Clsag.rng) : outcome E (list (DScalar * DScalar) * Clsag.rng) :=
  match n with
  | O => Ok ([], rng)
  | S n =>
      let? (sL, rng) := random_scalar rng in
      let? (sR, rng) := random_scalar rng in
      let? (pairs, rng) := random_pairs n rng in
      Ok ((sL, sR) :: pairs, rng)
  end.

(** [T1] and [T2] *)
Definition T_commitment {E} (t tau : DScalar) : outcome E CompressedPoint :=
  let? inv := inv_eight in
  let? h := MONERO_H in
  Ok (ed_compress (multiexp [(sc_mul t inv, h); (sc_mul tau inv, ED25519_BASEPOINT_POINT)])).

(** The loops which add to [r[0]] *)
Definition add_z_twos {E} (padded_pow_of_2 : nat) (z twos r0 : list DScalar) : outcome E (list DScalar) :=
  ofold (fun r0 j => ofold (fun r0 i =>
      let? s := index r0 (j * BITS + i) in
      let? z := index z (2 + j) in
      let? two := index twos i in
      set_at r0 (j * BITS + i) (sc_add s (sc_mul z two))) r0 (seq 0 BITS)) r0 (seq 0 padded_pow_of_2).

(** The loop which adds to [tau_x] *)
Definition add_masks {E} (z : list DScalar) (tau_x : DScalar) (witness : list Commitment.t) : outcome E DScalar :=
  ofold (fun tau_x (x : nat * Commitment.t) =>
    let (i, commitment) := x in
    let? z := index z (2 + i) in
    let? mask := Scalar.into (Commitment.mask commitment) in
    Ok (sc_add tau_x (sc_mul z mask))) tau_x (enumerate witness).

Definition prove {E} (self : t) (rng : Clsag.rng) (witness : list Commitment.t)
  : outcome E (option OriginalProof * Clsag.rng) :=
  let? commitments := each Commitment.commit witness in
  if negb ((length self =? length commitments)%nat && forallb (fun x => ed_eqb (fst x) (snd x)) (zip self commitments))
  then Ok (None, rng)
  else
    let? generators := GENERATORS in
    let? (transcript, _) := initial_transcript self in
    let padded_pow_of_2 := padded_pow_of_2 (length witness) in
    let? aL := ofold (fun aL (x : nat * Commitment.t) => amount_bits aL (fst x) (Commitment.amount (snd x)))
      (ScalarVector.new (padded_pow_of_2 * BITS)) (enumerate witness) in
    let aR := sub_scalar aL sc_ONE in
    let? (alpha, rng) := random_scalar rng in
    let? A := vector_commitment alpha aL aR generators in
    let? (pairs, rng) := random_pairs (padded_pow_of_2 * BITS) rng in
    let sL := map fst pairs in
    let sR := map snd pairs in
    let? (rho, rng) := random_scalar rng in
    let? S_ := vector_commitment rho sL sR generators in
    let? (y, z) := transcript_A_S transcript A S_ in
    let transcript := z in
    let z := powers z (3 + padded_pow_of_2) in
    let twos := powers (sc_from_u64 2) BITS in
    let? z1 := index z 1 in
    let l0 := sub_scalar aL z1 in
    let l1 := sL in
    let y_pow_n := powers y (length aR) in
    let r0 := mul (add_scalar aR z1) y_pow_n in
    let r1 := mul sR y_pow_n in
    let? r0 := add_z_twos padded_pow_of_2 z twos r0 in
    let t1 := sc_add (inner_product l0 r1) (inner_product r0 l1) in
    let t2 := inner_product l1 r1 in
    let? (tau_1, rng) := random_scalar rng in
    let? T1 := T_commitment t1 tau_1 in
    let? (tau_2, rng) := random_scalar rng in
    let? T2 := T_commitment t2 tau_2 in
    let? x := transcript_T12 transcript T1 T2 in
    let transcript := x in
    let l := add l0 (mul_scalar l1 x) in
    let r := add r0 (mul_scalar r1 x) in
    let t_hat := inner_product l r in
    let tau_x := sc_mul (sc_add (sc_mul tau_2 x) tau_1) x in
    let? tau_x := add_masks z tau_x witness in
    let mu := sc_add alpha (sc_mul rho x) in
    let y_inv_pow_n := powers (sc_invert y) (length l) in
    let? x_ip := transcript_tau_x_mu_t_hat transcript tau_x mu t_hat in
    let transcript := x_ip in
    let? ip_witness := expect (IpWitness.new l r) in
    let? ip := expect_ok (IpStatement.prove (IpStatement.new_without_P_transcript y_inv_pow_n x_ip) transcript ip_witness) in
    Ok (Some (mk_OriginalProof A S_ T1 T2 tau_x mu t_hat ip), rng).

(** The first equation queued (65) *)
Definition queue_65 {E} (verifier : InternalBatchVerifier.t) (weight : DScalar) (padded_pow_of_2 : nat) (commitments : list EdwardsPoint)
  (tau_x t_hat x : DScalar) (z y_pow_n twos : list DScalar) (T1 T2 : EdwardsPoint) : outcome E InternalBatchVerifier.t :=
  let verifier := add_h verifier (sc_mul weight t_hat) in
  let verifier := add_g verifier (sc_mul weight tau_x) in
  let weight := sc_neg weight in
  let? z1 := index z 1 in
  let? z2 := index z 2 in
  let verifier := add_h verifier (sc_mul (sc_mul weight (sc_sub z1 z2)) (sum y_pow_n)) in
  let? verifier := ofold (fun verifier (x : nat * EdwardsPoint) =>
    let (i, commitment) := x in
    let? z := index z (2 + i) in
    Ok (push verifier (sc_mul weight z, commitment))) verifier (enumerate commitments) in
  let? verifier := ofold (fun verifier i =>
    let? z := index z (3 + i) in
    Ok (sub_h verifier (sc_mul (sc_mul weight z) (sum twos)))) verifier (seq 0 padded_pow_of_2) in
  let verifier := push verifier (sc_mul weight x, T1) in
  Ok (push verifier (sc_mul weight (sc_mul x x), T2)).

(** The second one (66), up to the inner product *)
Definition queue_66 {E} (verifier : InternalBatchVerifier.t) (ip_weight : DScalar) (padded_pow_of_2 ip_rows : nat) (x mu t_hat x_ip : DScalar)
  (z y_inv_pow_n twos : list DScalar) (A S : EdwardsPoint) : outcome E InternalBatchVerifier.t :=
  let verifier := push verifier (ip_weight, A) in
  let verifier := push verifier (sc_mul ip_weight x, S) in
  let? z1 := index z 1 in
  let ip_z := sc_mul ip_weight z1 in
  let? h_bold := update_each sc_add (h_bold verifier) ip_rows (fun _ => Ok ip_z) in
  let neg_ip_z := sc_neg ip_z in
  let? g_bold := update_each sc_add (g_bold verifier) ip_rows (fun _ => Ok neg_ip_z) in
  let? h_bold := ofold (fun h_bold j => ofold (fun h_bold i =>
      let full_i := (j * BITS + i)%nat in
      let? s := index h_bold full_i in
      let? y_inv := index y_inv_pow_n full_i in
      let? z := index z (2 + j) in
      let? two := index twos i in
      set_at h_bold full_i (sc_add s (sc_mul (sc_mul (sc_mul ip_weight y_inv) z) two))) h_bold (seq 0 BITS))
    h_bold (seq 0 padded_pow_of_2) in
  let verifier := with_h_bold (with_g_bold verifier g_bold) h_bold in
  let verifier := add_h verifier (sc_mul (sc_mul ip_weight x_ip) t_hat) in
  Ok (add_g verifier (sc_mul ip_weight (sc_neg mu))).

(** The verifier with the proof queued, [None] when the proof isn't sane (the
    verifier is then unspecified) *)
Definition verify {E} (self : t) (rng : Clsag.rng) (verifier : InternalBatchVerifier.t) (proof : OriginalProof)
  : outcome E (option InternalBatchVerifier.t * Clsag.rng) :=
  let padded_pow_of_2 := padded_pow_of_2 (length self) in
  let ip_rows := (padded_pow_of_2 * BITS)%nat in
  let verifier := with_h_bold (with_g_bold verifier (extend (g_bold verifier) ip_rows))
    (h_bold verifier ++ repeat sc_ZERO (ip_rows - length (g_bold verifier))) in
  let? (transcript, commitments) := initial_transcript self in
  let commitments := map ed_mul_by_cofactor commitments in
  let? (y, z) := transcript_A_S transcript (bp_A proof) (bp_S proof) in
  let transcript := z in
  let z := powers z (3 + padded_pow_of_2) in
  let? x := transcript_T12 transcript (bp_T1 proof) (bp_T2 proof) in
  let transcript := x in
  let? x_ip := transcript_tau_x_mu_t_hat transcript (bp_tau_x proof) (bp_mu proof) (bp_t_hat proof) in
  let transcript := x_ip in
  match decomp_mul_cofactor (bp_A proof), decomp_mul_cofactor (bp_S proof),
        decomp_mul_cofactor (bp_T1 proof), decomp_mul_cofactor (bp_T2 proof) with
  | Some A, Some S_, Some T1, Some T2 =>
      let y_pow_n := powers y ip_rows in
      let y_inv_pow_n := powers (sc_invert y) ip_rows in
      let twos := powers (sc_from_u64 2) BITS in
      let? (weight, rng) := random_scalar rng in
      let? verifier := queue_65 verifier weight padded_pow_of_2 commitments (bp_tau_x proof) (bp_t_hat proof) x z y_pow_n twos T1 T2 in
      let? (ip_weight, rng) := random_scalar rng in
      let? verifier := queue_66 verifier ip_weight padded_pow_of_2 ip_rows x (bp_mu proof) (bp_t_hat proof) x_ip z y_inv_pow_n twos A S_ in
      match IpStatement.verify (IpStatement.new_without_P_transcript y_inv_pow_n x_ip) verifier ip_rows transcript ip_weight (bp_ip proof) with
      | Ok verifier => Ok (Some verifier, rng)
      | Err _ => Ok (None, rng)
      | Panic => Panic
      end
  | _, _, _, _ => Ok (None, rng)
  end.
End Ops.
End OriginalStatement.
