(* ===== verification/BpAlgebra.v ===== *)
(** The algebra Bulletproofs are proved complete in: the ring of scalars, sums
    of scalars and of multiples of points, and linear combinations of points. *)

From Stdlib Require Import ZArith Lia Ring.
From stdpp Require Import base list strings numbers.
From S2P Require Import Prelude Dalek MoneroIo Ed25519 Clsag Bulletproofs BpCore.

Section Algebra.
Context {D : Dalek} {DL : DalekLaws D}.

(** ** The ring of scalars *)

Lemma sc_mul_add s t x : sc_mul (sc_add s t) x = sc_add (sc_mul s x) (sc_mul t x).
Proof.
  apply sc_val_inj. rewrite sc_mul_val, !sc_add_val, !sc_mul_val.
  rewrite Z.mul_mod_idemp_l, <- Z.add_mod by (unfold L; lia). f_equal. ring.
Qed.

Lemma sc_mul_assoc s t x : sc_mul s (sc_mul t x) = sc_mul (sc_mul s t) x.
Proof. apply sc_val_inj. rewrite !sc_mul_val, Z.mul_mod_idemp_r, Z.mul_mod_idemp_l by (unfold L; lia). f_equal. ring. Qed.

Lemma sc_one_mul s : sc_mul sc_ONE s = s.
Proof. apply sc_val_inj. rewrite sc_mul_val, sc_one_val, Z.mul_1_l. apply Z.mod_small, sc_val_range. Qed.

Lemma sc_sub_neg s t : sc_sub s t = sc_add s (sc_neg t).
Proof.
  apply sc_val_inj. rewrite sc_sub_val, sc_add_val, sc_neg_val, Z.add_mod_idemp_r by (unfold L; lia). f_equal.
Qed.

Lemma sc_add_neg s : sc_add s (sc_neg s) = sc_ZERO.
Proof.
  apply sc_val_inj. rewrite sc_add_val, sc_neg_val, sc_zero_val, Z.add_mod_idemp_r by (unfold L; lia).
  rewrite Z.add_opp_diag_r. reflexivity.
Qed.

Lemma sc_ring : ring_theory sc_ZERO sc_ONE sc_add sc_mul sc_sub sc_neg eq.
Proof.
  split; [apply sc_zero_add|apply sc_add_comm|apply sc_add_assoc|apply sc_one_mul|apply sc_mul_comm|apply sc_mul_assoc|
    apply sc_mul_add|apply sc_sub_neg|apply sc_add_neg].
Qed.

Add Ring scalars : sc_ring.

(** *** Sums of scalars *)

Fixpoint ssum (n : nat) (f : nat -> DScalar) : DScalar :=
  match n with O => sc_ZERO | S n => sc_add (ssum n f) (f n) end.

Lemma ssum_ext n f f' : (forall i, (i < n)%nat -> f i = f' i) -> ssum n f = ssum n f'.
Proof. induction n as [|n IH]; intros H; cbn [ssum]; [reflexivity|]. rewrite IH, H by (intros; auto with lia). reflexivity. Qed.

Lemma ssum_add n f f' : ssum n (fun i => sc_add (f i) (f' i)) = sc_add (ssum n f) (ssum n f').
Proof. induction n as [|n IH]; cbn [ssum]; [ring|]. rewrite IH. ring. Qed.

Lemma ssum_sub n f f' : ssum n (fun i => sc_sub (f i) (f' i)) = sc_sub (ssum n f) (ssum n f').
Proof. induction n as [|n IH]; cbn [ssum]; [ring|]. rewrite IH. ring. Qed.

Lemma ssum_mul n c f : ssum n (fun i => sc_mul c (f i)) = sc_mul c (ssum n f).
Proof. induction n as [|n IH]; cbn [ssum]; [ring|]. rewrite IH. ring. Qed.

Lemma ssum_mul_r n c f : ssum n (fun i => sc_mul (f i) c) = sc_mul (ssum n f) c.
Proof. induction n as [|n IH]; cbn [ssum]; [ring|]. rewrite IH. ring. Qed.

Lemma ssum_zero n : ssum n (fun _ => sc_ZERO) = sc_ZERO.
Proof. induction n as [|n IH]; cbn [ssum]; [reflexivity|]. rewrite IH. ring. Qed.

Lemma ssum_split n m f : ssum (n + m) f = sc_add (ssum n f) (ssum m (fun i => f (n + i)%nat)).
Proof.
  induction m as [|m IH]; cbn [ssum]; [rewrite Nat.add_0_r; ring|]. rewrite Nat.add_succ_r. cbn [ssum]. rewrite IH. ring.
Qed.

Lemma ssum_nested n k f : ssum (n * k) f = ssum n (fun j => ssum k (fun i => f (j * k + i)%nat)).
Proof. induction n as [|n IH]; cbn [ssum]; [reflexivity|]. rewrite <- IH, <- ssum_split. f_equal. lia. Qed.

Lemma ssum_head n f : ssum (S n) f = sc_add (f 0%nat) (ssum n (fun i => f (S i))).
Proof. induction n as [|n IH]; [cbn [ssum]; ring|]. cbn [ssum] in *. rewrite IH. ring. Qed.

(** *** Sums of multiples of points *)

Fixpoint psum (n : nat) (f : nat -> DScalar) (P : nat -> EdwardsPoint) : EdwardsPoint :=
  match n with O => ed_identity | S n => ed_add (psum n f P) (ed_mul (f n) (P n)) end.

Definition free (P : nat -> EdwardsPoint) (n : nat) : Prop := forall i, (i < n)%nat -> ed_is_torsion_free (P i) = true.

Lemma free_less P n m : (m <= n)%nat -> free P n -> free P m.
Proof. intros Hm H i Hi. apply H. lia. Qed.

Lemma psum_free n f P : free P n -> ed_is_torsion_free (psum n f P) = true.
Proof.
  induction n as [|n IH]; intros H; cbn [psum]; [apply ed_identity_free|].
  apply ed_add_free; [apply IH, (free_less _ (S n)); auto|apply ed_mul_free, H; lia].
Qed.

Lemma psum_ext n f f' P P' : (forall i, (i < n)%nat -> f i = f' i /\ P i = P' i) -> psum n f P = psum n f' P'.
Proof.
  induction n as [|n IH]; intros H; cbn [psum]; [reflexivity|]. rewrite IH by (intros; apply H; lia).
  destruct (H n ltac:(lia)) as [-> ->]. reflexivity.
Qed.

Lemma psum_add n f f' P : free P n -> psum n (fun i => sc_add (f i) (f' i)) P = ed_add (psum n f P) (psum n f' P).
Proof.
  induction n as [|n IH]; intros H; cbn [psum]; [symmetry; apply ed_add_id|].
  rewrite IH by (apply (free_less _ (S n)); auto). rewrite ed_mul_add_l by (apply H; lia). apply ed_add_swap.
Qed.

Lemma ed_mul_id s : ed_mul s ed_identity = ed_identity.
Proof. apply (ed_add_cancel _ _ (ed_mul s ed_identity)). rewrite <- ed_mul_add_r, !ed_add_id, ed_id_add. reflexivity. Qed.

Lemma psum_mul n c f P : free P n -> psum n (fun i => sc_mul c (f i)) P = ed_mul c (psum n f P).
Proof.
  induction n as [|n IH]; intros H; cbn [psum]; [symmetry; apply ed_mul_id|].
  rewrite IH by (apply (free_less _ (S n)); auto). rewrite ed_mul_add_r, ed_mul_mul by (apply H; lia). reflexivity.
Qed.

Lemma psum_zero n P : psum n (fun _ => sc_ZERO) P = ed_identity.
Proof. induction n as [|n IH]; cbn [psum]; [reflexivity|]. rewrite IH, ed_mul_zero. apply ed_add_id. Qed.

Lemma psum_split n m f P :
  psum (n + m) f P = ed_add (psum n f P) (psum m (fun i => f (n + i)%nat) (fun i => P (n + i)%nat)).
Proof.
  induction m as [|m IH]; cbn [psum]; [rewrite Nat.add_0_r, ed_add_id; reflexivity|].
  rewrite Nat.add_succ_r. cbn [psum]. rewrite IH, ed_add_assoc. reflexivity.
Qed.

Lemma psum_points n f c d P Q : free P n -> free Q n ->
  psum n f (fun i => ed_add (ed_mul (c i) (P i)) (ed_mul (d i) (Q i))) =
  ed_add (psum n (fun i => sc_mul (f i) (c i)) P) (psum n (fun i => sc_mul (f i) (d i)) Q).
Proof.
  induction n as [|n IH]; intros HP HQ; cbn [psum]; [symmetry; apply ed_add_id|].
  rewrite IH by (apply (free_less _ (S n)); auto). rewrite ed_mul_add_r, (ed_mul_mul _ _ (P n)), (ed_mul_mul _ _ (Q n)) by ((apply HP; lia) || (apply HQ; lia)).
  apply ed_add_swap.
Qed.

Lemma psum_scaled n f c P : free P n -> psum n f (fun i => ed_mul (c i) (P i)) = psum n (fun i => sc_mul (f i) (c i)) P.
Proof.
  induction n as [|n IH]; intros HP; cbn [psum]; [reflexivity|]. rewrite IH by (apply (free_less _ (S n)); auto).
  rewrite ed_mul_mul by (apply HP; lia). reflexivity.
Qed.

Lemma psum_const n f P : ed_is_torsion_free P = true -> psum n f (fun _ => P) = ed_mul (ssum n f) P.
Proof.
  intros HP. induction n as [|n IH]; cbn [psum ssum]; [symmetry; apply ed_mul_zero|]. rewrite IH, ed_mul_add_l by exact HP. reflexivity.
Qed.

Lemma psum_head n f P : psum (S n) f P = ed_add (ed_mul (f 0%nat) (P 0%nat)) (psum n (fun i => f (S i)) (fun i => P (S i))).
Proof.
  induction n as [|n IH]; [cbn [psum]; rewrite ed_id_add, ed_add_id; reflexivity|].
  cbn [psum] in *. rewrite IH, <- ed_add_assoc. reflexivity.
Qed.

(** *** Linear combinations of two points and of four families of [n] *)

Record lc := mk_lc {
  cp : DScalar; cq : DScalar;
  c1 : nat -> DScalar; c2 : nat -> DScalar; c3 : nat -> DScalar; c4 : nat -> DScalar
}.

Definition lc_add (x y : lc) : lc :=
  mk_lc (sc_add (cp x) (cp y)) (sc_add (cq x) (cq y)) (fun i => sc_add (c1 x i) (c1 y i)) (fun i => sc_add (c2 x i) (c2 y i))
    (fun i => sc_add (c3 x i) (c3 y i)) (fun i => sc_add (c4 x i) (c4 y i)).

Definition lc_mul (s : DScalar) (x : lc) : lc :=
  mk_lc (sc_mul s (cp x)) (sc_mul s (cq x)) (fun i => sc_mul s (c1 x i)) (fun i => sc_mul s (c2 x i))
    (fun i => sc_mul s (c3 x i)) (fun i => sc_mul s (c4 x i)).

Definition no_coeff : nat -> DScalar := fun _ => sc_ZERO.
Definition lc_zero : lc := mk_lc sc_ZERO sc_ZERO no_coeff no_coeff no_coeff no_coeff.
Definition lc_p (s : DScalar) : lc := mk_lc s sc_ZERO no_coeff no_coeff no_coeff no_coeff.
Definition lc_q (s : DScalar) : lc := mk_lc sc_ZERO s no_coeff no_coeff no_coeff no_coeff.
Definition lc_1 (f : nat -> DScalar) : lc := mk_lc sc_ZERO sc_ZERO f no_coeff no_coeff no_coeff.
Definition lc_2 (f : nat -> DScalar) : lc := mk_lc sc_ZERO sc_ZERO no_coeff f no_coeff no_coeff.
Definition lc_3 (f : nat -> DScalar) : lc := mk_lc sc_ZERO sc_ZERO no_coeff no_coeff f no_coeff.
Definition lc_4 (f : nat -> DScalar) : lc := mk_lc sc_ZERO sc_ZERO no_coeff no_coeff no_coeff f.

Section Lin.
Context (n : nat) (p q : EdwardsPoint) (P1 P2 P3 P4 : nat -> EdwardsPoint).
Context (Hp : ed_is_torsion_free p = true) (Hq : ed_is_torsion_free q = true).
Context (H1 : free P1 n) (H2 : free P2 n) (H3 : free P3 n) (H4 : free P4 n).

Definition lin (x : lc) : EdwardsPoint :=
  ed_add (ed_add (ed_add (ed_mul (cp x) p) (ed_mul (cq x) q)) (ed_add (psum n (c1 x) P1) (psum n (c2 x) P2)))
    (ed_add (psum n (c3 x) P3) (psum n (c4 x) P4)).

Lemma lin_add x y : ed_add (lin x) (lin y) = lin (lc_add x y).
Proof.
  unfold lin. cbn [lc_add cp cq c1 c2 c3 c4]. rewrite !ed_mul_add_l, !psum_add by assumption.
  rewrite ed_add_swap. f_equal; [rewrite ed_add_swap; f_equal|]; apply ed_add_swap.
Qed.

Lemma lin_mul s x : ed_mul s (lin x) = lin (lc_mul s x).
Proof.
  unfold lin. cbn [lc_mul cp cq c1 c2 c3 c4]. rewrite !psum_mul by assumption.
  rewrite !ed_mul_add_r, !ed_mul_mul by assumption. reflexivity.
Qed.

Lemma lin_ext x y : cp x = cp y -> cq x = cq y ->
  (forall i, (i < n)%nat -> c1 x i = c1 y i /\ c2 x i = c2 y i /\ c3 x i = c3 y i /\ c4 x i = c4 y i) -> lin x = lin y.
Proof.
  intros Hx Hy H. unfold lin. rewrite Hx, Hy. f_equal; [f_equal|]; f_equal; apply psum_ext; intros i Hi; split; try reflexivity; apply H, Hi.
Qed.

Lemma lin_zero : lin lc_zero = ed_identity.
Proof. unfold lin. cbn [lc_zero cp cq c1 c2 c3 c4]. unfold no_coeff. rewrite !psum_zero, !ed_mul_zero, !ed_add_id. reflexivity. Qed.

Lemma lin_p s : lin (lc_p s) = ed_mul s p.
Proof. unfold lin. cbn [lc_p cp cq c1 c2 c3 c4]. unfold no_coeff. rewrite !psum_zero, !ed_mul_zero, !ed_add_id. reflexivity. Qed.
Lemma lin_q s : lin (lc_q s) = ed_mul s q.
Proof.
  unfold lin. cbn [lc_q cp cq c1 c2 c3 c4]. unfold no_coeff. rewrite !psum_zero, !ed_mul_zero, !ed_add_id, ed_id_add. reflexivity.
Qed.
Lemma lin_1 f : lin (lc_1 f) = psum n f P1.
Proof.
  unfold lin. cbn [lc_1 cp cq c1 c2 c3 c4]. unfold no_coeff. rewrite !psum_zero, !ed_mul_zero, !ed_add_id, ed_id_add. reflexivity.
Qed.
Lemma lin_2 f : lin (lc_2 f) = psum n f P2.
Proof.
  unfold lin. cbn [lc_2 cp cq c1 c2 c3 c4]. unfold no_coeff. rewrite !psum_zero, !ed_mul_zero, !ed_add_id, !ed_id_add. reflexivity.
Qed.
Lemma lin_3 f : lin (lc_3 f) = psum n f P3.
Proof.
  unfold lin. cbn [lc_3 cp cq c1 c2 c3 c4]. unfold no_coeff. rewrite !psum_zero, !ed_mul_zero, !ed_add_id, ed_id_add. reflexivity.
Qed.
Lemma lin_4 f : lin (lc_4 f) = psum n f P4.
Proof.
  unfold lin. cbn [lc_4 cp cq c1 c2 c3 c4]. unfold no_coeff. rewrite !psum_zero, !ed_mul_zero, !ed_add_id, !ed_id_add. reflexivity.
Qed.

Lemma lin_free x : ed_is_torsion_free (lin x) = true.
Proof. unfold lin. repeat apply ed_add_free; try (apply ed_mul_free; assumption); apply psum_free; assumption. Qed.
End Lin.
End Algebra.
