(* ===== verification/BpVectors.v ===== *)
(** Vectors as functions of their indexes, the sums Bulletproofs compute with
    them, the products of challenges, and what a batch verifier sums to. *)

From Stdlib Require Import ZArith Lia Ring.
From stdpp Require Import base list strings numbers.
From S2P Require Import Prelude Dalek MoneroIo Ed25519 Clsag Bulletproofs BpCore BpOriginal BpAlgebra.

(** ** Vectors *)

Section Vec.
Context {A : Type}.

Definition vec (n : nat) (f : nat -> A) : list A := map f (seq 0 n).

Lemma vec_length n f : length (vec n f) = n.
Proof. unfold vec. rewrite length_map, length_seq. reflexivity. Qed.

Lemma vec_lookup n f i : (i < n)%nat -> vec n f !! i = Some (f i).
Proof. intros Hi. unfold vec. rewrite list_lookup_fmap, lookup_seq_lt by exact Hi. reflexivity. Qed.

Lemma vec_ext n f g : (forall i, (i < n)%nat -> f i = g i) -> vec n f = vec n g.
Proof.
  intros H. apply map_ext_in. intros i Hi. apply H. apply in_seq in Hi. lia.
Qed.

Lemma list_vec (l : list A) n f : length l = n -> (forall i, (i < n)%nat -> l !! i = Some (f i)) -> l = vec n f.
Proof.
  intros Hl H. apply list_eq. intros i. destruct (Nat.lt_ge_cases i n) as [Hi|Hi].
  - rewrite vec_lookup, H by exact Hi. reflexivity.
  - rewrite !(proj2 (lookup_ge_None _ _)); [reflexivity|rewrite vec_length; lia|lia].
Qed.

Lemma vec_S n f : vec (S n) f = vec n f ++ [f n].
Proof. unfold vec. rewrite seq_S, map_app. reflexivity. Qed.

Lemma vec_cons n f : vec (S n) f = f 0%nat :: vec n (fun i => f (S i)).
Proof. unfold vec. cbn [seq map]. f_equal. rewrite <- seq_shift, map_map. reflexivity. Qed.

Lemma vec_app n m f : vec (n + m) f = vec n f ++ vec m (fun i => f (n + i)%nat).
Proof. induction m as [|m IH]; [rewrite Nat.add_0_r, app_nil_r; reflexivity|]. rewrite Nat.add_succ_r, !vec_S, IH, app_assoc. reflexivity. Qed.

Lemma vec_take n m f : (m <= n)%nat -> take m (vec n f) = vec m f.
Proof.
  intros Hm. replace n with (m + (n - m))%nat by lia. rewrite vec_app, take_app_length'; [reflexivity|rewrite vec_length; reflexivity].
Qed.

Lemma vec_split n f : ScalarVector.split (vec (2 * n) f) = (vec n f, vec n (fun i => f (n + i)%nat)).
Proof.
  unfold ScalarVector.split. rewrite vec_length. replace (2 * n / 2)%nat with n by (rewrite Nat.mul_comm, Nat.div_mul; lia).
  replace (2 * n)%nat with (n + n)%nat by lia. rewrite vec_app, take_app_length', drop_app_length' by (rewrite vec_length; reflexivity). reflexivity.
Qed.

Lemma index_vec {E} n f i : (i < n)%nat -> index (E := E) (vec n f) i = Ok (f i).
Proof. intros Hi. unfold index. rewrite vec_lookup by exact Hi. reflexivity. Qed.

Lemma set_at_vec {E} n f i x : (i < n)%nat -> set_at (E := E) (vec n f) i x = Ok (vec n (fun j => if (j =? i)%nat then x else f j)).
Proof.
  intros Hi. unfold set_at. rewrite vec_length, (proj2 (Nat.ltb_lt _ _) Hi). f_equal.
  apply list_vec; [rewrite length_insert; apply vec_length|]. intros j Hj.
  destruct (Nat.eqb_spec j i) as [->|Hne].
  - apply list_lookup_insert_eq. rewrite vec_length. exact Hi.
  - rewrite list_lookup_insert_ne by congruence. apply vec_lookup, Hj.
Qed.

Lemma repeat_vec (a : A) n : repeat a n = vec n (fun _ => a).
Proof. induction n as [|n IH]; [reflexivity|]. rewrite vec_cons, <- IH. reflexivity. Qed.

Lemma vec_Forall (P : A -> Prop) n f : (forall i, (i < n)%nat -> P (f i)) -> Forall P (vec n f).
Proof. intros H. induction n as [|n IH]; [constructor|]. rewrite vec_S. apply Forall_app. split; [apply IH; auto|constructor; [apply H; lia|constructor]]. Qed.

End Vec.

Lemma vec_map {A B} (h : A -> B) n f : map h (vec n f) = vec n (fun i => h (f i)).
Proof. unfold vec. rewrite map_map. reflexivity. Qed.

Lemma vec_zip_with {A B C} (h : A -> B -> C) n f g : zip_with h (vec n f) (vec n g) = vec n (fun i => h (f i) (g i)).
Proof. unfold vec. induction (seq 0 n) as [|i l IH]; [reflexivity|]. cbn. rewrite IH. reflexivity. Qed.

Lemma each_vec {E A B} (f : A -> outcome E B) n x y : (forall i, (i < n)%nat -> f (x i) = Ok (y i)) -> each f (vec n x) = Ok (vec n y).
Proof.
  revert x y. induction n as [|n IH]; intros x y Hf; [reflexivity|]. rewrite !vec_cons. cbn [each]. rewrite Hf by lia. cbn [obind].
  rewrite (IH (fun i => x (S i)) (fun i => y (S i))) by (intros; apply Hf; lia). reflexivity.
Qed.

Lemma vec_rev {A} n (f : nat -> A) : rev (vec n f) = vec n (fun i => f (n - 1 - i)%nat).
Proof.
  induction n as [|n IH]; [reflexivity|]. rewrite vec_S, rev_app_distr. cbn [rev app]. rewrite vec_cons, IH. f_equal; [f_equal; lia|].
  apply vec_ext. intros i Hi. f_equal. lia.
Qed.

Section Sums.
Context {D : Dalek} {DL : DalekLaws D}.
Import ScalarVector.

Add Ring scalars_v : sc_ring.

Definition fn (l : list DScalar) (i : nat) : DScalar := default sc_ZERO (l !! i).
Definition pt (l : list EdwardsPoint) (i : nat) : EdwardsPoint := default ed_identity (l !! i).

Lemma fn_vec l : l = vec (length l) (fn l).
Proof. apply list_vec; [reflexivity|]. intros i Hi. unfold fn. destruct (lookup_lt_is_Some_2 l i Hi) as [x ->]. reflexivity. Qed.

Lemma pt_vec l : l = vec (length l) (pt l).
Proof. apply list_vec; [reflexivity|]. intros i Hi. unfold pt. destruct (lookup_lt_is_Some_2 l i Hi) as [x ->]. reflexivity. Qed.

Lemma vec_zip_mut h n f g : zip_mut h (vec n f) (vec n g) = vec n (fun i => h (f i) (g i)).
Proof. unfold vec. induction (seq 0 n) as [|i l IH]; [reflexivity|]. cbn. rewrite IH. reflexivity. Qed.

Lemma sum_vec n f : sum (vec n f) = ssum n f.
Proof. induction n as [|n IH]; [reflexivity|]. unfold sum in *. rewrite vec_S, foldl_app, IH. reflexivity. Qed.

Lemma inner_product_vec n f g : inner_product (vec n f) (vec n g) = ssum n (fun i => sc_mul (f i) (g i)).
Proof. unfold inner_product, mul. rewrite vec_zip_mut. apply sum_vec. Qed.

Lemma weighted_vec n f g y :
  weighted_inner_product (vec n f) (vec n g) (vec n y) = ssum n (fun i => sc_mul (sc_mul (f i) (g i)) (y i)).
Proof. unfold weighted_inner_product, mul. rewrite !vec_zip_mut. apply sum_vec. Qed.

(** *** Powers *)

Fixpoint spow (x : DScalar) (n : nat) : DScalar := match n with O => sc_ONE | S n => sc_mul (spow x n) x end.

Lemma spow_add x n m : spow x (n + m) = sc_mul (spow x n) (spow x m).
Proof. induction m as [|m IH]; [rewrite Nat.add_0_r; cbn; ring|]. rewrite Nat.add_succ_r. cbn [spow]. rewrite IH. ring. Qed.

Lemma powers_loop_vec x k n : powers_loop x (spow x k) n = vec n (fun i => spow x (S (k + i))).
Proof.
  revert k. induction n as [|n IH]; intros k; [reflexivity|]. cbn [powers_loop]. rewrite vec_cons, Nat.add_0_r. cbn zeta.
  change (sc_mul (spow x k) x) with (spow x (S k)). rewrite IH. f_equal. apply vec_ext. intros i _. f_equal. lia.
Qed.

Lemma powers_vec x n : powers x n = vec n (spow x).
Proof.
  unfold powers. assert (H : sc_ONE :: x :: powers_loop x x (n - 2) = vec (2 + (n - 2)) (spow x)).
  { assert (Hx : x = spow x 1) by (cbn; ring). rewrite Hx at 3. rewrite powers_loop_vec. cbn [Nat.add]. rewrite !vec_cons. cbn [spow]. f_equal.
    f_equal. ring. }
  rewrite H. destruct (Nat.le_gt_cases n 1) as [Hn|Hn]; [|rewrite vec_take by lia; reflexivity].
  destruct n as [|[|n]]; [reflexivity| |lia]. rewrite vec_take by lia. reflexivity.
Qed.

(** *** Multiscalar multiplications *)

Definition msm (l : list (DScalar * EdwardsPoint)) : EdwardsPoint :=
  foldr (fun x acc => ed_add (ed_mul (fst x) (snd x)) acc) ed_identity l.

Lemma msm_pairs l : ed_multiscalar_mul (map fst l) (map snd l) = msm l.
Proof.
  rewrite ed_multiscalar_mul_sum by (rewrite !length_map; reflexivity).
  induction l as [|[s p] l IH]; [reflexivity|]. cbn in *. rewrite IH. reflexivity.
Qed.

Lemma multiexp_msm l : multiexp l = msm l.
Proof. apply msm_pairs. Qed.

Lemma multiexp_vartime_msm l : multiexp_vartime l = msm l.
Proof. apply msm_pairs. Qed.

Lemma msm_app l l' : msm (l ++ l') = ed_add (msm l) (msm l').
Proof. induction l as [|x l IH]; [symmetry; apply ed_id_add|]. cbn [app msm foldr]. fold (msm (l ++ l')). rewrite IH, ed_add_assoc. reflexivity. Qed.

Lemma msm_one x : msm [x] = ed_mul (fst x) (snd x).
Proof. apply ed_add_id. Qed.

Lemma msm_vec n f P : msm (vec n (fun i => (f i, P i))) = psum n f P.
Proof. induction n as [|n IH]; [reflexivity|]. rewrite vec_S, msm_app, IH, msm_one. reflexivity. Qed.

Lemma msm_zip_vec n f P : msm (zip (vec n f) (vec n P)) = psum n f P.
Proof. rewrite vec_zip_with. apply msm_vec. Qed.

(** [zip] stops with the shorter: the scalars. *)
Lemma msm_zip n f l : (n <= length l)%nat -> msm (zip (vec n f) l) = psum n f (pt l).
Proof.
  intros Hn. replace (zip (vec n f) l) with (zip (vec n f) (vec n (pt l))); [apply msm_zip_vec|].
  rewrite (pt_vec l) at 2. replace (length l) with (n + (length l - n))%nat by lia. rewrite vec_app.
  rewrite <- (app_nil_r (vec n f)) at 2. rewrite zip_with_app by (rewrite !vec_length; reflexivity).
  cbn [zip_with]. rewrite app_nil_r. reflexivity.
Qed.

(** *** The products of challenges *)

Fixpoint products (cs : list (DScalar * DScalar)) : list DScalar :=
  match cs with
  | [] => [sc_ONE]
  | c :: cs => map (sc_mul (snd c)) (products cs) ++ map (sc_mul (fst c)) (products cs)
  end.

Lemma products_length cs : length (products cs) = (2 ^ length cs)%nat.
Proof. induction cs as [|c cs IH]; [reflexivity|]. cbn [products length]. rewrite length_app, !length_map, IH. cbn. lia. Qed.

(** What the loop does of the products so far *)
Definition double (c : DScalar * DScalar) (l : list DScalar) : list DScalar :=
  flat_map (fun p => [sc_mul p (snd c); sc_mul p (fst c)]) l.

Lemma double_length c l : length (double c l) = (2 * length l)%nat.
Proof. induction l as [|p l IH]; [reflexivity|]. cbn [double flat_map length app]. unfold double in IH. cbn. rewrite IH. lia. Qed.

Lemma double_lookup c l k : double c l !! (2 * k)%nat = (fun p => sc_mul p (snd c)) <$> l !! k /\
  double c l !! S (2 * k) = (fun p => sc_mul p (fst c)) <$> l !! k.
Proof.
  revert k. induction l as [|p l IH]; intros k; [split; reflexivity|].
  destruct k as [|k]; [split; reflexivity|]. replace (2 * S k)%nat with (S (S (2 * k))) by lia. apply IH.
Qed.

Lemma fold_double_app cs l l' : foldl (fun l c => double c l) (l ++ l') cs =
  foldl (fun l c => double c l) l cs ++ foldl (fun l c => double c l) l' cs.
Proof.
  revert l l'. induction cs as [|c cs IH]; intros l l'; [reflexivity|]. cbn [foldl]. rewrite <- IH. f_equal. apply flat_map_app.
Qed.

Lemma fold_double_mul cs x l : foldl (fun l c => double c l) (map (sc_mul x) l) cs =
  map (sc_mul x) (foldl (fun l c => double c l) l cs).
Proof.
  revert l. induction cs as [|c cs IH]; intros l; [reflexivity|]. cbn [foldl]. rewrite <- IH. f_equal.
  clear IH. induction l as [|p l IH]; [reflexivity|]. cbn. unfold double in IH. rewrite IH. f_equal; [ring|f_equal; ring].
Qed.

Lemma products_double cs : foldl (fun l c => double c l) [sc_ONE] cs = products cs.
Proof.
  induction cs as [|c cs IH]; [reflexivity|]. cbn [foldl products double flat_map app].
  rewrite <- IH, <- !fold_double_mul, <- fold_double_app. f_equal. cbn [map app]. f_equal; [ring|f_equal; ring].
Qed.

(** The slots at [2 k] and after are final, those before are still the last
    products. *)
Lemma slots_loop_spec {E} fuel c l rest k (s : list DScalar) : (k <= length l)%nat -> (length l <= length rest)%nat ->
  length s = (length l + length rest)%nat ->
  (forall i, (i < 2 * k)%nat -> s !! i = (l ++ rest) !! i) ->
  (forall i, (2 * k <= i < 2 * length l)%nat -> s !! i = double c l !! i) ->
  (forall i, (2 * length l <= i)%nat -> s !! i = (l ++ rest) !! i) -> (k <= fuel)%nat ->
  slots_loop (E := E) fuel c s (2 * k - 1) = Ok (double c l ++ drop (length l) rest).
Proof.
  intros Hk Hr. revert k s Hk. induction fuel as [|fuel IH]; intros k s Hk Hs H1 H2 H3 Hf.
  - replace k with 0%nat in * by lia. cbn [slots_loop Nat.mul Nat.add Nat.sub Nat.eqb]. f_equal.
    apply list_eq. intros i. destruct (Nat.lt_ge_cases i (2 * length l)) as [Hi|Hi].
    + rewrite H2, lookup_app_l by (rewrite ?double_length; lia). reflexivity.
    + rewrite H3, lookup_app_r, lookup_app_r, double_length, lookup_drop by (rewrite ?double_length; lia). f_equal. lia.
  - destruct k as [|k].
    { cbn [slots_loop Nat.mul Nat.add Nat.sub Nat.eqb]. f_equal. apply list_eq. intros i.
      destruct (Nat.lt_ge_cases i (2 * length l)) as [Hi|Hi].
      - rewrite H2, lookup_app_l by (rewrite ?double_length; lia). reflexivity.
      - rewrite H3, lookup_app_r, lookup_app_r, double_length, lookup_drop by (rewrite ?double_length; lia). f_equal. lia. }
    cbn [slots_loop]. replace (2 * S k - 1)%nat with (S (2 * k)) by lia. cbn [Nat.eqb].
    destruct (lookup_lt_is_Some_2 l k ltac:(lia)) as [p Hp].
    assert (Hdiv : (S (2 * k) / 2)%nat = k).
    { replace (S (2 * k)) with (1 + k * 2)%nat by lia. rewrite Nat.div_add by lia. reflexivity. }
    assert (Hsk : s !! k = Some p) by (rewrite H1 by lia; rewrite lookup_app_l by lia; exact Hp).
    unfold slot_step. rewrite Hdiv. unfold index at 1. rewrite Hsk. cbn [expect obind].
    unfold set_at at 1. rewrite (proj2 (Nat.ltb_lt _ _)) by lia. cbn [obind].
    unfold index. rewrite list_lookup_insert_ne by lia. rewrite Hsk. cbn [expect obind].
    unfold set_at. rewrite length_insert, (proj2 (Nat.ltb_lt _ _)) by lia. cbn [obind].
    replace (S (2 * k) - 1)%nat with (2 * k)%nat by lia. replace (S (2 * k) - 2)%nat with (2 * k - 1)%nat by lia.
    destruct (double_lookup c l k) as [Hd0 Hd1]. rewrite Hp in Hd0, Hd1. cbn in Hd0, Hd1.
    apply IH; [lia|rewrite !length_insert; exact Hs|..|lia].
    + intros i Hi. rewrite !list_lookup_insert_ne by lia. apply H1. lia.
    + intros i Hi. destruct (Nat.eq_dec i (2 * k)%nat) as [->|Hn0].
      { rewrite list_lookup_insert_eq by (rewrite length_insert; lia). symmetry. cbn. exact Hd0. }
      destruct (Nat.eq_dec i (S (2 * k))%nat) as [->|Hn1].
      { rewrite list_lookup_insert_ne, list_lookup_insert_eq by lia. symmetry. exact Hd1. }
      rewrite !list_lookup_insert_ne by lia. apply H2. lia.
    + intros i Hi. rewrite !list_lookup_insert_ne by lia. apply H3, Hi.
Qed.

Lemma slots_all {E} c l rest : (length l <= length rest)%nat -> (0 < length l)%nat ->
  slots_loop (E := E) (2 * length l) c (l ++ rest) (2 * length l - 1) = Ok (double c l ++ drop (length l) rest).
Proof.
  intros Hr Hl. apply slots_loop_spec; [lia|exact Hr|apply length_app|reflexivity|intros; lia|reflexivity|lia].
Qed.

Lemma challenges_loop_spec {E} cs j l rest : length l = (2 ^ j)%nat -> length rest = (2 ^ (j + length cs) - 2 ^ j)%nat ->
  challenges_loop (E := E) j cs (l ++ rest) = Ok (foldl (fun l c => double c l) l cs).
Proof.
  revert j l rest. induction cs as [|c cs IH]; intros j l rest Hl Hr.
  - cbn [length] in Hr. rewrite Nat.add_0_r, Nat.sub_diag in Hr. destruct rest; [|discriminate]. rewrite app_nil_r. reflexivity.
  - cbn [challenges_loop foldl]. assert (Hp : (2 ^ (j + 1) = 2 * 2 ^ j)%nat) by (rewrite Nat.pow_add_r; cbn; lia).
    assert (Hge : (2 ^ (j + 1) <= 2 ^ (j + length (c :: cs)))%nat) by (apply Nat.pow_le_mono_r; cbn [length]; lia).
    pose proof (Nat.pow_nonzero 2 j ltac:(lia)). rewrite Hp, <- Hl, slots_all by lia. cbn [obind].
    apply IH; [rewrite double_length; lia|]. rewrite length_drop, Hr, Hl. cbn [length] in *.
    replace (j + 1 + length cs)%nat with (j + S (length cs))%nat by lia. lia.
Qed.

(** [challenge_products] doesn't panic, and yields the products. *)
Lemma challenge_products_spec {E} cs : challenge_products (E := E) cs = Ok (products cs).
Proof.
  rewrite <- products_double. destruct cs as [|c cs]; [reflexivity|]. unfold challenge_products.
  assert (Hr : exists rest, repeat sc_ONE (2 ^ length (c :: cs)) = sc_ONE :: sc_ONE :: rest /\ length rest = (2 ^ (1 + length cs) - 2)%nat).
  { exists (repeat sc_ONE (2 ^ (1 + length cs) - 2)). rewrite repeat_length. split; [|reflexivity].
    pose proof (Nat.pow_nonzero 2 (length cs) ltac:(lia)). cbn [length]. replace (2 ^ S (length cs))%nat with (S (S (2 ^ S (length cs) - 2))) at 1 by (cbn; lia).
    reflexivity. }
  destruct Hr as (rest & -> & Hl). cbn [length]. unfold set_at. cbn [length Nat.ltb Nat.leb obind list_insert insert].
  cbn. change (snd c :: fst c :: rest) with ([snd c; fst c] ++ rest). rewrite challenges_loop_spec; [|reflexivity|exact Hl].
  f_equal. cbn [double flat_map app]. f_equal. f_equal; [ring|f_equal; ring].
Qed.
End Sums.
