(* ===== verification/BpOriginalProofs.v ===== *)
(** Completeness of the inner-product argument of Bulletproofs, as queued by its
    verifier: the point a batch verifier's sums make, the updates of it, and the
    rounds of [prove] ([ringct/bulletproofs/src/original/inner_product.rs],
    [batch_verifier.rs]). *)

From Stdlib Require Import ZArith Lia Ring.
From stdpp Require Import base list strings numbers.
From S2P Require Import Prelude Dalek MoneroIo Ed25519 Clsag Bulletproofs BpCore BpOriginal BpAlgebra BpVectors.

(** ** What doesn't panic *)

Section Total.
Context {D : Dalek} {DL : DalekLaws D} {K : Keccak} {PR : Primitives} {ST : Setup}.

Lemma hash_scalar_all data : exists s, s <> sc_ZERO /\ forall E, hash_scalar (E := E) data = Ok s.
Proof.
  exists (sc_from_bytes_mod_order (keccak_digest data)). pose proof (hash_nonzero data) as Hn. split.
  - intros H. rewrite H, (proj2 (sc_eqb_spec _ _) eq_refl) in Hn. discriminate.
  - intros E. unfold hash_scalar, Scalar.hash. rewrite Hn. cbn [obind]. apply scalar_into_from.
Qed.

Lemma random_scalar_all g : exists s g', forall E, random_scalar (E := E) g = Ok (s, g').
Proof. eexists _, _. intros E. unfold random_scalar, Clsag.random, Scalar.random. rewrite scalar_into_from. reflexivity. Qed.

(** The scalar by which points are divided by eight *)
Lemma inv_eight_all : exists inv, (forall E, inv_eight (E := E) = Ok inv) /\
  (forall p, ed_is_torsion_free p = true -> decomp_mul_cofactor (ed_compress (ed_mul inv p)) = Some p) /\
  forall p, ed_is_torsion_free p = true -> ed_mul_by_cofactor (ed_mul inv p) = p.
Proof.
  destruct (scalar_into_all Scalar.INV_EIGHT) as (inv & Hi & _).
  { destruct (inv_eight_spec (E := unit)) as (e & He & _). unfold Scalar.into in He.
    destruct (sc_from_canonical_bytes Scalar.INV_EIGHT) eqn:H; [|discriminate]. split; [decide_now|rewrite H; eauto]. }
  assert (Hc : forall p, ed_is_torsion_free p = true -> ed_mul_by_cofactor (ed_mul inv p) = p).
  { destruct (inv_eight_spec (E := unit)) as (e & He & Hc). rewrite Hi in He. injection He as <-. exact Hc. }
  exists inv. split; [exact Hi|]. split; [|exact Hc]. intros p Hp. unfold decomp_mul_cofactor. fold (Point.compress (ed_mul inv p)).
  rewrite decompress_compress. cbn [option_map]. f_equal. apply Hc, Hp.
Qed.

Lemma H_all : exists h, (forall E, MONERO_H (E := E) = Ok h) /\ (forall E, Commitment.H (E := E) = Ok h) /\ ed_is_torsion_free h = true.
Proof.
  destruct H_is_free as (h & Hh & Hf). exists h. split; [intros E; unfold MONERO_H; rewrite Hh; reflexivity|]. split; [|exact Hf].
  intros E. unfold Commitment.H. unfold CompressedPoint.decompress in Hh. destruct (ed_decompress _) as [q|]; [|discriminate].
  destruct (bytes_eqb _ _); [|discriminate]. injection Hh as ->. reflexivity.
Qed.

(** Generators there are, as many as a proof of the most commitments needs. *)
Lemma generators_all dst : exists gens, (forall E, Generators.bulletproofs_generators (E := E) dst = Ok gens) /\
  length (Generators.G gens) = 1024%nat /\ length (Generators.H gens) = 1024%nat /\
  free (pt (Generators.G gens)) 1024 /\ free (pt (Generators.H gens)) 1024.
Proof.
  set (pre := CompressedPoint.to_bytes CompressedPoint.H ++ dst).
  assert (Hp : exists f : nat -> EdwardsPoint * EdwardsPoint, forall i, (forall E, Generators.pair (E := E) pre i = Ok (f i)) /\
    ed_is_torsion_free (fst (f i)) = true /\ ed_is_torsion_free (snd (f i)) = true).
  { exists (fun i => match Generators.pair (E := unit) pre i with Ok x => x | _ => (ed_identity, ed_identity) end). intros i.
    unfold Generators.pair. destruct (biased_hash_total (keccak256 (pre ++ VarInt.write (2 * Z.of_nat i)))) as [h Hh].
    destruct (biased_hash_total (keccak256 (pre ++ VarInt.write (2 * Z.of_nat i + 1)))) as [g Hg]. rewrite (Hh unit). cbn [obind].
    rewrite (Hg unit). cbn [obind fst snd]. split; [intros E; rewrite Hh; cbn [obind]; rewrite Hg; reflexivity|].
    split; [exact (biased_hash_free _ _ (Hh unit))|exact (biased_hash_free _ _ (Hg unit))]. }
  destruct Hp as [f Hf]. assert (He : forall E l, each (Generators.pair (E := E) pre) l = Ok (map f l)).
  { intros E l. induction l as [|i l IH]; [reflexivity|]. cbn [each map]. rewrite (proj1 (Hf i)). cbn [obind]. rewrite IH. reflexivity. }
  exists (Generators.mk (map snd (vec 1024 f)) (map fst (vec 1024 f))). unfold Generators.bulletproofs_generators. fold pre.
  split; [intros E; rewrite He; reflexivity|]. cbn [Generators.G Generators.H]. rewrite !length_map, vec_length. split; [reflexivity|].
  split; [reflexivity|]. split; intros i Hi; unfold pt; rewrite list_lookup_fmap, vec_lookup by exact Hi; cbn; apply Hf.
Qed.
End Total.

(** ** The sum a batch verifier stands for *)

Section Value.
Context {D : Dalek} {DL : DalekLaws D}.
Import InternalBatchVerifier.
Context (G H : EdwardsPoint) (gens : Generators.t).

Definition value (v : InternalBatchVerifier.t) : EdwardsPoint :=
  ed_add (ed_add (ed_add (ed_mul (g v) G) (ed_mul (h v) H))
    (ed_add (psum (length (g_bold v)) (fn (g_bold v)) (pt (Generators.G gens))) (psum (length (h_bold v)) (fn (h_bold v)) (pt (Generators.H gens)))))
    (msm (other v)).

(** No more scalars than generators *)
Definition fits (v : InternalBatchVerifier.t) : Prop :=
  (length (g_bold v) <= length (Generators.G gens))%nat /\ (length (h_bold v) <= length (Generators.H gens))%nat.

Lemma msm_lists l ps : (length l <= length ps)%nat -> ed_msm l (take (length l) ps) = psum (length l) (fn l) (pt ps).
Proof.
  intros Hl. rewrite <- msm_zip by exact Hl. rewrite <- fn_vec. revert ps Hl.
  induction l as [|s l IH]; intros [|p ps] Hl; cbn [length] in Hl; try reflexivity.
  cbn [take firstn length ed_msm zip_with msm foldr fst snd]. f_equal. apply IH. lia.
Qed.

Lemma ed_msm_app l l' ps ps' : length l = length ps -> ed_msm (l ++ l') (ps ++ ps') = ed_add (ed_msm l ps) (ed_msm l' ps').
Proof.
  revert ps. induction l as [|s l IH]; intros [|p ps] Hl; try discriminate; cbn [app ed_msm]; [symmetry; apply ed_id_add|].
  rewrite IH by (cbn in Hl; lia). apply ed_add_assoc.
Qed.

Lemma verify_value {E} v : fits v -> verify (E := E) v G H gens = Ok (ed_is_identity (value v)).
Proof.
  intros [Hg Hh]. unfold verify. rewrite (proj2 (Nat.ltb_ge _ _) Hg), (proj2 (Nat.ltb_ge _ _) Hh). cbn [orb]. f_equal. f_equal.
  rewrite ed_multiscalar_mul_sum; [|cbn [app length]; rewrite !length_app, !length_map, !length_take; lia].
  rewrite ed_msm_app by reflexivity. rewrite ed_msm_app by (rewrite length_take; lia). rewrite ed_msm_app by (rewrite length_take; lia).
  rewrite !msm_lists by assumption. unfold value. rewrite <- (msm_pairs (other v)), ed_multiscalar_mul_sum by (rewrite !length_map; reflexivity).
  cbn [ed_msm]. rewrite ed_add_id. rewrite !ed_add_assoc. reflexivity.
Qed.

Lemma add_right p q r : ed_add (ed_add p q) r = ed_add (ed_add p r) q.
Proof. rewrite <- !ed_add_assoc. f_equal. apply ed_add_comm. Qed.

Context (HG : ed_is_torsion_free G = true) (HH : ed_is_torsion_free H = true).

Lemma value_add_g v x : value (add_g v x) = ed_add (value v) (ed_mul x G).
Proof.
  unfold value, add_g. cbn [g h g_bold h_bold other]. rewrite ed_mul_add_l by exact HG.
  rewrite (add_right (ed_mul (g v) G)), (add_right (ed_add (ed_mul (g v) G) _) (ed_mul x G)), (add_right _ (ed_mul x G)). reflexivity.
Qed.

Lemma value_add_h v x : value (add_h v x) = ed_add (value v) (ed_mul x H).
Proof.
  unfold value, add_h. cbn [g h g_bold h_bold other]. rewrite ed_mul_add_l by exact HH.
  rewrite (ed_add_assoc (ed_mul (g v) G)), (add_right (ed_add (ed_mul (g v) G) _) (ed_mul x H)), (add_right _ (ed_mul x H)). reflexivity.
Qed.

Lemma value_sub_h v x : value (sub_h v x) = ed_add (value v) (ed_mul (sc_neg x) H).
Proof.
  rewrite <- value_add_h. unfold value, sub_h, add_h. cbn [g h g_bold h_bold other]. rewrite sc_sub_neg. reflexivity.
Qed.

Lemma value_push v x : value (push v x) = ed_add (value v) (ed_mul (fst x) (snd x)).
Proof. unfold value, push. cbn [g h g_bold h_bold other]. rewrite msm_app, msm_one. apply ed_add_assoc. Qed.

Lemma value_g_bold v l (dp : EdwardsPoint) :
  psum (length l) (fn l) (pt (Generators.G gens)) = ed_add (psum (length (g_bold v)) (fn (g_bold v)) (pt (Generators.G gens))) dp ->
  value (with_g_bold v l) = ed_add (value v) dp.
Proof.
  intros Hl. unfold value, with_g_bold. cbn [g h g_bold h_bold other]. rewrite Hl, (add_right _ dp), !ed_add_assoc, (add_right _ dp). reflexivity.
Qed.

Lemma value_h_bold v l (dp : EdwardsPoint) :
  psum (length l) (fn l) (pt (Generators.H gens)) = ed_add (psum (length (h_bold v)) (fn (h_bold v)) (pt (Generators.H gens))) dp ->
  value (with_h_bold v l) = ed_add (value v) dp.
Proof.
  intros Hl. unfold value, with_h_bold. cbn [g h g_bold h_bold other]. rewrite Hl, !ed_add_assoc, (add_right _ dp). reflexivity.
Qed.
End Value.

(** ** The loops over a verifier's scalars *)

Section Updates.
Context {D : Dalek} {DL : DalekLaws D}.
Import InternalBatchVerifier.

Lemma fn_insert l i x j : (i < length l)%nat -> fn (<[i := x]> l) j = if (j =? i)%nat then x else fn l j.
Proof.
  intros Hi. unfold fn. destruct (Nat.eqb_spec j i) as [->|Hne]; [rewrite list_lookup_insert_eq by exact Hi; reflexivity|].
  rewrite list_lookup_insert_ne by congruence. reflexivity.
Qed.

Lemma psum_update n f P k x : (k < n)%nat -> free P n ->
  psum n (fun j => if (j =? k)%nat then sc_add (f k) x else f j) P = ed_add (psum n f P) (ed_mul x (P k)).
Proof.
  induction n as [|n IH]; intros Hk HP; [lia|]. cbn [psum]. destruct (Nat.eqb_spec n k) as [->|Hne].
  - rewrite ed_mul_add_l by (apply HP; lia). rewrite ed_add_assoc. do 2 f_equal. apply psum_ext. intros i Hi.
    destruct (Nat.eqb_spec i k); [lia|auto].
  - rewrite IH by (lia || (intros i Hi; apply HP; lia)). apply add_right.
Qed.

(** [update_each] adds the sum of what it adds to each scalar. *)
Lemma update_each_spec op l n (x : forall E, nat -> outcome E DScalar) f P : (forall s d, op s d = sc_add s (f d)) -> (n <= length l)%nat -> free P (length l) -> 
  forall d, (forall i, (i < n)%nat -> forall E, x E i = Ok (d i)) -> exists l', (forall E, update_each op l n (x E) = Ok l') /\ length l' = length l /\
    psum (length l) (fn l') P = ed_add (psum (length l) (fn l) P) (psum n (fun i => f (d i)) P).
Proof.
  intros Hop Hn HP d Hd. unfold update_each. revert Hd. induction n as [|n IH]; intros Hd.
  - exists l. split; [reflexivity|]. split; [reflexivity|]. symmetry. apply ed_add_id.
  - destruct IH as (l' & Hl' & Hlen & Hsum); [lia|intros; apply Hd; lia|].
    destruct (lookup_lt_is_Some_2 l' n ltac:(lia)) as [s Hs]. exists (<[n := op s (d n)]> l').
    split; [|split; [rewrite length_insert; exact Hlen|]].
    + intros E. rewrite seq_S, ofold_app, Hl'. cbn [obind Nat.add ofold]. rewrite Hd by lia. cbn [obind]. unfold index. rewrite Hs.
      cbn [expect obind]. unfold set_at. rewrite (proj2 (Nat.ltb_lt _ _)) by lia. reflexivity.
    + cbn [psum]. rewrite ed_add_assoc, <- Hsum, <- (psum_update _ _ _ n) by (lia || exact HP). apply psum_ext. intros i Hi. split; [|reflexivity].
      rewrite fn_insert by lia. rewrite Hop. replace s with (fn l' n) by (unfold fn; rewrite Hs; reflexivity). reflexivity.
Qed.

Lemma extend_value l n P : psum (length (extend l n)) (fn (extend l n)) P = psum (length l) (fn l) P.
Proof.
  unfold extend. rewrite length_app, repeat_length. generalize (n - length l)%nat as k. intros k. rewrite psum_split.
  rewrite (psum_ext (length l) _ (fn l) P P), (psum_ext k _ (fun _ => sc_ZERO) _ (fun i => P (length l + i)%nat)).
  - rewrite psum_zero. apply ed_add_id.
  - intros i Hi. split; [|reflexivity]. unfold fn. rewrite lookup_app_r by lia. replace (length l + i - length l)%nat with i by lia.
    rewrite repeat_vec, vec_lookup by exact Hi. reflexivity.
  - intros i Hi. split; [|reflexivity]. unfold fn. rewrite lookup_app_l by exact Hi. reflexivity.
Qed.

Lemma extend_length l n : length (extend l n) = Nat.max (length l) n.
Proof. unfold extend. rewrite length_app, repeat_length. lia. Qed.
End Updates.

(** ** The inner-product argument *)

Section Ip.
Context {D : Dalek} {DL : DalekLaws D} {K : Keccak} {PR : Primitives} {ST : Setup}.
Import IpStatement ScalarVector.

Add Ring scalars_ip : sc_ring.

(** [P] of the protocol *)
Definition ip_P (n : nat) (a b : nat -> DScalar) (g h : nat -> EdwardsPoint) (u : EdwardsPoint) : EdwardsPoint :=
  ed_add (ed_add (psum n a g) (psum n b h)) (ed_mul (ssum n (fun i => sc_mul (a i) (b i))) u).

(** What the [L] and [R] of the rounds add to [P] *)
Fixpoint lr_sum (xs : list DScalar) (LR : list (EdwardsPoint * EdwardsPoint)) : EdwardsPoint :=
  match xs, LR with
  | x :: xs, (L, R) :: LR =>
      ed_add (ed_add (ed_mul (sc_mul x x) L) (ed_mul (sc_mul (sc_invert x) (sc_invert x)) R)) (lr_sum xs LR)
  | _, _ => ed_identity
  end.

Definition with_inverses (xs : list DScalar) : list (DScalar * DScalar) := zip xs (map sc_invert xs).

Lemma with_inverses_length xs : length (with_inverses xs) = length xs.
Proof. unfold with_inverses. rewrite length_zip, length_map. lia. Qed.

Lemma products_low c cs i : (i < 2 ^ length cs)%nat -> fn (products (c :: cs)) i = sc_mul (snd c) (fn (products cs) i).
Proof.
  intros Hi. unfold fn. cbn [products]. rewrite lookup_app_l by (rewrite length_map, products_length; exact Hi).
  rewrite list_lookup_fmap. destruct (lookup_lt_is_Some_2 (products cs) i) as [x ->]; [rewrite products_length; exact Hi|reflexivity].
Qed.

Lemma products_high c cs i : (i < 2 ^ length cs)%nat ->
  fn (products (c :: cs)) (2 ^ length cs + i) = sc_mul (fst c) (fn (products cs) i).
Proof.
  intros Hi. unfold fn. cbn [products]. rewrite lookup_app_r by (rewrite length_map, products_length; lia).
  rewrite length_map, products_length. replace (2 ^ length cs + i - 2 ^ length cs)%nat with i by lia.
  rewrite list_lookup_fmap. destruct (lookup_lt_is_Some_2 (products cs) i) as [x ->]; [rewrite products_length; exact Hi|reflexivity].
Qed.

Section Round.
Context (inv : DScalar) (Hinv : forall E, inv_eight (E := E) = Ok inv).
Context (u : EdwardsPoint) (Hu : ed_is_torsion_free u = true).

(** A round keeps [P], up to what it adds. *)
Lemma round_P n a b g h x (LP RP : EdwardsPoint) : x <> sc_ZERO -> free g (n + n) -> free h (n + n) ->
  let xi := sc_invert x in
  let a1 := a in let a2 i := a (n + i)%nat in let b1 := b in let b2 i := b (n + i)%nat in
  let g1 := g in let g2 i := g (n + i)%nat in let h1 := h in let h2 i := h (n + i)%nat in
  LP = ed_add (ed_add (psum n a1 g2) (psum n b2 h1)) (ed_mul (ssum n (fun i => sc_mul (a1 i) (b2 i))) u) ->
  RP = ed_add (ed_add (psum n a2 g1) (psum n b1 h2)) (ed_mul (ssum n (fun i => sc_mul (a2 i) (b1 i))) u) ->
  ed_add (ed_add (ed_mul (sc_mul x x) LP) (ed_mul (sc_mul xi xi) RP)) (ip_P (n + n) a b g h u) =
  ip_P n (fun i => sc_add (sc_mul (a1 i) x) (sc_mul (a2 i) xi)) (fun i => sc_add (sc_mul (b1 i) xi) (sc_mul (b2 i) x))
    (fun i => ed_add (ed_mul xi (g1 i)) (ed_mul x (g2 i))) (fun i => ed_add (ed_mul x (h1 i)) (ed_mul xi (h2 i))) u.
Proof.
  intros Hx Hg Hh xi a1 a2 b1 b2 g1 g2 h1 h2 -> ->. pose proof (sc_invert_mul x Hx) as Hxi. fold xi in Hxi.
  assert (H1 : free g1 n) by (intros i Hi; apply Hg; lia). assert (H2 : free g2 n) by (intros i Hi; apply Hg; lia).
  assert (H3 : free h1 n) by (intros i Hi; apply Hh; lia). assert (H4 : free h2 n) by (intros i Hi; apply Hh; lia).
  unfold ip_P. rewrite !psum_split, ssum_split. rewrite !psum_points by assumption.
  fold g1 g2 h1 h2 a1 a2 b1 b2.
  rewrite <- !(lin_1 n u u g1 g2 h1 h2), <- !(lin_2 n u u g1 g2 h1 h2), <- !(lin_3 n u u g1 g2 h1 h2), <- !(lin_4 n u u g1 g2 h1 h2).
  rewrite <- !(lin_p n u u g1 g2 h1 h2). rewrite ?(lin_add n u u g1 g2 h1 h2 Hu Hu H1 H2 H3 H4), ?(lin_mul n u u g1 g2 h1 h2 Hu Hu H1 H2 H3 H4).
  rewrite ?(lin_add n u u g1 g2 h1 h2 Hu Hu H1 H2 H3 H4).
  apply lin_ext; cbn [lc_add lc_mul lc_p lc_1 lc_2 lc_3 lc_4 cp cq c1 c2 c3 c4]; unfold no_coeff.
  - rewrite <- !ssum_add. unfold a1, a2, b1, b2.
    transitivity (ssum n (fun i => sc_add (sc_add (sc_mul (sc_mul x x) (sc_mul (a i) (b (n + i)%nat)))
      (sc_mul (sc_mul xi xi) (sc_mul (a (n + i)%nat) (b i)))) (sc_add (sc_mul (a i) (b i)) (sc_mul (a (n + i)%nat) (b (n + i)%nat))))).
    + rewrite !ssum_add, !ssum_mul. ring.
    + match goal with |- _ = ?r => transitivity (sc_add sc_ZERO r); [|ring] end. rewrite sc_zero_add.
      match goal with |- _ = sc_add _ (ssum n ?f) => transitivity (ssum n f); [|ring] end.
      apply ssum_ext. intros i _. ring [Hxi].
  - ring.
  - intros i _. unfold a1, a2, b1, b2. split_and!; ring [Hxi].
Qed.

Lemma prove_round_spec n tr a b g h Ls Rs : (0 < n)%nat -> free g (n + n) -> free h (n + n) ->
  exists x LP RP, x <> sc_ZERO /\ ed_is_torsion_free LP = true /\ ed_is_torsion_free RP = true /\
  let L := ed_compress (ed_mul inv LP) in let R := ed_compress (ed_mul inv RP) in let xi := sc_invert x in
  (forall E, transcript_L_R (E := E) tr L R = Ok x) /\
  let a' i := sc_add (sc_mul (a i) x) (sc_mul (a (n + i)%nat) xi) in
  let b' i := sc_add (sc_mul (b i) xi) (sc_mul (b (n + i)%nat) x) in
  let g' i := ed_add (ed_mul xi (g i)) (ed_mul x (g (n + i)%nat)) in
  let h' i := ed_add (ed_mul x (h i)) (ed_mul xi (h (n + i)%nat)) in
  (forall E, prove_round (E := E) u (mk_prover tr (vec (2 * n) g) (vec (2 * n) h) (vec (2 * n) a) (vec (2 * n) b) Ls Rs) =
    Ok (mk_prover x (vec n g') (vec n h') (vec n a') (vec n b') (Ls ++ [L]) (Rs ++ [R]))) /\
  ed_add (ed_add (ed_mul (sc_mul x x) LP) (ed_mul (sc_mul xi xi) RP)) (ip_P (n + n) a b g h u) = ip_P n a' b' g' h' u.
Proof.
  intros Hn Hg Hh.
  set (LP := ed_add (ed_add (psum n a (fun i => g (n + i)%nat)) (psum n (fun i => b (n + i)%nat) h))
    (ed_mul (ssum n (fun i => sc_mul (a i) (b (n + i)%nat))) u)).
  set (RP := ed_add (ed_add (psum n (fun i => a (n + i)%nat) g) (psum n b (fun i => h (n + i)%nat)))
    (ed_mul (ssum n (fun i => sc_mul (a (n + i)%nat) (b i))) u)).
  destruct (hash_scalar_all (sc_to_bytes tr ++ ed_compress (ed_mul inv LP) ++ ed_compress (ed_mul inv RP))) as (x & Hx & Hh').
  exists x, LP, RP. split; [exact Hx|].
  assert (Hfree : forall P m, free P (n + n) -> (m = 0 \/ m = n)%nat -> free (fun i => P (m + i)%nat) n) by (intros P m H Hm i Hi; apply H; lia).
  split; [unfold LP|split; [unfold RP|]];
    try (repeat apply ed_add_free; try (apply ed_mul_free; exact Hu); apply psum_free;
         first [apply (Hfree _ n); [assumption|lia] | apply (Hfree _ 0%nat); [assumption|lia]]).
  cbv zeta. split; [intros E; apply Hh'|]. split.
  - intros E. unfold prove_round. cbn [pa pb pg ph transcript L_vec R_vec]. rewrite Hinv. cbn [obind].
    change (PointVector.split (vec (2 * n) g)) with (split (vec (2 * n) g)). change (PointVector.split (vec (2 * n) h)) with (split (vec (2 * n) h)).
    rewrite !vec_split. rewrite !inner_product_vec, !multiexp_vartime_msm, !msm_app, !msm_zip_vec, !msm_one. cbn [fst snd].
    rewrite !ed_add_assoc. fold LP RP. unfold transcript_L_R, CompressedPoint.to_bytes. rewrite Hh'. cbn [obind]. unfold mul_scalar, add.
    rewrite !vec_map, !vec_zip_mut, !vec_zip_with. do 2 f_equal; apply vec_ext; intros i _; rewrite multiexp_vartime_msm; cbn [msm foldr fst snd];
      rewrite ed_add_id; reflexivity.
  - apply round_P; try assumption; reflexivity.
Qed.

(** All of the rounds: the challenges are those [verify] computes, and what is
    left of [P] is what it computes with their products. *)
Lemma prove_loop_spec k : forall fuel tr a b g h Ls Rs, (k <= fuel)%nat -> free g (2 ^ k) -> free h (2 ^ k) ->
  exists xs LR af bf s, length xs = k /\ length LR = k /\ Forall (fun x => x <> sc_ZERO) xs /\
    Forall (fun x => ed_is_torsion_free (fst x) = true /\ ed_is_torsion_free (snd x) = true) LR /\
    let compressed := map (fun x => (ed_compress (ed_mul inv (fst x)), ed_compress (ed_mul inv (snd x)))) LR in
    (forall E, prove_loop (E := E) fuel u (mk_prover tr (vec (2 ^ k) g) (vec (2 ^ k) h) (vec (2 ^ k) a) (vec (2 ^ k) b) Ls Rs) = Ok s) /\
    L_vec s = Ls ++ map fst compressed /\ R_vec s = Rs ++ map snd compressed /\ pa s = [af] /\ pb s = [bf] /\
    (forall E, challenges (E := E) tr compressed = Ok xs) /\
    let ps := products (with_inverses xs) in
    ed_add (lr_sum xs LR) (ip_P (2 ^ k) a b g h u) =
      ed_add (ed_add (psum (2 ^ k) (fun i => sc_mul af (fn ps i)) g) (psum (2 ^ k) (fun i => sc_mul bf (fn ps (2 ^ k - 1 - i))) h))
        (ed_mul (sc_mul af bf) u).
Proof.
  induction k as [|k IH]; intros fuel tr a b g h Ls Rs Hf Hg Hh.
  - exists [], [], (a 0%nat), (b 0%nat), (mk_prover tr (vec 1 g) (vec 1 h) (vec 1 a) (vec 1 b) Ls Rs). cbv zeta. cbn [map].
    rewrite !app_nil_r. split_and!; try reflexivity; [constructor|constructor|intros E; destruct fuel; reflexivity|].
    cbn [lr_sum with_inverses zip_with map products Nat.pow]. unfold ip_P. cbn [psum ssum]. unfold fn, with_inverses. cbn.
    rewrite !ed_id_add, sc_zero_add. assert (H1 : forall s, sc_mul s sc_ONE = s) by (intros; ring). rewrite !H1. reflexivity.
  - replace (2 ^ S k)%nat with (2 * 2 ^ k)%nat in * by reflexivity. replace (2 * 2 ^ k)%nat with (2 ^ k + 2 ^ k)%nat in Hg, Hh by lia.
    pose proof (Nat.pow_nonzero 2 k ltac:(lia)) as Hpos. set (n := (2 ^ k)%nat) in *.
    destruct (prove_round_spec n tr a b g h Ls Rs ltac:(lia) Hg Hh) as (x & LP & RP & Hx & HLf & HRf & Hround). cbv zeta in Hround.
    destruct Hround as (Htr & Hround & HP). destruct fuel as [|fuel]; [lia|].
    edestruct (IH fuel x) as (xs & LR & af & bf & s & Hxl & HLl & Hxs & HLR & Hind); [lia| | |].
    3:{ cbv zeta in Hind. destruct Hind as (Hloop & HL & HR & Ha & Hb & Hch & Hsum).
      exists (x :: xs), ((LP, RP) :: LR), af, bf, s. split; [cbn; congruence|]. split; [cbn; congruence|].
      split; [constructor; assumption|]. split; [constructor; [split; assumption|exact HLR]|]. cbv zeta. cbn [map fst snd].
      split; [intros E; cbn [prove_loop pg]; rewrite vec_length, (proj2 (Nat.ltb_lt _ _)) by lia; rewrite Hround; cbn [obind]; apply Hloop|].
      split; [rewrite HL, <- app_assoc; reflexivity|]. split; [rewrite HR, <- app_assoc; reflexivity|]. split; [exact Ha|]. split; [exact Hb|].
      split; [intros E; cbn [challenges]; rewrite Htr; cbn [obind]; rewrite Hch; reflexivity|].
      cbn [lr_sum]. replace (2 * n)%nat with (n + n)%nat by lia. rewrite <- ed_add_assoc, (ed_add_comm (lr_sum xs LR)), ed_add_assoc, HP, ed_add_comm, Hsum.
      change (with_inverses (x :: xs)) with ((x, sc_invert x) :: with_inverses xs).
      assert (Hn : (2 ^ length (with_inverses xs))%nat = n) by (rewrite with_inverses_length, Hxl; reflexivity).
      pose proof (products_low (x, sc_invert x) (with_inverses xs)) as Hlow. pose proof (products_high (x, sc_invert x) (with_inverses xs)) as Hhigh.
      rewrite Hn in Hlow, Hhigh. cbn [fst snd] in Hlow, Hhigh.
      rewrite !psum_points by (intros i Hi; apply Hg || apply Hh; lia). rewrite !psum_split.
      f_equal; f_equal; f_equal; apply psum_ext; intros i Hi; (split; [|reflexivity]).
      + rewrite Hlow by exact Hi. ring.
      + rewrite Hhigh by exact Hi. ring.
      + replace (n + n - 1 - i)%nat with (n + (n - 1 - i))%nat by lia. rewrite Hhigh by lia. ring.
      + replace (n + n - 1 - (n + i))%nat with (n - 1 - i)%nat by lia. rewrite Hlow by lia. ring. }
    + intros i Hi. apply ed_add_free; apply ed_mul_free, Hg; lia.
    + intros i Hi. apply ed_add_free; apply ed_mul_free, Hh; lia.
Qed.
End Round.
End Ip.

(** ** The loops for powers of two *)

Lemma pow_of_2_loop_pow j k fuel : (j <= k <= j + fuel)%nat -> pow_of_2_loop fuel (2 ^ j) (2 ^ k) = (2 ^ k)%nat.
Proof.
  revert j. induction fuel as [|fuel IH]; intros j Hj; cbn [pow_of_2_loop].
  - replace j with k by lia. rewrite Nat.ltb_irrefl. reflexivity.
  - destruct (Nat.eq_dec j k) as [->|Hne]; [rewrite Nat.ltb_irrefl; reflexivity|].
    rewrite (proj2 (Nat.ltb_lt _ _)) by (apply Nat.pow_lt_mono_r; lia). change (2 * 2 ^ j)%nat with (2 ^ S j)%nat. apply IH. lia.
Qed.

Lemma padded_pow k : padded_pow_of_2 (2 ^ k) = (2 ^ k)%nat.
Proof.
  unfold padded_pow_of_2. apply (pow_of_2_loop_pow 0 k (2 ^ k)).
  pose proof (Nat.pow_gt_lin_r 2 k ltac:(lia)). lia.
Qed.

Lemma lr_len_loop_pow j k fuel : (j <= k <= j + fuel)%nat -> lr_len_loop fuel j (2 ^ k) = k.
Proof.
  revert j. induction fuel as [|fuel IH]; intros j Hj; cbn [lr_len_loop].
  - replace j with k by lia. rewrite Nat.ltb_irrefl. reflexivity.
  - destruct (Nat.eq_dec j k) as [->|Hne]; [rewrite Nat.ltb_irrefl; reflexivity|].
    rewrite (proj2 (Nat.ltb_lt _ _)) by (apply Nat.pow_lt_mono_r; lia). apply IH. lia.
Qed.

(** The padded amounts of commitments *)
Lemma padded_spec m : (1 <= m <= 16)%nat -> exists j, padded_pow_of_2 m = (2 ^ j)%nat /\ (j <= 4)%nat /\ (m <= 2 ^ j)%nat.
Proof.
  intros Hm. do 17 (destruct m as [|m]; [try lia; first [exists 0%nat; vm_compute; split_and!; (reflexivity || lia)|exists 1%nat; vm_compute; split_and!; (reflexivity || lia)
    |exists 2%nat; vm_compute; split_and!; (reflexivity || lia)|exists 3%nat; vm_compute; split_and!; (reflexivity || lia)|exists 4%nat; vm_compute; split_and!; (reflexivity || lia)]|]). lia.
Qed.

(** ** Proving and verifying an inner product *)

Section IpComplete.
Context {D : Dalek} {DL : DalekLaws D} {K : Keccak} {PR : Primitives} {ST : Setup}.
Import IpStatement ScalarVector InternalBatchVerifier.

Add Ring scalars_ipc : sc_ring.

Lemma lr_sum_free xs LR : Forall (fun x => ed_is_torsion_free (fst x) = true /\ ed_is_torsion_free (snd x) = true) LR ->
  ed_is_torsion_free (lr_sum xs LR) = true.
Proof.
  intros H. revert xs. induction H as [|[L R] LR [HL HR] _ IH]; intros [|x xs]; cbn [lr_sum]; try apply ed_identity_free.
  apply ed_add_free; [|apply IH]. apply ed_add_free; apply ed_mul_free; assumption.
Qed.

Section Gens.
Context (G H : EdwardsPoint) (HG : ed_is_torsion_free G = true) (HH : ed_is_torsion_free H = true).
Context (inv : DScalar) (Hinv : forall p, ed_is_torsion_free p = true -> decomp_mul_cofactor (ed_compress (ed_mul inv p)) = Some p).
Context (gens : Generators.t).

Lemma queue_LR_spec W xs LR v : length xs = length LR ->
  Forall (fun x => ed_is_torsion_free (fst x) = true /\ ed_is_torsion_free (snd x) = true) LR ->
  exists v', queue_LR v W (zip (with_inverses xs) (map (fun x => (ed_compress (ed_mul inv (fst x)), ed_compress (ed_mul inv (snd x)))) LR)) = Ok v' /\
    g_bold v' = g_bold v /\ h_bold v' = h_bold v /\ value G H gens v' = ed_add (value G H gens v) (ed_mul W (lr_sum xs LR)).
Proof.
  intros Hl Hf. revert xs v Hl. induction Hf as [|[L R] LR [HL HR] Hf IH]; intros [|x xs] v Hl; try discriminate.
  - exists v. split; [reflexivity|]. split; [reflexivity|]. split; [reflexivity|]. cbn [lr_sum]. rewrite ed_mul_id, ed_add_id. reflexivity.
  - change (with_inverses (x :: xs)) with ((x, sc_invert x) :: with_inverses xs). cbn [map zip_with queue_LR fst snd] in *.
    rewrite (Hinv L HL), (Hinv R HR). cbn [ok_or obind].
    destruct (IH xs (push (push v (sc_mul W (sc_mul x x), L)) (sc_mul W (sc_mul (sc_invert x) (sc_invert x)), R))) as (v' & Hv & Hg & Hh & Hval); [cbn in Hl; lia|].
    exists v'. split; [exact Hv|]. split; [exact Hg|]. split; [exact Hh|]. rewrite Hval, !value_push. cbn [fst snd lr_sum].
    rewrite !ed_mul_add_r, !ed_mul_mul by assumption. rewrite !ed_add_assoc. reflexivity.
Qed.
End Gens.

(** A verifier with scalars for [n] generators, and no more than there are *)
Definition room (n : nat) (v : InternalBatchVerifier.t) : Prop :=
  (n <= length (g_bold v) <= 1024)%nat /\ (n <= length (h_bold v) <= 1024)%nat.

Definition same_room (v v' : InternalBatchVerifier.t) : Prop :=
  length (g_bold v') = length (g_bold v) /\ length (h_bold v') = length (h_bold v).

Lemma cancel_lr W (lr P X : EdwardsPoint) : ed_is_torsion_free lr = true -> ed_add lr P = X ->
  ed_add (ed_mul W lr) (ed_mul (sc_neg W) X) = ed_mul (sc_neg W) P.
Proof.
  intros Hf <-. rewrite ed_mul_add_r, ed_add_assoc, <- ed_mul_add_l by exact Hf.
  replace (sc_add W (sc_neg W)) with sc_ZERO by ring. rewrite ed_mul_zero. apply ed_id_add.
Qed.

(** A proof of the inner product of [a] and [b] queues [-P]. *)
Lemma ip_complete gens h k w uu tr a b : (forall E, GENERATORS (E := E) = Ok gens) -> (forall E, MONERO_H (E := E) = Ok h) ->
  ed_is_torsion_free h = true -> length (Generators.G gens) = 1024%nat -> length (Generators.H gens) = 1024%nat ->
  free (pt (Generators.G gens)) 1024 -> free (pt (Generators.H gens)) 1024 -> (k <= 10)%nat ->
  let n := (2 ^ k)%nat in
  exists proof, IpStatement.prove (IpStatement.mk (vec n w) uu) tr (IpWitness.mk (vec n a) (vec n b)) = Ok proof /\
    length (ip_L proof) = k /\ length (ip_R proof) = k /\ Forall (is_array 32) (ip_L proof) /\ Forall (is_array 32) (ip_R proof) /\
    forall B W v, ed_is_torsion_free B = true -> room n v -> exists v',
      IpStatement.verify (IpStatement.mk (vec n w) uu) v n tr W proof = Ok v' /\ same_room v v' /\
      value B h gens v' = ed_add (value B h gens v)
        (ed_mul (sc_neg W) (ip_P n a b (pt (Generators.G gens)) (fun i => ed_mul (w i) (pt (Generators.H gens) i)) (ed_mul uu h))).
Proof.
  intros Hgens HH Hhf Hlg Hlh Hfg Hfh Hk n. assert (Hn : (n <= 1024)%nat) by (apply (Nat.pow_le_mono_r 2 k 10); lia).
  destruct inv_eight_all as (inv & Hinv & Hdec & _).
  set (Gp := pt (Generators.G gens)) in *. set (Hp := fun i => ed_mul (w i) (pt (Generators.H gens) i)) in *.
  assert (HGn : free Gp n) by (exact (free_less _ _ _ Hn Hfg)).
  assert (HHn : free Hp n) by (intros i Hi; apply ed_mul_free, Hfh; lia).
  assert (Huf : ed_is_torsion_free (ed_mul uu h) = true) by (apply ed_mul_free, Hhf).
  destruct (prove_loop_spec inv Hinv (ed_mul uu h) Huf k n tr a b Gp Hp [] []) as (xs & LR & af & bf & s & Hxl & HLl & Hxs & HLR & Hspec);
    [pose proof (Nat.pow_gt_lin_r 2 k ltac:(lia)); unfold n; lia|exact HGn|exact HHn|].
  cbv zeta in Hspec. destruct Hspec as (Hloop & HL & HR & Ha & Hb & Hch & Hsum). fold n in Hloop, Hsum. cbn [app] in HL, HR.
  assert (HtG : take n (Generators.G gens) = vec n Gp).
  { rewrite (pt_vec (Generators.G gens)), Hlg. apply vec_take, Hn. }
  assert (HtH : take n (Generators.H gens) = vec n (pt (Generators.H gens))).
  { rewrite (pt_vec (Generators.H gens)) at 1. rewrite Hlh. apply vec_take, Hn. }
  exists (mk_IpProof (L_vec s) (R_vec s) af bf). split; [|split; [|split; [|split; [|split]]]].
  - unfold IpStatement.prove. cbn [IpWitness.a IpWitness.b h_bold_weights IpStatement.u]. rewrite Hgens. cbn [obind]. rewrite vec_length.
    rewrite !(proj2 (Nat.ltb_ge _ _)) by lia. cbn [obind]. rewrite HH. cbn [obind]. rewrite HtG, HtH, !vec_length, Nat.eqb_refl. cbn [negb].
    unfold PointVector.mul_vec. rewrite !vec_length, Nat.eqb_refl. cbn [negb obind]. rewrite vec_zip_with. fold Hp. rewrite Hloop. cbn [obind].
    rewrite Ha, Hb. reflexivity.
  - cbn [ip_L]. rewrite HL, !length_map. exact HLl.
  - cbn [ip_R]. rewrite HR, !length_map. exact HLl.
  - cbn [ip_L]. rewrite HL, map_map. apply Forall_map, Forall_true. intros x. apply ed_compress_array.
  - cbn [ip_R]. rewrite HR, map_map. apply Forall_map, Forall_true. intros x. apply ed_compress_array.
  - intros B W v HB [[Hg1 Hg2] [Hh1 Hh2]]. unfold IpStatement.verify. cbn [ip_L ip_R ip_a ip_b h_bold_weights IpStatement.u]. rewrite Hgens. cbn [obind].
    rewrite Hlg, Hlh, (proj2 (Nat.ltb_ge _ _)) by lia. cbn [obind]. rewrite HL, HR, !length_map, HLl.
    change (lr_len_loop n 0 n) with (lr_len_loop n 0 (2 ^ k)). rewrite (lr_len_loop_pow 0 k n) by (pose proof (Nat.pow_gt_lin_r 2 k ltac:(lia)); unfold n; lia). rewrite Nat.eqb_refl. cbn [negb].
    set (compressed := map (fun x => (ed_compress (ed_mul inv (fst x)), ed_compress (ed_mul inv (snd x)))) LR) in *.
    rewrite zip_fst_snd, Hch. cbn [obind]. rewrite sc_batch_invert_map by exact Hxs. fold (with_inverses xs).
    destruct (queue_LR_spec B h inv Hdec gens W xs LR v) as (v1 & Hv1 & Hgb & Hhb & Hval); [lia|exact HLR|].
    fold compressed in Hv1. rewrite Hv1. cbn [obind]. rewrite challenge_products_spec. cbn [obind].
    set (ps := products (with_inverses xs)) in *. assert (Hpl : length ps = n) by (unfold ps; rewrite products_length, with_inverses_length, Hxl; reflexivity).
    assert (Hps : forall E i, (i < n)%nat -> index (E := E) ps i = Ok (fn ps i)).
    { intros E i Hi. rewrite (fn_vec ps) at 1. rewrite Hpl. apply index_vec, Hi. }
    destruct (update_each_spec sc_sub (g_bold v1) n (fun E i => let? p := index (E := E) ps i in Ok (sc_mul (sc_mul W p) af)) sc_neg Gp) with
      (d := fun i => sc_mul (sc_mul W (fn ps i)) af) as (gb & Hgb' & Hgl & Hgs);
      [apply sc_sub_neg|rewrite Hgb; lia|rewrite Hgb; apply (free_less _ _ _ Hg2 Hfg)|intros i Hi E; rewrite Hps by exact Hi; reflexivity|].
    rewrite Hgb'. cbn [obind].
    destruct (update_each_spec sc_sub (h_bold v1) n (fun E i => let? p := index (E := E) ps (length ps - 1 - i) in
      let? w := index (vec n w) i in Ok (sc_mul (sc_mul (sc_mul W p) bf) w)) sc_neg (pt (Generators.H gens))) with
      (d := fun i => sc_mul (sc_mul (sc_mul W (fn ps (n - 1 - i))) bf) (w i)) as (hb & Hhb' & Hhl & Hhs);
      [apply sc_sub_neg|rewrite Hhb; lia|rewrite Hhb; apply (free_less _ _ _ Hh2 Hfh)
      |intros i Hi E; rewrite Hpl, Hps by lia; cbn [obind]; rewrite index_vec by exact Hi; reflexivity|].
    rewrite Hhb'. cbn [obind]. eexists. split; [reflexivity|].
    split; [split; cbn [with_h_bold with_g_bold sub_h g_bold h_bold]; congruence|].
    rewrite value_sub_h by exact Hhf. erewrite value_h_bold; [|cbn [with_g_bold h_bold]; rewrite Hhl; exact Hhs].
    erewrite value_g_bold; [|rewrite Hgl; exact Hgs]. rewrite Hval. clear Hgs Hhs Hval Hgb' Hhb'.
    rewrite <- !ed_add_assoc. f_equal. rewrite <- (cancel_lr W _ _ _ (lr_sum_free xs LR HLR) Hsum). f_equal.
    rewrite !ed_mul_add_r, <- !psum_mul, <- ed_add_assoc by assumption.
    rewrite (ed_mul_mul _ _ (ed_mul uu h)) by exact Huf. rewrite ed_mul_mul by exact Hhf.
    f_equal; [apply psum_ext; intros i Hi; split; [ring|reflexivity]|]. f_equal; [|f_equal; ring].
    unfold Hp. assert (Hf : free (pt (Generators.H gens)) n) by (exact (free_less _ _ _ Hn Hfh)).
    unfold Hp. rewrite psum_scaled by exact Hf. apply psum_ext. intros i Hi. split; [ring|reflexivity].
Qed.
End IpComplete.
