(* ===== verification/BpRange.v ===== *)
(** Lemmas for the aggregate range proof of Bulletproofs: the loops over its rows
    of bits, and the bits of the amounts, which sum to what they commit to
    ([ringct/bulletproofs/src/original/mod.rs]). *)

From Stdlib Require Import ZArith Lia Ring.
From stdpp Require Import base list strings numbers.
From S2P Require Import Prelude Dalek MoneroIo Ed25519 Clsag Bulletproofs BpCore BpOriginal BpAlgebra BpVectors BpOriginalProofs.

(** ** Loops *)

Lemma ofold_all {A S} (f : forall E, S -> A -> outcome E S) (Inv : nat -> S -> Prop) m (x : nat -> A) s : Inv 0%nat s ->
  (forall i s, (i < m)%nat -> Inv i s -> exists s', (forall E, f E s (x i) = Ok s') /\ Inv (Datatypes.S i) s') ->
  exists s', (forall E, ofold (f E) s (vec m x) = Ok s') /\ Inv m s'.
Proof.
  intros H0 Hs. induction m as [|m IH]; [exists s; split; [reflexivity|exact H0]|].
  destruct IH as (s1 & Hf & Hi); [intros; apply Hs; auto|]. destruct (Hs m s1 ltac:(lia) Hi) as (s2 & Hf2 & Hi2).
  exists s2. split; [|exact Hi2]. intros E. rewrite vec_S, ofold_app, Hf. cbn [obind ofold]. rewrite Hf2. reflexivity.
Qed.

Lemma seq_vec n : seq 0 n = vec n (fun i => i).
Proof. unfold vec. rewrite map_id. reflexivity. Qed.

Lemma enumerate_vec {A} (d : A) l : enumerate l = vec (length l) (fun i => (i, default d (l !! i))).
Proof.
  unfold enumerate. rewrite seq_vec. assert (H : l = vec (length l) (fun i => default d (l !! i))).
  { apply list_vec; [reflexivity|]. intros i Hi. destruct (lookup_lt_is_Some_2 l i Hi) as [a ->]. reflexivity. }
  rewrite H at 2. apply vec_zip_with.
Qed.

Lemma index_div j i : (i < BITS)%nat -> ((j * BITS + i) / BITS = j /\ (j * BITS + i) mod BITS = i)%nat.
Proof.
  intros Hi. assert (Hb : BITS <> 0%nat) by discriminate. rewrite Nat.add_comm, Nat.div_add, Nat.Div0.mod_add by exact Hb.
  rewrite Nat.div_small, Nat.mod_small by exact Hi. split; lia.
Qed.

Section Loops.
Context {D : Dalek} {DL : DalekLaws D}.

(** A loop over rows of bits, which adds to each *)
Lemma rows_loop (f : forall E, list DScalar -> nat -> nat -> outcome E (list DScalar)) (d : nat -> DScalar) p l :
  (p * BITS <= length l)%nat ->
  (forall E l' j i, length l' = length l -> (j < p)%nat -> (i < BITS)%nat ->
    f E l' j i = Ok (<[(j * BITS + i)%nat := sc_add (fn l' (j * BITS + i)) (d (j * BITS + i)%nat)]> l')) ->
  exists l', (forall E, ofold (fun l j => ofold (fun l i => f E l j i) l (seq 0 BITS)) l (seq 0 p) = Ok l') /\ length l' = length l /\
    forall k, fn l' k = if (k <? p * BITS)%nat then sc_add (fn l k) (d k) else fn l k.
Proof.
  intros Hl Hf. pose (Inv := fun c (l' : list DScalar) => length l' = length l /\
    forall k, fn l' k = if (k <? c)%nat then sc_add (fn l k) (d k) else fn l k).
  rewrite seq_vec. setoid_rewrite seq_vec. apply (ofold_all (fun E l j => ofold (fun l i => f E l j i) l (vec BITS (fun i => i)))
    (fun j => Inv (j * BITS)%nat)); [split; [reflexivity|intros k; destruct (Nat.ltb_spec k (0 * BITS)); [lia|reflexivity]]|].
  intros j l1 Hj Hi1. replace (S j * BITS)%nat with (j * BITS + BITS)%nat by lia.
  apply (ofold_all (fun E l i => f E l j i) (fun i => Inv (j * BITS + i)%nat)); [rewrite Nat.add_0_r; exact Hi1|].
  intros i l2 Hi [Hlen Hfn]. assert (Hk : (j * BITS + i < length l)%nat) by nia. eexists.
  split; [intros E; apply Hf; assumption|]. split; [rewrite length_insert; exact Hlen|]. intros k. rewrite fn_insert by lia. rewrite !Hfn.
  destruct (Nat.eqb_spec k (j * BITS + i)) as [->|Hne].
  - rewrite Nat.ltb_irrefl, (proj2 (Nat.ltb_lt _ _)) by lia. reflexivity.
  - destruct (Nat.ltb_spec k (j * BITS + i)), (Nat.ltb_spec k (j * BITS + S i)); reflexivity || lia.
Qed.

Lemma psum_prefix n N f d P : (N <= n)%nat -> free P n ->
  psum n (fun k => if (k <? N)%nat then sc_add (f k) (d k) else f k) P = ed_add (psum n f P) (psum N d P).
Proof.
  intros HN HP. replace n with (N + (n - N))%nat by lia. rewrite !psum_split.
  rewrite (psum_ext N _ (fun k => sc_add (f k) (d k)) P P), psum_add.
  - rewrite (psum_ext (n - N) _ (fun i => f (N + i)%nat) _ (fun i => P (N + i)%nat)).
    + apply add_right.
    + intros i Hi. destruct (Nat.ltb_spec (N + i) N); [lia|auto].
  - intros i Hi. apply HP. lia.
  - intros i Hi. rewrite (proj2 (Nat.ltb_lt _ _) Hi). auto.
Qed.
End Loops.

(** ** The bits of the amounts *)

Section Bits.
Context {D : Dalek} {DL : DalekLaws D}.
Import ScalarVector OriginalStatement.

Add Ring scalars_b : sc_ring.

Definition bit (v : Z) (i : nat) : DScalar := sc_from_u64 (Z.land (Z.shiftr v (Z.of_nat i)) 1).

Lemma land_1 v : Z.land v 1 = v mod 2.
Proof. change 1 with (Z.ones 1). apply Z.land_ones. lia. Qed.

Lemma bit_zero_one v i : bit v i = sc_ZERO \/ bit v i = sc_ONE.
Proof.
  unfold bit. rewrite land_1. pose proof (Z.mod_pos_bound (Z.shiftr v (Z.of_nat i)) 2 ltac:(lia)) as Hb.
  assert (Z.shiftr v (Z.of_nat i) mod 2 = 0 \/ Z.shiftr v (Z.of_nat i) mod 2 = 1) as [-> | ->] by lia.
  - left. apply sc_val_inj. rewrite sc_u64_val, sc_zero_val by (unfold U; lia). reflexivity.
  - right. apply sc_val_inj. rewrite sc_u64_val, sc_one_val by (unfold U; lia). reflexivity.
Qed.

Lemma bit_square v i : sc_mul (bit v i) (sc_sub (bit v i) sc_ONE) = sc_ZERO.
Proof. destruct (bit_zero_one v i) as [-> | ->]; ring. Qed.

Lemma u64_add x y : U 64 x -> U 64 y -> U 64 (x + y) -> sc_from_u64 (x + y) = sc_add (sc_from_u64 x) (sc_from_u64 y).
Proof.
  intros Hx Hy Hxy. apply sc_val_inj. rewrite sc_add_val, !sc_u64_val by assumption. symmetry. apply Z.mod_small.
  unfold U in Hxy. assert (2 ^ 64 < L) by reflexivity. lia.
Qed.

Lemma u64_mul x y : U 64 x -> U 64 y -> U 64 (x * y) -> sc_from_u64 (x * y) = sc_mul (sc_from_u64 x) (sc_from_u64 y).
Proof.
  intros Hx Hy Hxy. apply sc_val_inj. rewrite sc_mul_val, !sc_u64_val by assumption. symmetry. apply Z.mod_small.
  unfold U in Hxy. assert (2 ^ 64 < L) by reflexivity. lia.
Qed.

Lemma u64_zero : sc_from_u64 0 = sc_ZERO.
Proof. apply sc_val_inj. rewrite sc_u64_val, sc_zero_val by (unfold U; lia). reflexivity. Qed.

Definition two : DScalar := sc_from_u64 2.

Lemma spow_two i : (i < 64)%nat -> spow two i = sc_from_u64 (2 ^ Z.of_nat i).
Proof.
  induction i as [|i IH]; intros Hi.
  - apply sc_val_inj. cbn [spow]. rewrite sc_one_val, sc_u64_val by (unfold U; lia). reflexivity.
  - cbn [spow]. rewrite IH by lia. unfold two. rewrite <- u64_mul.
    + f_equal. rewrite Nat2Z.inj_succ, Z.pow_succ_r by lia. lia.
    + split; [apply Z.pow_nonneg; lia|apply Z.pow_lt_mono_r; lia].
    + unfold U. lia.
    + replace (2 ^ Z.of_nat i * 2) with (2 ^ (Z.of_nat i + 1)) by (rewrite Z.pow_add_r by lia; lia).
      split; [apply Z.pow_nonneg; lia|apply Z.pow_lt_mono_r; lia].
Qed.

(** The bits of an amount are its bits. *)
Lemma bits_value v : U 64 v -> ssum BITS (fun i => sc_mul (bit v i) (spow two i)) = sc_from_u64 v.
Proof.
  intros Hv. change BITS with 64%nat.
  assert (H : forall k, (k <= 64)%nat -> ssum k (fun i => sc_mul (bit v i) (spow two i)) = sc_from_u64 (v mod 2 ^ Z.of_nat k)).
  { induction k as [|k IH]; intros Ht; cbn [ssum].
    { change (2 ^ Z.of_nat 0) with 1. rewrite Z.mod_1_r, u64_zero. reflexivity. }
    rewrite IH, spow_two by lia. unfold bit. rewrite land_1, Z.shiftr_div_pow2 by lia.
    set (p := 2 ^ Z.of_nat k). assert (Hp : 0 < p) by (apply Z.pow_pos_nonneg; lia).
    assert (Hp64 : p <= 2 ^ 63) by (apply Z.pow_le_mono_r; lia).
    pose proof (Z.mod_pos_bound v p Hp) as Hm. pose proof (Z.mod_pos_bound (v / p) 2 ltac:(lia)) as Hb.
    assert (Heq : v mod 2 ^ Z.of_nat (S k) = v mod p + (v / p) mod 2 * p).
    { rewrite Nat2Z.inj_succ, Z.pow_succ_r by lia. fold p. rewrite (Z.mul_comm 2 p), Z.rem_mul_r by lia. lia. }
    rewrite <- u64_mul, <- u64_add, <- Heq by (unfold U; nia). reflexivity. }
  rewrite H by lia. rewrite Z.mod_small; [reflexivity|]. exact Hv.
Qed.

Lemma amount_bits_spec N f i v : (i * BITS + BITS <= N)%nat ->
  forall E, amount_bits (E := E) (vec N f) i v =
    Ok (vec N (fun k => if (i * BITS <=? k)%nat && (k <? i * BITS + BITS)%nat then bit v (k - i * BITS) else f k)).
Proof.
  intros Hi E. unfold amount_bits.
  assert (H : forall c, (c <= BITS)%nat -> ofold (fun (s : list DScalar * Z) j =>
      let (aL, amount) := s in
      let? aL := set_at (E := E) aL (i * BITS + j) (sc_from_u64 (Z.land amount 1)) in
      Ok (aL, Z.shiftr amount 1)) (vec N f, v) (seq 0 c) =
    Ok (vec N (fun k => if (i * BITS <=? k)%nat && (k <? i * BITS + c)%nat then bit v (k - i * BITS) else f k), Z.shiftr v (Z.of_nat c))).
  { induction c as [|c IH]; intros Ht.
    - cbn [seq ofold]. rewrite Z.shiftr_0_r. do 2 f_equal. apply vec_ext. intros k Hk.
      destruct (Nat.leb_spec (i * BITS) k), (Nat.ltb_spec k (i * BITS + 0)); reflexivity || lia.
    - rewrite seq_S, ofold_app, IH by lia. cbn [obind ofold Nat.add]. rewrite set_at_vec by lia. cbn [obind]. do 2 f_equal.
      + apply vec_ext. intros k Hk. destruct (Nat.eqb_spec k (i * BITS + c)) as [->|Hne].
        * rewrite (proj2 (Nat.leb_le _ _)), (proj2 (Nat.ltb_lt _ _)) by lia. cbn [andb]. unfold bit. do 3 f_equal. lia.
        * destruct (Nat.leb_spec (i * BITS) k), (Nat.ltb_spec k (i * BITS + c)), (Nat.ltb_spec k (i * BITS + S c)); reflexivity || lia.
      + rewrite Z.shiftr_shiftr by lia. f_equal. lia. }
  rewrite H by lia. reflexivity.
Qed.

(** The default commitment is of no consequence. *)
Definition com (w : list Commitment.t) (i : nat) : Commitment.t := default (Commitment.new [] 0) (w !! i).

(** The bits of all of the amounts, those of the padding included *)
Definition all_bits (w : list Commitment.t) (k : nat) : DScalar :=
  if (k / BITS <? length w)%nat then bit (Commitment.amount (com w (k / BITS))) (k mod BITS) else sc_ZERO.

Lemma all_bits_square w k : sc_mul (all_bits w k) (sc_sub (all_bits w k) sc_ONE) = sc_ZERO.
Proof. unfold all_bits. destruct (_ <? _)%nat; [apply bit_square|ring]. Qed.

Lemma all_bits_spec w p : (length w <= p)%nat -> forall E,
  ofold (fun aL (x : nat * Commitment.t) => amount_bits (E := E) aL (fst x) (Commitment.amount (snd x)))
    (ScalarVector.new (p * BITS)) (enumerate w) = Ok (vec (p * BITS) (all_bits w)).
Proof.
  intros Hw E. rewrite (enumerate_vec (Commitment.new [] 0)). unfold ScalarVector.new. rewrite repeat_vec.
  pose (upto := fun i k => if (k / BITS <? i)%nat then bit (Commitment.amount (com w (k / BITS))) (k mod BITS) else sc_ZERO).
  destruct (ofold_all (fun E aL (x : nat * Commitment.t) => amount_bits (E := E) aL (fst x) (Commitment.amount (snd x)))
    (fun i aL => aL = vec (p * BITS) (upto i)) (length w) (fun i => (i, com w i)) (vec (p * BITS) (fun _ => sc_ZERO))) as (aL & Hf & ->).
  - reflexivity.
  - intros i aL Hi ->. eexists. split; [intros E'; apply amount_bits_spec; cbn [fst]; nia|]. cbn [fst snd]. apply vec_ext. intros k Hk. unfold upto.
    destruct (Nat.leb_spec (i * BITS) k) as [H1|H1]; cbn [andb].
    + destruct (Nat.ltb_spec k (i * BITS + BITS)) as [H2|H2].
      * destruct (index_div i (k - i * BITS)) as [Hd Hm]; [lia|]. replace (i * BITS + (k - i * BITS))%nat with k in Hd, Hm by lia.
        rewrite Hd, Hm, (proj2 (Nat.ltb_lt _ _)) by lia. reflexivity.
      * assert (i < k / BITS)%nat; [|rewrite !(proj2 (Nat.ltb_ge _ _)) by lia; reflexivity].
        apply Nat.lt_le_trans with (S i); [lia|]. apply Nat.div_le_lower_bound; [discriminate|lia].
    + assert (k / BITS < i)%nat; [|rewrite !(proj2 (Nat.ltb_lt _ _)) by lia; reflexivity].
      apply Nat.Div0.div_lt_upper_bound; lia.
  - apply Hf.
Qed.
End Bits.
