(* ===== verification/BpComplete.v ===== *)
(** Completeness of Bulletproofs' aggregate range proof: what [prove] yields,
    [verify] queues as a sum which is the identity
    ([ringct/bulletproofs/src/original/mod.rs]). *)

From Stdlib Require Import ZArith Lia Ring.
From stdpp Require Import base list strings numbers.
From S2P Require Import Prelude Dalek MoneroIo Ed25519 Clsag Bulletproofs BpCore BpOriginal BpAlgebra BpVectors BpOriginalProofs BpRange.

(** ** The pieces of [prove] *)

Section Pieces.
Context {D : Dalek} {DL : DalekLaws D} {K : Keccak} {PR : Primitives} {ST : Setup}.
Import ScalarVector OriginalStatement.

Add Ring scalars_p : sc_ring.

Lemma fn_at n f i : (i < n)%nat -> fn (vec n f) i = f i.
Proof. intros Hi. unfold fn. rewrite vec_lookup by exact Hi. reflexivity. Qed.

Lemma random_pairs_all n g : exists pairs g', length pairs = n /\ forall E, random_pairs (E := E) n g = Ok (pairs, g').
Proof.
  revert g. induction n as [|n IH]; intros g; [exists [], g; split; reflexivity|].
  destruct (random_scalar_all g) as (a & g1 & H1). destruct (random_scalar_all g1) as (b & g2 & H2). destruct (IH g2) as (l & g3 & Hl & H3).
  exists ((a, b) :: l), g3. split; [cbn; congruence|]. intros E. cbn [random_pairs]. rewrite H1. cbn [obind]. rewrite H2. cbn [obind].
  rewrite H3. reflexivity.
Qed.

(** A vector commitment, before it's divided by eight *)
Definition commits (gens : Generators.t) (n : nat) (mask : DScalar) (l r : nat -> DScalar) : EdwardsPoint :=
  ed_add (ed_mul mask ED25519_BASEPOINT_POINT) (ed_add (psum n l (pt (Generators.G gens))) (psum n r (pt (Generators.H gens)))).

Section Inv.
Context (inv : DScalar) (Hinv : forall E, inv_eight (E := E) = Ok inv).

Lemma vector_commitment_spec {E} gens n mask l r : (n <= length (Generators.G gens))%nat -> (n <= length (Generators.H gens))%nat ->
  vector_commitment (E := E) mask (vec n l) (vec n r) gens = Ok (ed_compress (ed_mul inv (commits gens n mask l r))).
Proof.
  intros Hg Hh. unfold vector_commitment. rewrite Hinv. cbn [obind]. do 3 f_equal. rewrite multiexp_msm. cbn [msm foldr fst snd].
  fold (msm (zip (vec n l) (Generators.G gens) ++ zip (vec n r) (Generators.H gens))). rewrite msm_app, !msm_zip by assumption. reflexivity.
Qed.

Lemma T_commitment_spec {E} h t tau : (forall E, MONERO_H (E := E) = Ok h) -> ed_is_torsion_free h = true ->
  T_commitment (E := E) t tau = Ok (ed_compress (ed_mul inv (ed_add (ed_mul t h) (ed_mul tau ED25519_BASEPOINT_POINT)))).
Proof.
  intros Hh Hf. unfold T_commitment. rewrite Hinv. cbn [obind]. rewrite Hh. cbn [obind]. do 2 f_equal. rewrite multiexp_msm.
  cbn [msm foldr fst snd]. rewrite ed_add_id, ed_mul_add_r, !ed_mul_mul by (exact Hf || apply ed_basepoint_free). rewrite !(sc_mul_comm inv). reflexivity.
Qed.
End Inv.

(** What the [k]th bit is weighed by: its row's weight, and its power of two *)
Definition weigh_by (c : nat -> DScalar) (k : nat) : DScalar := sc_mul (c (k / BITS)%nat) (spow two (k mod BITS)).
Definition weigh (z : DScalar) : nat -> DScalar := weigh_by (fun j => spow z (2 + j)).

Lemma add_z_twos_spec p z r : exists r', (forall E, add_z_twos (E := E) p (powers z (3 + p)) (powers two BITS) (vec (p * BITS) r) = Ok r') /\
  r' = vec (p * BITS) (fun k => sc_add (r k) (weigh z k)).
Proof.
  destruct (rows_loop (fun E r0 j i =>
      let? s := index (E := E) r0 (j * BITS + i) in
      let? z := index (powers z (3 + p)) (2 + j) in
      let? two := index (powers two BITS) i in
      set_at r0 (j * BITS + i) (sc_add s (sc_mul z two))) (weigh z) p (vec (p * BITS) r)) as (r' & Hr & Hl & Hk).
  - rewrite vec_length. lia.
  - intros E l' j i Hl Hj Hi. rewrite vec_length in Hl. assert (Hb : (j * BITS + i < length l')%nat) by nia.
    unfold index at 1. rewrite (fn_vec l') at 1. rewrite vec_lookup by exact Hb. cbn [expect obind]. rewrite !powers_vec, !index_vec by lia. cbn [obind].
    unfold set_at. rewrite (proj2 (Nat.ltb_lt _ _)) by exact Hb. unfold weigh, weigh_by. destruct (index_div j i Hi) as [-> ->]. reflexivity.
  - exists r'. split; [exact Hr|]. rewrite (fn_vec r'), Hl, vec_length. apply vec_ext. intros k Hk'. rewrite Hk, (proj2 (Nat.ltb_lt _ _)) by exact Hk'.
    rewrite fn_at by exact Hk'. reflexivity.
Qed.

(** The masks and the amounts, as scalars *)
Definition gamma (w : list Commitment.t) (i : nat) : DScalar := default sc_ZERO (sc_from_canonical_bytes (Commitment.mask (com w i))).
Definition value_of (w : list Commitment.t) (i : nat) : DScalar := if (i <? length w)%nat then sc_from_u64 (Commitment.amount (com w i)) else sc_ZERO.

Lemma com_ok w i : Forall commitment_ok w -> (i < length w)%nat -> commitment_ok (com w i).
Proof. intros Hw Hi. unfold com. destruct (lookup_lt_is_Some_2 w i Hi) as [c Hc]. rewrite Hc. rewrite Forall_lookup in Hw. exact (Hw i c Hc). Qed.

Lemma gamma_spec {E} w i : Forall commitment_ok w -> (i < length w)%nat -> Scalar.into (E := E) (Commitment.mask (com w i)) = Ok (gamma w i).
Proof. intros Hw Hi. destruct (com_ok w i Hw Hi) as [[_ [s Hs]] _]. unfold gamma, Scalar.into. rewrite Hs. reflexivity. Qed.

Lemma add_masks_spec {E} w z n tau : Forall commitment_ok w -> (2 + length w <= n)%nat ->
  add_masks (E := E) (powers z n) tau w = Ok (sc_add tau (ssum (length w) (fun i => sc_mul (spow z (2 + i)) (gamma w i)))).
Proof.
  intros Hw Hn. unfold add_masks. rewrite (enumerate_vec (Commitment.new [] 0)).
  destruct (ofold_all (fun E tau (x : nat * Commitment.t) => let (i, commitment) := x in
      let? z := index (E := E) (powers z n) (2 + i) in let? mask := Scalar.into (Commitment.mask commitment) in Ok (sc_add tau (sc_mul z mask)))
    (fun k t => t = sc_add tau (ssum k (fun i => sc_mul (spow z (2 + i)) (gamma w i)))) (length w) (fun i => (i, com w i)) tau) as (t & Ht & ->).
  - cbn [ssum]. ring.
  - intros i t Hi ->. eexists. split; [intros E'; rewrite powers_vec, index_vec by lia; cbn [obind]; rewrite gamma_spec by assumption; reflexivity|].
    cbn [ssum]. ring.
  - apply Ht.
Qed.

(** The commitments *)
Definition committed (w : list Commitment.t) (h : EdwardsPoint) (i : nat) : EdwardsPoint :=
  ed_add (ed_mul (gamma w i) ED25519_BASEPOINT_POINT) (ed_mul (value_of w i) h).

Lemma commits_spec w h : Forall commitment_ok w -> (forall E, Commitment.H (E := E) = Ok h) ->
  forall E, each (Commitment.commit (E := E)) w = Ok (vec (length w) (committed w h)).
Proof.
  intros Hw Hh E. assert (He : forall k, (k <= length w)%nat -> each (Commitment.commit (E := E)) (drop k w) = Ok (drop k (vec (length w) (committed w h)))).
  { intros k. remember (length w - k)%nat as r eqn:Hr. revert k Hr. induction r as [|r IH]; intros k Hr Hk.
    - rewrite !drop_ge by (rewrite ?vec_length; lia). reflexivity.
    - destruct (lookup_lt_is_Some_2 w k ltac:(lia)) as [c Hc]. rewrite (drop_S w c k Hc), (drop_S _ (committed w h k) k) by (apply vec_lookup; lia).
      cbn [each]. rewrite IH by lia. assert (Hcc : com w k = c) by (unfold com; rewrite Hc; reflexivity).
      unfold Commitment.commit at 1. rewrite <- Hcc, gamma_spec by (assumption || lia). cbn [obind]. rewrite Hh. cbn [obind]. do 2 f_equal.
      rewrite ed_multiscalar_mul_sum by reflexivity. cbn [ed_msm]. rewrite ed_add_id. unfold committed, value_of.
      rewrite (proj2 (Nat.ltb_lt _ _)) by lia. reflexivity. }
  exact (He 0%nat ltac:(lia)).
Qed.

(** ** The inner product of the constant terms *)

Lemma ssum_rows p f : ssum (p * BITS) (fun k => f (k / BITS)%nat (k mod BITS)%nat) = ssum p (fun j => ssum BITS (f j)).
Proof.
  rewrite ssum_nested. apply ssum_ext. intros j Hj. apply ssum_ext. intros i Hi. destruct (index_div j i Hi) as [-> ->]. reflexivity.
Qed.

(** The bits, each weighed by its row and by its power of two *)
Lemma all_bits_value w p c : Forall commitment_ok w -> (length w <= p)%nat ->
  ssum (p * BITS) (fun k => sc_mul (weigh_by c k) (all_bits w k)) = ssum (length w) (fun j => sc_mul (c j) (value_of w j)).
Proof.
  intros Hw Hp. unfold weigh_by, all_bits.
  rewrite (ssum_rows p (fun j i => sc_mul (sc_mul (c j) (spow two i)) (if (j <? length w)%nat then bit (Commitment.amount (com w j)) i else sc_ZERO))).
  transitivity (ssum p (fun j => sc_mul (c j) (value_of w j))).
  - apply ssum_ext. intros j Hj. unfold value_of. destruct (Nat.ltb_spec j (length w)) as [Hjw|Hjw].
    + rewrite <- bits_value by (apply com_ok; assumption). rewrite <- ssum_mul. apply ssum_ext. intros i Hi. ring.
    + rewrite (ssum_ext BITS _ (fun _ => sc_ZERO)), ssum_zero by (intros i _; ring). ring.
  - replace p with (length w + (p - length w))%nat by lia. rewrite ssum_split. rewrite (ssum_ext (p - length w) _ (fun _ => sc_ZERO)), ssum_zero by
      (intros i Hi; unfold value_of; rewrite (proj2 (Nat.ltb_ge _ _)) by lia; ring). ring.
Qed.

Lemma weigh_sum p z : ssum (p * BITS) (weigh z) = ssum p (fun j => sc_mul (spow z (2 + j)) (ssum BITS (spow two))).
Proof.
  unfold weigh, weigh_by. rewrite (ssum_rows p (fun j i => sc_mul (spow z (2 + j)) (spow two i))). apply ssum_ext. intros j _. apply ssum_mul.
Qed.

(** [t_0] of the paper *)
Lemma t_0 w p y z : Forall commitment_ok w -> (length w <= p)%nat ->
  ssum (p * BITS) (fun k => sc_mul (sc_sub (all_bits w k) z) (sc_add (sc_mul (sc_add (sc_sub (all_bits w k) sc_ONE) z) (spow y k)) (weigh z k))) =
  sc_sub (sc_add (sc_mul (sc_sub z (sc_mul z z)) (ssum (p * BITS) (spow y))) (ssum (length w) (fun j => sc_mul (spow z (2 + j)) (value_of w j))))
    (ssum p (fun j => sc_mul (spow z (3 + j)) (ssum BITS (spow two)))).
Proof.
  intros Hw Hp. rewrite <- (all_bits_value w p (fun j => spow z (2 + j)) Hw Hp). fold (weigh z).
  rewrite (ssum_ext p (fun j => sc_mul (spow z (3 + j)) (ssum BITS (spow two))) (fun j => sc_mul z (sc_mul (spow z (2 + j)) (ssum BITS (spow two))))) by
    (intros j _; cbn [Nat.add spow]; ring).
  rewrite ssum_mul, <- weigh_sum, <- !ssum_mul, <- ssum_add, <- ssum_sub. apply ssum_ext. intros k _. pose proof (all_bits_square w k) as Hsq.
  set (a := all_bits w k) in *. transitivity (sc_add (sc_mul (sc_mul a (sc_sub a sc_ONE)) (spow y k)) (sc_sub (sc_add (sc_mul (sc_sub z (sc_mul z z)) (spow y k))
    (sc_mul (weigh z k) a)) (sc_mul z (weigh z k)))); [ring|]. rewrite Hsq. ring.
Qed.
End Pieces.

(** ** The equations [verify] queues *)

Section Queued.
Context {D : Dalek} {DL : DalekLaws D}.
Import ScalarVector InternalBatchVerifier OriginalStatement.
Context (B h : EdwardsPoint) (HB : ed_is_torsion_free B = true) (Hh : ed_is_torsion_free h = true) (gens : Generators.t).

Add Ring scalars_q : sc_ring.

Abbreviation value := (value B h gens).

(** The same scalars for the generators which are vectors *)
Definition same_bold (v v' : InternalBatchVerifier.t) : Prop := g_bold v' = g_bold v /\ h_bold v' = h_bold v.

(** The loop which queues the commitments *)
Lemma queue_commitments n m z weight C v : (2 + m <= n)%nat -> exists v',
  (forall E, ofold (E := E) (fun verifier (x : nat * EdwardsPoint) =>
    let (i, commitment) := x in
    let? z := index (powers z n) (2 + i) in
    Ok (push verifier (sc_mul weight z, commitment))) v (enumerate (vec m C)) = Ok v') /\
  same_bold v v' /\ value v' = ed_add (value v) (psum m (fun i => sc_mul weight (spow z (2 + i))) C).
Proof.
  intros Hn. rewrite (enumerate_vec ed_identity), vec_length. rewrite (vec_ext m (fun i => (i, default ed_identity (vec m C !! i))) (fun i => (i, C i))) by
    (intros i Hi; rewrite vec_lookup by exact Hi; reflexivity).
  apply (ofold_all (fun E verifier (x : nat * EdwardsPoint) => let (i, commitment) := x in let? z := index (E := E) (powers z n) (2 + i) in
    Ok (push verifier (sc_mul weight z, commitment)))
    (fun i v' => same_bold v v' /\ value v' = ed_add (value v) (psum i (fun i => sc_mul weight (spow z (2 + i))) C))).
  - split; [split; reflexivity|]. symmetry. apply ed_add_id.
  - intros i v1 Hi [[Hg Hb] Hv]. eexists. split; [intros E; rewrite powers_vec, index_vec by lia; reflexivity|].
    split; [split; assumption|]. rewrite value_push, Hv. symmetry. apply ed_add_assoc.
Qed.

(** The loop which subtracts the powers of two *)
Lemma queue_twos n p z weight t v : (3 + p <= n)%nat -> exists v',
  (forall E, ofold (E := E) (fun verifier i =>
    let? z := index (powers z n) (3 + i) in
    Ok (sub_h verifier (sc_mul (sc_mul weight z) t))) v (seq 0 p) = Ok v') /\
  same_bold v v' /\ value v' = ed_add (value v) (ed_mul (sc_neg (ssum p (fun i => sc_mul (sc_mul weight (spow z (3 + i))) t))) h).
Proof.
  intros Hn. rewrite seq_vec. apply (ofold_all (fun E verifier i => let? z := index (E := E) (powers z n) (3 + i) in
    Ok (sub_h verifier (sc_mul (sc_mul weight z) t)))
    (fun k v' => same_bold v v' /\ value v' = ed_add (value v) (ed_mul (sc_neg (ssum k (fun i => sc_mul (sc_mul weight (spow z (3 + i))) t))) h))).
  - split; [split; reflexivity|]. cbn [ssum]. replace (sc_neg sc_ZERO) with sc_ZERO by ring. rewrite ed_mul_zero. symmetry. apply ed_add_id.
  - intros i v1 Hi [[Hg Hb] Hv]. eexists. split; [intros E; rewrite powers_vec, index_vec by lia; reflexivity|].
    split; [split; assumption|]. rewrite value_sub_h, Hv by exact Hh. rewrite <- ed_add_assoc, <- ed_mul_add_l by exact Hh. do 2 f_equal.
    cbn [ssum]. ring.
Qed.

(** Equation (65) sums to the identity when its two coordinates do. *)
Lemma queue_65_spec w m p C g_ v_ tau_x t_hat x z y n t1 t2 tau1 tau2 v :
  (m <= p)%nat -> (forall i, (i < m)%nat -> C i = ed_add (ed_mul (g_ i) B) (ed_mul (v_ i) h)) ->
  t_hat = sc_add (sc_add (sc_sub (sc_add (sc_mul (sc_sub z (sc_mul z z)) (ssum n (spow y))) (ssum m (fun j => sc_mul (spow z (2 + j)) (v_ j))))
    (ssum p (fun j => sc_mul (spow z (3 + j)) (ssum BITS (spow two))))) (sc_mul t1 x)) (sc_mul t2 (sc_mul x x)) ->
  tau_x = sc_add (sc_mul (sc_add (sc_mul tau2 x) tau1) x) (ssum m (fun i => sc_mul (spow z (2 + i)) (g_ i))) ->
  exists v', (forall E, queue_65 (E := E) v w p (vec m C) tau_x t_hat x (powers z (3 + p)) (powers y n) (powers two BITS)
    (ed_add (ed_mul t1 h) (ed_mul tau1 B)) (ed_add (ed_mul t2 h) (ed_mul tau2 B)) = Ok v') /\ same_bold v v' /\ value v' = value v.
Proof.
  intros Hm HC Ht Htau. unfold queue_65.
  set (v1 := add_h (add_g (add_h v (sc_mul w t_hat)) (sc_mul w tau_x)) (sc_mul (sc_mul (sc_neg w) (sc_sub (spow z 1) (spow z 2))) (ssum n (spow y)))).
  destruct (queue_commitments (3 + p) m z (sc_neg w) C v1 ltac:(lia)) as (v2 & Hv2 & [Hg2 Hh2] & Hval2).
  destruct (queue_twos (3 + p) p z (sc_neg w) (ssum BITS (spow two)) v2 ltac:(lia)) as (v3 & Hv3 & [Hg3 Hh3] & Hval3).
  eexists. split; [intros E|split; [|]].
  - rewrite (powers_vec z), !index_vec by lia. cbn [obind]. rewrite <- (powers_vec z), (powers_vec y), sum_vec. fold v1. rewrite Hv2. cbn [obind].
    rewrite (powers_vec two), sum_vec, Hv3. cbn [obind]. reflexivity.
  - split; cbn [push g_bold h_bold]; [rewrite Hg3, Hg2|rewrite Hh3, Hh2]; reflexivity.
  - rewrite !value_push, Hval3, Hval2. unfold v1. rewrite value_add_h, value_add_g, value_add_h by assumption. cbn [fst snd].
    rewrite (psum_ext m _ (fun i => sc_mul (sc_neg w) (spow z (2 + i))) C (fun i => ed_add (ed_mul (g_ i) B) (ed_mul (v_ i) h))) by (intros i Hi; split; [reflexivity|exact (HC i Hi)]).
    rewrite (psum_points m _ _ _ (fun _ => B) (fun _ => h)) by (intros i _; assumption). rewrite !psum_const by assumption.
    rewrite <- !ed_add_assoc. rewrite <- (ed_add_id (value v)) at 2. f_equal.
    pose (o := fun _ : nat => ed_identity). assert (Ho : free o 0) by (intros i Hi; lia).
    rewrite <- !(lin_p 0 B h o o o o), <- !(lin_q 0 B h o o o o). rewrite <- (lin_zero 0 B h o o o o).
    repeat (rewrite ?(lin_add 0 B h o o o o HB Hh Ho Ho Ho Ho), ?(lin_mul 0 B h o o o o HB Hh Ho Ho Ho Ho)).
    apply lin_ext; cbn [lc_add lc_mul lc_p lc_q lc_zero cp cq c1 c2 c3 c4]; [| |intros; lia].
    + rewrite Htau. rewrite (ssum_ext m (fun i => sc_mul (sc_mul (sc_neg w) (spow z (2 + i))) (g_ i)) (fun i => sc_mul (sc_neg w) (sc_mul (spow z (2 + i)) (g_ i)))), ssum_mul by (intros i _; ring). ring.
    + rewrite Ht. rewrite (ssum_ext m (fun i => sc_mul (sc_mul (sc_neg w) (spow z (2 + i))) (v_ i)) (fun i => sc_mul (sc_neg w) (sc_mul (spow z (2 + i)) (v_ i)))), ssum_mul by (intros i _; ring).
      rewrite (ssum_ext p (fun i => sc_mul (sc_mul (sc_neg w) (spow z (3 + i))) (ssum BITS (spow two))) (fun i => sc_mul (sc_neg w) (sc_mul (spow z (3 + i)) (ssum BITS (spow two))))), ssum_mul by (intros i _; ring).
      cbn [spow]. ring.
Qed.

Context (HfG : free (pt (Generators.G gens)) 1024) (HfH : free (pt (Generators.H gens)) 1024).

Abbreviation Gs := (pt (Generators.G gens)).
Abbreviation Hs := (pt (Generators.H gens)).

(** The rows which are added to the scalars of [H] *)
Lemma queue_rows p z yi w l : (p * BITS <= length l <= 1024)%nat -> exists l',
  (forall E, ofold (E := E) (fun h_bold j => ofold (fun h_bold i =>
      let full_i := (j * BITS + i)%nat in
      let? s := index h_bold full_i in
      let? y_inv := index (powers yi (p * BITS)) full_i in
      let? z := index (powers z (3 + p)) (2 + j) in
      let? two := index (powers two BITS) i in
      set_at h_bold full_i (sc_add s (sc_mul (sc_mul (sc_mul w y_inv) z) two))) h_bold (seq 0 BITS))
    l (seq 0 p) = Ok l') /\ length l' = length l /\
  psum (length l) (fn l') Hs = ed_add (psum (length l) (fn l) Hs) (psum (p * BITS) (fun k => sc_mul (sc_mul w (spow yi k)) (weigh z k)) Hs).
Proof.
  intros Hl. destruct (rows_loop (fun E l j i => let full_i := (j * BITS + i)%nat in
      let? s := index (E := E) l full_i in
      let? y_inv := index (powers yi (p * BITS)) full_i in
      let? z := index (powers z (3 + p)) (2 + j) in
      let? two := index (powers two BITS) i in
      set_at l full_i (sc_add s (sc_mul (sc_mul (sc_mul w y_inv) z) two))) (fun k => sc_mul (sc_mul w (spow yi k)) (weigh z k)) p l) as (l' & Hl' & Hlen & Hk); [lia| |].
  - intros E l1 j i Hl1 Hj Hi. assert (Hb : (j * BITS + i < p * BITS)%nat) by nia. cbv zeta.
    unfold index at 1. rewrite (fn_vec l1) at 1. rewrite vec_lookup by lia. cbn [expect obind]. rewrite !powers_vec, !index_vec by lia. cbn [obind].
    unfold set_at. rewrite (proj2 (Nat.ltb_lt _ _)) by lia. unfold weigh, weigh_by. destruct (index_div j i Hi) as [-> ->]. do 3 f_equal. ring.
  - exists l'. split; [exact Hl'|]. split; [exact Hlen|]. rewrite <- psum_prefix by (lia || (apply (free_less _ _ _ (proj2 Hl) HfH))).
    apply psum_ext. intros k _. split; [apply Hk|reflexivity].
Qed.

Definition queued_66 (w : DScalar) (n : nat) (x mu t_hat x_ip z yi : DScalar) (A S : EdwardsPoint) : EdwardsPoint :=
  ed_add (ed_add (ed_add (ed_add (ed_add (ed_mul w A) (ed_mul (sc_mul w x) S)) (psum n (fun _ => sc_neg (sc_mul w z)) Gs))
    (ed_add (psum n (fun _ => sc_mul w z) Hs) (psum n (fun k => sc_mul (sc_mul w (spow yi k)) (weigh z k)) Hs)))
    (ed_mul (sc_mul (sc_mul w x_ip) t_hat) h)) (ed_mul (sc_mul w (sc_neg mu)) B).

Lemma queue_66_spec w p x mu t_hat x_ip z yi A S v : room (p * BITS) v -> exists v',
  (forall E, queue_66 (E := E) v w p (p * BITS) x mu t_hat x_ip (powers z (3 + p)) (powers yi (p * BITS)) (powers two BITS) A S = Ok v') /\
  same_room v v' /\ value v' = ed_add (value v) (queued_66 w (p * BITS) x mu t_hat x_ip z yi A S).
Proof.
  intros [[Hg1 Hg2] [Hh1 Hh2]]. set (n := (p * BITS)%nat) in *. set (v1 := push (push v (w, A)) (sc_mul w x, S)).
  destruct (update_each_spec sc_add (h_bold v1) n (fun E _ => Ok (sc_mul w z)) (fun d => d) Hs) with (d := fun _ : nat => sc_mul w z)
    as (hb & Hhb & Hhl & Hhs); [reflexivity|exact Hh1|apply (free_less _ _ _ Hh2 HfH)|reflexivity|].
  destruct (update_each_spec sc_add (g_bold v1) n (fun E _ => Ok (sc_neg (sc_mul w z))) (fun d => d) Gs) with (d := fun _ : nat => sc_neg (sc_mul w z))
    as (gb & Hgb & Hgl & Hgs); [reflexivity|exact Hg1|apply (free_less _ _ _ Hg2 HfG)|reflexivity|].
  destruct (queue_rows p z yi w hb) as (hb' & Hhb' & Hhl' & Hhs'); [rewrite Hhl; split; assumption|].
  eexists. split; [intros E|split].
  - unfold queue_66. fold v1. rewrite (powers_vec z), index_vec by lia. cbn [obind]. rewrite <- (powers_vec z). replace (spow z 1) with z by (cbn [spow]; ring).
    rewrite Hhb. cbn [obind]. rewrite Hgb. cbn [obind]. rewrite Hhb'. cbn [obind]. reflexivity.
  - split; cbn [add_g add_h with_h_bold with_g_bold g_bold h_bold]; [rewrite Hgl|rewrite Hhl', Hhl]; reflexivity.
  - rewrite value_add_g, value_add_h by assumption. erewrite value_h_bold.
    2:{ cbn [with_g_bold h_bold]. rewrite Hhl'. rewrite Hhs', Hhl, Hhs, <- ed_add_assoc. reflexivity. }
    erewrite value_g_bold; [|rewrite Hgl; exact Hgs]. unfold v1. rewrite !value_push. cbn [fst snd]. unfold queued_66. rewrite !ed_add_assoc. reflexivity.
Qed.
End Queued.

(** ** The whole of the proof *)

Section Complete.
Context {D : Dalek} {DL : DalekLaws D} {K : Keccak} {PR : Primitives} {ST : Setup}.
Import ScalarVector InternalBatchVerifier OriginalStatement.

Add Ring scalars_c : sc_ring.

Lemma spow_inverse y i : y <> sc_ZERO -> sc_mul (spow (sc_invert y) i) (spow y i) = sc_ONE.
Proof.
  intros Hy. pose proof (sc_invert_mul y Hy) as Hi. induction i as [|i IH]; [cbn; ring|]. cbn [spow].
  transitivity (sc_mul (sc_mul (spow (sc_invert y) i) (spow y i)) (sc_mul y (sc_invert y))); [ring|]. rewrite IH, Hi. ring.
Qed.

(** Equation (66) and the inner product cancel. *)
Lemma cancel_66 B h gens w n alpha rho aL aR sL sR x x_ip z y : ed_is_torsion_free B = true -> ed_is_torsion_free h = true ->
  free (pt (Generators.G gens)) n -> free (pt (Generators.H gens)) n -> y <> sc_ZERO ->
  let Gs := pt (Generators.G gens) in let Hs := pt (Generators.H gens) in
  let l k := sc_add (sc_sub (aL k) z) (sc_mul (sL k) x) in
  let r k := sc_add (sc_add (sc_mul (sc_add (aR k) z) (spow y k)) (weigh z k)) (sc_mul (sc_mul (sR k) (spow y k)) x) in
  let commits mask f g := ed_add (ed_mul mask B) (ed_add (psum n f Gs) (psum n g Hs)) in
  ed_add (queued_66 B h gens w n x (sc_add alpha (sc_mul rho x)) (ssum n (fun k => sc_mul (l k) (r k))) x_ip z (sc_invert y)
      (commits alpha aL aR) (commits rho sL sR))
    (ed_mul (sc_neg w) (ip_P n l r Gs (fun k => ed_mul (spow (sc_invert y) k) (Hs k)) (ed_mul x_ip h))) = ed_identity.
Proof.
  intros HB Hh Hfg Hfh Hy Gs Hs l r commits. unfold queued_66, ip_P, commits. fold Gs Hs. rewrite psum_scaled by exact Hfh.
  pose (o := fun _ : nat => ed_identity). assert (Ho : free o n) by (intros i _; apply ed_identity_free).
  rewrite <- !(lin_p n B h Gs Hs o o), <- !(lin_q n B h Gs Hs o o), <- !(lin_1 n B h Gs Hs o o), <- !(lin_2 n B h Gs Hs o o), <- (lin_zero n B h Gs Hs o o).
  repeat (rewrite ?(lin_add n B h Gs Hs o o HB Hh Hfg Hfh Ho Ho), ?(lin_mul n B h Gs Hs o o HB Hh Hfg Hfh Ho Ho)).
  apply lin_ext; cbn [lc_add lc_mul lc_p lc_q lc_1 lc_2 lc_zero cp cq c1 c2 c3 c4]; unfold no_coeff; [ring|ring|].
  intros k _. pose proof (spow_inverse y k Hy) as Hk. unfold l, r.
  split_and!; [ring| |ring|ring]. set (yi := spow (sc_invert y) k) in *. set (yk := spow y k) in *. ring [Hk].
Qed.

(** The sums to come are of vectors of one length. *)
Definition even (v : InternalBatchVerifier.t) : Prop := length (g_bold v) = length (h_bold v) /\ (length (g_bold v) <= 1024)%nat.

(** A proof's shape, and that of its encoding *)
Definition original_shape (j : nat) (proof : OriginalProof) : Prop :=
  length (ip_L (bp_ip proof)) = (j + 6)%nat /\ length (ip_R (bp_ip proof)) = (j + 6)%nat /\
  Forall (is_array 32) (ip_L (bp_ip proof)) /\ Forall (is_array 32) (ip_R (bp_ip proof)) /\
  is_array 32 (bp_A proof) /\ is_array 32 (bp_S proof) /\ is_array 32 (bp_T1 proof) /\ is_array 32 (bp_T2 proof).

Lemma start_room v N : even v -> (N <= 1024)%nat -> forall B h gens,
  let v' := with_h_bold (with_g_bold v (extend (g_bold v) N)) (h_bold v ++ repeat sc_ZERO (N - length (g_bold v))) in
  room N v' /\ even v' /\ value B h gens v' = value B h gens v.
Proof.
  intros [He Hl] HN B h gens v'. assert (Hb : h_bold v' = extend (h_bold v) N) by (unfold v', extend; cbn [with_h_bold with_g_bold h_bold]; rewrite He; reflexivity).
  assert (Hg : g_bold v' = extend (g_bold v) N) by reflexivity. split; [|split].
  - unfold room. rewrite Hb, Hg, !extend_length. lia.
  - unfold even. rewrite Hb, Hg, !extend_length. lia.
  - unfold value. rewrite Hb, Hg, !extend_value. reflexivity.
Qed.

Lemma even_same v v' : same_room v v' -> even v -> even v'.
Proof. intros [Hg Hh] [H1 H2]. unfold even. rewrite Hg, Hh. split; assumption. Qed.

(** The commitments are those expected. *)
Lemma same_commitments l : (length l =? length l)%nat && forallb (fun x => ed_eqb (fst x) (snd x)) (zip l l) = true.
Proof.
  rewrite Nat.eqb_refl. cbn [andb]. induction l as [|p l IH]; [reflexivity|]. cbn [zip_with forallb fst snd].
  rewrite (proj2 (ed_eqb_spec p p) eq_refl), IH. reflexivity.
Qed.
End Complete.

(** ** A run of the prover *)

Module OriginalRun.
Section Run.
Context {D : Dalek} {DL : DalekLaws D} {K : Keccak} {PR : Primitives} {ST : Setup}.
Import ScalarVector InternalBatchVerifier OriginalStatement.

Add Ring scalars_r : sc_ring.

(** What is drawn, and the challenges *)
Record run := mk_run { alpha : DScalar; rho : DScalar; sL : nat -> DScalar; sR : nat -> DScalar; y : DScalar; z : DScalar;
  tau1 : DScalar; tau2 : DScalar; x : DScalar; x_ip : DScalar }.

Context (w : list Commitment.t) (n : nat) (h : EdwardsPoint) (inv : DScalar) (gens : Generators.t).

Definition aR (k : nat) : DScalar := sc_sub (all_bits w k) sc_ONE.
Definition l0 (u : run) (k : nat) : DScalar := sc_sub (all_bits w k) (z u).
Definition r0 (u : run) (k : nat) : DScalar := sc_add (sc_mul (sc_add (aR k) (z u)) (spow (y u) k)) (weigh (z u) k).
Definition r1 (u : run) (k : nat) : DScalar := sc_mul (sR u k) (spow (y u) k).
Definition l (u : run) (k : nat) : DScalar := sc_add (l0 u k) (sc_mul (sL u k) (x u)).
Definition r (u : run) (k : nat) : DScalar := sc_add (r0 u k) (sc_mul (r1 u k) (x u)).
Definition t1 (u : run) : DScalar :=
  sc_add (ssum n (fun k => sc_mul (l0 u k) (r1 u k))) (ssum n (fun k => sc_mul (r0 u k) (sL u k))).
Definition t2 (u : run) : DScalar := ssum n (fun k => sc_mul (sL u k) (r1 u k)).
Definition t_hat (u : run) : DScalar := ssum n (fun k => sc_mul (l u k) (r u k)).
Definition mu (u : run) : DScalar := sc_add (alpha u) (sc_mul (rho u) (x u)).
Definition tau_x (u : run) : DScalar :=
  sc_add (sc_mul (sc_add (sc_mul (tau2 u) (x u)) (tau1 u)) (x u)) (ssum (length w) (fun i => sc_mul (spow (z u) (2 + i)) (gamma w i))).

Definition A (u : run) : EdwardsPoint := commits gens n (alpha u) (all_bits w) aR.
Definition S (u : run) : EdwardsPoint := commits gens n (rho u) (sL u) (sR u).
Definition T (t tau : DScalar) : EdwardsPoint := ed_add (ed_mul t h) (ed_mul tau ED25519_BASEPOINT_POINT).
Definition enc (p : EdwardsPoint) : CompressedPoint := ed_compress (ed_mul inv p).

(** [t(x)] *)
Lemma t_hat_expand u : t_hat u = sc_add (sc_add (ssum n (fun k => sc_mul (l0 u k) (r0 u k))) (sc_mul (t1 u) (x u))) (sc_mul (t2 u) (sc_mul (x u) (x u))).
Proof.
  unfold t_hat, t1, t2. rewrite !sc_mul_add, <- !ssum_mul_r, <- !ssum_add. apply ssum_ext. intros k _. unfold l, r. ring.
Qed.

(** The transcript of a run *)
Definition transcribed (u : run) (tr : DScalar) : Prop :=
  (forall E, initial_transcript (E := E) (vec (length w) (committed w h)) = Ok (tr, map (ed_mul inv) (vec (length w) (committed w h)))) /\
  (forall E, transcript_A_S (E := E) tr (enc (A u)) (enc (S u)) = Ok (y u, z u)) /\ y u <> sc_ZERO /\
  (forall E, transcript_T12 (E := E) (z u) (enc (T (t1 u) (tau1 u))) (enc (T (t2 u) (tau2 u))) = Ok (x u)) /\
  forall E, transcript_tau_x_mu_t_hat (E := E) (x u) (tau_x u) (mu u) (t_hat u) = Ok (x_ip u).

Definition proof (u : run) (ip : IpProof) : OriginalProof :=
  mk_OriginalProof (enc (A u)) (enc (S u)) (enc (T (t1 u) (tau1 u))) (enc (T (t2 u) (tau2 u))) (tau_x u) (mu u) (t_hat u) ip.

Context (Hinv : forall E, inv_eight (E := E) = Ok inv) (Hh : forall E, MONERO_H (E := E) = Ok h) (HhC : forall E, Commitment.H (E := E) = Ok h)
  (Hhf : ed_is_torsion_free h = true).
Context (Hgens : forall E, GENERATORS (E := E) = Ok gens) (Hlg : length (Generators.G gens) = 1024%nat) (Hlh : length (Generators.H gens) = 1024%nat).
Context (j : nat) (Hj : (j <= 4)%nat) (Hn : n = (2 ^ j * BITS)%nat) (Hpad : padded_pow_of_2 (length w) = (2 ^ j)%nat) (Hwj : (length w <= 2 ^ j)%nat)
  (Hw : Forall commitment_ok w).

Lemma rows_pow : n = (2 ^ (j + 6))%nat.
Proof. rewrite Hn, Nat.pow_add_r. reflexivity. Qed.

Lemma rows_bound : (n <= 1024)%nat.
Proof. rewrite rows_pow. apply (Nat.pow_le_mono_r 2 (j + 6) 10); lia. Qed.

Lemma witness_some f g : IpWitness.new (vec n f) (vec n g) = Some (IpWitness.mk (vec n f) (vec n g)).
Proof.
  unfold IpWitness.new. rewrite !vec_length, Nat.eqb_refl, rows_pow, padded_pow, Nat.eqb_refl. cbn [negb orb].
  destruct (Nat.eqb_spec (2 ^ (j + 6)) 0) as [H0|_]; [|reflexivity]. pose proof (Nat.pow_nonzero 2 (j + 6) ltac:(lia)). lia.
Qed.

(** A run there is, from any state of the generator. *)
Lemma prove_run g : exists u tr g',
  transcribed u tr /\
  forall ip, IpStatement.prove (IpStatement.mk (vec n (spow (sc_invert (y u)))) (x_ip u)) (x_ip u) (IpWitness.mk (vec n (l u)) (vec n (r u))) = Ok ip ->
  forall E, prove (E := E) (vec (length w) (committed w h)) g w = Ok (Some (proof u ip), g').
Proof.
  set (Cs := vec (length w) (committed w h)). pose proof rows_bound as Hb.
  destruct (hash_scalar_all (concat (map ed_compress (map (ed_mul inv) Cs)))) as (tr & _ & Htr).
  destruct (random_scalar_all g) as (al & g1 & H1). destruct (random_pairs_all n g1) as (pairs & g2 & Hlp & H2).
  destruct (random_scalar_all g2) as (rh & g3 & H3). destruct (random_scalar_all g3) as (ta1 & g4 & H4). destruct (random_scalar_all g4) as (ta2 & g5 & H5).
  pose (u0 := fun y z x xi => mk_run al rh (fn (map fst pairs)) (fn (map snd pairs)) y z ta1 ta2 x xi). pose (zero := sc_ZERO).
  destruct (hash_scalar_all (sc_to_bytes tr ++ CompressedPoint.to_bytes (enc (A (u0 zero zero zero zero))) ++ CompressedPoint.to_bytes (enc (S (u0 zero zero zero zero))))) as (y' & Hy0 & Hy).
  destruct (hash_scalar_all (sc_to_bytes y')) as (z' & _ & Hz). set (u1 := u0 y' z' zero zero).
  destruct (hash_scalar_all (sc_to_bytes z' ++ sc_to_bytes z' ++ CompressedPoint.to_bytes (enc (T (t1 u1) ta1)) ++ CompressedPoint.to_bytes (enc (T (t2 u1) ta2)))) as (x' & _ & Hx).
  set (u2 := u0 y' z' x' zero).
  destruct (hash_scalar_all (sc_to_bytes x' ++ sc_to_bytes x' ++ sc_to_bytes (tau_x u2) ++ sc_to_bytes (mu u2) ++ sc_to_bytes (t_hat u2))) as (xi & _ & Hxi).
  exists (u0 y' z' x' xi), tr, g5. split.
  - split; [intros E; unfold initial_transcript; fold Cs; rewrite Hinv; cbn [obind]; rewrite Htr; reflexivity|].
    split; [intros E; unfold transcript_A_S; rewrite Hy; cbn [obind]; rewrite Hz; reflexivity|]. split; [exact Hy0|].
    split; [intros E; apply Hx|intros E; apply Hxi].
  - intros ip Hip E. unfold prove. rewrite (commits_spec w h Hw HhC). fold Cs. cbn [obind].
    rewrite same_commitments. cbn [negb]. rewrite Hgens. cbn [obind]. unfold initial_transcript at 1. rewrite Hinv. cbn [obind]. rewrite Htr. cbn [obind].
    rewrite Hpad, <- Hn. rewrite Hn at 1. rewrite all_bits_spec by exact Hwj. cbn [obind]. rewrite <- Hn. unfold sub_scalar at 1 2. rewrite vec_map.
    rewrite H1. cbn [obind]. rewrite (vector_commitment_spec inv Hinv) by lia. cbn [obind]. rewrite H2. cbn [obind].
    rewrite (fn_vec (map fst pairs)), (fn_vec (map snd pairs)), !length_map, Hlp. rewrite H3. cbn [obind].
    rewrite (vector_commitment_spec inv Hinv) by lia. cbn [obind]. unfold transcript_A_S. unfold A, S, u0, zero, enc in Hy. cbn [alpha rho sL sR] in Hy.
    rewrite Hy. cbn [obind]. rewrite Hz. cbn [obind]. fold two. rewrite (powers_vec z' (3 + 2 ^ j)), index_vec, <- (powers_vec z') by lia. cbn [obind].
    replace (spow z' 1) with z' by (cbn [spow]; ring). unfold add_scalar, sub_scalar, mul_scalar, add, mul. rewrite !vec_map, vec_length, (powers_vec y'), !vec_zip_mut.
    destruct (add_z_twos_spec (2 ^ j) z' (fun k => sc_mul (sc_add (sc_sub (all_bits w k) sc_ONE) z') (spow y' k))) as (r' & Hr' & ->). rewrite <- Hn in *.
    rewrite Hr'. cbn [obind]. rewrite !inner_product_vec. rewrite H4. cbn [obind]. rewrite (T_commitment_spec inv Hinv h) by assumption. cbn [obind].
    rewrite H5. cbn [obind]. rewrite (T_commitment_spec inv Hinv h) by assumption. cbn [obind]. unfold transcript_T12. unfold T, t1, t2, u1, u0, l0, r0, r1, aR, enc in Hx. cbn [alpha rho sL sR y z] in Hx.
    rewrite Hx. cbn [obind]. rewrite !vec_map, !vec_zip_mut, !inner_product_vec, vec_length. rewrite add_masks_spec by (exact Hw || lia). cbn [obind].
    unfold transcript_tau_x_mu_t_hat. unfold tau_x, mu, t_hat, l, r, l0, r0, r1, aR, u2, u0 in Hxi. cbn [alpha rho sL sR y z tau1 tau2 x] in Hxi. rewrite Hxi. cbn [obind].
    rewrite witness_some. cbn [expect obind]. rewrite powers_vec. unfold IpStatement.new_without_P_transcript. unfold l, r, l0, r0, r1, aR, u0 in Hip. cbn [y z x x_ip sL sR] in Hip.
    rewrite Hip. cbn [expect_ok obind]. reflexivity.
Qed.

Context (Hdec : forall p, ed_is_torsion_free p = true -> decomp_mul_cofactor (ed_compress (ed_mul inv p)) = Some p)
  (Hcof : forall p, ed_is_torsion_free p = true -> ed_mul_by_cofactor (ed_mul inv p) = p).
Context (HfG : free (pt (Generators.G gens)) 1024) (HfH : free (pt (Generators.H gens)) 1024).

Lemma commits_free mask f g : ed_is_torsion_free (commits gens n mask f g) = true.
Proof.
  pose proof rows_bound. unfold commits. repeat apply ed_add_free; try (apply ed_mul_free, ed_basepoint_free);
    apply psum_free; [apply (free_less _ 1024), HfG|apply (free_less _ 1024), HfH]; lia.
Qed.

Lemma T_free t tau : ed_is_torsion_free (T t tau) = true.
Proof. apply ed_add_free; apply ed_mul_free; [exact Hhf|apply ed_basepoint_free]. Qed.

Lemma committed_back : map ed_mul_by_cofactor (map (ed_mul inv) (vec (length w) (committed w h))) = vec (length w) (committed w h).
Proof.
  rewrite !vec_map. apply vec_ext. intros i _. apply Hcof. unfold committed. apply ed_add_free; apply ed_mul_free; [apply ed_basepoint_free|exact Hhf].
Qed.

Lemma original_verify_run u tr ip v g : transcribed u tr -> even v ->
  (forall W v, room n v -> exists v', IpStatement.verify (IpStatement.mk (vec n (spow (sc_invert (y u)))) (x_ip u)) v n (x_ip u) W ip = Ok v' /\
    same_room v v' /\ value ED25519_BASEPOINT_POINT h gens v' = ed_add (value ED25519_BASEPOINT_POINT h gens v) (ed_mul (sc_neg W)
      (ip_P n (l u) (r u) (pt (Generators.G gens)) (fun i => ed_mul (spow (sc_invert (y u)) i) (pt (Generators.H gens) i)) (ed_mul (x_ip u) h)))) ->
  exists v' g', (forall E, verify (E := E) (vec (length w) (committed w h)) g v (proof u ip) = Ok (Some v', g')) /\ even v' /\
    value ED25519_BASEPOINT_POINT h gens v' = value ED25519_BASEPOINT_POINT h gens v.
Proof.
  intros (Htr & HAS & Hy & HT & Htau) Hev Hip. pose proof rows_bound as Hb. set (B := ED25519_BASEPOINT_POINT) in *.
  destruct (start_room v n Hev Hb B h gens) as (Hr0 & He0 & Hv0). set (v0 := with_h_bold _ _) in *.
  destruct (random_scalar_all g) as (W & g1 & H1). destruct (random_scalar_all g1) as (W' & g2 & H2).
  pose proof (t_hat_expand u) as Hth. pose proof (t_0 w (2 ^ j) (y u) (z u) Hw Hwj) as H0. rewrite <- Hn in H0.
  unfold l0, r0, aR in Hth. rewrite H0 in Hth. clear H0.
  destruct (queue_65_spec B h ed_basepoint_free Hhf gens W (length w) (2 ^ j) (committed w h) (gamma w) (value_of w) (tau_x u) (t_hat u) (x u) (z u) (y u) n
    (t1 u) (t2 u) (tau1 u) (tau2 u) v0 Hwj ltac:(reflexivity) Hth ltac:(reflexivity)) as (v1 & Hq1 & [Hg1 Hh1] & Hv1).
  assert (Hs1 : same_room v0 v1) by (unfold same_room; rewrite Hg1, Hh1; split; reflexivity).
  assert (Hr1 : room n v1) by (unfold room; rewrite Hg1, Hh1; exact Hr0).
  destruct (queue_66_spec B h ed_basepoint_free Hhf gens HfG HfH W' (2 ^ j) (x u) (mu u) (t_hat u) (x_ip u) (z u) (sc_invert (y u)) (A u) (S u) v1) as (v2 & Hq2 & [Hg2 Hh2] & Hv2); [rewrite <- Hn; exact Hr1|].
  rewrite <- Hn in Hq2, Hv2. destruct (Hip W' v2) as (v3 & Hq3 & [Hg3 Hh3] & Hv3); [unfold room; rewrite Hg2, Hh2; exact Hr1|].
  exists v3, g2. split; [intros E|split].
  - unfold verify. rewrite vec_length, Hpad, <- Hn. fold v0. rewrite Htr. cbn [obind]. rewrite committed_back. cbn [proof bp_A bp_S bp_T1 bp_T2 bp_tau_x bp_mu bp_t_hat bp_ip].
    rewrite HAS. cbn [obind]. rewrite HT. cbn [obind]. rewrite Htau. cbn [obind]. unfold enc. rewrite !Hdec by (apply commits_free || apply T_free).
    rewrite H1. cbn [obind]. fold two. unfold T. rewrite Hq1. cbn [obind]. rewrite H2. cbn [obind]. rewrite Hq2. cbn [obind].
    unfold IpStatement.new_without_P_transcript. rewrite powers_vec, Hq3. reflexivity.
  - unfold even. rewrite Hg3, Hh3, Hg2, Hh2, Hg1, Hh1. exact He0.
  - rewrite Hv3, Hv2, Hv1, Hv0, <- ed_add_assoc. rewrite <- (ed_add_id (value B h gens v)) at 2. f_equal.
    apply (cancel_66 B h gens W' n (alpha u) (rho u) (all_bits w) aR (sL u) (sR u) (x u) (x_ip u) (z u) (y u) ed_basepoint_free Hhf);
      [apply (free_less _ _ _ Hb HfG)|apply (free_less _ _ _ Hb HfH)|exact Hy].
Qed.
End Run.
End OriginalRun.
