(* ===== verification/BpPlus.v ===== *)
(** Bulletproofs+: the weighted inner-product argument
    ([ringct/bulletproofs/src/plus/weighted_inner_product.rs]) and the aggregate
    range proof ([plus/aggregate_range_proof.rs], [plus/mod.rs],
    [plus/transcript.rs]), proving and verifying; and [Bulletproof]'s own
    functions, over both kinds of proof ([src/lib.rs]). *)

From Stdlib Require Import ZArith Lia.
From stdpp Require Import base list strings numbers.
From S2P Require Import Prelude Dalek MoneroIo Ed25519 Clsag Bulletproofs BpCore BpOriginal.

(** ** [plus/mod.rs] *)

Inductive GeneratorsList : Type := GBold | HBold.

Module BpPlusGenerators.
Section Ops.
Context {D : Dalek} {K : Keccak}.
Record t := mk { g_bold : list EdwardsPoint; h_bold : list EdwardsPoint }.

Definition new {E} : outcome E t :=
  let? gens := PLUS_GENERATORS in Ok (mk (Generators.G gens) (Generators.H gens)).

Definition len (self : t) : nat := length (g_bold self).

Definition g {E} : outcome E EdwardsPoint := MONERO_H.
Definition h : EdwardsPoint := ED25519_BASEPOINT_POINT.

Definition generator {E} (self : t) (l : GeneratorsList) (i : nat) : outcome E EdwardsPoint :=
  match l with
  | GBold => index (g_bold self) i
  | HBold => index (h_bold self) i
  end.

Definition reduce {E} (self : t) (generators : nat) : outcome E t :=
  let generators := padded_pow_of_2 generators in
  if negb (generators <=? length (g_bold self))%nat then Panic
  else if (length (h_bold self) <? generators)%nat then Panic
  else Ok (mk (take generators (g_bold self)) (take generators (h_bold self))).
End Ops.
End BpPlusGenerators.

Section Decompose.
Context {D : Dalek}.
Definition u64_decompose (value : Z) : list DScalar :=
  map (fun bit => sc_from_u64 (Z.land (Z.shiftr value (Z.of_nat bit)) 1)) (seq 0 64).
End Decompose.

(** ** [plus/transcript.rs] *)

Module PlusTranscript.
Section Ops.
Context {D : Dalek} {K : Keccak}.

(** The bytes of ["bulletproof_plus_transcript"] *)
Definition BULLETPROOF_PLUS_TRANSCRIPT : bytes :=
  BULLETPROOF_PLUS_DST ++ [95; 116; 114; 97; 110; 115; 99; 114; 105; 112; 116].

Definition TRANSCRIPT {E} : outcome E bytes :=
  let? p := Point.biased_hash (keccak256 BULLETPROOF_PLUS_TRANSCRIPT) in Ok (Point.compress p).

Definition initial_transcript {E} (commitments : list EdwardsPoint) : outcome E DScalar :=
  let? commitments_hash := Scalar.hash (concat (map ed_compress commitments)) in
  let? transcript := TRANSCRIPT in
  hash_scalar (transcript ++ commitments_hash).
End Ops.
End PlusTranscript.

(** ** The weighted inner-product argument *)

Module WipWitness.
Section Ops.
Context {D : Dalek}.
Record t := mk { a : list DScalar; b : list DScalar; alpha : DScalar }.

Definition new (a b : list DScalar) (alpha : DScalar) : option t :=
  if (length a =? 0)%nat || negb (length a =? length b)%nat then None
  else
    let missing := (padded_pow_of_2 (length a) - length a)%nat in
    Some (mk (a ++ repeat sc_ZERO missing) (b ++ repeat sc_ZERO missing) alpha).
End Ops.
End WipWitness.

Module WipStatement.
Import ScalarVector InternalBatchVerifier.
Section Ops.
Context {D : Dalek} {K : Keccak}.
Record t := mk { generators : BpPlusGenerators.t; P : EdwardsPoint; y : list DScalar }.

(** [y_vec[0] = y] and [y_vec[i] = y_vec[i - 1] * y] *)
Definition new {E} (generators : BpPlusGenerators.t) (P : EdwardsPoint) (y : DScalar) : outcome E t :=
  match BpPlusGenerators.len generators with
  | O => Panic
  | S n => Ok (mk generators P (y :: powers_loop y y n))
  end.

Definition transcript_L_R {E} (transcript : DScalar) (L R : CompressedPoint) : outcome E DScalar :=
  hash_scalar (sc_to_bytes transcript ++ CompressedPoint.to_bytes L ++ CompressedPoint.to_bytes R).

Definition transcript_A_B {E} (transcript : DScalar) (A B : CompressedPoint) : outcome E DScalar :=
  hash_scalar (sc_to_bytes transcript ++ CompressedPoint.to_bytes A ++ CompressedPoint.to_bytes B).

(** The challenge, its inverse, their squares, and the next generators; the
    transcript becomes the challenge. *)
Definition next_G_H {E} (transcript : DScalar) (g_bold1 g_bold2 h_bold1 h_bold2 : list EdwardsPoint) (L R : CompressedPoint)
  (y_inv_n_hat : DScalar) : outcome E (DScalar * DScalar * DScalar * DScalar * list EdwardsPoint * list EdwardsPoint) :=
  let? e := transcript_L_R transcript L R in
  let inv_e := sc_invert e in
  let e_y_inv := sc_mul e y_inv_n_hat in
  let new_g_bold := zip_with (fun g1 g2 => multiexp_vartime [(inv_e, g1); (e_y_inv, g2)]) g_bold1 g_bold2 in
  let new_h_bold := zip_with (fun h1 h2 => multiexp_vartime [(e, h1); (inv_e, h2)]) h_bold1 h_bold2 in
  let e_square := sc_mul e e in
  let inv_e_square := sc_mul inv_e inv_e in
  Ok (e, inv_e, e_square, inv_e_square, new_g_bold, new_h_bold).

(** What the [while] loop of [prove] keeps *)
Record prover := mk_prover {
  ptranscript : DScalar;
  pg : list EdwardsPoint;
  ph : list EdwardsPoint;
  pa : list DScalar;
  pb : list DScalar;
  palpha : DScalar;
  py : list DScalar;
  y_inv : list DScalar;
  L_vec : list CompressedPoint;
  R_vec : list CompressedPoint;
  prng : Clsag.rng
}.

(** [y_inv.pop()], what's left and what's popped *)
Definition pop {E} (l : list DScalar) : outcome E (list DScalar * DScalar) :=
  match l !! (length l - 1)%nat with
  | Some x => Ok (take (length l - 1) l, x)
  | None => Panic
  end.

(** The body of the loop *)
Definition prove_round {E} (g h : EdwardsPoint) (s : prover) : outcome E prover :=
  let? inv := inv_eight in
  let (a1, a2) := split (pa s) in
  let (b1, b2) := split (pb s) in
  let (g_bold1, g_bold2) := PointVector.split (pg s) in
  let (h_bold1, h_bold2) := PointVector.split (ph s) in
  let n_hat := length g_bold1 in
  let? y_n_hat := index (py s) (n_hat - 1) in
  let y := take n_hat (py s) in
  let? (d_l, rng) := random_scalar (prng s) in
  let? (d_r, rng) := random_scalar rng in
  let c_l := weighted_inner_product a1 b2 y in
  let c_r := weighted_inner_product (mul_scalar a2 y_n_hat) b1 y in
  let? (y_inv, y_inv_n_hat) := pop (y_inv s) in
  let L_terms := zip (mul_scalar a1 y_inv_n_hat) g_bold2 ++ zip b2 h_bold1 ++ [(c_l, g); (d_l, h)] in
  let L := ed_compress (ed_mul inv (multiexp L_terms)) in
  let R_terms := zip (mul_scalar a2 y_n_hat) g_bold1 ++ zip b1 h_bold2 ++ [(c_r, g); (d_r, h)] in
  let R := ed_compress (ed_mul inv (multiexp R_terms)) in
  let? (e, inv_e, e_square, inv_e_square, g_bold, h_bold) :=
    next_G_H (ptranscript s) g_bold1 g_bold2 h_bold1 h_bold2 L R y_inv_n_hat in
  let a := add (mul_scalar a1 e) (mul_scalar a2 (sc_mul y_n_hat inv_e)) in
  let b := add (mul_scalar b1 inv_e) (mul_scalar b2 e) in
  let alpha := sc_add (palpha s) (sc_add (sc_mul d_l e_square) (sc_mul d_r inv_e_square)) in
  Ok (mk_prover e g_bold h_bold a b alpha y y_inv (L_vec s ++ [L]) (R_vec s ++ [R]) rng).

Fixpoint prove_loop {E} (fuel : nat) (g h : EdwardsPoint) (s : prover) : outcome E prover :=
  if (1 <? length (pg s))%nat then
    match fuel with
    | O => Panic
    | S fuel =>
        let? s := prove_round g h s in prove_loop fuel g h s
    end
  else Ok s.

(** [y[i - 1]] for each power [i] of two below [n] *)
Fixpoint to_invert {E} (fuel i n : nat) (y : list DScalar) : outcome E (list DScalar) :=
  if (i <? n)%nat then
    match fuel with
    | O => Panic
    | S fuel =>
        let? x := index y (i - 1) in
        let? xs := to_invert fuel (2 * i) n y in
        Ok (x :: xs)
    end
  else Ok [].

Definition prove {E} (self : t) (rng : Clsag.rng) (transcript : DScalar) (witness : WipWitness.t)
  : outcome E (option WipProof * Clsag.rng) :=
  let n := BpPlusGenerators.len (generators self) in
  if negb (n =? length (WipWitness.a witness))%nat then Ok (None, rng)
  else
    let? inv := inv_eight in
    let? g := BpPlusGenerators.g in
    let h := BpPlusGenerators.h in
    let? g_bold := each (BpPlusGenerators.generator (generators self) GBold) (seq 0 n) in
    let? h_bold := each (BpPlusGenerators.generator (generators self) HBold) (seq 0 n) in
    let? to_invert := to_invert n 1 (length g_bold) (y self) in
    let y_inv := sc_batch_invert to_invert in
    let? s := prove_loop n g h
      (mk_prover transcript g_bold h_bold (WipWitness.a witness) (WipWitness.b witness) (WipWitness.alpha witness) (y self) y_inv
         [] [] rng) in
    let? (r, rng) := random_scalar (prng s) in
    let? (s_, rng) := random_scalar rng in
    let? (delta, rng) := random_scalar rng in
    let? (eta, rng) := random_scalar rng in
    let? y0 := index (py s) 0 in
    let? a0 := index (pa s) 0 in
    let? b0 := index (pb s) 0 in
    let? g0 := index (pg s) 0 in
    let? h0 := index (ph s) 0 in
    let ry := sc_mul r y0 in
    let A_terms := [(r, g0); (s_, h0); (sc_add (sc_mul ry b0) (sc_mul (sc_mul s_ y0) a0), g); (delta, h)] in
    let A := ed_compress (ed_mul inv (multiexp A_terms)) in
    let B_terms := [(sc_mul ry s_, g); (eta, h)] in
    let B := ed_compress (ed_mul inv (multiexp B_terms)) in
    let? e := transcript_A_B (ptranscript s) A B in
    let r_answer := sc_add r (sc_mul a0 e) in
    let s_answer := sc_add s_ (sc_mul b0 e) in
    let delta_answer := sc_add (sc_add eta (sc_mul delta e)) (sc_mul (palpha s) (sc_mul e e)) in
    Ok (Some (mk_WipProof (L_vec s) (R_vec s) A B r_answer s_answer delta_answer), rng).

(** The challenges of [L] and [R], and the points; [None] when one isn't a point *)
Fixpoint challenges {E} (transcript : DScalar) (LR : list (CompressedPoint * CompressedPoint))
  : outcome E (option (DScalar * list (DScalar * (EdwardsPoint * EdwardsPoint)))) :=
  match LR with
  | [] => Ok (Some (transcript, []))
  | (L, R) :: LR =>
      let? e := transcript_L_R transcript L R in
      match decomp_mul_cofactor L, decomp_mul_cofactor R with
      | Some L, Some R =>
          let? rest := challenges e LR in
          match rest with
          | Some (transcript, rest) => Ok (Some (transcript, (e, (L, R)) :: rest))
          | None => Ok None
          end
      | _, _ => Ok None
      end
  end.

(** [inv_y]: the powers of the inverse *)
Definition inv_y {E} (y : list DScalar) : outcome E (list DScalar) :=
  let? y0 := index y 0 in
  let inv_y := sc_invert y0 in
  Ok (inv_y :: powers_loop inv_y inv_y (length y - 1)).

Definition queue_LR (verifier : InternalBatchVerifier.t) (neg_e_square : DScalar)
  (l : list ((DScalar * DScalar) * (EdwardsPoint * EdwardsPoint))) : InternalBatchVerifier.t :=
  foldl (fun verifier (x : (DScalar * DScalar) * (EdwardsPoint * EdwardsPoint)) =>
    let '((e_i, inv_e_i), (L, R)) := x in
    let verifier := push verifier (sc_mul neg_e_square (sc_mul e_i e_i), L) in
    push verifier (sc_mul neg_e_square (sc_mul inv_e_i inv_e_i), R)) verifier l.

(** The verifier with the proof queued, [None] when the proof isn't sane *)
Definition verify {E} (self : t) (rng : Clsag.rng) (verifier : InternalBatchVerifier.t) (transcript : DScalar) (proof : WipProof)
  : outcome E (option InternalBatchVerifier.t * Clsag.rng) :=
  let? (verifier_weight, rng) := random_scalar rng in
  let n := BpPlusGenerators.len (generators self) in
  let lr_len := lr_len_loop n 0 n in
  if negb (length (wip_L proof) =? lr_len)%nat || negb (length (wip_R proof) =? lr_len)%nat || negb (n =? 2 ^ lr_len)%nat
  then Ok (None, rng)
  else
    let? inv_y := inv_y (y self) in
    let? found := challenges transcript (zip (wip_L proof) (wip_R proof)) in
    match found with
    | None => Ok (None, rng)
    | Some (transcript, found) =>
        let e_is := map fst found in
        let? e := transcript_A_B transcript (wip_A proof) (wip_B proof) in
        match decomp_mul_cofactor (wip_A proof), decomp_mul_cofactor (wip_B proof) with
        | Some A, Some B =>
            let neg_e_square := sc_mul verifier_weight (sc_neg (sc_mul e e)) in
            let verifier := push verifier (neg_e_square, P self) in
            let inv_e_is := sc_batch_invert e_is in
            let challenges := zip e_is inv_e_is in
            let verifier := queue_LR verifier neg_e_square (zip challenges (map snd found)) in
            let? product_cache := challenge_products challenges in
            let verifier := with_h_bold (with_g_bold verifier (extend (g_bold verifier) n)) (extend (h_bold verifier) n) in
            let re := sc_mul (wip_r_answer proof) e in
            let? g_bold := update_each sc_add (g_bold verifier) n (fun i =>
              let? p := index product_cache i in
              let scalar := sc_mul p re in
              let? scalar :=
                if (0 <? i)%nat then let? iy := index inv_y (i - 1) in Ok (sc_mul scalar iy) else Ok scalar in
              Ok (sc_mul verifier_weight scalar)) in
            let se := sc_mul (wip_s_answer proof) e in
            let? h_bold := update_each sc_add (h_bold verifier) n (fun i =>
              let? p := index product_cache (length product_cache - 1 - i) in
              Ok (sc_mul verifier_weight (sc_mul se p))) in
            let verifier := with_h_bold (with_g_bold verifier g_bold) h_bold in
            let verifier := push verifier (sc_mul verifier_weight (sc_neg e), A) in
            let? y0 := index (y self) 0 in
            let verifier := add_g verifier (sc_mul verifier_weight (sc_mul (sc_mul (wip_r_answer proof) y0) (wip_s_answer proof))) in
            let verifier := add_h verifier (sc_mul verifier_weight (wip_delta_answer proof)) in
            Ok (Some (push verifier (sc_neg verifier_weight, B)), rng)
        | _, _ => Ok (None, rng)
        end
    end.
End Ops.
End WipStatement.

(** ** The aggregate range proof *)

Module PlusStatement.
Import ScalarVector InternalBatchVerifier.
Section Ops.
Context {D : Dalek} {K : Keccak}.

(** [AggregateRangeStatement] *)
Record t := mk { generators : BpPlusGenerators.t; V : list EdwardsPoint }.

(** [AggregateRangeWitness::new] *)
Definition witness_new (commitments : list Commitment.t) : option (list Commitment.t) :=
  if (length commitments =? 0)%nat || (MAX_COMMITMENTS <? len commitments) then None else Some commitments.

Definition new {E} (V : list EdwardsPoint) : outcome E (option t) :=
  if (length V =? 0)%nat || (MAX_COMMITMENTS <? len V) then Ok None
  else
    let? generators := BpPlusGenerators.new in Ok (Some (mk generators V)).

(** [AHatComputation] *)
Record AHatComputation := mk_AHat {
  ah_y : DScalar;
  ah_d_descending_y_plus_z : list DScalar;
  ah_y_mn_plus_one : DScalar;
  ah_z : DScalar;
  ah_z_pow : list DScalar;
  ah_A_hat : EdwardsPoint
}.

(** The challenges; the transcript becomes [z]. *)
Definition transcript_A {E} (transcript : DScalar) (A : CompressedPoint) : outcome E (DScalar * DScalar) :=
  let? y := hash_scalar (sc_to_bytes transcript ++ CompressedPoint.to_bytes A) in
  let? z := hash_scalar (sc_to_bytes y) in
  Ok (y, z).

Definition d_j (j m : nat) : list DScalar :=
  repeat sc_ZERO ((j - 1) * BITS) ++ powers (sc_from_u64 2) BITS ++ repeat sc_ZERO ((m - j) * BITS).

(** [while V.len() < padded_pow_of_2(V.len()) { V.push(EdwardsPoint::identity()) }]:
    the power is that of the first length throughout. *)
Definition pad_points (V : list EdwardsPoint) : list EdwardsPoint :=
  V ++ repeat ed_identity (padded_pow_of_2 (length V) - length V).

(** The loop for [z_pow] and [d] *)
Definition z_pow_d {E} (m : nat) (z_pow d : list DScalar) : outcome E (list DScalar * list DScalar) :=
  ofold (fun (s : list DScalar * list DScalar) j =>
    let (z_pow, d) := s in
    let? last := index z_pow (length z_pow - 1) in
    let? z_pow_0 := index z_pow 0 in
    let z_pow := z_pow ++ [sc_mul last z_pow_0] in
    let? z_j := index z_pow (j - 1) in
    Ok (z_pow, add d (mul_scalar (d_j j m) z_j))) (z_pow, d) (seq 1 m).

Definition compute_A_hat {E} (V : list EdwardsPoint) (generators : BpPlusGenerators.t) (transcript : DScalar) (A : CompressedPoint)
  : outcome E (option AHatComputation) :=
  let? (y, z) := transcript_A transcript A in
  match decomp_mul_cofactor A with
  | None => Ok None
  | Some A =>
      let V := pad_points V in
      let mn := (length V * BITS)%nat in
      let? (z_pow, d) := z_pow_d (length V) [sc_mul z z] (ScalarVector.new mn) in
      let ascending_y := y :: powers_loop y y (length d - 1) in
      let y_pows := sum ascending_y in
      let descending_y := rev ascending_y in
      let d_descending_y := mul d descending_y in
      let d_descending_y_plus_z := add_scalar d_descending_y z in
      let? first := index descending_y 0 in
      let y_mn_plus_one := sc_mul first y in
      let? commitment_accum := ofold (fun accum (x : nat * EdwardsPoint) =>
        let? zj := index z_pow (fst x) in
        Ok (ed_add accum (ed_mul zj (snd x)))) ed_identity (enumerate V) in
      let neg_z := sc_neg z in
      let? A_terms := each (fun x : nat * DScalar =>
        let (i, d_y_z) := x in
        let? g := BpPlusGenerators.generator generators GBold i in
        let? h := BpPlusGenerators.generator generators HBold i in
        Ok [(neg_z, g); (d_y_z, h)]) (enumerate d_descending_y_plus_z) in
      let? g := BpPlusGenerators.g in
      let A_terms := concat A_terms ++ [(y_mn_plus_one, commitment_accum);
        (sc_sub (sc_sub (sc_mul y_pows z) (sc_mul (sc_mul (sum d) y_mn_plus_one) z)) (sc_mul y_pows (sc_mul z z)), g)] in
      Ok (Some (mk_AHat y d_descending_y_plus_z y_mn_plus_one z z_pow (ed_add A (multiexp_vartime A_terms))))
  end.

(** The loop which adds to [alpha] *)
Definition add_masks {E} (z_pow : list DScalar) (y_mn_plus_one alpha : DScalar) (witness : list Commitment.t) : outcome E DScalar :=
  ofold (fun alpha (x : nat * Commitment.t) =>
    let (j, commitment) := x in
    let? z := index z_pow j in
    let? mask := Scalar.into (Commitment.mask commitment) in
    Ok (sc_add alpha (sc_mul (sc_mul z mask) y_mn_plus_one))) alpha (enumerate witness).

Definition prove {E} (self : t) (rng : Clsag.rng) (witness : list Commitment.t) : outcome E (option PlusProof * Clsag.rng) :=
  if negb (length (V self) =? length witness)%nat then Ok (None, rng)
  else
    let? commitments := each Commitment.commit witness in
    if negb (forallb (fun x => ed_eqb (fst x) (snd x)) (zip (V self) commitments)) then Ok (None, rng)
    else
      let? inv := inv_eight in
      let V := map (ed_mul inv) (V self) in
      let? transcript := PlusTranscript.initial_transcript V in
      let V := pad_points (map ed_mul_by_cofactor V) in
      let? generators := BpPlusGenerators.reduce (generators self) (length V * BITS) in
      let a_l := concat (map (fun j => u64_decompose (match witness !! (j - 1)%nat with
                                                      | Some commitment => Commitment.amount commitment
                                                      | None => 0
                                                      end)) (seq 1 (length V))) in
      let a_r := sub_scalar a_l sc_ONE in
      let? (alpha, rng) := random_scalar rng in
      let? g_terms := each (fun x : nat * DScalar =>
        let? g := BpPlusGenerators.generator generators GBold (fst x) in Ok (snd x, g)) (enumerate a_l) in
      let? h_terms := each (fun x : nat * DScalar =>
        let? h := BpPlusGenerators.generator generators HBold (fst x) in Ok (snd x, h)) (enumerate a_r) in
      let A_terms := g_terms ++ h_terms ++ [(alpha, BpPlusGenerators.h)] in
      let A := ed_compress (ed_mul inv (multiexp A_terms)) in
      let? found := compute_A_hat V generators transcript A in
      let? ah := expect found in
      let transcript := ah_z ah in
      let a_l := sub_scalar a_l (ah_z ah) in
      let a_r := add a_r (ah_d_descending_y_plus_z ah) in
      let? alpha := add_masks (ah_z_pow ah) (ah_y_mn_plus_one ah) alpha witness in
      let? statement := WipStatement.new generators (ah_A_hat ah) (ah_y ah) in
      let? wip_witness := expect (WipWitness.new a_l a_r alpha) in
      let? (wip, rng) := WipStatement.prove statement rng transcript wip_witness in
      let? wip := expect wip in
      Ok (Some (mk_PlusProof A wip), rng).

Definition verify {E} (self : t) (rng : Clsag.rng) (verifier : InternalBatchVerifier.t) (proof : PlusProof)
  : outcome E (option InternalBatchVerifier.t * Clsag.rng) :=
  let? inv := inv_eight in
  let V := map (ed_mul inv) (V self) in
  let? transcript := PlusTranscript.initial_transcript V in
  let V := map ed_mul_by_cofactor V in
  let? generators := BpPlusGenerators.reduce (generators self) (length V * BITS) in
  let? found := compute_A_hat V generators transcript (bpp_A proof) in
  match found with
  | None => Ok (None, rng)
  | Some ah =>
      let? statement := WipStatement.new generators (ah_A_hat ah) (ah_y ah) in
      WipStatement.verify statement rng verifier (ah_z ah) (bpp_wip proof)
  end.
End Ops.
End PlusStatement.

(** ** [src/lib.rs] *)

Inductive BulletproofError : Type := NoCommitments | TooManyCommitments.

Module Prove.
Section Ops.
Context {D : Dalek} {K : Keccak}.

Definition prove (rng : Clsag.rng) (outputs : list Commitment.t) : outcome BulletproofError (Bulletproof * Clsag.rng) :=
  if (length outputs =? 0)%nat then Err NoCommitments
  else if MAX_COMMITMENTS <? len outputs then Err TooManyCommitments
  else
    let? commitments := each Commitment.commit outputs in
    let? statement := expect (OriginalStatement.new commitments) in
    let? witness := expect (OriginalStatement.witness_new outputs) in
    let? (proof, rng) := OriginalStatement.prove statement rng witness in
    let? proof := expect proof in
    Ok (Original proof, rng).

Definition prove_plus (rng : Clsag.rng) (outputs : list Commitment.t) : outcome BulletproofError (Bulletproof * Clsag.rng) :=
  if (length outputs =? 0)%nat then Err NoCommitments
  else if MAX_COMMITMENTS <? len outputs then Err TooManyCommitments
  else
    let? commitments := each Commitment.commit outputs in
    let? statement := PlusStatement.new commitments in
    let? statement := expect statement in
    let? witness := expect (PlusStatement.witness_new outputs) in
    let? (proof, rng) := PlusStatement.prove statement rng witness in
    let? proof := expect proof in
    Ok (Plus proof, rng).

(** The proof queued in the batch, [None] when the proof or the commitments aren't sane *)
Definition batch_verify {E} (self : Bulletproof) (rng : Clsag.rng) (verifier : BatchVerifier.t) (commitments : list CompressedPoint)
  : outcome E (option BatchVerifier.t * Clsag.rng) :=
  match mapM CompressedPoint.decompress commitments with
  | None => Ok (None, rng)
  | Some commitments =>
      match self with
      | Original bp =>
          match OriginalStatement.new commitments with
          | None => Ok (None, rng)
          | Some statement =>
              let? (res, rng) := OriginalStatement.verify statement rng (BatchVerifier.original verifier) bp in
              Ok (option_map (fun v => BatchVerifier.mk v (BatchVerifier.plus verifier)) res, rng)
          end
      | Plus bp =>
          let? statement := PlusStatement.new commitments in
          match statement with
          | None => Ok (None, rng)
          | Some statement =>
              let? (res, rng) := PlusStatement.verify statement rng (BatchVerifier.plus verifier) bp in
              Ok (option_map (fun v => BatchVerifier.mk (BatchVerifier.original verifier) v) res, rng)
          end
      end
  end.

Definition verify {E} (self : Bulletproof) (rng : Clsag.rng) (commitments : list CompressedPoint) : outcome E (bool * Clsag.rng) :=
  match mapM CompressedPoint.decompress commitments with
  | None => Ok (false, rng)
  | Some commitments =>
      match self with
      | Original bp =>
          match OriginalStatement.new commitments with
          | None => Ok (false, rng)
          | Some statement =>
              let? (res, rng) := OriginalStatement.verify statement rng InternalBatchVerifier.default_ bp in
              match res with
              | None => Ok (false, rng)
              | Some verifier =>
                  let? b := BatchVerifier.verify_original verifier in Ok (b, rng)
              end
          end
      | Plus bp =>
          let? statement := PlusStatement.new commitments in
          match statement with
          | None => Ok (false, rng)
          | Some statement =>
              let? (res, rng) := PlusStatement.verify statement rng InternalBatchVerifier.default_ bp in
              match res with
              | None => Ok (false, rng)
              | Some verifier =>
                  let? b := BatchVerifier.verify_plus verifier in Ok (b, rng)
              end
          end
      end
  end.
End Ops.
End Prove.
