(* ===== verification/BpWip.v ===== *)
(** Completeness of Bulletproofs+'s weighted inner-product argument
    ([ringct/bulletproofs/src/plus/weighted_inner_product.rs]). *)

From Stdlib Require Import ZArith Lia Ring.
From stdpp Require Import base list strings numbers.
From S2P Require Import Prelude Dalek MoneroIo Ed25519 Clsag Bulletproofs BpCore BpOriginal BpPlus BpAlgebra BpVectors BpOriginalProofs BpRange BpComplete.

Section Powers.
Context {D : Dalek} {DL : DalekLaws D}.

Add Ring scalars_w0 : sc_ring.

Lemma one_not_zero : sc_ONE <> sc_ZERO.
Proof. intros H. apply (f_equal sc_val) in H. rewrite sc_one_val, sc_zero_val in H. discriminate. Qed.

Lemma spow_nonzero y i : y <> sc_ZERO -> spow y i <> sc_ZERO.
Proof.
  intros Hy H. pose proof (spow_inverse y i Hy) as Hi. rewrite H in Hi. apply one_not_zero. rewrite <- Hi. ring.
Qed.

Lemma spow_invert y i : y <> sc_ZERO -> sc_invert (spow y i) = spow (sc_invert y) i.
Proof.
  intros Hy. pose proof (spow_inverse y i Hy) as Hi. pose proof (sc_invert_mul _ (spow_nonzero y i Hy)) as Hs.
  transitivity (sc_mul (sc_mul (spow (sc_invert y) i) (spow y i)) (sc_invert (spow y i))); [rewrite Hi; ring|].
  transitivity (sc_mul (spow (sc_invert y) i) (sc_mul (spow y i) (sc_invert (spow y i)))); [ring|]. rewrite Hs. ring.
Qed.

(** [x :: powers_loop x x n] *)
Lemma ascending_vec x n : x :: ScalarVector.powers_loop x x n = vec (S n) (fun i => spow x (S i)).
Proof.
  assert (Hx : x = spow x 1) by (cbn [spow]; ring). rewrite Hx at 1 3. rewrite powers_loop_vec, vec_cons. f_equal.
Qed.
End Powers.

Section Wip.
Context {D : Dalek} {DL : DalekLaws D} {K : Keccak} {PR : Primitives} {ST : Setup}.
Import WipStatement ScalarVector.

Add Ring scalars_w : sc_ring.

Context (inv : DScalar) (Hinv : forall E, inv_eight (E := E) = Ok inv).
Context (g h : EdwardsPoint) (Hgf : ed_is_torsion_free g = true) (Hhf : ed_is_torsion_free h = true).
Context (y : DScalar) (Hy : y <> sc_ZERO).

Definition wip_P (n : nat) (a b : nat -> DScalar) (alpha : DScalar) (G H : nat -> EdwardsPoint) : EdwardsPoint :=
  ed_add (ed_add (psum n a G) (psum n b H))
    (ed_add (ed_mul (ssum n (fun i => sc_mul (sc_mul (a i) (b i)) (spow y (S i)))) g) (ed_mul alpha h)).

(** A round keeps [P], up to what it adds. *)
Lemma round_wip_P n a b alpha G H e dl dr (LP RP : EdwardsPoint) : e <> sc_ZERO -> free G (n + n) -> free H (n + n) ->
  let ei := sc_invert e in let yn := spow y n in let yi := spow (sc_invert y) n in
  let a2 i := a (n + i)%nat in let b2 i := b (n + i)%nat in let G2 i := G (n + i)%nat in let H2 i := H (n + i)%nat in
  LP = ed_add (psum n (fun i => sc_mul (a i) yi) G2) (ed_add (psum n b2 H)
    (ed_add (ed_mul (ssum n (fun i => sc_mul (sc_mul (a i) (b2 i)) (spow y (S i)))) g) (ed_mul dl h))) ->
  RP = ed_add (psum n (fun i => sc_mul (a2 i) yn) G) (ed_add (psum n b H2)
    (ed_add (ed_mul (ssum n (fun i => sc_mul (sc_mul (sc_mul (a2 i) yn) (b i)) (spow y (S i)))) g) (ed_mul dr h))) ->
  ed_add (ed_add (ed_mul (sc_mul e e) LP) (ed_mul (sc_mul ei ei) RP)) (wip_P (n + n) a b alpha G H) =
  wip_P n (fun i => sc_add (sc_mul (a i) e) (sc_mul (a2 i) (sc_mul yn ei))) (fun i => sc_add (sc_mul (b i) ei) (sc_mul (b2 i) e))
    (sc_add alpha (sc_add (sc_mul dl (sc_mul e e)) (sc_mul dr (sc_mul ei ei))))
    (fun i => ed_add (ed_mul ei (G i)) (ed_mul (sc_mul e yi) (G2 i))) (fun i => ed_add (ed_mul e (H i)) (ed_mul ei (H2 i))).
Proof.
  intros He HG HH ei yn yi a2 b2 G2 H2 -> ->. pose proof (sc_invert_mul e He) as Hei. fold ei in Hei.
  pose proof (spow_inverse y n Hy) as Hyi. fold yn yi in Hyi.
  assert (F1 : free G n) by (intros i Hi; apply HG; lia). assert (F2 : free G2 n) by (intros i Hi; apply HG; lia).
  assert (F3 : free H n) by (intros i Hi; apply HH; lia). assert (F4 : free H2 n) by (intros i Hi; apply HH; lia).
  unfold wip_P. rewrite !psum_split, ssum_split. rewrite !psum_points by assumption. fold G2 H2 a2 b2.
  rewrite <- !(lin_1 n g h G G2 H H2), <- !(lin_2 n g h G G2 H H2), <- !(lin_3 n g h G G2 H H2), <- !(lin_4 n g h G G2 H H2).
  rewrite <- !(lin_p n g h G G2 H H2), <- !(lin_q n g h G G2 H H2).
  repeat (rewrite ?(lin_add n g h G G2 H H2 Hgf Hhf F1 F2 F3 F4), ?(lin_mul n g h G G2 H H2 Hgf Hhf F1 F2 F3 F4)).
  apply lin_ext; cbn [lc_add lc_mul lc_p lc_q lc_1 lc_2 lc_3 lc_4 cp cq c1 c2 c3 c4]; unfold no_coeff.
  - transitivity (ssum n (fun i => sc_add (sc_add (sc_mul (sc_mul e e) (sc_mul (sc_mul (a i) (b2 i)) (spow y (S i))))
      (sc_mul (sc_mul ei ei) (sc_mul (sc_mul (sc_mul (a2 i) yn) (b i)) (spow y (S i)))))
      (sc_add (sc_mul (sc_mul (a i) (b i)) (spow y (S i))) (sc_mul (sc_mul (a2 i) (b2 i)) (spow y (S (n + i))))))).
    + rewrite !ssum_add, !ssum_mul. unfold a2, b2. ring.
    + match goal with |- ?l = sc_add _ (sc_add ?r _) => transitivity r; [|ring] end. apply ssum_ext. intros i _.
      replace (spow y (S (n + i))) with (sc_mul yn (spow y (S i))) by (unfold yn; rewrite <- spow_add; f_equal; lia). ring [Hei].
  - ring.
  - intros i _. split_and!; ring [Hei Hyi].
Qed.

(** The powers of [y] a round uses, and the inverses it pops *)
Definition ys (n : nat) : list DScalar := vec n (fun i => spow y (S i)).
Definition y_invs (k : nat) : list DScalar := vec k (fun i => spow (sc_invert y) (2 ^ i)).

Lemma pop_spec {E} k : pop (E := E) (y_invs (S k)) = Ok (y_invs k, spow (sc_invert y) (2 ^ k)).
Proof.
  unfold pop, y_invs. rewrite vec_length. replace (S k - 1)%nat with k by lia. rewrite vec_lookup by lia. rewrite vec_take by lia. reflexivity.
Qed.

Lemma wip_prove_round_spec k tr G H a b alpha Ls Rs rng : free G (2 ^ k + 2 ^ k) -> free H (2 ^ k + 2 ^ k) -> let n := (2 ^ k)%nat in
  exists e LP RP dl dr rng', e <> sc_ZERO /\ ed_is_torsion_free LP = true /\ ed_is_torsion_free RP = true /\
  let L := ed_compress (ed_mul inv LP) in let R := ed_compress (ed_mul inv RP) in
  let ei := sc_invert e in let yn := spow y n in let yi := spow (sc_invert y) n in
  (forall E, transcript_L_R (E := E) tr L R = Ok e) /\
  let a' i := sc_add (sc_mul (a i) e) (sc_mul (a (n + i)%nat) (sc_mul yn ei)) in
  let b' i := sc_add (sc_mul (b i) ei) (sc_mul (b (n + i)%nat) e) in
  let alpha' := sc_add alpha (sc_add (sc_mul dl (sc_mul e e)) (sc_mul dr (sc_mul ei ei))) in
  let G' i := ed_add (ed_mul ei (G i)) (ed_mul (sc_mul e yi) (G (n + i)%nat)) in
  let H' i := ed_add (ed_mul e (H i)) (ed_mul ei (H (n + i)%nat)) in
  (forall E, prove_round (E := E) g h (mk_prover tr (vec (2 * n) G) (vec (2 * n) H) (vec (2 * n) a) (vec (2 * n) b) alpha (ys (2 * n)) (y_invs (S k)) Ls Rs rng) =
    Ok (mk_prover e (vec n G') (vec n H') (vec n a') (vec n b') alpha' (ys n) (y_invs k) (Ls ++ [L]) (Rs ++ [R]) rng')) /\
  ed_add (ed_add (ed_mul (sc_mul e e) LP) (ed_mul (sc_mul ei ei) RP)) (wip_P (n + n) a b alpha G H) = wip_P n a' b' alpha' G' H'.
Proof.
  intros HG HH n. fold n in HG, HH. assert (Hn : (0 < n)%nat) by (pose proof (Nat.pow_nonzero 2 k ltac:(lia)); unfold n; lia).
  destruct (random_scalar_all rng) as (dl & rng1 & H1). destruct (random_scalar_all rng1) as (dr & rng2 & H2).
  set (yn := spow y n). set (yi := spow (sc_invert y) n).
  set (LP := ed_add (psum n (fun i => sc_mul (a i) yi) (fun i => G (n + i)%nat)) (ed_add (psum n (fun i => b (n + i)%nat) H)
    (ed_add (ed_mul (ssum n (fun i => sc_mul (sc_mul (a i) (b (n + i)%nat)) (spow y (S i)))) g) (ed_mul dl h)))).
  set (RP := ed_add (psum n (fun i => sc_mul (a (n + i)%nat) yn) G) (ed_add (psum n b (fun i => H (n + i)%nat))
    (ed_add (ed_mul (ssum n (fun i => sc_mul (sc_mul (sc_mul (a (n + i)%nat) yn) (b i)) (spow y (S i)))) g) (ed_mul dr h)))).
  destruct (hash_scalar_all (sc_to_bytes tr ++ ed_compress (ed_mul inv LP) ++ ed_compress (ed_mul inv RP))) as (e & He & Hh').
  exists e, LP, RP, dl, dr, rng2. split; [exact He|].
  assert (Hfree : forall P m, free P (n + n) -> (m = 0 \/ m = n)%nat -> free (fun i => P (m + i)%nat) n) by (intros P m HP Hm i Hi; apply HP; lia).
  split; [unfold LP|split; [unfold RP|]];
    try (repeat apply ed_add_free; try (apply ed_mul_free; assumption); apply psum_free;
         first [apply (Hfree _ n); [assumption|lia] | apply (Hfree _ 0%nat); [assumption|lia]]).
  cbv zeta. split; [intros E; apply Hh'|]. split.
  - intros E. unfold prove_round. cbn [pa pb pg ph ptranscript palpha py y_inv prng L_vec R_vec]. rewrite Hinv. cbn [obind].
    change (PointVector.split (vec (2 * n) G)) with (split (vec (2 * n) G)). change (PointVector.split (vec (2 * n) H)) with (split (vec (2 * n) H)).
    rewrite !vec_split, vec_length. unfold ys. rewrite index_vec by lia. cbn [obind]. rewrite H1. cbn [obind]. rewrite H2. cbn [obind].
    rewrite pop_spec. cbn [obind]. rewrite vec_take by lia. replace (S (n - 1)) with n by lia. fold n yn yi.
    unfold mul_scalar. rewrite !vec_map, !weighted_vec, !multiexp_msm, !msm_app, !msm_zip_vec. cbn [msm foldr fst snd]. rewrite !ed_add_id.
    fold LP RP. unfold next_G_H, transcript_L_R, CompressedPoint.to_bytes. rewrite Hh'. cbn [obind]. unfold add.
    rewrite !vec_map, !vec_zip_mut, !vec_zip_with. do 2 f_equal; apply vec_ext; intros i _; rewrite multiexp_vartime_msm; cbn [msm foldr fst snd];
      rewrite ed_add_id; reflexivity.
  - apply round_wip_P; try assumption; reflexivity.
Qed.

(** The coefficients of the generators once folded *)
Definition G_coeff (ps : list DScalar) (i : nat) : DScalar := sc_mul (fn ps i) (spow (sc_invert y) i).
Definition H_coeff (n : nat) (ps : list DScalar) (i : nat) : DScalar := fn ps (n - 1 - i).

Lemma coeffs_round e es n : n = (2 ^ length es)%nat ->
  let ei := sc_invert e in let yi := spow (sc_invert y) n in
  let ps := products (with_inverses es) in let ps' := products (with_inverses (e :: es)) in
  forall i, (i < n)%nat ->
  G_coeff ps' i = sc_mul (G_coeff ps i) ei /\ G_coeff ps' (n + i) = sc_mul (G_coeff ps i) (sc_mul e yi) /\
  H_coeff (n + n) ps' i = sc_mul (H_coeff n ps i) e /\ H_coeff (n + n) ps' (n + i) = sc_mul (H_coeff n ps i) ei.
Proof.
  intros Hn ei yi ps ps' i Hi. unfold G_coeff, H_coeff.
  change (with_inverses (e :: es)) with ((e, ei) :: with_inverses es) in ps'.
  assert (Hl : (2 ^ length (with_inverses es))%nat = n) by (rewrite with_inverses_length; congruence).
  pose proof (products_low (e, ei) (with_inverses es)) as Hlow. pose proof (products_high (e, ei) (with_inverses es)) as Hhigh.
  rewrite Hl in Hlow, Hhigh. cbn [fst snd] in Hlow, Hhigh. fold ps' ps in Hlow, Hhigh. split_and!.
  - rewrite Hlow by exact Hi. ring.
  - rewrite Hhigh, spow_add by exact Hi. fold yi. ring.
  - replace (n + n - 1 - i)%nat with (n + (n - 1 - i))%nat by lia. rewrite Hhigh by lia. ring.
  - replace (n + n - 1 - (n + i))%nat with (n - 1 - i)%nat by lia. rewrite Hlow by lia. ring.
Qed.

Definition LR_free (LR : list (EdwardsPoint * EdwardsPoint)) : Prop :=
  Forall (fun x => ed_is_torsion_free (fst x) = true /\ ed_is_torsion_free (snd x) = true) LR.

Definition LR_enc (LR : list (EdwardsPoint * EdwardsPoint)) : list (CompressedPoint * CompressedPoint) :=
  map (fun x => (ed_compress (ed_mul inv (fst x)), ed_compress (ed_mul inv (snd x)))) LR.

Context (Hdec : forall p, ed_is_torsion_free p = true -> decomp_mul_cofactor (ed_compress (ed_mul inv p)) = Some p).

(** All of the rounds: [verify] computes the same challenges, and the same
    last transcript; the last generators are the sums it computes; and what is
    left of [P] is that of the last vectors, of one element. *)
Lemma wip_prove_loop_spec k : forall fuel tr G H a b alpha Ls Rs rng, (k <= fuel)%nat -> let n := (2 ^ k)%nat in free G n -> free H n ->
  exists es LR s af bf, length es = k /\ length LR = k /\ Forall (fun x => x <> sc_ZERO) es /\ LR_free LR /\
    (forall E, prove_loop (E := E) fuel g h (mk_prover tr (vec n G) (vec n H) (vec n a) (vec n b) alpha (ys n) (y_invs k) Ls Rs rng) = Ok s) /\
    L_vec s = Ls ++ map fst (LR_enc LR) /\ R_vec s = Rs ++ map snd (LR_enc LR) /\
    (forall E, challenges (E := E) tr (LR_enc LR) = Ok (Some (ptranscript s, zip es LR))) /\
    let ps := products (with_inverses es) in let Gf := psum n (G_coeff ps) G in let Hf := psum n (H_coeff n ps) H in
    pg s = [Gf] /\ ph s = [Hf] /\ pa s = [af] /\ pb s = [bf] /\ py s = ys 1 /\
    ed_add (lr_sum es LR) (wip_P n a b alpha G H) = wip_P 1 (fun _ => af) (fun _ => bf) (palpha s) (fun _ => Gf) (fun _ => Hf).
Proof.
  induction k as [|k IH]; intros fuel tr G H a b alpha Ls Rs rng Hf n HG HH.
  - exists [], [], (mk_prover tr (vec 1 G) (vec 1 H) (vec 1 a) (vec 1 b) alpha (ys 1) (y_invs 0) Ls Rs rng), (a 0%nat), (b 0%nat).
    cbv zeta. change n with 1%nat. cbn [LR_enc map L_vec R_vec pg ph pa pb py palpha ptranscript]. rewrite !app_nil_r.
    assert (HG1 : psum 1 (G_coeff (products (with_inverses []))) G = G 0%nat).
    { cbn [psum]. unfold G_coeff, fn. cbn. rewrite ed_id_add. transitivity (ed_mul sc_ONE (G 0%nat)); [f_equal; ring|apply ed_mul_one]. }
    assert (HH1 : psum 1 (H_coeff 1 (products (with_inverses []))) H = H 0%nat) by (cbn; rewrite ed_id_add; apply ed_mul_one).
    split; [reflexivity|]. split; [reflexivity|]. split; [constructor|]. split; [constructor|]. split; [intros E; destruct fuel; reflexivity|].
    rewrite HG1, HH1. split_and!; try reflexivity. cbn [lr_sum]. rewrite ed_id_add. reflexivity.
  - assert (Hn : n = (2 ^ k + 2 ^ k)%nat) by (unfold n; cbn [Nat.pow]; lia). rewrite Hn in HG, HH.
    destruct (wip_prove_round_spec k tr G H a b alpha Ls Rs rng HG HH) as (e & LP & RP & dl & dr & rng' & He & HLf & HRf & Hround). cbv zeta in Hround.
    pose proof (Nat.pow_nonzero 2 k ltac:(lia)) as Hpos. set (m := (2 ^ k)%nat) in *. destruct Hround as (Htr & Hround & HP). destruct fuel as [|fuel]; [lia|].
    edestruct (IH fuel e) as (es & LR & s & af & bf & Hel & HLl & Hes & HLR & Hloop & HL & HR & Hch & Hind); [lia| | |].
    3:{ cbv zeta in Hind. destruct Hind as (Hpg & Hph & Ha & Hb & Hpy & Hsum).
      exists (e :: es), ((LP, RP) :: LR), s, af, bf. split; [cbn; congruence|]. split; [cbn; congruence|]. split; [constructor; assumption|].
      split; [constructor; [split; assumption|exact HLR]|].
      split; [intros E; cbn [prove_loop pg]; rewrite vec_length, (proj2 (Nat.ltb_lt _ _)) by lia; change n with (2 * m)%nat; rewrite Hround; cbn [obind]; apply Hloop|].
      cbn [LR_enc map fst snd]. fold (LR_enc LR).
      split; [rewrite HL, <- app_assoc; reflexivity|]. split; [rewrite HR, <- app_assoc; reflexivity|].
      split; [intros E; cbn [challenges]; rewrite Htr; cbn [obind]; rewrite (Hdec LP HLf), (Hdec RP HRf), Hch; reflexivity|].
      assert (FG : free G m /\ free (fun i => G (m + i)%nat) m) by (split; intros i Hi; apply HG; lia).
      assert (FH : free H m /\ free (fun i => H (m + i)%nat) m) by (split; intros i Hi; apply HH; lia).
      rewrite psum_points in Hpg, Hph by (apply FG || apply FH). rewrite psum_points in Hsum by (apply FG || apply FH).
      rewrite (psum_points m (H_coeff m _)) in Hsum by apply FH. cbv zeta. rewrite Hn, !psum_split.
      assert (Hco := coeffs_round e es m ltac:(rewrite Hel; reflexivity)). cbv zeta in Hco.
      assert (HGf : psum m (G_coeff (products (with_inverses (e :: es)))) G = psum m (fun i => sc_mul (G_coeff (products (with_inverses es)) i) (sc_invert e)) G)
        by (apply psum_ext; intros i Hi; split; [apply (Hco i Hi)|reflexivity]).
      assert (HGf2 : psum m (fun i => G_coeff (products (with_inverses (e :: es))) (m + i)) (fun i => G (m + i)%nat) =
        psum m (fun i => sc_mul (G_coeff (products (with_inverses es)) i) (sc_mul e (spow (sc_invert y) m))) (fun i => G (m + i)%nat))
        by (apply psum_ext; intros i Hi; split; [apply (Hco i Hi)|reflexivity]).
      assert (HHf : psum m (H_coeff (m + m) (products (with_inverses (e :: es)))) H = psum m (fun i => sc_mul (H_coeff m (products (with_inverses es)) i) e) H)
        by (apply psum_ext; intros i Hi; split; [apply (Hco i Hi)|reflexivity]).
      assert (HHf2 : psum m (fun i => H_coeff (m + m) (products (with_inverses (e :: es))) (m + i)) (fun i => H (m + i)%nat) =
        psum m (fun i => sc_mul (H_coeff m (products (with_inverses es)) i) (sc_invert e)) (fun i => H (m + i)%nat))
        by (apply psum_ext; intros i Hi; split; [apply (Hco i Hi)|reflexivity]).
      rewrite HGf, HGf2, HHf, HHf2. split_and!; try assumption.
      cbn [lr_sum]. rewrite <- ed_add_assoc, (ed_add_comm (lr_sum es LR)), ed_add_assoc, HP, ed_add_comm. exact Hsum. }
    + intros i Hi. apply ed_add_free; apply ed_mul_free, HG; lia.
    + intros i Hi. apply ed_add_free; apply ed_mul_free, HH; lia.
Qed.
End Wip.

(** ** Proving and verifying a weighted inner product *)

Section WipComplete.
Context {D : Dalek} {DL : DalekLaws D} {K : Keccak} {PR : Primitives} {ST : Setup}.
Import WipStatement ScalarVector InternalBatchVerifier.

Add Ring scalars_wc : sc_ring.

Context (g : EdwardsPoint) (Hg : forall E, MONERO_H (E := E) = Ok g) (Hgf : ed_is_torsion_free g = true).
Context (gens : Generators.t) (Hlg : length (Generators.G gens) = 1024%nat) (Hlh : length (Generators.H gens) = 1024%nat).
Context (HfG : free (pt (Generators.G gens)) 1024) (HfH : free (pt (Generators.H gens)) 1024).

Abbreviation G := (pt (Generators.G gens)).
Abbreviation H := (pt (Generators.H gens)).
Abbreviation h := ED25519_BASEPOINT_POINT.

(** The first [n] generators *)
Definition first_gens (n : nat) : BpPlusGenerators.t := BpPlusGenerators.mk (vec n G) (vec n H).

Lemma first_gens_len n : BpPlusGenerators.len (first_gens n) = n.
Proof. apply vec_length. Qed.

Lemma generators_vec {E} n : each (E := E) (BpPlusGenerators.generator (first_gens n) GBold) (seq 0 n) = Ok (vec n G) /\
  each (E := E) (BpPlusGenerators.generator (first_gens n) HBold) (seq 0 n) = Ok (vec n H).
Proof. rewrite !seq_vec. split; apply each_vec; intros i Hi; apply index_vec, Hi. Qed.

Lemma to_invert_spec {E} y k fuel a : (a <= k <= a + fuel)%nat ->
  to_invert (E := E) fuel (2 ^ a) (2 ^ k) (ys y (2 ^ k)) = Ok (vec (k - a) (fun i => spow y (2 ^ (a + i)))).
Proof.
  revert a. induction fuel as [|fuel IH]; intros a Ha; cbn [to_invert].
  - replace a with k by lia. rewrite Nat.ltb_irrefl, Nat.sub_diag. reflexivity.
  - destruct (Nat.eq_dec a k) as [->|Hne]; [rewrite Nat.ltb_irrefl, Nat.sub_diag; reflexivity|].
    assert (Hlt : (2 ^ a < 2 ^ k)%nat) by (apply Nat.pow_lt_mono_r; lia). pose proof (Nat.pow_nonzero 2 a ltac:(lia)).
    rewrite (proj2 (Nat.ltb_lt _ _) Hlt). unfold ys at 1. rewrite index_vec by lia. cbn [obind].
    change (2 * 2 ^ a)%nat with (2 ^ S a)%nat. rewrite IH by lia. cbn [obind]. do 2 f_equal.
    replace (k - a)%nat with (S (k - S a)) by lia. rewrite vec_cons. rewrite Nat.add_0_r. f_equal; [f_equal; lia|]. apply vec_ext. intros i _. do 2 f_equal. lia.
Qed.

Lemma psum_one s p : psum 1 (fun _ => s) (fun _ => p) = ed_mul s p.
Proof. apply ed_id_add. Qed.

(** The last equation: what [verify] queues of the answers cancels what it
    queues of [P], of the [L] and [R], of [A] and of [B]. *)
Lemma last_cancel W e y af bf alpha r s delta eta Gf Hf :
  ed_is_torsion_free Gf = true -> ed_is_torsion_free Hf = true ->
  let A := ed_add (ed_mul r Gf) (ed_add (ed_mul s Hf) (ed_add (ed_mul (sc_add (sc_mul (sc_mul r y) bf) (sc_mul (sc_mul s y) af)) g) (ed_mul delta h))) in
  let B := ed_add (ed_mul (sc_mul (sc_mul r y) s) g) (ed_mul eta h) in
  let r' := sc_add r (sc_mul af e) in let s' := sc_add s (sc_mul bf e) in
  let delta' := sc_add (sc_add eta (sc_mul delta e)) (sc_mul alpha (sc_mul e e)) in
  let P := ed_add (ed_add (ed_mul af Gf) (ed_mul bf Hf)) (ed_add (ed_mul (sc_mul (sc_mul af bf) y) g) (ed_mul alpha h)) in
  ed_add (ed_add (ed_add (ed_add (ed_add (ed_add (ed_mul (sc_mul W (sc_neg (sc_mul e e))) P) (ed_mul (sc_mul W (sc_mul r' e)) Gf))
    (ed_mul (sc_mul W (sc_mul s' e)) Hf)) (ed_mul (sc_mul W (sc_neg e)) A)) (ed_mul (sc_mul W (sc_mul (sc_mul r' y) s')) g)) (ed_mul (sc_mul W delta') h))
    (ed_mul (sc_neg W) B) = ed_identity.
Proof.
  intros HG HH A B r' s' delta' P. unfold P, A, B. pose proof ed_basepoint_free as Hb.
  pose (o := fun _ : nat => ed_identity). assert (Ho : free o 1) by (intros i _; apply ed_identity_free).
  set (GG := fun _ : nat => Gf). set (HH' := fun _ : nat => Hf). assert (F1 : free GG 1) by (intros i _; exact HG). assert (F2 : free HH' 1) by (intros i _; exact HH).
  assert (E1 : forall x, ed_mul x Gf = lin 1 g h GG HH' o o (lc_1 (fun _ => x))) by (intros x; rewrite lin_1; symmetry; apply psum_one).
  assert (E2 : forall x, ed_mul x Hf = lin 1 g h GG HH' o o (lc_2 (fun _ => x))) by (intros x; rewrite lin_2; symmetry; apply psum_one).
  rewrite !E1, !E2, <- !(lin_p 1 g h GG HH' o o), <- !(lin_q 1 g h GG HH' o o), <- (lin_zero 1 g h GG HH' o o).
  repeat (rewrite ?(lin_add 1 g h GG HH' o o Hgf Hb F1 F2 Ho Ho), ?(lin_mul 1 g h GG HH' o o Hgf Hb F1 F2 Ho Ho)).
  apply lin_ext; cbn [lc_add lc_mul lc_p lc_q lc_1 lc_2 lc_zero cp cq c1 c2 c3 c4]; unfold no_coeff, r', s', delta'; [ring|ring|].
  intros i _. split_and!; ring.
Qed.

Lemma queue_LR_value X es LR v : length es = length LR -> LR_free LR -> exists v',
  queue_LR v X (zip (with_inverses es) LR) = v' /\ g_bold v' = g_bold v /\ h_bold v' = h_bold v /\
  value g h gens v' = ed_add (value g h gens v) (ed_mul X (lr_sum es LR)).
Proof.
  intros Hl Hf. revert es v Hl. induction Hf as [|[L R] LR [HL HR] Hf IH]; intros [|e es] v Hl; try discriminate.
  - exists v. split_and!; try reflexivity. cbn [lr_sum]. rewrite ed_mul_id, ed_add_id. reflexivity.
  - destruct (IH es (push (push v (sc_mul X (sc_mul e e), L)) (sc_mul X (sc_mul (sc_invert e) (sc_invert e)), R))) as (v' & Hv & Hgb & Hhb & Hval); [cbn in Hl; lia|].
    exists v'. split; [exact Hv|]. split; [exact Hgb|]. split; [exact Hhb|]. rewrite Hval, !value_push. cbn [fst snd lr_sum] in *.
    rewrite !ed_mul_add_r, !ed_mul_mul by assumption. rewrite !ed_add_assoc. reflexivity.
Qed.

Context (inv : DScalar) (Hinv : forall E, inv_eight (E := E) = Ok inv)
  (Hdec : forall p, ed_is_torsion_free p = true -> decomp_mul_cofactor (ed_compress (ed_mul inv p)) = Some p).
Context (y : DScalar) (Hy : y <> sc_ZERO).

(** The last [A] and [B] *)
Definition last_A (r s delta af bf : DScalar) (Gf Hf : EdwardsPoint) : EdwardsPoint :=
  ed_add (ed_mul r Gf) (ed_add (ed_mul s Hf) (ed_add (ed_mul (sc_add (sc_mul (sc_mul r y) bf) (sc_mul (sc_mul s y) af)) g) (ed_mul delta h))).
Definition last_B (r s eta : DScalar) : EdwardsPoint := ed_add (ed_mul (sc_mul (sc_mul r y) s) g) (ed_mul eta h).

(** What a run draws, its challenges, and what it's left with *)
Record wip_run := mk_run { es : list DScalar; LR : list (EdwardsPoint * EdwardsPoint); last_tr : DScalar; af : DScalar; bf : DScalar; alphaf : DScalar;
  dr : DScalar; ds : DScalar; delta : DScalar; eta : DScalar; last_e : DScalar }.

Definition folded_G (n : nat) (u : wip_run) : EdwardsPoint := psum n (G_coeff y (products (with_inverses (es u)))) G.
Definition folded_H (n : nat) (u : wip_run) : EdwardsPoint := psum n (H_coeff n (products (with_inverses (es u)))) H.
Definition run_A (n : nat) (u : wip_run) : EdwardsPoint := last_A (dr u) (ds u) (delta u) (af u) (bf u) (folded_G n u) (folded_H n u).
Definition run_B (u : wip_run) : EdwardsPoint := last_B (dr u) (ds u) (eta u).

Definition wip_proof (n : nat) (u : wip_run) : WipProof :=
  mk_WipProof (map fst (LR_enc inv (LR u))) (map snd (LR_enc inv (LR u))) (ed_compress (ed_mul inv (run_A n u))) (ed_compress (ed_mul inv (run_B u)))
    (sc_add (dr u) (sc_mul (af u) (last_e u))) (sc_add (ds u) (sc_mul (bf u) (last_e u)))
    (sc_add (sc_add (eta u) (sc_mul (delta u) (last_e u))) (sc_mul (alphaf u) (sc_mul (last_e u) (last_e u)))).

(** A run of [k] rounds, over the transcript *)
Definition wip_transcribed (k : nat) (u : wip_run) (tr : DScalar) (P : EdwardsPoint) : Prop :=
  length (es u) = k /\ length (LR u) = k /\ Forall (fun x => x <> sc_ZERO) (es u) /\ LR_free (LR u) /\
  (forall E, challenges (E := E) tr (LR_enc inv (LR u)) = Ok (Some (last_tr u, zip (es u) (LR u)))) /\
  (forall E, transcript_A_B (E := E) (last_tr u) (ed_compress (ed_mul inv (run_A (2 ^ k) u))) (ed_compress (ed_mul inv (run_B u))) = Ok (last_e u)) /\
  ed_add (lr_sum (es u) (LR u)) P =
    ed_add (ed_add (ed_mul (af u) (folded_G (2 ^ k) u)) (ed_mul (bf u) (folded_H (2 ^ k) u))) (ed_add (ed_mul (sc_mul (sc_mul (af u) (bf u)) y) g) (ed_mul (alphaf u) h)).

Lemma wip_prove_run k a b alpha P tr rng : (k <= 10)%nat -> let n := (2 ^ k)%nat in P = wip_P g h y n a b alpha G H ->
  exists u rng', wip_transcribed k u tr P /\
  forall E, prove (E := E) (WipStatement.mk (first_gens n) P (ys y n)) rng tr (WipWitness.mk (vec n a) (vec n b) alpha) = Ok (Some (wip_proof n u), rng').
Proof.
  intros Hk n HP. assert (Hn : (n <= 1024)%nat) by (apply (Nat.pow_le_mono_r 2 k 10); lia). pose proof (Nat.pow_gt_lin_r 2 k ltac:(lia)) as Hkn. fold n in Hkn.
  destruct (wip_prove_loop_spec inv Hinv g h Hgf ed_basepoint_free y Hy Hdec k n tr G H a b alpha [] [] rng) as
    (xs & lr & st & a0 & b0 & Hel & HLl & Hes & HLR & Hloop & HL & HR & Hch & Hrest); [lia|apply (free_less _ _ _ Hn HfG)|apply (free_less _ _ _ Hn HfH)|].
  cbv zeta in Hrest. fold n in Hloop, Hrest. destruct Hrest as (Hpg & Hph & Hpa & Hpb & Hpy & Hsum). cbn [app] in HL, HR.
  destruct (random_scalar_all (prng st)) as (r & g1 & H1). destruct (random_scalar_all g1) as (s & g2 & H2).
  destruct (random_scalar_all g2) as (dl & g3 & H3). destruct (random_scalar_all g3) as (et & g4 & H4).
  pose (u0 := fun e => mk_run xs lr (ptranscript st) a0 b0 (palpha st) r s dl et e).
  destruct (hash_scalar_all (sc_to_bytes (ptranscript st) ++ ed_compress (ed_mul inv (run_A n (u0 sc_ZERO))) ++ ed_compress (ed_mul inv (run_B (u0 sc_ZERO))))) as (e & _ & He).
  exists (u0 e), g4. assert (Hy1 : spow y 1 = y) by (cbn [spow]; ring). split.
  - split; [exact Hel|]. split; [exact HLl|]. split; [exact Hes|]. split; [exact HLR|]. split; [exact Hch|]. split; [intros E; apply He|].
    unfold u0, folded_G, folded_H. cbn [es LR af bf alphaf]. fold n. rewrite HP, Hsum. unfold wip_P. rewrite !psum_one. cbn [ssum]. rewrite sc_zero_add, Hy1. reflexivity.
  - intros E. unfold prove. cbn [generators WipStatement.y WipWitness.a WipWitness.b WipWitness.alpha].
    rewrite first_gens_len, vec_length, Nat.eqb_refl. cbn [negb]. rewrite Hinv. cbn [obind]. unfold BpPlusGenerators.g. rewrite Hg. cbn [obind].
    destruct (generators_vec (E := E) n) as [-> ->]. cbn [obind]. rewrite vec_length.
    pose proof (to_invert_spec (E := E) y k n 0 ltac:(lia)) as Hti. change (2 ^ 0)%nat with 1%nat in Hti. fold n in Hti. rewrite Nat.sub_0_r in Hti.
    rewrite Hti. cbn [obind]. rewrite sc_batch_invert_map by
      (apply vec_Forall; intros i _; apply spow_nonzero, Hy).
    rewrite vec_map. rewrite (vec_ext k _ (fun i => spow (sc_invert y) (2 ^ i))) by (intros i _; apply spow_invert, Hy). fold (y_invs y k).
    unfold BpPlusGenerators.h. rewrite Hloop. cbn [obind]. rewrite H1. cbn [obind]. rewrite H2. cbn [obind]. rewrite H3. cbn [obind]. rewrite H4. cbn [obind].
    rewrite Hpy, Hpa, Hpb, Hpg, Hph. unfold ys at 1. rewrite index_vec by lia. cbn [obind index list_lookup lookup expect]. unfold index. cbn [lookup list_lookup expect obind].
    rewrite Hy1, !multiexp_msm. cbn [msm foldr fst snd]. rewrite !ed_add_id. unfold transcript_A_B, CompressedPoint.to_bytes.
    unfold run_A, run_B, last_A, last_B, folded_G, folded_H, u0 in He. cbn [es dr ds delta eta af bf] in He. rewrite He. cbn [obind]. rewrite HL, HR. reflexivity.
Qed.

(** The scalars [verify] adds for the generators *)
Lemma queue_G W n ps re l : length ps = n -> (n <= length l <= 1024)%nat -> exists l',
  (forall E, update_each (E := E) sc_add l n (fun i =>
    let? p := index ps i in
    let scalar := sc_mul p re in
    let? scalar := if (0 <? i)%nat then let? iy := index (vec n (fun i => spow (sc_invert y) (S i))) (i - 1) in Ok (sc_mul scalar iy) else Ok scalar in
    Ok (sc_mul W scalar)) = Ok l') /\ length l' = length l /\
  psum (length l) (fn l') G = ed_add (psum (length l) (fn l) G) (ed_mul (sc_mul W re) (psum n (G_coeff y ps) G)).
Proof.
  intros Hps Hl.
  destruct (update_each_spec sc_add l n (fun E i => let? p := index (E := E) ps i in let scalar := sc_mul p re in
    let? scalar := if (0 <? i)%nat then let? iy := index (vec n (fun i => spow (sc_invert y) (S i))) (i - 1) in Ok (sc_mul scalar iy) else Ok scalar in
    Ok (sc_mul W scalar)) (fun d => d) G) with (d := fun i => sc_mul W (sc_mul (sc_mul (fn ps i) re) (spow (sc_invert y) i))) as (l' & Hl' & Hlen & Hsum);
    [reflexivity|lia|apply (free_less _ _ _ (proj2 Hl) HfG)| |].
  - intros i Hi E. rewrite (fn_vec ps) at 1. rewrite Hps, index_vec by exact Hi. cbn [obind]. destruct i as [|i].
    + cbn [Nat.ltb Nat.leb obind]. do 2 f_equal. cbn [spow]. ring.
    + rewrite (proj2 (Nat.ltb_lt _ _)) by lia. rewrite index_vec by lia. cbn [obind]. replace (S (S i - 1)) with (S i) by lia. reflexivity.
  - exists l'. split; [exact Hl'|]. split; [exact Hlen|]. rewrite Hsum. f_equal. rewrite <- psum_mul by (apply (free_less G 1024); [lia|exact HfG]).
    apply psum_ext. intros i _. split; [|reflexivity]. unfold G_coeff. ring.
Qed.

Lemma queue_H W n ps se l : length ps = n -> (n <= length l <= 1024)%nat -> exists l',
  (forall E, update_each (E := E) sc_add l n (fun i => let? p := index ps (length ps - 1 - i) in Ok (sc_mul W (sc_mul se p))) = Ok l') /\ length l' = length l /\
  psum (length l) (fn l') H = ed_add (psum (length l) (fn l) H) (ed_mul (sc_mul W se) (psum n (H_coeff n ps) H)).
Proof.
  intros Hps Hl. destruct (update_each_spec sc_add l n (fun E i => let? p := index (E := E) ps (length ps - 1 - i) in Ok (sc_mul W (sc_mul se p))) (fun d => d) H)
    with (d := fun i => sc_mul W (sc_mul se (fn ps (n - 1 - i)))) as (l' & Hl' & Hlen & Hsum);
    [reflexivity|lia|apply (free_less _ _ _ (proj2 Hl) HfH)| |].
  - intros i Hi E. rewrite (fn_vec ps) at 1. rewrite Hps, index_vec by lia. reflexivity.
  - exists l'. split; [exact Hl'|]. split; [exact Hlen|]. rewrite Hsum. f_equal. rewrite <- psum_mul by (apply (free_less H 1024); [lia|exact HfH]).
    apply psum_ext. intros i _. split; [|reflexivity]. unfold H_coeff. ring.
Qed.

(** No more scalars than there are generators *)
Definition within (v : InternalBatchVerifier.t) : Prop := (length (g_bold v) <= 1024)%nat /\ (length (h_bold v) <= 1024)%nat.

Lemma folded_free n u : (n <= 1024)%nat -> ed_is_torsion_free (folded_G n u) = true /\ ed_is_torsion_free (folded_H n u) = true.
Proof. intros Hn. split; apply psum_free; [apply (free_less _ _ _ Hn HfG)|apply (free_less _ _ _ Hn HfH)]. Qed.

Lemma last_free r s dl et a b Gf Hf : ed_is_torsion_free Gf = true -> ed_is_torsion_free Hf = true ->
  ed_is_torsion_free (last_A r s dl a b Gf Hf) = true /\ ed_is_torsion_free (last_B r s et) = true.
Proof. intros HG HH. pose proof ed_basepoint_free. split; repeat apply ed_add_free; apply ed_mul_free; assumption. Qed.

Lemma wip_verify_run k u tr P v rng : (k <= 10)%nat -> wip_transcribed k u tr P -> within v -> let n := (2 ^ k)%nat in
  exists v' rng', (forall E, WipStatement.verify (E := E) (WipStatement.mk (first_gens n) P (ys y n)) rng v tr (wip_proof n u) = Ok (Some v', rng')) /\ within v' /\
    value g h gens v' = value g h gens v.
Proof.
  intros Hk (Hel & HLl & Hes & HLR & Hch & HAB & Hsum) [Hvg Hvh] n. fold n in HAB, Hsum.
  assert (Hn : (n <= 1024)%nat) by (apply (Nat.pow_le_mono_r 2 k 10); lia). pose proof (Nat.pow_gt_lin_r 2 k ltac:(lia)) as Hkn. fold n in Hkn.
  destruct (random_scalar_all rng) as (W & g1 & H1). assert (Hy1 : spow y 1 = y) by (cbn [spow]; ring). destruct (folded_free n u Hn) as [HGf HHf].
  set (X := sc_mul W (sc_neg (sc_mul (last_e u) (last_e u)))). set (v1 := push v (X, P)).
  destruct (queue_LR_value X (es u) (LR u) v1) as (v2 & Hv2 & Hg2 & Hh2 & Hval2); [congruence|exact HLR|].
  set (ps := products (with_inverses (es u))). assert (Hps : length ps = n) by (unfold ps; rewrite products_length, with_inverses_length, Hel; reflexivity).
  destruct (queue_G W n ps (sc_mul (wip_r_answer (wip_proof n u)) (last_e u)) (extend (g_bold v2) n) Hps) as (gb & Hgb & Hgl & Hgs); [rewrite extend_length, Hg2; cbn [v1 push g_bold]; lia|].
  destruct (queue_H W n ps (sc_mul (wip_s_answer (wip_proof n u)) (last_e u)) (extend (h_bold v2) n) Hps) as (hb & Hhb & Hhl & Hhs); [rewrite extend_length, Hh2; cbn [v1 push h_bold]; lia|].
  eexists _, g1. split; [intros E|split].
  - unfold WipStatement.verify. rewrite H1. cbn [obind]. cbn [generators WipStatement.y WipStatement.P]. rewrite first_gens_len. fold n. cbn [wip_proof wip_L wip_R wip_A wip_B].
    change (lr_len_loop n 0 n) with (lr_len_loop n 0 (2 ^ k)). rewrite lr_len_loop_pow by lia. fold n.
    rewrite !length_map. unfold LR_enc at 1 2. rewrite !length_map, HLl, !Nat.eqb_refl. cbn [negb orb]. unfold inv_y. unfold ys at 1. rewrite index_vec by lia. cbn [obind].
    rewrite Hy1. unfold ys at 1. rewrite vec_length, ascending_vec. replace (S (n - 1)) with n by lia.
    rewrite (zip_fst_snd (LR_enc inv (LR u))), Hch. cbn [obind]. rewrite HAB. cbn [obind]. destruct (last_free (dr u) (ds u) (delta u) (eta u) (af u) (bf u) _ _ HGf HHf) as [HfA HfB].
    unfold run_A, run_B. rewrite (Hdec _ HfA), (Hdec _ HfB). cbn [obind].
    rewrite fst_zip, snd_zip by (rewrite Hel, HLl; lia). rewrite sc_batch_invert_map by exact Hes. fold (with_inverses (es u)). fold X v1. rewrite Hv2.
    rewrite challenge_products_spec. cbn [obind]. fold ps. cbn [with_g_bold with_h_bold g_bold h_bold]. rewrite Hgb. cbn [obind]. rewrite Hhb. cbn [obind].
    unfold ys. rewrite index_vec by lia. cbn [obind]. rewrite Hy1. reflexivity.
  - unfold within. cbn [push add_g add_h with_g_bold with_h_bold g_bold h_bold]. rewrite Hgl, Hhl, !extend_length, Hg2, Hh2. cbn [v1 push g_bold h_bold]. lia.
  - rewrite value_push, value_add_h, value_add_g, value_push by (assumption || apply ed_basepoint_free). cbn [fst snd].
    erewrite value_h_bold by (cbn [with_g_bold with_h_bold h_bold]; rewrite Hhl; exact Hhs). erewrite value_g_bold by (cbn [with_g_bold with_h_bold g_bold]; rewrite Hgl; exact Hgs).
    erewrite (value_h_bold g h gens _ _ ed_identity) by (cbn [with_g_bold h_bold]; rewrite extend_value, ed_add_id; reflexivity).
    erewrite (value_g_bold g h gens _ _ ed_identity) by (rewrite extend_value, ed_add_id; reflexivity).
    rewrite !ed_add_id, Hval2. unfold v1. rewrite value_push. cbn [fst snd wip_proof wip_r_answer wip_s_answer wip_delta_answer].
    pose proof (last_cancel W (last_e u) y (af u) (bf u) (alphaf u) (dr u) (ds u) (delta u) (eta u) (folded_G n u) (folded_H n u) HGf HHf) as Hc. cbv zeta in Hc.
    rewrite <- Hsum in Hc. fold X in Hc. rewrite ed_mul_add_r in Hc. rewrite (ed_add_comm (ed_mul X (lr_sum _ _))) in Hc.
    rewrite <- (ed_add_id (value g h gens v)) at 2. rewrite <- Hc. rewrite <- !ed_add_assoc. reflexivity.
Qed.
End WipComplete.
