(* ===== verification/BpPlusComplete.v ===== *)
(** Completeness of Bulletproofs+'s aggregate range proof
    ([ringct/bulletproofs/src/plus/aggregate_range_proof.rs]): the weighted
    inner product it's reduced to is that of the vectors it proves. *)

From Stdlib Require Import ZArith Lia Ring.
From stdpp Require Import base list strings numbers.
From S2P Require Import Prelude Dalek MoneroIo Ed25519 Clsag Bulletproofs BpCore BpOriginal BpPlus BpAlgebra BpVectors BpOriginalProofs BpRange BpComplete BpWip.

(** ** The pieces *)

(** [x] concatenated by rows *)
Lemma concat_rows {A} p (f : nat -> nat -> A) : concat (vec p (fun j => vec BITS (f j))) = vec (p * BITS) (fun k => f (k / BITS)%nat (k mod BITS)%nat).
Proof.
  induction p as [|p IH]; [reflexivity|]. rewrite vec_S, concat_app, IH. cbn [concat]. rewrite app_nil_r.
  replace (S p * BITS)%nat with (p * BITS + BITS)%nat by lia. rewrite vec_app. f_equal. apply vec_ext. intros i Hi.
  destruct (index_div p i Hi) as [-> ->]. reflexivity.
Qed.

Lemma padded_rows m : (1 <= m <= 16)%nat -> padded_pow_of_2 (m * BITS) = (padded_pow_of_2 m * BITS)%nat.
Proof. intros Hm. do 17 (destruct m as [|m]; [first [lia|vm_compute; reflexivity]|]). lia. Qed.

Section Pieces.
Context {D : Dalek} {DL : DalekLaws D} {K : Keccak} {PR : Primitives} {ST : Setup}.
Import ScalarVector PlusStatement.

Add Ring scalars_pp : sc_ring.

Lemma plus_initial_all V : exists s, forall E, PlusTranscript.initial_transcript (E := E) V = Ok s.
Proof.
  destruct (hash_total (concat (map ed_compress V))) as [c Hc]. destruct (biased_hash_total (keccak256 PlusTranscript.BULLETPROOF_PLUS_TRANSCRIPT)) as [p Hp].
  destruct (hash_scalar_all (Point.compress p ++ Scalar.from c)) as (s & _ & Hs). exists s. intros E.
  unfold PlusTranscript.initial_transcript, PlusTranscript.TRANSCRIPT. rewrite Hc. cbn [obind]. rewrite Hp. cbn [obind]. apply Hs.
Qed.

Lemma d_j_vec j m : (j < m)%nat -> d_j (S j) m = vec (m * BITS) (fun k => if (k / BITS =? j)%nat then spow two (k mod BITS) else sc_ZERO).
Proof.
  intros Hj. unfold d_j. replace (S j - 1)%nat with j by lia. replace (m * BITS)%nat with (j * BITS + (BITS + (m - S j) * BITS))%nat by nia.
  rewrite !vec_app, !repeat_vec. fold two. rewrite powers_vec. f_equal; [|f_equal]; apply vec_ext; intros i Hi.
  - assert (Hd : (i / BITS < j)%nat) by (apply Nat.Div0.div_lt_upper_bound; lia). rewrite (proj2 (Nat.eqb_neq _ _)) by lia. reflexivity.
  - destruct (index_div j i Hi) as [-> ->]. rewrite Nat.eqb_refl. reflexivity.
  - assert (Hd : (S j <= (j * BITS + (BITS + i)) / BITS)%nat) by (apply Nat.div_le_lower_bound; [discriminate|lia]).
    rewrite (proj2 (Nat.eqb_neq _ _)) by lia. reflexivity.
Qed.

(** The powers of [z^2], and [d] *)
Definition z2 (z : DScalar) (j : nat) : DScalar := spow (sc_mul z z) (S j).

Lemma z_pow_d_spec z p E : z_pow_d (E := E) p [sc_mul z z] (ScalarVector.new (p * BITS)) = Ok (vec (S p) (z2 z), vec (p * BITS) (weigh_by (z2 z))).
Proof.
  unfold z_pow_d, ScalarVector.new. rewrite repeat_vec. replace (seq 1 p) with (vec p S) by (unfold vec; apply seq_shift).
  pose (upto := fun i k => if (k / BITS <? i)%nat then weigh_by (z2 z) k else sc_ZERO).
  destruct (ofold_all (fun E (s : list DScalar * list DScalar) j => let (z_pow, d) := s in
    let? last := index (E := E) z_pow (length z_pow - 1) in
    let? z_pow_0 := index z_pow 0 in
    let z_pow := z_pow ++ [sc_mul last z_pow_0] in
    let? z_j := index z_pow (j - 1) in
    Ok (z_pow, add d (mul_scalar (d_j j p) z_j))) (fun i s => s = (vec (S i) (z2 z), vec (p * BITS) (upto i))) p S
    ([sc_mul z z], vec (p * BITS) (fun _ => sc_ZERO))) as (s & Hs & ->).
  - assert (H0 : [sc_mul z z] = vec 1 (z2 z)) by (unfold vec, z2; cbn; f_equal; ring). rewrite H0. reflexivity.
  - intros i s Hi ->. eexists. split.
    + intros E'. rewrite vec_length, !index_vec by lia. cbn [obind].
      assert (Hz : vec (S i) (z2 z) ++ [sc_mul (z2 z (S i - 1)) (z2 z 0)] = vec (S (S i)) (z2 z)).
      { rewrite (vec_S (S i)). do 2 f_equal. replace (S i - 1)%nat with i by lia. unfold z2. cbn [spow]. ring. }
      rewrite Hz, index_vec by lia. cbn [obind]. rewrite d_j_vec by exact Hi. unfold mul_scalar, add. rewrite vec_map, vec_zip_mut. reflexivity.
    + f_equal. replace (S i - 1)%nat with i by lia. apply vec_ext. intros k _. unfold upto, weigh_by.
      destruct (Nat.eqb_spec (k / BITS) i) as [->|Hne], (Nat.ltb_spec (k / BITS) i), (Nat.ltb_spec (k / BITS) (S i)); try lia; rewrite ?Nat.ltb_irrefl, ?(proj2 (Nat.ltb_lt _ _)) by lia; try ring.
  - rewrite Hs. do 2 f_equal. apply vec_ext. intros k Hk. unfold upto. rewrite (proj2 (Nat.ltb_lt _ _)); [reflexivity|].
    apply Nat.Div0.div_lt_upper_bound; lia.
Qed.

Lemma msm_concat n f g P Q : msm (concat (vec n (fun i => [(f i, P i); (g i, Q i)]))) = ed_add (psum n f P) (psum n g Q).
Proof.
  induction n as [|n IH]; [symmetry; apply ed_add_id|]. rewrite vec_S, concat_app, msm_app, IH. cbn [concat app msm foldr fst snd psum].
  rewrite ed_add_id. apply ed_add_swap.
Qed.

(** The points [V] is padded to *)
Definition padded (m : nat) (C : nat -> EdwardsPoint) (i : nat) : EdwardsPoint := if (i <? m)%nat then C i else ed_identity.

Lemma pad_points_vec m p C : padded_pow_of_2 m = p -> (m <= p)%nat -> pad_points (vec m C) = vec p (padded m C).
Proof.
  intros Hp Hm. unfold pad_points. rewrite vec_length, Hp, repeat_vec. replace p with (m + (p - m))%nat at 2 by lia. rewrite vec_app.
  f_equal; apply vec_ext; intros i Hi; unfold padded; [rewrite (proj2 (Nat.ltb_lt _ _)) by lia|rewrite (proj2 (Nat.ltb_ge _ _)) by lia]; reflexivity.
Qed.

Lemma padded_sum m p C f : (m <= p)%nat -> psum p f (padded m C) = psum m f C.
Proof.
  intros Hm. replace p with (m + (p - m))%nat by lia. rewrite psum_split. rewrite (psum_ext m f f _ C) by
    (intros i Hi; unfold padded; rewrite (proj2 (Nat.ltb_lt _ _)) by lia; auto).
  rewrite (psum_ext (p - m) _ (fun i => f (m + i)%nat) _ (fun _ => ed_identity)), psum_const, ed_mul_id by
    (apply ed_identity_free || (intros i Hi; unfold padded; rewrite (proj2 (Nat.ltb_ge _ _)) by lia; auto)). apply ed_add_id.
Qed.

Lemma padded_free m p C : free C m -> free (padded m C) p.
Proof. intros HC i _. unfold padded. destruct (Nat.ltb_spec i m); [apply HC; assumption|apply ed_identity_free]. Qed.

(** What [vec n f] enumerates *)
Lemma enumerate_of_vec {A} (d : A) n (f : nat -> A) : enumerate (vec n f) = vec n (fun i => (i, f i)).
Proof. rewrite (enumerate_vec d), vec_length. apply vec_ext. intros i Hi. rewrite vec_lookup by exact Hi. reflexivity. Qed.

Context (g : EdwardsPoint) (Hg : forall E, MONERO_H (E := E) = Ok g) (gens : Generators.t).
Abbreviation G := (pt (Generators.G gens)).
Abbreviation H := (pt (Generators.H gens)).

(** [d_descending_y_plus_z] *)
Definition dyz (n : nat) (y z : DScalar) (k : nat) : DScalar := sc_add (sc_mul (weigh_by (z2 z) k) (spow y (S (n - 1 - k)))) z.

Definition g_coefficient (n : nat) (y z : DScalar) : DScalar :=
  let y_pows := ssum n (fun i => spow y (S i)) in
  sc_sub (sc_sub (sc_mul y_pows z) (sc_mul (sc_mul (ssum n (weigh_by (z2 z))) (spow y (S n))) z)) (sc_mul y_pows (sc_mul z z)).

Definition A_hat_of (n : nat) (y z : DScalar) (A accum : EdwardsPoint) : EdwardsPoint :=
  ed_add A (ed_add (ed_add (psum n (fun _ => sc_neg z) G) (psum n (dyz n y z) H)) (ed_add (ed_mul (spow y (S n)) accum) (ed_mul (g_coefficient n y z) g))).

Lemma accum_spec {E} z p C : ofold (E := E) (fun accum (x : nat * EdwardsPoint) =>
    let? zj := index (vec (S p) (z2 z)) (fst x) in Ok (ed_add accum (ed_mul zj (snd x)))) ed_identity (enumerate (vec p C)) = Ok (psum p (z2 z) C).
Proof.
  rewrite (enumerate_of_vec ed_identity). destruct (ofold_all (fun E accum (x : nat * EdwardsPoint) =>
    let? zj := index (E := E) (vec (S p) (z2 z)) (fst x) in Ok (ed_add accum (ed_mul zj (snd x)))) (fun i a => a = psum i (z2 z) C) p (fun i => (i, C i)) ed_identity)
    as (a & Ha & ->); [reflexivity| |apply Ha].
  intros i a Hi ->. eexists. split; [intros E'; cbn [fst snd]; rewrite index_vec by lia; reflexivity|reflexivity].
Qed.

Lemma compute_A_hat_spec V p C tr enc A y z : (0 < p)%nat -> let n := (p * BITS)%nat in pad_points V = vec p C ->
  (forall E, transcript_A (E := E) tr enc = Ok (y, z)) -> decomp_mul_cofactor enc = Some A ->
  forall E, compute_A_hat (E := E) V (first_gens gens n) tr enc =
    Ok (Some (mk_AHat y (vec n (dyz n y z)) (spow y (S n)) z (vec (S p) (z2 z)) (A_hat_of n y z A (psum p (z2 z) C)))).
Proof.
  intros Hp n HV Htr HA E. assert (Hn : (0 < n)%nat) by (unfold n; change BITS with 64%nat; lia).
  unfold compute_A_hat. rewrite Htr. cbn [obind]. rewrite HA, HV, vec_length. fold n. unfold n at 1. rewrite z_pow_d_spec. cbn [obind]. fold n.
  rewrite vec_length, ascending_vec. replace (S (n - 1)) with n by lia. rewrite vec_rev. unfold mul, add_scalar. rewrite vec_zip_mut, vec_map, index_vec by exact Hn. cbn [obind].
  rewrite accum_spec. cbn [obind]. rewrite (enumerate_of_vec sc_ZERO). change (fun i => sc_add (sc_mul (weigh_by (z2 z) i) (spow y (S (n - 1 - i)))) z) with (dyz n y z).
  rewrite (each_vec _ n _ (fun i => [(sc_neg z, G i); (dyz n y z i, H i)])) by
    (intros i Hi; unfold BpPlusGenerators.generator, first_gens; cbn [BpPlusGenerators.g_bold BpPlusGenerators.h_bold]; rewrite !index_vec by exact Hi; reflexivity).
  cbn [obind]. unfold BpPlusGenerators.g. rewrite Hg. cbn [obind]. rewrite !sum_vec.
  assert (Hy : sc_mul (spow y (S (n - 1 - 0))) y = spow y (S n)) by (replace (S (n - 1 - 0)) with n by lia; reflexivity).
  rewrite Hy, multiexp_vartime_msm, msm_app, msm_concat. cbn [msm foldr fst snd]. rewrite ed_add_id. reflexivity.
Qed.

(** The weighted inner product of the vectors *)
Lemma plus_t w p y z : Forall commitment_ok w -> (length w <= p)%nat -> let n := (p * BITS)%nat in
  ssum n (fun k => sc_mul (sc_mul (sc_sub (all_bits w k) z) (sc_add (sc_sub (all_bits w k) sc_ONE) (dyz n y z k))) (spow y (S k))) =
  sc_add (sc_mul (spow y (S n)) (ssum (length w) (fun j => sc_mul (z2 z j) (value_of w j)))) (g_coefficient n y z).
Proof.
  intros Hw Hp n. rewrite <- (all_bits_value w p (z2 z) Hw Hp). fold n. unfold g_coefficient. rewrite <- !ssum_mul_r, <- !ssum_mul, <- !ssum_sub.
  rewrite <- ssum_add. apply ssum_ext. intros k Hk. pose proof (all_bits_square w k) as Hsq.
  assert (Hy : sc_mul (spow y (S (n - 1 - k))) (spow y (S k)) = spow y (S n)) by (rewrite <- spow_add; f_equal; lia).
  unfold dyz. set (a := all_bits w k) in *. set (d := weigh_by (z2 z) k). rewrite <- Hy. set (yk := spow y (S k)). set (yd := spow y (S (n - 1 - k))).
  transitivity (sc_add (sc_mul (sc_mul a (sc_sub a sc_ONE)) yk) (sc_add (sc_mul (sc_sub z (sc_mul z z)) yk) (sc_mul (sc_mul yd yk) (sc_sub (sc_mul d a) (sc_mul d z))))); [ring|].
  rewrite Hsq. ring.
Qed.
End Pieces.

(** ** The whole of the proof *)

Module PlusRun.
Section Run.
Context {D : Dalek} {DL : DalekLaws D} {K : Keccak} {PR : Primitives} {ST : Setup}.
Import ScalarVector InternalBatchVerifier PlusStatement.

Add Ring scalars_pr : sc_ring.

Context (g : EdwardsPoint) (Hg : forall E, MONERO_H (E := E) = Ok g) (HgC : forall E, Commitment.H (E := E) = Ok g) (Hgf : ed_is_torsion_free g = true).
Context (gens : Generators.t) (Hlg : length (Generators.G gens) = 1024%nat) (Hlh : length (Generators.H gens) = 1024%nat).
Context (HfG : free (pt (Generators.G gens)) 1024) (HfH : free (pt (Generators.H gens)) 1024).
Context (inv : DScalar) (Hinv : forall E, inv_eight (E := E) = Ok inv)
  (Hdec : forall p, ed_is_torsion_free p = true -> decomp_mul_cofactor (ed_compress (ed_mul inv p)) = Some p)
  (Hcof : forall p, ed_is_torsion_free p = true -> ed_mul_by_cofactor (ed_mul inv p) = p).
Context (w : list Commitment.t) (Hw : Forall commitment_ok w) (Hm : (1 <= length w <= 16)%nat).
Context (j : nat) (Hj : (j <= 4)%nat) (Hpad : padded_pow_of_2 (length w) = (2 ^ j)%nat) (Hwj : (length w <= 2 ^ j)%nat).

Abbreviation G := (pt (Generators.G gens)).
Abbreviation H := (pt (Generators.H gens)).
Abbreviation h := ED25519_BASEPOINT_POINT.
Abbreviation n := (2 ^ j * BITS)%nat.

Definition aR (k : nat) : DScalar := sc_sub (all_bits w k) sc_ONE.
Definition A_of (alpha : DScalar) : EdwardsPoint := ed_add (psum n (all_bits w) G) (ed_add (psum n aR H) (ed_mul alpha h)).
Definition wip_a (z : DScalar) (k : nat) : DScalar := sc_sub (all_bits w k) z.
Definition wip_b (y z : DScalar) (k : nat) : DScalar := sc_add (aR k) (dyz n y z k).
Definition wip_alpha (alpha y z : DScalar) : DScalar :=
  sc_add alpha (ssum (length w) (fun i => sc_mul (sc_mul (z2 z i) (gamma w i)) (spow y (S n)))).

Lemma n_pow : n = (2 ^ (j + 6))%nat.
Proof. rewrite Nat.pow_add_r. reflexivity. Qed.

Lemma n_bound : (n <= 1024)%nat.
Proof. rewrite n_pow. apply (Nat.pow_le_mono_r 2 (j + 6) 10); lia. Qed.

Lemma n_pos : (0 < n)%nat.
Proof. rewrite n_pow. pose proof (Nat.pow_nonzero 2 (j + 6) ltac:(lia)). lia. Qed.

Lemma A_free alpha : ed_is_torsion_free (A_of alpha) = true.
Proof.
  pose proof n_bound as Hb. repeat apply ed_add_free; try apply ed_mul_free, ed_basepoint_free; apply psum_free;
    [apply (free_less _ _ _ Hb HfG)|apply (free_less _ _ _ Hb HfH)].
Qed.

(** The statement of the weighted inner product is of the vectors proved. *)
Lemma A_hat_wip alpha y z : let P := A_hat_of g gens n y z (A_of alpha) (psum (2 ^ j) (z2 z) (padded (length w) (committed w g))) in
  P = wip_P g h y n (wip_a z) (wip_b y z) (wip_alpha alpha y z) G H.
Proof.
  intros P. unfold P, A_hat_of, wip_P, A_of. rewrite padded_sum by exact Hwj. unfold committed.
  rewrite (psum_points _ _ _ _ (fun _ => h) (fun _ => g)) by (intros i _; exact Hgf || apply ed_basepoint_free). rewrite !psum_const by (exact Hgf || apply ed_basepoint_free).
  pose proof n_bound as Hb. pose proof (free_less _ _ _ Hb HfG) as F1. pose proof (free_less _ _ _ Hb HfH) as F2. pose proof ed_basepoint_free as Hh.
  pose (o := fun _ : nat => ed_identity). assert (Ho : free o n) by (intros i _; apply ed_identity_free).
  rewrite <- !(lin_p n g h G H o o), <- !(lin_q n g h G H o o), <- !(lin_1 n g h G H o o), <- !(lin_2 n g h G H o o).
  repeat (rewrite ?(lin_add n g h G H o o Hgf Hh F1 F2 Ho Ho), ?(lin_mul n g h G H o o Hgf Hh F1 F2 Ho Ho)).
  apply lin_ext; cbn [lc_add lc_mul lc_p lc_q lc_1 lc_2 cp cq c1 c2 c3 c4]; unfold no_coeff.
  - pose proof (plus_t w (2 ^ j) y z Hw Hwj) as Ht. cbv zeta in Ht. unfold wip_a, wip_b, aR. rewrite Ht. ring.
  - unfold wip_alpha. rewrite ssum_mul_r. ring.
  - intros k _. unfold wip_a, wip_b, aR. split_and!; ring.
Qed.

(** The generators both sides reduce theirs to *)
Lemma reduce_spec k E : (k = 2 ^ j \/ k = length w)%nat ->
  BpPlusGenerators.reduce (E := E) (BpPlusGenerators.mk (Generators.G gens) (Generators.H gens)) (k * BITS) = Ok (first_gens gens n).
Proof.
  intros Hk. assert (Hp : padded_pow_of_2 (k * BITS) = n).
  { destruct Hk as [-> | ->]; [change BITS with (2 ^ 6)%nat; rewrite <- Nat.pow_add_r, padded_pow; reflexivity|rewrite padded_rows by exact Hm; rewrite Hpad; reflexivity]. }
  pose proof n_bound as Hb. unfold BpPlusGenerators.reduce. rewrite Hp. cbn [BpPlusGenerators.g_bold BpPlusGenerators.h_bold].
  rewrite Hlg, Hlh, (proj2 (Nat.leb_le _ _) Hb), (proj2 (Nat.ltb_ge _ _) Hb). cbn [negb].
  rewrite (pt_vec (Generators.G gens)), (pt_vec (Generators.H gens)), Hlg, Hlh, !vec_take by exact Hb. reflexivity.
Qed.

Lemma a_l_vec : concat (map (fun j => u64_decompose (match w !! (j - 1)%nat with Some commitment => Commitment.amount commitment | None => 0 end))
  (seq 1 (2 ^ j))) = vec n (all_bits w).
Proof.
  rewrite <- seq_shift, map_map. change (map ?f (seq 0 ?k)) with (vec k f).
  rewrite (vec_ext _ _ (fun r => vec BITS (fun i => if (r <? length w)%nat then bit (Commitment.amount (com w r)) i else sc_ZERO))).
  - apply concat_rows.
  - intros r _. replace (S r - 1)%nat with r by lia. change (u64_decompose ?v) with (vec BITS (bit v)). apply vec_ext. intros i _. unfold com.
    destruct (Nat.ltb_spec r (length w)) as [Hr|Hr].
    + destruct (lookup_lt_is_Some_2 w r Hr) as [c ->]. reflexivity.
    + rewrite (proj2 (lookup_ge_None _ _)) by exact Hr. unfold bit. rewrite Z.shiftr_0_l. apply u64_zero.
Qed.

Lemma plus_masks_spec {E} y z alpha : add_masks (E := E) (vec (S (2 ^ j)) (z2 z)) (spow y (S n)) alpha w = Ok (wip_alpha alpha y z).
Proof.
  unfold add_masks. rewrite (enumerate_vec (Commitment.new [] 0)).
  destruct (ofold_all (fun E alpha (x : nat * Commitment.t) => let (i, commitment) := x in
    let? z := index (E := E) (vec (S (2 ^ j)) (z2 z)) i in let? mask := Scalar.into (Commitment.mask commitment) in
    Ok (sc_add alpha (sc_mul (sc_mul z mask) (spow y (S n)))))
    (fun k a => a = sc_add alpha (ssum k (fun i => sc_mul (sc_mul (z2 z i) (gamma w i)) (spow y (S n))))) (length w) (fun i => (i, com w i)) alpha) as (a & Ha & ->).
  - cbn [ssum]. ring.
  - intros i a Hi ->. eexists. split; [intros E'; rewrite index_vec by lia; cbn [obind]; rewrite gamma_spec by assumption; reflexivity|]. cbn [ssum]. ring.
  - apply Ha.
Qed.

Abbreviation Cs := (vec (length w) (committed w g)).
Abbreviation statement := (PlusStatement.mk (BpPlusGenerators.mk (Generators.G gens) (Generators.H gens)) Cs).
Abbreviation enc p := (ed_compress (ed_mul inv p)).

Definition P_of (alpha y z : DScalar) : EdwardsPoint :=
  A_hat_of g gens n y z (A_of alpha) (psum (2 ^ j) (z2 z) (padded (length w) (committed w g))).

(** A run of the prover, over the transcript *)
Definition plus_transcribed (alpha y z tr : DScalar) (u : wip_run) : Prop :=
  (forall E, PlusTranscript.initial_transcript (E := E) (map (ed_mul inv) Cs) = Ok tr) /\
  (forall E, transcript_A (E := E) tr (enc (A_of alpha)) = Ok (y, z)) /\ wip_transcribed g gens inv y (j + 6) u z (P_of alpha y z).

Definition plus_proof (alpha y : DScalar) (u : wip_run) : PlusProof := mk_PlusProof (enc (A_of alpha)) (wip_proof g gens inv y n u).

Lemma Cs_back : map ed_mul_by_cofactor (map (ed_mul inv) Cs) = Cs.
Proof.
  rewrite !vec_map. apply vec_ext. intros i _. apply Hcof. unfold committed. apply ed_add_free; apply ed_mul_free; [apply ed_basepoint_free|exact Hgf].
Qed.

Lemma Cs_padded : pad_points Cs = vec (2 ^ j) (padded (length w) (committed w g)) /\
  pad_points (pad_points Cs) = vec (2 ^ j) (padded (length w) (committed w g)).
Proof.
  assert (H1 : pad_points Cs = vec (2 ^ j) (padded (length w) (committed w g))) by (apply pad_points_vec; assumption). split; [exact H1|].
  rewrite H1, (pad_points_vec (2 ^ j) (2 ^ j)) by (apply padded_pow || lia). apply vec_ext. intros i Hi. unfold padded at 1. rewrite (proj2 (Nat.ltb_lt _ _) Hi). reflexivity.
Qed.

Lemma p_pos : (0 < 2 ^ j)%nat.
Proof. pose proof (Nat.pow_nonzero 2 j ltac:(lia)). lia. Qed.

Lemma A_hat_spec V tr alpha y z : pad_points V = vec (2 ^ j) (padded (length w) (committed w g)) ->
  (forall E, transcript_A (E := E) tr (enc (A_of alpha)) = Ok (y, z)) ->
  forall E, compute_A_hat (E := E) V (first_gens gens n) tr (enc (A_of alpha)) =
    Ok (Some (mk_AHat y (vec n (dyz n y z)) (spow y (S n)) z (vec (S (2 ^ j)) (z2 z)) (P_of alpha y z))).
Proof. intros HV Htr E. apply (compute_A_hat_spec g Hg gens V (2 ^ j)); [apply p_pos|exact HV|exact Htr|apply Hdec, A_free]. Qed.

Lemma wip_statement_new y P E : WipStatement.new (E := E) (first_gens gens n) P y = Ok (WipStatement.mk (first_gens gens n) P (ys y n)).
Proof.
  unfold WipStatement.new. rewrite first_gens_len. pose proof n_pos as Hn. destruct n as [|k] eqn:Hk; [lia|]. rewrite ascending_vec. reflexivity.
Qed.

Lemma wip_witness_new a b alpha : WipWitness.new (vec n a) (vec n b) alpha = Some (WipWitness.mk (vec n a) (vec n b) alpha).
Proof.
  pose proof n_pos as Hn. unfold WipWitness.new. rewrite !vec_length, Nat.eqb_refl, (proj2 (Nat.eqb_neq _ _)) by lia. cbn [orb negb].
  rewrite n_pow, padded_pow, Nat.sub_diag. cbn [repeat]. rewrite !app_nil_r. reflexivity.
Qed.

Lemma plus_prove_run rng : exists tr alpha y z u g', plus_transcribed alpha y z tr u /\
  forall E, prove (E := E) statement rng w = Ok (Some (plus_proof alpha y u), g').
Proof.
  destruct (plus_initial_all (map (ed_mul inv) Cs)) as (tr & Htr). destruct (random_scalar_all rng) as (alpha & g1 & H1).
  destruct (hash_scalar_all (sc_to_bytes tr ++ CompressedPoint.to_bytes (enc (A_of alpha)))) as (y & Hy & Hhy). destruct (hash_scalar_all (sc_to_bytes y)) as (z & _ & Hhz).
  assert (HA : forall E, transcript_A (E := E) tr (enc (A_of alpha)) = Ok (y, z)).
  { intros E. unfold transcript_A. rewrite Hhy. cbn [obind]. rewrite Hhz. reflexivity. }
  destruct (wip_prove_run g Hg Hgf gens Hlg Hlh HfG HfH inv Hinv Hdec y Hy (j + 6) (wip_a z) (wip_b y z) (wip_alpha alpha y z) (P_of alpha y z) z g1) as (u & g2 & Hu & Hp);
    [lia|rewrite <- n_pow; apply A_hat_wip|].
  exists tr, alpha, y, z, u, g2. split; [split; [exact Htr|split; [exact HA|exact Hu]]|]. rewrite <- n_pow in Hp.
  intros E. unfold prove. cbn [V generators]. rewrite vec_length, Nat.eqb_refl. cbn [negb]. rewrite (commits_spec w g Hw HgC). cbn [obind].
  rewrite (proj2 (andb_prop _ _ (same_commitments Cs))). cbn [negb]. rewrite Hinv. cbn [obind]. rewrite Htr. cbn [obind]. rewrite Cs_back.
  destruct Cs_padded as [Hp1 Hp2]. rewrite Hp1, vec_length, reduce_spec by auto. cbn [obind]. rewrite a_l_vec. unfold sub_scalar at 1 2. rewrite vec_map. fold aR.
  change (fun i => sc_sub (all_bits w i) sc_ONE) with aR. rewrite H1. cbn [obind]. rewrite !(enumerate_of_vec sc_ZERO).
  rewrite (each_vec _ n _ (fun i => (all_bits w i, G i))) by (intros i Hi; cbn [fst snd BpPlusGenerators.generator first_gens BpPlusGenerators.g_bold]; rewrite index_vec by exact Hi; reflexivity).
  cbn [obind].
  rewrite (each_vec _ n _ (fun i => (aR i, H i))) by (intros i Hi; cbn [fst snd BpPlusGenerators.generator first_gens BpPlusGenerators.h_bold]; rewrite index_vec by exact Hi; reflexivity).
  cbn [obind]. rewrite multiexp_msm, !msm_app, !msm_vec, msm_one. cbn [fst snd]. unfold BpPlusGenerators.h. fold (A_of alpha). rewrite <- Hp1.
  rewrite (A_hat_spec (pad_points Cs) tr alpha y z Hp2 HA). cbn [expect obind ah_z ah_z_pow ah_d_descending_y_plus_z ah_y_mn_plus_one ah_A_hat ah_y].
  rewrite plus_masks_spec. cbn [obind]. rewrite wip_statement_new. cbn [obind]. unfold sub_scalar, add. rewrite !vec_map. fold aR.
  change (fun i => sc_sub (all_bits w i) sc_ONE) with aR. rewrite vec_zip_mut.
  change (fun i => sc_sub (all_bits w i) z) with (wip_a z). change (fun i => sc_add (aR i) (dyz n y z i)) with (wip_b y z). rewrite wip_witness_new. cbn [expect obind].
  rewrite Hp. reflexivity.
Qed.

Lemma plus_verify_run alpha y z tr u v rng : plus_transcribed alpha y z tr u -> within v -> exists v' rng',
  (forall E, verify (E := E) statement rng v (plus_proof alpha y u) = Ok (Some v', rng')) /\ within v' /\ value g h gens v' = value g h gens v.
Proof.
  intros (Htr & HA & Hu) Hv.
  destruct (wip_verify_run g Hgf gens Hlg Hlh HfG HfH inv Hdec y (j + 6) u z (P_of alpha y z) v rng) as (v' & rng' & Hver & Hw' & Hval); [lia|exact Hu|exact Hv|].
  rewrite <- n_pow in Hver. exists v', rng'. split; [intros E|split; assumption]. unfold verify. rewrite Hinv. cbn [obind V generators]. rewrite Htr. cbn [obind].
  rewrite Cs_back, vec_length, reduce_spec by auto. cbn [obind plus_proof bpp_A bpp_wip]. rewrite (A_hat_spec Cs tr alpha y z (proj1 Cs_padded) HA). cbn [obind ah_A_hat ah_y ah_z].
  rewrite wip_statement_new. cbn [obind]. apply Hver.
Qed.
End Run.
End PlusRun.
