(* ===== verification/BpTheorems.v ===== *)
(** What [Bulletproof]'s functions promise ([ringct/bulletproofs/src/lib.rs]):
    [prove] and [prove_plus] yield a proof of any commitments, from one to
    sixteen, and only of those; and [verify], and a batch, accept it. *)

From Stdlib Require Import ZArith Lia.
From stdpp Require Import base list strings numbers.
From S2P Require Import Prelude Dalek MoneroIo Ed25519 Clsag Bulletproofs BpCore BpOriginal BpPlus BpAlgebra BpVectors BpOriginalProofs BpRange BpComplete BpWip BpPlusComplete.

Section Complete.
Context {D : Dalek} {DL : DalekLaws D} {K : Keccak} {PR : Primitives} {ST : Setup}.
Import InternalBatchVerifier.

(** Amounts a proof may be of *)
Definition provable (outputs : list Commitment.t) : Prop := Forall commitment_ok outputs /\ (1 <= length outputs <= 16)%nat.

(** [prove] or [prove_plus] *)
Definition prove_as (plus : bool) : Clsag.rng -> list Commitment.t -> outcome BulletproofError (Bulletproof * Clsag.rng) :=
  if plus then Prove.prove_plus else Prove.prove.

Definition lr_lengths (bp : Bulletproof) : nat * nat :=
  match bp with
  | Original bp => (length (ip_L (bp_ip bp)), length (ip_R (bp_ip bp)))
  | Plus bp => (length (wip_L (bpp_wip bp)), length (wip_R (bpp_wip bp)))
  end.

(** A batch verifier whose scalars there are generators for *)
Definition batch_ok (v : BatchVerifier.t) : Prop := even (BatchVerifier.original v) /\ within (BatchVerifier.plus v).

(** The verdict of the batch, and that of a verifier of its own, is unchanged. *)
Definition unchanged (plus : bool) (v v' : BatchVerifier.t) : Prop :=
  (forall E, BatchVerifier.verify (E := E) v' = BatchVerifier.verify v) /\
  if plus then forall E, BatchVerifier.verify_plus (E := E) (BatchVerifier.plus v') = BatchVerifier.verify_plus (BatchVerifier.plus v)
  else forall E, BatchVerifier.verify_original (E := E) (BatchVerifier.original v') = BatchVerifier.verify_original (BatchVerifier.original v).

(** What an honest proof is: it is encodable, has as many [L] and [R] as its
    padded amount of bits has doublings, and is accepted. *)
Definition accepted (plus : bool) (outputs : list Commitment.t) (bp : Bulletproof) : Prop :=
  bulletproof_ok plus bp /\ (exists k, lr_lengths bp = (k, k) /\ (2 ^ k = padded_pow_of_2 (length outputs) * BITS)%nat) /\
  exists commitments, (forall E, each (Commitment.commit (E := E)) outputs = Ok commitments) /\
  forall rng v, batch_ok v -> exists v' rng', batch_ok v' /\ unchanged plus v v' /\
    forall E, Prove.batch_verify (E := E) bp rng v (map Point.compress commitments) = Ok (Some v', rng').

Lemma provable_some outputs : provable outputs ->
  (length outputs =? 0)%nat = false /\ (MAX_COMMITMENTS <? len outputs) = false.
Proof. intros [_ H]. unfold len, MAX_COMMITMENTS. split; [apply Nat.eqb_neq|apply Z.ltb_ge]; lia. Qed.

Lemma decompress_all l : mapM CompressedPoint.decompress (map Point.compress l) = Some l.
Proof. induction l as [|p l IH]; [reflexivity|]. cbn. rewrite decompress_compress. cbn. cbn in IH. rewrite IH. reflexivity. Qed.

Lemma points_ok_len k l : length l = k -> (k <= 10)%nat -> Forall (is_array 32) l -> points_ok l.
Proof.
  intros Hl Hk Hf. split; [exact Hf|]. unfold len. rewrite Hl. change MAX_LR with 10. assert (2 ^ 10 < 2 ^ USIZE_BITS) by reflexivity. unfold U. lia.
Qed.

(** ** Bulletproofs *)

Lemma original_verdict h gens v v' : (forall E, MONERO_H (E := E) = Ok h) -> (forall E, GENERATORS (E := E) = Ok gens) ->
  length (Generators.G gens) = 1024%nat -> length (Generators.H gens) = 1024%nat -> even v -> even v' ->
  value ED25519_BASEPOINT_POINT h gens v' = value ED25519_BASEPOINT_POINT h gens v ->
  forall E, BatchVerifier.verify_original (E := E) v' = BatchVerifier.verify_original v.
Proof.
  intros Hh Hgens HG HH [He Hl] [He' Hl'] Hv E. unfold BatchVerifier.verify_original. rewrite Hh. cbn [obind]. rewrite Hgens. cbn [obind].
  rewrite !(verify_value ED25519_BASEPOINT_POINT h gens) by (unfold fits; lia). rewrite Hv. reflexivity.
Qed.

Lemma original_accepted rng outputs : provable outputs -> exists bp rng', Prove.prove rng outputs = Ok (bp, rng') /\ accepted false outputs bp.
Proof.
  intros Hp. destruct (provable_some outputs Hp) as [H0 H16]. destruct Hp as [Hw Hm]. destruct (padded_spec _ Hm) as (j & Hpad & Hj & Hwj).
  destruct H_all as (h & Hh & HhC & Hhf). destruct inv_eight_all as (inv & Hinv & Hdec & Hcof). destruct (generators_all BULLETPROOF_DST) as (gens & Hgens & HG & HH & FG & FH).
  set (n := (2 ^ j * BITS)%nat). set (Cs := vec (length outputs) (committed outputs h)). pose proof (commits_spec outputs h Hw HhC) as HCs. fold Cs in HCs.
  destruct (OriginalRun.prove_run outputs n h inv gens Hinv Hh HhC Hhf Hgens HG HH j Hj eq_refl Hpad Hwj Hw rng) as (u & tr & rng' & Htr & Hprove). fold Cs in Hprove.
  assert (Hn : n = (2 ^ (j + 6))%nat) by (unfold n; rewrite Nat.pow_add_r; reflexivity).
  destruct (ip_complete gens h (j + 6) (spow (sc_invert (OriginalRun.y u))) (OriginalRun.x_ip u) (OriginalRun.x_ip u) (OriginalRun.l outputs u) (OriginalRun.r outputs u)
    Hgens Hh Hhf HG HH FG FH) as (ip & Hip & HL & HR & HLa & HRa & Hver); [lia|]. rewrite <- Hn in Hip, Hver.
  specialize (Hprove ip Hip). set (proof := OriginalRun.proof outputs n h inv gens u ip) in *. exists (Original proof), rng'.
  assert (Hlen : (length Cs =? 0)%nat || (MAX_COMMITMENTS <? len Cs) = false) by (unfold len; unfold Cs; rewrite vec_length; fold (len outputs); rewrite H0, H16; reflexivity).
  split; [|split; [|split]].
  - unfold Prove.prove. rewrite H0, H16, HCs. cbn [obind]. unfold OriginalStatement.new, OriginalStatement.witness_new. rewrite Hlen, H0, H16.
    cbn [orb expect obind]. rewrite Hprove. reflexivity.
  - split; [reflexivity|]. split_and!; try apply ed_compress_array; [apply (points_ok_len (j + 6)); [exact HL|lia|exact HLa]|apply (points_ok_len (j + 6)); [exact HR|lia|exact HRa]].
  - exists (j + 6)%nat. split; [cbn [lr_lengths proof OriginalRun.proof bp_ip]; rewrite HL, HR; reflexivity|rewrite Hpad, <- Hn; reflexivity].
  - exists Cs. split; [exact HCs|]. intros g v [Hev Hwi].
    destruct (OriginalRun.original_verify_run outputs n h inv gens Hhf HG HH j Hj eq_refl Hpad Hwj Hw Hdec Hcof FG FH u tr ip (BatchVerifier.original v) g Htr Hev) as (v1 & g' & Hv1 & Hev1 & Hval).
    { intros W v0 Hr. apply Hver; [apply ed_basepoint_free|exact Hr]. }
    fold Cs proof in Hv1. pose proof (original_verdict h gens _ _ Hh Hgens HG HH Hev Hev1 Hval) as Hsame.
    exists (BatchVerifier.mk v1 (BatchVerifier.plus v)), g'. split; [split; assumption|]. split; [split; [|exact Hsame]|].
    + intros E. unfold BatchVerifier.verify. cbn [BatchVerifier.original BatchVerifier.plus]. rewrite Hsame. reflexivity.
    + intros E. unfold Prove.batch_verify. rewrite decompress_all. unfold OriginalStatement.new. rewrite Hlen, Hv1. reflexivity.
Qed.

(** ** Bulletproofs+ *)

Lemma plus_verdict h gens v v' : (forall E, MONERO_H (E := E) = Ok h) -> (forall E, PLUS_GENERATORS (E := E) = Ok gens) ->
  length (Generators.G gens) = 1024%nat -> length (Generators.H gens) = 1024%nat -> within v -> within v' ->
  value h ED25519_BASEPOINT_POINT gens v' = value h ED25519_BASEPOINT_POINT gens v ->
  forall E, BatchVerifier.verify_plus (E := E) v' = BatchVerifier.verify_plus v.
Proof.
  intros Hh Hgens HG HH [Hg Hl] [Hg' Hl'] Hv E. unfold BatchVerifier.verify_plus. rewrite Hh. cbn [obind]. rewrite Hgens. cbn [obind].
  rewrite !(verify_value h ED25519_BASEPOINT_POINT gens) by (unfold fits; lia). rewrite Hv. reflexivity.
Qed.

Lemma plus_accepted rng outputs : provable outputs -> exists bp rng', Prove.prove_plus rng outputs = Ok (bp, rng') /\ accepted true outputs bp.
Proof.
  intros Hp. destruct (provable_some outputs Hp) as [H0 H16]. destruct Hp as [Hw Hm]. destruct (padded_spec _ Hm) as (j & Hpad & Hj & Hwj).
  destruct H_all as (h & Hh & HhC & Hhf). destruct inv_eight_all as (inv & Hinv & Hdec & Hcof). destruct (generators_all BULLETPROOF_PLUS_DST) as (gens & Hgens & HG & HH & FG & FH).
  set (Cs := vec (length outputs) (committed outputs h)). pose proof (commits_spec outputs h Hw HhC) as HCs. fold Cs in HCs.
  destruct (PlusRun.plus_prove_run h Hh HhC Hhf gens HG HH FG FH inv Hinv Hdec Hcof outputs Hw Hm j Hj Hpad Hwj rng) as (tr & alpha & y & z & u & rng' & Htr & Hprove). fold Cs in Hprove.
  set (proof := PlusRun.plus_proof h gens inv outputs j alpha y u) in *. exists (Plus proof), rng'.
  assert (Hlen : (length Cs =? 0)%nat || (MAX_COMMITMENTS <? len Cs) = false) by (unfold len; unfold Cs; rewrite vec_length; fold (len outputs); rewrite H0, H16; reflexivity).
  assert (HLR : length (LR u) = (j + 6)%nat) by (destruct Htr as (_ & _ & Hu); apply Hu).
  assert (HnewE : forall E, PlusStatement.new (E := E) Cs = Ok (Some (PlusStatement.mk (BpPlusGenerators.mk (Generators.G gens) (Generators.H gens)) Cs))).
  { intros E. unfold PlusStatement.new. rewrite Hlen. unfold BpPlusGenerators.new. change (PLUS_GENERATORS (E := E)) with (Generators.bulletproofs_generators (E := E) BULLETPROOF_PLUS_DST).
    rewrite Hgens. reflexivity. }
  split; [|split; [|split]].
  - unfold Prove.prove_plus. rewrite H0, H16, HCs. cbn [obind]. rewrite HnewE. unfold PlusStatement.witness_new. rewrite H0, H16.
    cbn [orb expect obind]. rewrite Hprove. reflexivity.
  - split; [reflexivity|]. split_and!; try apply ed_compress_array; (apply (points_ok_len (j + 6)); [cbn; unfold LR_enc; rewrite !length_map; exact HLR|lia|]);
      cbn; unfold LR_enc; rewrite map_map; apply Forall_map, Forall_true; intros x; apply ed_compress_array.
  - exists (j + 6)%nat. split; [cbn; unfold LR_enc; rewrite !length_map, HLR; reflexivity|rewrite Hpad, Nat.pow_add_r; reflexivity].
  - exists Cs. split; [exact HCs|]. intros g v [Hev Hwi].
    destruct (PlusRun.plus_verify_run h Hh Hhf gens HG HH FG FH inv Hinv Hdec Hcof outputs Hm j Hj Hpad Hwj alpha y z tr u (BatchVerifier.plus v) g Htr Hwi) as (v1 & g' & Hv1 & Hwi1 & Hval).
    fold Cs proof in Hv1. pose proof (plus_verdict h gens _ _ Hh Hgens HG HH Hwi Hwi1 Hval) as Hsame.
    exists (BatchVerifier.mk (BatchVerifier.original v) v1), g'. split; [split; assumption|]. split; [split; [|exact Hsame]|].
    + intros E. unfold BatchVerifier.verify. cbn [BatchVerifier.original BatchVerifier.plus]. rewrite Hsame. reflexivity.
    + intros E. unfold Prove.batch_verify. rewrite decompress_all, HnewE. cbn [obind]. rewrite Hv1. reflexivity.
Qed.

Lemma prove_accepted plus rng outputs : provable outputs -> exists bp rng', prove_as plus rng outputs = Ok (bp, rng') /\ accepted plus outputs bp.
Proof. destruct plus; [apply plus_accepted|apply original_accepted]. Qed.

(** What isn't of one to sixteen commitments is refused as such. *)
Lemma prove_refused plus rng outputs : ~ (1 <= length outputs <= 16)%nat ->
  prove_as plus rng outputs = Err (if decide (outputs = []) then NoCommitments else TooManyCommitments).
Proof.
  intros Hn. destruct outputs as [|c outputs]; [destruct plus; reflexivity|]. rewrite decide_False by discriminate.
  assert (H : (MAX_COMMITMENTS <? len (c :: outputs)) = true) by (apply Z.ltb_lt; unfold MAX_COMMITMENTS, len; cbn [length] in *; lia).
  destruct plus; unfold prove_as, Prove.prove, Prove.prove_plus; cbn [length Nat.eqb]; rewrite H; reflexivity.
Qed.

(** ** Verifiers nothing is queued in *)

Lemma new_batch_ok : batch_ok BatchVerifier.new.
Proof. split; split; cbn; lia || reflexivity. Qed.

Lemma default_value B h gens : value B h gens default_ = ed_identity.
Proof. unfold value. cbn. rewrite !ed_mul_zero, !ed_add_id. reflexivity. Qed.

Lemma new_verified E : BatchVerifier.verify_original (E := E) default_ = Ok true /\ BatchVerifier.verify_plus (E := E) default_ = Ok true.
Proof.
  destruct H_all as (h & Hh & _). destruct (generators_all BULLETPROOF_DST) as (gens & Hgens & _). destruct (generators_all BULLETPROOF_PLUS_DST) as (gens' & Hgens' & _).
  assert (Hi : ed_is_identity ed_identity = true) by (apply ed_is_identity_spec; reflexivity).
  split; [unfold BatchVerifier.verify_original|unfold BatchVerifier.verify_plus]; rewrite Hh; cbn [obind].
  - change (GENERATORS (E := E)) with (Generators.bulletproofs_generators (E := E) BULLETPROOF_DST). rewrite Hgens. cbn [obind].
    rewrite verify_value, default_value, Hi by (split; cbn; lia). reflexivity.
  - change (PLUS_GENERATORS (E := E)) with (Generators.bulletproofs_generators (E := E) BULLETPROOF_PLUS_DST). rewrite Hgens'. cbn [obind].
    rewrite verify_value, default_value, Hi by (split; cbn; lia). reflexivity.
Qed.

(** A proof accepted in a batch is verified by itself. *)
Lemma accepted_verified plus outputs bp : accepted plus outputs bp -> exists commitments,
  (forall E, each (Commitment.commit (E := E)) outputs = Ok commitments) /\
  forall rng, exists rng', forall E, Prove.verify (E := E) bp rng (map Point.compress commitments) = Ok (true, rng').
Proof.
  intros (Hok & _ & Cs & HCs & Hacc). exists Cs. split; [exact HCs|]. intros rng.
  destruct (Hacc rng BatchVerifier.new new_batch_ok) as (v' & rng' & _ & (_ & Hsame) & Hv). exists rng'. intros E. specialize (Hv E).
  unfold Prove.batch_verify in Hv. unfold Prove.verify. rewrite decompress_all in Hv |- *. cbn [BatchVerifier.new BatchVerifier.original BatchVerifier.plus] in *.
  destruct bp as [bp|bp]; destruct plus; try (destruct Hok as [[=] _]).
  - destruct (OriginalStatement.new Cs) as [st|]; [|discriminate]. destruct (OriginalStatement.verify st rng default_ bp) as [[[v|] r]|e|]; cbn in Hv; try discriminate.
    injection Hv as <- <-. cbn [obind BatchVerifier.original] in *. rewrite Hsame, (proj1 (new_verified E)). reflexivity.
  - destruct (PlusStatement.new Cs) as [[st|]|e|]; cbn [obind] in Hv |- *; try discriminate. destruct (PlusStatement.verify st rng default_ bp) as [[[v|] r]|e|]; cbn in Hv; try discriminate.
    injection Hv as <- <-. cbn [obind BatchVerifier.plus] in *. rewrite Hsame, (proj2 (new_verified E)). reflexivity.
Qed.

Lemma clawback_lr plus m k : (1 <= m <= 16)%nat -> (2 ^ k = padded_pow_of_2 m * BITS)%nat ->
  exists c, forall E, Bulletproof.calculate_clawback (E := E) plus (Z.of_nat m) = Ok (c, Z.of_nat k).
Proof.
  intros Hm Hk. assert (Hl : k = Nat.log2 (padded_pow_of_2 m * BITS)) by (rewrite <- Hk, Nat.log2_pow2 by lia; reflexivity). rewrite Hl. clear Hk Hl.
  do 17 (destruct m as [|m]; [first [lia|destruct plus; eexists; intros E; vm_compute; reflexivity]|]). lia.
Qed.

(** C13: For any outputs, [prove] and [prove_plus] either yield a proof or say
    why not: there are none, or more than sixteen. They don't panic. The proof
    can be written and read back, has as many [L] and [R] as its weight is
    calculated with ([calculate_clawback]), and [verify] accepts it for the
    outputs' commitments, whatever the generator's state. *)
Theorem prove_then_verify (plus : bool) (rng : Clsag.rng) (outputs : list Commitment.t) : Forall commitment_ok outputs ->
  match prove_as plus rng outputs with
  | Ok (bp, _) =>
      (1 <= length outputs <= 16)%nat /\ bulletproof_ok plus bp /\
      (exists c lr_len, Bulletproof.calculate_clawback (E := io_error) plus (len outputs) = Ok (c, Z.of_nat lr_len) /\ lr_lengths bp = (lr_len, lr_len)) /\
      exists commitments, each (Commitment.commit (E := BulletproofError)) outputs = Ok commitments /\
        forall rng', exists rng'', Prove.verify (E := BulletproofError) bp rng' (map Point.compress commitments) = Ok (true, rng'')
  | Err NoCommitments => outputs = []
  | Err TooManyCommitments => (16 < length outputs)%nat
  | Panic => False
  end.
Proof.
  intros Hw. destruct (decide (1 <= length outputs <= 16)%nat) as [Hm|Hm].
  - destruct (prove_accepted plus rng outputs (conj Hw Hm)) as (bp & rng' & -> & Hacc). destruct (accepted_verified _ _ _ Hacc) as (Cs & HCs & Hv).
    destruct Hacc as (Hok & (k & Hlr & Hk) & _). destruct (clawback_lr plus _ k Hm Hk) as (c & Hc). split; [exact Hm|]. split; [exact Hok|].
    split; [exists c, k; split; [apply Hc|exact Hlr]|]. exists Cs. split; [apply HCs|]. intros g. destruct (Hv g) as (g' & Hg'). exists g'. apply Hg'.
  - rewrite prove_refused by exact Hm. destruct (decide (outputs = [])) as [He|He]; [exact He|]. destruct outputs; [congruence|]. cbn [length] in *. lia.
Qed.

(** A proof [prove] or [prove_plus] yields, with what it's verified for *)
Definition honest (x : Bulletproof * list CompressedPoint) : Prop :=
  exists plus rng outputs rng' commitments, Forall commitment_ok outputs /\ prove_as plus rng outputs = Ok (fst x, rng') /\
    each (Commitment.commit (E := BulletproofError)) outputs = Ok commitments /\ snd x = map Point.compress commitments.

(** Proofs queued one after the other *)
Fixpoint queue_all {E} (l : list (Bulletproof * list CompressedPoint)) (rng : Clsag.rng) (v : BatchVerifier.t) : outcome E (option BatchVerifier.t * Clsag.rng) :=
  match l with
  | [] => Ok (Some v, rng)
  | (bp, commitments) :: l =>
      let? (res, rng) := Prove.batch_verify bp rng v commitments in
      match res with
      | Some v => queue_all l rng v
      | None => Ok (None, rng)
      end
  end.

(** C14: Proofs of either kind which [prove] and [prove_plus] yielded are all
    queued by [batch_verify], in any batch whose scalars there are generators
    for, and don't change the verdict of the batch's [verify]. A batch of them
    alone is hence accepted. *)
Theorem batch_of_honest_proofs (l : list (Bulletproof * list CompressedPoint)) (rng : Clsag.rng) (v : BatchVerifier.t) :
  Forall honest l -> batch_ok v ->
  exists v' rng', queue_all (E := BulletproofError) l rng v = Ok (Some v', rng') /\ batch_ok v' /\
    BatchVerifier.verify (E := BulletproofError) v' = BatchVerifier.verify v /\
    (v = BatchVerifier.new -> BatchVerifier.verify (E := BulletproofError) v' = Ok true).
Proof.
  intros Hl Hv.
  assert (H : exists v' rng', queue_all (E := BulletproofError) l rng v = Ok (Some v', rng') /\ batch_ok v' /\
    BatchVerifier.verify (E := BulletproofError) v' = BatchVerifier.verify v).
  { revert rng v Hv. induction Hl as [|[bp Cs] l (plus & g & outputs & g' & commitments & Hw & Hp & HCs & HC) _ IH]; intros rng v Hv.
    - exists v, rng. split; [reflexivity|]. split; [exact Hv|reflexivity].
    - cbn [fst snd] in *. destruct (decide (1 <= length outputs <= 16)%nat) as [Hm|Hm]; [|rewrite prove_refused in Hp by exact Hm; discriminate].
      destruct (prove_accepted plus g outputs (conj Hw Hm)) as (bp' & g1 & Hp' & (_ & _ & Cs' & HCs' & Hacc)). rewrite Hp in Hp'. injection Hp' as <- <-.
      rewrite HCs' in HCs. injection HCs as <-. subst Cs. destruct (Hacc rng v Hv) as (v1 & rng1 & Hv1 & [Hsame _] & Hq). cbn [queue_all]. rewrite Hq. cbn [obind].
      destruct (IH rng1 v1 Hv1) as (v' & rng' & Hall & Hok & Hver). exists v', rng'. split; [exact Hall|]. split; [exact Hok|]. rewrite Hver. apply Hsame. }
  destruct H as (v' & rng' & Hq & Hok & Hver). exists v', rng'. split; [exact Hq|]. split; [exact Hok|]. split; [exact Hver|]. intros ->. rewrite Hver.
  unfold BatchVerifier.verify. cbn [BatchVerifier.new BatchVerifier.original BatchVerifier.plus]. rewrite (proj1 (new_verified _)). apply new_verified.
Qed.
End Complete.

(** ** Witnesses *)

Section Witness.
Import Model.

(** A hash which is never zero *)
#[local] Instance nonzero_hash : Keccak := fun bs =>
  to_le 32 (1 + foldl (fun a b => (a * 257 + b + 1) mod 2 ^ 64) 0 bs).

#[local] Instance example_primitives : Primitives.
Proof.
  split.
  - intros data. destruct (sc_eqb _ _) eqn:H; [|reflexivity]. exfalso. apply (sc_eqb_spec (DalekLaws := dalek_laws)) in H. apply (f_equal sc_val) in H.
    unfold keccak_digest, nonzero_hash in H. rewrite (sc_mod_order (DalekLaws := dalek_laws)), (sc_zero_val (DalekLaws := dalek_laws)) in H by apply to_le_array.
    assert (Hf : 0 <= foldl (fun a b => (a * 257 + b + 1) mod 2 ^ 64) 0 data < 2 ^ 64).
    { induction data as [|b data IH] using rev_ind; [cbn; lia|]. rewrite foldl_app. cbn [foldl]. apply Z.mod_pos_bound. lia. }
    revert H. generalize dependent (foldl (fun a b => (a * 257 + b + 1) mod 2 ^ 64) 0 data). intros x Hx H.
    assert (2 ^ 64 + 1 < L) by reflexivity. rewrite from_to_le in H by (unfold U; change (8 * Z.of_nat 32) with 256; lia). rewrite Z.mod_small in H; lia.
  - exists (to_p 16). vm_compute. reflexivity.
Qed.

#[local] Instance example_setup : Setup.
Proof.
  split.
  - exists (to_p 16). split; vm_compute; reflexivity.
  - intros data. eexists. intros E. unfold Point.biased_hash. cbv zeta. cbn [ed_from_montgomery dalek expect obind]. reflexivity.
Qed.

Definition example_outputs : list Commitment.t := [Commitment.new (Scalar.from sc_ONE) 5; Commitment.new (Scalar.from sc_ONE) 7].

Lemma example_outputs_ok : Forall commitment_ok example_outputs.
Proof. constructor; [|constructor; [|constructor]]; (split; [apply (scalar_from_ok (DL := dalek_laws))|unfold U; cbn; lia]). Qed.

Definition example_rng : Clsag.rng := fun n => repeat (Z.of_nat n mod 256) 64.

Lemma prove_then_verify_witness :
  match prove_as true example_rng example_outputs with
  | Ok (bp, _) => exists commitments rng', Prove.verify (E := BulletproofError) bp example_rng commitments = Ok (true, rng')
  | _ => False
  end.
Proof.
  pose proof (prove_then_verify (DL := dalek_laws) true example_rng example_outputs example_outputs_ok) as H.
  destruct (prove_as true example_rng example_outputs) as [[bp g]|[]|]; [|discriminate H|cbn [length example_outputs] in H; lia|exact H].
  destruct H as (_ & _ & _ & commitments & _ & Hv). destruct (Hv example_rng) as (g' & Hg). exists (map Point.compress commitments), g'. exact Hg.
Defined.

Lemma batch_of_honest_proofs_witness : exists bp commitments v rng',
  queue_all (E := BulletproofError) [(bp, commitments); (bp, commitments)] example_rng BatchVerifier.new = Ok (Some v, rng') /\
  BatchVerifier.verify (E := BulletproofError) v = Ok true.
Proof.
  destruct (prove_accepted (DL := dalek_laws) false example_rng example_outputs) as (bp & g & Hp & (_ & _ & commitments & Hc & _));
    [split; [exact example_outputs_ok|cbn; lia]|].
  assert (Hh : honest (bp, map Point.compress commitments)).
  { exists false, example_rng, example_outputs, g, commitments. split; [exact example_outputs_ok|]. split; [exact Hp|]. split; [apply Hc|reflexivity]. }
  destruct (batch_of_honest_proofs (DL := dalek_laws) [(bp, map Point.compress commitments); (bp, map Point.compress commitments)]
    example_rng BatchVerifier.new) as (v & rng' & Hq & _ & _ & Hv); [repeat constructor; exact Hh|apply new_batch_ok|].
  exists bp, (map Point.compress commitments), v, rng'. split; [exact Hq|]. apply Hv. reflexivity.
Defined.
End Witness.
