(* ===== verification/ClsagMultisigProofs.v ===== *)
(** CLSAG as an algorithm of [modular-frost] ([ringct/clsag/src/multisig.rs]):
    signers which follow the protocol make a signature which verifies, each of
    their shares is verified, and in every state an instance reaches nothing
    but what's documented errs or panics. *)

From Stdlib Require Import ZArith Lia Ring.
From stdpp Require Import base list strings numbers gmap.
From S2P Require Import Prelude Dalek MoneroIo Ed25519 Clsag ClsagSign ClsagMultisig Bulletproofs BpCore BpAlgebra BpOriginal BpPlus BpTheorems.

Import ClsagMultisig.

Section Addendum.
Context {D : Dalek} {DL : DalekLaws D} {F : Frost} {FL : FrostLaws F}.

#[export] Instance addendum_codec : Codec read_addendum write_addendum (fun a => ed_is_torsion_free (key_image_share a) = true).
Proof.
  split.
  - intros a _. apply ed_compress_array.
  - intros [p] rest Hp. unfold read_addendum, write_addendum. cbn [key_image_share] in *.
    erewrite rbind_ok by (apply read_bytes_rt, ed_compress_array). rewrite (dfg_compress _ Hp). cbn [ok_or_other].
    rewrite rbind_rret, (proj2 (bytes_eqb_spec _ _) eq_refl). reflexivity.
  - intros bs a rest Hbs H. unfold read_addendum in H. apply rbind_ok_inv in H as (b & bs1 & Hb & H).
    apply rbind_ok_inv in H as (p & bs2 & Hp & H). destruct (codec_sound (r := read_bytes 32) _ _ _ Hbs Hb) as [_ ->].
    destruct (dfg_from_bytes b) as [q|] eqn:Hq; [|discriminate Hp]. apply rret_ok_inv in Hp as [<- <-].
    destruct (bytes_eqb _ _) eqn:He; [|discriminate H]. apply bytes_eqb_spec in He. apply rret_ok_inv in H as [<- <-].
    split; [exact (dfg_free _ _ Hq)|]. unfold write_addendum. cbn. rewrite He. reflexivity.
  - unfold read_addendum. safe_tac.
Qed.
End Addendum.

(** ** Sums over the signers *)

Section Sums.
Context {D : Dalek} {DL : DalekLaws D} {A : Type}.

Add Ring scalars_multisig : sc_ring.

Fixpoint lsum (f : A -> DScalar) (l : list A) : DScalar :=
  match l with [] => sc_ZERO | x :: l => sc_add (f x) (lsum f l) end.

(** The sum of a share of a point per signer *)
Fixpoint points_sum (f : A -> EdwardsPoint) (l : list A) : EdwardsPoint :=
  match l with [] => ed_identity | x :: l => ed_add (f x) (points_sum f l) end.

Lemma points_sum_mul f p l : ed_is_torsion_free p = true -> points_sum (fun x => ed_mul (f x) p) l = ed_mul (lsum f l) p.
Proof. intros Hp. induction l as [|x l IH]; cbn; [symmetry; apply ed_mul_zero|]. rewrite IH, ed_mul_add_l by exact Hp. reflexivity. Qed.

(** The shares of a signature sum to a response to the challenge [p]. *)
Lemma lsum_responses r x p l :
  lsum (fun m => sc_sub (r m) (sc_mul p (x m))) l = sc_sub (lsum r l) (sc_mul p (lsum x l)).
Proof. induction l as [|m l IH]; cbn; [ring|]. rewrite IH. ring. Qed.

Lemma mul_basepoint_inj s t : ed_mul s ED25519_BASEPOINT_POINT = ed_mul t ED25519_BASEPOINT_POINT -> s = t.
Proof.
  intros H. assert (Hz : sc_sub s t = sc_ZERO).
  { apply ed_basepoint_order. rewrite ed_mul_sub by apply ed_basepoint_free. rewrite H.
    apply (ed_add_cancel _ _ (ed_mul t ED25519_BASEPOINT_POINT)). rewrite ed_sub_add, ed_id_add. reflexivity. }
  replace s with (sc_add (sc_sub s t) t) by apply sc_sub_add. rewrite Hz. apply sc_zero_add.
Qed.
End Sums.

(** ** Signers which follow the protocol *)

Section Quorum.
Context {D : Dalek} {DL : DalekLaws D} {K : Keccak} {PR : Primitives} {ST : Setup} {R : Rand} {T : Transcripts} {F : Frost}.

Add Ring scalars_quorum : sc_ring.

Lemma members_total ctx : context_ok ctx -> exists members, forall E, Decoys.signer_ring_members (E := E) (ClsagContext.decoys ctx) = Ok members.
Proof. intros Hx. destruct (context_members ctx Hx) as (k & c & _ & H & _). eauto. Qed.

(** The ring's members are numbered by a byte. *)
Lemma context_transcript_total {E} ctx t : context_ok ctx -> exists t', context_transcript (E := E) ctx t = Ok t'.
Proof.
  intros [(_ & Hi & Hmax & _) _]. unfold context_transcript, Decoys.MAX_RING_SIZE, len in *.
  assert (H : Forall (fun x : nat * (Point * Point) => (fst x <= 255)%nat) (enumerate (Decoys.ring (ClsagContext.decoys ctx)))).
  { apply list.Forall_forall. intros [i m] Hm. apply elem_of_zip_l, elem_of_seq in Hm. cbn. lia. }
  revert H. generalize (append_message (bstr "signer_index") [Decoys.signer_index (ClsagContext.decoys ctx)] t).
  generalize (enumerate (Decoys.ring (ClsagContext.decoys ctx))). intros l. induction l as [|[i m] l IH]; intros t0 H; [eexists; reflexivity|].
  apply Forall_cons_iff in H as [Hle H]. cbn in Hle. cbn [ofold]. unfold transcript_member at 1.
  destruct (Nat.leb_spec i 255); [|lia]. cbn [obind]. apply IH, H.
Qed.

(** What [modular-frost] gives an instance: every addendum, in the order of the
    signers *)
Fixpoint process_all (view : ThresholdView) (addenda : list (Participant * ClsagAddendum)) (self : t) (buf : channel)
  : outcome FrostError unit * (t * channel) :=
  match addenda with
  | [] => (Ok tt, (self, buf))
  | (l, addendum) :: addenda =>
      match process_addendum view l addendum self buf with
      | (Ok _, (self, buf)) => process_all view addenda self buf
      | (Err e, s) => (Err e, s)
      | (Panic, s) => (Panic, s)
      end
  end.

(** A quorum of a threshold key whose secret is [sk], once tweaked: each signer
    has an original share, [original], of which its factor makes a part of the
    secret. The first has the offset. What's documented of [ThresholdView]. *)
Record quorum (sk : DScalar) (first : Participant) (rest : list Participant) (original part : Participant -> DScalar)
  (view : Participant -> ThresholdView) : Prop := {
  q_secret : lsum part (first :: rest) = sk;
  q_part : exists a o factor,
    part first = sc_add (sc_mul a (sc_mul (factor first) (original first))) o /\
    (forall m, m ∈ rest -> part m = sc_mul a (sc_mul (factor m) (original m))) /\
    forall m, m ∈ first :: rest -> view_scalar (view m) = a /\ view_offset (view m) = o /\
      forall l, l ∈ first :: rest -> interpolation_factor (view m) l = Some (factor l);
  q_group : forall m, m ∈ first :: rest -> group_key (view m) = ed_mul sk ED25519_BASEPOINT_POINT;
  q_share : forall m, m ∈ first :: rest -> secret_share (view m) = part m;
  q_verification : forall m l, m ∈ first :: rest -> l ∈ first :: rest ->
    verification_share (view m) l = ed_mul (part l) ED25519_BASEPOINT_POINT
}.

(** The state after a signer's contribution, the part [x] of the key image *)
Definition contributed (part : Participant -> DScalar) (original : Participant -> DScalar) (st : t) (l : Participant) : t :=
  let tr := append_message (bstr "participant") (participant_to_bytes l) (transcript_of st) in
  let tr := append_message (bstr "key_image_share") (ed_compress (ed_mul (original l) (key_image_generator st))) tr in
  with_share st tr (ed_compress (ed_mul (part l) ED25519_BASEPOINT_POINT)) (ed_mul (part l) (key_image_generator st)).

Context (ctx : ClsagContext.t) (Hctx : context_commitment_ok ctx).
Context (sk : DScalar) (Hkey : exists C, forall E, Decoys.signer_ring_members (E := E) (ClsagContext.decoys ctx) = Ok (ed_mul sk ED25519_BASEPOINT_POINT, C)).
Context (first : Participant) (rest : list Participant) (original part : Participant -> DScalar) (view : Participant -> ThresholdView).
Context (Hq : quorum sk first rest original part view).

Lemma process_next m l st buf : m ∈ first :: rest -> l ∈ rest -> context st = ctx -> mask_recv st = false ->
  ed_is_torsion_free (key_image_generator st) = true ->
  process_addendum (view m) l (mk_addendum (ed_mul (original l) (key_image_generator st))) st buf =
    (Ok tt, (contributed part original st l, buf)).
Proof.
  intros Hm Hl Hc Hr Hf. destruct Hkey as [C Hk]. destruct Hq as [_ (a & o & factor & _ & Hpart & Hv) Hg _ Hver].
  destruct (Hv m Hm) as (Ha & _ & Hi). unfold process_addendum. rewrite Hc, Hk. cbn [fst].
  rewrite (Hg m Hm), (proj2 (ed_eqb_spec _ _) eq_refl). cbn [negb]. unfold take_mask. rewrite Hr. unfold contribute.
  assert (Hl' : l ∈ first :: rest) by (right; exact Hl).
  rewrite (Hi l Hl'), (Hver m l Hm Hl'), Ha. cbn [key_image_share].
  rewrite ed_mul_zero, ed_add_id, (ed_mul_mul (factor l) (original l)), (ed_mul_mul a) by exact Hf.
  unfold contributed. rewrite (Hpart l Hl). reflexivity.
Qed.

Lemma process_rest m ls st buf : m ∈ first :: rest -> ls ⊆ rest -> context st = ctx -> mask_recv st = false ->
  ed_is_torsion_free (key_image_generator st) = true ->
  process_all (view m) (map (fun l => (l, mk_addendum (ed_mul (original l) (key_image_generator st)))) ls) st buf =
    (Ok tt, (fold_left (contributed part original) ls st, buf)).
Proof.
  intros Hm. revert st. induction ls as [|l ls IH]; intros st Hls Hc Hr Hf; [reflexivity|]. cbn [map process_all fold_left].
  rewrite process_next by (auto; apply Hls; left). apply (IH (contributed part original st l)); auto.
  intros x Hx. apply Hls. right. exact Hx.
Qed.

(** What a fold of contributions makes *)
Lemma contributed_all ls st : ed_is_torsion_free (key_image_generator st) = true ->
  let st' := fold_left (contributed part original) ls st in
  context st' = context st /\ key_image_generator st' = key_image_generator st /\ mask st' = mask st /\ msg_hash st' = msg_hash st /\ interim st' = interim st /\
  image st' = ed_add (image st) (ed_mul (lsum part ls) (key_image_generator st)) /\
  (forall l, l ∈ ls -> key_image_shares st' !! ed_compress (ed_mul (part l) ED25519_BASEPOINT_POINT) =
     Some (ed_mul (part l) (key_image_generator st))) /\
  (forall x, key_image_shares st !! ed_compress (ed_mul x ED25519_BASEPOINT_POINT) = Some (ed_mul x (key_image_generator st)) ->
     key_image_shares st' !! ed_compress (ed_mul x ED25519_BASEPOINT_POINT) = Some (ed_mul x (key_image_generator st))).
Proof.
  revert st. induction ls as [|l ls IH]; intros st Hf; cbn [fold_left lsum].
  { rewrite ed_mul_zero, ed_add_id. split_and!; auto. intros l Hl. inversion Hl. }
  destruct (IH (contributed part original st l) Hf) as (H1 & H2 & H3 & H4 & H5 & H6 & H7 & H8).
  cbn [contributed with_share context key_image_generator mask msg_hash interim image key_image_shares] in *.
  assert (Hx : forall x, key_image_shares st !! ed_compress (ed_mul x ED25519_BASEPOINT_POINT) = Some (ed_mul x (key_image_generator st)) \/ x = part l ->
    <[ed_compress (ed_mul (part l) ED25519_BASEPOINT_POINT) := ed_mul (part l) (key_image_generator st)]> (key_image_shares st)
      !! ed_compress (ed_mul x ED25519_BASEPOINT_POINT) = Some (ed_mul x (key_image_generator st))).
  { intros x Hx. destruct (sc_eqb x (part l)) eqn:Heq; [apply sc_eqb_spec in Heq as ->; apply lookup_insert_eq|].
    assert (Hne : x <> part l) by (intros Hc; apply sc_eqb_spec in Hc; congruence).
    destruct Hx as [Hx|Hx]; [|contradiction]. rewrite lookup_insert_ne; [exact Hx|].
    intros He. apply Hne. symmetry. apply mul_basepoint_inj, ed_compress_inj, He. }
  split_and!; auto.
  - rewrite H6, <- ed_add_assoc, ed_mul_add_l by exact Hf. reflexivity.
  - intros y Hy. apply elem_of_cons in Hy as [->|Hy]; [apply H8, Hx; right; reflexivity|apply H7, Hy].
Qed.

(** A signer's share satisfies both equalities, whatever the weight. *)
Lemma msm_3 a b c P Q : ed_is_torsion_free P = true ->
  ed_add (ed_mul a P) (ed_add (ed_mul b P) (ed_add (ed_mul c P) Q)) = ed_add (ed_mul (sc_add a (sc_add b c)) P) Q.
Proof. intros HP. rewrite !ed_mul_add_l by exact HP. rewrite <- !ed_add_assoc. reflexivity. Qed.

Lemma honest_share st i x r : interim st = Some i -> ed_is_torsion_free (key_image_generator st) = true ->
  key_image_shares st !! ed_compress (ed_mul x ED25519_BASEPOINT_POINT) = Some (ed_mul x (key_image_generator st)) ->
  exists terms, verify_share st (ed_mul x ED25519_BASEPOINT_POINT)
    [[ed_mul r ED25519_BASEPOINT_POINT; ed_mul r (key_image_generator st)]] (sc_sub r (sc_mul (i_p i) x)) = Ok terms /\
    ed_msm (map fst terms) (map snd terms) = ed_identity.
Proof.
  intros Hi Hf Hs. unfold verify_share, index. rewrite Hi. cbn [expect obind lookup list_lookup]. rewrite Hs. cbn [expect obind lookup list_lookup].
  destruct (challenge _ _) as [w t']. eexists. split; [reflexivity|]. cbn [app map fst snd ed_msm].
  rewrite (ed_mul_mul _ r ED25519_BASEPOINT_POINT), (ed_mul_mul _ x ED25519_BASEPOINT_POINT) by apply ed_basepoint_free.
  rewrite (ed_mul_mul _ r (key_image_generator st)), (ed_mul_mul _ x (key_image_generator st)) by exact Hf.
  rewrite msm_3 by apply ed_basepoint_free. rewrite msm_3 by exact Hf.
  match goal with |- ed_add (ed_mul ?a _) (ed_add (ed_mul ?b _) _) = _ =>
    replace a with sc_ZERO by ring; replace b with sc_ZERO by ring end.
  rewrite !ed_mul_zero, !ed_add_id. reflexivity.
Qed.

(** The state in which every instance signs *)
Lemma processed tr mask : exists gen st,
  Point.biased_hash (E := ClsagError) (ed_compress (ed_mul sk ED25519_BASEPOINT_POINT)) = Ok gen /\
  (forall E, exists alg, new (E := E) tr ctx = Ok (alg, None) /\ key_image_generator alg = gen /\
    forall m, m ∈ first :: rest ->
      process_all (view m) (map (fun l => (l, preprocess_addendum alg (original l))) (first :: rest)) alg (send mask None) = (Ok tt, (st, None))) /\
  ed_is_torsion_free gen = true /\ context st = ctx /\ key_image_generator st = gen /\ ClsagMultisig.mask st = Some mask /\
  image st = ed_mul sk gen /\
  forall l, l ∈ first :: rest -> key_image_shares st !! ed_compress (ed_mul (part l) ED25519_BASEPOINT_POINT) = Some (ed_mul (part l) gen).
Proof.
  destruct Hkey as [C Hk]. destruct Hctx as [Hx _].
  destruct (biased_hash_total (ed_compress (ed_mul sk ED25519_BASEPOINT_POINT))) as [gen Hgen].
  pose proof (biased_hash_free (E := unit) _ _ (Hgen unit)) as Hf.
  destruct (context_transcript_total (E := FrostError) ctx (domain_separate (bstr "CLSAG") tr) Hx) as [tr' Htr].
  set (alg := mk tr gen ∅ ed_identity ctx true None None None).
  set (st0 := with_mask alg (append_message (bstr "mask") (sc_to_bytes mask) tr') (Some mask)).
  exists gen, (fold_left (contributed part original) rest (contributed part original st0 first)). split; [apply Hgen|].
  destruct (contributed_all (first :: rest) st0 Hf) as (H1 & H2 & H3 & _ & _ & H6 & H7 & _). cbn [fold_left] in *.
  split; [|split_and!; auto].
  - intros E. exists alg. split; [unfold new; rewrite Hk; cbn [obind fst]; unfold CompressedPoint.to_bytes, Point.compress; rewrite Hgen; reflexivity|].
    split; [reflexivity|]. intros m Hm. pose proof Hq as [_ (a & o & factor & Hpf & _ & Hv) Hg _ Hver].
    destruct (Hv m Hm) as (Ha & Ho & Hi). assert (Hfirst : first ∈ first :: rest) by left.
    cbn [map process_all]. unfold process_addendum at 1, take_mask, contribute. change (context alg) with ctx. rewrite Hk. cbn [fst].
    rewrite (Hg m Hm), (proj2 (ed_eqb_spec _ _) eq_refl). cbn [negb]. change (mask_recv alg) with true. cbn match.
    change (transcript_of alg) with tr. rewrite Htr. cbn [recv send].
    rewrite (Hi first Hfirst), (Hver m first Hm Hfirst), Ha, Ho. cbn [key_image_share preprocess_addendum].
    change (key_image_generator (with_mask _ _ _)) with gen. change (key_image_generator alg) with gen.
    rewrite (ed_mul_mul (factor first) (original first)), (ed_mul_mul a), <- ed_mul_add_l, <- Hpf by exact Hf.
    apply (process_rest m rest (contributed part original st0 first)); auto.
  - rewrite H6. change (image st0) with ed_identity. rewrite ed_id_add. change (key_image_generator st0) with gen.
    destruct Hq as [-> _ _ _ _]. reflexivity.
Qed.

(** Multiples by scalars which aren't zero aren't the identity. *)
Lemma mul_identity s p : ed_is_torsion_free p = true -> s <> sc_ZERO -> ed_mul s p = ed_identity -> p = ed_identity.
Proof.
  intros Hp Hs H. rewrite <- (ed_mul_one p), <- (sc_invert_mul s Hs), sc_mul_comm, <- ed_mul_mul, H by exact Hp. apply ed_mul_id.
Qed.

Lemma honest_not_degenerate x gen clsag cm mask D_inv : ed_is_torsion_free gen = true -> gen <> ed_identity -> x <> sc_ZERO -> cm <> mask ->
  Clsag.D clsag = ed_compress D_inv -> ed_mul_by_cofactor D_inv = ed_mul (sc_sub cm mask) gen ->
  honest_result (ed_mul x gen) clsag = Ok tt.
Proof.
  intros Hf Hg Hx Hm HD Hcof. unfold honest_result. destruct (ed_is_identity _) eqn:Hi.
  { apply ed_is_identity_spec, (mul_identity _ _ Hf Hx) in Hi. contradiction. }
  destruct (bytes_eqb _ _) eqn:He; [|reflexivity]. apply bytes_eqb_spec in He. rewrite HD in He. apply ed_compress_inj in He as ->.
  rewrite ed_cofactor_eight, ed_mul_id in Hcof. symmetry in Hcof. apply mul_identity in Hcof; [contradiction|exact Hf|].
  intros Hz. apply Hm. rewrite <- (sc_sub_add cm mask), Hz. apply sc_zero_add.
Qed.

(** C5: signers which follow the protocol make a signature. Whatever the mask
    and the nonces, every signer of a quorum processes every signer's addendum
    without an error, to the same state, whose key image is that of the group's
    secret; their shares each satisfy the equations their verification sums,
    and their sum completes a CLSAG, which verifies for the ring, the key image
    and the message, and whose pseudo-out commits to the input's amount with
    the mask. The only exceptions, which are refused, are a secret or a
    generator of zero, and the mask the input already has. *)
Theorem multisig_signs tr mask nonce msg : length msg = 32%nat ->
  let signers := first :: rest in
  exists alg st st' p clsag pseudo_out,
    new (E := ClsagError) tr ctx = Ok (alg, None) /\
    image st = ed_mul sk (key_image_generator alg) /\
    (forall m, m ∈ signers ->
       process_all (view m) (map (fun l => (l, preprocess_addendum alg (original l))) signers) alg (send mask None) = (Ok tt, (st, None)) /\
       let nonce_sums := [map (fun g => points_sum (fun m => ed_mul (nonce m) g) signers) [ED25519_BASEPOINT_POINT; key_image_generator alg]] in
       let share := sc_sub (nonce m) (sc_mul p (part m)) in
       sign_share (view m) nonce_sums [nonce m] msg st = Ok (share, st') /\
       exists terms, verify_share st' (verification_share (view first) m)
         [[ed_mul (nonce m) ED25519_BASEPOINT_POINT; ed_mul (nonce m) (key_image_generator alg)]] share = Ok terms /\
         ed_msm (map fst terms) (map snd terms) = ed_identity) /\
    Commitment.commit (E := ClsagError) (Commitment.new (Scalar.from mask) (Commitment.amount (ClsagContext.commitment ctx))) = Ok pseudo_out /\
    Clsag.verify clsag (compressed_ring ctx) (ed_compress (image st)) (ed_compress pseudo_out) msg = honest_result (image st) clsag /\
    verify st' (lsum (fun m => sc_sub (nonce m) (sc_mul p (part m))) signers) =
      Ok (match honest_result (image st) clsag with Ok _ => Some (clsag, pseudo_out) | _ => None end) /\
    (key_image_generator alg <> ed_identity -> sk <> sc_ZERO -> Scalar.from mask <> Commitment.mask (ClsagContext.commitment ctx) ->
       honest_result (image st) clsag = Ok tt).
Proof.
  intros Hmsg signers. destruct (processed tr mask) as (gen & st & Hgen & Hnew & Hf & Hc & Hg & Hm & Him & Hs).
  destruct (Hnew ClsagError) as (alg & Halg & Hag & Hproc). destruct Hkey as [C Hk]. pose proof Hctx as [Hx Hcom].
  destruct (context_members ctx Hx) as (k & c & Hring & Hmem & Hcommit). assert (Hkc : (k, c) = (ed_mul sk ED25519_BASEPOINT_POINT, C)).
  { pose proof (Hmem unit) as H. rewrite Hk in H. congruence. }
  injection Hkc as -> ->. pose proof Hx as [Hd _].
  destruct (rng_seed (bstr "decoy_responses") (transcript_of st)) as [seed tr'] eqn:Hseed.
  assert (Hsums : forall g, ed_is_torsion_free g = true -> points_sum (fun m => ed_mul (nonce m) g) signers = ed_mul (lsum nonce signers) g)
    by (intros g Hfree; apply points_sum_mul, Hfree).
  destruct (sign_core_total (E := ClsagError) (chacha20 seed) (ed_mul sk gen) ctx mask msg
    (ed_mul (lsum nonce signers) ED25519_BASEPOINT_POINT) (ed_mul (lsum nonce signers) gen) Hctx) as (core & xs & g' & Hcore & _).
  destruct (Clsag.sign_core_verifies _ _ _ _ _ _ _ _ _ _ Hmsg Hd Hring Hcommit Hgen Hcore) as (H32 & Hsl & Hv & Hpo & cm & D_inv & Hcm & HD & Hcof).
  set (i := mk_interim (Clsag.key_challenge core) (Clsag.challenged_mask core) (Clsag.incomplete_clsag core) (Clsag.pseudo_out core)).
  exists alg, st, (with_interim st tr' msg i), (Clsag.key_challenge core). eexists _, (Clsag.pseudo_out core).
  rewrite Hag, Him. split; [exact Halg|]. split; [reflexivity|]. split; [|split; [exact Hpo|split; [exact Hv|split]]].
  - intros m Hin. split; [apply Hproc, Hin|]. cbv zeta. split.
    + unfold sign_share. rewrite Hseed, Hmsg, Hm. cbn [obind expect Nat.eqb index map lookup list_lookup].
      rewrite !Hsums by (exact Hf || apply ed_basepoint_free). rewrite Him, Hc, Hcore. cbn [obind].
      pose proof Hq as [_ _ _ Hsh _]. rewrite (Hsh m Hin). reflexivity.
    + pose proof Hq as [_ _ _ _ Hver]. rewrite (Hver first m ltac:(left) Hin). pose proof (Hs m Hin) as Hsm.
      rewrite <- Hg in Hsm. replace gen with (key_image_generator (with_interim st tr' msg i)) by exact Hg.
      apply (honest_share (with_interim st tr' msg i) i); [reflexivity|cbn; rewrite Hg; exact Hf|exact Hsm].
  - unfold verify. cbn [with_interim interim expect obind i i_clsag i_c i_pseudo_out context msg_hash image]. rewrite Hc, Him.
    pose proof Hd as (_ & Hi0 & Hmax & _). unfold len, Decoys.MAX_RING_SIZE in Hi0, Hmax.
    rewrite assign_signer_spec by (exact H32 || apply sc_bytes_array || (rewrite Hsl; unfold Decoys.MAX_RING_SIZE; lia)).
    cbn [obind Nat.ltb Nat.leb]. rewrite lsum_responses, (q_secret _ _ _ _ _ _ Hq : lsum part signers = sk).
    replace (sc_sub (sc_sub (lsum nonce signers) (sc_mul (Clsag.key_challenge core) sk)) (Clsag.challenged_mask core)) with
      (sc_sub (lsum nonce signers) (sc_add (sc_mul (Clsag.key_challenge core) sk) (Clsag.challenged_mask core))) by ring.
    change (map (fun m : Point * Point => (Point.compress (fst m), Point.compress (snd m))) (Decoys.ring (ClsagContext.decoys ctx)))
      with (compressed_ring ctx). unfold Point.compress in Hv |- *. rewrite Hv.
    unfold honest_result. cbn [Clsag.D]. destruct (ed_is_identity _); [reflexivity|]. destruct (bytes_eqb _ _); reflexivity.
  - intros Hg0 Hsk Hmask. apply (honest_not_degenerate sk gen _ cm mask D_inv); auto. cbn. intros ->.
    destruct (scalar_into_all _ (proj1 Hcom)) as (cm' & Hcm' & Hfrom). rewrite Hcm' in Hcm. injection Hcm as ->. congruence.
Qed.
End Quorum.

(** ** The states an instance reaches *)

Section Timeline.
Context {D : Dalek} {DL : DalekLaws D} {K : Keccak} {PR : Primitives} {ST : Setup} {R : Rand} {T : Transcripts} {F : Frost}.
Context (tr : transcript) (ctx : ClsagContext.t) (Hctx : context_commitment_ok ctx).

(** [sent] is the mask which was sent. [modular-frost] may append to the
    transcript, and drops an instance which erred. *)
Inductive reaches : option DScalar -> t -> channel -> Prop :=
| reach_new self buf : new (E := ClsagError) tr ctx = Ok (self, buf) -> reaches None self buf
| reach_send mask self buf : reaches None self buf -> reaches (Some mask) self (send mask buf)
| reach_transcript sent self buf transcript_of : reaches sent self buf -> reaches sent (with_transcript self transcript_of) buf
| reach_process sent self buf view l addendum self' buf' : reaches sent self buf ->
    process_addendum view l addendum self buf = (Ok tt, (self', buf')) -> reaches sent self' buf'
| reach_sign sent self buf view nonce_sums nonces msg share self' : reaches sent self buf ->
    sign_share view nonce_sums nonces msg self = Ok (share, self') -> reaches sent self' buf.

(** What a signed instance holds *)
Definition interim_ok (self : t) (i : Interim) : Prop := exists msg mask,
  msg_hash self = Some msg /\ mask_recv self = false /\ ClsagMultisig.mask self = Some mask /\
  clsag_ok (length (Decoys.ring (ClsagContext.decoys ctx))) (i_clsag i) /\
  Commitment.commit (E := ClsagError) (Commitment.new (Scalar.from mask) (Commitment.amount (ClsagContext.commitment ctx))) = Ok (i_pseudo_out i).

(** The mask is taken from the buffer once. *)
Record reached (sent : option DScalar) (self : t) (buf : channel) : Prop := {
  re_context : context self = ctx;
  re_fresh : mask_recv self = true -> buf = sent /\ mask self = None /\ interim self = None;
  re_masked : mask_recv self = false -> mask self = sent /\ is_Some sent;
  re_interim : forall i, interim self = Some i -> interim_ok self i
}.

Lemma process_cases sent self buf view l addendum : reached sent self buf -> exists members,
  Decoys.signer_ring_members (E := FrostError) (ClsagContext.decoys ctx) = Ok members /\
  match process_addendum view l addendum self buf with
  | (Ok _, (self', buf')) => mask_recv self' = false /\ reached sent self' buf' /\ is_Some (interpolation_factor view l) /\
      key_image_generator self' = key_image_generator self /\
      dom (key_image_shares self') = dom (key_image_shares self) ∪ {[ed_compress (verification_share view l)]}
  | (Err _, _) => group_key view <> fst members \/ (mask_recv self = true /\ sent = None) \/ interpolation_factor view l = None
  | (Panic, _) => False
  end.
Proof.
  intros [Hc Hfresh Hmasked Hi]. destruct (members_total ctx (proj1 Hctx)) as [members Hm]. exists members. split; [apply Hm|].
  unfold process_addendum. rewrite Hc, Hm. destruct (ed_eqb _ _) eqn:He; cbn [negb].
  2:{ left. intros H. apply ed_eqb_spec in H. congruence. }
  unfold take_mask. destruct (mask_recv self) eqn:Hr.
  - rewrite Hc. destruct (context_transcript_total (E := FrostError) ctx (domain_separate (bstr "CLSAG") (transcript_of self)) (proj1 Hctx)) as [t' Ht].
    rewrite Ht. destruct (Hfresh eq_refl) as (-> & Hmk & Hint). unfold recv. destruct sent as [mk|]; [|right; left; auto].
    unfold contribute. destruct (interpolation_factor view l) as [f|] eqn:Hf; [|right; right; reflexivity].
    split; [reflexivity|]. split; [split; cbn; [exact Hc|discriminate|eauto|rewrite Hint; discriminate]|].
    split; [eauto|]. split; [reflexivity|]. cbn. rewrite dom_insert_L. apply union_comm_L.
  - unfold contribute. destruct (interpolation_factor view l) as [f|] eqn:Hf; [|right; right; reflexivity].
    split; [exact Hr|]. split; [split; cbn; [exact Hc|congruence|intros _; exact (Hmasked eq_refl)|exact Hi]|].
    split; [eauto|]. split; [reflexivity|]. cbn. rewrite dom_insert_L. apply union_comm_L.
Qed.

(** Signing, once an addendum was processed *)
Lemma sign_share_cases sent self buf view A AH nonce msg : reached sent self buf -> length msg = 32%nat ->
  if mask_recv self then sign_share view [[A; AH]] [nonce] msg self = Panic
  else exists share self', sign_share view [[A; AH]] [nonce] msg self = Ok (share, self') /\
    is_Some (interim self') /\ msg_hash self' = Some msg /\ image self' = image self /\ key_image_shares self' = key_image_shares self.
Proof.
  intros [Hc Hfresh Hmasked _] Hl. unfold sign_share. destruct (rng_seed _ _) as [seed t']. rewrite Hl. cbn [Nat.eqb obind].
  destruct (mask_recv self); [destruct (Hfresh eq_refl) as (_ & -> & _); reflexivity|].
  destruct (Hmasked eq_refl) as [-> [mk ->]]. cbn [expect obind index lookup list_lookup]. rewrite Hc.
  destruct (sign_core_total (E := ClsagError) (chacha20 seed) (image self) ctx mk msg A AH Hctx) as (core & xs & g' & -> & _).
  cbn [obind]. eexists _, _. split; [reflexivity|]. cbn. eauto.
Qed.

Lemma sign_share_reached sent self buf view sums nonces msg share self' : reached sent self buf ->
  sign_share view sums nonces msg self = Ok (share, self') -> reached sent self' buf.
Proof.
  intros [Hc Hfresh Hmasked Hi] Hs. unfold sign_share in Hs. destruct (rng_seed _ _) as [seed t'].
  destruct (length msg =? 32)%nat; [|discriminate]. cbn [obind] in Hs. destruct (mask self) as [mk|] eqn:Hmk; [|discriminate].
  cbn [expect obind] in Hs. destruct (index sums 0) as [s0| |]; [|discriminate..]. cbn [obind] in Hs.
  destruct (index s0 0) as [A| |]; [|discriminate..]. cbn [obind] in Hs. destruct (index s0 1) as [AH| |]; [|discriminate..].
  cbn [obind] in Hs. rewrite Hc in Hs.
  destruct (sign_core_total (E := ClsagError) (chacha20 seed) (image self) ctx mk msg A AH Hctx) as (core & xs & g' & Hcore & Hss & Hsl & Hc1 & HD).
  rewrite Hcore in Hs. cbn [obind] in Hs. destruct (index nonces 0); [|discriminate..]. cbn [obind] in Hs. injection Hs as _ <-.
  assert (Hr : mask_recv self = false) by (destruct (mask_recv self); [destruct (Hfresh eq_refl) as (_ & H & _); congruence|reflexivity]).
  split; cbn; [exact Hc|congruence|intros _; destruct (Hmasked Hr); split; congruence|]. intros i [= <-]. exists msg, mk. cbn.
  split; [reflexivity|]. split; [exact Hr|]. split; [exact Hmk|]. split.
  - split; [|split; assumption]. rewrite Hss. split; [rewrite length_map; exact Hsl|]. apply Forall_map, Forall_true. intros. apply scalar_from_ok.
  - unfold Clsag.sign_core in Hcore. destruct (Commitment.commit _) as [po| |]; [|discriminate..]. cbn [obind] in Hcore.
    destruct (Scalar.into _); [|discriminate..]. cbn [obind] in Hcore. destruct (Decoys.signer_ring_members _); [|discriminate..].
    cbn [obind] in Hcore. destruct (Point.biased_hash _); [|discriminate..]. cbn [obind] in Hcore. destruct (Clsag.random_vec _ _).
    destruct (Clsag.core _ _ _ _ _ _ _) as [[[[? ?] ?] ?]| |]; [|discriminate..]. cbn [obind] in Hcore. injection Hcore as <- _. reflexivity.
Qed.

Lemma reaches_reached sent self buf : reaches sent self buf -> reached sent self buf.
Proof.
  induction 1 as [self buf Hn|mk self buf _ IH|sent self buf t' _ IH|sent self buf view l a self' buf' _ IH Hp|sent self buf view ns n msg sh self' _ IH Hs].
  - unfold new in Hn. destruct (Decoys.signer_ring_members _); [|discriminate..]. cbn [obind] in Hn.
    destruct (Point.biased_hash _); [|discriminate..]. injection Hn as <- <-. split; cbn; [reflexivity|auto|discriminate|discriminate].
  - destruct IH as [Hc Hf Hm Hi]. split; [exact Hc| |intros Hr; destruct (Hm Hr) as [_ [? [=]]]|exact Hi].
    intros Hr. destruct (Hf Hr) as (_ & ? & ?). auto.
  - destruct IH as [Hc Hf Hm Hi]. split; assumption.
  - destruct (process_cases _ _ _ view l a IH) as (? & _ & H). rewrite Hp in H. apply H.
  - exact (sign_share_reached _ _ _ _ _ _ _ _ _ IH Hs).
Qed.

(** What's been signed is completed or refused. *)
Lemma verify_cases sent self buf sum : reached sent self buf ->
  match interim self, verify self sum with
  | None, r => r = Panic
  | Some i, Ok None => True
  | Some i, Ok (Some (clsag, pseudo_out)) => exists msg mask, msg_hash self = Some msg /\ sent = Some mask /\
      Clsag.verify clsag (compressed_ring ctx) (ed_compress (image self)) (ed_compress pseudo_out) msg = Ok tt /\
      Commitment.commit (E := ClsagError) (Commitment.new (Scalar.from mask) (Commitment.amount (ClsagContext.commitment ctx))) = Ok pseudo_out
  | Some i, _ => False
  end.
Proof.
  intros [Hc _ Hmasked Hi]. unfold verify. destruct (interim self) as [i|]; [|reflexivity]. cbn [expect obind].
  destruct (Hi i eq_refl) as (msg & mk & Hmsg & Hr & Hmk & Hok & Hpo). pose proof Hok as ((Hsl & Hss) & Hc1 & HD).
  pose proof (proj1 (proj1 Hctx)) as (_ & Hi0 & Hmax & _). unfold len, Decoys.MAX_RING_SIZE in Hi0, Hmax. rewrite Hc.
  rewrite assign_signer_spec;
    [|eapply list.Forall_impl; [exact Hss|]; intros y [Hy _]; apply is_array_length, Hy|apply sc_bytes_array
     |rewrite Hsl; unfold Decoys.MAX_RING_SIZE; lia|rewrite Hsl; lia].
  cbn [obind Nat.ltb Nat.leb]. rewrite Hmsg. cbn [expect obind].
  change (map (fun m : Point * Point => (Point.compress (fst m), Point.compress (snd m))) (Decoys.ring (ClsagContext.decoys ctx)))
    with (compressed_ring ctx).
  match goal with |- context [Clsag.verify ?cl ?r ?im ?po ?h] =>
    pose proof (verify_total (length (Decoys.ring (ClsagContext.decoys ctx))) cl r im po h) as Hv; destruct (Clsag.verify cl r im po h) as [[]|e|] eqn:He end.
  - exists msg, mk. destruct (Hmasked Hr) as [Hs _]. rewrite <- Hs, Hmk. auto.
  - exact I.
  - apply Hv. split; [|split; assumption]. cbn. split; [rewrite length_insert; exact Hsl|]. apply Forall_insert; [exact Hss|apply scalar_from_ok].
Qed.

(** C7: in every state an instance reaches, processing an addendum doesn't
    panic, and errs only for a view of another key, for a mask which wasn't
    sent, or for a signer which isn't of the view; once an addendum was
    processed signing a hash doesn't panic, and before it does; and a
    signature [verify] returns, whatever the shares, verifies for the ring, the
    key image, and the message signed, and its pseudo-out commits to the
    input's amount with the mask which was sent. *)
Theorem multisig_timeline sent self buf : reaches sent self buf ->
  (forall view l addendum, match process_addendum view l addendum self buf with
     | (Ok _, (self', buf')) => reaches sent self' buf' /\ mask_recv self' = false
     | (Err _, _) => (exists members, Decoys.signer_ring_members (E := FrostError) (ClsagContext.decoys ctx) = Ok members /\ group_key view <> fst members) \/
         (mask_recv self = true /\ sent = None) \/ interpolation_factor view l = None
     | (Panic, _) => False
     end) /\
  (forall view A AH nonce msg, length msg = 32%nat ->
     if mask_recv self then sign_share view [[A; AH]] [nonce] msg self = Panic
     else exists share self', sign_share view [[A; AH]] [nonce] msg self = Ok (share, self') /\ reaches sent self' buf /\
       msg_hash self' = Some msg /\ image self' = image self) /\
  (forall sum, match interim self, verify self sum with
     | None, r => r = Panic
     | Some i, Ok None => True
     | Some i, Ok (Some (clsag, pseudo_out)) => exists msg mask, msg_hash self = Some msg /\ sent = Some mask /\
         Clsag.verify clsag (compressed_ring ctx) (ed_compress (image self)) (ed_compress pseudo_out) msg = Ok tt /\
         Commitment.commit (E := ClsagError) (Commitment.new (Scalar.from mask) (Commitment.amount (ClsagContext.commitment ctx))) = Ok pseudo_out
     | Some i, _ => False
     end).
Proof.
  intros Hre. pose proof (reaches_reached _ _ _ Hre) as H. split; [|split; [|intros sum; exact (verify_cases sent self buf sum H)]].
  - intros view l a. destruct (process_cases _ _ _ view l a H) as (members & Hm & Hp).
    destruct (process_addendum view l a self buf) as [[u|e|] [self' buf']] eqn:Ha; [|destruct Hp as [Hp|Hp]; eauto|exact Hp].
    destruct u. split; [exact (reach_process _ _ _ _ _ _ _ _ Hre Ha)|apply Hp].
  - intros view A AH nonce msg Hl. pose proof (sign_share_cases _ _ _ view A AH nonce msg H Hl) as Hs.
    destruct (mask_recv self); [exact Hs|]. destruct Hs as (sh & self' & Hs & _ & Hmsg & Him & _). exists sh, self'.
    split; [exact Hs|]. split; [exact (reach_sign _ _ _ _ _ _ _ _ _ Hre Hs)|]. auto.
Qed.
End Timeline.

(** ** Witnesses *)

Section Witness.
Import Model.
#[local] Existing Instance BpTheorems.nonzero_hash.
#[local] Existing Instance BpTheorems.example_primitives.
#[local] Existing Instance BpTheorems.example_setup.

(** Transcripts which keep what's appended, and points which are checked to be
    of prime order *)
#[local] Instance example_transcripts : Transcripts := {
  transcript := bytes;
  transcript_new label := label;
  domain_separate label t := t ++ label;
  append_message label msg t := t ++ label ++ msg;
  challenge label t := (keccak_digest (t ++ label) ++ keccak_digest t, t ++ label);
  rng_seed label t := (keccak_digest (t ++ label), t ++ label)
}.

#[local] Instance example_frost : Frost := {
  Participant := nat;
  participant_to_bytes l := to_le 2 (Z.of_nat l);
  FrostError := string;
  InternalError s := s;
  dfg_from_bytes b := match ed_decompress b with Some p => if ed_is_torsion_free p then Some p else None | None => None end
}.

Lemma example_frost_laws : FrostLaws example_frost.
Proof.
  split; cbn -[ed_decompress ed_is_torsion_free ed_compress].
  - intros b p. destruct (ed_decompress b) as [q|]; [|discriminate]. destruct (ed_is_torsion_free q) eqn:Hq; [|discriminate].
    intros [= <-]. exact Hq.
  - intros p Hp. rewrite (ed_decompress_compress (DalekLaws := dalek_laws)), Hp. reflexivity.
Qed.

#[local] Instance example_chacha : Rand := { chacha20 seed n := repeat (Z.of_nat n mod 256) 64; shuffle A seed l := l }.

Lemma example_context_commitment_ok : context_commitment_ok Clsag.example_context.
Proof.
  split; [exact (proj1 (proj1 (Forall_cons_iff _ _ _) Clsag.example_ok))|].
  split; [apply (scalar_from_ok (DL := dalek_laws) (to_s 7))|]. unfold U. cbn. lia.
Qed.

(** Two signers of a key, [3], tweaked by [2]; their shares are on the line
    [3 + x]. *)
Definition example_original (l : nat) : DScalar := sc_from_u64 (3 + Z.of_nat l).
Definition example_factor (l : nat) : DScalar := if (l =? 1)%nat then sc_from_u64 2 else sc_neg sc_ONE.
Definition example_part (l : nat) : DScalar :=
  if (l =? 1)%nat then sc_from_u64 (2 * 4 + 2) else sc_neg (sc_from_u64 5).
Definition example_view (m : nat) : ThresholdView :=
  mk_view _ _ (ed_mul (sc_from_u64 5) ED25519_BASEPOINT_POINT) sc_ONE (sc_from_u64 2) (fun l => Some (example_factor l))
    (fun l => ed_mul (example_part l) ED25519_BASEPOINT_POINT) (example_part m).

Lemma example_quorum : quorum (sc_from_u64 5) 1%nat [2%nat] example_original example_part example_view.
Proof.
  split; [vm_compute; reflexivity| |reflexivity|reflexivity|reflexivity].
  exists sc_ONE, (sc_from_u64 2), example_factor. split; [vm_compute; reflexivity|]. split; [|auto].
  intros m Hm. apply list_elem_of_singleton in Hm as ->. vm_compute. reflexivity.
Qed.

Lemma example_signer_key : exists C, forall E, Decoys.signer_ring_members (E := E) (ClsagContext.decoys Clsag.example_context) =
  Ok (ed_mul (sc_from_u64 5) ED25519_BASEPOINT_POINT, C).
Proof. exists (to_p 104). intros E. vm_compute. reflexivity. Qed.

Lemma example_generator :
  match new (E := ClsagError) (T := example_transcripts) [1; 2; 3] Clsag.example_context with
  | Ok (alg, _) => negb (ed_is_identity (key_image_generator alg)) | _ => false end = true.
Proof. vm_compute. reflexivity. Qed.

Lemma multisig_signs_witness : exists st' p clsag pseudo_out,
  verify st' (lsum (fun m => sc_sub (sc_from_u64 (Z.of_nat m)) (sc_mul p (example_part m))) [1%nat; 2%nat]) = Ok (Some (clsag, pseudo_out)).
Proof.
  destruct (multisig_signs (DL := dalek_laws) (T := example_transcripts) (F := example_frost) Clsag.example_context example_context_commitment_ok (sc_from_u64 5) example_signer_key 1%nat [2%nat]
    example_original example_part example_view example_quorum [1; 2; 3] (sc_from_u64 9) (fun m => sc_from_u64 (Z.of_nat m)) (repeat 7 32) eq_refl)
    as (alg & st & st' & p & clsag & po & Hnew & _ & _ & _ & _ & Hv & Hok).
  exists st', p, clsag, po. rewrite Hok in Hv; [exact Hv| | |].
  - intros H. pose proof example_generator as Hg. rewrite Hnew, H in Hg. discriminate Hg.
  - intros H. apply (f_equal (@mod_z _)) in H. discriminate H.
  - intros H. discriminate H.
Defined.

Lemma multisig_timeline_witness : exists self, new (E := ClsagError) [1; 2; 3] Clsag.example_context = Ok (self, None) /\
  (forall view A AH nonce, sign_share view [[A; AH]] [nonce] (repeat 7 32) self = Panic) /\ verify self sc_ONE = Panic.
Proof.
  pose proof example_generator as Hg.
  destruct (new (E := ClsagError) (T := example_transcripts) [1; 2; 3] Clsag.example_context) as [[self buf]| |] eqn:Hnew; [|discriminate Hg..].
  assert (Hfresh : buf = None /\ mask_recv self = true /\ interim self = None).
  { unfold new in Hnew. destruct (Decoys.signer_ring_members _); [|discriminate..]. cbn [obind] in Hnew.
    destruct (Point.biased_hash _); [|discriminate..]. injection Hnew as <- <-. auto. }
  destruct Hfresh as (-> & Hr & Hi).
  destruct (multisig_timeline (DL := dalek_laws) (T := example_transcripts) (F := example_frost) [1; 2; 3] Clsag.example_context example_context_commitment_ok
    None self None (reach_new _ _ _ _ Hnew)) as (_ & Hs & Hv).
  exists self. split; [reflexivity|]. split.
  - intros view A AH nonce. specialize (Hs view A AH nonce (repeat 7 32) eq_refl). rewrite Hr in Hs. exact Hs.
  - specialize (Hv sc_ONE). rewrite Hi in Hv. exact Hv.
Defined.
End Witness.
