(* ===== verification/RingCT.v ===== *)
(** [src/ringct.rs]: the RingCT data of a transaction, split into the base
    every node keeps and the prunable proofs. *)

From Stdlib Require Import ZArith Lia.
From stdpp Require Import base list strings numbers.
From S2P Require Import Prelude Dalek MoneroIo Ed25519 Borromean Mlsag Clsag Bulletproofs.

Inductive EncryptedAmount : Type :=
| EncryptedOriginal (mask amount : bytes)
| EncryptedCompact (amount : bytes).

Module EncryptedAmount.
Definition read (compact : bool) : io_reader EncryptedAmount :=
  if negb compact then
    let* mask := read_bytes 32 in
    let* amount := read_bytes 32 in
    rret (EncryptedOriginal mask amount)
  else
    let* amount := read_bytes 8 in
    rret (EncryptedCompact amount).

Definition write (self : EncryptedAmount) : bytes :=
  match self with
  | EncryptedOriginal mask amount => mask ++ amount
  | EncryptedCompact amount => amount
  end.
End EncryptedAmount.

Module RctType.
Inductive t : Type :=
| AggregateMlsagBorromean
| MlsagBorromean
| MlsagBulletproofs
| MlsagBulletproofsCompactAmount
| ClsagBulletproof
| ClsagBulletproofPlus.

#[export] Instance eq_dec : EqDecision t.
Proof. solve_decision. Defined.

Definition eqb (a b : t) : bool := bool_decide (a = b).

(** [u8::from] *)
Definition to_u8 (rct_type : t) : Z :=
  match rct_type with
  | AggregateMlsagBorromean => 1
  | MlsagBorromean => 2
  | MlsagBulletproofs => 3
  | MlsagBulletproofsCompactAmount => 4
  | ClsagBulletproof => 5
  | ClsagBulletproofPlus => 6
  end.

(** [try_from] *)
Definition of_u8 (byte : Z) : option t :=
  match byte with
  | 1 => Some AggregateMlsagBorromean
  | 2 => Some MlsagBorromean
  | 3 => Some MlsagBulletproofs
  | 4 => Some MlsagBulletproofsCompactAmount
  | 5 => Some ClsagBulletproof
  | 6 => Some ClsagBulletproofPlus
  | _ => None
  end.

Definition compact_encrypted_amounts (self : t) : bool :=
  match self with
  | AggregateMlsagBorromean | MlsagBorromean | MlsagBulletproofs => false
  | MlsagBulletproofsCompactAmount | ClsagBulletproof | ClsagBulletproofPlus => true
  end.

Definition bulletproof (self : t) : bool :=
  match self with
  | MlsagBulletproofs | MlsagBulletproofsCompactAmount | ClsagBulletproof => true
  | AggregateMlsagBorromean | MlsagBorromean | ClsagBulletproofPlus => false
  end.

Definition bulletproof_plus (self : t) : bool :=
  match self with
  | ClsagBulletproofPlus => true
  | AggregateMlsagBorromean | MlsagBorromean | MlsagBulletproofs
  | MlsagBulletproofsCompactAmount | ClsagBulletproof => false
  end.

(** The types [RctBase::read] rejects without outputs *)
Definition uses_bulletproofs (self : t) : bool :=
  match self with
  | AggregateMlsagBorromean | MlsagBorromean => false
  | MlsagBulletproofs | MlsagBulletproofsCompactAmount | ClsagBulletproof | ClsagBulletproofPlus => true
  end.
End RctType.

Module RctBase.
Record t := mk {
  fee : Z;
  pseudo_outs : list CompressedPoint;
  encrypted_amounts : list EncryptedAmount;
  commitments : list CompressedPoint
}.

Definition write (self : t) (rct_type : RctType.t) : bytes :=
  [RctType.to_u8 rct_type] ++
  VarInt.write (fee self) ++
  (if RctType.eqb rct_type RctType.MlsagBorromean
   then write_raw_vec CompressedPoint.write (pseudo_outs self) else []) ++
  write_raw_vec EncryptedAmount.write (encrypted_amounts self) ++
  write_raw_vec CompressedPoint.write (commitments self).

(** The fields [read] reads once the type is known *)
Definition read_fields (rct_type : RctType.t) (inputs outputs : nat) : io_reader t :=
  let* fee := VarInt.read VarInt.u64 in
  let* pseudo_outs :=
    if RctType.eqb rct_type RctType.MlsagBorromean
    then read_raw_vec CompressedPoint.read inputs else rret [] in
  let* encrypted_amounts :=
    read_raw_vec (EncryptedAmount.read (RctType.compact_encrypted_amounts rct_type)) outputs in
  let* commitments := read_raw_vec CompressedPoint.read outputs in
  rret (mk fee pseudo_outs encrypted_amounts commitments).

(** [read] *)
Definition read (inputs outputs : nat) : io_reader (option (RctType.t * t)) :=
  let* rct_type := read_byte in
  if rct_type =? 0 then rret None
  else
    match RctType.of_u8 rct_type with
    | None => rother "invalid RCT type"
    | Some rct_type =>
        if RctType.uses_bulletproofs rct_type && (outputs =? 0)%nat
        then rother "RCT with Bulletproofs(+) had 0 outputs"
        else
          let* base := read_fields rct_type inputs outputs in
          rret (Some (rct_type, base))
    end.
End RctBase.

Section PrunableData.
Context {D : Dalek}.

Inductive RctPrunable : Type :=
| AggregateMlsagBorromean (mlsag : Mlsag.t) (borromean : list BorromeanRange.t)
| MlsagBorromean (mlsags : list Mlsag.t) (borromean : list BorromeanRange.t)
| MlsagBulletproofs (mlsags : list Mlsag.t) (pseudo_outs : list CompressedPoint) (bulletproof : Bulletproof)
| MlsagBulletproofsCompactAmount (mlsags : list Mlsag.t) (pseudo_outs : list CompressedPoint)
    (bulletproof : Bulletproof)
| ClsagProofs (clsags : list Clsag.t) (pseudo_outs : list CompressedPoint) (bulletproof : Bulletproof).
End PrunableData.

Module RctPrunable.
Section Ops.
Context {D : Dalek}.

(** [write], also [serialize] *)
Definition write (self : RctPrunable) (rct_type : RctType.t) : bytes :=
  match self with
  | AggregateMlsagBorromean mlsag borromean =>
      write_raw_vec BorromeanRange.write borromean ++ Mlsag.write mlsag
  | MlsagBorromean mlsags borromean =>
      write_raw_vec BorromeanRange.write borromean ++ write_raw_vec Mlsag.write mlsags
  | MlsagBulletproofs mlsags pseudo_outs bulletproof
  | MlsagBulletproofsCompactAmount mlsags pseudo_outs bulletproof =>
      (if RctType.eqb rct_type RctType.MlsagBulletproofs then to_le 4 1 else [1]) ++
      Bulletproof.write bulletproof ++
      write_raw_vec Mlsag.write mlsags ++
      write_raw_vec CompressedPoint.write pseudo_outs
  | ClsagProofs clsags pseudo_outs bulletproof =>
      [1] ++
      Bulletproof.write bulletproof ++
      write_raw_vec Clsag.write clsags ++
      write_raw_vec CompressedPoint.write pseudo_outs
  end.

(** The amount of Bulletproofs, as each type encodes it *)
Definition read_n_bulletproofs (rct_type : RctType.t) : io_reader Z :=
  if RctType.eqb rct_type RctType.MlsagBulletproofs then read_u32 else VarInt.read VarInt.u64.

(** [read] *)
Definition read (rct_type : RctType.t) (ring_length inputs outputs : nat) : io_reader RctPrunable :=
  match rct_type with
  | RctType.AggregateMlsagBorromean =>
      let* borromean := read_raw_vec BorromeanRange.read outputs in
      if USIZE_MAX <=? Z.of_nat inputs
      then rother "reading a MLSAG for more inputs than representable"
      else
        let* mlsag := Mlsag.read ring_length (inputs + 1) in
        rret (AggregateMlsagBorromean mlsag borromean)
  | RctType.MlsagBorromean =>
      let* borromean := read_raw_vec BorromeanRange.read outputs in
      let* mlsags := read_raw_vec (Mlsag.read ring_length 2) inputs in
      rret (MlsagBorromean mlsags borromean)
  | RctType.MlsagBulletproofs | RctType.MlsagBulletproofsCompactAmount =>
      let* n := read_n_bulletproofs rct_type in
      if negb (n =? 1) then rother "n bulletproofs instead of one"
      else
        let* bulletproof := Bulletproof.read in
        let* mlsags := read_raw_vec (Mlsag.read ring_length 2) inputs in
        let* pseudo_outs := read_raw_vec CompressedPoint.read inputs in
        rret (if RctType.eqb rct_type RctType.MlsagBulletproofs
              then MlsagBulletproofs mlsags pseudo_outs bulletproof
              else MlsagBulletproofsCompactAmount mlsags pseudo_outs bulletproof)
  | RctType.ClsagBulletproof | RctType.ClsagBulletproofPlus =>
      let* n := read_byte in
      if negb (n =? 1) then rother "n bulletproofs instead of one"
      else
        let* bulletproof :=
          if RctType.eqb rct_type RctType.ClsagBulletproof
          then Bulletproof.read else Bulletproof.read_plus in
        let* clsags := read_raw_vec (Clsag.read ring_length) inputs in
        let* pseudo_outs := read_raw_vec CompressedPoint.read inputs in
        rret (ClsagProofs clsags pseudo_outs bulletproof)
  end.

Definition signature_write (self : RctPrunable) : bytes :=
  match self with
  | AggregateMlsagBorromean _ borromean | MlsagBorromean _ borromean =>
      write_raw_vec BorromeanRange.write borromean
  | MlsagBulletproofs _ _ bulletproof | MlsagBulletproofsCompactAmount _ _ bulletproof
  | ClsagProofs _ _ bulletproof => Bulletproof.signature_write bulletproof
  end.
End Ops.
End RctPrunable.

Record RctProofs {D : Dalek} := mk_RctProofs { base : RctBase.t; prunable : RctPrunable }.
Arguments mk_RctProofs {D} _ _.

Record PrunedRctProofs := mk_PrunedRctProofs { pruned_rct_type : RctType.t; pruned_base : RctBase.t }.

Module RctProofs.
Section Ops.
Context {D : Dalek}.

Definition rct_type (self : RctProofs) : RctType.t :=
  match prunable self with
  | AggregateMlsagBorromean _ _ => RctType.AggregateMlsagBorromean
  | MlsagBorromean _ _ => RctType.MlsagBorromean
  | MlsagBulletproofs _ _ _ => RctType.MlsagBulletproofs
  | MlsagBulletproofsCompactAmount _ _ _ => RctType.MlsagBulletproofsCompactAmount
  | ClsagProofs _ _ bulletproof =>
      match bulletproof with
      | Original _ => RctType.ClsagBulletproof
      | Plus _ => RctType.ClsagBulletproofPlus
      end
  end.

(** [write], also [serialize] *)
Definition write (self : RctProofs) : bytes :=
  let rct_type := rct_type self in
  RctBase.write (base self) rct_type ++ RctPrunable.write (prunable self) rct_type.

Definition read (ring_length inputs outputs : nat) : io_reader (option RctProofs) :=
  let* b := RctBase.read inputs outputs in
  match b with
  | None => rret None
  | Some (rct_type, base) =>
      let* prunable := RctPrunable.read rct_type ring_length inputs outputs in
      rret (Some (mk_RctProofs base prunable))
  end.
End Ops.
End RctProofs.

(** ** Codecs *)

#[global] Typeclasses Opaque EncryptedAmount.write.

Section BaseCodec.
Definition encrypted_amount_ok (compact : bool) (x : EncryptedAmount) : Prop :=
  match x with
  | EncryptedOriginal mask amount => compact = false /\ is_array 32 mask /\ is_array 32 amount
  | EncryptedCompact amount => compact = true /\ is_array 8 amount
  end.

#[export] Instance encrypted_amount_codec compact :
  Codec (EncryptedAmount.read compact) EncryptedAmount.write (encrypted_amount_ok compact).
Proof.
  unfold EncryptedAmount.read, EncryptedAmount.write. split.
  - intros [m a|a]; cbn; intros H; destruct_and!; bytes_tac.
  - intros [m a|a] rest; cbn; intros H; destruct_and!; subst; cbn [negb]; read_run; reflexivity.
  - intros bs x rest Hbs H. read_inv; (split; [split_and!; try assumption|]).
    + destruct compact; [discriminate|reflexivity].
    + rewrite <- app_assoc. reflexivity.
    + destruct compact; [reflexivity|discriminate].
    + reflexivity.
  - safe_tac.
Qed.

Lemma rct_type_of_to t : RctType.of_u8 (RctType.to_u8 t) = Some t.
Proof. destruct t; reflexivity. Qed.

Lemma rct_type_to_of b t : U 8 b -> RctType.of_u8 b = Some t -> RctType.to_u8 t = b.
Proof.
  intros Hb Ht.
  assert (H : match RctType.of_u8 b with None => true | Some t => RctType.to_u8 t =? b end = true).
  { apply (byte_forall (fun b => match RctType.of_u8 b with None => true | Some t => RctType.to_u8 t =? b end));
      [vm_compute; reflexivity|assumption]. }
  rewrite Ht in H. apply Z.eqb_eq, H.
Qed.

Lemma rct_type_to_U t : U 8 (RctType.to_u8 t).
Proof. destruct t; cbn; unfold U; lia. Qed.

Lemma rct_type_to_nonzero t : (RctType.to_u8 t =? 0) = false.
Proof. destruct t; reflexivity. Qed.

Definition rct_base_ok (t : RctType.t) (inputs outputs : nat) (x : RctBase.t) : Prop :=
  U 64 (RctBase.fee x) /\
  (if RctType.eqb t RctType.MlsagBorromean
   then vec_n (is_array 32) inputs (RctBase.pseudo_outs x) else RctBase.pseudo_outs x = []) /\
  vec_n (encrypted_amount_ok (RctType.compact_encrypted_amounts t)) outputs (RctBase.encrypted_amounts x) /\
  vec_n (is_array 32) outputs (RctBase.commitments x).

Definition write_rct_fields (t : RctType.t) (self : RctBase.t) : bytes :=
  VarInt.write (RctBase.fee self) ++
  (if RctType.eqb t RctType.MlsagBorromean
   then write_raw_vec CompressedPoint.write (RctBase.pseudo_outs self) else []) ++
  write_raw_vec EncryptedAmount.write (RctBase.encrypted_amounts self) ++
  write_raw_vec CompressedPoint.write (RctBase.commitments self).

#[export] Instance rct_fields_codec t inputs outputs :
  Codec (RctBase.read_fields t inputs outputs) (write_rct_fields t) (rct_base_ok t inputs outputs).
Proof.
  split.
  - intros x. unfold write_rct_fields, rct_base_ok.
    destruct (RctType.eqb t RctType.MlsagBorromean); intros (Hf & Hp & He & Hc); bytes_tac.
  - intros [f p e c] rest. unfold write_rct_fields, rct_base_ok, RctBase.read_fields. cbn.
    destruct (RctType.eqb t RctType.MlsagBorromean); intros (Hf & Hp & He & Hc); [|subst p];
      read_run; reflexivity.
  - intros bs x rest Hbs H. unfold RctBase.read_fields in H. unfold rct_base_ok, write_rct_fields.
    destruct (RctType.eqb t RctType.MlsagBorromean); read_inv;
      (split; [split_and!; assumption || reflexivity|]); cbn; rewrite <- !app_assoc; reflexivity.
  - unfold RctBase.read_fields. safe_tac.
Qed.

(** What the base's encoding holds, present or not *)
Definition rct_base_opt_ok (inputs outputs : nat) (x : option (RctType.t * RctBase.t)) : Prop :=
  match x with
  | None => True
  | Some (t, b) =>
      (RctType.uses_bulletproofs t = true -> outputs <> 0%nat) /\ rct_base_ok t inputs outputs b
  end.

Definition write_rct_base_opt (x : option (RctType.t * RctBase.t)) : bytes :=
  match x with None => [0] | Some (t, b) => RctBase.write b t end.

Lemma rct_base_write_fields b t : RctBase.write b t = RctType.to_u8 t :: write_rct_fields t b.
Proof. reflexivity. Qed.

#[export] Instance rct_base_codec inputs outputs :
  Codec (RctBase.read inputs outputs) write_rct_base_opt (rct_base_opt_ok inputs outputs).
Proof.
  split.
  - intros [[t b]|]; cbn [rct_base_opt_ok write_rct_base_opt]; [intros [_ Hb]|intros _; bytes_tac; unfold U; lia].
    rewrite rct_base_write_fields. apply is_bytes_cons; [apply rct_type_to_U|].
    apply (codec_bytes (r := RctBase.read_fields t inputs outputs)), Hb.
  - intros [[t b]|] rest; cbn [write_rct_base_opt]; [intros [Ho Hb]|intros _; reflexivity].
    rewrite rct_base_write_fields. unfold RctBase.read. cbn [app].
    erewrite rbind_ok by (apply (codec_rt (w := write_byte)), rct_type_to_U).
    rewrite rct_type_to_nonzero, rct_type_of_to.
    destruct (_ && _) eqn:E.
    { apply andb_true_iff in E as [E1%Ho E2%Nat.eqb_eq]. contradiction. }
    read_run. reflexivity.
  - intros bs x rest Hbs H. unfold RctBase.read in H. read_inv1. read_inv1. read_inv1.
    { apply rret_ok_inv in H as [<- <-]. split; [exact I|]. apply Z.eqb_eq in E as ->. reflexivity. }
    destruct (RctType.of_u8 a) as [t|] eqn:Et; [|discriminate H].
    apply rct_type_to_of in Et as <-; [|assumption].
    destruct (_ && _) eqn:E'; [discriminate H|]. read_inv.
    apply andb_false_iff in E'. split.
    + split; [|assumption]. intros Hu ->. rewrite Hu in E'. destruct E' as [E'|E']; discriminate E'.
    + reflexivity.
  - unfold RctBase.read. apply rbind_safe; [apply _|]. intros b. destruct (b =? 0); [apply _|].
    destruct (RctType.of_u8 b); [|apply _]. destruct (_ && _); [apply _|]. safe_tac.
Qed.
End BaseCodec.

Section PrunableCodec.
Context {D : Dalek} {DL : DalekLaws D}.

Definition mlsag_proofs_ok (ring_length inputs : nat) (mlsags : list Mlsag.t)
  (pseudo_outs : list CompressedPoint) (bulletproof : Bulletproof) : Prop :=
  bulletproof_ok false bulletproof /\ vec_n (mlsag_ok ring_length 2) inputs mlsags /\
  vec_n (is_array 32) inputs pseudo_outs.

(** The prunable data of a type, for an amount of inputs and outputs and the
    length of the rings *)
Definition rct_prunable_ok (t : RctType.t) (ring_length inputs outputs : nat) (x : RctPrunable) : Prop :=
  match x with
  | AggregateMlsagBorromean mlsag borromean =>
      t = RctType.AggregateMlsagBorromean /\ vec_n borromean_range_ok outputs borromean /\
      Z.of_nat inputs < USIZE_MAX /\ mlsag_ok ring_length (inputs + 1) mlsag
  | MlsagBorromean mlsags borromean =>
      t = RctType.MlsagBorromean /\ vec_n borromean_range_ok outputs borromean /\
      vec_n (mlsag_ok ring_length 2) inputs mlsags
  | MlsagBulletproofs mlsags pseudo_outs bulletproof =>
      t = RctType.MlsagBulletproofs /\ mlsag_proofs_ok ring_length inputs mlsags pseudo_outs bulletproof
  | MlsagBulletproofsCompactAmount mlsags pseudo_outs bulletproof =>
      t = RctType.MlsagBulletproofsCompactAmount /\
      mlsag_proofs_ok ring_length inputs mlsags pseudo_outs bulletproof
  | ClsagProofs clsags pseudo_outs bulletproof =>
      (t = RctType.ClsagBulletproof /\ bulletproof_ok false bulletproof \/
       t = RctType.ClsagBulletproofPlus /\ bulletproof_ok true bulletproof) /\
      vec_n (clsag_ok ring_length) inputs clsags /\ vec_n (is_array 32) inputs pseudo_outs
  end.

Definition write_rct_prunable (t : RctType.t) (x : RctPrunable) : bytes := RctPrunable.write x t.

Lemma u32_one : U 32 1. Proof. unfold U. lia. Qed.
Lemma u64_one : U 64 1. Proof. unfold U. lia. Qed.
Lemma u8_one : U 8 1. Proof. unfold U. lia. Qed.
Hint Resolve u32_one u64_one u8_one : oxide.

Lemma one_bytes : is_bytes [1].
Proof. repeat constructor; unfold U; lia. Qed.
Hint Resolve one_bytes : oxide.

Lemma bulletproof_bytes plus x : bulletproof_ok plus x -> is_bytes (Bulletproof.write x).
Proof. destruct plus; [apply (codec_bytes (r := Bulletproof.read_plus))|apply (codec_bytes (r := Bulletproof.read))]. Qed.

Lemma prunable_bytes t rl inputs outputs x :
  rct_prunable_ok t rl inputs outputs x -> is_bytes (write_rct_prunable t x).
Proof.
  unfold write_rct_prunable, RctPrunable.write. destruct x; cbn [rct_prunable_ok]; unfold mlsag_proofs_ok.
  - intros (_ & Hb & _ & Hm). bytes_tac.
  - intros (_ & Hb & Hm). bytes_tac.
  - intros (_ & Hb & Hm & Hp). bytes_tac.
  - intros (_ & Hb & Hm & Hp). bytes_tac.
  - intros ([[_ Hb]|[_ Hb]] & Hc & Hp); apply bulletproof_bytes in Hb; bytes_tac.
Qed.

Lemma prunable_rt t rl inputs outputs x rest :
  rct_prunable_ok t rl inputs outputs x ->
  RctPrunable.read t rl inputs outputs (write_rct_prunable t x ++ rest) = (Ok x, rest).
Proof.
  unfold write_rct_prunable, RctPrunable.write.
  destruct x; cbn [rct_prunable_ok]; unfold mlsag_proofs_ok, RctPrunable.read, RctPrunable.read_n_bulletproofs.
  - intros (-> & Hb & Hi & Hm). rewrite <- app_assoc. read_run1.
    destruct (Z.leb_spec USIZE_MAX (Z.of_nat inputs)); [lia|]. read_run. reflexivity.
  - intros (-> & Hb & Hm). read_run. reflexivity.
  - intros (-> & Hb & Hm & Hp).
    change (RctType.eqb RctType.MlsagBulletproofs RctType.MlsagBulletproofs) with true. cbn iota.
    rewrite <- app_assoc. read_run1. cbn [Z.eqb Pos.eqb negb]. read_run. reflexivity.
  - intros (-> & Hb & Hm & Hp).
    change (RctType.eqb RctType.MlsagBulletproofsCompactAmount RctType.MlsagBulletproofs) with false. cbn iota.
    change [1] with (VarInt.write 1). rewrite <- app_assoc. read_run1. cbn [Z.eqb Pos.eqb negb].
    read_run. reflexivity.
  - change [1] with (write_byte 1). rewrite <- app_assoc.
    intros ([[-> Hb]|[-> Hb]] & Hc & Hp); read_run1; cbn [Z.eqb Pos.eqb negb].
    + change (RctType.eqb RctType.ClsagBulletproof RctType.ClsagBulletproof) with true. cbn iota.
      read_run. reflexivity.
    + change (RctType.eqb RctType.ClsagBulletproofPlus RctType.ClsagBulletproof) with false. cbn iota.
      read_run. reflexivity.
Qed.

Lemma prunable_sound t rl inputs outputs bs x rest :
  is_bytes bs -> RctPrunable.read t rl inputs outputs bs = (Ok x, rest) ->
  rct_prunable_ok t rl inputs outputs x /\ bs = write_rct_prunable t x ++ rest.
Proof.
  intros Hbs H. unfold RctPrunable.read, RctPrunable.read_n_bulletproofs in H.
  unfold write_rct_prunable, RctPrunable.write. destruct t.
  - read_inv1. read_inv1. read_inv1; [discriminate H|]. read_inv.
    split; [split_and!; auto; lia|]. rewrite <- app_assoc. reflexivity.
  - read_inv. split; [split_and!; auto|]. rewrite <- app_assoc. reflexivity.
  - change (RctType.eqb RctType.MlsagBulletproofs RctType.MlsagBulletproofs) with true in *. cbn iota in *.
    read_inv1. read_inv1. read_inv1; [discriminate H|]. apply negb_false_iff, Z.eqb_eq in E as ->. read_inv.
    split; [split_and!; auto; split_and!; auto|]. rewrite <- !app_assoc. reflexivity.
  - change (RctType.eqb RctType.MlsagBulletproofsCompactAmount RctType.MlsagBulletproofs) with false in *.
    cbn iota in *.
    read_inv1. read_inv1. read_inv1; [discriminate H|]. apply negb_false_iff, Z.eqb_eq in E as ->. read_inv.
    split; [split_and!; auto; split_and!; auto|]. rewrite <- !app_assoc. reflexivity.
  - change (RctType.eqb RctType.ClsagBulletproof RctType.ClsagBulletproof) with true in *. cbn iota in *.
    read_inv1. read_inv1. read_inv1; [discriminate H|]. apply negb_false_iff, Z.eqb_eq in E as ->. read_inv.
    split; [split_and!; auto|]. rewrite <- !app_assoc. reflexivity.
  - change (RctType.eqb RctType.ClsagBulletproofPlus RctType.ClsagBulletproof) with false in *. cbn iota in *.
    read_inv1. read_inv1. read_inv1; [discriminate H|]. apply negb_false_iff, Z.eqb_eq in E as ->. read_inv.
    split; [split_and!; auto|]. rewrite <- !app_assoc. reflexivity.
Qed.

#[export] Instance rct_prunable_codec t rl inputs outputs :
  Codec (RctPrunable.read t rl inputs outputs) (write_rct_prunable t) (rct_prunable_ok t rl inputs outputs).
Proof.
  split.
  - intros x Hx. eapply prunable_bytes, Hx.
  - intros x rest Hx. apply prunable_rt, Hx.
  - apply prunable_sound.
  - unfold RctPrunable.read, RctPrunable.read_n_bulletproofs. destruct t; cbn; safe_tac.
Qed.

Lemma rct_type_of_prunable b x t rl inputs outputs :
  rct_prunable_ok t rl inputs outputs x -> RctProofs.rct_type (mk_RctProofs b x) = t.
Proof.
  unfold RctProofs.rct_type. destruct x; cbn; try (intros [-> _]; reflexivity).
  intros [[[-> Hb]|[-> Hb]] _]; destruct bulletproof; cbn in Hb; destruct_and!; auto; discriminate.
Qed.

(** The proofs of a transaction with this many inputs and outputs and rings
    of this length; absent for a miner transaction or [RCTTypeNull]. *)
Definition rct_proofs_ok (rl inputs outputs : nat) (x : option RctProofs) : Prop :=
  match x with
  | None => True
  | Some p =>
      let t := RctProofs.rct_type p in
      rct_base_opt_ok inputs outputs (Some (t, base p)) /\ rct_prunable_ok t rl inputs outputs (prunable p)
  end.

Definition write_rct_proofs (x : option RctProofs) : bytes :=
  match x with None => [0] | Some p => RctProofs.write p end.

#[export] Instance rct_proofs_codec rl inputs outputs :
  Codec (RctProofs.read rl inputs outputs) write_rct_proofs (rct_proofs_ok rl inputs outputs).
Proof.
  split.
  - intros [p|]; cbn [rct_proofs_ok write_rct_proofs].
    + intros [Hb Hp]. unfold RctProofs.write. cbv zeta. apply is_bytes_app_2.
      * apply (codec_bytes (r := RctBase.read inputs outputs) (w := write_rct_base_opt) _ Hb).
      * eapply prunable_bytes, Hp.
    + intros _. bytes_tac. unfold U. lia.
  - intros [p|] rest; cbn [rct_proofs_ok write_rct_proofs]; unfold RctProofs.read.
    + intros [Hb Hp]. unfold RctProofs.write. cbv zeta. rewrite <- app_assoc.
      rewrite (rbind_ok _ _ _ _ _ (codec_rt (w := write_rct_base_opt) (Some (RctProofs.rct_type p, base p)) _ Hb)).
      change (RctPrunable.write (prunable p) (RctProofs.rct_type p))
        with (write_rct_prunable (RctProofs.rct_type p) (prunable p)).
      rewrite (rbind_ok _ _ _ _ _ (codec_rt (w := write_rct_prunable _) (prunable p) _ Hp)).
      destruct p. reflexivity.
    + intros _. erewrite rbind_ok by (apply (codec_rt (w := write_rct_base_opt) None); exact I). reflexivity.
  - intros bs x rest Hbs H. unfold RctProofs.read in H. read_inv1. read_inv1.
    destruct a as [[t b]|].
    + read_inv1. read_inv1. read_inv1.
      pose proof (rct_type_of_prunable b _ _ _ _ _ HP0) as Ht.
      cbn [rct_proofs_ok write_rct_proofs]. rewrite Ht. split; [split; assumption|].
      unfold RctProofs.write. cbv zeta. rewrite Ht, <- app_assoc. reflexivity.
    + apply rret_ok_inv in H as [<- <-]. split; [exact I|reflexivity].
  - unfold RctProofs.read. apply rbind_safe; [apply _|]. intros [[t b]|]; [|apply _]. safe_tac.
Qed.
End PrunableCodec.
