(* ===== verification/Transaction.v ===== *)
(** [src/transaction.rs]: inputs, outputs, timelocks, transaction prefixes and
    transactions, pruned or not, with their encodings, hashes and weight. *)

From Stdlib Require Import ZArith Lia.
From stdpp Require Import base list strings numbers.
From S2P Require Import Prelude Dalek MoneroIo Ed25519 RingSignatures Borromean Mlsag Clsag Bulletproofs RingCT.

(** [Transaction::<NotPruned>::NON_MINER_SIZE_UPPER_BOUND] *)
Definition NON_MINER_SIZE_UPPER_BOUND : Z := 1000000.

(** ** Inputs *)

Inductive Input : Type :=
| Gen (height : Z)
| ToKey (amount : option Z) (key_offsets : list Z) (key_image : CompressedPoint).

Module Input.
Definition NON_GEN_SIZE_LOWER_BOUND : Z :=
  1 + VarInt.LOWER_BOUND VarInt.u64 + VarInt.LOWER_BOUND VarInt.usize + 32.

(** [write], also [serialize] *)
Definition write (self : Input) : bytes :=
  match self with
  | Gen height => [255] ++ VarInt.write height
  | ToKey amount key_offsets key_image =>
      [2] ++ VarInt.write (default 0 amount) ++ write_vec VarInt.write key_offsets ++
      CompressedPoint.write key_image
  end.

Definition read : io_reader Input :=
  let* b := read_byte in
  if b =? 255 then
    let* height := VarInt.read VarInt.usize in
    rret (Gen height)
  else if b =? 2 then
    let* amount := VarInt.read VarInt.u64 in
    let amount := if amount =? 0 then None else Some amount in
    let* key_offsets := read_vec (VarInt.read VarInt.u64) (Some NON_MINER_SIZE_UPPER_BOUND) in
    let* key_image := CompressedPoint.read in
    rret (ToKey amount key_offsets key_image)
  else rother "Tried to deserialize unknown/unused input type".
End Input.

(** ** Outputs *)

Module Output.
Record t := mk { amount : option Z; key : CompressedPoint; view_tag : option Z }.

Definition SIZE_LOWER_BOUND : Z := VarInt.LOWER_BOUND VarInt.u64 + 1 + 32.
Definition SIZE_UPPER_BOUND : Z := VarInt.UPPER_BOUND VarInt.u64 + 1 + 32 + 1.

(** [write], also [serialize] *)
Definition write (self : t) : bytes :=
  VarInt.write (default 0 (amount self)) ++
  [2 + match view_tag self with Some _ => 1 | None => 0 end] ++
  CompressedPoint.to_bytes (key self) ++
  match view_tag self with Some view_tag => [view_tag] | None => [] end.

(** The amount, of an RCT output or not *)
Definition read_amount (rct : bool) (amount : Z) : io_reader (option Z) :=
  if rct then
    if negb (amount =? 0) then rother "RCT TX output wasn't 0" else rret None
  else rret (Some amount).

Definition read_has_view_tag : io_reader bool :=
  let* b := read_byte in
  if b =? 2 then rret false
  else if b =? 3 then rret true
  else rother "Tried to deserialize unknown/unused output type".

Definition read (rct : bool) : io_reader t :=
  let* amount := VarInt.read VarInt.u64 in
  let* amount := read_amount rct amount in
  let* view_tag := read_has_view_tag in
  let* key := CompressedPoint.read in
  let* view_tag := if view_tag then rmap Some read_byte else rret None in
  rret (mk amount key view_tag).
End Output.

(** ** Timelocks *)

Module Timelock.
Inductive t : Type :=
| None
| Block (block : Z)
| Time (time : Z).

Definition TIMELOCK_BLOCK_THRESHOLD : Z := 500000000.

(** [write], also [serialize] *)
Definition write (self : t) : bytes :=
  match self with
  | None => VarInt.write 0
  | Block block => VarInt.write block
  | Time time => VarInt.write time
  end.

Definition read : io_reader t :=
  let* raw := VarInt.read VarInt.u64 in
  rret (if raw =? 0 then None
        else if raw <? TIMELOCK_BLOCK_THRESHOLD then Block raw
        else Time raw).

(** [PartialOrd::partial_cmp] *)
Definition partial_cmp (self other : t) : option comparison :=
  match self, other with
  | None, None => Some Eq
  | None, _ => Some Lt
  | _, None => Some Gt
  | Block a, Block b => Some (a ?= b)
  | Time a, Time b => Some (a ?= b)
  | _, _ => Datatypes.None
  end.
End Timelock.

(** ** Transaction prefixes *)

(** [matches!(inputs[0], Input::Gen { .. })] on a list not empty *)
Definition is_gen (input : Input) : bool := match input with Gen _ => true | _ => false end.

Module TransactionPrefix.
Record t := mk {
  additional_timelock : Timelock.t;
  inputs : list Input;
  outputs : list Output.t;
  extra : bytes
}.

Definition MINER_INPUTS : Z := 1.
Definition NON_MINER_INPUTS_UPPER_BOUND : Z := NON_MINER_SIZE_UPPER_BOUND / Input.NON_GEN_SIZE_LOWER_BOUND.
Definition INPUTS_UPPER_BOUND : Z := Z.max MINER_INPUTS NON_MINER_INPUTS_UPPER_BOUND.
Definition NON_MINER_OUTPUTS_UPPER_BOUND : Z := NON_MINER_SIZE_UPPER_BOUND / Output.SIZE_LOWER_BOUND.

Definition write (self : t) : bytes :=
  Timelock.write (additional_timelock self) ++
  write_vec Input.write (inputs self) ++
  write_vec Output.write (outputs self) ++
  VarInt.write (len (extra self)) ++
  extra self.

Definition max_outputs (is_miner_tx : bool) : option Z :=
  if is_miner_tx then None else Some NON_MINER_OUTPUTS_UPPER_BOUND.
Definition max_extra (is_miner_tx : bool) : option Z :=
  if is_miner_tx then None else Some NON_MINER_SIZE_UPPER_BOUND.

Definition read (version : Z) : io_reader t :=
  let* additional_timelock := Timelock.read in
  let* inputs := read_vec Input.read (Some INPUTS_UPPER_BOUND) in
  match inputs with
  | [] => rother "transaction had no inputs"
  | first :: _ =>
      let is_miner_tx := is_gen first in
      let* outputs := read_vec (Output.read (negb is_miner_tx && (version =? 2))) (max_outputs is_miner_tx) in
      let* extra := read_vec read_byte (max_extra is_miner_tx) in
      rret (mk additional_timelock inputs outputs extra)
  end.

Definition hash {K : Keccak} (self : t) (version : Z) : bytes :=
  keccak256 (VarInt.write version ++ write self).
End TransactionPrefix.

(** ** Potentially pruned data

    The sealed traits [PotentiallyPruned], [PotentiallyPrunedRingSignatures]
    and [PotentiallyPrunedRctProofs], as the operations a transaction calls. *)

Class PotentiallyPruned := {
  RingSignatures : Type;
  Proofs : Type;
  default_signatures : RingSignatures;
  signatures_to_write : RingSignatures -> list RingSignature.t;
  read_signatures : list Input -> io_reader RingSignatures;
  potentially_pruned_write : Proofs -> bytes;
  potentially_pruned_read : nat -> nat -> nat -> io_reader (option Proofs);
  potentially_pruned_rct_type : Proofs -> RctType.t;
  proofs_base : Proofs -> RctBase.t
}.

Section Instances.
Context {D : Dalek}.

(** [read_signatures] of [Vec<RingSignature>] *)
Fixpoint read_ring_signatures (inputs : list Input) : io_reader (list RingSignature.t) :=
  match inputs with
  | [] => rret []
  | ToKey _ key_offsets _ :: inputs' =>
      let* signature := RingSignature.read (length key_offsets) in
      let* signatures := read_ring_signatures inputs' in
      rret (signature :: signatures)
  | Gen _ :: _ => rother "reading signatures for a transaction with non-`ToKey` inputs"
  end.

Instance NotPruned : PotentiallyPruned := {
  RingSignatures := list RingSignature.t;
  Proofs := RctProofs;
  default_signatures := [];
  signatures_to_write self := self;
  read_signatures := read_ring_signatures;
  potentially_pruned_write := RctProofs.write;
  potentially_pruned_read := RctProofs.read;
  potentially_pruned_rct_type := RctProofs.rct_type;
  proofs_base := base
}.

(** [potentially_pruned_read] of [PrunedRctProofs] *)
Definition read_pruned_proofs (inputs outputs : nat) : io_reader (option PrunedRctProofs) :=
  rmap (fmap (fun x => mk_PrunedRctProofs (fst x) (snd x))) (RctBase.read inputs outputs).

Instance Pruned : PotentiallyPruned := {
  RingSignatures := unit;
  Proofs := PrunedRctProofs;
  default_signatures := tt;
  signatures_to_write _ := [];
  read_signatures _ := rret tt;
  potentially_pruned_write self := RctBase.write (pruned_base self) (pruned_rct_type self);
  potentially_pruned_read _ := read_pruned_proofs;
  potentially_pruned_rct_type := pruned_rct_type;
  proofs_base := pruned_base
}.
End Instances.

(** ** Transactions *)

Inductive Transaction (P : PotentiallyPruned) : Type :=
| V1 (prefix : TransactionPrefix.t) (signatures : RingSignatures)
| V2 (prefix : TransactionPrefix.t) (proofs : option Proofs).
Arguments V1 {P} _ _.
Arguments V2 {P} _ _.

Inductive PrunableHash : Type :=
| PrunableV1 (signatures : list RingSignature.t)
| PrunableV2 (hash : bytes).

(** [(inputs.len() == 1) && matches!(inputs[0], Input::Gen(_))] *)
Definition is_miner (inputs : list Input) : bool :=
  match inputs with [Gen _] => true | _ => false end.

(** The ring length the proofs are read with *)
Definition ring_length (inputs : list Input) : nat :=
  match inputs with
  | ToKey _ key_offsets _ :: _ => length key_offsets
  | _ => 0%nat
  end.

Module Transaction.
Section Ops.
Context {D : Dalek} {K : Keccak} {P : PotentiallyPruned}.

Definition version (self : Transaction P) : Z :=
  match self with V1 _ _ => 1 | V2 _ _ => 2 end.

Definition prefix (self : Transaction P) : TransactionPrefix.t :=
  match self with V1 prefix _ | V2 prefix _ => prefix end.

(** [write], also [serialize] *)
Definition write (self : Transaction P) : bytes :=
  VarInt.write (version self) ++
  match self with
  | V1 prefix signatures =>
      TransactionPrefix.write prefix ++
      write_raw_vec RingSignature.write (signatures_to_write signatures)
  | V2 prefix proofs =>
      TransactionPrefix.write prefix ++
      match proofs with None => [0] | Some proofs => potentially_pruned_write proofs end
  end.

Definition read : io_reader (Transaction P) :=
  let* version := VarInt.read VarInt.u64 in
  let* prefix := TransactionPrefix.read version in
  if version =? 1 then
    let* signatures :=
      if is_miner (TransactionPrefix.inputs prefix) then rret default_signatures
      else read_signatures (TransactionPrefix.inputs prefix) in
    rret (V1 prefix signatures)
  else if version =? 2 then
    let* proofs :=
      potentially_pruned_read (ring_length (TransactionPrefix.inputs prefix))
        (length (TransactionPrefix.inputs prefix)) (length (TransactionPrefix.outputs prefix)) in
    rret (V2 prefix proofs)
  else rother "tried to deserialize unknown version".

Definition hash_with_prunable_hash_internal {E} (self : Transaction P) (prunable : PrunableHash)
  : outcome E bytes :=
  match self with
  | V1 prefix _ =>
      match prunable with
      | PrunableV1 signatures =>
          Ok (keccak256 (VarInt.write (version self) ++ TransactionPrefix.write prefix ++
                         write_raw_vec RingSignature.write signatures))
      | PrunableV2 _ => Panic
      end
  | V2 prefix proofs =>
      let hashes := TransactionPrefix.hash prefix 2 in
      let hashes := hashes ++
        match proofs with
        | Some proofs => keccak256 (RctBase.write (proofs_base proofs) (potentially_pruned_rct_type proofs))
        | None => keccak256 [0]
        end in
      match prunable with
      | PrunableV2 prunable_hash => Ok (keccak256 (hashes ++ prunable_hash))
      | PrunableV1 _ => Panic
      end
  end.
End Ops.

Section NotPrunedOps.
Context {D : Dalek} {K : Keccak}.

Definition prunable_hash (self : Transaction NotPruned) : option bytes :=
  match self with
  | V1 _ _ => None
  | V2 _ proofs =>
      Some (match proofs with
            | Some proofs => keccak256 (RctPrunable.write (prunable proofs) (RctProofs.rct_type proofs))
            | None => repeat 0 32
            end)
  end.

Definition hash {E} (self : Transaction NotPruned) : outcome E bytes :=
  match self with
  | V1 _ signatures => hash_with_prunable_hash_internal self (PrunableV1 signatures)
  | V2 _ _ =>
      let? prunable_hash := expect (prunable_hash self) in
      hash_with_prunable_hash_internal self (PrunableV2 prunable_hash)
  end.

Definition signature_hash {E} (self : Transaction NotPruned) : outcome E (option bytes) :=
  match self with
  | V1 prefix _ =>
      if is_miner (TransactionPrefix.inputs prefix) then Ok None
      else
        let? h := hash_with_prunable_hash_internal self (PrunableV1 []) in
        Ok (Some h)
  | V2 _ proofs =>
      match proofs with
      | None => Ok None
      | Some proofs =>
          let? h := hash_with_prunable_hash_internal self
                      (PrunableV2 (keccak256 (RctPrunable.signature_write (prunable proofs)))) in
          Ok (Some h)
      end
  end.

(** [proofs.map(|proofs| PrunedRctProofs { .. })] *)
Definition prune_proofs (proofs : option RctProofs) : option PrunedRctProofs :=
  (fun p => mk_PrunedRctProofs (RctProofs.rct_type p) (base p)) <$> proofs.

Definition pruned_with_prunable (self : Transaction NotPruned) : Transaction Pruned * bytes :=
  match self with
  | V1 prefix signatures =>
      (V1 (P := Pruned) prefix tt, write_raw_vec RingSignature.write signatures)
  | V2 prefix proofs =>
      (V2 (P := Pruned) prefix (prune_proofs proofs),
       match proofs with
       | None => []
       | Some proofs => RctPrunable.write (prunable proofs) (RctProofs.rct_type proofs)
       end)
  end.

(** [From<Transaction<NotPruned>> for Transaction<Pruned>] *)
Definition into_pruned (tx : Transaction NotPruned) : Transaction Pruned :=
  match tx with
  | V1 prefix _ => V1 (P := Pruned) prefix tt
  | V2 prefix proofs => V2 (P := Pruned) prefix (prune_proofs proofs)
  end.

Definition is_rct_bulletproof (self : Transaction NotPruned) : bool :=
  match self with
  | V1 _ _ => false
  | V2 _ None => false
  | V2 _ (Some proofs) => RctType.bulletproof (RctProofs.rct_type proofs)
  end.

Definition is_rct_bulletproof_plus (self : Transaction NotPruned) : bool :=
  match self with
  | V1 _ _ => false
  | V2 _ None => false
  | V2 _ (Some proofs) => RctType.bulletproof_plus (RctProofs.rct_type proofs)
  end.

Definition weight {E} (self : Transaction NotPruned) : outcome E Z :=
  let blob_size := len (write self) in
  let bp := is_rct_bulletproof self in
  let bp_plus := is_rct_bulletproof_plus self in
  if negb (bp || bp_plus) then Ok blob_size
  else
    let? n :=
      match self with
      | V1 _ _ => Panic
      | V2 prefix _ => Ok (len (TransactionPrefix.outputs prefix))
      end in
    let? (clawback, _) := Bulletproof.calculate_clawback bp_plus n in
    Ok (blob_size + clawback).
End NotPrunedOps.

(** [Transaction::<Pruned>::hash_with_prunable_hash] *)
Definition hash_with_prunable_hash {K : Keccak} {E} (self : Transaction Pruned) (prunable_hash : bytes)
  : outcome E (option bytes) :=
  match self with
  | V1 _ _ => Ok None
  | V2 _ _ =>
      let? h := hash_with_prunable_hash_internal self (PrunableV2 prunable_hash) in
      Ok (Some h)
  end.
End Transaction.

(** ** Equality

    [PartialEq], as derived *)

Section Equality.
#[export] Instance input_eq_dec : EqDecision Input.
Proof. solve_decision. Defined.
#[export] Instance output_eq_dec : EqDecision Output.t.
Proof. solve_decision. Defined.
#[export] Instance timelock_eq_dec : EqDecision Timelock.t.
Proof. solve_decision. Defined.
#[export] Instance prefix_eq_dec : EqDecision TransactionPrefix.t.
Proof. solve_decision. Defined.
#[export] Instance encrypted_amount_eq_dec : EqDecision EncryptedAmount.
Proof. solve_decision. Defined.
#[export] Instance rct_type_eq_dec : EqDecision RctType.t.
Proof. solve_decision. Defined.
#[export] Instance rct_base_eq_dec : EqDecision RctBase.t.
Proof. solve_decision. Defined.
#[export] Instance pruned_proofs_eq_dec : EqDecision PrunedRctProofs.
Proof. solve_decision. Defined.

Definition pruned_eqb (a b : Transaction Pruned) : bool :=
  match a, b with
  | V1 prefix _, V1 prefix' _ => bool_decide (prefix = prefix')
  | V2 prefix proofs, V2 prefix' proofs' => bool_decide (prefix = prefix') && bool_decide (proofs = (proofs' : option PrunedRctProofs))
  | _, _ => false
  end.

Lemma pruned_eqb_spec a b : pruned_eqb a b = true -> a = b.
Proof.
  destruct a as [p []|p s], b as [p' []|p' s']; cbn; try discriminate.
  - intros ->%bool_decide_eq_true. reflexivity.
  - intros [->%bool_decide_eq_true ->%bool_decide_eq_true]%andb_prop. reflexivity.
Qed.
End Equality.

(** ** Codecs of the prefix *)

#[global] Typeclasses Opaque Input.write Output.write Timelock.write.

Lemma raw_bytes_id l : write_raw_vec write_byte l = l.
Proof. induction l as [|b l IH]; cbn; [reflexivity|]. f_equal. exact IH. Qed.

Section PrefixCodec.
Definition input_ok (x : Input) : Prop :=
  match x with
  | Gen height => U 64 height
  | ToKey amount key_offsets key_image =>
      match amount with None => True | Some a => U 64 a /\ a <> 0 end /\
      vec_ok (U 64) (Some NON_MINER_SIZE_UPPER_BOUND) key_offsets /\ is_array 32 key_image
  end.

Lemma default_amount_U amount :
  match amount with None => True | Some a => U 64 a /\ a <> 0 end -> U 64 (default 0 amount).
Proof. destruct amount; cbn; [tauto|unfold U; lia]. Qed.
Hint Resolve default_amount_U : oxide.

Lemma default_amount_back amount :
  match amount with None => True | Some a => U 64 a /\ a <> 0 end ->
  (if default 0 amount =? 0 then None else Some (default 0 amount)) = amount.
Proof. destruct amount as [a|]; cbn; [|reflexivity]. intros [_ Ha]. destruct (Z.eqb_spec a 0); [contradiction|reflexivity]. Qed.

Lemma amount_collapse a : U 64 a ->
  match (if a =? 0 then None else Some a) with None => True | Some a => U 64 a /\ a <> 0 end /\
  default 0 (if a =? 0 then None else Some a) = a.
Proof. intros Ha. destruct (Z.eqb_spec a 0) as [->|]; cbn; auto. Qed.

Lemma u8_lit b : (0 <=? b) && (b <? 256) = true -> U 8 b.
Proof. unfold U. change (2 ^ 8) with 256. lia. Qed.

#[export] Instance input_codec : Codec Input.read Input.write input_ok.
Proof.
  split.
  - intros [h|a o k]; cbn [input_ok Input.write].
    + intros H. bytes_tac. apply u8_lit. reflexivity.
    + intros (Ha & Ho & Hk). apply is_bytes_app_2; [bytes_tac; apply u8_lit; reflexivity|].
      apply is_bytes_app_2; [apply (codec_bytes (r := VarInt.read VarInt.u64)); auto using default_amount_U|].
      bytes_tac.
  - intros [h|a o k] rest; cbn [input_ok Input.write]; unfold Input.read.
    + intros H. change [255] with (write_byte 255). rewrite <- app_assoc.
      erewrite rbind_ok by (apply codec_rt, u8_lit; reflexivity). cbn [Z.eqb Pos.eqb].
      read_run. reflexivity.
    + intros (Ha & Ho & Hk). change [2] with (write_byte 2). rewrite <- app_assoc.
      erewrite rbind_ok by (apply codec_rt, u8_lit; reflexivity). cbn [Z.eqb Pos.eqb].
      rewrite <- app_assoc. erewrite rbind_ok by (apply codec_rt, default_amount_U, Ha). cbv zeta.
      read_run. rewrite default_amount_back by assumption. reflexivity.
  - intros bs x rest Hbs H. unfold Input.read in H. read_inv1. read_inv1. read_inv1.
    { apply Z.eqb_eq in E as ->. read_inv. split; [assumption|]. cbn. reflexivity. }
    read_inv1; [|discriminate H]. apply Z.eqb_eq in E0 as ->.
    read_inv. destruct (amount_collapse a) as [Hok Hdef]; [assumption|].
    split; [split_and!; assumption|]. cbn [Input.write]. rewrite Hdef, <- !app_assoc. reflexivity.
  - unfold Input.read. safe_tac.
Qed.

Definition output_ok (rct : bool) (x : Output.t) : Prop :=
  (if rct then Output.amount x = None
   else exists a, Output.amount x = Some a /\ U 64 a) /\
  is_array 32 (Output.key x) /\
  match Output.view_tag x with None => True | Some t => U 8 t end.

Lemma output_amount_U rct x : output_ok rct x -> U 64 (default 0 (Output.amount x)).
Proof.
  intros [H _]. destruct rct; [rewrite H; cbn; unfold U; lia|]. destruct H as (a & -> & Ha). exact Ha.
Qed.

Lemma read_amount_spec rct x bs : output_ok rct x ->
  Output.read_amount rct (default 0 (Output.amount x)) bs = (Ok (Output.amount x), bs).
Proof.
  intros [H _]. unfold Output.read_amount. destruct rct; [rewrite H; reflexivity|].
  destruct H as (a & -> & Ha). reflexivity.
Qed.

Lemma read_amount_inv rct a bs amount bs' : Output.read_amount rct a bs = (Ok amount, bs') ->
  bs = bs' /\ default 0 amount = a /\ (if rct then amount = None else amount = Some a).
Proof.
  unfold Output.read_amount. destruct rct; [destruct (Z.eqb_spec a 0) as [->|]|]; cbn; [|discriminate|];
    intros [= <- <-]; auto.
Qed.

Definition write_has_view_tag (b : bool) : bytes := [2 + if b then 1 else 0].

#[local] Instance has_view_tag_codec :
  Codec Output.read_has_view_tag write_has_view_tag (fun _ => True).
Proof.
  unfold Output.read_has_view_tag. split.
  - intros [] _; apply is_bytes_cons; [apply u8_lit; reflexivity|apply is_bytes_nil|apply u8_lit; reflexivity|apply is_bytes_nil].
  - intros [] rest _; reflexivity.
  - intros bs x rest Hbs H. read_inv; (split; [exact I|]); unfold write_byte, write_has_view_tag; cbn; f_equal; lia.
  - safe_tac.
Qed.

Lemma output_write x : Output.write x =
  VarInt.write (default 0 (Output.amount x)) ++
  write_has_view_tag (bool_decide (is_Some (Output.view_tag x))) ++
  CompressedPoint.write (Output.key x) ++
  match Output.view_tag x with Some t => write_byte t | None => [] end.
Proof. destruct x as [a k [t|]]; reflexivity. Qed.

#[export] Instance output_codec rct : Codec (Output.read rct) Output.write (output_ok rct).
Proof.
  split.
  - intros x Hx. pose proof (output_amount_U _ _ Hx) as Ha. destruct Hx as (_ & Hk & Ht).
    rewrite output_write. destruct (Output.view_tag x); bytes_tac;
      apply (codec_bytes (r := Output.read_has_view_tag)); exact I.
  - intros x rest Hx. pose proof (output_amount_U _ _ Hx) as Ha.
    rewrite output_write. unfold Output.read. rewrite <- app_assoc.
    erewrite rbind_ok by (apply codec_rt, Ha).
    erewrite rbind_ok by (apply read_amount_spec, Hx).
    rewrite <- app_assoc. erewrite rbind_ok by (apply codec_rt; exact I).
    destruct x as [a k [t|]], Hx as (_ & Hk & Ht); cbn in Hk, Ht; cbn [Output.view_tag Output.amount Output.key].
    + rewrite bool_decide_eq_true_2 by eauto. rewrite <- app_assoc. read_run1.
      erewrite rbind_ok; [reflexivity|]. unfold rmap. read_run. reflexivity.
    + rewrite bool_decide_eq_false_2 by (intros [? [=]]). read_run. reflexivity.
  - intros bs x rest Hbs H. unfold Output.read, rmap in H. read_inv;
      match goal with H : Output.read_amount _ _ _ = _ |- _ =>
        apply read_amount_inv in H as (<- & Hd & Ham) end; read_inv;
      rewrite output_write; unfold output_ok; cbn [Output.amount Output.key Output.view_tag];
      (split; [split_and!; auto; destruct rct; eauto|]); rewrite Hd, <- !app_assoc, ?app_nil_l.
    + rewrite bool_decide_eq_true_2 by eauto. reflexivity.
    + rewrite bool_decide_eq_false_2 by (intros [? [=]]). reflexivity.
  - unfold Output.read, Output.read_amount. safe_tac.
Qed.

Definition timelock_ok (x : Timelock.t) : Prop :=
  match x with
  | Timelock.None => True
  | Timelock.Block b => 0 < b < Timelock.TIMELOCK_BLOCK_THRESHOLD
  | Timelock.Time t => Timelock.TIMELOCK_BLOCK_THRESHOLD <= t < 2 ^ 64
  end.

(** The [u64] a timelock is encoded as, and back *)
Definition timelock_raw (x : Timelock.t) : Z :=
  match x with Timelock.None => 0 | Timelock.Block b => b | Timelock.Time t => t end.
Definition timelock_of (raw : Z) : Timelock.t :=
  if raw =? 0 then Timelock.None
  else if raw <? Timelock.TIMELOCK_BLOCK_THRESHOLD then Timelock.Block raw else Timelock.Time raw.

#[export] Instance timelock_codec : Codec Timelock.read Timelock.write timelock_ok.
Proof.
  assert (Hw : forall x, Timelock.write x = VarInt.write (timelock_raw x)) by (intros []; reflexivity).
  assert (HC : Codec Timelock.read (fun x => VarInt.write (timelock_raw x)) timelock_ok).
  { apply (codec_iso (VarInt.read VarInt.u64) VarInt.write (U 64) timelock_of timelock_raw); [apply _| |].
    - intros [|b|t]; unfold timelock_ok, timelock_raw, timelock_of, U, Timelock.TIMELOCK_BLOCK_THRESHOLD; intros H.
      + split; [lia|reflexivity].
      + destruct (Z.eqb_spec b 0), (Z.ltb_spec b 500000000); split; reflexivity || lia.
      + destruct (Z.eqb_spec t 0), (Z.ltb_spec t 500000000); split; reflexivity || lia.
    - intros a Ha. unfold timelock_of.
      destruct (Z.eqb_spec a 0), (Z.ltb_spec a Timelock.TIMELOCK_BLOCK_THRESHOLD); cbn; unfold U in Ha;
        split; try lia; exact I. }
  destruct HC as [H1 H2 H3 H4]. split; [|..|assumption].
  - intros x Hx. rewrite Hw. auto.
  - intros x rest Hx. rewrite Hw. auto.
  - intros bs x rest Hbs Hr. rewrite Hw. auto.
Qed.

Definition prefix_ok (version : Z) (x : TransactionPrefix.t) : Prop :=
  timelock_ok (TransactionPrefix.additional_timelock x) /\
  vec_ok input_ok (Some TransactionPrefix.INPUTS_UPPER_BOUND) (TransactionPrefix.inputs x) /\
  match TransactionPrefix.inputs x with
  | [] => False
  | first :: _ =>
      vec_ok (output_ok (negb (is_gen first) && (version =? 2)))
        (TransactionPrefix.max_outputs (is_gen first)) (TransactionPrefix.outputs x) /\
      vec_ok (U 8) (TransactionPrefix.max_extra (is_gen first)) (TransactionPrefix.extra x)
  end.

Lemma prefix_write x : TransactionPrefix.write x =
  Timelock.write (TransactionPrefix.additional_timelock x) ++
  write_vec Input.write (TransactionPrefix.inputs x) ++
  write_vec Output.write (TransactionPrefix.outputs x) ++
  write_vec write_byte (TransactionPrefix.extra x).
Proof.
  unfold TransactionPrefix.write. do 3 f_equal. unfold write_vec. rewrite raw_bytes_id. reflexivity.
Qed.

#[export] Instance prefix_codec version :
  Codec (TransactionPrefix.read version) TransactionPrefix.write (prefix_ok version).
Proof.
  split.
  - intros [t [|i ins] o e]; unfold prefix_ok; cbn [TransactionPrefix.inputs]; [tauto|].
    intros (Ht & Hi & Ho & He). rewrite prefix_write. cbn in *. bytes_tac.
  - intros [t [|i ins] o e] rest; unfold prefix_ok; cbn [TransactionPrefix.inputs]; [tauto|].
    intros (Ht & Hi & Ho & He). rewrite prefix_write. unfold TransactionPrefix.read.
    cbn [TransactionPrefix.additional_timelock TransactionPrefix.inputs TransactionPrefix.outputs TransactionPrefix.extra] in *.
    rewrite <- app_assoc. read_run1. rewrite <- app_assoc. read_run1. cbv zeta. read_run. reflexivity.
  - intros bs x rest Hbs H. unfold TransactionPrefix.read in H. rewrite prefix_write.
    read_inv1. read_inv1. read_inv1. read_inv1. destruct a0 as [|first ins]; [discriminate H|].
    cbv zeta in H. read_inv. split; [split_and!; auto; split; auto|]. cbn. rewrite <- !app_assoc. reflexivity.
  - unfold TransactionPrefix.read. apply rbind_safe; [apply _|]. intros t.
    apply rbind_safe; [apply _|]. intros [|first ins]; [apply rfail_safe|]. safe_tac.
Qed.
End PrefixCodec.

(** ** Codecs of transactions *)

(** What the transaction's codec needs of the potentially pruned parts *)
Class PotentiallyPrunedLaws {D : Dalek} (P : PotentiallyPruned) := {
  signatures_ok : list Input -> RingSignatures -> Prop;
  proofs_ok : nat -> nat -> nat -> option Proofs -> Prop;
  signatures_codec :: forall inputs,
    Codec (read_signatures inputs)
      (fun s => write_raw_vec RingSignature.write (signatures_to_write s)) (signatures_ok inputs);
  default_signatures_empty : signatures_to_write default_signatures = [];
  proofs_codec :: forall ring_length inputs outputs,
    Codec (potentially_pruned_read ring_length inputs outputs)
      (fun p => match p with None => [0] | Some p => potentially_pruned_write p end)
      (proofs_ok ring_length inputs outputs)
}.

Section Laws.
Context {D : Dalek} {DL : DalekLaws D}.

Fixpoint ring_signatures_ok (inputs : list Input) (sigs : list RingSignature.t) : Prop :=
  match inputs, sigs with
  | [], [] => True
  | ToKey _ key_offsets _ :: inputs', sig :: sigs' =>
      ring_signature_ok (length key_offsets) sig /\ ring_signatures_ok inputs' sigs'
  | _, _ => False
  end.

Instance ring_signatures_codec inputs :
  Codec (read_ring_signatures inputs) (write_raw_vec RingSignature.write) (ring_signatures_ok inputs).
Proof.
  induction inputs as [|[h|a o k] inputs IH].
  - split; cbn.
    + intros [|s l]; [intros _; constructor|tauto].
    + intros [|s l] rest; [reflexivity|tauto].
    + intros bs x rest _ [<- <-]%rret_ok_inv. auto.
    + apply _.
  - split; cbn; [intros []; tauto|intros []; tauto|discriminate|apply rfail_safe].
  - split; cbn [read_ring_signatures ring_signatures_ok].
    + intros [|s l]; [tauto|]. intros [Hs Hl]. cbn [write_raw_vec]. apply is_bytes_app_2.
      * apply (codec_bytes (r := RingSignature.read (length o))), Hs.
      * apply codec_bytes, Hl.
    + intros [|s l] rest; [tauto|]. intros [Hs Hl]. cbn [write_raw_vec]. read_run. reflexivity.
    + intros bs x rest Hbs H. read_inv. split; [split; assumption|]. cbn [write_raw_vec].
      rewrite <- app_assoc. reflexivity.
    + apply rbind_safe; [apply _|intros s]. apply rbind_safe; [apply IH|intros l; apply _].
Qed.

#[export] Instance not_pruned_laws : PotentiallyPrunedLaws NotPruned := {
  signatures_ok := ring_signatures_ok : list Input -> @RingSignatures NotPruned -> Prop;
  proofs_ok := rct_proofs_ok : nat -> nat -> nat -> option (@Proofs NotPruned) -> Prop;
  signatures_codec := ring_signatures_codec;
  default_signatures_empty := eq_refl;
  proofs_codec := rct_proofs_codec
}.

Definition unpair (x : PrunedRctProofs) : RctType.t * RctBase.t := (pruned_rct_type x, pruned_base x).

Lemma pruned_proofs_codec (ring_length inputs outputs : nat) :
  Codec (read_pruned_proofs inputs outputs)
    (fun p => match p with None => [0] | Some p => RctBase.write (pruned_base p) (pruned_rct_type p) end)
    (fun p => rct_base_opt_ok inputs outputs (unpair <$> p)).
Proof.
  destruct (codec_iso (RctBase.read inputs outputs) write_rct_base_opt (rct_base_opt_ok inputs outputs)
              (fmap (fun x => mk_PrunedRctProofs (fst x) (snd x))) (fmap unpair)
              (fun p => rct_base_opt_ok inputs outputs (unpair <$> p))) as [H1 H2 H3 H4].
  - apply _.
  - intros [[t b]|] Hp; auto.
  - intros [[t b]|] Hp; auto.
  - split; [| | |exact H4].
    + intros [[t b]|] Hp; [exact (H1 (Some _) Hp)|exact (H1 None Hp)].
    + intros [[t b]|] rest Hp; [exact (H2 (Some _) rest Hp)|exact (H2 None rest Hp)].
    + intros bs [[t b]|] rest Hbs Hr; [exact (H3 bs (Some _) rest Hbs Hr)|exact (H3 bs None rest Hbs Hr)].
Qed.

Lemma unit_codec {E} : Codec (E := E) (rret tt) (fun _ => []) (fun _ => True).
Proof.
  split; auto using is_bytes_nil; [|intros bs [] rest _ [_ <-]%rret_ok_inv; auto|apply _].
  intros [] rest _. reflexivity.
Qed.

#[export] Instance pruned_laws : PotentiallyPrunedLaws Pruned := {
  signatures_ok _ _ := True;
  proofs_ok _ inputs outputs p := rct_base_opt_ok inputs outputs (unpair <$> p);
  signatures_codec _ := unit_codec;
  default_signatures_empty := eq_refl;
  proofs_codec := pruned_proofs_codec
}.
End Laws.

Section TransactionCodec.
Import Transaction.
Context {D : Dalek} {DL : DalekLaws D} {P : PotentiallyPruned} {PL : PotentiallyPrunedLaws P}.

(** The transactions [read] yields *)
Definition transaction_ok (x : Transaction P) : Prop :=
  prefix_ok (version x) (prefix x) /\
  match x with
  | V1 prefix signatures =>
      if is_miner (TransactionPrefix.inputs prefix) then signatures = default_signatures
      else signatures_ok (TransactionPrefix.inputs prefix) signatures
  | V2 prefix proofs =>
      proofs_ok (ring_length (TransactionPrefix.inputs prefix))
        (length (TransactionPrefix.inputs prefix)) (length (TransactionPrefix.outputs prefix)) proofs
  end.

Lemma version_U (x : Transaction P) : U 64 (version x).
Proof. destruct x; unfold U; cbn; lia. Qed.

Definition write_signatures (s : RingSignatures) : bytes :=
  write_raw_vec RingSignature.write (signatures_to_write s).
Definition write_proofs (p : option Proofs) : bytes :=
  match p with None => [0] | Some p => potentially_pruned_write p end.

(** The signatures of a version 1 transaction, read unless it's a miner's *)
#[local] Instance v1_signatures_codec inputs :
  Codec (if is_miner inputs then rret default_signatures else read_signatures inputs) write_signatures
    (fun s => if is_miner inputs then s = default_signatures else signatures_ok inputs s).
Proof.
  destruct (is_miner inputs); [|exact (signatures_codec inputs)]. unfold write_signatures. split.
  - intros s ->. rewrite default_signatures_empty. constructor.
  - intros s rest ->. rewrite default_signatures_empty. reflexivity.
  - intros bs s rest _ [<- <-]%rret_ok_inv. rewrite default_signatures_empty. auto.
  - apply _.
Qed.

#[local] Instance v2_proofs_codec rl inputs outputs :
  Codec (potentially_pruned_read rl inputs outputs) write_proofs (proofs_ok rl inputs outputs) :=
  proofs_codec rl inputs outputs.

#[export] Instance transaction_codec : Codec read write transaction_ok.
Proof.
  split.
  - intros x [Hp Hx]. unfold write. apply is_bytes_app_2; [apply (codec_bytes (r := VarInt.read VarInt.u64)), version_U|].
    destruct x as [p s|p s]; cbn [prefix version] in *; (apply is_bytes_app_2; [eapply codec_bytes, Hp|]).
    + exact (codec_bytes (w := write_signatures) s Hx).
    + exact (codec_bytes (w := write_proofs) s Hx).
  - intros x rest [Hp Hx]. unfold write, read. rewrite <- app_assoc.
    erewrite rbind_ok by (apply codec_rt, version_U).
    destruct x as [p s|p s]; cbn [prefix version] in *; rewrite <- app_assoc;
      (erewrite rbind_ok by (apply codec_rt, Hp)); cbn [Z.eqb Pos.eqb].
    + rewrite (rbind_ok _ _ _ _ _ (codec_rt (w := write_signatures) s rest Hx)). reflexivity.
    + rewrite (rbind_ok _ _ _ _ _ (codec_rt (w := write_proofs) s rest Hx)). reflexivity.
  - intros bs x rest Hbs H. unfold read in H. unfold write, transaction_ok.
    read_inv1. read_inv1. read_inv1. read_inv1.
    destruct (Z.eqb_spec a 1) as [->|]; [|destruct (Z.eqb_spec a 2) as [->|]; [|discriminate H]].
    + apply rbind_ok_inv in H as (s & bs' & Hs & H). apply rret_ok_inv in H as [<- <-].
      destruct (codec_sound (w := write_signatures) _ _ _ Hb0 Hs) as [HP' ->].
      split; [split; assumption|]. cbn [version]. rewrite <- !app_assoc. reflexivity.
    + apply rbind_ok_inv in H as (s & bs' & Hs & H). apply rret_ok_inv in H as [<- <-].
      destruct (codec_sound (w := write_proofs) _ _ _ Hb0 Hs) as [HP' ->].
      split; [split; assumption|]. cbn [version]. rewrite <- !app_assoc. reflexivity.
  - unfold read. apply rbind_safe; [apply _|]. intros v. apply rbind_safe; [apply _|]. intros p.
    destruct (v =? 1); [|destruct (v =? 2); [|apply rfail_safe]].
    + apply rbind_safe; [apply v1_signatures_codec|apply _].
    + apply rbind_safe; [apply v2_proofs_codec|apply _].
Qed.
End TransactionCodec.

(** ** Properties *)

Section Properties.
Import Transaction.
Context {D : Dalek} {DL : DalekLaws D}.

(** C1: Every transaction the format can represent, pruned or not, is read
    back exactly from its serialization, whatever follows it. *)
Theorem transaction_roundtrip {P : PotentiallyPruned} {PL : PotentiallyPrunedLaws P}
  (tx : Transaction P) rest :
  transaction_ok tx -> read (write tx ++ rest) = (Ok tx, rest).
Proof. apply codec_rt. Qed.

(** C2: [Transaction::read] on any bytes, pruned or not, never panics and
    consumes a prefix of them; when it yields a transaction, that prefix is
    exactly the transaction's serialization, so no transaction has two
    accepted encodings and hashing the re-serialization is hashing the
    input. *)
Theorem transaction_canonical {P : PotentiallyPruned} {PL : PotentiallyPrunedLaws P} bs :
  is_bytes bs ->
  no_panic (fst (read bs)) /\ (exists pre, bs = pre ++ snd (read bs)) /\
  forall (tx : Transaction P) rest, read bs = (Ok tx, rest) -> transaction_ok tx /\ bs = write tx ++ rest.
Proof.
  intros Hbs. destruct (reader_safe (r := read (P := P)) bs Hbs) as [H1 H2].
  split_and!; [exact H1|exact H2|]. intros tx rest. apply codec_sound, Hbs.
Qed.

Lemma into_pruned_ok tx : transaction_ok tx -> transaction_ok (into_pruned tx).
Proof.
  destruct tx as [p s|p s]; intros [Hp Hx]; (split; [exact Hp|]); cbn in *.
  - destruct (is_miner _); [reflexivity|exact I].
  - destruct s as [s|]; cbn in *; [|exact I]. apply Hx.
Qed.

Context {K : Keccak}.

(** C3: [pruned_with_prunable] splits the serialization: the pruned
    transaction is the one [From] yields and is well-formed when the
    transaction is, its serialization followed by the prunable part is the
    transaction's, and the prunable part of a transaction with proofs hashes
    to its prunable hash. *)
Theorem pruned_with_prunable_split (tx : Transaction NotPruned) :
  let (pruned, prunable_part) := pruned_with_prunable tx in
  pruned = into_pruned tx /\
  write tx = write pruned ++ prunable_part /\
  (transaction_ok tx -> transaction_ok pruned) /\
  match tx with
  | V2 _ (Some _) => prunable_hash tx = Some (keccak256 prunable_part)
  | V2 _ None => prunable_part = []
  | V1 _ _ => True
  end.
Proof.
  destruct tx as [p s|p [s|]]; cbn -[write transaction_ok];
    (split_and!; [reflexivity| |exact (into_pruned_ok _)|try exact I; reflexivity]).
  - unfold write. cbn. rewrite app_nil_r, <- app_assoc. reflexivity.
  - unfold write. cbn. rewrite <- !app_assoc. cbn [app]. rewrite <- !app_assoc. reflexivity.
  - rewrite app_nil_r. reflexivity.
Qed.

(** Hashing never panics.  The hash of a version 2 transaction is that of
    its pruned form with its prunable hash; a version 1 transaction has
    neither, and its hash is that of its serialization. *)
Theorem hash_with_prunable_hash_correct (tx : Transaction NotPruned) :
  match tx with
  | V1 _ _ =>
      prunable_hash tx = None /\
      (forall h, hash_with_prunable_hash (E := io_error) (into_pruned tx) h = Ok None) /\
      hash (E := io_error) tx = Ok (keccak256 (write tx))
  | V2 _ _ =>
      exists ph h, prunable_hash tx = Some ph /\
        hash_with_prunable_hash (E := io_error) (into_pruned tx) ph = Ok (Some h) /\
        hash (E := io_error) tx = Ok h
  end /\ no_panic (signature_hash (E := io_error) tx).
Proof.
  destruct tx as [p s|p [s|]].
  - split; [split_and!; reflexivity|]. cbn. destruct (is_miner _); exact I.
  - split; [|exact I]. do 2 eexists. split_and!; reflexivity.
  - split; [|exact I]. do 2 eexists. split_and!; reflexivity.
Qed.

Lemma tx_hash_total (tx : Transaction NotPruned) : exists h, forall E, hash (E := E) tx = Ok h.
Proof. destruct tx as [p s|p [s|]]; eexists; reflexivity. Qed.

(** *** Binding *)

(** What is hashed for the hash of a pruned transaction with a prunable hash *)
Definition hash_inputs (tx : Transaction Pruned) (prunable_hash : bytes) : list bytes :=
  match tx with
  | V1 _ _ => []
  | V2 prefix proofs =>
      [VarInt.write 2 ++ TransactionPrefix.write prefix; write_proofs proofs;
       (TransactionPrefix.hash prefix 2 ++ keccak256 (write_proofs proofs)) ++ prunable_hash]
  end.

Lemma pruned_hash_eq (tx : Transaction Pruned) ph h : hash_with_prunable_hash (E := io_error) tx ph = Ok (Some h) ->
  exists prefix proofs, tx = V2 prefix proofs /\
    h = keccak256 ((TransactionPrefix.hash prefix 2 ++ keccak256 (write_proofs proofs)) ++ ph).
Proof.
  destruct tx as [|prefix [proofs|]]; intros H; inversion H; exists prefix; eexists; (split; [reflexivity|]); reflexivity.
Qed.

(** A hash and a prunable hash determine a pruned transaction. *)
Lemma pruned_hash_inj {KL : KeccakLaws K} (tx tx' : Transaction Pruned) ph ph' h : transaction_ok tx -> transaction_ok tx' ->
  hash_with_prunable_hash (E := io_error) tx ph = Ok (Some h) ->
  hash_with_prunable_hash (E := io_error) tx' ph' = Ok (Some h) ->
  (tx = tx' /\ ph = ph') \/ collides (hash_inputs tx ph) (hash_inputs tx' ph').
Proof.
  intros [Hp Hq] [Hp' Hq'] (p & s & -> & ->)%pruned_hash_eq (p' & s' & -> & He)%pruned_hash_eq. cbn in Hp, Hq, Hp', Hq'.
  apply keccak_inj in He as [He|Hc]; [|right; exact (collides_r _ _ [_; _] [_; _] Hc)].
  apply app_inj_1 in He as [He ->];
    [|unfold TransactionPrefix.hash, keccak256; rewrite !length_app, !(is_array_length 32) by apply keccak_array; reflexivity].
  apply app_inj_1 in He as [H1 H2];
    [|unfold TransactionPrefix.hash, keccak256; rewrite !(is_array_length 32) by apply keccak_array; reflexivity].
  unfold TransactionPrefix.hash in H1. apply keccak_inj in H1 as [H1|Hc]; [|right; exact (collides_l _ _ [_; _] [_; _] Hc)].
  apply keccak_inj in H2 as [H2|Hc]; [|right; exact (collides_r _ _ [_] [_] (collides_l _ _ [_] [_] Hc))].
  left. split; [|reflexivity]. apply app_inv_head in H1.
  rewrite <- (app_nil_r (TransactionPrefix.write p)), <- (app_nil_r (TransactionPrefix.write p')) in H1.
  destruct (codec_inj _ _ _ _ _ _ _ (prefix_codec 2) Hp Hp' H1) as [-> _]. f_equal.
  rewrite <- (app_nil_r (write_proofs s)), <- (app_nil_r (write_proofs s')) in H2.
  exact (proj1 (codec_inj _ _ _ _ _ _ _
    (proofs_codec (P := Pruned) 0 (length (TransactionPrefix.inputs p')) (length (TransactionPrefix.outputs p'))) Hq Hq' H2)).
Qed.

(** What shows a pruned transaction to be of a hash: the prunable hash for one
    of version 2, the full transaction for one of version 1 *)
Inductive Evidence : Type :=
| Prunable (hash : bytes)
| Full (tx : Transaction NotPruned).

Definition shows (e : Evidence) (h : bytes) (t : Transaction Pruned) : Prop :=
  transaction_ok t /\
  match e, t with
  | Full tx, V1 _ _ => transaction_ok tx /\ hash (E := io_error) tx = Ok h /\ into_pruned tx = t
  | Prunable ph, V2 _ proofs =>
      hash_with_prunable_hash (E := io_error) t ph = Ok (Some h) /\ (proofs = None -> ph = repeat 0 32)
  | _, _ => False
  end.

(** What is hashed for a transaction, and with some evidence *)
Definition tx_inputs (tx : Transaction NotPruned) : list bytes :=
  match tx with
  | V1 _ _ => [write tx]
  | V2 _ _ => hash_inputs (into_pruned tx) (default [] (prunable_hash tx))
  end.

Definition evidence_inputs (e : Evidence) (t : Transaction Pruned) : list bytes :=
  match e with Prunable ph => hash_inputs t ph | Full tx => tx_inputs tx end.

Lemma v1_hash_inj (tx tx' : Transaction NotPruned) : transaction_ok tx -> transaction_ok tx' ->
  version tx = 1 -> version tx' = 1 -> hash (E := io_error) tx = hash tx' -> tx = tx' \/ collides (tx_inputs tx) (tx_inputs tx').
Proof.
  destruct tx as [p s|], tx' as [p' s'|]; try discriminate. intros Hok Hok' _ _ He. injection He as He.
  apply keccak_inj in He as [He|Hc]; [left|right; exact Hc].
  assert (Hw : write (V1 (P := NotPruned) p s) ++ [] = write (V1 (P := NotPruned) p' s') ++ []) by (rewrite !app_nil_r; exact He).
  exact (proj1 (codec_inj _ _ _ _ _ _ _ transaction_codec Hok Hok' Hw)).
Qed.

(** A pruned transaction shown to be of a hash is the pruned form of the
    transaction with the hash. *)
Lemma shows_pruned {KL : KeccakLaws K} e h t tx : shows e h t -> transaction_ok tx -> hash (E := io_error) tx = Ok h ->
  version t = version tx -> t = into_pruned tx \/ collides (evidence_inputs e t) (tx_inputs tx).
Proof.
  intros [Hok Hr] Htx Hh Hv. destruct e as [ph|full], t as [p s|p s], tx as [p' s'|p' s']; try discriminate; try contradiction.
  - destruct Hr as [Hhash _].
    destruct (hash_with_prunable_hash_correct (V2 (P := NotPruned) p' s')) as [(ph' & h' & Hph' & Hh1 & Hh2) _].
    assert (h' = h) as -> by congruence.
    destruct (pruned_hash_inj _ _ _ _ _ Hok (into_pruned_ok _ Htx) Hhash Hh1) as [[-> _]|Hc]; [left; reflexivity|].
    right. cbn [evidence_inputs]. unfold tx_inputs. rewrite Hph'. change (default [] (Some ph')) with ph'.
    exact Hc.
  - destruct Hr as (Hfok & Hfh & Hf). destruct full as [fp fs|]; [|discriminate Hf].
    destruct (v1_hash_inj (V1 (P := NotPruned) fp fs) (V1 (P := NotPruned) p' s') Hfok Htx) as [He|Hc]; try reflexivity.
    + congruence.
    + left. rewrite <- Hf, He. reflexivity.
    + right. exact Hc.
Qed.

(** A hash determines what's shown to be of it, but for its version. *)
Lemma shows_inj {KL : KeccakLaws K} e e' h t t' : shows e h t -> shows e' h t' -> version t = version t' ->
  t = t' \/ collides (evidence_inputs e t) (evidence_inputs e' t').
Proof.
  intros [Hok Hr] [Hok' Hr'] Hv. destruct e as [ph|tx], t as [p s|p s], e' as [ph'|tx'], t' as [p' s'|p' s']; try discriminate; try contradiction.
  - destruct Hr as [Hh _], Hr' as [Hh' _]. destruct (pruned_hash_inj _ _ _ _ _ Hok Hok' Hh Hh') as [[-> _]|Hc]; [left; reflexivity|right; exact Hc].
  - destruct Hr as (Hf & Hh & He), Hr' as (Hf' & Hh' & He').
    destruct (v1_hash_inj tx tx' Hf Hf') as [->|Hc]; [..|congruence|left; congruence|right; exact Hc];
      [destruct tx; [reflexivity|discriminate He]|destruct tx'; [reflexivity|discriminate He']].
Qed.

(** A transaction shows its pruned form to be of its hash. *)
Lemma shows_itself tx h : transaction_ok tx -> hash (E := io_error) tx = Ok h -> exists e, shows e h (into_pruned tx).
Proof.
  intros Hok Hh. destruct tx as [p s|p s].
  - exists (Full (V1 (P := NotPruned) p s)). split; [exact (into_pruned_ok _ Hok)|]. split; [exact Hok|]. split; [exact Hh|reflexivity].
  - destruct (hash_with_prunable_hash_correct (V2 (P := NotPruned) p s)) as [(ph & h' & Hph & Hh1 & Hh2) _].
    exists (Prunable ph). split; [exact (into_pruned_ok _ Hok)|]. assert (h' = h) as -> by congruence.
    split; [exact Hh1|]. intros H. destruct s; [discriminate H|]. injection Hph as <-. reflexivity.
Qed.

(** [Transaction::weight] never panics: it is the serialized length, plus
    the clawback for as many outputs when the proofs are a Bulletproof(+). *)
Theorem transaction_weight (tx : Transaction NotPruned) :
  exists w, weight (E := io_error) tx = Ok w /\ len (write tx) <= w /\
  match tx with
  | V2 p (Some proofs) =>
      let t := RctProofs.rct_type proofs in
      if RctType.uses_bulletproofs t then
        exists lr, Bulletproof.calculate_clawback (E := io_error) (RctType.bulletproof_plus t)
                     (len (TransactionPrefix.outputs p)) = Ok (w - len (write tx), lr)
      else w = len (write tx)
  | _ => w = len (write tx)
  end.
Proof.
  assert (Hc : forall plus n, 0 <= n -> exists c lr, 0 <= c /\
    Bulletproof.calculate_clawback (E := io_error) plus n = Ok (c, lr)).
  { intros plus n Hn. destruct (clawback_total plus n Hn) as (c & lr & H1 & H2). eauto. }
  destruct tx as [p s|p [s|]]; try (eexists; split_and!; reflexivity).
  unfold weight. cbn [is_rct_bulletproof is_rct_bulletproof_plus].
  assert (Ht : RctType.bulletproof (RctProofs.rct_type s) || RctType.bulletproof_plus (RctProofs.rct_type s)
               = RctType.uses_bulletproofs (RctProofs.rct_type s)) by (destruct (RctProofs.rct_type s); reflexivity).
  rewrite Ht. cbv zeta. destruct (RctType.uses_bulletproofs _) eqn:Hu; cbn [negb obind].
  - destruct (Hc (RctType.bulletproof_plus (RctProofs.rct_type s)) (len (TransactionPrefix.outputs p)))
      as (c & lr & Hc0 & ->); [unfold len; lia|].
    cbn [obind]. eexists. split; [reflexivity|]. split; [lia|]. exists lr. do 2 f_equal. lia.
  - eexists. split_and!; reflexivity.
Qed.
End Properties.

Section Witness.
Import Transaction Model.

Definition example_prefix : TransactionPrefix.t :=
  TransactionPrefix.mk (Timelock.Block 100)
    [ToKey (Some 7) [1; 300] (repeat 9 32)] [Output.mk (Some 5) (repeat 3 32) (Some 17)] [1; 2; 3].

Definition example_sigs : list RingSignature.t :=
  [RingSignature.new [Signature.new (to_le 32 5) (to_le 32 6); Signature.new (to_le 32 7) (to_le 32 8)]].

Definition example_tx : Transaction NotPruned := V1 (P := NotPruned) example_prefix example_sigs.

Lemma vec_ok_intro {A} (P : A -> Prop) bound (l : list A) :
  Forall P l -> (len l <? 2 ^ 64) && match bound with Some b => len l <=? b | None => true end = true ->
  vec_ok P bound l.
Proof.
  intros HF H. apply andb_true_iff in H as [H1 H2]. unfold vec_ok, U, USIZE_BITS.
  split; [exact HF|]. split; [unfold len in *; lia|]. destruct bound; [lia|exact I].
Qed.

Lemma example_tx_ok : transaction_ok example_tx.
Proof.
  split; [|cbn; split; [|exact I]; split; [reflexivity|]].
  - split; [vm_compute; split; reflexivity|]. split; [|cbn; split]; apply vec_ok_intro; try reflexivity.
    + constructor; [|constructor]. split; [split; [decide_now|discriminate]|].
      split; [apply vec_ok_intro; [decide_now|reflexivity]|decide_now].
    + constructor; [|constructor]. split; [exists 5; split; [reflexivity|decide_now]|].
      split; decide_now.
    + decide_now.
  - constructor; [|constructor; [|constructor]];
      (split; (split; [decide_now|vm_compute; eexists; reflexivity])).
Qed.

Lemma transaction_roundtrip_witness :
  transaction_ok example_tx /\ read (write example_tx ++ [42]) = (Ok example_tx, [42]).
Proof.
  split; [exact example_tx_ok|].
  apply (transaction_roundtrip (PL := not_pruned_laws) example_tx [42] example_tx_ok).
Defined.

Lemma pruned_with_prunable_split_witness :
  transaction_ok example_tx /\
  write example_tx =
    write (fst (pruned_with_prunable example_tx)) ++ snd (pruned_with_prunable example_tx) /\
  transaction_ok (fst (pruned_with_prunable example_tx)).
Proof.
  split; [exact example_tx_ok|].
  destruct (pruned_with_prunable_split (D := dalek) example_tx) as (_ & H1 & H2 & _).
  split; [exact H1|]. exact (H2 example_tx_ok).
Defined.

Lemma transaction_canonical_witness :
  let bs := write example_tx ++ [42] in
  is_bytes bs /\ read (P := NotPruned) bs = (Ok example_tx, [42]) /\
  no_panic (fst (read (P := NotPruned) bs)) /\ bs = write example_tx ++ [42].
Proof.
  intros bs. assert (Hb : is_bytes bs) by decide_now.
  assert (Hr : read (P := NotPruned) bs = (Ok example_tx, [42])) by exact (codec_rt _ _ example_tx_ok).
  destruct (transaction_canonical (PL := not_pruned_laws) bs Hb) as (H1 & _ & H2).
  split; [exact Hb|]. split; [exact Hr|]. split; [exact H1|]. apply (H2 example_tx [42] Hr).
Defined.
End Witness.
