(* ===== verification/Block.v ===== *)
(** [src/block.rs]: block headers and blocks, their encodings and hashes. *)

From Stdlib Require Import ZArith Lia.
From stdpp Require Import base list strings numbers.
From S2P Require Import Prelude Dalek MoneroIo Ed25519 RingSignatures Merkle Transaction.

Definition CORRECT_BLOCK_HASH_202612 : bytes :=
  [66; 109; 22; 207; 240; 76; 113; 248; 177; 99; 64; 183; 34; 220; 64; 16;
   162; 221; 56; 49; 194; 32; 65; 67; 31; 119; 37; 71; 186; 110; 51; 26].
Definition EXISTING_BLOCK_HASH_202612 : bytes :=
  [187; 214; 4; 210; 186; 17; 186; 39; 147; 94; 0; 110; 211; 156; 155; 253;
   217; 155; 118; 191; 74; 80; 101; 75; 193; 225; 230; 18; 23; 150; 38; 152].

Module BlockHeader.
Record t := mk {
  hardfork_version : Z;
  hardfork_signal : Z;
  timestamp : Z;
  previous : bytes;
  nonce : Z
}.

Definition SIZE_UPPER_BOUND : Z :=
  VarInt.UPPER_BOUND VarInt.u8 + VarInt.UPPER_BOUND VarInt.u8 + VarInt.UPPER_BOUND VarInt.u64 + 32 + 4.

(** [write], also [serialize] *)
Definition write (self : t) : bytes :=
  VarInt.write (hardfork_version self) ++
  VarInt.write (hardfork_signal self) ++
  VarInt.write (timestamp self) ++
  previous self ++
  to_le 4 (nonce self).

Definition read : io_reader t :=
  let* hardfork_version := VarInt.read VarInt.u8 in
  let* hardfork_signal := VarInt.read VarInt.u8 in
  let* timestamp := VarInt.read VarInt.u64 in
  let* previous := read_bytes 32 in
  let* nonce := rmap from_le (read_bytes 4) in
  rret (mk hardfork_version hardfork_signal timestamp previous nonce).
End BlockHeader.

Module Block.
Section Ops.
Context {D : Dalek} {K : Keccak}.

Record t := mk {
  header : BlockHeader.t;
  miner_transaction : Transaction NotPruned;
  transactions : list bytes
}.

Definition MAX_TRANSACTIONS : Z := 268435456.

(** [new] *)
Definition new (header : BlockHeader.t) (miner_transaction : Transaction NotPruned)
  (transactions : list bytes) : option t :=
  let inputs := TransactionPrefix.inputs (Transaction.prefix miner_transaction) in
  if negb (length inputs =? 1)%nat then None
  else
    match inputs with
    | Gen _ :: _ => Some (mk header miner_transaction transactions)
    | _ => None
    end.

(** [number] *)
Definition number {E} (self : t) : outcome E Z :=
  match TransactionPrefix.inputs (Transaction.prefix (miner_transaction self)) with
  | Gen number :: _ => Ok number
  | _ => Panic
  end.

(** [write], also [serialize] *)
Definition write (self : t) : bytes :=
  BlockHeader.write (header self) ++
  Transaction.write (miner_transaction self) ++
  VarInt.write (len (transactions self)) ++
  write_raw_vec (fun tx => tx) (transactions self).

Definition serialize_pow_hash {E} (self : t) : outcome E bytes :=
  let? miner_hash := Transaction.hash (miner_transaction self) in
  let? root := Merkle.merkle_root (miner_hash :: transactions self) in
  let? root := expect root in
  Ok (BlockHeader.write (header self) ++ root ++ VarInt.write (1 + len (transactions self))).

Definition hash {E} (self : t) : outcome E bytes :=
  let? hashable := serialize_pow_hash self in
  if 2 ^ 64 <=? len hashable then Panic
  else
    let hash := keccak256 (VarInt.write (len hashable) ++ hashable) in
    Ok (if bytes_eqb hash CORRECT_BLOCK_HASH_202612 then EXISTING_BLOCK_HASH_202612 else hash).

Definition read : io_reader t :=
  let* header := BlockHeader.read in
  let* miner_transaction := Transaction.read in
  let* transactions := VarInt.read VarInt.usize in
  if MAX_TRANSACTIONS <=? transactions then rother "amount of transaction exceeds limit"
  else
    let* transactions := read_raw_vec (read_bytes 32) (Z.to_nat transactions) in
    ok_or_other (new header miner_transaction transactions) "block failed sanity checks".
End Ops.
Arguments t : clear implicits.
Arguments t {D}.
Arguments mk {D} _ _ _.
End Block.

(** ** Codecs *)

#[global] Typeclasses Opaque BlockHeader.write Transaction.write.

Section Codecs.
Definition header_ok (x : BlockHeader.t) : Prop :=
  U 8 (BlockHeader.hardfork_version x) /\ U 8 (BlockHeader.hardfork_signal x) /\
  U 64 (BlockHeader.timestamp x) /\ is_array 32 (BlockHeader.previous x) /\ U 32 (BlockHeader.nonce x).

#[export] Instance header_codec : Codec BlockHeader.read BlockHeader.write header_ok.
Proof.
  assert (Hn : Codec (E := io_error) (rmap from_le (read_bytes 4)) (to_le 4) (U 32)) by exact (read_le_codec 4).
  split.
  - intros x (H1 & H2 & H3 & H4 & H5). unfold BlockHeader.write.
    do 3 (apply is_bytes_app_2; [first [apply (codec_bytes (r := VarInt.read VarInt.u8)); assumption
                                      | apply (codec_bytes (r := VarInt.read VarInt.u64)); assumption]|]).
    bytes_tac.
  - intros [v s t p n] rest (H1 & H2 & H3 & H4 & H5). unfold BlockHeader.write, BlockHeader.read. cbn in *.
    read_run. reflexivity.
  - intros bs x rest Hbs H. unfold BlockHeader.read in H. read_inv.
    split; [split_and!; assumption|]. unfold BlockHeader.write. cbn. rewrite <- !app_assoc. reflexivity.
  - unfold BlockHeader.read. safe_tac.
Qed.

Lemma header_len x : header_ok x -> len (BlockHeader.write x) <= BlockHeader.SIZE_UPPER_BOUND.
Proof.
  intros (H1 & H2 & H3 & [_ H4] & H5). unfold BlockHeader.write.
  assert (Hv : forall t z, U (VarInt.BITS t) z -> Z.of_nat (length (VarInt.write z)) <= VarInt.UPPER_BOUND t).
  { intros t z Hz. change (Z.of_nat (length (VarInt.write z))) with (len (VarInt.write z)).
    rewrite write_len by exact (U64_BITS t z Hz). apply varint_len_bounds, Hz. }
  pose proof (Hv VarInt.u8 _ H1). pose proof (Hv VarInt.u8 _ H2). pose proof (Hv VarInt.u64 _ H3).
  unfold len. rewrite !length_app, H4, to_le_length. unfold BlockHeader.SIZE_UPPER_BOUND. lia.
Qed.

Context {D : Dalek} {DL : DalekLaws D}.

Definition block_ok (x : Block.t) : Prop :=
  header_ok (Block.header x) /\ transaction_ok (Block.miner_transaction x) /\
  is_miner (TransactionPrefix.inputs (Transaction.prefix (Block.miner_transaction x))) = true /\
  Forall (is_array 32) (Block.transactions x) /\ len (Block.transactions x) < Block.MAX_TRANSACTIONS.

Lemma block_new_spec h m txs b : Block.new h m txs = Some b <->
  b = Block.mk h m txs /\ is_miner (TransactionPrefix.inputs (Transaction.prefix m)) = true.
Proof.
  unfold Block.new, is_miner. destruct (TransactionPrefix.inputs _) as [|[n|a o k] [|i l]]; cbn.
  - split; [discriminate|intros [_ [=]]].
  - split; [intros [= <-]; auto|intros [-> _]; reflexivity].
  - split; [discriminate|intros [_ [=]]].
  - split; [discriminate|intros [_ [=]]].
  - split; [discriminate|intros [_ [=]]].
Qed.

#[export] Instance block_codec : Codec Block.read Block.write block_ok.
Proof.
  split.
  - intros x (H1 & H2 & _ & H3 & H4). unfold Block.write. apply is_bytes_app_2; [bytes_tac|].
    apply is_bytes_app_2; [apply (codec_bytes (r := Transaction.read)), H2|].
    apply is_bytes_app_2; [|exact (write_raw_vec_bytes _ _ _ (is_array_bytes 32) H3)].
    apply (codec_bytes (r := VarInt.read VarInt.usize)). unfold Block.MAX_TRANSACTIONS, U, len in *. lia.
  - intros [h m txs] rest (H1 & H2 & Hm & H3 & H4). unfold Block.write, Block.read.
    cbn [Block.header Block.miner_transaction Block.transactions] in *.
    rewrite <- app_assoc. read_run1. rewrite <- app_assoc. read_run1. rewrite <- app_assoc.
    erewrite rbind_ok by (apply (codec_rt (w := VarInt.write)); unfold Block.MAX_TRANSACTIONS, U, len in *; lia).
    destruct (Z.leb_spec Block.MAX_TRANSACTIONS (len txs)); [lia|].
    erewrite rbind_ok.
    2: { apply (codec_rt (r := read_raw_vec (read_bytes 32) (Z.to_nat (len txs))) txs rest).
         split; [unfold len; lia|exact H3]. }
    rewrite (proj2 (block_new_spec h m txs _) (conj eq_refl Hm)). reflexivity.
  - intros bs x rest Hbs H. unfold Block.read in H.
    read_inv1. read_inv1. read_inv1. read_inv1. read_inv1. read_inv1. read_inv1; [discriminate H|].
    read_inv1. read_inv1. destruct (Block.new a a0 a2) as [b|] eqn:Eb; [|discriminate H].
    apply rret_ok_inv in H as [<- <-]. apply block_new_spec in Eb as [-> Hm].
    destruct HP2 as [Hl HF]. assert (a1 = len a2) as -> by (unfold len, U in *; lia).
    split; [split_and!; auto; cbn; lia|]. unfold Block.write. cbn. rewrite <- !app_assoc. reflexivity.
  - unfold Block.read. apply rbind_safe; [apply _|intros h]. apply rbind_safe; [apply _|intros m].
    apply rbind_safe; [apply _|intros n]. destruct (_ <=? _); [apply rfail_safe|].
    apply rbind_safe; [apply _|intros txs; apply _].
Qed.
End Codecs.

(** ** Properties *)

Section Properties.
Context {D : Dalek} {DL : DalekLaws D} {K : Keccak}.

(** A block with a valid header, miner transaction and transaction
    hashes is read back exactly from its serialization, whatever follows. *)
Theorem block_roundtrip (b : Block.t) rest :
  block_ok b -> Block.read (Block.write b ++ rest) = (Ok b, rest).
Proof. apply codec_rt. Qed.

Lemma number_miner (b : Block.t) :
  is_miner (TransactionPrefix.inputs (Transaction.prefix (Block.miner_transaction b))) = true ->
  exists n, TransactionPrefix.inputs (Transaction.prefix (Block.miner_transaction b)) = [Gen n] /\
            Block.number (E := io_error) b = Ok n.
Proof.
  unfold Block.number, is_miner. destruct (TransactionPrefix.inputs _) as [|[n|a o k] [|i l]]; try discriminate.
  intros _. exists n. auto.
Qed.

(** C18: [Block::read] never panics on any bytes; a block it yields
    re-serializes to the bytes consumed, its transactions are fewer than
    [MAX_TRANSACTIONS], and its miner transaction has the one generating
    input that makes [Block::number] infallible. *)
Theorem block_read_canonical bs : is_bytes bs ->
  no_panic (fst (Block.read bs)) /\
  forall b rest, Block.read bs = (Ok b, rest) ->
    bs = Block.write b ++ rest /\ len (Block.transactions b) < Block.MAX_TRANSACTIONS /\
    exists n, TransactionPrefix.inputs (Transaction.prefix (Block.miner_transaction b)) = [Gen n] /\
              Block.number (E := io_error) b = Ok n.
Proof.
  intros Hbs. split; [exact (proj1 (reader_safe (r := Block.read) bs Hbs))|].
  intros b rest Hr. destruct (codec_sound (r := Block.read) _ _ _ Hbs Hr) as [(_ & _ & Hm & _ & Hl) ->].
  split_and!; auto using number_miner.
Qed.

Lemma hash_array {KL : KeccakLaws K} (tx : Transaction NotPruned) :
  exists h, Transaction.hash (E := io_error) tx = Ok h /\ is_array 32 h.
Proof. destruct tx as [p s|p [s|]]; eexists; (split; [reflexivity|apply keccak_array]). Qed.

Lemma pow_hash_root (b : Block.t) :
  exists h, Transaction.hash (E := io_error) (Block.miner_transaction b) = Ok h /\
    Block.serialize_pow_hash (E := io_error) b =
      Ok (BlockHeader.write (Block.header b) ++ MerkleSpec.root (h :: Block.transactions b) ++
          VarInt.write (1 + len (Block.transactions b))).
Proof.
  assert (Hh : exists h, Transaction.hash (E := io_error) (Block.miner_transaction b) = Ok h).
  { destruct (Block.miner_transaction b) as [p s|p [s|]]; eexists; reflexivity. }
  destruct Hh as [h Hh]. exists h. split; [exact Hh|]. unfold Block.serialize_pow_hash.
  rewrite Hh. cbn [obind]. rewrite merkle_root_root. reflexivity.
Qed.

(** [Block::hash] never panics on a well-formed block: it is the hash of
    the length-prefixed proof of work preimage (the header, the root over the
    miner transaction's hash and the others, their amount), with block
    202612's hash replaced as the protocol has it. *)
Theorem block_hash_spec (b : Block.t) {KL : KeccakLaws K} : block_ok b ->
  exists miner_hash,
    Transaction.hash (E := io_error) (Block.miner_transaction b) = Ok miner_hash /\
    let preimage :=
      BlockHeader.write (Block.header b) ++
      MerkleSpec.root (miner_hash :: Block.transactions b) ++
      VarInt.write (1 + len (Block.transactions b)) in
    let h := keccak256 (VarInt.write (len preimage) ++ preimage) in
    Block.serialize_pow_hash (E := io_error) b = Ok preimage /\
    Block.hash (E := io_error) b =
      Ok (if bytes_eqb h CORRECT_BLOCK_HASH_202612 then EXISTING_BLOCK_HASH_202612 else h).
Proof.
  intros (Hh & _ & _ & HF & Hl). destruct (pow_hash_root b) as (mh & Hm & Hp). exists mh.
  split; [exact Hm|]. cbv zeta. split; [exact Hp|]. unfold Block.hash. rewrite Hp. cbn [obind].
  match goal with |- context [2 ^ 64 <=? ?x] => assert (Hlt : x < 2 ^ 64) end.
  2: { destruct (Z.leb_spec (2 ^ 64) (len (BlockHeader.write (Block.header b) ++
         MerkleSpec.root (mh :: Block.transactions b) ++ VarInt.write (1 + len (Block.transactions b)))));
       [lia|reflexivity]. }
  destruct (hash_array (Block.miner_transaction b)) as (h' & Hh' & Ha). rewrite Hm in Hh'. injection Hh' as <-.
  assert (Hr : is_array 32 (MerkleSpec.root (mh :: Block.transactions b))).
  { apply root_array; [cbn; lia|]. constructor; assumption. }
  assert (Hhl : len (BlockHeader.write (Block.header b)) <= BlockHeader.SIZE_UPPER_BOUND).
  { apply header_len, Hh. }
  assert (Hcl : len (VarInt.write (1 + len (Block.transactions b))) <= 10).
  { assert (HU : U 64 (1 + len (Block.transactions b))) by (unfold Block.MAX_TRANSACTIONS, U, len in *; lia).
    rewrite (write_len _ HU). exact (proj2 (varint_len_bounds VarInt.u64 _ HU)). }
  unfold len in *. rewrite !length_app. destruct Hr as [_ Hr]. rewrite Hr.
  change BlockHeader.SIZE_UPPER_BOUND with 50 in Hhl. lia.
Qed.

(** What is hashed for the Merkle root of a block *)
Definition leaf_inputs (b : Block.t) : list bytes :=
  match Transaction.hash (E := io_error) (Block.miner_transaction b) with
  | Ok h => root_inputs (h :: Block.transactions b)
  | _ => []
  end.

Lemma pow_hash_bound {KL : KeccakLaws K} (b b' : Block.t) :
  block_ok b -> block_ok b' ->
  Block.serialize_pow_hash (E := io_error) b = Block.serialize_pow_hash b' ->
  Block.header b = Block.header b' /\
  (Block.transactions b = Block.transactions b' /\
   Transaction.hash (E := io_error) (Block.miner_transaction b)
     = Transaction.hash (Block.miner_transaction b') \/
   collides (leaf_inputs b) (leaf_inputs b')).
Proof.
  intros (Hh & _ & _ & HF & Hl) (Hh' & _ & _ & HF' & Hl').
  destruct (pow_hash_root b) as (mh & Hm & ->), (pow_hash_root b') as (mh' & Hm' & ->).
  intros He%Ok_inj. unfold leaf_inputs. rewrite Hm, Hm'.
  destruct (hash_array (Block.miner_transaction b)) as (h1 & Hh1 & Ha1). rewrite Hm in Hh1. injection Hh1 as <-.
  destruct (hash_array (Block.miner_transaction b')) as (h2 & Hh2 & Ha2). rewrite Hm' in Hh2. injection Hh2 as <-.
  destruct (codec_inj BlockHeader.read BlockHeader.write header_ok _ _ _ _ header_codec Hh Hh' He) as [-> Ht].
  split; [reflexivity|].
  assert (Hr : forall mh txs, is_array 32 mh -> Forall (is_array 32) txs -> is_array 32 (MerkleSpec.root (mh :: txs))).
  { intros m txs H1 H2. apply root_array; [cbn; lia|constructor; assumption]. }
  destruct (codec_inj (read_bytes 32) (fun b => b) (is_array 32) _ _ _ _ _
              (Hr _ _ Ha1 HF) (Hr _ _ Ha2 HF') Ht) as [Hroot Hc].
  rewrite <- (app_nil_r (VarInt.write (1 + len (Block.transactions b)))),
          <- (app_nil_r (VarInt.write (1 + len (Block.transactions b')))) in Hc.
  assert (HU : U 64 (1 + len (Block.transactions b)))
    by (unfold Block.MAX_TRANSACTIONS, U, len in *; lia).
  assert (HU' : U 64 (1 + len (Block.transactions b')))
    by (unfold Block.MAX_TRANSACTIONS, U, len in *; lia).
  destruct (codec_inj (VarInt.read VarInt.u64) VarInt.write (U 64) _ _ _ _ _ HU HU' Hc) as [Hn _].
  destruct (root_inj (mh :: Block.transactions b) (mh' :: Block.transactions b')) as [Heq|Hcol].
  - unfold len in Hn. cbn. lia.
  - cbn. lia.
  - constructor; assumption.
  - constructor; assumption.
  - exact Hroot.
  - left. injection Heq as -> ->. auto.
  - right. exact Hcol.
Qed.

(** C19: The proof of work preimage commits to the whole block: two
    well-formed blocks with the same preimage have the same header, and the
    same list of transactions with the same miner transaction hash, unless
    two different 64-byte inputs of the hash collide. *)
Theorem pow_hash_binding {KL : KeccakLaws K} (b b' : Block.t) :
  block_ok b -> block_ok b' ->
  Block.serialize_pow_hash (E := io_error) b = Block.serialize_pow_hash b' ->
  Block.header b = Block.header b' /\
  (Block.transactions b = Block.transactions b' /\
   Transaction.hash (E := io_error) (Block.miner_transaction b)
     = Transaction.hash (Block.miner_transaction b') \/
   collides (leaf_inputs b) (leaf_inputs b')).
Proof. apply pow_hash_bound. Qed.
(** What is hashed for a block, its transactions aside *)
Definition block_preimage (b : Block.t) : bytes :=
  match Block.serialize_pow_hash (E := io_error) b with Ok p => VarInt.write (len p) ++ p | _ => [] end.

Definition block_inputs (b : Block.t) : list bytes := [block_preimage b] ++ leaf_inputs b.

(** The number and the hash of a block don't depend on the type of errors. *)
Lemma block_number_total (b : Block.t) : block_ok b -> exists n, forall E, Block.number (E := E) b = Ok n.
Proof.
  intros (_ & _ & Hm & _). destruct (number_miner b Hm) as (n & Hn & _). exists n. intros E. unfold Block.number.
  rewrite Hn. reflexivity.
Qed.

Lemma block_hash_total {KL : KeccakLaws K} (b : Block.t) : block_ok b -> exists h, forall E, Block.hash (E := E) b = Ok h.
Proof.
  intros Hb. destruct (block_hash_spec b Hb) as (mh & Hm & Hp & Hh). eexists. intros E.
  assert (Hs : Block.serialize_pow_hash (E := E) b = Ok (BlockHeader.write (Block.header b) ++
    MerkleSpec.root (mh :: Block.transactions b) ++ VarInt.write (1 + len (Block.transactions b)))).
  { unfold Block.serialize_pow_hash. assert (Hm' : Transaction.hash (E := E) (Block.miner_transaction b) = Ok mh).
    { destruct (tx_hash_total (Block.miner_transaction b)) as [h Ht]. rewrite Ht in *. apply Ok_inj in Hm. congruence. }
    rewrite Hm'. cbn [obind]. rewrite merkle_root_root. reflexivity. }
  unfold Block.hash in *. rewrite Hp in Hh. rewrite Hs. cbn [obind] in *.
  destruct (2 ^ 64 <=? _); [discriminate|]. reflexivity.
Qed.

(** [b] is the block whose hash is replaced, [b'] has the hash it is replaced with. *)
Definition replaced (b b' : Block.t) : Prop :=
  keccak256 (block_preimage b) = CORRECT_BLOCK_HASH_202612 /\
  keccak256 (block_preimage b') = EXISTING_BLOCK_HASH_202612.

Lemma replaced_inj (c e x y : bytes) :
  (if bytes_eqb x c then e else x) = (if bytes_eqb y c then e else y) -> x = y \/ (x = c /\ y = e) \/ (y = c /\ x = e).
Proof. unfold bytes_eqb. repeat case_bool_decide; subst; auto. Qed.

Lemma block_hash_inv (b : Block.t) h : Block.hash (E := io_error) b = Ok h ->
  exists p, Block.serialize_pow_hash (E := io_error) b = Ok p /\ U 64 (len p) /\
    h = if bytes_eqb (keccak256 (block_preimage b)) CORRECT_BLOCK_HASH_202612
        then EXISTING_BLOCK_HASH_202612 else keccak256 (block_preimage b).
Proof.
  unfold Block.hash, block_preimage. destruct (Block.serialize_pow_hash b) as [p|e|]; cbn [obind]; [|discriminate..].
  destruct (Z.leb_spec (2 ^ 64) (len p)); [discriminate|]. cbv zeta. intros He%Ok_inj. exists p.
  split; [reflexivity|]. split; [unfold U, len in *; lia|exact (eq_sym He)].
Qed.

(** The hash of a block determines its header, the hashes of its transactions
    and that of its miner transaction. *)
Lemma block_hash_inj {KL : KeccakLaws K} (b b' : Block.t) h : block_ok b -> block_ok b' ->
  Block.hash (E := io_error) b = Ok h -> Block.hash (E := io_error) b' = Ok h ->
  (Block.header b = Block.header b' /\ Block.transactions b = Block.transactions b' /\
   Transaction.hash (E := io_error) (Block.miner_transaction b) = Transaction.hash (Block.miner_transaction b')) \/
  collides (block_inputs b) (block_inputs b') \/ replaced b b' \/ replaced b' b.
Proof.
  intros Hb Hb' (p & Hp & HU & ->)%block_hash_inv (p' & Hp' & HU' & He)%block_hash_inv.
  apply replaced_inj in He as [Hk|Hk]; [|right; right; exact Hk].
  apply keccak_inj in Hk as [Hk|Hc]; [|right; left; exact (collides_l _ _ _ _ Hc)].
  unfold block_preimage in Hk. rewrite Hp, Hp' in Hk.
  destruct (codec_inj (VarInt.read VarInt.u64) VarInt.write (U 64) _ _ _ _ _ HU HU' Hk) as [_ ->].
  rewrite <- Hp' in Hp. destruct (pow_hash_bound b b' Hb Hb' Hp) as [Hh [[Ht Hm]|Hc]]; [left; auto|].
  right; left. exact (collides_r _ _ [_] [_] Hc).
Qed.
End Properties.

Section Witness.
Import Model.

Definition example_header : BlockHeader.t := BlockHeader.mk 16 16 1700000000 (repeat 7 32) 99.

(** A miner transaction of version 2 with one output and no proofs *)
Definition example_miner_tx : Transaction NotPruned :=
  V2 (P := NotPruned)
    (TransactionPrefix.mk (Timelock.Block 60) [Gen 0] [Output.mk (Some 600000000000) (repeat 3 32) (Some 17)] [1; 2])
    None.

Definition example_block : Block.t :=
  Block.mk example_header example_miner_tx [repeat 1 32; repeat 2 32; repeat 3 32].

Lemma example_block_ok : block_ok example_block.
Proof.
  split; [split_and!; cbn; decide_now|]. split; [|split; [reflexivity|split; [decide_now|reflexivity]]].
  split; [|exact I]. split; [vm_compute; split; reflexivity|].
  split; [|cbn; split]; apply vec_ok_intro; try reflexivity.
  - constructor; [cbn; decide_now|constructor].
  - constructor; [|constructor]. split; [exists 600000000000; split; [reflexivity|decide_now]|].
    split; decide_now.
  - decide_now.
Qed.

Lemma block_roundtrip_witness :
  block_ok example_block /\ Block.read (Block.write example_block ++ [0]) = (Ok example_block, [0]).
Proof. split; [exact example_block_ok|]. exact (block_roundtrip _ _ example_block_ok). Defined.

Lemma block_read_canonical_witness :
  is_bytes (Block.write example_block ++ [0]) /\
  Block.read (Block.write example_block ++ [0]) = (Ok example_block, [0]) /\
  len (Block.transactions example_block) < Block.MAX_TRANSACTIONS.
Proof.
  assert (Hb : is_bytes (Block.write example_block ++ [0])) by decide_now.
  assert (Hr : Block.read (Block.write example_block ++ [0]) = (Ok example_block, [0]))
    by exact (codec_rt _ _ example_block_ok).
  split; [exact Hb|]. split; [exact Hr|].
  exact (proj1 (proj2 (proj2 (block_read_canonical _ Hb) _ _ Hr))).
Defined.

Lemma block_hash_spec_witness :
  block_ok example_block /\
  exists h, Transaction.hash (E := io_error) example_miner_tx = Ok h.
Proof.
  split; [exact example_block_ok|].
  destruct (block_hash_spec (KL := keccak_laws) example_block example_block_ok) as (h & Hh & _).
  exists h. exact Hh.
Defined.

Lemma pow_hash_binding_witness :
  block_ok example_block /\ Block.header example_block = example_header /\
  Block.header example_block = Block.header example_block.
Proof.
  split; [exact example_block_ok|]. split; [reflexivity|].
  exact (proj1 (pow_hash_binding (KL := keccak_laws) example_block example_block
                  example_block_ok example_block_ok eq_refl)).
Defined.
End Witness.
