(* ===== verification/Interface.v ===== *)
(** The interface to a node ([interface/src/]): what an untrusted interface
    provides, as classes of operations over the state of whoever answers, what
    is validated of its answers, and fee rates.  A validated class comes with a
    class of laws; the blanket implementations discharge the laws for any
    interface whose answers are deserialized, and the code which is generic over
    a validated class is proved from the laws alone.  The arguments formatted
    into error messages are omitted. *)

From Stdlib Require Import ZArith Lia.
From stdpp Require Import base list strings numbers.
From S2P Require Import Prelude Dalek MoneroIo Ed25519 RingCT Transaction Block.

(** ** Calls

    A call takes the state of who answers to its next state. *)

Definition query (S E A : Type) : Type := S -> outcome E A * S.

Definition qret {S E A} (a : A) : query S E A := fun s => (Ok a, s).
Definition qlift {S E A} (m : outcome E A) : query S E A := fun s => (m, s).
Definition qbind {S E A B} (m : query S E A) (k : A -> query S E B) : query S E B :=
  fun s =>
    match m s with
    | (Ok a, s) => k a s
    | (Err e, s) => (Err e, s)
    | (Panic, s) => (Panic, s)
    end.

Notation "'let!' x := m 'in' k" := (qbind m (fun x => k))
  (at level 10, x pattern, m at level 100, k at level 200) : oxide_scope.

(** [From] on the error of a [?] *)
Definition qmap_err {S E F A} (f : E -> F) (m : query S E A) : query S F A :=
  fun s => let (o, s) := m s in (omap_err f o, s).

(** One call per element, in order *)
Fixpoint qmap {S E A B} (f : A -> query S E B) (l : list A) : query S E (list B) :=
  match l with
  | [] => qret []
  | a :: l => let! b := f a in let! bs := qmap f l in qret (b :: bs)
  end.

(** The call never panics, and what it returns satisfies [Q]. *)
Definition ensures {S E A} (m : query S E A) (Q : A -> Prop) : Prop :=
  forall s, match fst (m s) with Ok a => Q a | Err _ => True | Panic => False end.

Section Ensures.
Context {S E : Type}.

Lemma ensures_ret {A} (a : A) (Q : A -> Prop) : Q a -> ensures (S := S) (E := E) (qret a) Q.
Proof. intros H s. exact H. Qed.

Lemma ensures_err {A} (e : E) (Q : A -> Prop) : ensures (S := S) (qlift (Err e)) Q.
Proof. intros s. exact I. Qed.

Lemma ensures_lift {A} (m : outcome E A) (Q : A -> Prop) :
  match m with Ok a => Q a | Err _ => True | Panic => False end -> ensures (S := S) (qlift m) Q.
Proof. intros H s. exact H. Qed.

Lemma ensures_bind {A B} (P : A -> Prop) (m : query S E A) (k : A -> query S E B) Q :
  ensures m P -> (forall a, P a -> ensures (k a) Q) -> ensures (qbind m k) Q.
Proof.
  intros Hm Hk s. specialize (Hm s). unfold qbind. destruct (m s) as [[a|e|] s']; cbn in *; [exact (Hk a Hm s')|exact I|exact Hm].
Qed.

Lemma ensures_mono {A} (P Q : A -> Prop) (m : query S E A) : (forall a, P a -> Q a) -> ensures m P -> ensures m Q.
Proof. intros H Hm s. specialize (Hm s). destruct (m s) as [[a|e|] s']; cbn in *; auto. Qed.

Lemma ensures_map_err {F A} (f : E -> F) (m : query S E A) Q : ensures m Q -> ensures (qmap_err f m) Q.
Proof. intros Hm s. specialize (Hm s). unfold qmap_err. destruct (m s) as [[a|e|] s']; exact Hm. Qed.

Lemma ensures_map {A B} (P : A -> B -> Prop) (f : A -> query S E B) l :
  (forall a, a ∈ l -> ensures (f a) (P a)) -> ensures (qmap f l) (Forall2 P l).
Proof.
  induction l as [|a l IH]; intros Hf; cbn [qmap]; [apply ensures_ret; constructor|].
  apply (ensures_bind (P a)); [apply Hf; left|]. intros b Hb.
  apply (ensures_bind (Forall2 P l)); [apply IH; intros; apply Hf; right; assumption|].
  intros bs Hbs. apply ensures_ret. constructor; assumption.
Qed.

Lemma ensures_ok {A} (m : query S E A) Q s a s' : ensures m Q -> m s = (Ok a, s') -> Q a.
Proof. intros H Hm. specialize (H s). rewrite Hm in H. exact H. Qed.
End Ensures.

#[export] Hint Resolve ensures_err ensures_map_err : oxide.

(** ** Errors ([lib.rs], [provides_transactions.rs]) *)

Module InterfaceError.
Inductive t : Type :=
| InternalError (msg : string)
| InterfaceError (msg : string)
| InvalidInterface (msg : string).
End InterfaceError.
Import InterfaceError(InternalError, InvalidInterface).

Module TransactionsError.
Inductive t : Type :=
| InterfaceError (e : InterfaceError.t)
| TransactionNotFound
| PrunedTransaction.
End TransactionsError.

(** ** Fee rates ([provides_fee_rates.rs]) *)

Inductive FeePriority : Type := Unimportant | Normal | Elevated | Priority | Custom (priority : Z).

Definition FeePriority_to_u32 (self : FeePriority) : Z :=
  match self with
  | Unimportant => 1
  | Normal => 2
  | Elevated => 3
  | Priority => 4
  | Custom priority => priority
  end.

Module FeeError.
Inductive t : Type :=
| InterfaceError (e : InterfaceError.t)
| InvalidFee
| InvalidFeePriority.
End FeeError.

Module FeeRate.
Record t := mk { per_weight : Z; mask : Z }.

Definition new (per_weight mask : Z) : option t :=
  if (per_weight =? 0) || (mask =? 0) then None else Some (mk per_weight mask).

(** [write], also [serialize] *)
Definition write (self : t) : bytes := to_le 8 (per_weight self) ++ to_le 8 (mask self).

Definition read : io_reader t :=
  let* per_weight := read_u64 in
  let* mask := read_u64 in
  ok_or_other (new per_weight mask) "fee rate was invalid".

(** [u128::div_ceil], which panics on a divisor of zero *)
Definition div_ceil {E} (a b : Z) : outcome E Z :=
  if b =? 0 then Panic else Ok (if a mod b =? 0 then a / b else a / b + 1).

(** A multiplication of two [u128]s, which panics when it overflows *)
Definition mul_u128 {E} (a b : Z) : outcome E Z := if 2 ^ 128 <=? a * b then Panic else Ok (a * b).

Definition calculate_fee_from_weight {E} (self : t) (weight : Z) : outcome E Z :=
  let? fee := mul_u128 (per_weight self) weight in
  let? n := div_ceil fee (mask self) in
  mul_u128 n (mask self).

(** [None] for a weight which doesn't fit in a [usize] *)
Definition calculate_weight_from_fee {E} (self : t) (fee : Z) : outcome E (option Z) :=
  if per_weight self =? 0 then Panic
  else
    let weight := fee / per_weight self in
    Ok (if 2 ^ USIZE_BITS <=? weight then None else Some weight).
End FeeRate.

Module ProvidesUnvalidatedFeeRates.
Class t (S : Type) := { fee_rate : FeePriority -> query S FeeError.t FeeRate.t }.
End ProvidesUnvalidatedFeeRates.

Module ProvidesFeeRates.
Class t (S : Type) := { fee_rate : FeePriority -> Z -> query S FeeError.t FeeRate.t }.

(** The rate is at most the maximum asked for. *)
Class Laws {S} (P : t S) : Prop :=
  fee_rate_law : forall priority max_per_weight,
    ensures (fee_rate priority max_per_weight) (fun r => FeeRate.per_weight r <= max_per_weight).

(** [impl<P: ProvidesUnvalidatedFeeRates> ProvidesFeeRates for P] *)
#[global] Instance blanket {S} (P : ProvidesUnvalidatedFeeRates.t S) : t S := {
  fee_rate priority max_per_weight :=
    let! fee_rate := ProvidesUnvalidatedFeeRates.fee_rate priority in
    if max_per_weight <? FeeRate.per_weight fee_rate then qlift (Err FeeError.InvalidFee) else qret fee_rate
}.
End ProvidesFeeRates.

(** ** Transactions ([provides_transactions.rs]) *)

(** [struct PrunedTransactionWithPrunableHash] *)
Module PrunedTransactionWithPrunableHash.
Section Ops.
Context {D : Dalek} {K : Keccak}.
Record t : Type := mk { transaction : Transaction Pruned; prunable_hash : option bytes }.

Definition new (transaction : Transaction Pruned) (prunable_hash : option bytes) : option t :=
  match transaction with
  | V1 _ _ =>
      match prunable_hash with
      | Some _ => None
      | None => Some (mk transaction prunable_hash)
      end
  | V2 _ proofs =>
      match prunable_hash with
      | None => None
      | Some hash => Some (mk transaction (match proofs with None => Some (repeat 0 32) | Some _ => Some hash end))
      end
  end.

(** The error is the actual hash. *)
Definition verify_as_possible (self : t) (hash : bytes) : outcome bytes (Transaction Pruned) :=
  match prunable_hash self with
  | Some prunable_hash =>
      let? actual_hash := Transaction.hash_with_prunable_hash (transaction self) prunable_hash in
      let? actual_hash := expect actual_hash in
      if bytes_eqb actual_hash hash then Ok (transaction self) else Err actual_hash
  | None => Ok (transaction self)
  end.

(** What [new] yields of a pruned transaction which was deserialized *)
Definition ok (x : t) : Prop :=
  transaction_ok (transaction x) /\ new (transaction x) (prunable_hash x) = Some x.
End Ops.
End PrunedTransactionWithPrunableHash.

Module ProvidesUnvalidatedTransactions.
Section Ops.
Context {D : Dalek} {K : Keccak}.
Class t (S : Type) := mk {
  transactions : list bytes -> query S TransactionsError.t (list (Transaction NotPruned));
  pruned_transactions : list bytes -> query S TransactionsError.t (list PrunedTransactionWithPrunableHash.t);
  transaction : bytes -> query S TransactionsError.t (Transaction NotPruned);
  pruned_transaction : bytes -> query S TransactionsError.t PrunedTransactionWithPrunableHash.t
}.

Context {S : Type}.

(** The provided [transactions] and [pruned_transactions] *)
Definition batch_of_single {A} (single : bytes -> query S TransactionsError.t A) (hashes : list bytes)
  : query S TransactionsError.t (list A) := qmap single hashes.

(** The provided [transaction] and [pruned_transaction] *)
Definition single_of_batch {A} (batch : list bytes -> query S TransactionsError.t (list A)) (hash : bytes)
  : query S TransactionsError.t A :=
  let! txs := batch [hash] in
  match txs with
  | [tx] => qret tx
  | _ => qlift (Err (TransactionsError.InterfaceError (InternalError "`{}` returned {} transactions, expected {}")))
  end.

(** An interface which overrides the batch methods only, the single methods only *)
Definition with_batch transactions pruned_transactions : t S :=
  mk S transactions pruned_transactions (single_of_batch transactions) (single_of_batch pruned_transactions).
Definition with_single transaction pruned_transaction : t S :=
  mk S (batch_of_single transaction) (batch_of_single pruned_transaction) transaction pruned_transaction.

End Ops.

Section Laws.
Context {D : Dalek} {DL : DalekLaws D} {S : Type}.
(** The answers are deserialized: nothing else is said of them. *)
Class Deserialized (P : t S) : Prop := {
  transactions_ok hashes : ensures (transactions hashes) (Forall transaction_ok);
  pruned_transactions_ok hashes : ensures (pruned_transactions hashes) (Forall PrunedTransactionWithPrunableHash.ok);
  single_transaction_ok hash : ensures (transaction hash) transaction_ok;
  single_pruned_transaction_ok hash : ensures (pruned_transaction hash) PrunedTransactionWithPrunableHash.ok
}.

Lemma single_ensures {A} (batch : list bytes -> query S TransactionsError.t (list A)) (Q : A -> Prop) hash :
  (forall hashes, ensures (batch hashes) (Forall Q)) -> ensures (single_of_batch batch hash) Q.
Proof.
  intros Hb. apply (ensures_bind (Forall Q)); [apply Hb|]. intros [|tx [|tx' txs]] Htxs; try apply ensures_err.
  apply ensures_ret. exact (Forall_inv Htxs).
Qed.

(** The provided methods keep the promise. *)
Lemma with_batch_deserialized transactions pruned_transactions :
  (forall hashes, ensures (transactions hashes) (Forall transaction_ok)) ->
  (forall hashes, ensures (pruned_transactions hashes) (Forall PrunedTransactionWithPrunableHash.ok)) ->
  Deserialized (with_batch transactions pruned_transactions).
Proof. intros H1 H2. split; cbn; eauto using single_ensures. Qed.

Lemma with_single_deserialized transaction pruned_transaction :
  (forall hash, ensures (transaction hash) transaction_ok) ->
  (forall hash, ensures (pruned_transaction hash) PrunedTransactionWithPrunableHash.ok) ->
  Deserialized (with_single transaction pruned_transaction).
Proof.
  intros H1 H2. split; cbn; auto; intros hashes;
    (eapply ensures_mono; [|apply ensures_map; intros h _; first [apply H1|apply H2]]);
    cbn; intros l Hl; clear -Hl; induction Hl; constructor; auto.
Qed.
End Laws.
End ProvidesUnvalidatedTransactions.

Module ProvidesTransactions.
Section Ops.
Context {D : Dalek} {K : Keccak}.
Class t (S : Type) := mk {
  transactions : list bytes -> query S TransactionsError.t (list (Transaction NotPruned));
  pruned_transactions : list bytes -> query S TransactionsError.t (list (Transaction Pruned));
  transaction : bytes -> query S TransactionsError.t (Transaction NotPruned);
  pruned_transaction : bytes -> query S TransactionsError.t (Transaction Pruned)
}.

Definition invalid {A} (msg : string) : outcome TransactionsError.t A :=
  Err (TransactionsError.InterfaceError (InvalidInterface msg)).

Definition internal {A} (msg : string) : outcome TransactionsError.t A :=
  Err (TransactionsError.InterfaceError (InternalError msg)).

(** The first loop of [validate_pruned_transactions], [i] the amount of
    transactions pushed: those to push, and the indexes and hashes of those of
    version 1 *)
Fixpoint verify_loop (i : nat) (unvalidated : list (PrunedTransactionWithPrunableHash.t * bytes))
  : outcome TransactionsError.t (list (Transaction Pruned) * list nat * list bytes) :=
  match unvalidated with
  | [] => Ok ([], [], [])
  | (tx, expected_hash) :: unvalidated =>
      match PrunedTransactionWithPrunableHash.verify_as_possible tx expected_hash with
      | Ok tx =>
          let? (txs, v1_indexes, v1_hashes) := verify_loop (Datatypes.S i) unvalidated in
          match tx with
          | V1 _ _ => Ok (tx :: txs, i :: v1_indexes, expected_hash :: v1_hashes)
          | V2 _ _ => Ok (tx :: txs, v1_indexes, v1_hashes)
          end
      | Err hash => invalid "interface returned TX {} when {} was requested"
      | Panic => Panic
      end
  end.

(** The second loop, over the full transactions of version 1 *)
Fixpoint compare_loop (txs : list (Transaction Pruned)) (v1_indexes : list nat) (v1_hashes : list bytes)
  (full_txs : list (Transaction NotPruned)) : outcome TransactionsError.t unit :=
  match v1_indexes with
  | [] => Ok tt
  | i :: v1_indexes =>
      let? pruned_tx := expect (txs !! i) in
      match v1_hashes, full_txs with
      | hash :: v1_hashes, tx :: full_txs =>
          if pruned_eqb (Transaction.into_pruned tx) pruned_tx then compare_loop txs v1_indexes v1_hashes full_txs
          else invalid "interface returned pruned V1 TX which didn't match TX {}"
      | _, _ => Ok tt
      end
  end.

(** [transactions] is the method of the interface. *)
Definition validate_pruned_transactions {S}
  (transactions : list bytes -> query S TransactionsError.t (list (Transaction NotPruned)))
  (unvalidated : list PrunedTransactionWithPrunableHash.t) (hashes : list bytes)
  : query S TransactionsError.t (list (Transaction Pruned)) :=
  if negb (length unvalidated =? length hashes)%nat
  then qlift (internal "`{}` returned {} transactions, expected {}")
  else
    let! (txs, v1_indexes, v1_hashes) := qlift (verify_loop 0 (zip unvalidated hashes)) in
    let! _ :=
      match v1_indexes with
      | [] => qret tt
      | _ =>
          let! full_txs := transactions v1_hashes in
          qlift (compare_loop txs v1_indexes v1_hashes full_txs)
      end in
    qret txs.

(** The loop over the transactions returned *)
Fixpoint check_hashes (txs : list (Transaction NotPruned * bytes)) : outcome TransactionsError.t unit :=
  match txs with
  | [] => Ok tt
  | (tx, expected_hash) :: txs =>
      let? hash := Transaction.hash tx in
      if bytes_eqb hash expected_hash then check_hashes txs
      else invalid "interface returned TX {} when {} was requested"
  end.

Section Blanket.
Context {S : Type} (P : ProvidesUnvalidatedTransactions.t S).

Definition blanket_transactions (hashes : list bytes) : query S TransactionsError.t (list (Transaction NotPruned)) :=
  let! txs := ProvidesUnvalidatedTransactions.transactions hashes in
  if negb (length txs =? length hashes)%nat then qlift (internal "`{}` returned {} transactions, expected {}")
  else
    let! _ := qlift (check_hashes (zip txs hashes)) in
    qret txs.

Definition blanket_transaction (hash : bytes) : query S TransactionsError.t (Transaction NotPruned) :=
  let! tx := ProvidesUnvalidatedTransactions.transaction hash in
  let! actual_hash := qlift (Transaction.hash tx) in
  if bytes_eqb actual_hash hash then qret tx
  else qlift (invalid "interface returned TX {} when {} was requested").

Definition blanket_pruned_transactions (hashes : list bytes) : query S TransactionsError.t (list (Transaction Pruned)) :=
  let! unvalidated := ProvidesUnvalidatedTransactions.pruned_transactions hashes in
  validate_pruned_transactions blanket_transactions unvalidated hashes.

(** [swap_remove(0)] panics on an empty [Vec]. *)
Definition blanket_pruned_transaction (hash : bytes) : query S TransactionsError.t (Transaction Pruned) :=
  let! unvalidated := ProvidesUnvalidatedTransactions.pruned_transaction hash in
  let! txs := validate_pruned_transactions blanket_transactions [unvalidated] [hash] in
  qlift (expect (head txs)).

(** [impl<P: ProvidesUnvalidatedTransactions> ProvidesTransactions for P] *)
#[global] Instance blanket : t S :=
  mk S blanket_transactions blanket_pruned_transactions blanket_transaction blanket_pruned_transaction.
End Blanket.
End Ops.

Section Laws.
Context {D : Dalek} {DL : DalekLaws D} {K : Keccak}.

(** What is returned for a hash is a transaction with the hash, or a pruned one
    shown to be of the hash. *)
Class Laws {S} (P : t S) : Prop := {
  transactions_law hashes : ensures (transactions hashes)
    (Forall2 (fun h tx => transaction_ok tx /\ Transaction.hash (E := io_error) tx = Ok h) hashes);
  pruned_transactions_law hashes : ensures (pruned_transactions hashes)
    (Forall2 (fun h tx => exists e, shows e h tx) hashes);
  transaction_law hash : ensures (transaction hash)
    (fun tx => transaction_ok tx /\ Transaction.hash (E := io_error) tx = Ok hash);
  pruned_transaction_law hash : ensures (pruned_transaction hash) (fun tx => exists e, shows e hash tx)
}.

Lemma pruned_hash_ok p (s : option (Proofs (PotentiallyPruned := Pruned))) ph :
  exists h, forall E, Transaction.hash_with_prunable_hash (E := E) (V2 (P := Pruned) p s) ph = Ok (Some h).
Proof. eexists. reflexivity. Qed.

Lemma check_hashes_spec txs hashes : length txs = length hashes ->
  match check_hashes (zip txs hashes) with
  | Ok _ => Forall2 (fun h tx => Transaction.hash (E := io_error) tx = Ok h) hashes txs
  | Err _ => True
  | Panic => False
  end.
Proof.
  revert hashes. induction txs as [|tx txs IH]; intros [|h hashes] [=]; cbn [zip zip_with check_hashes]; [constructor|].
  destruct (tx_hash_total tx) as [h' Hh]. rewrite Hh. cbn [obind]. destruct (bytes_eqb h' h) eqn:Heq; [|exact I].
  apply bytes_eqb_spec in Heq as ->. specialize (IH hashes ltac:(assumption)). destruct (check_hashes _); auto.
Qed.

(** Verifying a pruned transaction of version 2 shows it to be of the hash. *)
Lemma verify_spec x h : PrunedTransactionWithPrunableHash.ok x ->
  match PrunedTransactionWithPrunableHash.verify_as_possible x h with
  | Ok t => transaction_ok t /\ (Transaction.version t = 1 \/ exists e, shows e h t)
  | Err _ => True
  | Panic => False
  end.
Proof.
  intros [Hok Hn]. unfold PrunedTransactionWithPrunableHash.verify_as_possible.
  destruct x as [[p s|p s] ph]; cbn [PrunedTransactionWithPrunableHash.transaction PrunedTransactionWithPrunableHash.prunable_hash
    PrunedTransactionWithPrunableHash.new] in *.
  - destruct ph; [discriminate|]. auto.
  - destruct ph as [ph|]; [|discriminate]. destruct (pruned_hash_ok p s ph) as [h' Hh]. rewrite Hh. cbn [obind expect].
    destruct (bytes_eqb h' h) eqn:Heq; [|exact I]. apply bytes_eqb_spec in Heq as ->.
    split; [exact Hok|]. right. exists (Prunable ph). split; [exact Hok|]. split; [apply Hh|].
    intros ->. injection Hn as <-. reflexivity.
Qed.

(** Once the full transactions of version 1 are those requested, comparing them
    shows every transaction to be of its hash. *)
Lemma verify_compare i unvalidated hashes : length unvalidated = length hashes ->
  Forall PrunedTransactionWithPrunableHash.ok unvalidated ->
  match verify_loop i (zip unvalidated hashes) with
  | Ok (txs, v1_indexes, v1_hashes) =>
      length v1_indexes = length v1_hashes /\
      forall pre full_txs, length pre = i ->
        Forall2 (fun h tx => transaction_ok tx /\ Transaction.hash (E := io_error) tx = Ok h) v1_hashes full_txs ->
        match compare_loop (pre ++ txs) v1_indexes v1_hashes full_txs with
        | Ok _ => Forall2 (fun h tx => exists e, shows e h tx) hashes txs
        | Err _ => True
        | Panic => False
        end
  | Err _ => True
  | Panic => False
  end.
Proof.
  revert i hashes. induction unvalidated as [|x unvalidated IH]; intros i [|h hashes] [=] Hok;
    cbn [zip zip_with verify_loop]; [split; [reflexivity|]; intros; constructor|].
  apply Forall_cons_iff in Hok as [Hx Hok]. pose proof (verify_spec x h Hx) as Hv.
  destruct (PrunedTransactionWithPrunableHash.verify_as_possible x h) as [tx|e|]; [|exact I|exact Hv].
  specialize (IH (S i) hashes ltac:(assumption) Hok).
  destruct (verify_loop (S i) (zip unvalidated hashes)) as [[[txs idx] hs]|e|]; [|exact I|exact IH]. cbn [obind].
  destruct IH as [Hl IH]. destruct Hv as [Hokt Hv].
  assert (Hsh : forall pre : list (Transaction Pruned), pre ++ tx :: txs = (pre ++ [tx]) ++ txs) by (intros; rewrite <- app_assoc; reflexivity).
  destruct tx as [p s|p s].
  - split; [cbn; congruence|]. intros pre fulls Hpre Hf. inversion Hf as [|? full ? fulls' [Hfok Hfh] Hf']; subst. cbn [compare_loop].
    rewrite lookup_app_r, Nat.sub_diag by lia. cbn [lookup list_lookup expect obind].
    destruct (pruned_eqb _ _) eqn:Heq; [|exact I]. apply pruned_eqb_spec in Heq. rewrite Hsh.
    specialize (IH (pre ++ [V1 (P := Pruned) p s]) fulls' ltac:(rewrite length_app; cbn; lia) Hf').
    destruct (compare_loop _ _ _ _); [|exact I|exact IH]. constructor; [|exact IH].
    exists (Full full). split; [exact Hokt|]. auto.
  - split; [cbn; congruence|]. intros pre fulls Hpre Hf. rewrite Hsh.
    specialize (IH (pre ++ [V2 (P := Pruned) p s]) fulls ltac:(rewrite length_app; cbn; lia) Hf).
    destruct (compare_loop _ _ _ _); [|exact I|exact IH]. constructor; [|exact IH].
    destruct Hv as [Hv|Hv]; [discriminate|exact Hv].
Qed.

Section Blanket.
Context {S : Type} (P : ProvidesUnvalidatedTransactions.t S) (HP : ProvidesUnvalidatedTransactions.Deserialized P).

Lemma blanket_transactions_ok hashes : ensures (blanket_transactions P hashes)
  (Forall2 (fun h tx => transaction_ok tx /\ Transaction.hash (E := io_error) tx = Ok h) hashes).
Proof.
  apply (ensures_bind (Forall transaction_ok)); [apply ProvidesUnvalidatedTransactions.transactions_ok|]. intros txs Htxs.
  destruct (Nat.eqb_spec (length txs) (length hashes)) as [Hl|]; cbn [negb]; [|apply ensures_err].
  apply (ensures_bind (fun _ => Forall2 (fun h tx => Transaction.hash (E := io_error) tx = Ok h) hashes txs)).
  - apply ensures_lift, check_hashes_spec, Hl.
  - intros _ Hh. apply ensures_ret. clear Hl. induction Hh; constructor; inversion Htxs; auto.
Qed.

Lemma blanket_transaction_ok hash : ensures (blanket_transaction P hash)
  (fun tx => transaction_ok tx /\ Transaction.hash (E := io_error) tx = Ok hash).
Proof.
  apply (ensures_bind transaction_ok); [apply ProvidesUnvalidatedTransactions.single_transaction_ok|]. intros tx Htx.
  destruct (tx_hash_total tx) as [h Hh]. rewrite Hh.
  apply (ensures_bind (eq h)); [apply ensures_lift; reflexivity|]. intros h' <-.
  destruct (bytes_eqb h hash) eqn:Heq; [|apply ensures_err]. apply bytes_eqb_spec in Heq as ->.
  apply ensures_ret. split; [exact Htx|apply Hh].
Qed.
End Blanket.

(** Whatever provides full transactions by hash, the pruned ones validated are
    shown to be of their hashes. *)
Lemma validate_ok {S} transactions unvalidated hashes :
  (forall hashes, ensures (S := S) (transactions hashes)
    (Forall2 (fun h tx => transaction_ok tx /\ Transaction.hash (E := io_error) tx = Ok h) hashes)) ->
  Forall PrunedTransactionWithPrunableHash.ok unvalidated ->
  ensures (validate_pruned_transactions transactions unvalidated hashes) (Forall2 (fun h tx => exists e, shows e h tx) hashes).
Proof.
  intros Ht Hok. unfold validate_pruned_transactions.
  destruct (Nat.eqb_spec (length unvalidated) (length hashes)) as [Hl|]; cbn [negb]; [|apply ensures_err].
  pose proof (verify_compare 0 unvalidated hashes Hl Hok) as Hv.
  destruct (verify_loop 0 (zip unvalidated hashes)) as [[[txs idx] hs]|e|]; [|apply ensures_err|contradiction].
  apply (ensures_bind (eq (txs, idx, hs))); [apply ensures_lift; reflexivity|]. intros ? <-.
  destruct Hv as [Hi Hv]. specialize (Hv []). cbn [app] in Hv.
  apply (ensures_bind (fun _ => Forall2 (fun h tx => exists e, shows e h tx) hashes txs)).
  - destruct idx as [|i idx].
    + apply ensures_ret. destruct hs; [|discriminate Hi]. exact (Hv [] eq_refl ltac:(constructor)).
    + eapply ensures_bind; [apply Ht|]. intros fulls Hf. specialize (Hv fulls eq_refl Hf).
      apply ensures_lift. destruct (compare_loop txs (i :: idx) hs fulls); auto.
  - intros _ H. apply ensures_ret. exact H.
Qed.

(** The blanket implementation keeps the promise for any interface. *)
#[global] Instance blanket_laws {S} (P : ProvidesUnvalidatedTransactions.t S)
  (HP : ProvidesUnvalidatedTransactions.Deserialized P) : Laws (blanket P).
Proof.
  split; cbn.
  - exact (blanket_transactions_ok P HP).
  - intros hashes. eapply ensures_bind; [apply ProvidesUnvalidatedTransactions.pruned_transactions_ok|].
    intros unvalidated Hu. exact (validate_ok _ _ _ (blanket_transactions_ok P HP) Hu).
  - exact (blanket_transaction_ok P HP).
  - intros hash. eapply ensures_bind; [apply ProvidesUnvalidatedTransactions.single_pruned_transaction_ok|].
    intros x Hx. eapply ensures_bind; [exact (validate_ok _ [x] [hash] (blanket_transactions_ok P HP) ltac:(auto))|].
    intros txs Htxs. inversion Htxs as [|? tx ? ? Htx Hnil]; subst. apply ensures_lift. exact Htx.
Qed.
End Laws.
End ProvidesTransactions.

(** ** The blockchain ([provides_blockchain.rs], [provides_blockchain_meta.rs]) *)

Module ProvidesBlockchainMeta.
Class t (S : Type) := { latest_block_number : query S InterfaceError.t Z }.
End ProvidesBlockchainMeta.

(** The numbers of [start ..= end] *)
Definition numbers (range : Z * Z) : list Z := seqZ (fst range) (snd range - fst range + 1).

(** What a range of [usize]s is *)
Definition usize_range (range : Z * Z) : Prop := U USIZE_BITS (fst range) /\ U USIZE_BITS (snd range).

(** [end.saturating_sub(start).checked_add(1)] *)
Definition expected_blocks (range : Z * Z) : outcome InterfaceError.t Z :=
  let n := Z.max 0 (snd range - fst range) + 1 in
  if 2 ^ USIZE_BITS <=? n then Err (InternalError "amount of blocks requested wasn't representable in a `usize`") else Ok n.

Module ProvidesUnvalidatedBlockchain.
Section Ops.
Context {D : Dalek}.
Class t (S : Type) := mk {
  contiguous_blocks : Z * Z -> query S InterfaceError.t (list Block.t);
  block : bytes -> query S InterfaceError.t Block.t;
  block_by_number : Z -> query S InterfaceError.t Block.t;
  block_hash : Z -> query S InterfaceError.t bytes
}.

(** The provided [contiguous_blocks] and [block_by_number], also those of
    [ProvidesUnvalidatedScannableBlocks] *)
Definition contiguous_of_number {S A} (block_by_number : Z -> query S InterfaceError.t A) (range : Z * Z)
  : query S InterfaceError.t (list A) := qmap block_by_number (numbers range).

Definition number_of_contiguous {S A} (contiguous_blocks : Z * Z -> query S InterfaceError.t (list A)) (number : Z)
  : query S InterfaceError.t A :=
  let! blocks := contiguous_blocks (number, number) in
  match blocks with
  | [block] => qret block
  | _ => qlift (Err (InternalError "`{}` returned {} blocks, expected {}"))
  end.
End Ops.

Section Laws.
Context {D : Dalek} {DL : DalekLaws D}.
Class Deserialized {S} (P : t S) : Prop := {
  contiguous_blocks_ok range : usize_range range -> ensures (contiguous_blocks range) (Forall block_ok);
  block_ok' hash : ensures (block hash) block_ok;
  block_by_number_ok number : U USIZE_BITS number -> ensures (block_by_number number) block_ok;
  block_hash_ok number : ensures (block_hash number) (is_array 32)
}.
End Laws.
End ProvidesUnvalidatedBlockchain.

Module ProvidesBlockchain.
Section Ops.
Context {D : Dalek} {K : Keccak}.
Class t (S : Type) := mk {
  contiguous_blocks : Z * Z -> query S InterfaceError.t (list Block.t);
  block : bytes -> query S InterfaceError.t Block.t;
  block_by_number : Z -> query S InterfaceError.t Block.t;
  block_hash : Z -> query S InterfaceError.t bytes
}.

(** The loop of [sanity_check_contiguous_blocks] *)
Fixpoint sanity_check_loop (parent : option bytes) (blocks : list (Z * Block.t)) : outcome InterfaceError.t unit :=
  match blocks with
  | [] => Ok tt
  | (number, block) :: blocks =>
      let? block_number := Block.number block in
      if negb (block_number =? number) then Err (InvalidInterface "requested block #{number}, received #{}")
      else
        let? block_hash := Block.hash block in
        if match match parent with Some _ => parent | None => if number =? 0 then Some (repeat 0 32) else None end with
           | Some parent => negb (bytes_eqb parent (BlockHeader.previous (Block.header block)))
           | None => false
           end
        then Err (InvalidInterface "interface returned a block which doesn't build on the prior block when requesting a contiguous series")
        else sanity_check_loop (Some block_hash) blocks
  end.

Definition sanity_check_contiguous_blocks (range : Z * Z) (blocks : list Block.t) : outcome InterfaceError.t unit :=
  sanity_check_loop None (zip (numbers range) blocks).

Definition sanity_check_block_by_hash (hash : bytes) (block : Block.t) : outcome InterfaceError.t unit :=
  let? actual_hash := Block.hash block in
  if bytes_eqb actual_hash hash then Ok tt else Err (InvalidInterface "requested block {}, received {}").

Definition sanity_check_block_by_number (number : Z) (block : Block.t) : outcome InterfaceError.t unit :=
  let? block_number := Block.number block in
  if block_number =? number then Ok tt else Err (InvalidInterface "requested block #{number}, received #{}").

(** [impl<P: ProvidesUnvalidatedBlockchain> ProvidesBlockchain for P] *)
#[global] Instance blanket {S} (P : ProvidesUnvalidatedBlockchain.t S) : t S := {
  contiguous_blocks range :=
    let! blocks := ProvidesUnvalidatedBlockchain.contiguous_blocks range in
    let! expected_blocks := qlift (expected_blocks range) in
    if negb (len blocks =? expected_blocks) then qlift (Err (InternalError "`{}` returned {} blocks, expected {}"))
    else
      let! _ := qlift (sanity_check_contiguous_blocks range blocks) in
      qret blocks;
  block hash :=
    let! block := ProvidesUnvalidatedBlockchain.block hash in
    let! _ := qlift (sanity_check_block_by_hash hash block) in
    qret block;
  block_by_number number :=
    let! block := ProvidesUnvalidatedBlockchain.block_by_number number in
    let! _ := qlift (sanity_check_block_by_number number block) in
    qret block;
  block_hash number := ProvidesUnvalidatedBlockchain.block_hash number
}.
End Ops.

Section Laws.
Context {D : Dalek} {DL : DalekLaws D} {K : Keccak}.

(** Blocks which build upon each other, the first numbered [number] and upon [parent] *)
Fixpoint chain (parent : option bytes) (number : Z) (blocks : list Block.t) : Prop :=
  match blocks with
  | [] => True
  | block :: blocks =>
      block_ok block /\ Block.number (E := io_error) block = Ok number /\
      match parent with
      | Some parent => BlockHeader.previous (Block.header block) = parent
      | None => number = 0 -> BlockHeader.previous (Block.header block) = repeat 0 32
      end /\
      exists hash, Block.hash (E := io_error) block = Ok hash /\ chain (Some hash) (number + 1) blocks
  end.

(** A range which isn't empty is returned as a chain of its length. *)
Class Laws {S} (P : t S) : Prop := {
  contiguous_blocks_law first last : usize_range (first, last) -> first <= last ->
    ensures (contiguous_blocks (first, last)) (fun blocks => len blocks = last - first + 1 /\ chain None first blocks);
  block_law hash : ensures (block hash) (fun b => block_ok b /\ Block.hash (E := io_error) b = Ok hash);
  block_by_number_law number : U USIZE_BITS number -> ensures (block_by_number number)
    (fun b => block_ok b /\ Block.number (E := io_error) b = Ok number)
}.

Context {KL : KeccakLaws K}.

Lemma sanity_check_spec parent number blocks : Forall block_ok blocks ->
  match sanity_check_loop parent (zip (seqZ number (len blocks)) blocks) with
  | Ok _ => chain parent number blocks
  | Err _ => True
  | Panic => False
  end.
Proof.
  revert parent number. induction blocks as [|b blocks IH]; intros parent number Hok; [exact I|].
  apply Forall_cons_iff in Hok as [Hb Hok]. rewrite seqZ_cons by (unfold len; cbn; lia). cbn [zip zip_with sanity_check_loop].
  destruct (block_number_total b Hb) as [n Hn], (block_hash_total b Hb) as [h Hh]. rewrite Hn, Hh. cbn [obind].
  destruct (Z.eqb_spec n number) as [->|]; cbn [negb]; [|exact I]. specialize (IH (Some h) (Z.succ number) Hok).
  replace (Z.pred (len (b :: blocks))) with (len blocks) by (unfold len; cbn [length]; lia).
  assert (Hchain : forall p, (match parent with Some q => p = q | None => number = 0 -> p = repeat 0 32 end) ->
    BlockHeader.previous (Block.header b) = p ->
    match sanity_check_loop (Some h) (zip (seqZ (Z.succ number) (len blocks)) blocks) with
    | Ok _ => chain parent number (b :: blocks) | Err _ => True | Panic => False end).
  { intros p Hp Hprev. destruct (sanity_check_loop _ _); [|exact I|exact IH]. cbn [chain]. rewrite Hprev.
    split_and!; auto. exists h. split; [apply Hh|exact IH]. }
  destruct parent as [parent|]; [|destruct (Z.eqb_spec number 0) as [->|]].
  - destruct (bytes_eqb parent _) eqn:Heq; cbn [negb]; [|exact I]. apply bytes_eqb_spec in Heq.
    exact (Hchain parent eq_refl (eq_sym Heq)).
  - destruct (bytes_eqb (repeat 0 32) _) eqn:Heq; cbn [negb]; [|exact I]. apply bytes_eqb_spec in Heq.
    exact (Hchain (repeat 0 32) (fun _ => eq_refl) (eq_sym Heq)).
  - apply (Hchain (BlockHeader.previous (Block.header b))); [contradiction|reflexivity].
Qed.

Lemma by_hash_spec hash b : block_ok b ->
  match sanity_check_block_by_hash hash b with
  | Ok _ => Block.hash (E := io_error) b = Ok hash | Err _ => True | Panic => False end.
Proof.
  intros Hb. unfold sanity_check_block_by_hash. destruct (block_hash_total b Hb) as [h Hh]. rewrite Hh. cbn [obind].
  destruct (bytes_eqb h hash) eqn:Heq; [|exact I]. apply bytes_eqb_spec in Heq as ->. apply Hh.
Qed.

Lemma by_number_spec number b : block_ok b ->
  match sanity_check_block_by_number number b with
  | Ok _ => Block.number (E := io_error) b = Ok number | Err _ => True | Panic => False end.
Proof.
  intros Hb. unfold sanity_check_block_by_number. destruct (block_number_total b Hb) as [n Hn]. rewrite Hn. cbn [obind].
  destruct (Z.eqb_spec n number) as [->|]; [|exact I]. apply Hn.
Qed.

(** The checks of a range, shared with the scannable blocks *)
Lemma range_spec {A} (block_of : A -> Block.t) first last (blocks : list A) : first <= last ->
  Forall (fun a => block_ok (block_of a)) blocks ->
  match expected_blocks (first, last) with
  | Ok n =>
      n = last - first + 1 /\
      (len blocks = n ->
       match sanity_check_contiguous_blocks (first, last) (map block_of blocks) with
       | Ok _ => chain None first (map block_of blocks) | Err _ => True | Panic => False end)
  | Err _ => True
  | Panic => False
  end.
Proof.
  intros Hle Hok. unfold expected_blocks, sanity_check_contiguous_blocks, numbers. cbn [fst snd].
  destruct (_ <=? _); [exact I|]. split; [lia|]. intros Hl.
  replace (last - first + 1) with (len (map block_of blocks)) by (unfold len in *; rewrite length_map; lia).
  apply sanity_check_spec, Forall_map, Hok.
Qed.

#[global] Instance blanket_laws {S} (P : ProvidesUnvalidatedBlockchain.t S)
  (HP : ProvidesUnvalidatedBlockchain.Deserialized P) : Laws (blanket P).
Proof.
  split; cbn.
  - intros first last Hu Hle. eapply ensures_bind; [apply (ProvidesUnvalidatedBlockchain.contiguous_blocks_ok _ Hu)|].
    intros blocks Hok. pose proof (range_spec id first last blocks Hle Hok) as Hr. rewrite map_id in Hr.
    destruct (expected_blocks (first, last)) as [n|e|]; [|apply ensures_err|contradiction].
    apply (ensures_bind (eq n)); [apply ensures_lift; reflexivity|]. intros ? <-.
    destruct (Z.eqb_spec (len blocks) n) as [Hl|]; cbn [negb]; [|apply ensures_err]. destruct Hr as [Hn Hr].
    eapply ensures_bind; [apply ensures_lift, (Hr Hl)|]. intros ? Hc. apply ensures_ret. split; [lia|exact Hc].
  - intros hash. eapply ensures_bind; [apply ProvidesUnvalidatedBlockchain.block_ok'|]. intros b Hb.
    eapply ensures_bind; [apply ensures_lift, (by_hash_spec hash b Hb)|]. intros ? Hh. apply ensures_ret. auto.
  - intros number Hu. eapply ensures_bind; [apply (ProvidesUnvalidatedBlockchain.block_by_number_ok _ Hu)|]. intros b Hb.
    eapply ensures_bind; [apply ensures_lift, (by_number_spec number b Hb)|]. intros ? Hh. apply ensures_ret. auto.
Qed.

(** What the hash of a block commits to *)
Definition contents (b : Block.t) :=
  (Block.header b, Block.transactions b, Transaction.hash (E := io_error) (Block.miner_transaction b)).

Definition chain_inputs (blocks : list Block.t) : list bytes := concat (map block_inputs blocks).

Lemma chain_snoc parent number l b : chain parent number (l ++ [b]) ->
  chain parent number l /\ block_ok b /\
  match list.last l with
  | Some b' => Block.hash (E := io_error) b' = Ok (BlockHeader.previous (Block.header b))
  | None => True
  end.
Proof.
  revert parent number. induction l as [|x l IH]; intros parent number Hc; cbn [app chain] in Hc.
  - destruct Hc as (Hb & _). cbn. auto.
  - destruct Hc as (Hx & Hn & Hp & h & Hh & Hc). destruct (IH _ _ Hc) as (H1 & H2 & H3).
    split; [cbn [chain]; split_and!; eauto|]. split; [exact H2|]. destruct l as [|y l]; [|exact H3].
    cbn [app chain] in Hc. destruct Hc as (_ & _ & Hp' & _). cbn. congruence.
Qed.

(** The hash of the last block of a chain determines the chain. *)
Lemma chain_inj parent parent' number l l' b b' h : chain parent number (l ++ [b]) -> chain parent' number (l' ++ [b']) ->
  length l = length l' -> Block.hash (E := io_error) b = Ok h -> Block.hash (E := io_error) b' = Ok h ->
  map contents (l ++ [b]) = map contents (l' ++ [b']) \/
  collides (chain_inputs (l ++ [b])) (chain_inputs (l' ++ [b'])) \/
  exists x y, x ∈ l ++ [b] /\ y ∈ l' ++ [b'] /\ (replaced x y \/ replaced y x).
Proof.
  revert l' b b' h. induction l as [|x l IH] using rev_ind; intros l' b b' h Hc Hc' Hl Hh Hh';
    (destruct (chain_snoc _ _ _ _ Hc) as (Hcl & Hb & Hlast), (chain_snoc _ _ _ _ Hc') as (Hcl' & Hb' & Hlast'));
    (destruct (block_hash_inj b b' h Hb Hb' Hh Hh') as [(Hhd & Htx & Hm)|[Hcol|Hrep]];
     [|right; left; unfold chain_inputs; rewrite !map_app, !concat_app; cbn [map concat]; rewrite !app_nil_r; apply collides_r, Hcol
      |right; right; exists b, b'; rewrite !elem_of_app; split; [right; left|split; [right; left|exact Hrep]]]).
  - destruct l'; [|discriminate Hl]. left. cbn. unfold contents. congruence.
  - assert (Hne : l' <> []) by (intros ->; rewrite length_app in Hl; cbn in Hl; lia).
    destruct (exists_last Hne) as (l'' & y & ->). clear Hne.
    rewrite !list.last_snoc in *. rewrite !length_app in Hl. cbn in Hl. rewrite Hhd in Hlast.
    destruct (IH l'' x y _ Hcl Hcl' ltac:(lia) Hlast Hlast') as [He|[Hcol|(u & v & Hu & Hv & Hr)]].
    + left. rewrite (map_app _ (l ++ [x])), (map_app _ (l'' ++ [y])), He. cbn. unfold contents. congruence.
    + right; left. unfold chain_inputs in *. rewrite (map_app _ (l ++ [x])), (map_app _ (l'' ++ [y])), !concat_app.
      apply collides_l, Hcol.
    + right; right. exists u, v. rewrite (elem_of_app (l ++ [x])), (elem_of_app (l'' ++ [y])). auto.
Qed.
End Laws.
End ProvidesBlockchain.

(** ** Outputs ([provides_outputs.rs]) *)

Module RingCtOutputInformation.
Section Ops.
Context {D : Dalek}.
Record t := mk {
  block_number : Z;
  unlocked : bool;
  key : CompressedPoint;
  commitment : Point;
  transaction : bytes
}.
End Ops.
End RingCtOutputInformation.

Module ProvidesUnvalidatedOutputs.
Class t {D : Dalek} (S : Type) := mk {
  output_indexes : bytes -> query S InterfaceError.t (list Z);
  ringct_outputs : list Z -> query S InterfaceError.t (list RingCtOutputInformation.t)
}.

(** Indexes are [u64]s, and nothing panics. *)
Class Deserialized {D : Dalek} {S} (P : t S) : Prop := {
  output_indexes_ok hash : ensures (output_indexes hash) (Forall (U 64));
  ringct_outputs_ok indexes : ensures (ringct_outputs indexes) (fun _ => True)
}.
End ProvidesUnvalidatedOutputs.

Module ProvidesOutputs.
Section Ops.
Context {D : Dalek}.
Class t (S : Type) := mk {
  output_indexes : bytes -> query S InterfaceError.t (list Z);
  ringct_outputs : list Z -> query S InterfaceError.t (list RingCtOutputInformation.t)
}.

Class Laws {S} (P : t S) : Prop := {
  output_indexes_law hash : ensures (output_indexes hash) (Forall (U 64));
  ringct_outputs_law indexes : ensures (ringct_outputs indexes) (fun outputs => length outputs = length indexes)
}.

(** [impl<P: ProvidesUnvalidatedOutputs> ProvidesOutputs for P] *)
#[global] Instance blanket {S} (P : ProvidesUnvalidatedOutputs.t S) : t S := {
  output_indexes hash := ProvidesUnvalidatedOutputs.output_indexes hash;
  ringct_outputs indexes :=
    let! outputs := ProvidesUnvalidatedOutputs.ringct_outputs indexes in
    if negb (length outputs =? length indexes)%nat
    then qlift (Err (InternalError "`{}` returned {} outputs, expected {}"))
    else qret outputs
}.

#[global] Instance blanket_laws {S} (P : ProvidesUnvalidatedOutputs.t S)
  (HP : ProvidesUnvalidatedOutputs.Deserialized P) : Laws (blanket P).
Proof.
  split; cbn.
  - apply ProvidesUnvalidatedOutputs.output_indexes_ok.
  - intros indexes. eapply ensures_bind; [apply ProvidesUnvalidatedOutputs.ringct_outputs_ok|]. intros outputs _.
    destruct (Nat.eqb_spec (length outputs) (length indexes)); cbn [negb]; [apply ensures_ret; assumption|apply ensures_err].
Qed.
End Ops.
End ProvidesOutputs.

(** ** Decoys ([provides_decoys.rs]) *)

Inductive EvaluateUnlocked : Type :=
| EvaluateNormal
| FingerprintableDeterministic (block_number : Z).

(** [core::ops::Bound], of a [RangeBounds<usize>] *)
Inductive Bound : Type := Included (n : Z) | Excluded (n : Z) | Unbounded.

Module ProvidesUnvalidatedDecoys.
Class t {D : Dalek} (S : Type) := mk {
  decoys_meta :: ProvidesBlockchainMeta.t S;
  ringct_output_distribution : Bound * Bound -> query S InterfaceError.t (list Z);
  unlocked_ringct_outputs : list Z -> EvaluateUnlocked -> query S TransactionsError.t (list (option (Point * Point)))
}.

(** Amounts of outputs are [u64]s, and nothing panics. *)
Class Deserialized {D : Dalek} {S} (P : t S) : Prop := {
  latest_block_number_ok : ensures (ProvidesBlockchainMeta.latest_block_number (t := decoys_meta)) (U USIZE_BITS);
  ringct_output_distribution_ok range : ensures (ringct_output_distribution range) (Forall (U 64));
  unlocked_ringct_outputs_ok indexes evaluate : ensures (unlocked_ringct_outputs indexes evaluate) (fun _ => True)
}.
End ProvidesUnvalidatedDecoys.

Module ProvidesDecoys.
Section Ops.
Context {D : Dalek}.
Class t (S : Type) := mk {
  decoys_meta :: ProvidesBlockchainMeta.t S;
  ringct_output_distribution : Bound * Bound -> query S InterfaceError.t (list Z);
  unlocked_ringct_outputs : list Z -> EvaluateUnlocked -> query S TransactionsError.t (list (option (Point * Point)))
}.

(** The distribution never decreases, and an answer is given for each output. *)
Fixpoint monotone_from (lo : Z) (l : list Z) : Prop :=
  match l with [] => True | d :: l => lo <= d /\ monotone_from d l end.

Class Laws {S} (P : t S) : Prop := {
  latest_block_number_law : ensures (ProvidesBlockchainMeta.latest_block_number (t := decoys_meta)) (U USIZE_BITS);
  distribution_law range : ensures (ringct_output_distribution range) (fun d => Forall (U 64) d /\ monotone_from 0 d);
  unlocked_law indexes evaluate :
    ensures (unlocked_ringct_outputs indexes evaluate) (fun outputs => length outputs = length indexes)
}.

(** The loop over the distribution *)
Fixpoint check_monotonic (monotonic : Z) (distribution : list Z) : outcome InterfaceError.t unit :=
  match distribution with
  | [] => Ok tt
  | d :: distribution =>
      if d <? monotonic then Err (InvalidInterface "received output distribution didn't increase monotonically")
      else check_monotonic d distribution
  end.

Lemma check_monotonic_spec lo l : match check_monotonic lo l with Ok _ => monotone_from lo l | Err _ => True | Panic => False end.
Proof.
  revert lo. induction l as [|d l IH]; intros lo; cbn [check_monotonic]; [exact I|].
  destruct (Z.ltb_spec d lo); [exact I|]. specialize (IH d). destruct (check_monotonic d l); cbn; auto.
Qed.

(** [impl<P: ProvidesUnvalidatedDecoys> ProvidesDecoys for P] *)
#[global] Instance blanket {S} (P : ProvidesUnvalidatedDecoys.t S) : t S := {
  decoys_meta := ProvidesUnvalidatedDecoys.decoys_meta;
  ringct_output_distribution range :=
    let! distribution := ProvidesUnvalidatedDecoys.ringct_output_distribution range in
    let! _ := qlift (check_monotonic 0 distribution) in
    qret distribution;
  unlocked_ringct_outputs indexes evaluate_unlocked :=
    let! outputs := ProvidesUnvalidatedDecoys.unlocked_ringct_outputs indexes evaluate_unlocked in
    if negb (length outputs =? length indexes)%nat
    then qlift (Err (TransactionsError.InterfaceError (InternalError "`{}` returned {} outputs, expected {}")))
    else qret outputs
}.

#[global] Instance blanket_laws {S} (P : ProvidesUnvalidatedDecoys.t S)
  (HP : ProvidesUnvalidatedDecoys.Deserialized P) : Laws (blanket P).
Proof.
  split; cbn.
  - apply ProvidesUnvalidatedDecoys.latest_block_number_ok.
  - intros range. eapply ensures_bind; [apply ProvidesUnvalidatedDecoys.ringct_output_distribution_ok|]. intros d Hd.
    eapply ensures_bind; [apply ensures_lift, check_monotonic_spec|]. intros ? Hm. apply ensures_ret. auto.
  - intros indexes evaluate. eapply ensures_bind; [apply ProvidesUnvalidatedDecoys.unlocked_ringct_outputs_ok|]. intros outputs _.
    destruct (Nat.eqb_spec (length outputs) (length indexes)); cbn [negb]; [apply ensures_ret; assumption|apply ensures_err].
Qed.
End Ops.
End ProvidesDecoys.

(** ** Scannable blocks ([provides_scannable_blocks.rs]) *)

(** [struct ScannableBlock] *)
Module ScannableBlock.
Section Ops.
Context {D : Dalek}.
Record t := mk {
  block : Block.t;
  transactions : list (Transaction Pruned);
  output_index_for_first_ringct_output : option Z
}.
End Ops.
End ScannableBlock.

(** [struct UnvalidatedScannableBlock] *)
Module UnvalidatedScannableBlock.
Section Ops.
Context {D : Dalek}.
Record t := mk {
  block : Block.t;
  transactions : list PrunedTransactionWithPrunableHash.t;
  output_index_for_first_ringct_output : option Z
}.
End Ops.

(** A scannable block which was deserialized *)
Definition ok {D : Dalek} {DL : DalekLaws D} (x : t) : Prop :=
  block_ok (block x) /\ Forall PrunedTransactionWithPrunableHash.ok (transactions x) /\
  match output_index_for_first_ringct_output x with Some i => U 64 i | None => True end.
End UnvalidatedScannableBlock.

(** The transactions of a scannable block are its block's, by their hashes. *)
Definition scannable_ok {D : Dalek} {DL : DalekLaws D} {K : Keccak} (x : ScannableBlock.t) : Prop :=
  block_ok (ScannableBlock.block x) /\
  Forall2 (fun h tx => exists e, shows e h tx) (Block.transactions (ScannableBlock.block x)) (ScannableBlock.transactions x) /\
  match ScannableBlock.output_index_for_first_ringct_output x with Some i => U 64 i | None => True end.

Module ExpandToScannableBlock.
Section Ops.
Context {D : Dalek} {K : Keccak} {S : Type} (PT : ProvidesTransactions.t S) (PO : ProvidesOutputs.t S).

(** If the transaction creates RingCT outputs *)
Definition creates_ringct (tx : Transaction Pruned) : bool :=
  match tx with
  | V2 prefix _ => match TransactionPrefix.outputs prefix with [] => false | _ => true end
  | V1 _ _ => false
  end.

(** The loop over the transactions *)
Fixpoint first_index (txs : list (bytes * Transaction Pruned)) : query S TransactionsError.t (option Z) :=
  match txs with
  | [] => qret None
  | (hash, tx) :: txs =>
      if negb (creates_ringct tx) then first_index txs
      else
        let! indexes := qmap_err TransactionsError.InterfaceError (ProvidesOutputs.output_indexes hash) in
        match indexes with
        | index :: _ => qret (Some index)
        | [] => qlift (Err (TransactionsError.InterfaceError
                  (InvalidInterface "requested output indexes for a TX with outputs and got none")))
        end
  end.

Definition expand_to_scannable_block (block : Block.t) : query S TransactionsError.t ScannableBlock.t :=
  let! transactions := ProvidesTransactions.pruned_transactions (Block.transactions block) in
  let! miner_tx_hash := qlift (Transaction.hash (Block.miner_transaction block)) in
  let miner_tx := Transaction.into_pruned (Block.miner_transaction block) in
  let! output_index_for_first_ringct_output :=
    first_index ((miner_tx_hash, miner_tx) :: zip (Block.transactions block) transactions) in
  qret (ScannableBlock.mk block transactions output_index_for_first_ringct_output).
End Ops.
End ExpandToScannableBlock.

Module ProvidesUnvalidatedScannableBlocks.
Section Ops.
Context {D : Dalek}.
(** Its provided methods are [contiguous_of_number] and [number_of_contiguous]. *)
Class t (S : Type) := mk {
  contiguous_scannable_blocks : Z * Z -> query S InterfaceError.t (list UnvalidatedScannableBlock.t);
  scannable_block : bytes -> query S InterfaceError.t UnvalidatedScannableBlock.t;
  scannable_block_by_number : Z -> query S InterfaceError.t UnvalidatedScannableBlock.t
}.

Class Deserialized {DL : DalekLaws D} {S} (P : t S) : Prop := {
  contiguous_scannable_blocks_ok range : usize_range range -> ensures (contiguous_scannable_blocks range) (Forall UnvalidatedScannableBlock.ok);
  scannable_block_ok hash : ensures (scannable_block hash) UnvalidatedScannableBlock.ok;
  scannable_block_by_number_ok number : U USIZE_BITS number -> ensures (scannable_block_by_number number) UnvalidatedScannableBlock.ok
}.
End Ops.
End ProvidesUnvalidatedScannableBlocks.

Module ProvidesScannableBlocks.
Section Ops.
Context {D : Dalek} {K : Keccak}.
Class t (S : Type) := mk {
  contiguous_scannable_blocks : Z * Z -> query S InterfaceError.t (list ScannableBlock.t);
  scannable_block : bytes -> query S InterfaceError.t ScannableBlock.t;
  scannable_block_by_number : Z -> query S InterfaceError.t ScannableBlock.t
}.

Definition interface_error (e : TransactionsError.t) : InterfaceError.t :=
  match e with
  | TransactionsError.InterfaceError e => e
  | TransactionsError.TransactionNotFound =>
      InvalidInterface "interface sent us a scannable block it doesn't have the transactions for"
  | TransactionsError.PrunedTransaction =>
      InvalidInterface "interface sent us pruned transaction when validating a scannable block"
  end.

Definition validate_scannable_block {S} (PT : ProvidesTransactions.t S) (block : UnvalidatedScannableBlock.t)
  : query S InterfaceError.t ScannableBlock.t :=
  let! transactions :=
    qmap_err interface_error
      (ProvidesTransactions.validate_pruned_transactions ProvidesTransactions.transactions
         (UnvalidatedScannableBlock.transactions block) (Block.transactions (UnvalidatedScannableBlock.block block))) in
  qret (ScannableBlock.mk (UnvalidatedScannableBlock.block block) transactions
          (UnvalidatedScannableBlock.output_index_for_first_ringct_output block)).

(** [impl<P: ProvidesTransactions + ProvidesUnvalidatedScannableBlocks> ProvidesScannableBlocks for P] *)
#[global] Instance blanket {S} (PT : ProvidesTransactions.t S) (P : ProvidesUnvalidatedScannableBlocks.t S) : t S := {
  contiguous_scannable_blocks range :=
    let! blocks := ProvidesUnvalidatedScannableBlocks.contiguous_scannable_blocks range in
    let! expected_blocks := qlift (expected_blocks range) in
    if negb (len blocks =? expected_blocks) then qlift (Err (InternalError "`{}` returned {} blocks, expected {}"))
    else
      let! _ := qlift (ProvidesBlockchain.sanity_check_contiguous_blocks range (map UnvalidatedScannableBlock.block blocks)) in
      qmap (validate_scannable_block PT) blocks;
  scannable_block hash :=
    let! block := ProvidesUnvalidatedScannableBlocks.scannable_block hash in
    let! _ := qlift (ProvidesBlockchain.sanity_check_block_by_hash hash (UnvalidatedScannableBlock.block block)) in
    validate_scannable_block PT block;
  scannable_block_by_number number :=
    let! block := ProvidesUnvalidatedScannableBlocks.scannable_block_by_number number in
    let! _ := qlift (ProvidesBlockchain.sanity_check_block_by_number number (UnvalidatedScannableBlock.block block)) in
    validate_scannable_block PT block
}.
End Ops.
End ProvidesScannableBlocks.

(** ** Theorems *)

Section Theorems.
Context {D : Dalek} {DL : DalekLaws D} {K : Keccak} {KL : KeccakLaws K}.

Lemma fee_rate_read r : U 64 (FeeRate.per_weight r) -> U 64 (FeeRate.mask r) -> FeeRate.per_weight r <> 0 ->
  FeeRate.mask r <> 0 -> forall rest, FeeRate.read (FeeRate.write r ++ rest) = (Ok r, rest).
Proof.
  intros H1 H2 H3 H4 rest. unfold FeeRate.read, FeeRate.write, read_u64. rewrite <- app_assoc.
  assert (Hc : Codec (E := io_error) (rmap from_le (read_bytes 8)) (to_le 8) (U 64)) by exact (read_le_codec 8).
  erewrite rbind_ok by (apply (codec_rt (Codec := Hc)), H1). erewrite rbind_ok by (apply (codec_rt (Codec := Hc)), H2).
  unfold FeeRate.new. destruct (Z.eqb_spec (FeeRate.per_weight r) 0), (Z.eqb_spec (FeeRate.mask r) 0); try contradiction.
  destruct r. reflexivity.
Qed.

Definition fee_rate_ok (r : FeeRate.t) : Prop :=
  U 64 (FeeRate.per_weight r) /\ U 64 (FeeRate.mask r) /\ FeeRate.per_weight r <> 0 /\ FeeRate.mask r <> 0.

Lemma fee_from_weight r weight : fee_rate_ok r -> U 64 weight ->
  exists fee, (forall E, FeeRate.calculate_fee_from_weight (E := E) r weight = Ok fee) /\ fee < 2 ^ 128 /\
    (exists n, fee = n * FeeRate.mask r) /\
    FeeRate.per_weight r * weight <= fee < FeeRate.per_weight r * weight + FeeRate.mask r.
Proof.
  destruct r as [pw mask]. unfold fee_rate_ok, U. cbn [FeeRate.per_weight FeeRate.mask]. intros (Hp & Hm & Hp0 & Hm0) Hw.
  set (f := pw * weight). assert (Hf : 0 <= f <= (2 ^ 64 - 1) * (2 ^ 64 - 1)) by (unfold f; nia).
  pose proof (Z.div_mod f mask ltac:(lia)) as Hd. pose proof (Z.mod_pos_bound f mask ltac:(lia)) as Hr.
  set (k := if f mod mask =? 0 then f / mask else f / mask + 1).
  assert (Hk : f <= k * mask < f + mask) by (unfold k; destruct (Z.eqb_spec (f mod mask) 0); nia).
  exists (k * mask). split; [|split; [lia|split; [eauto|exact Hk]]].
  intros E. unfold FeeRate.calculate_fee_from_weight, FeeRate.mul_u128, FeeRate.div_ceil. cbn [FeeRate.per_weight FeeRate.mask].
  fold f. destruct (Z.leb_spec (2 ^ 128) f); [lia|]. cbn [obind]. destruct (Z.eqb_spec mask 0); [contradiction|].
  cbn [obind]. fold k. destruct (Z.leb_spec (2 ^ 128) (k * mask)); [lia|reflexivity].
Qed.

(** C39: a fee rate [new] accepts reads back from its serialization, and the fee
    it gives for a weight is computed without overflowing a [u128] or dividing
    by zero: the least multiple of the mask which pays the rate for the whole
    weight.  The weight a fee pays for is the most whose unrounded fee it
    covers, at least the weight the fee was calculated from. *)
Theorem fee_rounds_up per_weight mask r weight : U 64 per_weight -> U 64 mask -> U 64 weight ->
  FeeRate.new per_weight mask = Some r ->
  (forall rest, FeeRate.read (FeeRate.write r ++ rest) = (Ok r, rest)) /\
  exists fee, FeeRate.calculate_fee_from_weight (E := io_error) r weight = Ok fee /\ fee < 2 ^ 128 /\
    (exists n, fee = n * mask) /\ per_weight * weight <= fee < per_weight * weight + mask /\
    (fee < 2 ^ 64 -> exists w, FeeRate.calculate_weight_from_fee (E := io_error) r fee = Ok (Some w) /\
       weight <= w /\ w * per_weight <= fee < (w + 1) * per_weight).
Proof.
  unfold FeeRate.new. intros Hp Hm Hw Hn.
  destruct (Z.eqb_spec per_weight 0), (Z.eqb_spec mask 0); try discriminate. injection Hn as <-.
  split; [apply fee_rate_read; assumption|].
  destruct (fee_from_weight (FeeRate.mk per_weight mask) weight) as (fee & He & H128 & Hmul & Hb); [repeat split; assumption || apply Hp || apply Hm|exact Hw|].
  cbn [FeeRate.per_weight FeeRate.mask] in *. exists fee. split; [apply He|]. split; [exact H128|]. split; [exact Hmul|].
  split; [exact Hb|]. intros H64. unfold FeeRate.calculate_weight_from_fee. cbn [FeeRate.per_weight]. unfold U in *.
  destruct (Z.eqb_spec per_weight 0); [contradiction|].
  pose proof (Z.div_mod fee per_weight ltac:(lia)) as Hd'. pose proof (Z.mod_pos_bound fee per_weight ltac:(lia)).
  assert (Hlt : fee / per_weight < 2 ^ USIZE_BITS).
  { apply Z.div_lt_upper_bound; [lia|]. unfold USIZE_BITS. nia. }
  destruct (Z.leb_spec (2 ^ USIZE_BITS) (fee / per_weight)); [lia|]. eexists. split; [reflexivity|]. nia.
Qed.

(** C32: whatever an untrusted interface answers, the transactions its validated
    methods return are those of the hashes requested.  A pruned transaction
    returned for a hash is the pruned form of the transaction with the hash and
    of its version, unless two of the preimages hashed for the two collide; no
    method panics. *)
Theorem validated_transactions {S} (P : ProvidesUnvalidatedTransactions.t S) :
  ProvidesUnvalidatedTransactions.Deserialized P ->
  ProvidesTransactions.Laws (ProvidesTransactions.blanket P) /\
  forall hashes, ensures (ProvidesTransactions.pruned_transactions (t := ProvidesTransactions.blanket P) hashes)
    (Forall2 (fun h t => exists e, shows e h t /\
       forall tx, transaction_ok tx -> Transaction.hash (E := io_error) tx = Ok h ->
         Transaction.version t = Transaction.version tx ->
         t = Transaction.into_pruned tx \/ collides (evidence_inputs e t) (tx_inputs tx)) hashes).
Proof.
  intros HP. split; [apply _|]. intros hashes. eapply ensures_mono; [|apply ProvidesTransactions.pruned_transactions_law].
  cbn. intros txs Htxs. eapply Forall2_impl; [|exact Htxs]. cbn. intros h t [e He]. exists e. split; [exact He|].
  intros tx. exact (shows_pruned e h t tx He).
Qed.

(** C33: whatever an untrusted interface answers for a range which isn't empty,
    the blocks its validated method returns are a chain: as many as requested,
    with the numbers requested, each built upon the prior one, the genesis
    block upon nothing.  Two interfaces whose last blocks have the same hash
    return blocks with the same headers and transactions, unless preimages
    hashed for the blocks collide or one is that of block 202612, whose hash
    is replaced. *)
Theorem contiguous_blocks_chain {S S'} (P : ProvidesUnvalidatedBlockchain.t S) (P' : ProvidesUnvalidatedBlockchain.t S')
  first last : ProvidesUnvalidatedBlockchain.Deserialized P -> ProvidesUnvalidatedBlockchain.Deserialized P' ->
  usize_range (first, last) -> first <= last ->
  let get {T} (Q : ProvidesUnvalidatedBlockchain.t T) :=
    ProvidesBlockchain.contiguous_blocks (t := ProvidesBlockchain.blanket Q) (first, last) in
  ensures (get P) (fun blocks => len blocks = last - first + 1 /\ ProvidesBlockchain.chain None first blocks) /\
  forall s blocks b s1 s' blocks' b' s1' h,
    get P s = (Ok (blocks ++ [b]), s1) -> get P' s' = (Ok (blocks' ++ [b']), s1') ->
    Block.hash (E := io_error) b = Ok h -> Block.hash (E := io_error) b' = Ok h ->
    map ProvidesBlockchain.contents (blocks ++ [b]) = map ProvidesBlockchain.contents (blocks' ++ [b']) \/
    collides (ProvidesBlockchain.chain_inputs (blocks ++ [b])) (ProvidesBlockchain.chain_inputs (blocks' ++ [b'])) \/
    exists x y, x ∈ blocks ++ [b] /\ y ∈ blocks' ++ [b'] /\ (replaced x y \/ replaced y x).
Proof.
  intros HP HP' Hu Hle get. pose proof (ProvidesBlockchain.contiguous_blocks_law (P := ProvidesBlockchain.blanket P) first last Hu Hle) as H1.
  pose proof (ProvidesBlockchain.contiguous_blocks_law (P := ProvidesBlockchain.blanket P') first last Hu Hle) as H2.
  split; [exact H1|]. intros s blocks b s1 s' blocks' b' s1' h Hg Hg'.
  destruct (ensures_ok _ _ _ _ _ H1 Hg) as [Hl Hc], (ensures_ok _ _ _ _ _ H2 Hg') as [Hl' Hc'].
  apply (ProvidesBlockchain.chain_inj _ _ _ _ _ _ _ _ Hc Hc'). unfold len in *. rewrite !length_app in *. cbn in *. lia.
Qed.

Lemma Exists_snd_zip {A B} (Q : B -> Prop) (l : list A) (l' : list B) : length l = length l' ->
  Exists (fun x => Q (snd x)) (zip l l') <-> Exists Q l'.
Proof.
  revert l'. induction l as [|a l IH]; intros [|b l'] [=]; cbn [zip zip_with]; rewrite ?Exists_nil, ?Exists_cons; [reflexivity|].
  rewrite IH by assumption. reflexivity.
Qed.

(** Facts about scannable blocks, for any interface which keeps its laws *)
Section Scannable.
Context {S : Type} (PT : ProvidesTransactions.t S) (HPT : ProvidesTransactions.Laws PT).

Lemma validate_scannable_ok x : UnvalidatedScannableBlock.ok x ->
  ensures (ProvidesScannableBlocks.validate_scannable_block PT x)
    (fun y => scannable_ok y /\ ScannableBlock.block y = UnvalidatedScannableBlock.block x).
Proof.
  intros (Hb & Ht & Hi). unfold ProvidesScannableBlocks.validate_scannable_block.
  eapply ensures_bind; [apply ensures_map_err, (ProvidesTransactions.validate_ok _ _ _ (ProvidesTransactions.transactions_law (P := PT)) Ht)|].
  intros txs Htxs. apply ensures_ret. split; [|reflexivity]. split_and!; assumption.
Qed.

Lemma scannable_by_hash_ok (P : ProvidesUnvalidatedScannableBlocks.t S) : ProvidesUnvalidatedScannableBlocks.Deserialized P ->
  forall hash, ensures (ProvidesScannableBlocks.scannable_block (t := ProvidesScannableBlocks.blanket PT P) hash)
    (fun x => scannable_ok x /\ Block.hash (E := io_error) (ScannableBlock.block x) = Ok hash).
Proof.
  intros HP hash. cbn. eapply ensures_bind; [apply ProvidesUnvalidatedScannableBlocks.scannable_block_ok|]. intros x Hx.
  eapply ensures_bind; [apply ensures_lift, (ProvidesBlockchain.by_hash_spec hash _ (proj1 Hx))|]. intros ? Hh.
  eapply ensures_mono; [|exact (validate_scannable_ok x Hx)]. cbn. intros y [H1 ->]. auto.
Qed.

Lemma first_index_ok (PO : ProvidesOutputs.t S) (HPO : ProvidesOutputs.Laws PO) txs :
  ensures (ExpandToScannableBlock.first_index PO txs) (fun i =>
    match i with Some i => U 64 i | None => True end /\
    (is_Some i <-> Exists (fun x => ExpandToScannableBlock.creates_ringct (snd x) = true) txs)).
Proof.
  induction txs as [|[hash tx] txs IH]; cbn [ExpandToScannableBlock.first_index].
  - apply ensures_ret. split; [exact I|]. rewrite Exists_nil. split; [intros [? [=]]|contradiction].
  - destruct (ExpandToScannableBlock.creates_ringct tx) eqn:Hc; cbn [negb].
    + eapply ensures_bind; [apply ensures_map_err, ProvidesOutputs.output_indexes_law|].
      intros [|i indexes] Hi; [apply ensures_err|]. apply ensures_ret. split; [exact (Forall_inv Hi)|].
      split; [intros _; left; exact Hc|eauto].
    + eapply ensures_mono; [|exact IH]. cbn. intros i [H1 H2]. split; [exact H1|]. rewrite H2, Exists_cons. cbn.
      split; [auto|]. intros [H|H]; [congruence|exact H].
Qed.
End Scannable.

(** C34: for any interfaces which provide transactions and outputs as their laws
    say, and any interface which provides unvalidated scannable blocks, every
    scannable block returned has the transactions its block lists, each shown
    to be of its hash: the one requested by its hash or its number, those of a
    range as a chain, and the one a block is expanded to, which has an index
    for its first RingCT output exactly if one of its transactions creates
    some.  Nothing panics. *)
Theorem scannable_blocks_validated {S} (PT : ProvidesTransactions.t S) (PO : ProvidesOutputs.t S)
  (P : ProvidesUnvalidatedScannableBlocks.t S) : ProvidesTransactions.Laws PT -> ProvidesOutputs.Laws PO ->
  ProvidesUnvalidatedScannableBlocks.Deserialized P ->
  let B := ProvidesScannableBlocks.blanket PT P in
  (forall hash, ensures (ProvidesScannableBlocks.scannable_block (t := B) hash)
     (fun x => scannable_ok x /\ Block.hash (E := io_error) (ScannableBlock.block x) = Ok hash)) /\
  (forall number, U USIZE_BITS number -> ensures (ProvidesScannableBlocks.scannable_block_by_number (t := B) number)
     (fun x => scannable_ok x /\ Block.number (E := io_error) (ScannableBlock.block x) = Ok number)) /\
  (forall first last, usize_range (first, last) -> first <= last -> ensures (ProvidesScannableBlocks.contiguous_scannable_blocks (t := B) (first, last))
     (fun l => Forall scannable_ok l /\ len l = last - first + 1 /\
               ProvidesBlockchain.chain None first (map ScannableBlock.block l))) /\
  forall b, block_ok b -> ensures (ExpandToScannableBlock.expand_to_scannable_block PT PO b)
    (fun x => scannable_ok x /\ ScannableBlock.block x = b /\
       (is_Some (ScannableBlock.output_index_for_first_ringct_output x) <->
        Exists (fun tx => ExpandToScannableBlock.creates_ringct tx = true)
          (Transaction.into_pruned (Block.miner_transaction b) :: ScannableBlock.transactions x))).
Proof.
  intros HPT HPO HP B. split_and!; [exact (scannable_by_hash_ok PT HPT P HP)|..]; cbn.
  - intros number Hu. eapply ensures_bind; [apply (ProvidesUnvalidatedScannableBlocks.scannable_block_by_number_ok _ Hu)|]. intros x Hx.
    eapply ensures_bind; [apply ensures_lift, (ProvidesBlockchain.by_number_spec number _ (proj1 Hx))|]. intros ? Hh.
    eapply ensures_mono; [|exact (validate_scannable_ok PT HPT x Hx)]. cbn. intros y [H1 ->]. auto.
  - intros first last Hu Hle.
    eapply ensures_bind; [apply (ProvidesUnvalidatedScannableBlocks.contiguous_scannable_blocks_ok _ Hu)|]. intros blocks Hok.
    assert (Hb : Forall (fun x => block_ok (UnvalidatedScannableBlock.block x)) blocks)
      by (eapply list.Forall_impl; [exact Hok|]; intros x Hx; apply Hx).
    pose proof (ProvidesBlockchain.range_spec UnvalidatedScannableBlock.block first last blocks Hle Hb) as Hr.
    destruct (expected_blocks (first, last)) as [n|e|]; [|apply ensures_err|contradiction].
    apply (ensures_bind (eq n)); [apply ensures_lift; reflexivity|]. intros ? <-.
    destruct (Z.eqb_spec (len blocks) n) as [Hl|]; cbn [negb]; [|apply ensures_err]. destruct Hr as [Hn Hr].
    eapply ensures_bind; [apply ensures_lift, (Hr Hl)|]. intros ? Hc.
    eapply ensures_mono; [|apply (ensures_map (fun x y => scannable_ok y /\
      ScannableBlock.block y = UnvalidatedScannableBlock.block x)); intros x Hx; apply validate_scannable_ok; [exact HPT|]].
    + cbn. intros l Hf. clear Hr Hok Hb. assert (Hm : map ScannableBlock.block l = map UnvalidatedScannableBlock.block blocks).
      { clear -Hf. induction Hf as [|x y ? ? [_ He]]; cbn; congruence. }
      rewrite Hm. split; [|split; [|exact Hc]].
      * clear -Hf. induction Hf as [|x y ? ? [H1 _]]; constructor; assumption.
      * apply list.Forall2_length in Hf. unfold len in *. lia.
    + rewrite list.Forall_forall in Hok. apply Hok, Hx.
  - intros b Hb. unfold ExpandToScannableBlock.expand_to_scannable_block.
    eapply ensures_bind; [apply ProvidesTransactions.pruned_transactions_law|]. intros txs Htxs.
    destruct (tx_hash_total (Block.miner_transaction b)) as [h Hh]. rewrite Hh.
    apply (ensures_bind (eq h)); [apply ensures_lift; reflexivity|]. intros ? <-. cbv zeta.
    eapply ensures_bind; [exact (first_index_ok PO HPO _)|]. cbn beta. intros i [Hi1 Hi2]. apply ensures_ret.
    split; [split_and!; assumption|]. split; [reflexivity|]. cbn [ScannableBlock.output_index_for_first_ringct_output
      ScannableBlock.transactions]. rewrite Hi2, !Exists_cons. cbn [snd]. apply or_iff_compat_l.
    rewrite <- (Exists_snd_zip _ (Block.transactions b) txs); [reflexivity|]. exact (list.Forall2_length _ _ _ Htxs).
Qed.

(** An empty range is expected to have a block, which is then returned without
    any of the checks: there are no numbers to check it against. *)
Lemma empty_range_unchecked {S} (P : ProvidesUnvalidatedBlockchain.t S) first last s blocks s' : last < first ->
  ProvidesUnvalidatedBlockchain.contiguous_blocks (first, last) s = (Ok blocks, s') ->
  ProvidesBlockchain.contiguous_blocks (t := ProvidesBlockchain.blanket P) (first, last) s =
    (match blocks with [b] => Ok [b] | _ => Err (InternalError "`{}` returned {} blocks, expected {}") end, s').
Proof.
  intros Hlt Hb. cbn. unfold qbind at 1. rewrite Hb. unfold expected_blocks, numbers, ProvidesBlockchain.sanity_check_contiguous_blocks,
    qbind, qlift, qret. cbn [fst snd]. replace (Z.max 0 (last - first) + 1) with 1 by lia. cbn [Z.leb].
  unfold numbers. cbn [fst snd]. rewrite seqZ_nil by lia. destruct blocks as [|b [|b' blocks]]; try reflexivity.
  change (2 ^ USIZE_BITS <=? 1) with false. cbv iota.
  destruct (Z.eqb_spec (len (b :: b' :: blocks)) 1) as [H|]; [unfold len in H; cbn in H; lia|reflexivity].
Qed.
End Theorems.

Section Witness.
Import Model.

(** The comment in [calculate_fee_from_weight] bounds the fee by
    [u64::MAX^2 - u64::MAX]. *)
Example fee_above_comment :
  FeeRate.calculate_fee_from_weight (E := io_error) (FeeRate.mk (2 ^ 64 - 1) 1) (2 ^ 64 - 1) = Ok ((2 ^ 64 - 1) ^ 2) /\
  (2 ^ 64 - 1) ^ 2 - (2 ^ 64 - 1) < (2 ^ 64 - 1) ^ 2.
Proof. split; reflexivity. Qed.

Lemma fee_rounds_up_witness : exists fee,
  FeeRate.calculate_fee_from_weight (E := io_error) (FeeRate.mk 20001 10000) 2222 = Ok fee /\ 20001 * 2222 <= fee.
Proof.
  destruct (fee_rounds_up 20001 10000 (FeeRate.mk 20001 10000) 2222) as [_ (fee & H1 & _ & _ & H2 & _)];
    [unfold U; lia..|reflexivity|]. exists fee. split; [exact H1|lia].
Defined.

Definition example_transactions : ProvidesUnvalidatedTransactions.t unit :=
  ProvidesUnvalidatedTransactions.with_single (fun _ => qret example_tx)
    (fun _ => qret (PrunedTransactionWithPrunableHash.mk (Transaction.into_pruned example_tx) None)).

Lemma example_deserialized : ProvidesUnvalidatedTransactions.Deserialized example_transactions.
Proof.
  apply ProvidesUnvalidatedTransactions.with_single_deserialized; intros hash; apply ensures_ret; [exact example_tx_ok|].
  split; [apply (into_pruned_ok (DL := dalek_laws)), example_tx_ok|reflexivity].
Qed.

Definition example_hash : bytes := match Transaction.hash (E := io_error) example_tx with Ok h => h | _ => [] end.

(** The transaction is returned for its hash, and shown to be of it. *)
Lemma validated_transactions_witness : exists txs t, fst (ProvidesTransactions.pruned_transactions
    (t := ProvidesTransactions.blanket example_transactions) [example_hash] tt) = Ok txs /\ In t txs /\
  exists e, shows e example_hash t.
Proof.
  destruct (validated_transactions (DL := dalek_laws) example_transactions example_deserialized) as [_ H].
  specialize (H [example_hash] tt).
  assert (match fst (ProvidesTransactions.pruned_transactions (t := ProvidesTransactions.blanket example_transactions)
    [example_hash] tt) with Ok _ => true | _ => false end = true) as Hb by (vm_compute; reflexivity).
  destruct (fst (ProvidesTransactions.pruned_transactions [example_hash] tt)) as [txs|e|]; [|discriminate Hb..].
  inversion H as [|h t hs ts (e & He & _) Hnil]; subst. exists (t :: ts), t. split; [reflexivity|]. split; [left; reflexivity|].
  exists e. exact He.
Defined.

Definition genesis_block : Block.t := Block.mk (BlockHeader.mk 16 16 1700000000 (repeat 0 32) 99) example_miner_tx [].

Lemma genesis_block_ok : block_ok genesis_block.
Proof.
  destruct example_block_ok as (_ & H2 & H3 & _). split; [split_and!; cbn; decide_now|]. split; [exact H2|].
  split; [exact H3|]. split; [constructor|reflexivity].
Qed.

Definition example_blocks : ProvidesUnvalidatedBlockchain.t unit :=
  ProvidesUnvalidatedBlockchain.mk unit (fun _ => qret [genesis_block]) (fun _ => qret genesis_block) (fun _ => qret genesis_block)
    (fun _ => qret (repeat 0 32)).

Lemma contiguous_blocks_chain_witness : exists blocks, fst (ProvidesBlockchain.contiguous_blocks
    (t := ProvidesBlockchain.blanket example_blocks) (0, 0) tt) = Ok blocks /\ ProvidesBlockchain.chain None 0 blocks.
Proof.
  assert (Hd : ProvidesUnvalidatedBlockchain.Deserialized example_blocks).
  { split; intros; apply ensures_ret; [constructor; [|constructor]| | |decide_now]; exact genesis_block_ok. }
  destruct (contiguous_blocks_chain (DL := dalek_laws) (KL := keccak_laws) example_blocks example_blocks 0 0 Hd Hd ltac:(split; decide_now) ltac:(lia)) as [H _].
  specialize (H tt).
  assert (match fst (ProvidesBlockchain.contiguous_blocks (t := ProvidesBlockchain.blanket example_blocks) (0, 0) tt) with
          Ok _ => true | _ => false end = true) as Hb by (vm_compute; reflexivity).
  destruct (fst (ProvidesBlockchain.contiguous_blocks (0, 0) tt)) as [blocks|e|]; [|discriminate Hb..].
  exists blocks. split; [reflexivity|exact (proj2 H)].
Defined.

Definition example_outputs : ProvidesUnvalidatedOutputs.t unit :=
  ProvidesUnvalidatedOutputs.mk _ unit (fun _ => qret [3]) (fun _ => qret []).

Definition example_scannable : ProvidesUnvalidatedScannableBlocks.t unit :=
  let x := UnvalidatedScannableBlock.mk genesis_block [] (Some 3) in
  ProvidesUnvalidatedScannableBlocks.mk unit (fun _ => qret [x]) (fun _ => qret x) (fun _ => qret x).

Lemma scannable_blocks_validated_witness : exists x, fst (ProvidesScannableBlocks.scannable_block_by_number
    (t := ProvidesScannableBlocks.blanket (ProvidesTransactions.blanket example_transactions) example_scannable) 0 tt) = Ok x /\
  scannable_ok x.
Proof.
  assert (Ho : ProvidesUnvalidatedOutputs.Deserialized example_outputs).
  { split; intros; apply ensures_ret; [constructor; [unfold U; lia|constructor]|exact I]. }
  assert (Hx : UnvalidatedScannableBlock.ok (UnvalidatedScannableBlock.mk genesis_block [] (Some 3))).
  { split; [exact genesis_block_ok|]. split; [constructor|unfold U; cbn; lia]. }
  assert (Hd : ProvidesUnvalidatedScannableBlocks.Deserialized example_scannable).
  { split; intros; apply ensures_ret; [constructor; [|constructor]| |]; exact Hx. }
  destruct (scannable_blocks_validated (DL := dalek_laws) (KL := keccak_laws) (ProvidesTransactions.blanket example_transactions)
    (ProvidesOutputs.blanket example_outputs) example_scannable
    (ProvidesTransactions.blanket_laws example_transactions example_deserialized)
    (ProvidesOutputs.blanket_laws example_outputs Ho) Hd) as (_ & H & _).
  specialize (H 0 ltac:(decide_now) tt).
  assert (match fst (ProvidesScannableBlocks.scannable_block_by_number
    (t := ProvidesScannableBlocks.blanket (ProvidesTransactions.blanket example_transactions) example_scannable) 0 tt) with
          Ok _ => true | _ => false end = true) as Hb by (vm_compute; reflexivity).
  destruct (fst (ProvidesScannableBlocks.scannable_block_by_number 0 tt)) as [x|e|]; [|discriminate Hb..].
  exists x. split; [reflexivity|exact (proj1 H)].
Defined.
End Witness.
