(* ===== verification/Base58.v ===== *)
(** The [monero-base58] crate ([wallet/base58/src/lib.rs]): Monero's block-wise
    Base58 and its checksummed form.  Strings are the bytes of their ASCII
    characters. *)

From Stdlib Require Import ZArith Lia.
From stdpp Require Import base list strings numbers.
From S2P Require Import Prelude Dalek MoneroIo Ed25519.

Definition ALPHABET_LEN : Z := 58.
Definition ALPHABET : bytes :=
  [49; 50; 51; 52; 53; 54; 55; 56; 57; 65; 66; 67; 68; 69; 70; 71; 72; 74; 75; 76;
   77; 78; 80; 81; 82; 83; 84; 85; 86; 87; 88; 89; 90; 97; 98; 99; 100; 101; 102; 103;
   104; 105; 106; 107; 109; 110; 111; 112; 113; 114; 115; 116; 117; 118; 119; 120; 121; 122].
Definition BLOCK_LEN : nat := 8.
Definition ENCODED_BLOCK_LEN : nat := 11.
Definition CHECKSUM_LEN : nat := 4.

(** [slice::chunks] *)
Fixpoint chunks_loop {A} (fuel n : nat) (l : list A) : list (list A) :=
  match fuel, l with
  | S fuel', _ :: _ => take n l :: chunks_loop fuel' n (drop n l)
  | _, _ => []
  end.
Definition chunks {A} (n : nat) (l : list A) : list (list A) := chunks_loop (length l) n l.

(** The [while max != 0] loop of [encoded_len_for_bytes] *)
Fixpoint encoded_len_loop {E} (fuel : nat) (max : Z) (i : nat) : outcome E nat :=
  if max =? 0 then Ok i
  else
    match fuel with
    | O => Panic
    | S fuel' => encoded_len_loop fuel' (max / ALPHABET_LEN) (S i)
    end.

(** [encoded_len_for_bytes]: the shift overflows past eight bytes; 64 rounds
    are more than a [u64] needs. *)
Definition encoded_len_for_bytes {E} (bytes : nat) : outcome E nat :=
  let bits := Z.of_nat bytes * 8 in
  if 64 <? bits then Panic
  else
    let max := if bits =? 64 then U64_MAX else Z.shiftl 1 bits - 1 in
    encoded_len_loop 64 max 0.

(** The [while val > 0] loop of [encode] *)
Fixpoint encode_loop {E} (fuel : nat) (val : Z) (i : nat) (chunk_str : bytes) : outcome E bytes :=
  if val <=? 0 then Ok chunk_str
  else
    match fuel with
    | O => Panic
    | S fuel' =>
        let? c := expect (ALPHABET !! Z.to_nat (val mod ALPHABET_LEN)) in
        if (i <? length chunk_str)%nat then
          encode_loop fuel' (val / ALPHABET_LEN) (S i) (<[i := c]> chunk_str)
        else Panic
    end.

(** The body of [encode]'s loop over the chunks *)
Definition encode_chunk {E} (chunk : bytes) : outcome E bytes :=
  if (BLOCK_LEN <? length chunk)%nat then Panic
  else
    let fixed_len_chunk := repeat 0 (BLOCK_LEN - length chunk) ++ chunk in
    let val := from_le (rev fixed_len_chunk) in
    let? one := expect (ALPHABET !! 0%nat) in
    let chunk_str := repeat one ENCODED_BLOCK_LEN in
    let? chunk_str := encode_loop 64 val 0 chunk_str in
    let? n := encoded_len_for_bytes (length chunk) in
    Ok (rev (take n chunk_str)).

(** A loop over chunks that extends its result with each *)
Fixpoint extend_each {E} (f : bytes -> outcome E bytes) (cs : list bytes) : outcome E bytes :=
  match cs with
  | [] => Ok []
  | c :: cs' =>
      let? r := f c in
      let? rest := extend_each f cs' in
      Ok (r ++ rest)
  end.

(** [encode] *)
Definition encode {E} (data : bytes) : outcome E bytes := extend_each encode_chunk (chunks BLOCK_LEN data).

(** [ALPHABET.iter().position(|a| a == this_char)] *)
Fixpoint position (this_char : Z) (l : bytes) : option Z :=
  match l with
  | [] => None
  | a :: l' =>
      if a =? this_char then Some 0
      else match position this_char l' with Some i => Some (i + 1) | None => None end
  end.

(** The loop of [decode] over a chunk's characters, with checked arithmetic *)
Fixpoint sum_loop (sum : Z) (chunk : bytes) : option Z :=
  match chunk with
  | [] => Some sum
  | this_char :: chunk' =>
      let sum := sum * ALPHABET_LEN in
      if 2 ^ 64 <=? sum then None
      else
        match position this_char ALPHABET with
        | None => None
        | Some p => if 2 ^ 64 <=? sum + p then None else sum_loop (sum + p) chunk'
        end
  end.

(** The search for the amount of bytes an encoding of this length uses *)
Fixpoint used_bytes {E} (len : nat) (candidates : list nat) : outcome E (option nat) :=
  match candidates with
  | [] => Ok None
  | i :: candidates' =>
      let? n := encoded_len_for_bytes i in
      if (n =? len)%nat then Ok (Some i) else used_bytes len candidates'
  end.

(** The error of the [Option] a chunk makes [decode] return, as a unit *)
Definition decode_chunk (chunk : bytes) : outcome unit bytes :=
  let? sum := ok_or (sum_loop 0 chunk) tt in
  let? used := used_bytes (length chunk) (seq 1 BLOCK_LEN) in
  let? used := ok_or used tt in
  let bytes := rev (to_le 8 sum) in
  let unused_bytes := (BLOCK_LEN - used)%nat in
  if forallb (fun b => b =? 0) (take unused_bytes bytes) then Ok (drop unused_bytes bytes)
  else Err tt.

(** [decode]: [None] is the unit error *)
Definition decode (data : bytes) : outcome unit bytes := extend_each decode_chunk (chunks ENCODED_BLOCK_LEN data).

Section Check.
Context {K : Keccak}.

(** [encode_check] *)
Definition encode_check {E} (data : bytes) : outcome E bytes :=
  let checksum := keccak256 data in
  encode (data ++ take CHECKSUM_LEN checksum).

(** [decode_check] *)
Definition decode_check (data : bytes) : outcome unit bytes :=
  let? res := decode data in
  if (length res <? CHECKSUM_LEN)%nat then Err tt
  else
    let checksum_pos := (length res - CHECKSUM_LEN)%nat in
    if negb (bytes_eqb (take CHECKSUM_LEN (keccak256 (take checksum_pos res))) (drop checksum_pos res))
    then Err tt
    else Ok (take checksum_pos res).
End Check.

(** ** Digits *)

Section Digits.
Fixpoint to58 (n : nat) (v : Z) : list Z :=
  match n with O => [] | S n' => v mod 58 :: to58 n' (v / 58) end.

Definition horner (sum : Z) (ds : list Z) : Z := foldl (fun a d => a * 58 + d) sum ds.

Definition alpha (d : Z) : Z := ALPHABET !!! Z.to_nat d.

Definition is_digit (d : Z) : Prop := 0 <= d < 58.

Lemma to58_length n v : length (to58 n v) = n.
Proof. revert v. induction n; cbn; auto. Qed.

Lemma to58_digits n v : Forall is_digit (to58 n v).
Proof. revert v. induction n; cbn; constructor; auto. apply Z.mod_pos_bound. lia. Qed.

Lemma to58_zero n : to58 n 0 = repeat 0 n.
Proof. induction n; cbn; [reflexivity|]. f_equal. exact IHn. Qed.

Lemma horner_to58 n v : 0 <= v < 58 ^ Z.of_nat n -> horner 0 (rev (to58 n v)) = v.
Proof.
  revert v. induction n as [|n IH]; intros v Hv; [cbn in Hv; cbn; lia|].
  rewrite Nat2Z.inj_succ, Z.pow_succ_r in Hv by lia. cbn [to58 rev]. unfold horner. rewrite foldl_app. cbn [foldl].
  fold (horner 0 (rev (to58 n (v / 58)))). rewrite IH.
  - pose proof (Z.div_mod v 58). lia.
  - split; [apply Z.div_pos; lia|apply Z.div_lt_upper_bound; lia].
Qed.

Lemma horner_split sum ds : horner sum ds = sum * 58 ^ len ds + horner 0 ds.
Proof.
  revert sum. induction ds as [|d ds IH]; intros sum; [unfold len; cbn; lia|].
  cbn [horner foldl]. fold (horner (sum * 58 + d) ds) (horner (0 * 58 + d) ds). rewrite IH, (IH (0 * 58 + d)).
  unfold len. cbn [length]. rewrite Nat2Z.inj_succ, Z.pow_succ_r by lia. ring.
Qed.

Lemma horner_bound ds : Forall is_digit ds -> 0 <= horner 0 ds < 58 ^ len ds.
Proof.
  induction 1 as [|d ds Hd _ IH]; [unfold len; cbn; lia|]. cbn [horner foldl]. fold (horner (0 * 58 + d) ds).
  rewrite horner_split. unfold len in *. cbn [length]. rewrite Nat2Z.inj_succ, Z.pow_succ_r by lia.
  unfold is_digit in Hd. nia.
Qed.

Lemma to58_horner ds : Forall is_digit ds -> to58 (length ds) (horner 0 ds) = rev ds.
Proof.
  induction ds as [|d ds IH] using rev_ind; [reflexivity|]. rewrite Forall_app. intros [Hds Hd%Forall_inv].
  rewrite length_app, Nat.add_1_r, rev_app_distr. cbn [rev app to58]. unfold horner. rewrite foldl_app. cbn [foldl].
  fold (horner 0 ds). unfold is_digit in Hd. f_equal.
  - rewrite Z.add_comm, Z.mod_add, Z.mod_small by lia. reflexivity.
  - rewrite Z.div_add_l, Z.div_small, Z.add_0_r by lia. apply IH, Hds.
Qed.

Lemma alpha_lookup d : is_digit d -> ALPHABET !! Z.to_nat d = Some (alpha d).
Proof.
  intros Hd. apply list_lookup_lookup_total_lt. change (length ALPHABET) with 58%nat. unfold is_digit in Hd. lia.
Qed.

Lemma position_alpha d : is_digit d -> position (alpha d) ALPHABET = Some d.
Proof.
  intros Hd. assert (Hc : exists k, (k < 58)%nat /\ d = Z.of_nat k) by (exists (Z.to_nat d); unfold is_digit in Hd; lia).
  destruct Hc as (k & Hk & ->). do 58 (destruct k as [|k]; [reflexivity|]). lia.
Qed.

Lemma position_spec c l i : position c l = Some i -> 0 <= i < len l /\ l !! Z.to_nat i = Some c.
Proof.
  revert i. induction l as [|a l IH]; intros i; cbn [position]; [discriminate|].
  unfold len in *. cbn [length]. destruct (Z.eqb_spec a c) as [->|Hne].
  - intros [= <-]. split; [lia|reflexivity].
  - destruct (position c l) as [j|]; [|discriminate]. intros [= <-].
    destruct (IH j eq_refl) as [Hj Hl]. split; [lia|].
    replace (Z.to_nat (j + 1)) with (S (Z.to_nat j)) by lia. exact Hl.
Qed.

Lemma sum_loop_complete sum ds : 0 <= sum -> Forall is_digit ds -> horner sum ds < 2 ^ 64 ->
  sum_loop sum (alpha <$> ds) = Some (horner sum ds).
Proof.
  intros Hs Hds. revert sum Hs. induction Hds as [|d ds Hd Hds IH]; intros sum Hs Hlt; [reflexivity|].
  cbn [fmap list_fmap sum_loop]. cbn [horner foldl] in Hlt |- *. fold (horner (sum * 58 + d) ds) in Hlt |- *.
  pose proof (horner_split (sum * 58 + d) ds) as Hsp. pose proof (horner_bound ds Hds).
  assert (1 <= 58 ^ len ds) by (apply (Z.pow_le_mono_r 58 0); unfold len; lia).
  unfold is_digit in Hd. unfold ALPHABET_LEN. cbv zeta.
  destruct (Z.leb_spec (2 ^ 64) (sum * 58)); [nia|]. rewrite position_alpha by assumption.
  destruct (Z.leb_spec (2 ^ 64) (sum * 58 + d)); [nia|]. apply IH; [lia|exact Hlt].
Qed.

Lemma sum_loop_sound sum s v : 0 <= sum < 2 ^ 64 -> sum_loop sum s = Some v ->
  exists ds, Forall is_digit ds /\ s = alpha <$> ds /\ v = horner sum ds /\ 0 <= v < 2 ^ 64.
Proof.
  revert sum. induction s as [|c s IH]; intros sum Hs; cbn [sum_loop].
  - intros [= <-]. exists []. split_and!; auto; lia.
  - cbv zeta. unfold ALPHABET_LEN. destruct (Z.leb_spec (2 ^ 64) (sum * 58)); [discriminate|].
    destruct (position c ALPHABET) as [p|] eqn:Hp; [|discriminate].
    apply position_spec in Hp as [Hp Hl]. change (len ALPHABET) with 58 in Hp.
    destruct (Z.leb_spec (2 ^ 64) (sum * 58 + p)); [discriminate|].
    intros (ds & Hds & -> & -> & Hv)%IH; [|lia]. exists (p :: ds). split_and!; auto; try lia.
    cbn [fmap list_fmap]. f_equal. symmetry. apply list_lookup_total_correct, Hl.
Qed.
End Digits.

(** ** Blocks *)

Section Blocks.
(** The length a block of so many bytes is encoded with *)
Definition elen (n : nat) : nat := nth n [0; 2; 3; 5; 6; 7; 9; 10; 11]%nat 0%nat.

(** A block's big-endian integer *)
Definition be (chunk : bytes) : Z := from_le (rev chunk).

Lemma rev_fmap {A B} (f : A -> B) l : rev (f <$> l) = f <$> rev l.
Proof. symmetry. apply map_rev. Qed.

Lemma encoded_len_ok {E} n : (n <= 8)%nat -> encoded_len_for_bytes (E := E) n = Ok (elen n).
Proof. intros Hn. do 9 (destruct n as [|n]; [reflexivity|]). lia. Qed.

Lemma elen_bound n : (n <= 8)%nat -> 256 ^ Z.of_nat n <= 58 ^ Z.of_nat (elen n).
Proof. intros Hn. do 9 (destruct n as [|n]; [vm_compute; discriminate|]). lia. Qed.

Lemma elen_le n : (n <= 8)%nat -> (elen n <= 11)%nat.
Proof. intros Hn. do 9 (destruct n as [|n]; [vm_compute; lia|]). lia. Qed.

Lemma used_bytes_elen {E} n : (1 <= n <= 8)%nat -> used_bytes (E := E) (elen n) (seq 1 BLOCK_LEN) = Ok (Some n).
Proof. intros Hn. destruct n as [|n]; [lia|]. do 8 (destruct n as [|n]; [reflexivity|]). lia. Qed.

Lemma used_bytes_sound {E} len n : used_bytes (E := E) len (seq 1 BLOCK_LEN) = Ok (Some n) ->
  (1 <= n <= 8)%nat /\ len = elen n.
Proof.
  cut (forall l, Forall (fun i => (1 <= i <= 8)%nat) l -> used_bytes (E := E) len l = Ok (Some n) ->
         (1 <= n <= 8)%nat /\ len = elen n).
  { intros H. apply H. repeat constructor. }
  induction 1 as [|i l Hi _ IH]; cbn [used_bytes]; [discriminate|]. rewrite encoded_len_ok by lia. cbn [obind].
  destruct (Nat.eqb_spec (elen i) len) as [<-|]; [|exact IH]. intros [= <-]. auto.
Qed.

Lemma used_bytes_ok {E} len : exists o, used_bytes (E := E) len (seq 1 BLOCK_LEN) = Ok o.
Proof.
  cut (forall l, Forall (fun i => (i <= 8)%nat) l -> exists o, used_bytes (E := E) len l = Ok o).
  { intros H. apply H. unfold BLOCK_LEN. cbn. repeat (constructor; [lia|]). constructor. }
  induction 1 as [|i l Hi _ IH]; cbn [used_bytes]; [eauto|]. rewrite encoded_len_ok by lia. cbn [obind].
  destruct (_ =? _)%nat; eauto.
Qed.

Lemma encode_loop_spec {E} fuel k v pre :
  (k <= fuel)%nat -> 0 <= v < 58 ^ Z.of_nat k ->
  encode_loop (E := E) fuel v (length pre) (pre ++ repeat 49 k) = Ok (pre ++ (alpha <$> to58 k v)).
Proof.
  revert k v pre. induction fuel as [|fuel IH]; intros k v pre Hk Hv; cbn [encode_loop].
  - destruct k; [|lia]. cbn in Hv. destruct (Z.leb_spec v 0); [reflexivity|lia].
  - destruct (Z.leb_spec v 0).
    + replace v with 0 by lia. rewrite to58_zero. f_equal. f_equal.
      clear. induction k; cbn; [reflexivity|]. f_equal. exact IHk.
    + destruct k as [|k]; [cbn in Hv; lia|]. rewrite Nat2Z.inj_succ, Z.pow_succ_r in Hv by lia.
      unfold ALPHABET_LEN. rewrite alpha_lookup by (apply Z.mod_pos_bound; lia). cbn [expect obind].
      destruct (Nat.ltb_spec (length pre) (length (pre ++ repeat 49 (S k)))) as [_|Hge];
        [|rewrite length_app in Hge; cbn in Hge; lia].
      cbn [repeat to58]. rewrite insert_middle.
      replace (pre ++ alpha (v mod 58) :: repeat 49 k) with ((pre ++ [alpha (v mod 58)]) ++ repeat 49 k)
        by (rewrite <- app_assoc; reflexivity).
      replace (S (length pre)) with (length (pre ++ [alpha (v mod 58)])) by (rewrite length_app; cbn; lia).
      rewrite IH, <- app_assoc; [reflexivity|lia|].
      split; [apply Z.div_pos; lia|apply Z.div_lt_upper_bound; lia].
Qed.

Lemma take_to58 n m v : (n <= m)%nat -> take n (to58 m v) = to58 n v.
Proof.
  revert m v. induction n as [|n IH]; intros [|m] v Hn; try lia; [reflexivity..|]. cbn. f_equal. apply IH. lia.
Qed.

Lemma from_le_zeros l n : from_le (l ++ repeat 0 n) = from_le l.
Proof.
  induction l as [|x l IH].
  - cbn [app]. induction n as [|n IHn]; [reflexivity|].
    change (from_le (repeat 0 (S n))) with (0 + 256 * from_le (repeat 0 n)). rewrite IHn. reflexivity.
  - change (from_le ((x :: l) ++ repeat 0 n)) with (x + 256 * from_le (l ++ repeat 0 n)). rewrite IH. reflexivity.
Qed.

Lemma rev_repeat {A} (x : A) n : rev (repeat x n) = repeat x n.
Proof.
  induction n as [|n IH]; [reflexivity|]. cbn [repeat rev]. rewrite IH.
  clear. induction n; cbn; [reflexivity|]. f_equal. exact IHn.
Qed.

Lemma be_bound chunk : is_bytes chunk -> 0 <= be chunk < 256 ^ len chunk.
Proof.
  intros Hb. unfold be. pose proof (from_le_U (rev chunk)) as H.
  unfold U, len in *. rewrite length_rev in H. change 256 with (2 ^ 8). rewrite <- Z.pow_mul_r by lia.
  apply H, Forall_rev, Hb.
Qed.

Lemma encode_chunk_spec {E} chunk : is_bytes chunk -> (length chunk <= 8)%nat ->
  encode_chunk (E := E) chunk = Ok (rev (alpha <$> to58 (elen (length chunk)) (be chunk))).
Proof.
  intros Hb Hl. unfold encode_chunk, BLOCK_LEN. destruct (Nat.ltb_spec 8 (length chunk)); [lia|]. cbv zeta.
  rewrite rev_app_distr, rev_repeat, from_le_zeros. fold (be chunk). cbn [expect obind lookup].
  change (ALPHABET !! 0%nat) with (Some 49). cbn [expect obind].
  pose proof (be_bound chunk Hb). assert (256 ^ len chunk <= 256 ^ 8) by (apply Z.pow_le_mono_r; unfold len; lia).
  pose proof (encode_loop_spec (E := E) 64 11 (be chunk) []) as Hloop. cbn [app length] in Hloop.
  unfold ENCODED_BLOCK_LEN. rewrite Hloop; [|lia|].
  2: { split; [lia|]. apply Z.lt_le_trans with (256 ^ 8); [lia|]. vm_compute. discriminate. }
  cbn [obind]. rewrite encoded_len_ok by lia. cbn [obind]. f_equal. f_equal.
  rewrite <- fmap_take, take_to58 by (apply elen_le; lia). reflexivity.
Qed.

Lemma to_le_pad n m v : 0 <= v < 256 ^ Z.of_nat n -> to_le (n + m) v = to_le n v ++ repeat 0 m.
Proof.
  revert v. induction n as [|n IH]; intros v Hv.
  - cbn in Hv. replace v with 0 by lia. cbn [Nat.add app]. clear. induction m as [|m IHm]; [reflexivity|].
    change (to_le (S m) 0) with (0 :: to_le m 0). rewrite IHm. reflexivity.
  - rewrite Nat2Z.inj_succ, Z.pow_succ_r in Hv by lia.
    change (to_le (S n + m) v) with (v mod 256 :: to_le (n + m) (v / 256)). rewrite IH; [reflexivity|].
    split; [apply Z.div_pos; lia|apply Z.div_lt_upper_bound; lia].
Qed.

Lemma forallb_zeros n : forallb (fun b => b =? 0) (repeat 0 n) = true.
Proof. induction n; cbn; auto. Qed.

Lemma decode_chunk_encoded chunk : is_bytes chunk -> (1 <= length chunk <= 8)%nat ->
  decode_chunk (rev (alpha <$> to58 (elen (length chunk)) (be chunk))) = Ok chunk.
Proof.
  intros Hb Hl. pose proof (be_bound chunk Hb) as Hbe. pose proof (elen_bound (length chunk)) as Hel.
  fold (len chunk) in Hel. assert (256 ^ len chunk <= 256 ^ 8) by (apply Z.pow_le_mono_r; unfold len; lia).
  change (256 ^ 8) with (2 ^ 64) in *.
  unfold decode_chunk. rewrite rev_fmap.
  assert (Hh : horner 0 (rev (to58 (elen (length chunk)) (be chunk))) = be chunk) by (apply horner_to58; lia).
  rewrite sum_loop_complete, Hh; [|lia|apply Forall_rev, to58_digits|lia]. cbn [ok_or obind].
  rewrite length_fmap, length_rev, to58_length, used_bytes_elen by lia. cbn [obind ok_or]. cbv zeta.
  assert (Hp : to_le 8 (be chunk) = rev chunk ++ repeat 0 (8 - length chunk)).
  { replace 8%nat with (length chunk + (8 - length chunk))%nat at 1 by lia.
    rewrite to_le_pad by (fold (len chunk); lia). f_equal. unfold be.
    rewrite <- (length_rev chunk) at 1. apply to_from_le, Forall_rev, Hb. }
  rewrite Hp, rev_app_distr, rev_repeat, rev_involutive. unfold BLOCK_LEN.
  rewrite take_app_length', drop_app_length' by (rewrite repeat_length; reflexivity).
  rewrite forallb_zeros. reflexivity.
Qed.

Lemma forallb_zeros_inv l : forallb (fun b => b =? 0) l = true -> l = repeat 0 (length l).
Proof.
  induction l as [|x l IH]; cbn; [reflexivity|]. intros [->%Z.eqb_eq Hl]%andb_true_iff. f_equal. auto.
Qed.

Lemma decode_chunk_sound {E} s b : decode_chunk s = Ok b ->
  is_bytes b /\ (1 <= length b <= 8)%nat /\ length s = elen (length b) /\ encode_chunk (E := E) b = Ok s.
Proof.
  unfold decode_chunk. destruct (sum_loop 0 s) as [v|] eqn:Hs; [|discriminate]. cbn [ok_or obind].
  destruct (used_bytes_ok (E := unit) (length s)) as [o Ho]. rewrite Ho. cbn [obind].
  destruct o as [n|]; [|discriminate]. cbn [ok_or obind]. cbv zeta.
  apply used_bytes_sound in Ho as [Hn Hls]. unfold BLOCK_LEN.
  apply sum_loop_sound in Hs as (ds & Hds & -> & -> & Hv); [|lia].
  set (v := horner 0 ds) in *. destruct (forallb _ _) eqn:Hz; [|discriminate].
  intros Hd%Ok_inj. subst b. apply forallb_zeros_inv in Hz.
  rewrite length_take, length_rev, to_le_length in Hz. replace ((8 - n) `min` 8)%nat with (8 - n)%nat in Hz by lia.
  assert (Hlen : length (drop (8 - n) (rev (to_le 8 v))) = n)
    by (rewrite length_drop, length_rev, to_le_length; lia).
  assert (Hb : is_bytes (drop (8 - n) (rev (to_le 8 v)))) by (apply Forall_drop, Forall_rev, to_le_bytes).
  assert (Hbe : be (drop (8 - n) (rev (to_le 8 v))) = v).
  { unfold be. rewrite <- (from_le_zeros _ (8 - n)), <- (rev_repeat 0 (8 - n)), <- rev_app_distr, <- Hz, take_drop, rev_involutive.
    apply from_to_le. exact Hv. }
  rewrite Hlen. split; [exact Hb|]. split; [exact Hn|]. split; [exact Hls|].
  rewrite encode_chunk_spec, Hlen, Hbe by (rewrite ?Hlen; lia || assumption).
  rewrite length_fmap in Hls. unfold v. rewrite <- Hls, to58_horner, rev_fmap, rev_involutive by assumption. reflexivity.
Qed.

Lemma decode_chunk_no_panic s : no_panic (decode_chunk s).
Proof.
  unfold decode_chunk. destruct (sum_loop 0 s); [|exact I]. cbn [ok_or obind].
  destruct (used_bytes_ok (E := unit) (length s)) as [[n|] ->]; cbn; [|exact I]. destruct (forallb _ _); exact I.
Qed.
End Blocks.

(** ** Strings *)

Section Strings.
Lemma chunks_loop_nil {A} fuel n : chunks_loop fuel n (@nil A) = [].
Proof. destruct fuel; reflexivity. Qed.

Lemma chunks_loop_fuel {A} n (l : list A) : (0 < n)%nat -> forall f, (length l <= f)%nat ->
  chunks_loop f n l = chunks n l.
Proof.
  intros Hn. unfold chunks. remember (length l) as k eqn:Hk. revert l Hk.
  induction k as [k IH] using lt_wf_ind. intros [|x l] -> f Hf; [apply chunks_loop_nil|].
  destruct f as [|f]; [cbn in Hf; lia|]. cbn [length chunks_loop]. f_equal.
  assert (Hd : (length (drop n (x :: l)) <= length l)%nat) by (rewrite length_drop; cbn; lia).
  rewrite (IH (length (drop n (x :: l)))) by (reflexivity || (cbn in Hf |- *; lia)).
  symmetry. apply (IH (length (drop n (x :: l)))); [cbn; lia|reflexivity|exact Hd].
Qed.

Lemma chunks_step {A} n (l : list A) : (0 < n)%nat -> l <> [] -> chunks n l = take n l :: chunks n (drop n l).
Proof.
  intros Hn Hl. destruct l as [|x l]; [contradiction|]. unfold chunks at 1. cbn [length chunks_loop]. f_equal.
  apply chunks_loop_fuel; [exact Hn|]. rewrite length_drop. cbn. lia.
Qed.

Lemma extend_each_cons {E} f c cs : extend_each (E := E) f (c :: cs) =
  let? r := f c in let? rest := extend_each f cs in Ok (r ++ rest).
Proof. reflexivity. Qed.

Lemma encode_ok {E} data : is_bytes data ->
  exists s, encode (E := E) data = Ok s /\ decode s = Ok data /\ (data = [] -> s = []) /\ (data <> [] -> s <> []).
Proof.
  unfold encode, decode. remember (length data) as k eqn:Hk. revert data Hk.
  induction k as [k IH] using lt_wf_ind. intros data -> Hb.
  destruct (decide (data = [])) as [->|Hne].
  { exists []. split; [reflexivity|]. split; [reflexivity|]. split; [reflexivity|intros H; contradiction]. }
  rewrite chunks_step by (unfold BLOCK_LEN; lia || assumption). rewrite extend_each_cons.
  assert (Hpos : (0 < length data)%nat) by (destruct data; [contradiction|cbn; lia]).
  assert (Htl : length (take BLOCK_LEN data) = (8 `min` length data)%nat) by (rewrite length_take; reflexivity).
  assert (Htb : is_bytes (take BLOCK_LEN data)) by (apply Forall_take, Hb).
  rewrite encode_chunk_spec by (assumption || lia). cbn [obind].
  set (e := rev _). assert (Hel : length e = elen (length (take BLOCK_LEN data)))
    by (unfold e; rewrite length_rev, length_fmap, to58_length; reflexivity).
  assert (Hlt : (length (drop BLOCK_LEN data) < length data)%nat)
    by (rewrite length_drop; unfold BLOCK_LEN; lia).
  destruct (IH _ Hlt (drop BLOCK_LEN data) eq_refl (Forall_drop _ _ _ Hb)) as (s & Hs & Hds & Hsn & Hsnn).
  rewrite Hs. cbn [obind]. exists (e ++ s). split; [reflexivity|].
  assert (He0 : e <> []).
  { intros He. rewrite He, Htl in Hel.
    destruct (8 `min` length data)%nat as [|n] eqn:Em; [lia|]. assert (Hn8 : (n < 8)%nat) by lia. revert Hel. clear -Hn8.
    do 8 (destruct n as [|n]; [discriminate|]). lia. }
  split; [|split; [contradiction|intros _ Hn; apply app_nil in Hn as [? _]; contradiction]].
  rewrite chunks_step; [|unfold ENCODED_BLOCK_LEN; lia|intros Hn; apply app_nil in Hn as [? _]; contradiction].
  rewrite extend_each_cons.
  assert (Hsplit : take ENCODED_BLOCK_LEN (e ++ s) = e /\ drop ENCODED_BLOCK_LEN (e ++ s) = s).
  { destruct (Nat.le_gt_cases 8 (length data)).
    - assert (length e = 11%nat) by (rewrite Hel, Htl; replace (8 `min` length data)%nat with 8%nat by lia; reflexivity).
      unfold ENCODED_BLOCK_LEN. rewrite take_app_length', drop_app_length' by congruence. auto.
    - rewrite Hsn by (apply drop_ge; unfold BLOCK_LEN; lia). rewrite app_nil_r.
      assert (length e <= 11)%nat by (rewrite Hel; apply elen_le; lia).
      unfold ENCODED_BLOCK_LEN. rewrite take_ge, drop_ge by lia. auto. }
  destruct Hsplit as [-> ->]. unfold e at 1. rewrite decode_chunk_encoded by (assumption || lia).
  cbn [obind]. rewrite Hds. cbn [obind]. rewrite take_drop. reflexivity.
Qed.

(** The length of an encoding depends on that of the data alone. *)
Lemma encode_length {E} data s : is_bytes data -> encode (E := E) data = Ok s ->
  length s = (ENCODED_BLOCK_LEN * (length data / BLOCK_LEN) + elen (length data mod BLOCK_LEN))%nat.
Proof.
  unfold encode. remember (length data) as k eqn:Hk. revert data s Hk.
  induction k as [k IH] using lt_wf_ind. intros data s -> Hb.
  destruct (decide (data = [])) as [->|Hne]; [intros [= <-]; reflexivity|].
  rewrite chunks_step by (unfold BLOCK_LEN; lia || assumption). rewrite extend_each_cons.
  assert (Hpos : (0 < length data)%nat) by (destruct data; [contradiction|cbn; lia]).
  assert (Htl : length (take BLOCK_LEN data) = (8 `min` length data)%nat) by (rewrite length_take; reflexivity).
  rewrite encode_chunk_spec by (apply Forall_take, Hb || lia). cbn [obind].
  destruct (extend_each encode_chunk _) as [r| |] eqn:Hr; [|discriminate..]. cbn [obind]. intros [= <-].
  assert (Hlt : (length (drop BLOCK_LEN data) < length data)%nat)
    by (rewrite length_drop; unfold BLOCK_LEN; lia).
  apply (IH _ Hlt _ _ eq_refl (Forall_drop _ _ _ Hb)) in Hr.
  rewrite length_app, length_rev, length_fmap, to58_length, Htl, Hr, length_drop. unfold BLOCK_LEN, ENCODED_BLOCK_LEN.
  destruct (Nat.le_gt_cases 8 (length data)) as [Hge|Hlt8].
  - replace (length data) with (length data - 8 + 1 * 8)%nat at 4 5 by lia.
    rewrite Nat.div_add, Nat.Div0.mod_add, Nat.min_l by lia. cbn [elen nth]. lia.
  - replace (length data - 8)%nat with 0%nat by lia.
    rewrite Nat.min_r, (Nat.div_small (length data)), (Nat.mod_small (length data)) by lia.
    change (elen (0 mod 8)) with 0%nat. change (0 / 8)%nat with 0%nat. lia.
Qed.

Lemma decode_ok {E} s data : decode s = Ok data ->
  is_bytes data /\ encode (E := E) data = Ok s.
Proof.
  unfold encode, decode. remember (length s) as k eqn:Hk. revert s data Hk.
  induction k as [k IH] using lt_wf_ind. intros s data ->.
  destruct (decide (s = [])) as [->|Hne].
  { cbn. intros [= <-]. split; [constructor|reflexivity]. }
  rewrite chunks_step by (unfold ENCODED_BLOCK_LEN; lia || assumption). rewrite extend_each_cons.
  assert (Hpos : (0 < length s)%nat) by (destruct s; [contradiction|cbn; lia]).
  destruct (decode_chunk _) as [b| |] eqn:Hc; [|discriminate..]. cbn [obind].
  destruct (extend_each decode_chunk _) as [rest| |] eqn:Hr; [|discriminate..]. cbn [obind]. intros [= <-].
  apply (decode_chunk_sound (E := E)) in Hc as (Hb & Hl & Hlen & Henc).
  assert (Hlt : (length (drop ENCODED_BLOCK_LEN s) < length s)%nat)
    by (rewrite length_drop; unfold ENCODED_BLOCK_LEN; lia).
  destruct (IH _ Hlt _ _ eq_refl Hr) as [Hrb Hrenc].
  split; [apply is_bytes_app_2; assumption|].
  rewrite length_take in Hlen. unfold ENCODED_BLOCK_LEN in *.
  rewrite chunks_step; [|unfold BLOCK_LEN; lia|destruct b; [cbn in Hl; lia|discriminate]]. rewrite extend_each_cons.
  assert (Hsplit : take BLOCK_LEN (b ++ rest) = b /\ drop BLOCK_LEN (b ++ rest) = rest).
  { unfold BLOCK_LEN. destruct (Nat.eq_dec (length b) 8%nat) as [He8|He8].
    - rewrite take_app_length', drop_app_length' by congruence. auto.
    - assert (Hel : (elen (length b) < 11)%nat).
      { destruct (length b) as [|n]; [lia|]. assert (n < 7)%nat by lia.
        do 7 (destruct n as [|n]; [vm_compute; lia|]). lia. }
      assert (Hrest : rest = []).
      { rewrite drop_ge in Hrenc by lia. destruct rest as [|x rest]; [reflexivity|].
        destruct (encode_ok (E := E) (x :: rest) Hrb) as (s' & Hs' & _ & _ & Hnn).
        unfold encode in Hs'. rewrite Hrenc in Hs'. injection Hs' as <-. destruct (Hnn ltac:(discriminate) eq_refl). }
      subst rest. rewrite app_nil_r, take_ge, drop_ge by lia. auto. }
  destruct Hsplit as [-> ->]. rewrite Henc. cbn [obind]. rewrite Hrenc. cbn [obind].
  rewrite take_drop. reflexivity.
Qed.

Lemma decode_no_panic s : no_panic (decode s).
Proof.
  unfold decode. generalize (chunks ENCODED_BLOCK_LEN s). intros cs.
  induction cs as [|c cs IH]; [exact I|]. rewrite extend_each_cons.
  pose proof (decode_chunk_no_panic c). destruct (decode_chunk c); try contradiction; try exact I. cbn [obind].
  destruct (extend_each decode_chunk cs); try contradiction; exact I.
Qed.
End Strings.

(** ** Properties *)

Section Properties.
(** [encode] never panics on bytes and [decode] inverts it; conversely
    [decode] never panics on any string, and a string it accepts is the
    encoding of what it yields, so no data has two accepted encodings. *)
Theorem base58_roundtrip :
  (forall data, is_bytes data ->
    exists s, encode (E := unit) data = Ok s /\ decode s = Ok data) /\
  (forall s, no_panic (decode s) /\
    forall data, decode s = Ok data -> is_bytes data /\ encode (E := unit) data = Ok s).
Proof.
  split.
  - intros data Hb. destruct (encode_ok (E := unit) data Hb) as (s & Hs & Hd & _). eauto.
  - intros s. split; [apply decode_no_panic|]. intros data. apply decode_ok.
Qed.

Context {K : Keccak} {KL : KeccakLaws K}.

Lemma checksum_spec (data : bytes) :
  is_bytes (take CHECKSUM_LEN (keccak256 data)) /\ length (take CHECKSUM_LEN (keccak256 data)) = 4%nat.
Proof.
  destruct (keccak_array data) as [Hb Hl]. unfold keccak256, CHECKSUM_LEN. split; [apply Forall_take, Hb|].
  rewrite length_take, Hl. reflexivity.
Qed.

(** What's encoded is of characters of the alphabet, hence bytes. *)
Lemma alphabet_byte i c : ALPHABET !! i = Some c -> U 8 c.
Proof. apply (Forall_lookup_1 (U 8) ALPHABET). decide_now. Qed.

Lemma encode_loop_bytes {E} fuel val i str s : is_bytes str -> encode_loop (E := E) fuel val i str = Ok s -> is_bytes s.
Proof.
  revert val i str. induction fuel as [|fuel IH]; intros val i str Hb; cbn [encode_loop]; destruct (val <=? 0); try (intros [= <-]; exact Hb); try discriminate.
  destruct (ALPHABET !! _) as [c|] eqn:Hc; [|discriminate]. cbn [expect obind]. destruct (_ <? _)%nat; [|discriminate].
  apply IH. apply Forall_insert; [exact Hb|exact (alphabet_byte _ _ Hc)].
Qed.

Lemma encode_bytes {E} data s : encode (E := E) data = Ok s -> is_bytes s.
Proof.
  unfold encode. revert s. induction (chunks BLOCK_LEN data) as [|c cs IH]; intros s; [intros [= <-]; constructor|].
  rewrite extend_each_cons. intros H. obind_inv H. obind_inv H. injection H as <-. apply is_bytes_app_2; [|exact (IH _ Hx0)].
  unfold encode_chunk in Hx. destruct (_ <? _)%nat; [discriminate|]. cbv zeta in Hx. obind_inv Hx. obind_inv Hx. obind_inv Hx. injection Hx as <-.
  apply Forall_rev, Forall_take. refine (encode_loop_bytes _ _ _ _ _ _ Hx2). apply list.Forall_forall. intros y Hy.
  apply list_elem_of_In, repeat_spec in Hy as ->. refine (alphabet_byte 0 _ _). revert Hx1. cbn. intros [= <-]. reflexivity.
Qed.

Lemma encode_check_ok {E} data : is_bytes data ->
  exists s, encode_check (E := E) data = Ok s /\ decode_check s = Ok data.
Proof.
  intros Hb. destruct (checksum_spec data) as [Hcb Hcl].
  destruct (encode_ok (E := E) (data ++ take CHECKSUM_LEN (keccak256 data))) as (s & Hs & Hd & _);
    [apply is_bytes_app_2; assumption|].
  exists s. split; [exact Hs|]. unfold decode_check. rewrite Hd. cbn [obind].
  destruct (Nat.ltb_spec (length (data ++ take CHECKSUM_LEN (keccak256 data))) CHECKSUM_LEN) as [Hlt|_];
    [rewrite length_app, Hcl in Hlt; unfold CHECKSUM_LEN in Hlt; lia|].
  cbv zeta. replace (length (data ++ take CHECKSUM_LEN (keccak256 data)) - CHECKSUM_LEN)%nat with (length data)
    by (rewrite length_app, Hcl; unfold CHECKSUM_LEN; lia).
  rewrite take_app_length, drop_app_length, bytes_eqb_refl. reflexivity.
Qed.

Lemma decode_check_ok {E} s data : decode_check s = Ok data ->
  is_bytes data /\ encode_check (E := E) data = Ok s.
Proof.
  unfold decode_check. destruct (decode s) as [res| |] eqn:Hd; [|discriminate..]. cbn [obind].
  apply (decode_ok (E := E)) in Hd as [Hb He]. destruct (_ <? _)%nat; [discriminate|]. cbv zeta.
  destruct (bytes_eqb _ _) eqn:Heq; [|discriminate]. cbn [negb]. intros [= <-].
  apply bytes_eqb_spec in Heq. split; [apply Forall_take, Hb|].
  unfold encode_check. rewrite Heq, take_drop. exact He.
Qed.

Lemma decode_check_no_panic s : no_panic (decode_check s).
Proof.
  unfold decode_check. pose proof (decode_no_panic s). destruct (decode s); try contradiction; [|exact I].
  cbn [obind]. destruct (_ <? _)%nat; [exact I|]. cbv zeta. destruct (negb _); exact I.
Qed.

(** The same with the checksum: [encode_check] and [decode_check] are
    inverse to each other, and neither panics. *)
Theorem base58_check_roundtrip :
  (forall data, is_bytes data ->
    exists s, encode_check (E := unit) data = Ok s /\ decode_check s = Ok data) /\
  (forall s, no_panic (decode_check s) /\
    forall data, decode_check s = Ok data -> is_bytes data /\ encode_check (E := unit) data = Ok s).
Proof.
  split; [intros data; apply encode_check_ok|].
  intros s. split; [apply decode_check_no_panic|intros data; apply decode_check_ok].
Qed.
End Properties.

Section Witness.
Import Model.

(** A block and a partial block, through both directions *)
Lemma base58_roundtrip_witness :
  is_bytes [1; 2; 3; 4; 5; 6; 7; 8; 255] /\
  exists s, encode (E := unit) [1; 2; 3; 4; 5; 6; 7; 8; 255] = Ok s /\ length s = 13%nat /\
            decode s = Ok [1; 2; 3; 4; 5; 6; 7; 8; 255].
Proof.
  assert (Hb : is_bytes [1; 2; 3; 4; 5; 6; 7; 8; 255]) by decide_now.
  split; [exact Hb|]. eexists. split; [vm_compute; reflexivity|]. split; [vm_compute; reflexivity|].
  destruct (proj1 base58_roundtrip _ Hb) as (s & Hs & Hd). vm_compute in Hs. injection Hs as <-. exact Hd.
Defined.

Lemma base58_check_roundtrip_witness :
  is_bytes [42; 0; 7] /\ exists s, encode_check (E := unit) [42; 0; 7] = Ok s /\ decode_check s = Ok [42; 0; 7].
Proof.
  assert (Hb : is_bytes [42; 0; 7]) by decide_now.
  split; [exact Hb|]. exact (proj1 (base58_check_roundtrip (KL := keccak_laws)) _ Hb).
Defined.
End Witness.
