(* ===== verification/Address.v ===== *)
(** The [monero-address] crate ([wallet/address/src/lib.rs]): address types,
    the bytes that tell network and type apart and their packing into a
    [const] generic, and the textual form of an address. *)

From Stdlib Require Import ZArith Lia.
From stdpp Require Import base list strings numbers.
From S2P Require Import Prelude Dalek MoneroIo Ed25519 Base58.

(** ** Address types *)

(** [enum AddressType]; payment IDs are arrays of eight bytes. *)
Inductive AddressType : Type :=
| Legacy
| LegacyIntegrated (id : bytes)
| Subaddress
| Featured (subaddress : bool) (payment_id : option bytes) (guaranteed : bool).

Module AddressType.
Definition is_subaddress (self : AddressType) : bool :=
  match self with
  | Subaddress => true
  | Featured true _ _ => true
  | _ => false
  end.

Definition payment_id (self : AddressType) : option bytes :=
  match self with
  | LegacyIntegrated id => Some id
  | Featured _ payment_id _ => payment_id
  | _ => None
  end.

Definition is_guaranteed (self : AddressType) : bool :=
  match self with Featured _ _ true => true | _ => false end.
End AddressType.

Module SubaddressIndex.
Record t := mk { account : Z; address : Z }.

Definition new (account address : Z) : option t :=
  if (account =? 0) && (address =? 0) then None else Some (mk account address).
End SubaddressIndex.

(** ** Address bytes *)

(** [struct AddressBytes]: the byte of each address type *)
Module AddressBytes.
Record t := mk { legacy : Z; legacy_integrated : Z; subaddress : Z; featured : Z }.

Definition new (legacy legacy_integrated subaddress featured : Z) : option t :=
  if (legacy =? legacy_integrated) || (legacy =? subaddress) || (legacy =? featured) then None
  else if (legacy_integrated =? subaddress) || (legacy_integrated =? featured) then None
  else if subaddress =? featured then None
  else Some (mk legacy legacy_integrated subaddress featured).

Definition to_const_generic (self : t) : Z :=
  Z.shiftl (legacy self) 24 + Z.shiftl (legacy_integrated self) 16 + Z.shiftl (subaddress self) 8
  + featured self.

(** [as u8] keeps the eight low bits. *)
Definition from_const_generic (const_generic : Z) : t :=
  let legacy := Z.shiftr const_generic 24 mod 2 ^ 8 in
  let legacy_integrated := Z.land (Z.shiftr const_generic 16) 255 mod 2 ^ 8 in
  let subaddress := Z.land (Z.shiftr const_generic 8) 255 mod 2 ^ 8 in
  let featured := Z.land const_generic 255 mod 2 ^ 8 in
  mk legacy legacy_integrated subaddress featured.

Definition MONERO_MAINNET_BYTES : option t := new 18 19 42 70.
Definition MONERO_STAGENET_BYTES : option t := new 24 25 36 86.
Definition MONERO_TESTNET_BYTES : option t := new 53 54 63 111.
End AddressBytes.

Inductive Network : Type := Mainnet | Stagenet | Testnet.

#[export] Instance Network_eq_dec : EqDecision Network.
Proof. solve_decision. Defined.

Inductive AddressError : Type :=
| InvalidTypeByte (byte : Z)
| InvalidEncoding
| InvalidLength
| InvalidKey
| UnknownFeatures (features : Z)
| DifferentNetwork (expected actual : Network)
| PaymentIDsUnsupported.

Module NetworkedAddressBytes.
Record t := mk { mainnet : AddressBytes.t; stagenet : AddressBytes.t; testnet : AddressBytes.t }.

Definition to_const_generic (self : t) : Z :=
  Z.shiftl (AddressBytes.to_const_generic (mainnet self)) 96
  + Z.shiftl (AddressBytes.to_const_generic (stagenet self)) 64
  + Z.shiftl (AddressBytes.to_const_generic (testnet self)) 32.

(** [as u32] keeps the 32 low bits. *)
Definition from_const_generic (const_generic : Z) : t :=
  let mainnet := AddressBytes.from_const_generic (Z.shiftr const_generic 96 mod 2 ^ 32) in
  let stagenet :=
    AddressBytes.from_const_generic (Z.land (Z.shiftr const_generic 64) (2 ^ 32 - 1) mod 2 ^ 32) in
  let testnet :=
    AddressBytes.from_const_generic (Z.land (Z.shiftr const_generic 32) (2 ^ 32 - 1) mod 2 ^ 32) in
  mk mainnet stagenet testnet.

(** [(all_bytes >> (32 + (i * 8))) & (u8::MAX as u128)] *)
Definition nth_byte (all_bytes : Z) (i : nat) : Z :=
  Z.land (Z.shiftr all_bytes (32 + Z.of_nat i * 8)) 255.

(** The two nested loops, each leaving at the first conflict *)
Definition new (mainnet stagenet testnet : AddressBytes.t) : option t :=
  let res := mk mainnet stagenet testnet in
  let all_bytes := to_const_generic res in
  if existsb (fun i =>
       let this_byte := nth_byte all_bytes i in
       existsb (fun j =>
         if (i =? j)%nat then false
         else let other_byte := nth_byte all_bytes j in this_byte =? other_byte)
       (seq 0 12))
     (seq 0 12)
  then None
  else Some res.

Definition network (self : t) (network : Network) : AddressBytes.t :=
  match network with
  | Mainnet => mainnet self
  | Stagenet => stagenet self
  | Testnet => testnet self
  end.

Definition byte (self : t) (n : Network) (kind : AddressType) : Z :=
  let address_bytes := network self n in
  match kind with
  | Legacy => AddressBytes.legacy address_bytes
  | LegacyIntegrated _ => AddressBytes.legacy_integrated address_bytes
  | Subaddress => AddressBytes.subaddress address_bytes
  | Featured _ _ _ => AddressBytes.featured address_bytes
  end.

(** The [match] on the byte for one network *)
Definition kind_from_byte (address_bytes : AddressBytes.t) (byte : Z) : option AddressType :=
  if byte =? AddressBytes.legacy address_bytes then Some Legacy
  else if byte =? AddressBytes.legacy_integrated address_bytes then Some (LegacyIntegrated (repeat 0 8))
  else if byte =? AddressBytes.subaddress address_bytes then Some Subaddress
  else if byte =? AddressBytes.featured address_bytes then Some (Featured false None false)
  else None.

(** The loop over the networks, left at the first match *)
Fixpoint metadata_loop (self : t) (byte : Z) (networks : list Network) : option (Network * AddressType) :=
  match networks with
  | [] => None
  | n :: networks' =>
      match kind_from_byte (network self n) byte with
      | Some kind => Some (n, kind)
      | None => metadata_loop self byte networks'
      end
  end.

Definition metadata_from_byte (self : t) (byte : Z) : outcome AddressError (Network * AddressType) :=
  ok_or (metadata_loop self byte [Mainnet; Testnet; Stagenet]) (InvalidTypeByte byte).

Definition MONERO_BYTES : option t :=
  match AddressBytes.MONERO_MAINNET_BYTES, AddressBytes.MONERO_STAGENET_BYTES, AddressBytes.MONERO_TESTNET_BYTES with
  | Some mainnet, Some stagenet, Some testnet => new mainnet stagenet testnet
  | _, _, _ => None
  end.
End NetworkedAddressBytes.

(** ** Addresses *)

(** An error of another kind, mapped by [map_err] *)
Definition rmap_err {E F A} (f : E -> F) (m : reader E A) : reader F A :=
  fun bs => match m bs with (o, bs') => (omap_err f o, bs') end.

Module Address.
Section Address.
Context {D : Dalek} {K : Keccak}.

(** [struct Address]; its [const] generic is an argument of the operations. *)
Record t := new { network : Network; kind : AddressType; spend : Point; view : Point }.

Definition BASE_256_UPPER_BOUND : Z :=
  VarInt.UPPER_BOUND VarInt.u64 + 32 + 32 + VarInt.UPPER_BOUND VarInt.u64 + 8.
Definition CHECKSUMMED_UPPER_BOUND : Z := BASE_256_UPPER_BOUND + 4.
(** [div_ceil(5)] *)
Definition SIZE_UPPER_BOUND : Z := (CHECKSUMMED_UPPER_BOUND * 8 + 4) / 5.

Definition b2u (b : bool) : Z := if b then 1 else 0.

(** The [features_uint] of a featured address *)
Definition features_uint (subaddress : bool) (payment_id : option bytes) (guaranteed : bool) : Z :=
  Z.shiftl (b2u guaranteed) 2
  + Z.shiftl (b2u (match payment_id with Some _ => true | None => false end)) 1 + b2u subaddress.

(** What [fmt] of [Display] collects in [data] *)
Definition data (ADDRESS_BYTES : Z) (self : t) : bytes :=
  let address_bytes := NetworkedAddressBytes.from_const_generic ADDRESS_BYTES in
  write_byte (NetworkedAddressBytes.byte address_bytes (network self) (kind self))
  ++ Point.compress (spend self) ++ Point.compress (view self)
  ++ match kind self with
     | Featured subaddress payment_id guaranteed =>
         VarInt.write (features_uint subaddress payment_id guaranteed)
     | _ => []
     end
  ++ match AddressType.payment_id (kind self) with Some id => id | None => [] end.

(** [Display]'s [fmt], as [to_string] runs it *)
Definition to_string {E} (ADDRESS_BYTES : Z) (self : t) : outcome E bytes :=
  encode_check (data ADDRESS_BYTES self).

(** [CompressedPoint::read(..).ok().as_ref().and_then(..).ok_or(InvalidKey)] *)
Definition read_key : reader AddressError Point :=
  let* c := rmap_err (fun _ => InvalidKey) CompressedPoint.read in
  rlift (ok_or (CompressedPoint.decompress c) InvalidKey).

(** The features of a featured address *)
Definition read_features (kind : AddressType) : reader AddressError AddressType :=
  match kind with
  | Featured _ _ _ =>
      let* features := rmap_err (fun _ => InvalidLength) (VarInt.read VarInt.u64) in
      if negb (Z.shiftr features 3 =? 0) then rfail (UnknownFeatures features)
      else
        let subaddress := Z.land features 1 =? 1 in
        let integrated := Z.land (Z.shiftr features 1) 1 =? 1 in
        let guaranteed := Z.land (Z.shiftr features 2) 1 =? 1 in
        rret (Featured subaddress (if integrated then Some (repeat 0 8) else None) guaranteed)
  | _ => rret kind
  end.

(** The payment ID, if there should be one *)
Definition read_payment_id (kind : AddressType) : reader AddressError AddressType :=
  match kind with
  | LegacyIntegrated _ =>
      let* id := rmap_err (fun _ => InvalidLength) (read_bytes 8) in
      rret (LegacyIntegrated id)
  | Featured subaddress (Some _) guaranteed =>
      let* id := rmap_err (fun _ => InvalidLength) (read_bytes 8) in
      rret (Featured subaddress (Some id) guaranteed)
  | Legacy | Subaddress | Featured _ None _ => rret kind
  end.

(** The reads of [from_str_with_unchecked_network] *)
Definition read (ADDRESS_BYTES : Z) : reader AddressError t :=
  let address_bytes := NetworkedAddressBytes.from_const_generic ADDRESS_BYTES in
  let* byte := rmap_err (fun _ => InvalidLength) read_byte in
  let* (network, kind) := rlift (NetworkedAddressBytes.metadata_from_byte address_bytes byte) in
  let* spend := read_key in
  let* view := read_key in
  let* kind := read_features kind in
  let* kind := read_payment_id kind in
  rret (new network kind spend view).

Definition from_str_with_unchecked_network (ADDRESS_BYTES : Z) (s : bytes) : outcome AddressError t :=
  let? raw := omap_err (fun _ => InvalidEncoding) (decode_check s) in
  match read ADDRESS_BYTES raw with
  | (Ok address, []) => Ok address
  | (Ok _, _ :: _) => Err InvalidLength
  | (o, _) => o
  end.

Definition from_str (ADDRESS_BYTES : Z) (n : Network) (s : bytes) : outcome AddressError t :=
  let? addr := from_str_with_unchecked_network ADDRESS_BYTES s in
  if decide (network addr = n) then Ok addr
  else Err (DifferentNetwork n (network addr)).

Definition with_payment_id (self : t) (payment_id : bytes) : outcome AddressError t :=
  match kind self with
  | Legacy | LegacyIntegrated _ =>
      Ok (new (network self) (LegacyIntegrated payment_id) (spend self) (view self))
  | Subaddress => Err PaymentIDsUnsupported
  | Featured subaddress _ guaranteed =>
      Ok (new (network self) (Featured subaddress (Some payment_id) guaranteed) (spend self) (view self))
  end.
End Address.
End Address.

(** ** Address bytes: packing and distinctness *)

Section Bytes.
Import NetworkedAddressBytes.

Definition ab_list (b : AddressBytes.t) : bytes :=
  [AddressBytes.featured b; AddressBytes.subaddress b; AddressBytes.legacy_integrated b; AddressBytes.legacy b].

(** The twelve bytes, from the least significant in the packing *)
Definition nab_list (b : NetworkedAddressBytes.t) : bytes :=
  ab_list (testnet b) ++ ab_list (stagenet b) ++ ab_list (mainnet b).

(** Every field is a [u8]. *)
Definition nab_ok (b : NetworkedAddressBytes.t) : Prop := is_bytes (nab_list b).

Lemma from_le_cons b bs : from_le (b :: bs) = b + 256 * from_le bs.
Proof. reflexivity. Qed.

Lemma from_le_nil : from_le [] = 0.
Proof. reflexivity. Qed.

Lemma ab_packed b : AddressBytes.to_const_generic b = from_le (ab_list b).
Proof.
  unfold AddressBytes.to_const_generic, ab_list. rewrite !from_le_cons, from_le_nil, !Z.shiftl_mul_pow2 by lia. lia.
Qed.

Lemma nab_packed b : NetworkedAddressBytes.to_const_generic b = from_le (repeat 0 4 ++ nab_list b).
Proof.
  unfold NetworkedAddressBytes.to_const_generic. rewrite !ab_packed. unfold nab_list, ab_list. cbn [repeat app].
  rewrite !from_le_cons, !from_le_nil, !Z.shiftl_mul_pow2 by lia. lia.
Qed.

(** Extracting a byte of a little-endian integer *)
Lemma from_le_byte bs i : is_bytes bs -> (i < length bs)%nat ->
  Z.land (Z.shiftr (from_le bs) (8 * Z.of_nat i)) 255 = bs !!! i.
Proof.
  intros Hb. revert i. induction Hb as [|b bs Hb Hbs IH]; intros i Hi; [cbn in Hi; lia|].
  change (U 8 b) with (0 <= b < 256) in Hb. rewrite from_le_cons. destruct i as [|i].
  - rewrite Z.shiftr_0_r. change 255 with (Z.ones 8). rewrite Z.land_ones by lia. cbn.
    rewrite Z.mul_comm, Z.mod_add, Z.mod_small by lia. reflexivity.
  - cbn [length] in Hi. cbn. rewrite <- IH by lia. f_equal.
    replace (8 * Z.of_nat (S i)) with (8 + 8 * Z.of_nat i) by lia. rewrite <- Z.shiftr_shiftr by lia. f_equal.
    rewrite Z.shiftr_div_pow2 by lia. change (2 ^ 8) with 256.
    rewrite Z.mul_comm, Z.div_add, Z.div_small by lia. lia.
Qed.

Lemma nth_byte_packed b i : nab_ok b -> (i < 12)%nat -> nth_byte (to_const_generic b) i = nab_list b !!! i.
Proof.
  intros Hb Hi. unfold nth_byte. rewrite nab_packed.
  replace (32 + Z.of_nat i * 8) with (8 * Z.of_nat (4 + i)) by lia.
  rewrite from_le_byte; [|apply is_bytes_app_2; [apply zeros_bytes|exact Hb]|rewrite length_app; cbn; lia].
  reflexivity.
Qed.

Lemma ab_const_generic b : is_bytes (ab_list b) ->
  AddressBytes.from_const_generic (AddressBytes.to_const_generic b) = b.
Proof.
  destruct b as [l i s f]. unfold is_bytes, ab_list. cbn.
  rewrite !Forall_cons_iff. intros (Hf & Hs & Hi & Hl & _). unfold U in *. change (2 ^ 8) with 256 in *.
  unfold AddressBytes.from_const_generic, AddressBytes.to_const_generic. cbn -[Z.pow Z.shiftl Z.shiftr Z.land].
  change 255 with (Z.ones 8). rewrite !Z.land_ones, !Z.shiftr_div_pow2, !Z.shiftl_mul_pow2 by lia.
  change (2 ^ 24) with 16777216. change (2 ^ 16) with 65536. change (2 ^ 8) with 256.
  f_equal; Z.to_euclidean_division_equations; lia.
Qed.

Lemma ab_packed_U b : is_bytes (ab_list b) -> U 32 (AddressBytes.to_const_generic b).
Proof. intros Hb. rewrite ab_packed. apply (from_le_U (ab_list b)), Hb. Qed.

Lemma nab_const_generic b : nab_ok b -> from_const_generic (to_const_generic b) = b.
Proof.
  intros (Ht & (Hs & Hm)%is_bytes_app)%is_bytes_app. destruct b as [m s t]. cbn in Hm, Hs, Ht.
  pose proof (ab_packed_U _ Hm) as Um. pose proof (ab_packed_U _ Hs) as Us. pose proof (ab_packed_U _ Ht) as Ut.
  rewrite <- (ab_const_generic m Hm) at 2. rewrite <- (ab_const_generic s Hs) at 2. rewrite <- (ab_const_generic t Ht) at 2.
  unfold from_const_generic, to_const_generic. cbn [mainnet stagenet testnet].
  set (x := AddressBytes.to_const_generic m) in *. set (y := AddressBytes.to_const_generic s) in *.
  set (z := AddressBytes.to_const_generic t) in *. clearbody x y z. unfold U in *.
  change (2 ^ 32 - 1) with (Z.ones 32).
  rewrite !Z.land_ones, !Z.shiftr_div_pow2, !Z.shiftl_mul_pow2 by lia.
  change (2 ^ 96) with 79228162514264337593543950336 in *. change (2 ^ 64) with 18446744073709551616 in *.
  change (2 ^ 32) with 4294967296 in *.
  do 2 f_equal; Z.to_euclidean_division_equations; lia.
Qed.

Lemma address_bytes_new_spec l i s f :
  AddressBytes.new l i s f =
    if bool_decide (NoDup (ab_list (AddressBytes.mk l i s f))) then Some (AddressBytes.mk l i s f) else None.
Proof.
  unfold AddressBytes.new, ab_list. cbn.
  case_bool_decide as Hn; rewrite !list.NoDup_cons, !not_elem_of_cons in Hn;
    destruct (Z.eqb_spec l i), (Z.eqb_spec l s), (Z.eqb_spec l f), (Z.eqb_spec i s), (Z.eqb_spec i f),
      (Z.eqb_spec s f); cbn; try reflexivity; exfalso;
    try (destruct_and?; congruence).
  apply Hn. repeat split; auto using NoDup_nil_2; try apply not_elem_of_nil; congruence.
Qed.

(** The loops of [new] find a conflict exactly when a byte occurs twice. *)
Lemma new_spec m s t : nab_ok (mk m s t) ->
  new m s t = if bool_decide (NoDup (nab_list (mk m s t))) then Some (mk m s t) else None.
Proof.
  intros Hb. unfold new. set (r := mk m s t) in *.
  match goal with |- (if ?c then _ else _) = _ =>
    assert (Hc : c = negb (bool_decide (NoDup (nab_list r)))); [|rewrite Hc; destruct (bool_decide _); reflexivity]
  end.
  assert (Hin : forall i, In i (seq 0 12) <-> (i < 12)%nat) by (intros i; rewrite in_seq; lia).
  assert (Hlook : forall i, (i < 12)%nat -> nab_list r !! i = Some (nab_list r !!! i))
    by (intros i Hi; apply list_lookup_lookup_total_lt; exact Hi).
  apply Bool.eq_iff_eq_true. rewrite negb_true_iff, bool_decide_eq_false, NoDup_alt. split.
  - rewrite existsb_exists. intros (i & Hi%Hin & Hj). rewrite existsb_exists in Hj. destruct Hj as (j & Hj%Hin & Heq) .
    destruct (Nat.eqb_spec i j) as [|Hne]; [discriminate|]. apply Z.eqb_eq in Heq.
    rewrite !nth_byte_packed in Heq by assumption. intros Hn. apply Hne, (Hn _ _ (nab_list r !!! i)); [auto|].
    rewrite Heq. auto.
  - intros Hn. apply not_false_iff_true. intros Hno. apply Hn. intros i j x Hi Hj.
    destruct (Nat.eq_dec i j) as [|Hne]; [assumption|]. exfalso.
    pose proof (lookup_lt_Some _ _ _ Hi). pose proof (lookup_lt_Some _ _ _ Hj).
    refine (eq_true_false_abs _ _ Hno). apply existsb_exists. exists i. rewrite Hin. split; [assumption|]. rewrite existsb_exists. exists j. rewrite Hin. split; [assumption|].
    rewrite (proj2 (Nat.eqb_neq i j) Hne), !nth_byte_packed by assumption. apply Z.eqb_eq.
    rewrite Hlook in Hi, Hj by assumption. congruence.
Qed.

(** What [metadata_from_byte] makes of a type: its payment ID and features
    are still to be read. *)
Definition blank (k : AddressType) : AddressType :=
  match k with
  | LegacyIntegrated _ => LegacyIntegrated (repeat 0 8)
  | Featured _ _ _ => Featured false None false
  | _ => k
  end.

Lemma blank_blank k : blank (blank k) = blank k.
Proof. destruct k; reflexivity. Qed.

Lemma metadata_sound b x n k : metadata_from_byte b x = Ok (n, k) -> blank k = k /\ byte b n k = x.
Proof.
  unfold metadata_from_byte. cbn [metadata_loop]. unfold kind_from_byte.
  repeat (match goal with |- context [?x =? ?y] => destruct (Z.eqb_spec x y) end;
    [intros [= <- <-]; split; [reflexivity|symmetry; assumption]|]).
  discriminate.
Qed.

Lemma metadata_complete b n k : NoDup (nab_list b) -> metadata_from_byte b (byte b n k) = Ok (n, blank k).
Proof.
  unfold nab_list, ab_list. destruct b as [[a1 a2 a3 a4] [b1 b2 b3 b4] [c1 c2 c3 c4]]. cbn.
  rewrite !list.NoDup_cons, !not_elem_of_cons. intros Hn. destruct_and? Hn.
  unfold metadata_from_byte. cbn [metadata_loop]. unfold kind_from_byte. cbn.
  destruct n, k; cbn; repeat (first [rewrite Z.eqb_refl | rewrite (proj2 (Z.eqb_neq _ _)) by congruence]; cbn);
    reflexivity.
Qed.
End Bytes.

(** ** The textual form *)

Section Mapped.
Context {E F A : Type} (f : E -> F).

#[export] Instance rmap_err_safe (r : reader E A) : ReaderSafe r -> ReaderSafe (rmap_err f r).
Proof.
  intros Hr bs Hbs. destruct (Hr bs Hbs) as [Hn Hpre]. unfold rmap_err.
  destruct (r bs) as [[a|e|] bs']; cbn in *; auto.
Qed.

(** Mapping its errors leaves a codec one. *)
#[export] Instance rmap_err_codec (r : reader E A) w P : Codec r w P -> Codec (rmap_err f r) w P.
Proof.
  intros HC. split; [apply (codec_bytes (r := r))| |  |apply _]; unfold rmap_err.
  - intros a rest Ha. rewrite codec_rt by exact Ha. reflexivity.
  - intros bs a rest Hbs H. destruct (r bs) as [[a'|e|] bs'] eqn:Hr; [|discriminate..].
    injection H as -> ->. exact (codec_sound _ _ _ Hbs Hr).
Qed.
End Mapped.

Section Text.
Import Address.
Context {D : Dalek} {DL : DalekLaws D} {K : Keccak} {KL : KeccakLaws K}.

#[export] Instance read_key_codec : Codec read_key Point.compress (fun _ => True).
Proof.
  split.
  - intros p _. apply ed_compress_array.
  - intros p rest _. unfold read_key. erewrite rbind_ok by (apply (codec_rt (w := CompressedPoint.write) (Point.compress p)), ed_compress_array).
    rewrite decompress_compress. reflexivity.
  - intros bs p rest Hbs H. unfold read_key in H. read_inv1. read_inv1.
    unfold rlift in H. destruct (CompressedPoint.decompress a) eqn:E; [|discriminate H].
    injection H as -> ->. apply compress_decompress in E. subst. auto.
  - unfold read_key. apply rbind_safe; [apply _|]. intros c bs _. unfold rlift.
    split; [destruct (CompressedPoint.decompress c); exact I|exists []; reflexivity].
Qed.

(** A payment ID is eight bytes. *)
Definition kind_ok (k : AddressType) : Prop :=
  match k with
  | LegacyIntegrated id | Featured _ (Some id) _ => is_array 8 id
  | _ => True
  end.

Definition read_kind (k : AddressType) : reader AddressError AddressType :=
  let* k := read_features k in read_payment_id k.

(** What [data] holds after the keys *)
Definition write_kind (k : AddressType) : bytes :=
  match k with Featured sa id g => VarInt.write (features_uint sa id g) | _ => [] end
  ++ match AddressType.payment_id k with Some id => id | None => [] end.

Lemma read_id_rt {E} (e : E) id rest : is_array 8 id ->
  rmap_err (fun _ => e) (read_bytes 8) (id ++ rest) = (Ok id, rest).
Proof. intros Hid. unfold rmap_err. rewrite read_bytes_rt by exact Hid. reflexivity. Qed.

Lemma features_small sa id g : 0 <= features_uint sa id g < 8.
Proof. destruct sa, id, g; vm_compute; (split; [discriminate|reflexivity]). Qed.

Lemma features_U sa id g : U 64 (features_uint sa id g).
Proof. pose proof (features_small sa id g). unfold U. lia. Qed.

Lemma features_sound x : U 64 x -> Z.shiftr x 3 = 0 ->
  x = features_uint (Z.land x 1 =? 1)
        (if Z.land (Z.shiftr x 1) 1 =? 1 then Some (repeat 0 8) else None)
        (Z.land (Z.shiftr x 2) 1 =? 1).
Proof.
  intros [Hx _] H. rewrite Z.shiftr_div_pow2 in H by lia. change (2 ^ 3) with 8 in H.
  assert (Hs : x = 0 \/ x = 1 \/ x = 2 \/ x = 3 \/ x = 4 \/ x = 5 \/ x = 6 \/ x = 7)
    by (Z.to_euclidean_division_equations; lia).
  destruct_or! Hs; subst x; reflexivity.
Qed.

Lemma read_features_rt sa id g rest :
  read_features (Featured false None false) (VarInt.write (features_uint sa id g) ++ rest)
  = (Ok (Featured sa ((fun _ => repeat 0 8) <$> id) g), rest).
Proof.
  unfold read_features. erewrite rbind_ok by (apply codec_rt, features_U).
  destruct sa, id, g; reflexivity.
Qed.

#[export] Instance read_kind_codec k0 : blank k0 = k0 ->
  Codec (read_kind k0) write_kind (fun k => kind_ok k /\ blank k = k0).
Proof.
  intros H0. unfold read_kind. split.
  - intros k [Hk _]. unfold write_kind. apply is_bytes_app_2.
    + destruct k; bytes_tac. apply (codec_bytes (r := VarInt.read VarInt.u64)), features_U.
    + destruct k as [|id| |sa [id|] g]; cbn in *; bytes_tac.
  - intros k rest [Hk <-]. destruct k as [|id| |sa id g]; try reflexivity.
    + unfold write_kind. cbn [blank kind_ok AddressType.payment_id app] in Hk |- *.
      cbn [read_features]. rewrite rbind_rret. cbn [read_payment_id].
      erewrite rbind_ok by (apply read_id_rt, Hk). reflexivity.
    + unfold write_kind. cbn [blank AddressType.payment_id]. rewrite <- app_assoc.
      erewrite rbind_ok by apply read_features_rt.
      destruct id as [id|]; cbn [kind_ok] in Hk; [|reflexivity].
      cbn [fmap option_fmap option_map read_payment_id]. erewrite rbind_ok by (apply read_id_rt, Hk); reflexivity.
  - intros bs k rest Hbs H. destruct k0 as [|id| |sa id g]; cbn [read_features] in H.
    + apply rret_ok_inv in H as [<- <-]. split; [split; [exact I|reflexivity]|reflexivity].
    + rewrite rbind_rret in H. cbn [read_payment_id] in H. read_inv. split; [split; [assumption|assumption]|]. reflexivity.
    + apply rret_ok_inv in H as [<- <-]. split; [split; [exact I|reflexivity]|reflexivity].
    + injection H0 as <- <- <-. cbn [blank]. read_inv1.
      apply rbind_ok_inv in Hm as (x & bs1 & Hx & Hm). destruct (codec_sound _ _ _ Hbs Hx) as [HP ->].
      destruct (negb _) eqn:E in Hm; [discriminate Hm|]. apply negb_false_iff, Z.eqb_eq in E.
      apply rret_ok_inv in Hm as [<- <-]. rewrite (features_sound _ HP E) at 1.
      apply is_bytes_app_r in Hbs. clear Hx HP E.
      revert H. generalize (Z.land x 1 =? 1) (Z.land (Z.shiftr x 2) 1 =? 1). intros sa g H.
      destruct (_ =? 1); cbn [read_payment_id] in H; read_inv; unfold write_kind; cbn [AddressType.payment_id kind_ok].
      * rewrite <- app_assoc. auto.
      * rewrite app_nil_r. auto.
  - unfold read_features, read_payment_id. safe_tac.
Qed.

Definition address_ok (a : t) : Prop := kind_ok (kind a).

Lemma byte_blank b n k : NetworkedAddressBytes.byte b n (blank k) = NetworkedAddressBytes.byte b n k.
Proof. destruct k; reflexivity. Qed.

Lemma byte_U b n k : nab_ok b -> U 8 (NetworkedAddressBytes.byte b n k).
Proof.
  unfold nab_ok, nab_list, ab_list, is_bytes. destruct b as [[? ? ? ?] [? ? ? ?] [? ? ? ?]]. cbn.
  rewrite !Forall_cons_iff. intros H. destruct_and? H. destruct n, k; assumption.
Qed.

Lemma data_eq AB a :
  data AB a = write_byte (NetworkedAddressBytes.byte (NetworkedAddressBytes.from_const_generic AB) (network a) (kind a))
    ++ Point.compress (spend a) ++ Point.compress (view a) ++ write_kind (kind a).
Proof. reflexivity. Qed.

Section Bytes.
Context (nab : NetworkedAddressBytes.t) (Hnab : nab_ok nab).
Let AB := NetworkedAddressBytes.to_const_generic nab.

Lemma read_key_rt p rest : read_key (Point.compress p ++ rest) = (Ok p, rest).
Proof. exact (codec_rt (r := read_key) (w := Point.compress) p rest I). Qed.

Lemma read_data a : NoDup (nab_list nab) -> address_ok a -> read AB (data AB a) = (Ok a, []).
Proof.
  intros Hnd Ha. rewrite data_eq. unfold read, AB. rewrite nab_const_generic by exact Hnab.
  assert (Hb : U 8 (NetworkedAddressBytes.byte nab (network a) (kind a))) by (apply byte_U, Hnab).
  read_run1. rewrite metadata_complete by exact Hnd. unfold rlift.
  erewrite rbind_ok by reflexivity. cbn beta iota. do 2 erewrite rbind_ok by apply read_key_rt.
  pose proof (codec_rt (Codec := read_kind_codec (blank (kind a)) (blank_blank _)) (kind a) [] (conj Ha eq_refl)) as Hk.
  rewrite app_nil_r in Hk. apply rbind_ok_inv in Hk as (k & bs' & Hk & Hk').
  erewrite rbind_ok by exact Hk. erewrite rbind_ok by exact Hk'. destruct a; reflexivity.
Qed.

Lemma data_bytes a : address_ok a -> is_bytes (data AB a).
Proof.
  intros Ha. rewrite data_eq. unfold AB. rewrite nab_const_generic by exact Hnab.
  apply is_bytes_app_2; [repeat constructor; apply byte_U, Hnab|].
  do 2 (apply is_bytes_app_2; [apply ed_compress_array|]).
  apply (codec_bytes (Codec := read_kind_codec (blank (kind a)) (blank_blank _))). split; [exact Ha|reflexivity].
Qed.

Lemma from_str_to_string {E} a : NoDup (nab_list nab) -> address_ok a ->
  exists s, to_string (E := E) AB a = Ok s /\ from_str_with_unchecked_network AB s = Ok a.
Proof.
  intros Hnd Ha. destruct (encode_check_ok (E := E) (data AB a) (data_bytes a Ha)) as (s & Hs & Hds). exists s. split; [exact Hs|].
  unfold from_str_with_unchecked_network. rewrite Hds. cbn [omap_err obind]. rewrite read_data by assumption.
  reflexivity.
Qed.
End Bytes.

Lemma read_sound AB bs a rest : is_bytes bs -> read AB bs = (Ok a, rest) ->
  address_ok a /\ bs = data AB a ++ rest.
Proof.
  intros Hbs H. unfold read in H. rewrite data_eq. read_inv1.
  destruct (codec_sound _ _ _ Hbs Hm) as [_ ->]. apply is_bytes_app_r in Hbs. clear Hm.
  apply rbind_ok_inv in H as ([n k0] & bs1 & Hm & H). unfold rlift in Hm. injection Hm as Hm ->.
  apply metadata_sound in Hm as [Hbl Hby]. cbn beta iota in H.
  apply rbind_ok_inv in H as (sp & bs2 & Hsp & H).
  destruct (codec_sound _ _ _ Hbs Hsp) as [_ ->]. apply is_bytes_app_r in Hbs.
  apply rbind_ok_inv in H as (vi & bs3 & Hvi & H).
  destruct (codec_sound _ _ _ Hbs Hvi) as [_ ->]. apply is_bytes_app_r in Hbs.
  apply rbind_ok_inv in H as (k1 & bs4 & Hk1 & H). apply rbind_ok_inv in H as (k2 & bs5 & Hk2 & H).
  apply rret_ok_inv in H as [<- <-].
  destruct (codec_sound (Codec := read_kind_codec k0 Hbl) bs3 k2 bs5 Hbs) as [[Hk Hkb] ->];
    [unfold read_kind; erewrite rbind_ok by exact Hk1; exact Hk2|].
  split; [exact Hk|]. cbn [network kind spend view].
  rewrite <- Hby, <- Hkb, byte_blank, <- !app_assoc. reflexivity.
Qed.

Lemma address_read_safe AB : ReaderSafe (read AB).
Proof.
  unfold read. apply rbind_safe; [apply _|intros b].
  apply (rbind_safe_post (fun nk => blank (snd nk) = snd nk)).
  - intros bs _. unfold rlift. split; [|exists []; reflexivity].
    cbn [fst]. unfold NetworkedAddressBytes.metadata_from_byte. destruct (NetworkedAddressBytes.metadata_loop _ _ _); exact I.
  - intros bs [n k] rest _ [= Hm ->]. apply metadata_sound in Hm as [Hk _]. exact Hk.
  - intros [n k] Hk. cbn in Hk. do 2 (apply rbind_safe; [apply _|intros ?]).
    intros bs Hbs. destruct (codec_safe (Codec := read_kind_codec k Hk) bs Hbs) as [Hn Hp].
    revert Hn Hp. unfold read_kind, rbind. destruct (read_features k bs) as [[k1|e|] bs1]; cbn; auto.
    destruct (read_payment_id k1 bs1) as [[k2|e|] bs2]; cbn; auto.
Qed.

Lemma from_str_sound AB str a : from_str_with_unchecked_network AB str = Ok a ->
  address_ok a /\ forall E, to_string (E := E) AB a = Ok str.
Proof.
  unfold from_str_with_unchecked_network. destruct (decode_check str) as [raw|e|] eqn:Hd; try discriminate. cbn [omap_err obind].
  destruct (decode_check_ok (E := unit) _ _ Hd) as [Hb _].
  destruct (read AB raw) as [[a'|e|] [|x rest]] eqn:Hr; try discriminate. intros [= <-].
  apply read_sound in Hr as [Ha ->]; [|exact Hb]. rewrite app_nil_r in *. split; [exact Ha|]. intros E. exact (proj2 (decode_check_ok (E := E) _ _ Hd)).
Qed.

Lemma to_string_bytes {E} AB a str : to_string (E := E) AB a = Ok str -> is_bytes str.
Proof. unfold to_string, encode_check. apply encode_bytes. Qed.
End Text.

(** ** Properties *)

Section Properties.
Import Address.

(** [AddressBytes::new] and [NetworkedAddressBytes::new] accept exactly
    the sets without a repeated byte; an accepted set survives its packing in
    the [const] generic, its bytes determine the network and the type, and no
    other byte is accepted.  Monero's own constants are such a set. *)
Theorem address_bytes_distinct :
  (forall l i s f, AddressBytes.new l i s f = None <-> ~ NoDup [l; i; s; f]) /\
  (forall m s t, nab_ok (NetworkedAddressBytes.mk m s t) ->
     NetworkedAddressBytes.new m s t = None <-> ~ NoDup (nab_list (NetworkedAddressBytes.mk m s t))) /\
  (forall m s t nab, nab_ok (NetworkedAddressBytes.mk m s t) -> NetworkedAddressBytes.new m s t = Some nab ->
     NetworkedAddressBytes.from_const_generic (NetworkedAddressBytes.to_const_generic nab) = nab /\
     (forall n k, NetworkedAddressBytes.metadata_from_byte nab (NetworkedAddressBytes.byte nab n k) = Ok (n, blank k)) /\
     forall b, NetworkedAddressBytes.metadata_from_byte nab b = Err (InvalidTypeByte b) <->
               ~ exists n k, NetworkedAddressBytes.byte nab n k = b) /\
  (exists nab, NetworkedAddressBytes.MONERO_BYTES = Some nab /\ nab_ok nab).
Proof.
  split; [|split; [|split]].
  - intros l i s f. rewrite address_bytes_new_spec. unfold ab_list. cbn.
    assert (Hp : NoDup [f; s; i; l] <-> NoDup [l; i; s; f]).
    { apply NoDup_Permutation_proper, Permutation_sym. exact (Permutation_rev [l; i; s; f]). }
    case_bool_decide; split; try discriminate; tauto.
  - intros m s t Hb. rewrite new_spec by exact Hb. case_bool_decide; split; try discriminate; tauto.
  - intros m s t nab Hb. rewrite new_spec by exact Hb. case_bool_decide as Hn; [|discriminate]. intros [= <-].
    split; [apply nab_const_generic, Hb|]. split; [intros; apply metadata_complete, Hn|].
    intros b. split.
    + intros He (n & k & <-). rewrite metadata_complete in He by exact Hn. discriminate.
    + intros Hno. destruct (NetworkedAddressBytes.metadata_from_byte _ b) as [[n k]|e|] eqn:Hm.
      * exfalso. apply Hno. exists n, k. apply metadata_sound, Hm.
      * unfold NetworkedAddressBytes.metadata_from_byte in Hm.
        destruct (NetworkedAddressBytes.metadata_loop _ _ _); [discriminate|]. symmetry. exact Hm.
      * unfold NetworkedAddressBytes.metadata_from_byte in Hm.
        destruct (NetworkedAddressBytes.metadata_loop _ _ _); discriminate.
  - eexists. split; [vm_compute; reflexivity|]. decide_now.
Qed.

Context {D : Dalek} {DL : DalekLaws D} {K : Keccak} {KL : KeccakLaws K}.

(** C22: An address prints without a panic, parses back to itself for any set
    of address bytes [NetworkedAddressBytes::new] accepts, on its own network
    and with the network unchecked, and is refused with the two networks
    named when another one is expected. *)
Theorem address_roundtrip (m s t : AddressBytes.t) nab a :
  nab_ok (NetworkedAddressBytes.mk m s t) -> NetworkedAddressBytes.new m s t = Some nab -> address_ok a ->
  let AB := NetworkedAddressBytes.to_const_generic nab in
  exists str, to_string (E := unit) AB a = Ok str /\
    from_str_with_unchecked_network AB str = Ok a /\
    forall n, from_str AB n str = if decide (network a = n) then Ok a else Err (DifferentNetwork n (network a)).
Proof.
  intros Hb Hnew Ha AB. rewrite new_spec in Hnew by exact Hb. case_bool_decide as Hn; [|discriminate].
  injection Hnew as <-. destruct (from_str_to_string (E := unit) _ Hb a Hn Ha) as (str & Hs & Hf).
  exists str. split; [exact Hs|]. split; [exact Hf|]. intros n. unfold from_str, AB. rewrite Hf. reflexivity.
Qed.

(** Parsing never panics, whatever the string and the bytes, and a string
    it accepts is the one the address prints as: no address has two accepted
    strings. *)
Theorem address_canonical AB str :
  no_panic (from_str_with_unchecked_network AB str) /\
  forall a, from_str_with_unchecked_network AB str = Ok a ->
    address_ok a /\ to_string (E := unit) AB a = Ok str.
Proof.
  split; [|intros a Ha; destruct (from_str_sound AB str a Ha) as [Hok Hs]; split; [exact Hok|apply Hs]].
  unfold from_str_with_unchecked_network. pose proof (decode_check_no_panic str) as Hn.
  destruct (decode_check str) as [raw|e|] eqn:Hd; [|exact I|contradiction].
  apply (decode_check_ok (E := unit)) in Hd as [Hb He]. cbn [omap_err obind].
  pose proof (address_read_safe AB raw Hb) as [Hs _].
  destruct (read AB raw) as [[a|e|] [|x rest]]; cbn in Hs; try exact I; contradiction.
Qed.

(** The length of a kind's part of [data] *)
Definition kind_len (k : AddressType) : nat :=
  match k with
  | Legacy | Subaddress => 0
  | LegacyIntegrated _ => 8
  | Featured _ None _ => 1
  | Featured _ (Some _) _ => 9
  end.

(** The length of an address as a string *)
Definition string_len (k : AddressType) : nat :=
  match k with
  | Legacy | Subaddress => 95
  | LegacyIntegrated _ => 106
  | Featured _ None _ => 97
  | Featured _ (Some _) _ => 108
  end.

Lemma write_kind_length k : kind_ok k -> length (write_kind k) = kind_len k.
Proof.
  destruct k as [|id| |sa [id|] g]; cbn; intros Hk; try reflexivity.
  - apply Hk.
  - rewrite length_app, (proj2 Hk). destruct sa, g; reflexivity.
  - rewrite app_nil_r. destruct sa, g; reflexivity.
Qed.

(** The length of a printed address is fixed by its type (95 characters
    for standard addresses and subaddresses, 106 for integrated ones, 97 and
    108 for featured ones) and within [SIZE_UPPER_BOUND], as is its data
    within [BASE_256_UPPER_BOUND]. *)
Theorem address_size (m s t : AddressBytes.t) nab a str :
  nab_ok (NetworkedAddressBytes.mk m s t) -> NetworkedAddressBytes.new m s t = Some nab -> address_ok a ->
  to_string (E := unit) (NetworkedAddressBytes.to_const_generic nab) a = Ok str ->
  length str = string_len (kind a) /\ len str <= SIZE_UPPER_BOUND /\
  len (data (NetworkedAddressBytes.to_const_generic nab) a) <= BASE_256_UPPER_BOUND.
Proof.
  intros Hb Hnew Ha Hs. rewrite new_spec in Hnew by exact Hb. case_bool_decide as Hn; [|discriminate].
  injection Hnew as <-. set (nab := NetworkedAddressBytes.mk m s t) in *. set (AB := NetworkedAddressBytes.to_const_generic nab) in *.
  assert (Hl : length (data AB a) = (65 + kind_len (kind a))%nat).
  { rewrite data_eq, !length_app, write_kind_length by exact Ha. unfold Point.compress.
    rewrite !(proj2 (ed_compress_array _)). reflexivity. }
  unfold to_string, encode_check in Hs.
  destruct (checksum_spec (data AB a)) as [Hcb Hcl].
  apply encode_length in Hs; [|apply is_bytes_app_2; [apply data_bytes; assumption|exact Hcb]].
  rewrite length_app, Hcl, Hl in Hs. unfold len. rewrite Hs, Hl.
  destruct (kind a) as [|id| |sa [id|] g]; vm_compute; (split; [reflexivity|split; discriminate]).
Qed.
End Properties.

Section Witness.
Import Model Address.

Definition example_bytes : NetworkedAddressBytes.t :=
  NetworkedAddressBytes.mk (AddressBytes.mk 18 19 42 70) (AddressBytes.mk 24 25 36 86) (AddressBytes.mk 53 54 63 111).

Definition example_address : t :=
  new Stagenet (Featured true (Some [1; 2; 3; 4; 5; 6; 7; 8]) false) (to_p 8) (to_p 48).

Lemma address_bytes_distinct_witness :
  nab_ok example_bytes /\ NetworkedAddressBytes.MONERO_BYTES = Some example_bytes /\
  NetworkedAddressBytes.from_const_generic (NetworkedAddressBytes.to_const_generic example_bytes) = example_bytes.
Proof.
  assert (Hb : nab_ok example_bytes) by decide_now. split; [exact Hb|]. split; [vm_compute; reflexivity|].
  destruct address_bytes_distinct as (_ & _ & H & _).
  apply (H (NetworkedAddressBytes.mainnet example_bytes) (NetworkedAddressBytes.stagenet example_bytes)
    (NetworkedAddressBytes.testnet example_bytes) example_bytes Hb). vm_compute. reflexivity.
Defined.

Lemma address_roundtrip_witness :
  exists str, to_string (E := unit) (NetworkedAddressBytes.to_const_generic example_bytes) example_address = Ok str /\
    from_str (NetworkedAddressBytes.to_const_generic example_bytes) Stagenet str = Ok example_address /\
    from_str (NetworkedAddressBytes.to_const_generic example_bytes) Mainnet str = Err (DifferentNetwork Mainnet Stagenet).
Proof.
  assert (Hb : nab_ok example_bytes) by decide_now.
  destruct (address_roundtrip (KL := keccak_laws) (AddressBytes.mk 18 19 42 70) (AddressBytes.mk 24 25 36 86)
    (AddressBytes.mk 53 54 63 111) example_bytes example_address Hb ltac:(vm_compute; reflexivity)
    ltac:(decide_now)) as (str & Hs & _ & Hf).
  exists str. split; [exact Hs|]. split; [exact (Hf Stagenet)|exact (Hf Mainnet)].
Defined.

Lemma address_canonical_witness :
  exists str, is_Some (ok_opt (from_str_with_unchecked_network
    (NetworkedAddressBytes.to_const_generic example_bytes) str)) /\
    to_string (E := unit) (NetworkedAddressBytes.to_const_generic example_bytes) example_address = Ok str.
Proof.
  destruct (from_str_to_string (KL := keccak_laws) (E := unit) example_bytes ltac:(decide_now) example_address
    ltac:(decide_now) ltac:(decide_now)) as (str & Hs & Hf).
  exists str.
  split; [rewrite Hf; eexists; reflexivity|].
  exact (proj2 (proj2 (address_canonical _ _) _ Hf)).
Defined.

Lemma address_size_witness :
  exists str, to_string (E := unit) (NetworkedAddressBytes.to_const_generic example_bytes) example_address = Ok str /\
    length str = 108%nat.
Proof.
  destruct (to_string (E := unit) (NetworkedAddressBytes.to_const_generic example_bytes) example_address)
    as [str| |] eqn:Hs; [|vm_compute in Hs; discriminate..].
  exists str. split; [reflexivity|].
  refine (proj1 (address_size (KL := keccak_laws) (AddressBytes.mk 18 19 42 70) (AddressBytes.mk 24 25 36 86)
    (AddressBytes.mk 53 54 63 111) example_bytes example_address str _ _ _ Hs));
    [decide_now|vm_compute; reflexivity|decide_now].
Defined.
End Witness.
