(* ===== verification/Epee.v ===== *)
(** The [monero-epee] crate ([epee/src/io.rs], [parser.rs], [stack.rs],
    [lib.rs]): a decoder for EPEE objects which allocates nothing.  What is
    left to decode is a stack of (type, amount) pairs packed into two arrays;
    entries and iterators are handles on it that advance past what their
    holder did not read when dropped.  [BytesLike] is modelled at its
    implementation for [&[u8]]. *)

From Stdlib Require Import ZArith Lia.
From stdpp Require Import base list numbers.
From S2P Require Import Prelude.

Inductive EpeeError : Type :=
| InternalError
| InvalidHeader
| InvalidVersion (version : option Z)
| Short (bytes : Z)
| UnrecognizedType
| EmptyKey
| DepthLimitExceeded
| TypeError
| EpeeReuse.

Abbreviation epee_reader := (reader EpeeError).

(** ** Bytes ([io.rs]) *)

(** [read_bytes], also [read_into_slice] of a slice of [n] bytes and
    [advance::<n>]: on an error the container stays as it was. *)
Definition read_bytes (n : Z) : epee_reader bytes :=
  fun bs =>
    if len bs <? n then (Err (Short n), bs)
    else (Ok (take (Z.to_nat n) bs), drop (Z.to_nat n) bs).

Definition read_byte : epee_reader Z :=
  let* buf := read_bytes 1 in
  match buf with b :: _ => rret b | [] => rpanic end.

Definition advance (n : Z) : epee_reader unit := rmap (fun _ => tt) (read_bytes n).

(** [for i in 1 .. len { vi |= u64::from(reader.read_byte()?) << (i * 8) }] *)
Fixpoint varint_loop (n : nat) (i vi : Z) : epee_reader Z :=
  match n with
  | O => rret vi
  | S n' =>
      let* b := read_byte in
      varint_loop n' (i + 1) (Z.lor vi (Z.shiftl b (i * 8)))
  end.

(** [read_varint] *)
Definition read_varint : epee_reader Z :=
  let* vi_start := read_byte in
  let* len :=
    match Z.land vi_start 3 with
    | 0 => rret 1%nat
    | 1 => rret 2%nat
    | 2 => rret 4%nat
    | 3 => rret 8%nat
    | _ => rpanic
    end in
  let* vi := varint_loop (len - 1) 1 vi_start in
  rret (Z.shiftr vi 2).

(** [usize::try_from(..).map_err(|_| EpeeError::Short(usize::MAX))] *)
Definition to_usize (x : Z) : epee_reader Z :=
  if x <=? USIZE_MAX then rret x else rfail (Short USIZE_MAX).

(** [read_str]; a [String] of [&[u8]] is its bytes. *)
Definition read_str : epee_reader bytes :=
  let* len := read_varint in
  let* len := to_usize len in
  read_bytes len.

(** ** Types ([parser.rs]) *)

(** [enum Type] *)
Inductive Type_ : Type :=
| Int64 | Int32 | Int16 | Int8 | Uint64 | Uint32 | Uint16 | Uint8 | Double | String | Bool | Object.

#[export] Instance Type_eq_dec : EqDecision Type_.
Proof. solve_decision. Defined.

(** [enum TypeOrEntry] *)
Inductive TypeOrEntry : Type :=
| OfType (kind : Type_)
| Entry.

#[export] Instance TypeOrEntry_eq_dec : EqDecision TypeOrEntry.
Proof. solve_decision. Defined.

(** [kind as u8] *)
Definition as_u8 (kind : Type_) : Z :=
  match kind with
  | Int64 => 1 | Int32 => 2 | Int16 => 3 | Int8 => 4 | Uint64 => 5 | Uint32 => 6 | Uint16 => 7
  | Uint8 => 8 | Double => 9 | String => 10 | Bool => 11 | Object => 12
  end.

(** The [match] on a byte in [Type::read] and, [Entry] apart, in [PackedTypes::get] *)
Definition type_of (kind : Z) : option Type_ :=
  match kind with
  | 1 => Some Int64 | 2 => Some Int32 | 3 => Some Int16 | 4 => Some Int8
  | 5 => Some Uint64 | 6 => Some Uint32 | 7 => Some Uint16 | 8 => Some Uint8
  | 9 => Some Double | 10 => Some String | 11 => Some Bool | 12 => Some Object
  | _ => None
  end.

Definition ARRAY : Z := 128.

(** [Type::read] *)
Definition read_type : epee_reader (Type_ * Z) :=
  let* kind := read_byte in
  let array := Z.land kind ARRAY in
  let kind := Z.land kind (Z.lxor 255 ARRAY) in
  match type_of kind with
  | None => rfail UnrecognizedType
  | Some kind =>
      let* len := if negb (array =? 0) then read_varint else rret 1 in
      rret (kind, len)
  end.

(** [read_key] *)
Definition read_key : epee_reader bytes :=
  let* len := read_byte in
  if len =? 0 then rfail EmptyKey else read_bytes len.

(** ** The stack ([stack.rs]) *)

Definition EPEE_LIB_MAX_OBJECT_DEPTH : nat := 100.
Definition MAX_OBJECT_DEPTH : nat := EPEE_LIB_MAX_OBJECT_DEPTH + 2.

(** [struct PackedTypes]: a nibble for each type *)
Module PackedTypes.
Definition get {E} (self : bytes) (i : nat) : outcome E TypeOrEntry :=
  let? entry := expect (self !! (i / 2)%nat) in
  let entry := Z.shiftr entry (Z.land (Z.of_nat i) 1 * 4) in
  let entry := Z.land entry 15 in
  if entry =? 0 then Ok Entry else let? kind := expect (type_of entry) in Ok (OfType kind).

Definition set {E} (self : bytes) (i : nat) (kind : TypeOrEntry) : outcome E bytes :=
  let four_bits := match kind with Entry => 0 | OfType kind => as_u8 kind end in
  let shift := Z.land (Z.of_nat i) 1 * 4 in
  let? b := expect (self !! (i / 2)%nat) in
  let b := Z.land b (Z.shiftr 240 shift) in
  let b := Z.lor b (Z.shiftl four_bits shift mod 2 ^ 8) in
  Ok (<[(i / 2)%nat := b]> self).
End PackedTypes.

(** [struct Stack] *)
Module Stack.
Record t := mk { types : bytes; amounts : list Z; depth : nat }.

Definition root_object {E} : outcome E t :=
  let types := repeat 0 ((MAX_OBJECT_DEPTH + 1) / 2) in
  let amounts := repeat 1 MAX_OBJECT_DEPTH in
  let? types := PackedTypes.set types 0 (OfType Object) in
  Ok (mk types (<[0%nat := 1]> amounts) 1).

Definition peek {E} (self : t) : outcome E (option (TypeOrEntry * Z)) :=
  match depth self with
  | O => Ok None
  | S i =>
      let? kind := PackedTypes.get (types self) i in
      let? amount := expect (amounts self !! i) in
      Ok (Some (kind, amount))
  end.

Definition pop {E} (self : t) : outcome E (option TypeOrEntry * t) :=
  match depth self with
  | O => Ok (None, self)
  | S i =>
      let? kind := PackedTypes.get (types self) i in
      let? amount := expect (amounts self !! i) in
      let amount := amount - 1 in
      if negb (amount =? 0) then Ok (Some kind, mk (types self) (<[i := amount]> (amounts self)) (depth self))
      else Ok (Some kind, mk (types self) (amounts self) (depth self - 1))
  end.

Definition push (self : t) (kind : TypeOrEntry) (amount : Z) : outcome EpeeError t :=
  if (depth self =? MAX_OBJECT_DEPTH)%nat then Err DepthLimitExceeded
  else if amount =? 0 then Ok self
  else
    let? types := PackedTypes.set (types self) (depth self) kind in
    let? _ := expect (amounts self !! depth self) in
    Ok (mk types (<[depth self := amount]> (amounts self)) (depth self + 1)).
End Stack.

(** ** Stepping ([parser.rs]) *)

(** The decoder's two mutable parts, and computations on them *)
Definition decoder : Type := Stack.t * bytes.
Definition dec (A : Type) : Type := decoder -> outcome EpeeError A * decoder.

Definition dret {A} (a : A) : dec A := fun d => (Ok a, d).
Definition dbind {A B} (m : dec A) (k : A -> dec B) : dec B :=
  fun d =>
    match m d with
    | (Ok a, d') => k a d'
    | (Err e, d') => (Err e, d')
    | (Panic, d') => (Panic, d')
    end.

Notation "'let!' x := m 'in' k" := (dbind m (fun x => k))
  (at level 10, x pattern, m at level 100, k at level 200) : oxide_scope.

(** A read of the encoding *)
Definition on_encoding {A} (r : epee_reader A) : dec A :=
  fun d => match r (snd d) with (o, bs) => (o, (fst d, bs)) end.

Definition dpop : dec (option TypeOrEntry) :=
  fun d =>
    match Stack.pop (fst d) with
    | Ok (kind, s) => (Ok kind, (s, snd d))
    | Err e => (Err e, d)
    | Panic => (Panic, d)
    end.

Definition dpush (kind : TypeOrEntry) (amount : Z) : dec unit :=
  fun d =>
    match Stack.push (fst d) kind amount with
    | Ok s => (Ok tt, (s, snd d))
    | Err e => (Err e, d)
    | Panic => (Panic, d)
    end.

(** [enum SingleStepResult] *)
Inductive SingleStepResult : Type :=
| StepObject (fields : Z)
| StepEntry (key : bytes) (kind : Type_) (len : Z)
| StepUnit.

(** The bytes of a type of fixed size *)
Definition size_of (kind : Type_) : Z :=
  match kind with
  | Int64 | Uint64 | Double => 8
  | Int32 | Uint32 => 4
  | Int16 | Uint16 => 2
  | Int8 | Uint8 | Bool => 1
  | String | Object => 0
  end.

(** [single_step] *)
Definition single_step : dec (option SingleStepResult) :=
  let! kind := dpop in
  match kind with
  | None => dret None
  | Some (OfType String) =>
      let! _ := on_encoding read_str in dret (Some StepUnit)
  | Some (OfType Object) =>
      let! fields := on_encoding read_varint in
      let! fields := on_encoding (to_usize fields) in
      let! _ := dpush Entry fields in
      dret (Some (StepObject fields))
  | Some (OfType kind) =>
      let! _ := on_encoding (advance (size_of kind)) in dret (Some StepUnit)
  | Some Entry =>
      let! key := on_encoding read_key in
      let! (kind, len) := on_encoding read_type in
      let! len := on_encoding (to_usize len) in
      let! _ := dpush (OfType kind) len in
      dret (Some (StepEntry key kind len))
  end.

(** [step]'s loop.  Every iteration consumes a byte or fails, so [step] gives
    it more rounds than there are bytes; [step_terminates] shows that none is
    cut short. *)
Fixpoint step_loop (fuel : nat) (stop_at_stack_depth : nat) : dec unit :=
  match fuel with
  | O => fun d => (Panic, d)
  | S fuel' =>
      let! _ := single_step in
      fun d =>
        if (Stack.depth (fst d) =? stop_at_stack_depth)%nat then (Ok tt, d)
        else step_loop fuel' stop_at_stack_depth d
  end.

(** [step] *)
Definition step : dec (option unit) :=
  fun d =>
    match Stack.peek (fst d) with
    | Ok None => (Ok None, d)
    | Ok (Some (_, len)) =>
        let current_stack_depth := Stack.depth (fst d) in
        let stop_at_stack_depth := if 1 <? len then current_stack_depth else (current_stack_depth - 1)%nat in
        (let! _ := step_loop (S (length (snd d))) stop_at_stack_depth in dret (Some tt)) d
    | Err e => (Err e, d)
    | Panic => (Panic, d)
    end.

(** ** The decoder and its handles ([lib.rs]) *)

Definition HEADER : bytes := [1; 17; 1; 1; 1; 1; 2; 1].
Definition VERSION : Z := 1.

(** [struct Epee] *)
Module Epee.
Record t := mk { current_encoding_state : bytes; stack : Stack.t; error : option EpeeError }.

(** [new] *)
Definition new (encoding : bytes) : outcome EpeeError t :=
  match read_bytes (len HEADER) encoding with
  | (Ok present_header, encoding) =>
      if negb (bool_decide (present_header = HEADER)) then Err InvalidHeader
      else
        match rok read_byte encoding with
        | (Ok version, encoding) =>
            if negb (bool_decide (version = Some VERSION)) then Err (InvalidVersion version)
            else let? stack := Stack.root_object in Ok (mk encoding stack None)
        | (Err e, _) => Err e
        | (Panic, _) => Panic
        end
  | (Err e, _) => Err e
  | (Panic, _) => Panic
  end.

(** A computation on the stack and the encoding, whose error is returned and
    not recorded in [error] *)
Definition run {A} (m : dec A) (self : t) : outcome EpeeError A * t :=
  match m (stack self, current_encoding_state self) with
  | (o, (s, bs)) => (o, mk bs s (error self))
  end.

(** [while root.error.is_none() && (len != 0) { root.error = step(..).err(); len -= 1; }],
    the body of every [Drop] *)
Fixpoint drop_loop {E} (len : nat) (self : t) : outcome E t :=
  match len with
  | O => Ok self
  | S len' =>
      match error self with
      | Some _ => Ok self
      | None =>
          match run step self with
          | (Ok _, self) => drop_loop len' (mk (current_encoding_state self) (stack self) None)
          | (Err e, self) => drop_loop len' (mk (current_encoding_state self) (stack self) (Some e))
          | (Panic, _) => Panic
          end
      end
  end.
End Epee.

(** [struct EpeeEntry]: [root] tells if it still holds the decoder. *)
Module EpeeEntry.
Record t := mk { root : bool; kind : Type_; len : Z }.

(** [drop] *)
Definition drop {E} (self : t) (epee : Epee.t) : outcome E Epee.t :=
  if root self then Epee.drop_loop (Z.to_nat (len self)) epee else Ok epee.

(** [self.root.take()]; the handle that is left does nothing when dropped. *)
Definition take (self : t) : option unit * t :=
  (if root self then Some tt else None, mk false (kind self) (len self)).
End EpeeEntry.

(** [Epee::entry] *)
Definition entry (self : Epee.t) : outcome EpeeError EpeeEntry.t :=
  if negb (Stack.depth (Epee.stack self) =? 1)%nat || (match Epee.error self with Some _ => true | None => false end)
  then Err EpeeReuse
  else Ok (EpeeEntry.mk true Object 1).

(** [struct FieldIterator] *)
Module FieldIterator.
Record t := mk { len : Z }.

Definition drop {E} (self : t) (epee : Epee.t) : outcome E Epee.t := Epee.drop_loop (Z.to_nat (len self)) epee.

(** [next] *)
Definition next (self : t) (epee : Epee.t) : option (outcome EpeeError (bytes * EpeeEntry.t)) * (t * Epee.t) :=
  match Epee.error epee with
  | Some error => (Some (Err error), (self, epee))
  | None =>
      if len self =? 0 then (None, (self, epee))
      else
        let self := mk (len self - 1) in
        match Epee.run single_step epee with
        | (Ok (Some (StepEntry key kind len)), epee) => (Some (Ok (key, EpeeEntry.mk true kind len)), (self, epee))
        | (Ok _, epee) => (Some (Err InternalError), (self, epee))
        | (Err e, epee) => (Some (Err e), (self, epee))
        | (Panic, epee) => (Some Panic, (self, epee))
        end
  end.
End FieldIterator.

(** [struct ArrayIterator] *)
Module ArrayIterator.
Record t := mk { kind : Type_; len : Z }.

Definition drop {E} (self : t) (epee : Epee.t) : outcome E Epee.t := Epee.drop_loop (Z.to_nat (len self)) epee.

(** [next] *)
Definition next (self : t) (epee : Epee.t) : option (outcome EpeeError EpeeEntry.t) * t :=
  match Epee.error epee with
  | Some error => (Some (Err error), self)
  | None =>
      if len self =? 0 then (None, self)
      else (Some (Ok (EpeeEntry.mk true (kind self) 1)), mk (kind self) (len self - 1))
  end.
End ArrayIterator.

(** A method consuming an entry: what it returns, after the drop of what is
    left of the entry *)
Definition dropping {A} (self : EpeeEntry.t) (r : outcome EpeeError A) (epee : Epee.t) : outcome EpeeError A * Epee.t :=
  match EpeeEntry.drop (E := EpeeError) self epee with
  | Ok epee => (r, epee)
  | Err e => (Err e, epee)
  | Panic => (Panic, epee)
  end.

(** [EpeeEntry::fields] *)
Definition fields (self : EpeeEntry.t) (epee : Epee.t) : outcome EpeeError FieldIterator.t * Epee.t :=
  let (root, self) := EpeeEntry.take self in
  match root with
  | None => dropping self (Err InternalError) epee
  | Some _ =>
      match Epee.error epee with
      | Some err => dropping self (Err err) epee
      | None =>
          if negb (bool_decide (EpeeEntry.kind self = Object)) || negb (EpeeEntry.len self =? 1)
          then dropping self (Err TypeError) epee
          else
            match Epee.run single_step epee with
            | (Ok (Some (StepObject fields)), epee) => dropping self (Ok (FieldIterator.mk fields)) epee
            | (Ok _, epee) => dropping self (Err InternalError) epee
            | (Err e, epee) => dropping self (Err e) epee
            | (Panic, epee) => (Panic, epee)
            end
      end
  end.

(** [EpeeEntry::iterate] *)
Definition iterate (self : EpeeEntry.t) (epee : Epee.t) : outcome EpeeError ArrayIterator.t * Epee.t :=
  let (root, self) := EpeeEntry.take self in
  match root with
  | None => dropping self (Err InternalError) epee
  | Some _ =>
      match Epee.error epee with
      | Some err => dropping self (Err err) epee
      | None => dropping self (Ok (ArrayIterator.mk (EpeeEntry.kind self) (EpeeEntry.len self))) epee
      end
  end.

(** [root.stack.pop(); read(&mut root.current_encoding_state)] *)
Definition pop_and_read {A} (r : epee_reader A) : dec A :=
  let! _ := dpop in on_encoding r.

(** What [to_primitive] and [to_str] share *)
Definition to_read {A} (kind : Type_) (r : epee_reader A) (self : EpeeEntry.t) (epee : Epee.t)
  : outcome EpeeError A * Epee.t :=
  if negb (bool_decide (EpeeEntry.kind self = kind)) || negb (EpeeEntry.len self =? 1)
  then dropping self (Err TypeError) epee
  else
    let (root, self) := EpeeEntry.take self in
    match root with
    | None => dropping self (Err InternalError) epee
    | Some _ =>
        match Epee.error epee with
        | Some error => dropping self (Err error) epee
        | None =>
            match Epee.run (pop_and_read r) epee with
            | (o, epee) => dropping self o epee
            end
        end
    end.

(** [to_primitive] into a slice of [n] bytes *)
Definition to_primitive (kind : Type_) (n : Z) : EpeeEntry.t -> Epee.t -> outcome EpeeError bytes * Epee.t :=
  to_read kind (read_bytes n).

Definition map_res {A B} (f : A -> B) (x : outcome EpeeError A * Epee.t) : outcome EpeeError B * Epee.t :=
  (let? a := fst x in Ok (f a), snd x).

(** [i64::from_le_bytes], [i32::from_le_bytes], .. *)
Definition from_le_signed (bits : Z) (bs : bytes) : Z :=
  let x := from_le bs in if x <? 2 ^ (bits - 1) then x else x - 2 ^ bits.

Definition to_i64 self epee := map_res (from_le_signed 64) (to_primitive Int64 8 self epee).
Definition to_i32 self epee := map_res (from_le_signed 32) (to_primitive Int32 4 self epee).
Definition to_i16 self epee := map_res (from_le_signed 16) (to_primitive Int16 2 self epee).
Definition to_i8 self epee := map_res (from_le_signed 8) (to_primitive Int8 1 self epee).
Definition to_u64 self epee := map_res from_le (to_primitive Uint64 8 self epee).
Definition to_u32 self epee := map_res from_le (to_primitive Uint32 4 self epee).
Definition to_u16 self epee := map_res from_le (to_primitive Uint16 2 self epee).
Definition to_u8 self epee := map_res from_le (to_primitive Uint8 1 self epee).
(** The bits of the [f64] *)
Definition to_f64 self epee := map_res from_le (to_primitive Double 8 self epee).
Definition to_bool self epee := map_res (fun bs => negb (from_le bs =? 0)) (to_primitive Bool 1 self epee).

(** [to_str] *)
Definition to_str : EpeeEntry.t -> Epee.t -> outcome EpeeError bytes * Epee.t := to_read String read_str.

(** [to_fixed_len_str]: the entry is gone by the time the length is compared. *)
Definition to_fixed_len_str (self : EpeeEntry.t) (n : Z) (epee : Epee.t) : outcome EpeeError bytes * Epee.t :=
  let (r, epee) := to_str self epee in
  (let? str := r in if negb (len str =? n) then Err TypeError else Ok str, epee).

(** ** Packed types *)

Section Packed.
Lemma type_of_as_u8 k : type_of (as_u8 k) = Some k.
Proof. destruct k; reflexivity. Qed.

Lemma as_u8_range k : 1 <= as_u8 k <= 12.
Proof. destruct k; cbn; lia. Qed.

Definition code (k : TypeOrEntry) : Z := match k with Entry => 0 | OfType k => as_u8 k end.

Definition decode_nibble {E} (c : Z) : outcome E TypeOrEntry :=
  if c =? 0 then Ok Entry else let? kind := expect (type_of c) in Ok (OfType kind).

Lemma decode_code {E} k : decode_nibble (E := E) (code k) = Ok k.
Proof. destruct k as [k|]; [destruct k|]; reflexivity. Qed.

(** The nibbles of a byte, after one of them was set *)
Definition nibble (b : Z) (r : bool) : Z := Z.land (Z.shiftr b (if r then 4 else 0)) 15.
Definition set_nibble (b : Z) (r : bool) (c : Z) : Z :=
  Z.lor (Z.land b (Z.shiftr 240 (if r then 4 else 0))) (Z.shiftl c (if r then 4 else 0) mod 2 ^ 8).

Lemma set_nibble_spec b r c : U 8 b -> 0 <= c <= 12 ->
  U 8 (set_nibble b r c) /\ nibble (set_nibble b r c) r = c /\
  nibble (set_nibble b r c) (negb r) = nibble b (negb r).
Proof.
  intros Hb Hc.
  assert (H : forallb (fun c => forallb (fun r =>
      (0 <=? set_nibble b r c) && (set_nibble b r c <? 256) && (nibble (set_nibble b r c) r =? c) &&
      (nibble (set_nibble b r c) (negb r) =? nibble b (negb r))) [true; false]) (seqZ 0 13) = true).
  { apply (byte_forall (fun b => forallb (fun c => forallb (fun r =>
      (0 <=? set_nibble b r c) && (set_nibble b r c <? 256) && (nibble (set_nibble b r c) r =? c) &&
      (nibble (set_nibble b r c) (negb r) =? nibble b (negb r))) [true; false]) (seqZ 0 13))); [vm_compute; reflexivity|exact Hb]. }
  rewrite forallb_forall in H. specialize (H c (proj1 (list_elem_of_In _ _) (proj2 (elem_of_seqZ 0 13 c) ltac:(lia)))).
  rewrite forallb_forall in H. specialize (H r ltac:(destruct r; cbn; tauto)).
  rewrite !andb_true_iff, Z.leb_le, Z.ltb_lt, !Z.eqb_eq in H. unfold U. change (2 ^ 8) with 256. tauto.
Qed.

Lemma odd_shift i : Z.land (Z.of_nat i) 1 * 4 = if Nat.odd i then 4 else 0.
Proof.
  change 1 with (Z.ones 1). rewrite Z.land_ones by lia. change (2 ^ 1) with 2.
  destruct (Nat.Even_or_Odd i) as [[m ->]|[m ->]].
  - rewrite Nat.odd_even. replace (Z.of_nat (2 * m)) with (Z.of_nat m * 2) by lia. rewrite Z.mod_mul by lia. reflexivity.
  - rewrite Nat.odd_odd. replace (Z.of_nat (2 * m + 1)) with (1 + Z.of_nat m * 2) by lia.
    rewrite Z.mod_add by lia. reflexivity.
Qed.

Lemma get_eq {E} t i b : t !! (i / 2)%nat = Some b ->
  PackedTypes.get (E := E) t i = decode_nibble (nibble b (Nat.odd i)).
Proof. intros Hb. unfold PackedTypes.get. rewrite Hb, odd_shift. reflexivity. Qed.

Lemma set_eq {E} t i k b : t !! (i / 2)%nat = Some b ->
  PackedTypes.set (E := E) t i k = Ok (<[(i / 2)%nat := set_nibble b (Nat.odd i) (code k)]> t).
Proof. intros Hb. unfold PackedTypes.set. rewrite Hb, odd_shift. reflexivity. Qed.

Lemma code_range k : 0 <= code k <= 12.
Proof. destruct k as [k|]; cbn; [pose proof (as_u8_range k)|]; lia. Qed.

(** Setting a slot changes no other. *)
Lemma set_spec {E} t i k : is_bytes t -> (i / 2 < length t)%nat ->
  exists t', PackedTypes.set (E := E) t i k = Ok t' /\ is_bytes t' /\ length t' = length t /\
    (forall F, PackedTypes.get (E := F) t' i = Ok k) /\
    forall F j, j <> i -> PackedTypes.get (E := F) t' j = PackedTypes.get t j.
Proof.
  intros Ht Hi. destruct (lookup_lt_is_Some_2 _ _ Hi) as [b Hb].
  assert (HU : U 8 b) by exact (proj1 (Forall_lookup _ _) Ht _ _ Hb).
  destruct (set_nibble_spec b (Nat.odd i) (code k) HU (code_range k)) as (H1 & H2 & H3).
  exists (<[(i / 2)%nat := set_nibble b (Nat.odd i) (code k)]> t). rewrite (set_eq _ _ _ b Hb).
  split; [reflexivity|]. split; [apply Forall_insert; assumption|]. split; [apply length_insert|]. split.
  - intros F. rewrite (get_eq _ _ (set_nibble b (Nat.odd i) (code k))) by (rewrite list_lookup_insert_eq by lia; reflexivity).
    rewrite H2. apply decode_code.
  - intros F j Hj. destruct (Nat.eq_dec (j / 2)%nat (i / 2)%nat) as [Heq|Hne].
    + assert (Hodd : Nat.odd j = negb (Nat.odd i)).
      { rewrite <- !Nat.bit0_odd. pose proof (Nat.div_mod_eq i 2). pose proof (Nat.div_mod_eq j 2).
        rewrite !Nat.bit0_eqb. pose proof (Nat.mod_upper_bound i 2). pose proof (Nat.mod_upper_bound j 2).
        destruct (Nat.eqb_spec (j mod 2)%nat 1), (Nat.eqb_spec (i mod 2)%nat 1); cbn; try reflexivity; exfalso; lia. }
      rewrite (get_eq _ _ (set_nibble b (Nat.odd i) (code k))) by (rewrite Heq, list_lookup_insert_eq by lia; reflexivity).
      rewrite (get_eq t j b) by (rewrite Heq; exact Hb). rewrite Hodd, H3. reflexivity.
    + unfold PackedTypes.get. rewrite list_lookup_insert_ne by congruence. reflexivity.
Qed.
End Packed.

(** ** The stack as a list

    What the stack promises: a list of pairs, the top first, each for so many
    items of a type. *)

Module StackSpec.
Definition t : Type := list (TypeOrEntry * Z).

Definition root_object : t := [(OfType Object, 1)].

Definition peek (l : t) : option (TypeOrEntry * Z) := head l.

Definition pop (l : t) : option TypeOrEntry * t :=
  match l with
  | [] => (None, [])
  | (k, n) :: l' => (Some k, if n =? 1 then l' else (k, n - 1) :: l')
  end.

Definition push (l : t) (k : TypeOrEntry) (n : Z) : outcome EpeeError t :=
  if (length l =? MAX_OBJECT_DEPTH)%nat then Err DepthLimitExceeded
  else if n =? 0 then Ok l
  else Ok ((k, n) :: l).
End StackSpec.

Section Refinement.
Fixpoint repr_items (types : bytes) (amounts : list Z) (l : StackSpec.t) : Prop :=
  match l with
  | [] => True
  | (k, n) :: l' =>
      (forall F, PackedTypes.get (E := F) types (length l') = Ok k) /\ amounts !! length l' = Some n /\
      0 < n <= USIZE_MAX /\ repr_items types amounts l'
  end.

(** The packed stack [s] stands for the list [l]. *)
Definition repr (s : Stack.t) (l : StackSpec.t) : Prop :=
  is_bytes (Stack.types s) /\ length (Stack.types s) = 51%nat /\
  length (Stack.amounts s) = MAX_OBJECT_DEPTH /\
  Stack.depth s = length l /\ (length l <= MAX_OBJECT_DEPTH)%nat /\
  repr_items (Stack.types s) (Stack.amounts s) l.

Lemma repr_items_frame types amounts types' amounts' l :
  (forall i, (i < length l)%nat -> (forall F, PackedTypes.get (E := F) types' i = PackedTypes.get types i) /\
                                   amounts' !! i = amounts !! i) ->
  repr_items types amounts l -> repr_items types' amounts' l.
Proof.
  induction l as [|[k n] l IH]; cbn [repr_items length]; intros Hf; [auto|]. intros (H1 & H2 & H3 & H4).
  destruct (Hf (length l) ltac:(lia)) as [Hg Ha].
  split_and!; try lia; [intros F; rewrite Hg; apply H1|rewrite Ha; exact H2|apply IH; [intros i Hi; apply Hf; lia|exact H4]].
Qed.

Lemma div2_lt i : (i < MAX_OBJECT_DEPTH)%nat -> (i / 2 < 51)%nat.
Proof. unfold MAX_OBJECT_DEPTH, EPEE_LIB_MAX_OBJECT_DEPTH. intros Hi. apply Nat.Div0.div_lt_upper_bound. lia. Qed.

Lemma root_object_refines {E} : exists s, Stack.root_object (E := E) = Ok s /\ repr s StackSpec.root_object.
Proof.
  eexists. split; [reflexivity|]. split; [decide_now|].
  do 3 (split; [reflexivity|]). split; [unfold MAX_OBJECT_DEPTH, EPEE_LIB_MAX_OBJECT_DEPTH; cbn; lia|].
  split; [intros; reflexivity|]. split; [reflexivity|]. split; [unfold USIZE_MAX, USIZE_BITS; lia|exact I].
Qed.

Lemma peek_refines {E} s l : repr s l -> Stack.peek (E := E) s = Ok (StackSpec.peek l).
Proof.
  intros (_ & _ & _ & Hd & _ & Hi). unfold Stack.peek. rewrite Hd. destruct l as [|[k n] l]; [reflexivity|].
  cbn [length]. destruct Hi as (Hg & Ha & _). rewrite Hg, Ha. reflexivity.
Qed.

Lemma pop_refines {E} s l : repr s l ->
  exists s', Stack.pop (E := E) s = Ok (fst (StackSpec.pop l), s') /\ repr s' (snd (StackSpec.pop l)).
Proof.
  intros Hr. pose proof Hr as (Hb & Ht & Hal & Hd & Hm & Hi). unfold Stack.pop. rewrite Hd.
  destruct l as [|[k n] l]; [eauto|]. cbn [length] in *. destruct Hi as (Hg & Ha & Hn & Hi).
  rewrite Hg, Ha. cbn [expect obind StackSpec.pop fst snd].
  destruct (Z.eqb_spec n 1) as [->|Hn1].
  - eexists. split; [reflexivity|]. unfold repr. cbn [Stack.types Stack.amounts Stack.depth].
    split_and!; try assumption; lia.
  - rewrite (proj2 (Z.eqb_neq (n - 1) 0)) by lia. cbn [negb]. eexists. split; [reflexivity|].
    unfold repr. cbn [Stack.types Stack.amounts Stack.depth repr_items length]. rewrite length_insert.
    split_and!; try assumption; try lia.
    + apply list_lookup_insert_eq. lia.
    + revert Hi. apply repr_items_frame. intros i Hil. split; [reflexivity|]. apply list_lookup_insert_ne. lia.
Qed.

Lemma push_refines s l k n : repr s l -> 0 <= n <= USIZE_MAX ->
  match StackSpec.push l k n with
  | Ok l' => exists s', Stack.push s k n = Ok s' /\ repr s' l'
  | Err e => Stack.push s k n = Err e
  | Panic => False
  end.
Proof.
  intros Hr Hn. pose proof Hr as (Hb & Ht & Hal & Hd & Hm & Hi). unfold Stack.push, StackSpec.push. rewrite Hd.
  destruct (Nat.eqb_spec (length l) MAX_OBJECT_DEPTH) as [|Hlt]; [reflexivity|].
  destruct (Z.eqb_spec n 0) as [|Hn0]; [eauto|].
  destruct (set_spec (E := EpeeError) (Stack.types s) (length l) k Hb) as (t' & Hs & Hb' & Hl' & Hget & Hoth);
    [rewrite Ht; apply div2_lt; lia|].
  rewrite Hs. cbn [obind].
  destruct (lookup_lt_is_Some_2 (Stack.amounts s) (length l) ltac:(lia)) as [a Ha]. rewrite Ha. cbn [expect obind].
  eexists. split; [reflexivity|]. unfold repr. cbn [Stack.types Stack.amounts Stack.depth repr_items length].
  rewrite length_insert. split_and!; try assumption; try lia.
  - apply list_lookup_insert_eq. lia.
  - revert Hi. apply repr_items_frame. intros i Hil. split; [intros F; apply Hoth; lia|].
    apply list_lookup_insert_ne. lia.
Qed.
End Refinement.

(** ** Reads: no panic, a prefix consumed, and at least a byte of it *)

(** A successful read consumes [k] bytes or more. *)
Definition eats {A} (k : nat) (r : epee_reader A) : Prop :=
  forall bs a rest, r bs = (Ok a, rest) -> (length rest + k <= length bs)%nat.

Section Reads.
Lemma eats_bind {A B} k k' (m : epee_reader A) (f : A -> epee_reader B) :
  eats k m -> (forall a, eats k' (f a)) -> eats (k + k') (rbind m f).
Proof.
  intros Hm Hf bs b rest (a & bs' & H1 & H2)%rbind_ok_inv. apply Hm in H1. apply Hf in H2. lia.
Qed.

Lemma eats_0 {A} k (r : epee_reader A) : eats k r -> eats 0 r.
Proof. intros Hr bs a rest H. apply Hr in H. lia. Qed.

Lemma eats_ret {A} (a : A) : eats 0 (rret a).
Proof. intros bs b rest [_ <-]%rret_ok_inv. lia. Qed.

Lemma eats_fail {A} e k : eats (A := A) k (rfail e).
Proof. intros bs a rest [=]. Qed.

Lemma read_bytes_inv n bs a rest : read_bytes n bs = (Ok a, rest) -> bs = a ++ rest /\ (length a = Z.to_nat n)%nat.
Proof.
  unfold read_bytes. destruct (Z.ltb_spec (len bs) n); [discriminate|]. intros [= <- <-].
  rewrite take_drop. split; [reflexivity|]. rewrite length_take. unfold len in *. lia.
Qed.

Lemma read_bytes_safe n : ReaderSafe (read_bytes n).
Proof.
  intros bs _. unfold read_bytes. destruct (len bs <? n); (split; [exact I|]); cbn.
  - exists []. reflexivity.
  - exists (take (Z.to_nat n) bs). symmetry. apply take_drop.
Qed.

Lemma eats_read_bytes n : eats (Z.to_nat n) (read_bytes n).
Proof. intros bs a rest [-> H]%read_bytes_inv. rewrite length_app. lia. Qed.

Lemma read_byte_inv bs b rest : is_bytes bs -> read_byte bs = (Ok b, rest) -> U 8 b /\ bs = b :: rest.
Proof.
  intros Hb (a & bs' & [-> Hl]%read_bytes_inv & H)%rbind_ok_inv. cbn in Hl.
  destruct a as [|x [|]]; [discriminate|apply rret_ok_inv in H as [<- <-]|discriminate].
  apply Forall_cons_iff in Hb as [Hx _]. auto.
Qed.

#[export] Instance epee_read_byte_safe : ReaderSafe read_byte.
Proof.
  apply (rbind_safe_post (fun a => length a = 1%nat)); [apply read_bytes_safe| |].
  - intros bs a rest _ [_ H]%read_bytes_inv. exact H.
  - intros [|b l] Hl; [discriminate|apply rret_safe].
Qed.

Lemma eats_read_byte : eats 1 read_byte.
Proof.
  change 1%nat with (1 + 0)%nat. apply eats_bind; [apply (eats_read_bytes 1)|].
  intros [|b l]; [intros bs a rest [=]|apply eats_ret].
Qed.

Lemma varint_loop_safe n i vi : ReaderSafe (varint_loop n i vi).
Proof. revert i vi. induction n as [|n IH]; intros i vi; cbn [varint_loop]; [apply rret_safe|apply rbind_safe; [apply _|intros; apply IH]]. Qed.

Lemma varint_loop_nonneg n i vi bs x rest : 0 <= i -> 0 <= vi -> is_bytes bs ->
  varint_loop n i vi bs = (Ok x, rest) -> 0 <= x.
Proof.
  revert i vi bs. induction n as [|n IH]; intros i vi bs Hi Hv Hb; cbn [varint_loop].
  - intros [<- _]%rret_ok_inv. exact Hv.
  - intros (b & bs' & Hr & H)%rbind_ok_inv. apply read_byte_inv in Hr as [HU ->]; [|exact Hb].
    apply Forall_cons_iff in Hb as [_ Hb]. revert H. apply IH; [lia| |exact Hb].
    apply Z.lor_nonneg. split; [exact Hv|]. apply Z.shiftl_nonneg. apply HU.
Qed.

Lemma eats_varint_loop n i vi : eats 0 (varint_loop n i vi).
Proof.
  revert i vi. induction n as [|n IH]; intros i vi; cbn [varint_loop]; [apply eats_ret|].
  apply (eats_bind 0 0); [apply (eats_0 1), eats_read_byte|intros; apply IH].
Qed.

(** The length in the two low bits of a VarInt's first byte *)
Lemma varint_len_cases {A} b (f : nat -> A) d :
  exists n, match Z.land b 3 with 0 => f 1%nat | 1 => f 2%nat | 2 => f 4%nat | 3 => f 8%nat | _ => d end = f n.
Proof.
  change 3 with (Z.ones 2) at 1. rewrite Z.land_ones by lia. pose proof (Z.mod_pos_bound b (2 ^ 2) ltac:(lia)) as H.
  change (2 ^ 2) with 4 in *. assert (Hc : b mod 4 = 0 \/ b mod 4 = 1 \/ b mod 4 = 2 \/ b mod 4 = 3) by lia.
  destruct_or! Hc; rewrite Hc; eauto.
Qed.

Lemma read_varint_safe : ReaderSafe read_varint.
Proof.
  unfold read_varint. apply rbind_safe; [apply _|]. intros b.
  destruct (varint_len_cases b (@rret EpeeError nat) rpanic) as [n Hn]. rewrite Hn. apply rbind_safe; [apply _|].
  intros n'. apply rbind_safe; [apply varint_loop_safe|intros; apply rret_safe].
Qed.

Lemma eats_read_varint : eats 1 read_varint.
Proof.
  unfold read_varint. apply (eats_bind 1 0); [apply eats_read_byte|]. intros b.
  destruct (varint_len_cases b (@rret EpeeError nat) rpanic) as [n Hn]. rewrite Hn.
  apply (eats_bind 0 0); [apply eats_ret|]. intros n'.
  apply (eats_bind 0 0); [apply eats_varint_loop|intros; apply eats_ret].
Qed.

Lemma read_varint_nonneg bs x rest : is_bytes bs -> read_varint bs = (Ok x, rest) -> 0 <= x.
Proof.
  intros Hb (b & bs' & Hr & H)%rbind_ok_inv. apply read_byte_inv in Hr as [HU ->]; [|exact Hb].
  destruct (varint_len_cases b (@rret EpeeError nat) rpanic) as [n Hn]. rewrite Hn in H.
  apply rbind_ok_inv in H as (n' & bs2 & [<- <-]%rret_ok_inv & H).
  apply rbind_ok_inv in H as (vi & bs3 & Hl & H). apply rret_ok_inv in H as [<- _].
  apply Forall_cons_iff in Hb as [_ Hb]. apply varint_loop_nonneg in Hl; [|lia|apply HU|exact Hb].
  apply Z.shiftr_nonneg, Hl.
Qed.

Lemma to_usize_safe x : ReaderSafe (to_usize x).
Proof. unfold to_usize. destruct (_ <=? _); apply _. Qed.

Lemma to_usize_inv x bs y rest : to_usize x bs = (Ok y, rest) -> y = x /\ rest = bs /\ x <= USIZE_MAX.
Proof.
  unfold to_usize. destruct (Z.leb_spec x USIZE_MAX); [|discriminate]. intros [<- <-]%rret_ok_inv. auto.
Qed.

Lemma eats_to_usize x : eats 0 (to_usize x).
Proof. intros bs y rest (_ & -> & _)%to_usize_inv. lia. Qed.
End Reads.

#[export] Existing Instances read_bytes_safe read_varint_safe to_usize_safe.

(** ** A recursive descent

    [read_item] reads what one item of a type has of its own, and what it
    contains: so many entries, or so many items of a type.  [skip_items]
    skips [n] items of a type, each with what it contains, below [base]
    pending frames; the last item of a frame does not count as pending, as in
    [pop]. *)

Definition read_item (k : TypeOrEntry) : epee_reader (SingleStepResult * option (TypeOrEntry * Z)) :=
  match k with
  | OfType String => let* _ := read_str in rret (StepUnit, None)
  | OfType Object =>
      let* fields := read_varint in
      let* fields := to_usize fields in
      rret (StepObject fields, Some (Entry, fields))
  | OfType kind => let* _ := advance (size_of kind) in rret (StepUnit, None)
  | Entry =>
      let* key := read_key in
      let* (kind, len) := read_type in
      let* len := to_usize len in
      rret (StepEntry key kind len, Some (OfType kind, len))
  end.

Definition skip_item (skip : nat -> TypeOrEntry -> Z -> epee_reader unit) (pending : nat) (k : TypeOrEntry)
  : epee_reader unit :=
  let* (_, inner) := read_item k in
  match inner with
  | None => rret tt
  | Some (k', n) =>
      if (pending =? MAX_OBJECT_DEPTH)%nat then rfail DepthLimitExceeded
      else if n =? 0 then rret tt
      else skip pending k' n
  end.

Fixpoint skip_items (fuel base : nat) (k : TypeOrEntry) (n : Z) : epee_reader unit :=
  match fuel with
  | O => rpanic
  | S fuel' =>
      let* _ := skip_item (skip_items fuel') (if n =? 1 then base else S base) k in
      if n =? 1 then rret tt else skip_items fuel' base k (n - 1)
  end.

Section Descent.
Lemma read_key_safe : ReaderSafe read_key.
Proof. unfold read_key. safe_tac. Qed.

Lemma read_item_safe k : ReaderSafe (read_item k).
Proof.
  unfold read_item, advance, read_str, read_key, read_type. destruct k as [[]|]; safe_tac.
Qed.

Lemma eats_advance n : 0 < n -> eats 1 (advance n).
Proof.
  intros Hn bs a rest (x & bs' & [-> Hl]%read_bytes_inv & [_ <-]%rret_ok_inv)%rbind_ok_inv.
  rewrite length_app. lia.
Qed.

Lemma eats_read_str : eats 1 read_str.
Proof.
  apply (eats_bind 1 0); [apply eats_read_varint|]. intros n. apply (eats_bind 0 0); [apply eats_to_usize|].
  intros n'. apply (eats_0 (Z.to_nat n')), eats_read_bytes.
Qed.

Lemma eats_read_type : eats 1 read_type.
Proof.
  apply (eats_bind 1 0); [apply eats_read_byte|]. intros b. cbv zeta. destruct (type_of _); [|apply eats_fail].
  apply (eats_bind 0 0); [|intros; apply eats_ret].
  destruct (negb _); [apply (eats_0 1), eats_read_varint|apply eats_ret].
Qed.

Lemma eats_read_key : eats 1 read_key.
Proof.
  apply (eats_bind 1 0); [apply eats_read_byte|]. intros b. destruct (_ =? 0); [apply eats_fail|].
  apply (eats_0 (Z.to_nat b)), eats_read_bytes.
Qed.

Lemma eats_read_item k : eats 1 (read_item k).
Proof.
  destruct k as [[]|]; cbn [read_item size_of];
    try (apply (eats_bind 1 0); [apply eats_advance; lia|intros; apply eats_ret]).
  - apply (eats_bind 1 0); [apply eats_read_str|intros; apply eats_ret].
  - apply (eats_bind 1 0); [apply eats_read_varint|]. intros n. apply (eats_bind 0 0); [apply eats_to_usize|].
    intros; apply eats_ret.
  - apply (eats_bind 1 0); [apply eats_read_key|]. intros key.
    apply (eats_bind 0 0); [apply (eats_0 1), eats_read_type|]. intros [kind n].
    apply (eats_bind 0 0); [apply eats_to_usize|intros; apply eats_ret].
Qed.

(** What an item contains is an amount a [usize] holds. *)
Lemma read_item_amount k bs r k' n rest : is_bytes bs -> read_item k bs = (Ok (r, Some (k', n)), rest) ->
  0 <= n <= USIZE_MAX.
Proof.
  intros Hb. destruct k as [[]|]; cbn [read_item];
    try (intros (? & ? & _ & [[=] _]%rret_ok_inv)%rbind_ok_inv).
  - intros (x & bs' & Hx & (y & bs2 & (-> & -> & Hy)%to_usize_inv & H)%rbind_ok_inv)%rbind_ok_inv.
    apply rret_ok_inv in H as [[= _ _ <-] _]. apply read_varint_nonneg in Hx; [lia|exact Hb].
  - intros (key & bs' & Hk & H)%rbind_ok_inv.
    assert (Hb' : is_bytes bs').
    { destruct (read_key_safe bs Hb) as [_ [pre Hpre]]. rewrite Hk in Hpre. cbn in Hpre.
      rewrite Hpre in Hb. exact (is_bytes_app_r _ _ Hb). }
    apply rbind_ok_inv in H as ([kind m] & bs2 & Ht & H). cbn beta iota in H.
    apply rbind_ok_inv in H as (y & bs3 & (-> & -> & Hy)%to_usize_inv & H).
    apply rret_ok_inv in H as [[= _ _ <-] _]. split; [|exact Hy].
    apply rbind_ok_inv in Ht as (b & bs4 & Hr & Ht). apply read_byte_inv in Hr as [_ ->]; [|exact Hb'].
    cbv zeta in Ht. destruct (type_of _); [|discriminate]. apply rbind_ok_inv in Ht as (l & bs5 & Hl & Ht).
    apply rret_ok_inv in Ht as [[= _ <-] _]. destruct (negb _).
    + apply read_varint_nonneg in Hl; [exact Hl|]. apply Forall_cons_iff in Hb' as [_ Hb']. exact Hb'.
    + apply rret_ok_inv in Hl as [<- _]. lia.
Qed.
End Descent.

(** ** Steps of the decoder and of its specification *)

Section Simulation.
(** [single_step] on the list *)
Definition spec_single_step (l : StackSpec.t) (bs : bytes)
  : outcome EpeeError (option SingleStepResult) * (StackSpec.t * bytes) :=
  match StackSpec.pop l with
  | (None, l) => (Ok None, (l, bs))
  | (Some k, l) =>
      match read_item k bs with
      | (Ok (r, None), bs) => (Ok (Some r), (l, bs))
      | (Ok (r, Some (k', n)), bs) =>
          match StackSpec.push l k' n with
          | Ok l => (Ok (Some r), (l, bs))
          | Err e => (Err e, (l, bs))
          | Panic => (Panic, (l, bs))
          end
      | (Err e, bs) => (Err e, (l, bs))
      | (Panic, bs) => (Panic, (l, bs))
      end
  end.

(** A computation's outcome is the specification's, in a state which stands
    for the specification's. *)
Definition refines {A} (x : outcome EpeeError A * decoder) (y : outcome EpeeError A * (StackSpec.t * bytes)) : Prop :=
  fst x = fst y /\ snd (snd x) = snd (snd y) /\ repr (fst (snd x)) (fst (snd y)).

Lemma on_encoding_eq {A} (r : epee_reader A) s bs o bs' : r bs = (o, bs') -> on_encoding r (s, bs) = (o, (s, bs')).
Proof. unfold on_encoding. cbn. intros ->. reflexivity. Qed.

(** A read of fixed content, then [StepUnit] *)
Lemma unit_step_refines {A} (r : epee_reader A) s l bs : repr s l ->
  refines ((let! _ := on_encoding r in dret (Some StepUnit)) (s, bs))
    (match (let* _ := r in rret (StepUnit, None)) bs with
     | (Ok (r, None), bs) => (Ok (Some r), (l, bs))
     | (Ok (r, Some (k', n)), bs) =>
         match StackSpec.push l k' n with
         | Ok l => (Ok (Some r), (l, bs)) | Err e => (Err e, (l, bs)) | Panic => (Panic, (l, bs))
         end
     | (Err e, bs) => (Err e, (l, bs))
     | (Panic, bs) => (Panic, (l, bs))
     end).
Proof.
  intros Hr. unfold dbind, on_encoding, rbind. cbn [fst snd]. destruct (r bs) as [[a|e|] bs'];
    (split; [reflexivity|split; [reflexivity|exact Hr]]).
Qed.

Lemma dpush_refines {A} k n (a : A) s l bs : repr s l -> 0 <= n <= USIZE_MAX ->
  refines ((let! _ := dpush k n in dret a) (s, bs))
    (match StackSpec.push l k n with
     | Ok l => (Ok a, (l, bs)) | Err e => (Err e, (l, bs)) | Panic => (Panic, (l, bs))
     end).
Proof.
  intros Hr Hn. pose proof (push_refines s l k n Hr Hn) as H. unfold dbind, dpush. cbn [fst snd].
  destruct (StackSpec.push l k n) as [l'|e|]; [|rewrite H|contradiction].
  - destruct H as (s' & -> & Hr'). split; [reflexivity|split; [reflexivity|exact Hr']].
  - split; [reflexivity|split; [reflexivity|exact Hr]].
Qed.

Lemma single_step_refines s l bs : repr s l -> is_bytes bs ->
  refines (single_step (s, bs)) (spec_single_step l bs).
Proof.
  intros Hr Hb. destruct (pop_refines (E := EpeeError) s l Hr) as (s' & Hp & Hr').
  unfold single_step, spec_single_step, dbind at 1, dpop. cbn [fst]. rewrite Hp. clear Hp Hr.
  destruct (StackSpec.pop l) as [[k|] l1]; cbn [fst snd] in *; [|split; [reflexivity|split; [reflexivity|exact Hr']]].
  destruct k as [k|]; [destruct k|]; try (apply unit_step_refines; exact Hr').
  - assert (Ha : forall f x, read_item (OfType Object) bs = (Ok (StepObject f, Some (Entry, f)), x) -> 0 <= f <= USIZE_MAX)
      by (intros f x; apply read_item_amount, Hb).
    cbn [read_item] in *. unfold dbind, on_encoding, rbind in *. cbn [fst snd].
    destruct (read_varint bs) as [[x|e|] bs1]; [|split; [reflexivity|split; [reflexivity|exact Hr']]..]. cbn [fst snd] in *.
    destruct (to_usize x bs1) as [[y|e|] bs2]; [|split; [reflexivity|split; [reflexivity|exact Hr']]..].
    apply (dpush_refines Entry y (Some (StepObject y)) s' l1 bs2 Hr'), (Ha y bs2). reflexivity.
  - assert (Ha : forall key k f x, read_item Entry bs = (Ok (StepEntry key k f, Some (OfType k, f)), x) -> 0 <= f <= USIZE_MAX)
      by (intros key k f x; apply read_item_amount, Hb).
    cbn [read_item] in *. unfold dbind, on_encoding, rbind in *. cbn [fst snd].
    destruct (read_key bs) as [[key|e|] bs1]; [|split; [reflexivity|split; [reflexivity|exact Hr']]..]. cbn [fst snd] in *.
    destruct (read_type bs1) as [[[k x]|e|] bs2]; [|split; [reflexivity|split; [reflexivity|exact Hr']]..]. cbn [fst snd] in *.
    destruct (to_usize x bs2) as [[y|e|] bs3]; [|split; [reflexivity|split; [reflexivity|exact Hr']]..].
    apply (dpush_refines (OfType k) y (Some (StepEntry key k y)) s' l1 bs3 Hr'), (Ha key k y bs3). reflexivity.
Qed.

(** What a step leaves is a suffix, shorter unless it failed. *)
Lemma spec_single_step_bytes l bs o l' bs' : is_bytes bs -> l <> [] -> spec_single_step l bs = (o, (l', bs')) ->
  is_bytes bs' /\ no_panic o /\ (forall a, o = Ok a -> (length bs' < length bs)%nat).
Proof.
  intros Hb Hl. unfold spec_single_step. destruct l as [|[k n] l]; [contradiction|]. cbn [StackSpec.pop].
  set (l1 := if n =? 1 then l else (k, n - 1) :: l). destruct (read_item_safe k bs Hb) as [Hn [pre Hpre]].
  pose proof (eats_read_item k bs) as He.
  destruct (read_item k bs) as [[[r [[k' m]|]]|e|] bs1]; cbn [fst snd] in *; [| | |contradiction].
  - specialize (He _ _ eq_refl). unfold StackSpec.push. destruct (_ =? MAX_OBJECT_DEPTH)%nat; [|destruct (m =? 0)];
      intros [= <- <- <-]; (split; [rewrite Hpre in Hb; exact (is_bytes_app_r _ _ Hb)|]); (split; [exact I|]);
      intros a [=]; lia.
  - specialize (He _ _ eq_refl). intros [= <- <- <-]. split; [rewrite Hpre in Hb; exact (is_bytes_app_r _ _ Hb)|].
    split; [exact I|]. intros; lia.
  - intros [= <- <- <-]. split; [rewrite Hpre in Hb; exact (is_bytes_app_r _ _ Hb)|]. split; [exact I|]. intros a [=].
Qed.
End Simulation.

Section Loop.
Context (stop : nat).

(** The end of an iteration of [step_loop] *)
Definition after (fuel : nat) (s : Stack.t) (bs : bytes) : outcome EpeeError unit * decoder :=
  if (Stack.depth s =? stop)%nat then (Ok tt, (s, bs)) else step_loop fuel stop (s, bs).

Lemma step_loop_S fuel d :
  step_loop (S fuel) stop d =
    match single_step d with
    | (Ok _, d) => after fuel (fst d) (snd d)
    | (Err e, d) => (Err e, d)
    | (Panic, d) => (Panic, d)
    end.
Proof. cbn [step_loop]. unfold dbind, after. destruct (single_step d) as [[r|e|] [s bs]]; reflexivity. Qed.

(** The run [x] gets past what the read [r] reads: it goes on from there with
    the frames [l] left and less than [m] bytes, or fails as the read does. *)
Definition runs_past (x : outcome EpeeError unit * decoder) (m : nat) (l : StackSpec.t)
  (r : outcome EpeeError unit * bytes) : Prop :=
  match r with
  | (Ok _, bs) =>
      exists s fuel, repr s l /\ is_bytes bs /\ (length bs < m)%nat /\ (length bs < fuel)%nat /\ x = after fuel s bs
  | (Err e, bs) => exists s l', repr s l' /\ is_bytes bs /\ x = (Err e, (s, bs))
  | (Panic, _) => False
  end.

Lemma runs_past_mono x m m' l r : runs_past x m l r -> (m <= m')%nat -> runs_past x m' l r.
Proof.
  intros H Hm. destruct r as [[a|e|] bs]; cbn in *; [|exact H..].
  destruct H as (s & fuel & H1 & H2 & H3 & H4). exists s, fuel. split_and!; tauto || lia.
Qed.

(** What is left of a frame after the pop of one of its items *)
Definition popped (k : TypeOrEntry) (n : Z) (l : StackSpec.t) : StackSpec.t := if n =? 1 then l else (k, n - 1) :: l.

Definition frame_claim (m : nat) : Prop :=
  forall fuel sfuel s bs k n l, (length bs <= m)%nat -> (length bs < fuel)%nat -> (length bs < sfuel)%nat ->
    is_bytes bs -> repr s ((k, n) :: l) -> (stop <= length l)%nat ->
    runs_past (step_loop fuel stop (s, bs)) (length bs) l (skip_items sfuel (length l) k n bs).

(** The items of a frame left after one of them *)
Lemma rest_of_frame fuel sfuel s bs k n l : frame_claim (length bs) -> (length bs < fuel)%nat ->
  (length bs < sfuel)%nat -> is_bytes bs -> repr s (popped k n l) -> (stop <= length l)%nat ->
  runs_past (after fuel s bs) (S (length bs)) l
    ((if n =? 1 then rret tt else skip_items sfuel (length l) k (n - 1)) bs).
Proof.
  unfold popped. intros IH Hf Hsf Hb Hr Hs. destruct (Z.eqb_spec n 1) as [->|Hn1].
  - exists s, fuel. auto.
  - assert (Hd : (Stack.depth s =? stop)%nat = false).
    { destruct Hr as (_ & _ & _ & -> & _). apply Nat.eqb_neq. cbn. lia. }
    unfold after. rewrite Hd. apply (runs_past_mono _ (length bs)); [apply IH; auto|lia].
Qed.

(** One item, with what it contains *)
Lemma first_item m fuel sfuel s bs k n l : (forall m', (m' < m)%nat -> frame_claim m') -> (length bs <= m)%nat ->
  (length bs <= fuel)%nat -> (length bs <= sfuel)%nat -> is_bytes bs -> repr s ((k, n) :: l) ->
  (stop <= length (popped k n l))%nat ->
  runs_past (step_loop (S fuel) stop (s, bs)) (length bs) (popped k n l)
    (skip_item (skip_items sfuel) (length (popped k n l)) k bs).
Proof.
  intros IH Hm Hf Hsf Hb Hr Hs. rewrite step_loop_S.
  pose proof (single_step_refines s _ bs Hr Hb) as (H1 & H2 & H3).
  destruct (single_step (s, bs)) as [o [s1 bs1]]. cbn [fst snd] in H1, H2, H3.
  destruct (spec_single_step ((k, n) :: l) bs) as [o' [l1 bs1']] eqn:Hspec. cbn [fst snd] in H1, H2, H3. subst o' bs1'.
  destruct (spec_single_step_bytes ((k, n) :: l) bs o l1 bs1 Hb ltac:(discriminate) Hspec) as (Hb1 & Hnp & Hlt).
  unfold spec_single_step in Hspec. cbn [StackSpec.pop] in Hspec.
  change (if n =? 1 then l else (k, n - 1) :: l) with (popped k n l) in Hspec.
  set (lp := popped k n l) in *. unfold skip_item, rbind.
  destruct (read_item k bs) as [[[r [[k' x]|]]|e|] bs2]; [| | |inversion Hspec; subst o; contradiction Hnp].
  - unfold StackSpec.push in Hspec. destruct (length lp =? MAX_OBJECT_DEPTH)%nat eqn:Hd.
    + injection Hspec as <- <- <-. cbn. eauto.
    + destruct (Z.eqb_spec x 0) as [->|Hx]; injection Hspec as <- <- <-; specialize (Hlt _ eq_refl); cbn [fst snd].
      * exists s1, fuel. split_and!; auto; lia.
      * assert (Hdp : (Stack.depth s1 =? stop)%nat = false).
        { destruct H3 as (_ & _ & _ & -> & _). apply Nat.eqb_neq. cbn. lia. }
        unfold after. rewrite Hdp. apply (runs_past_mono _ (length bs2)); [|lia].
        apply (IH (length bs2) ltac:(lia)); auto; lia.
  - injection Hspec as <- <- <-. specialize (Hlt _ eq_refl). exists s1, fuel. split_and!; auto; lia.
  - injection Hspec as <- <- <-. cbn. eauto.
Qed.

Lemma popped_length k n l : length (popped k n l) = (if n =? 1 then length l else S (length l)).
Proof. unfold popped. destruct (n =? 1); reflexivity. Qed.

Lemma all_frames m : frame_claim m.
Proof.
  induction m as [m IHm] using lt_wf_ind. intros fuel sfuel s bs k n l Hm Hf Hsf Hb Hr Hs.
  destruct fuel as [|fuel]; [lia|]. destruct sfuel as [|sfuel]; [lia|].
  pose proof (first_item m fuel sfuel s bs k n l IHm Hm ltac:(lia) ltac:(lia) Hb Hr) as Hc.
  rewrite popped_length in Hc. specialize (Hc ltac:(destruct (n =? 1)%Z; lia)). cbn [skip_items]. unfold rbind.
  destruct (skip_item _ _ k bs) as [[u|e|] bs2]; [|exact Hc|exact Hc].
  destruct Hc as (s2 & fuel2 & Hr2 & Hb2 & Hl2 & Hf2 & ->). apply (runs_past_mono _ (S (length bs2))); [|lia].
  apply rest_of_frame; auto; [apply IHm; lia|lia].
Qed.
End Loop.

Lemma step_skips_core sfuel s bs k n l : repr s ((k, n) :: l) -> is_bytes bs -> (length bs <= sfuel)%nat ->
  match skip_item (skip_items sfuel) (length (popped k n l)) k bs with
  | (Ok _, bs') =>
      exists s', step (s, bs) = (Ok (Some tt), (s', bs')) /\ repr s' (popped k n l) /\ is_bytes bs' /\
        (length bs' < length bs)%nat
  | (Err e, bs') => exists s' l', step (s, bs) = (Err e, (s', bs')) /\ repr s' l' /\ is_bytes bs'
  | (Panic, _) => False
  end.
Proof.
  intros Hr Hb Hf. unfold step. cbn [fst snd]. rewrite (peek_refines (E := EpeeError) s _ Hr). cbn [StackSpec.peek head].
  assert (Hd : Stack.depth s = S (length l)) by (destruct Hr as (_ & _ & _ & -> & _); reflexivity).
  assert (Hn : 0 < n) by (destruct Hr as (_ & _ & _ & _ & _ & _ & _ & Hn & _); lia).
  assert (Hstop : (if 1 <? n then Stack.depth s else (Stack.depth s - 1)%nat) = length (popped k n l)).
  { rewrite Hd, popped_length. destruct (Z.ltb_spec 1 n), (Z.eqb_spec n 1); lia. }
  cbv zeta. rewrite Hstop.
  pose proof (first_item (length (popped k n l)) (length bs) (length bs) sfuel s bs k n l
    (fun m _ => all_frames (length (popped k n l)) m) ltac:(lia) ltac:(lia) Hf Hb Hr ltac:(lia)) as Hc.
  destruct (skip_item _ _ k bs) as [[u|e|] bs']; [| |exact Hc]; unfold dbind.
  - destruct Hc as (s' & fuel & Hr' & Hb' & Hl & Hfu & ->). exists s'. unfold after.
    destruct Hr' as (h1 & h2 & h3 & h4 & h5). rewrite h4, Nat.eqb_refl. unfold repr. tauto.
  - destruct Hc as (s' & l' & Hr' & Hb' & ->). exists s', l'. auto.
Qed.

(** ** Handles and what they have left

    [expand] lays the frames out item by item.  While nothing failed, this
    list is what the live handles have left, the innermost first. *)

Section Items.
Definition expand (l : StackSpec.t) : list TypeOrEntry := concat (map (fun '(k, n) => repeat k (Z.to_nat n)) l).

(** What was pushed with the result of a step *)
Definition contents (r : SingleStepResult) : list TypeOrEntry :=
  match r with
  | StepObject fields => repeat Entry (Z.to_nat fields)
  | StepEntry _ kind len => repeat (OfType kind) (Z.to_nat len)
  | StepUnit => []
  end.

Definition amount (r : SingleStepResult) : Z :=
  match r with StepObject fields => fields | StepEntry _ _ len => len | StepUnit => 0 end.

Lemma expand_pop l : Forall (fun '(_, n) => 0 < n) l -> expand (snd (StackSpec.pop l)) = tail (expand l).
Proof.
  destruct l as [|[k n] l]; [reflexivity|]. intros [Hn _]%Forall_cons_iff. cbn [StackSpec.pop snd].
  unfold expand. cbn [map concat]. destruct (Z.to_nat n) as [|m] eqn:Hm; [lia|]. cbn [repeat app tail].
  destruct (Z.eqb_spec n 1) as [->|]; [assert (m = 0%nat) as -> by lia; reflexivity|].
  cbn [map concat]. do 2 f_equal. lia.
Qed.

Lemma repr_pos s l : repr s l -> Forall (fun '(_, n) => 0 < n) l.
Proof.
  intros (_ & _ & _ & _ & _ & Hi). induction l as [|[k n] l IH]; [constructor|].
  destruct Hi as (_ & _ & Hn & Hi). constructor; [lia|exact (IH Hi)].
Qed.

Lemma expand_nil l : Forall (fun '(_, n) => 0 < n) l -> expand l = [] -> l = [].
Proof.
  destruct l as [|[k n] l]; [reflexivity|]. intros [Hn _]%Forall_cons_iff. unfold expand. cbn [map concat].
  destruct (Z.to_nat n) eqn:Hm; [lia|discriminate].
Qed.

(** A result says what was pushed. *)
Lemma read_item_inner k bs r inner rest : read_item k bs = (Ok (r, inner), rest) ->
  match inner with
  | None => r = StepUnit
  | Some (k', n) => contents r = repeat k' (Z.to_nat n) /\ amount r = n
  end.
Proof.
  destruct k as [[]|]; cbn [read_item];
    try (intros (? & ? & _ & [[= <- <-] _]%rret_ok_inv)%rbind_ok_inv; reflexivity).
  - intros (x & bs1 & _ & (y & bs2 & _ & [[= <- <-] _]%rret_ok_inv)%rbind_ok_inv)%rbind_ok_inv. auto.
  - intros (x & bs1 & _ & ([k n] & bs2 & _ & H)%rbind_ok_inv)%rbind_ok_inv.
    cbn beta iota in H. apply rbind_ok_inv in H as (y & bs3 & _ & [[= <- <-] _]%rret_ok_inv). auto.
Qed.

Lemma spec_single_step_expand l bs r l' bs' : Forall (fun '(_, n) => 0 < n) l -> is_bytes bs ->
  spec_single_step l bs = (Ok (Some r), (l', bs')) ->
  expand l' = contents r ++ tail (expand l) /\ 0 <= amount r.
Proof.
  intros Hl Hb. pose proof (expand_pop l Hl) as Hp. unfold spec_single_step.
  destruct (StackSpec.pop l) as [[k|] l1]; [|discriminate]. cbn [snd] in Hp.
  destruct (read_item k bs) as [[[x [[k' n]|]]|e|] bs1] eqn:Hi; try discriminate.
  - apply read_item_inner in Hi as Hc. apply read_item_amount in Hi; [|exact Hb]. destruct Hc as [Hc Ha].
    unfold StackSpec.push. destruct (_ =? _)%nat; [discriminate|]. destruct (Z.eqb_spec n 0) as [->|Hn];
      intros [= <- <- <-]; rewrite Hc, <- Hp; (split; [reflexivity|lia]).
  - apply read_item_inner in Hi as ->. intros [= <- <- <-]. split; [exact Hp|cbn; lia].
Qed.
End Items.

(** What holds of a decoder whatever is called: the stack stands for a list. *)
Definition sound (d : decoder) : Prop := is_bytes (snd d) /\ exists l, repr (fst d) l.

(** And what is left to decode is [items]. *)
Definition holds (d : decoder) (items : list TypeOrEntry) : Prop :=
  is_bytes (snd d) /\ exists l, repr (fst d) l /\ expand l = items.

Section Steps.
Lemma holds_sound d items : holds d items -> sound d.
Proof. intros [Hb (l & Hr & _)]. split; eauto. Qed.

Lemma single_step_sound d : sound d -> no_panic (fst (single_step d)) /\ sound (snd (single_step d)).
Proof.
  destruct d as [s bs]. intros [Hb [l Hr]]. pose proof (single_step_refines s l bs Hr Hb) as (H1 & H2 & H3).
  cbn [fst snd] in *. rewrite H1. destruct l as [|f l].
  - cbn in H1, H2, H3 |- *. split; [exact I|]. split; [rewrite H2; exact Hb|eauto].
  - destruct (spec_single_step (f :: l) bs) as [o [l' bs']] eqn:Hs.
    apply spec_single_step_bytes in Hs as (Hb' & Hn & _); [|exact Hb|discriminate]. cbn [fst snd] in *.
    split; [exact Hn|]. split; [rewrite H2; exact Hb'|eauto].
Qed.

Lemma single_step_holds d r d' items : holds d items -> single_step d = (Ok (Some r), d') ->
  holds d' (contents r ++ tail items) /\ 0 <= amount r.
Proof.
  destruct d as [s bs]. intros [Hb (l & Hr & He)] Hd. cbn [fst snd] in *.
  pose proof (single_step_refines s l bs Hr Hb) as (H1 & H2 & H3).
  destruct (single_step_sound (s, bs) (conj Hb (ex_intro _ l Hr))) as [_ [Hb' _]].
  rewrite Hd in *. cbn [fst snd] in *.
  destruct (spec_single_step l bs) as [o [l' bs']] eqn:Hs. cbn [fst snd] in *. subst o.
  apply spec_single_step_expand in Hs as [Hx Ha]; [|exact (repr_pos s l Hr)|exact Hb].
  split; [|exact Ha]. split; [exact Hb'|]. exists l'. rewrite Hx, He. auto.
Qed.

Lemma step_sound d : sound d -> no_panic (fst (step d)) /\ sound (snd (step d)).
Proof.
  destruct d as [s bs]. intros [Hb [l Hr]]. cbn [fst snd] in *. destruct l as [|[k n] l].
  - unfold step. cbn [fst]. rewrite (peek_refines s _ Hr). cbn. split; [exact I|]. split; eauto.
  - pose proof (step_skips_core (length bs) s bs k n l Hr Hb (Nat.le_refl _)) as Hc.
    destruct (skip_item _ _ k bs) as [[u|e|] bs']; [| |contradiction].
    + destruct Hc as (s' & -> & Hr' & Hb' & _). split; [exact I|]. split; eauto.
    + destruct Hc as (s' & l' & -> & Hr' & Hb'). split; [exact I|]. split; eauto.
Qed.

Lemma step_holds d r d' items : holds d items -> step d = (Ok r, d') -> holds d' (tail items).
Proof.
  destruct d as [s bs]. intros [Hb (l & Hr & <-)] Hd. cbn [fst snd] in *. destruct l as [|[k n] l].
  - unfold step in Hd. cbn [fst] in Hd. rewrite (peek_refines s _ Hr) in Hd. injection Hd as <- <-.
    split; [exact Hb|]. exists []. auto.
  - rewrite <- (expand_pop _ (repr_pos s _ Hr)). cbn [StackSpec.pop snd].
    pose proof (step_skips_core (length bs) s bs k n l Hr Hb (Nat.le_refl _)) as Hc.
    destruct (skip_item _ _ k bs) as [[u|e|] bs']; [| |contradiction]; rewrite Hd in Hc.
    + destruct Hc as (s' & [= -> ->] & Hr' & Hb' & _). split; [exact Hb'|]. eauto.
    + destruct Hc as (s' & l' & [=] & _).
Qed.
End Steps.

(** ** Clients of the decoder

    The handles which are alive, the innermost first: each borrows the one
    below it, so only the innermost can be used or dropped. *)

Module Client.
Inductive handle : Type :=
| HEntry (e : EpeeEntry.t)
| HFields (it : FieldIterator.t)
| HArray (it : ArrayIterator.t).

Definition items (h : handle) : list TypeOrEntry :=
  match h with
  | HEntry e => repeat (OfType (EpeeEntry.kind e)) (Z.to_nat (EpeeEntry.len e))
  | HFields it => repeat Entry (Z.to_nat (FieldIterator.len it))
  | HArray it => repeat (OfType (ArrayIterator.kind it)) (Z.to_nat (ArrayIterator.len it))
  end.

(** What the types of the handles promise *)
Definition wf (h : handle) : Prop :=
  match h with
  | HEntry e => EpeeEntry.root e = true /\ 0 <= EpeeEntry.len e
  | HFields it => 0 <= FieldIterator.len it
  | HArray it => 0 <= ArrayIterator.len it
  end.

(** [core::mem::drop] *)
Definition drop (h : handle) : Epee.t -> outcome EpeeError Epee.t :=
  match h with
  | HEntry e => EpeeEntry.drop e
  | HFields it => FieldIterator.drop it
  | HArray it => ArrayIterator.drop it
  end.

(** [opened] tells if [entry] ever succeeded, [abandoned] if an entry's items
    were ever left on the stack with no handle to decode or skip them. *)
Record t := mk { decoder : Epee.t; opened : bool; handles : list handle; abandoned : bool }.

Definition type_error {A} (r : outcome EpeeError A) : bool := match r with Err TypeError => true | _ => false end.

(** A call of a method which returned: every method of the innermost handle,
    or when there is none of the decoder, with whatever it returned.  An entry
    is abandoned by [fields] when it returns [TypeError], which takes the
    decoder out of the entry and does not advance it; and so is what a handle
    has left when it is forgotten, with [core::mem::forget], in place of
    dropped. *)
Inductive call : t -> t -> Prop :=
| CallEntry d o a e : entry d = Ok e -> call (mk d o [] a) (mk d true [HEntry e] a)
| CallReuse d o a x : entry d = Err x -> call (mk d o [] a) (mk d o [] a)
| CallFields d o a e hs r d' : fields e d = (r, d') -> no_panic r ->
    call (mk d o (HEntry e :: hs) a)
      (mk d' o (match r with Ok it => HFields it :: hs | _ => hs end) (a || type_error r))
| CallIterate d o a e hs r d' : iterate e d = (r, d') -> no_panic r ->
    call (mk d o (HEntry e :: hs) a) (mk d' o (match r with Ok it => HArray it :: hs | _ => hs end) a)
| CallNextField d o a it hs r it' d' : FieldIterator.next it d = (r, (it', d')) -> r <> Some Panic ->
    call (mk d o (HFields it :: hs) a)
      (mk d' o (match r with Some (Ok (_, e)) => HEntry e :: HFields it' :: hs | _ => HFields it' :: hs end) a)
| CallNextItem d o a it hs r it' : ArrayIterator.next it d = (r, it') -> r <> Some Panic ->
    call (mk d o (HArray it :: hs) a)
      (mk d o (match r with Some (Ok e) => HEntry e :: HArray it' :: hs | _ => HArray it' :: hs end) a)
| CallPrimitive kind n d o a e hs r d' : to_primitive kind n e d = (r, d') -> no_panic r ->
    call (mk d o (HEntry e :: hs) a) (mk d' o hs a)
| CallStr d o a e hs r d' : to_str e d = (r, d') -> no_panic r -> call (mk d o (HEntry e :: hs) a) (mk d' o hs a)
| CallFixedLenStr d o a e hs n r d' : to_fixed_len_str e n d = (r, d') -> no_panic r ->
    call (mk d o (HEntry e :: hs) a) (mk d' o hs a)
| CallDrop d o a h hs d' : drop h d = Ok d' -> call (mk d o (h :: hs) a) (mk d' o hs a)
| CallForget d o a h hs : call (mk d o (h :: hs) a) (mk d o hs true).

(** The states a client reaches from a new decoder *)
Inductive reachable (encoding : bytes) : t -> Prop :=
| Reach0 d : Epee.new encoding = Ok d -> reachable encoding (mk d false [] false)
| ReachS c c' : reachable encoding c -> call c c' -> reachable encoding c'.

(** What is left to decode: what the handles have left, and before [entry] was
    called the root object *)
Definition left (c : t) : list TypeOrEntry :=
  concat (map items (handles c)) ++ (if opened c then [] else [OfType Object]).
End Client.

Definition state (e : Epee.t) : decoder := (Epee.stack e, Epee.current_encoding_state e).

Section Api.
Lemma run_spec {A} (m : dec A) (e : Epee.t) :
  fst (Epee.run m e) = fst (m (state e)) /\ state (snd (Epee.run m e)) = snd (m (state e)) /\
  Epee.error (snd (Epee.run m e)) = Epee.error e.
Proof. unfold Epee.run. fold (state e). destruct (m (state e)) as [o [s bs]]. auto. Qed.

Lemma drop_loop_sound {E} n e : sound (state e) ->
  exists e', Epee.drop_loop (E := E) n e = Ok e' /\ sound (state e').
Proof.
  revert e. induction n as [|n IH]; intros e Hs; cbn [Epee.drop_loop]; [eauto|].
  destruct (Epee.error e); [eauto|]. destruct (step_sound _ Hs) as [Hn Hs'].
  destruct (run_spec step e) as (H1 & H2 & _). rewrite <- H1 in Hn. rewrite <- H2 in Hs'.
  destruct (Epee.run step e) as [[a|x|] e1]; [apply IH; exact Hs'|apply IH; exact Hs'|contradiction].
Qed.

(** Nothing was recorded: all the steps went well, and so much was skipped. *)
Lemma drop_loop_holds {E} n e e' items : Epee.drop_loop (E := E) n e = Ok e' -> Epee.error e' = None ->
  Epee.error e = None /\ (holds (state e) items -> holds (state e') (List.skipn n items)).
Proof.
  revert e items. induction n as [|n IH]; intros e items; cbn [Epee.drop_loop].
  - intros [= <-] He. auto.
  - destruct (Epee.error e) eqn:Herr; [intros [= <-]; congruence|]. intros Hd He. split; [reflexivity|]. intros Hh.
    destruct (run_spec step e) as (H1 & H2 & _).
    destruct (Epee.run step e) as [[a|x|] e1]; [|destruct (IH _ [] Hd He) as [[=] _]|discriminate].
    destruct (IH _ (tail items) Hd He) as [_ Hk].
    replace (List.skipn (S n) items) with (List.skipn n (tail items)) by (destruct items; [apply skipn_nil|reflexivity]).
    apply Hk. change (state (Epee.mk _ _ None)) with (state e1). cbn [fst snd] in H1, H2. rewrite H2.
    destruct (step (state e)) as [o d1] eqn:Hst. cbn [fst] in H1. subst o. exact (step_holds _ _ _ _ Hh Hst).
Qed.

Lemma drop_holds h e e' items : Client.wf h -> Client.drop h e = Ok e' -> Epee.error e' = None ->
  Epee.error e = None /\ (holds (state e) items -> holds (state e') (List.skipn (length (Client.items h)) items)).
Proof.
  intros Hw Hd He. destruct h as [[[] k n]|[n]|[k n]]; cbn [Client.items] in *; rewrite ?repeat_length; cbn in *;
    [|destruct Hw as [[=] _]| |]; exact (drop_loop_holds _ _ _ _ Hd He).
Qed.

Lemma drop_safe h e : Client.wf h -> sound (state e) -> exists e', Client.drop h e = Ok e' /\ sound (state e').
Proof.
  intros Hw Hs. destruct h as [[[] k n]|[n]|[k n]]; cbn in *; [|destruct Hw as [[=] _]| |];
    exact (drop_loop_sound _ _ Hs).
Qed.

Lemma drop_sound h e e' : Client.wf h -> sound (state e) -> Client.drop h e = Ok e' -> sound (state e').
Proof. intros Hw Hs Hd. destruct (drop_safe h e Hw Hs) as (e1 & H1 & H2). congruence. Qed.

(** *** What the handles leave when their methods return *)

Lemma entry_ok d e : entry d = Ok e -> e = EpeeEntry.mk true Object 1 /\ Stack.depth (Epee.stack d) = 1%nat.
Proof.
  unfold entry. destruct (Nat.eqb_spec (Stack.depth (Epee.stack d)) 1); [|discriminate].
  destruct (Epee.error d); [discriminate|]. intros [= <-]. auto.
Qed.

Lemma fields_ok e d it d' : fields e d = (Ok it, d') ->
  Epee.error d = None /\ Epee.error d' = None /\ EpeeEntry.kind e = Object /\ EpeeEntry.len e = 1 /\
  single_step (state d) = (Ok (Some (StepObject (FieldIterator.len it))), state d').
Proof.
  unfold fields, EpeeEntry.take, dropping. destruct e as [[] k n]; [|discriminate]. cbn.
  destruct (Epee.error d) eqn:He; [discriminate|]. destruct (decide (k = Object)) as [->|Hk];
    [|rewrite bool_decide_eq_false_2 by exact Hk; discriminate].
  destruct (Z.eqb_spec n 1) as [->|]; [|discriminate]. cbn.
  destruct (run_spec single_step d) as (H1 & H2 & H3). destruct (Epee.run single_step d) as [o d1].
  cbn [fst snd] in *. destruct o as [[[f|key kk m|]|]|x|]; try discriminate. intros [= <- <-].
  rewrite H3. split_and!; auto. destruct (single_step (state d)) as [o s]. cbn [fst snd] in *. cbn; congruence.
Qed.

Lemma iterate_ok e d it d' : iterate e d = (Ok it, d') ->
  d' = d /\ it = ArrayIterator.mk (EpeeEntry.kind e) (EpeeEntry.len e).
Proof.
  unfold iterate, EpeeEntry.take, dropping. destruct e as [[] k n]; [|discriminate]. cbn.
  destruct (Epee.error d); [discriminate|]. intros [= <- <-]. auto.
Qed.

Lemma next_field_ok it d key e it' d' : FieldIterator.next it d = (Some (Ok (key, e)), (it', d')) ->
  Epee.error d = None /\ Epee.error d' = None /\ FieldIterator.len it <> 0 /\ it' = FieldIterator.mk (FieldIterator.len it - 1) /\
  e = EpeeEntry.mk true (EpeeEntry.kind e) (EpeeEntry.len e) /\
  single_step (state d) = (Ok (Some (StepEntry key (EpeeEntry.kind e) (EpeeEntry.len e))), state d').
Proof.
  unfold FieldIterator.next. destruct (Epee.error d) eqn:He; [discriminate|].
  destruct (Z.eqb_spec (FieldIterator.len it) 0) as [|Hn]; [discriminate|]. cbv zeta.
  destruct (run_spec single_step d) as (H1 & H2 & H3). destruct (Epee.run single_step d) as [o d1].
  cbn [fst snd] in *. destruct o as [[[f|key' kk m|]|]|x|]; try discriminate. intros [= <- <- <- <-]. cbn.
  split_and!; auto; [congruence|]. destruct (single_step (state d)) as [o s]. cbn [fst snd] in *. congruence.
Qed.

Lemma next_item_ok it d e it' : ArrayIterator.next it d = (Some (Ok e), it') ->
  e = EpeeEntry.mk true (ArrayIterator.kind it) 1 /\ ArrayIterator.len it <> 0 /\
  it' = ArrayIterator.mk (ArrayIterator.kind it) (ArrayIterator.len it - 1).
Proof.
  unfold ArrayIterator.next. destruct (Epee.error d); [discriminate|].
  destruct (Z.eqb_spec (ArrayIterator.len it) 0); [discriminate|]. intros [= <- <-]. auto.
Qed.

(** A pop, and a read of what was popped, whether it fails or not *)
Lemma pop_and_read_holds {A} (r : epee_reader A) d items : ReaderSafe r -> holds d items ->
  holds (snd (pop_and_read r d)) (tail items).
Proof.
  intros Hsafe [Hb (l & Hr & <-)]. destruct (pop_refines (E := EpeeError) _ _ Hr) as (s' & Hp & Hr').
  unfold pop_and_read, dbind, dpop, on_encoding. rewrite Hp. cbn [fst snd].
  destruct (Hsafe _ Hb) as [_ [pre Hpre]]. destruct (r (snd d)) as [o bs]. cbn [fst snd] in *.
  rewrite <- (expand_pop _ (repr_pos _ _ Hr)). split; [|eauto].
  cbn. rewrite Hpre in Hb. exact (is_bytes_app_r _ _ Hb).
Qed.

Lemma pop_and_read_sound {A} (r : epee_reader A) d : ReaderSafe r -> sound d ->
  no_panic (fst (pop_and_read r d)) /\ sound (snd (pop_and_read r d)).
Proof.
  intros Hsafe [Hb (l & Hr)]. destruct (pop_refines (E := EpeeError) _ _ Hr) as (s' & Hp & Hr').
  unfold pop_and_read, dbind, dpop, on_encoding. rewrite Hp. cbn [fst snd].
  destruct (Hsafe _ Hb) as [Hn [pre Hpre]]. destruct (r (snd d)) as [o bs]. cbn [fst snd] in *.
  split; [exact Hn|]. split; [|eauto]. cbn. rewrite Hpre in Hb. exact (is_bytes_app_r _ _ Hb).
Qed.

(** *** Errors *)

(** The errors of what is encoded *)
Definition decode_error (e : EpeeError) : bool :=
  match e with Short _ | UnrecognizedType | EmptyKey | DepthLimitExceeded => true | _ => false end.

Definition fails {A} (r : epee_reader A) : Prop := forall bs e rest, r bs = (Err e, rest) -> decode_error e = true.

Lemma fails_bind {A B} (m : epee_reader A) (f : A -> epee_reader B) : fails m -> (forall a, fails (f a)) -> fails (rbind m f).
Proof.
  intros Hm Hf bs e rest. unfold rbind. destruct (m bs) as [[a|x|] bs'] eqn:Hx; [apply Hf| |discriminate].
  intros [= -> ->]. exact (Hm _ _ _ Hx).
Qed.

Lemma fails_ret {A} (a : A) : fails (rret a).
Proof. intros bs e rest [=]. Qed.

Lemma fails_fail {A} x : decode_error x = true -> fails (A := A) (rfail x).
Proof. intros Hx bs e rest [= <- _]. exact Hx. Qed.

Lemma fails_panic {A} : fails (A := A) rpanic.
Proof. intros bs e rest [=]. Qed.

Lemma fails_read_bytes n : fails (read_bytes n).
Proof. intros bs e rest. unfold read_bytes. destruct (_ <? _); [intros [= <- _]; reflexivity|discriminate]. Qed.

Lemma fails_read_byte : fails read_byte.
Proof. apply fails_bind; [apply fails_read_bytes|]. intros [|b l]; [apply fails_panic|apply fails_ret]. Qed.

Lemma fails_varint_loop n i vi : fails (varint_loop n i vi).
Proof.
  revert i vi. induction n as [|n IH]; intros i vi; cbn [varint_loop]; [apply fails_ret|].
  apply fails_bind; [apply fails_read_byte|intros; apply IH].
Qed.

Lemma fails_read_varint : fails read_varint.
Proof.
  apply fails_bind; [apply fails_read_byte|]. intros b.
  destruct (varint_len_cases b (@rret EpeeError nat) rpanic) as [n ->].
  apply fails_bind; [apply fails_ret|]. intros n'. apply fails_bind; [apply fails_varint_loop|intros; apply fails_ret].
Qed.

Lemma fails_to_usize x : fails (to_usize x).
Proof. unfold to_usize. destruct (_ <=? _); [apply fails_ret|apply fails_fail; reflexivity]. Qed.

Lemma fails_read_str : fails read_str.
Proof.
  apply fails_bind; [apply fails_read_varint|]. intros n. apply fails_bind; [apply fails_to_usize|].
  intros; apply fails_read_bytes.
Qed.

Lemma fails_read_type : fails read_type.
Proof.
  apply fails_bind; [apply fails_read_byte|]. intros b. cbv zeta.
  destruct (type_of _); [|apply fails_fail; reflexivity]. apply fails_bind; [|intros; apply fails_ret].
  destruct (negb _); [apply fails_read_varint|apply fails_ret].
Qed.

Lemma fails_read_key : fails read_key.
Proof.
  apply fails_bind; [apply fails_read_byte|]. intros b.
  destruct (_ =? 0); [apply fails_fail; reflexivity|apply fails_read_bytes].
Qed.

Lemma fails_read_item k : fails (read_item k).
Proof.
  destruct k as [[]|]; cbn [read_item]; unfold advance, rmap; repeat first
    [ apply fails_read_str | apply fails_read_varint | apply fails_to_usize | apply fails_read_bytes | apply fails_ret
    | apply fails_read_type | apply fails_read_key | apply fails_bind; [|intros [] || intros ?]].
Qed.

(** What a step does to what is left, whatever it returns: an item is popped,
    and its contents are pushed unless it fails, with an error of the encoding. *)
Lemma single_step_total d items : holds d items ->
  match single_step d with
  | (Ok (Some r), d') => holds d' (contents r ++ tail items) /\ 0 <= amount r /\
      exists k bs inner, head items = Some k /\ read_item k (snd d) = (Ok (r, inner), bs)
  | (Ok None, d') => holds d' items /\ items = []
  | (Err e, d') => holds d' (tail items) /\ decode_error e = true
  | (Panic, _) => False
  end.
Proof.
  intros Hh. pose proof (fun r d' => single_step_holds d r d' items Hh) as Hok. destruct d as [s bs].
  destruct Hh as [Hb (l & Hr & <-)]. cbn [fst snd] in *. pose proof (expand_pop l (repr_pos _ _ Hr)) as Hx.
  destruct (single_step_sound (s, bs) (conj Hb (ex_intro _ l Hr))) as [_ [Hb' _]].
  destruct (single_step_refines s l bs Hr Hb) as (H1 & H2 & H3). destruct (single_step (s, bs)) as [o [s1 bs1]].
  cbn [fst snd] in *. subst o. unfold spec_single_step in Hok, H2, H3 |- *.
  destruct l as [|[k n] l]; cbn [StackSpec.pop fst snd] in *; [split; [split; [exact Hb'|]; exists []; auto|reflexivity]|].
  set (l1 := if n =? 1 then l else (k, n - 1) :: l) in *.
  assert (Hk : head (expand ((k, n) :: l)) = Some k).
  { pose proof (Forall_inv (repr_pos _ _ Hr)) as Hn. cbn beta iota in Hn. unfold expand. cbn [map concat].
    destruct (Z.to_nat n) eqn:Hz; [lia|reflexivity]. }
  assert (Herr : forall l' : StackSpec.t, repr s1 l' -> l' = l1 -> holds (s1, bs1) (tail (expand ((k, n) :: l)))).
  { intros l' Hl ->. split; [exact Hb'|]. exists l1. split; [exact Hl|exact Hx]. }
  destruct (read_item_safe k bs Hb) as [Hn _].
  destruct (read_item k bs) as [[[r [[k' m]|]]|e|] bs2] eqn:Hi; cbn [fst snd] in *; [| | |contradiction].
  - unfold StackSpec.push in *. destruct (length l1 =? MAX_OBJECT_DEPTH)%nat; cbn [fst snd] in *;
      [split; [exact (Herr _ H3 eq_refl)|reflexivity]|].
    destruct (m =? 0); cbn [fst snd] in *; destruct (Hok _ _ eq_refl); eauto 10.
  - destruct (Hok _ _ eq_refl). eauto 10.
  - split; [exact (Herr _ H3 eq_refl)|exact (fails_read_item _ _ _ _ Hi)].
Qed.

Lemma read_object bs r inner rest : read_item (OfType Object) bs = (Ok (r, inner), rest) -> exists n, r = StepObject n.
Proof. cbn [read_item]. intros (a & bs1 & _ & (b & bs2 & _ & [[= <- _] _]%rret_ok_inv)%rbind_ok_inv)%rbind_ok_inv. eauto. Qed.

Lemma read_entry bs r inner rest : read_item Entry bs = (Ok (r, inner), rest) -> exists key k n, r = StepEntry key k n.
Proof.
  cbn [read_item]. intros (a & bs1 & _ & ([k m] & bs2 & _ & Hi)%rbind_ok_inv)%rbind_ok_inv. cbn beta iota in Hi.
  apply rbind_ok_inv in Hi as (y & bs3 & _ & [[= <- _] _]%rret_ok_inv). eauto.
Qed.

(** *** Reads of an entry *)

Lemma to_read_spec {A} k (r : epee_reader A) e d o d' : ReaderSafe r -> fails r -> Client.wf (Client.HEntry e) ->
  sound (state d) -> to_read k r e d = (o, d') ->
  no_panic o /\ sound (state d') /\
  (Epee.error d' = None -> Epee.error d = None /\
   forall items, holds (state d) items -> holds (state d') (List.skipn (length (Client.items (Client.HEntry e))) items)).
Proof.
  intros Hsafe Hfails Hw Hs. unfold to_read. cbn [Client.items]. rewrite repeat_length.
  destruct (_ || _) eqn:Hk.
  - unfold dropping. destruct Hw as [Hroot Hn]. unfold EpeeEntry.drop at 1. rewrite Hroot.
    destruct (drop_loop_sound (E := EpeeError) (Z.to_nat (EpeeEntry.len e)) d Hs) as (d1 & Hd & Hs'). rewrite Hd.
    intros [= <- <-]. split; [exact I|]. split; [exact Hs'|]. intros He.
    split; [exact (proj1 (drop_loop_holds _ _ _ [] Hd He))|intros items; exact (proj2 (drop_loop_holds _ _ _ items Hd He))].
  - apply orb_false_iff in Hk as [Hk Hl]. apply negb_false_iff, bool_decide_eq_true in Hk.
    apply negb_false_iff, Z.eqb_eq in Hl. unfold EpeeEntry.take, dropping. destruct e as [root kind n].
    cbn in Hk, Hl, Hw |- *. destruct Hw as [-> _]. subst kind n. destruct (Epee.error d) as [x|] eqn:Herr.
    + intros [= <- <-]. split; [exact I|]. split; [exact Hs|]. congruence.
    + destruct (run_spec (pop_and_read r) d) as (H1 & H2 & H3).
      destruct (pop_and_read_sound r _ Hsafe Hs) as [Hn Hs']. rewrite <- H1 in Hn. rewrite <- H2 in Hs'.
      destruct (Epee.run (pop_and_read r) d) as [x d1]. cbn [fst snd] in *. intros [= -> ->].
      split; [exact Hn|]. split; [exact Hs'|]. intros _. split; [reflexivity|]. intros items Hh.
      rewrite H2. change (Pos.to_nat 1) with 1%nat. destruct items; apply (pop_and_read_holds r _ _ Hsafe Hh).
Qed.
End Api.

(** *** The invariant of clients

    While no error is recorded, the stack has the items the handles have left
    and, when an entry was abandoned, maybe others. *)

Definition inv (c : Client.t) : Prop :=
  sound (state (Client.decoder c)) /\ Forall Client.wf (Client.handles c) /\
  (Client.opened c = false -> Client.handles c = []) /\
  (Epee.error (Client.decoder c) = None -> exists items, holds (state (Client.decoder c)) items /\
     (length (Client.left c) <= length items)%nat /\ (Client.abandoned c = false -> items = Client.left c)).

(** From [items], of which [mine] are the innermost handle's, to those of the
    handles which replace it *)
Definition replaces (a : bool) (d : decoder) (mine : list TypeOrEntry) (a' : bool) (d' : decoder) (mine' : list TypeOrEntry) : Prop :=
  forall items rest, holds d items -> (length (mine ++ rest) <= length items)%nat -> (a = false -> items = mine ++ rest) ->
    exists items', holds d' items' /\ (length (mine' ++ rest) <= length items')%nat /\ (a' = false -> items' = mine' ++ rest).

Section Invariant.
Lemma new_holds encoding d : is_bytes encoding -> Epee.new encoding = Ok d ->
  holds (state d) [OfType Object] /\ Epee.error d = None.
Proof.
  intros Hb. unfold Epee.new. destruct (read_bytes_safe (len HEADER) encoding Hb) as [_ [p1 Hp1]].
  destruct (read_bytes (len HEADER) encoding) as [[h|e|] bs1]; try discriminate. cbn [snd] in Hp1.
  rewrite Hp1 in Hb. apply is_bytes_app_r in Hb. destruct (negb _); [discriminate|]. unfold rok.
  destruct (epee_read_byte_safe bs1 Hb) as [_ [p2 Hp2]]. destruct (read_byte bs1) as [[v|e|] bs2]; try discriminate;
    cbn [snd] in Hp2; rewrite Hp2 in Hb; apply is_bytes_app_r in Hb.
  destruct (negb _); [discriminate|]. destruct (root_object_refines (E := EpeeError)) as (s & -> & Hr).
  intros [= <-]. split; [|reflexivity]. split; [exact Hb|]. exists StackSpec.root_object. auto.
Qed.

(** A call which replaces the innermost handle by others *)
Lemma inv_replace d o a h hs d' a' hs' : inv (Client.mk d o (h :: hs) a) -> sound (state d') -> Forall Client.wf hs' ->
  (Epee.error d' = None -> Epee.error d = None /\
     replaces a (state d) (Client.items h) a' (state d') (concat (map Client.items hs'))) ->
  inv (Client.mk d' o (hs' ++ hs) a').
Proof.
  intros (_ & [_ Hw]%Forall_cons_iff & Ho & Hh) Hs Hw' Hd. unfold inv, Client.left in *.
  cbn [Client.decoder Client.handles Client.opened Client.abandoned map concat] in *.
  split; [exact Hs|]. split; [apply Forall_app; auto|]. split; [intros ->; specialize (Ho eq_refl); discriminate|].
  intros He. destruct (Hd He) as [He0 Hk]. destruct (Hh He0) as (items & Hi & Hl & Ha).
  rewrite map_app, concat_app, <- !app_assoc in *. exact (Hk _ _ Hi Hl Ha).
Qed.

(** Its items were skipped. *)
Lemma replaces_skip a d d' mine :
  (forall items, holds d items -> holds d' (List.skipn (length mine) items)) -> replaces a d mine a d' [].
Proof.
  intros Hd items rest Hi Hl Ha. exists (List.skipn (length mine) items). split; [exact (Hd _ Hi)|].
  rewrite length_app in Hl. rewrite length_skipn. cbn [app]. split; [lia|]. intros Hf. rewrite (Ha Hf).
  rewrite skipn_app, Nat.sub_diag, skipn_all. reflexivity.
Qed.

(** They are left as they were: those of other handles, or of none. *)
Lemma replaces_same a d mine a' mine' : (length mine' <= length mine)%nat -> (a' = false -> a = false /\ mine' = mine) ->
  replaces a d mine a' d mine'.
Proof.
  intros Hm Hf items rest Hi Hl Ha. exists items. split; [exact Hi|]. rewrite length_app in *. split; [lia|].
  intros H. destruct (Hf H) as [H1 ->]. exact (Ha H1).
Qed.

(** Its next item was stepped on: [mine'] is what it has left, with what the
    handle the step gave has. *)
Lemma replaces_step a d d' k mine mine' o : single_step d = (o, d') ->
  match o with
  | Ok (Some r) => (length mine' <= length (contents r) + length mine)%nat /\
      forall bs inner, read_item k (snd d) = (Ok (r, inner), bs) -> mine' = contents r ++ mine
  | _ => mine' = mine
  end ->
  replaces a d (k :: mine) a d' mine'.
Proof.
  intros Hst Ho items rest Hi Hl Ha. pose proof (single_step_total d items Hi) as Ht. rewrite Hst in Ht.
  destruct items as [|x items]; [rewrite length_app in Hl; cbn in Hl; lia|].
  destruct o as [[r|]|e|]; [| |subst mine'|contradiction].
  - destruct Ht as (Hh & _ & k' & bs & inner & Hk & Hr). destruct Ho as [H1 H2].
    exists (contents r ++ items). split; [exact Hh|]. cbn [length] in *. rewrite !length_app in *. split; [cbn in Hl; lia|].
    intros Hf. specialize (Ha Hf). injection Ha as -> ->. injection Hk as <-. rewrite (H2 _ _ Hr), app_assoc. reflexivity.
  - destruct Ht as [_ [=]].
  - exists items. split; [apply Ht|]. cbn [length app] in *. split; [lia|]. intros Hf. specialize (Ha Hf). congruence.
Qed.

(** A call which abandons more keeps less. *)
Lemma replaces_or a d mine d' mine' b : replaces a d mine a d' mine' -> replaces a d mine (a || b) d' mine'.
Proof.
  intros H items rest Hi Hl Ha. destruct (H items rest Hi Hl Ha) as (items' & H1 & H2 & H3). exists items'.
  split_and!; auto. intros [Hf _]%orb_false_iff. auto.
Qed.

Lemma repeat_pop {A} (a : A) n : 0 <= n -> n <> 0 -> repeat a (Z.to_nat n) = a :: repeat a (Z.to_nat (n - 1)).
Proof. intros Hn Hn0. replace (Z.to_nat n) with (S (Z.to_nat (n - 1))) by lia. reflexivity. Qed.

Instance read_str_safe : ReaderSafe read_str.
Proof. unfold read_str. safe_tac. Qed.

(** *** Calls *)

Lemma inv_read {A} k (r : epee_reader A) e d o a hs x d' : ReaderSafe r -> fails r ->
  inv (Client.mk d o (Client.HEntry e :: hs) a) -> to_read k r e d = (x, d') -> inv (Client.mk d' o hs a).
Proof.
  intros Hsafe Hfails Hi Hx. pose proof Hi as (Hs & [Hw _]%Forall_cons_iff & _).
  destruct (to_read_spec k r e d x d' Hsafe Hfails Hw Hs Hx) as (_ & Hs' & Hd).
  apply (inv_replace d o a (Client.HEntry e) hs d' a []); [exact Hi|exact Hs'|constructor|]. intros He.
  destruct (Hd He) as [H1 H2]. split; [exact H1|]. apply replaces_skip, H2.
Qed.

Lemma inv_fields e d o a hs r d' : inv (Client.mk d o (Client.HEntry e :: hs) a) -> fields e d = (r, d') -> no_panic r ->
  inv (Client.mk d' o (match r with Ok it => Client.HFields it :: hs | _ => hs end) (a || Client.type_error r)).
Proof.
  intros Hi Hf Hn. pose proof Hi as (Hs & [[Hroot Hl] _]%Forall_cons_iff & _). destruct e as [root k n].
  cbn [EpeeEntry.root EpeeEntry.len Client.decoder] in *. subst root. unfold fields, EpeeEntry.take, dropping in Hf.
  cbn [EpeeEntry.root EpeeEntry.drop EpeeEntry.kind EpeeEntry.len] in Hf.
  destruct (Epee.error d) as [x|] eqn:He.
  { injection Hf as <- <-. apply (inv_replace d o a _ hs d _ [] Hi Hs); [constructor|]. congruence. }
  destruct (_ || _) eqn:Hk.
  { injection Hf as <- <-. apply (inv_replace d o a _ hs d _ [] Hi Hs); [constructor|]. intros _. split; [exact He|].
    apply replaces_same; [cbn; lia|]. cbn [Client.type_error]. rewrite orb_true_r. discriminate. }
  apply orb_false_iff in Hk as [Hk H1]. apply negb_false_iff, bool_decide_eq_true in Hk. apply negb_false_iff, Z.eqb_eq in H1. subst k n.
  destruct (run_spec single_step d) as (Hr1 & Hr2 & Hr3). pose proof (single_step_sound _ Hs) as [_ Hs'].
  rewrite <- Hr2 in Hs'. destruct (single_step (state d)) as [x d1] eqn:Hst. cbn [fst snd] in *.
  destruct (Epee.run single_step d) as [x' d2]. cbn [fst snd] in *. subst x' d1.
  pose proof (single_step_total (state d)) as Ht. rewrite Hst in Ht.
  assert (Hstep : forall hs', Forall Client.wf hs' ->
    match x with
    | Ok (Some r) => (length (concat (map Client.items hs')) <= length (contents r))%nat /\
        forall n, r = StepObject n -> concat (map Client.items hs') = contents r
    | _ => concat (map Client.items hs') = []
    end -> inv (Client.mk d2 o (hs' ++ hs) (a || Client.type_error r))).
  { intros hs' Hws Hm. apply (inv_replace d o a _ hs d2 _ hs' Hi Hs' Hws). intros _. split; [exact He|].
    apply replaces_or. change (Client.items _) with [OfType Object]. apply (replaces_step _ _ _ _ _ _ _ Hst).
    destruct x as [[r'|]|x|]; [|exact Hm..]. cbn [length]. rewrite Nat.add_0_r, app_nil_r. split; [apply Hm|].
    intros bs inner (m & ->)%read_object. exact (proj2 Hm m eq_refl). }
  assert (Hnone : forall r : SingleStepResult, (forall n, r <> StepObject n) ->
    (length (concat (map Client.items [])) <= length (contents r))%nat /\
    forall n, r = StepObject n -> concat (map Client.items []) = contents r).
  { intros r' Hr'. split; [cbn; lia|]. intros n Hn'. contradiction (Hr' n Hn'). }
  destruct x as [[[m|key kk m|]|]|x|]; injection Hf as <- <-; [| | | | |contradiction].
  - apply (Hstep [Client.HFields (FieldIterator.mk m)]).
    + constructor; [|constructor]. destruct Hi as (_ & _ & _ & Hh). destruct (Hh He) as (items & Hit & _). apply (Ht _ Hit).
    + cbn. rewrite app_nil_r. split; [lia|reflexivity].
  - apply (Hstep []); [constructor|]. apply Hnone. discriminate.
  - apply (Hstep []); [constructor|]. apply Hnone. discriminate.
  - apply (Hstep []); [constructor|reflexivity].
  - apply (Hstep []); [constructor|reflexivity].
Qed.

Lemma inv_next_field it d o a hs r it' d' : inv (Client.mk d o (Client.HFields it :: hs) a) ->
  FieldIterator.next it d = (r, (it', d')) -> r <> Some Panic ->
  inv (Client.mk d' o (match r with Some (Ok (_, e)) => Client.HEntry e :: Client.HFields it' :: hs
                       | _ => Client.HFields it' :: hs end) a).
Proof.
  intros Hi Hf Hn. pose proof Hi as (Hs & [Hl _]%Forall_cons_iff & _ & Hh). destruct it as [n]. cbn in Hl.
  cbn [Client.decoder] in *. unfold FieldIterator.next in Hf. cbn [FieldIterator.len] in Hf.
  destruct (Epee.error d) as [x|] eqn:He; [injection Hf as <- <- <-; exact Hi|].
  destruct (Z.eqb_spec n 0) as [|Hn0]; [injection Hf as <- <- <-; exact Hi|]. cbv zeta in Hf.
  destruct (run_spec single_step d) as (Hr1 & Hr2 & _). pose proof (single_step_sound _ Hs) as [_ Hs'].
  rewrite <- Hr2 in Hs'. destruct (single_step (state d)) as [x d1] eqn:Hst. cbn [fst snd] in *.
  destruct (Epee.run single_step d) as [x' d2]. cbn [fst snd] in *. subst x' d1.
  pose proof (single_step_total (state d)) as Ht. rewrite Hst in Ht.
  assert (Hstep : forall hs', Forall Client.wf hs' ->
    match x with
    | Ok (Some r) => (length (concat (map Client.items hs')) <= length (contents r) + Z.to_nat (n - 1))%nat /\
        forall key k m, r = StepEntry key k m -> concat (map Client.items hs') = contents r ++ repeat Entry (Z.to_nat (n - 1))
    | _ => concat (map Client.items hs') = repeat Entry (Z.to_nat (n - 1))
    end -> inv (Client.mk d2 o (hs' ++ hs) a)).
  { intros hs' Hws Hm. apply (inv_replace d o a _ hs d2 _ hs' Hi Hs' Hws). intros _. split; [exact He|].
    cbn [Client.items FieldIterator.len]. rewrite (repeat_pop _ _ Hl Hn0). apply (replaces_step _ _ _ _ _ _ _ Hst).
    destruct x as [[r'|]|x|]; [|exact Hm..]. rewrite repeat_length. split; [apply Hm|].
    intros bs inner (key & k & m & ->)%read_entry. exact (proj2 Hm _ _ _ eq_refl). }
  assert (Hw : Client.wf (Client.HFields (FieldIterator.mk (n - 1)))) by (cbn; lia).
  assert (Hnone : forall r : SingleStepResult, (forall key k m, r <> StepEntry key k m) ->
    (length (concat (map Client.items [Client.HFields (FieldIterator.mk (n - 1))])) <= length (contents r) + Z.to_nat (n - 1))%nat /\
    forall key k m, r = StepEntry key k m ->
      concat (map Client.items [Client.HFields (FieldIterator.mk (n - 1))]) = contents r ++ repeat Entry (Z.to_nat (n - 1))).
  { intros r' Hr'. split; [cbn; rewrite app_nil_r, repeat_length; lia|]. intros key k m Hk. contradiction (Hr' _ _ _ Hk). }
  assert (Hsame : concat (map Client.items [Client.HFields (FieldIterator.mk (n - 1))]) = repeat Entry (Z.to_nat (n - 1)))
    by apply app_nil_r.
  destruct x as [[[m|key kk m|]|]|x|]; injection Hf as <- <- <-; [| | | | |contradiction].
  - apply (Hstep [_]); [auto|]. apply Hnone. discriminate.
  - destruct (Hh eq_refl) as (items & Hit & _). destruct (Ht _ Hit) as (_ & Hm & _). cbn [amount] in Hm.
    apply (Hstep [_; _]); [repeat constructor; cbn; lia|]. cbn. rewrite app_nil_r, length_app, !repeat_length.
    split; [lia|]. intros ? ? ? [= <- <- <-]. reflexivity.
  - apply (Hstep [_]); [auto|]. apply Hnone. discriminate.
  - apply (Hstep [_]); [auto|exact Hsame].
  - apply (Hstep [_]); [auto|exact Hsame].
Qed.

Lemma inv_call c c' : inv c -> Client.call c c' -> inv c'.
Proof.
  intros Hi Hc. destruct Hc as [d o a e He|d o a x He|d o a e hs r d' He Hn|d o a e hs r d' He Hn|d o a it hs r it' d' He Hn
    |d o a it hs r it' He Hn|k n d o a e hs r d' He Hn|d o a e hs r d' He Hn|d o a e hs n r d' He Hn|d o a h hs d' He|d o a h hs];
    pose proof Hi as (Hs & Hw & Ho & Hh); cbn [Client.decoder Client.handles Client.opened Client.abandoned] in *;
    try (apply Forall_cons_iff in Hw as [Hw Hws]).
  - apply entry_ok in He as [-> Hd]. split; [exact Hs|]. split; [constructor; [cbn; lia|constructor]|].
    split; [discriminate|]. intros Herr. destruct (Hh Herr) as (items & Hit & Hl & Ha). exists items. split; [exact Hit|].
    destruct Hit as [_ (l & Hr & <-)]. assert (Hne : expand l <> []).
    { intros Hx. apply expand_nil in Hx; [|exact (repr_pos _ _ Hr)]. subst l.
      destruct Hr as (_ & _ & _ & Hd' & _). cbn in Hd'. lia. }
    unfold Client.left in *. cbn [Client.opened Client.handles Client.abandoned map concat app Client.items EpeeEntry.kind EpeeEntry.len] in *.
    change (Z.to_nat 1) with 1%nat. cbn [repeat app]. destruct o; [|auto].
    split; [destruct (expand l); [contradiction|cbn; lia]|]. intros H. contradiction (Hne (Ha H)).
  - exact Hi.
  - exact (inv_fields e d o a hs r d' Hi He Hn).
  - destruct e as [root k n]. destruct Hw as [Hroot Hl]. cbn in Hroot, Hl. subst root. unfold iterate, EpeeEntry.take, dropping in He.
    cbn in He. destruct (Epee.error d) eqn:Herr; injection He as <- <-.
    + apply (inv_replace d o a _ hs d a [] Hi Hs); [constructor|]. congruence.
    + apply (inv_replace d o a _ hs d a [Client.HArray _] Hi Hs); [constructor; [exact Hl|constructor]|]. intros _.
      split; [exact Herr|]. cbn. rewrite app_nil_r. apply replaces_same; auto.
  - exact (inv_next_field it d o a hs r it' d' Hi He Hn).
  - destruct it as [k n]. cbn in Hw. unfold ArrayIterator.next in He. cbn [ArrayIterator.len ArrayIterator.kind] in He.
    destruct (Epee.error d) eqn:Herr; [injection He as <- <-; exact Hi|].
    destruct (Z.eqb_spec n 0) as [|Hn0]; injection He as <- <-; [exact Hi|].
    apply (inv_replace d o a _ hs d a [Client.HEntry _; Client.HArray _] Hi Hs); [repeat constructor; cbn; lia|]. intros _.
    split; [exact Herr|]. cbn. rewrite app_nil_r, (repeat_pop _ _ Hw Hn0). apply replaces_same; auto.
  - exact (inv_read k (read_bytes n) e d o a hs r d' (read_bytes_safe n) (fails_read_bytes n) Hi He).
  - exact (inv_read String read_str e d o a hs r d' read_str_safe fails_read_str Hi He).
  - unfold to_fixed_len_str in He. destruct (to_str e d) as [x d1] eqn:Hx. injection He as <- <-.
    exact (inv_read String read_str e d o a hs x d1 read_str_safe fails_read_str Hi Hx).
  - apply (inv_replace d o a h hs d' a [] Hi); [exact (drop_sound h d d' Hw Hs He)|constructor|]. intros He'.
    split; [exact (proj1 (drop_holds h d d' [] Hw He He'))|]. apply replaces_skip. intros items.
    exact (proj2 (drop_holds h d d' items Hw He He')).
  - apply (inv_replace d o a h hs d true [] Hi Hs); [constructor|]. intros He. split; [exact He|].
    apply replaces_same; [cbn; lia|discriminate].
Qed.

Lemma inv_reachable encoding c : is_bytes encoding -> Client.reachable encoding c -> inv c.
Proof.
  intros Hb Hr. induction Hr as [d Hd|c c' Hr IH Hc]; [|exact (inv_call c c' IH Hc)].
  apply new_holds in Hd as [Hh He]; [|exact Hb]. split; [exact (holds_sound _ _ Hh)|].
  split; [constructor|]. split; [reflexivity|]. intros _. exists [OfType Object]. auto.
Qed.
End Invariant.

(** ** Theorems *)

Section Theorems.
Lemma rbind_suffix {A B} (m : epee_reader A) (f : A -> epee_reader B) bs :
  (exists pre, bs = pre ++ snd (m bs)) -> (forall a bs', m bs = (Ok a, bs') -> exists pre, bs' = pre ++ snd (f a bs')) ->
  exists pre, bs = pre ++ snd (rbind m f bs).
Proof.
  intros [p1 H1] Hf. unfold rbind. destruct (m bs) as [[a|e|] bs']; cbn [snd] in H1; [|eauto..].
  destruct (Hf a bs' eq_refl) as [p2 H2]. exists (p1 ++ p2). rewrite <- app_assoc, <- H2. exact H1.
Qed.

Lemma skip_item_suffix skip p k bs : is_bytes bs ->
  (forall p k n bs, is_bytes bs -> exists pre, bs = pre ++ snd (skip p k n bs)) ->
  exists pre, bs = pre ++ snd (skip_item skip p k bs).
Proof.
  intros Hb Hs. destruct (read_item_safe k bs Hb) as [_ Hp]. unfold skip_item. apply rbind_suffix; [exact Hp|].
  intros [r [[k' n]|]] bs' H; [|exists []; reflexivity]. rewrite H in Hp. destruct Hp as [p1 ->].
  destruct (_ =? _)%nat; [exists []; reflexivity|]. destruct (n =? 0); [exists []; reflexivity|].
  apply Hs. exact (is_bytes_app_r _ _ Hb).
Qed.

Lemma skip_items_suffix fuel p k n bs : is_bytes bs -> exists pre, bs = pre ++ snd (skip_items fuel p k n bs).
Proof.
  revert p k n bs. induction fuel as [|fuel IH]; intros p k n bs Hb; cbn [skip_items]; [exists []; reflexivity|].
  pose proof (skip_item_suffix (skip_items fuel) (if n =? 1 then p else S p) k bs Hb IH) as Hp.
  apply rbind_suffix; [exact Hp|]. intros a bs' H. rewrite H in Hp. destruct Hp as [p1 ->].
  destruct (n =? 1); [exists []; reflexivity|]. apply IH. exact (is_bytes_app_r _ _ Hb).
Qed.

(** C25: the packed stack implements a list of (type, amount) pairs.
    [root_object], [peek], [pop] and [push] never go out of the bounds of the
    two arrays, return what the list's operations return, the depth limit's
    error included, and leave a stack which stands for the list's. *)
Theorem stack_refines :
  (exists s, Stack.root_object (E := EpeeError) = Ok s /\ repr s StackSpec.root_object) /\
  forall s l, repr s l ->
    Stack.peek (E := EpeeError) s = Ok (StackSpec.peek l) /\
    (exists s', Stack.pop (E := EpeeError) s = Ok (fst (StackSpec.pop l), s') /\ repr s' (snd (StackSpec.pop l))) /\
    forall k n, 0 <= n <= USIZE_MAX ->
      match StackSpec.push l k n with
      | Ok l' => exists s', Stack.push s k n = Ok s' /\ repr s' l'
      | Err e => Stack.push s k n = Err e
      | Panic => False
      end.
Proof.
  split; [apply root_object_refines|]. intros s l Hr. split; [exact (peek_refines s l Hr)|].
  split; [exact (pop_refines s l Hr)|]. intros k n. exact (push_refines s l k n Hr).
Qed.

Lemma stack_refines_witness : exists s s', Stack.root_object (E := EpeeError) = Ok s /\
  Stack.push s Entry 2 = Ok s' /\ repr s' [(Entry, 2); (OfType Object, 1)] /\
  Stack.peek (E := EpeeError) s' = Ok (Some (Entry, 2)).
Proof.
  destruct stack_refines as [(s & Hs & Hr) Hops].
  destruct (proj2 (proj2 (Hops s StackSpec.root_object Hr)) Entry 2) as (s' & Hp & Hr'); [unfold USIZE_MAX, USIZE_BITS; lia|].
  exists s, s'. split; [exact Hs|]. split; [exact Hp|]. split; [exact Hr'|]. exact (proj1 (Hops s' _ Hr')).
Defined.

(** [step] returns, whatever the encoding: the rounds its loop is given,
    one more than there are bytes, are enough, and it neither panics nor
    overflows.  It leaves a suffix of the encoding, a strict one when it
    decoded something, and finds nothing to decode when and only when the
    stack is empty. *)
Theorem step_terminates d : sound d ->
  no_panic (fst (step d)) /\ sound (snd (step d)) /\
  (exists pre, snd d = pre ++ snd (snd (step d)) /\ (fst (step d) = Ok (Some tt) -> pre <> [])) /\
  (fst (step d) = Ok None <-> Stack.depth (fst d) = 0%nat).
Proof.
  intros Hs. destruct (step_sound d Hs) as [H1 H2]. split; [exact H1|]. split; [exact H2|].
  destruct d as [s bs]. destruct Hs as [Hb [l Hr]]. cbn [fst snd] in *.
  assert (Hd : Stack.depth s = length l) by (destruct Hr as (_ & _ & _ & -> & _); reflexivity).
  destruct l as [|[k n] l].
  - unfold step in *. cbn [fst] in *. rewrite (peek_refines s _ Hr) in *. cbn.
    split; [exists []; split; [reflexivity|discriminate]|split; auto].
  - pose proof (step_skips_core (length bs) s bs k n l Hr Hb (Nat.le_refl _)) as Hc.
    destruct (skip_item_suffix (skip_items (length bs)) (length (popped k n l)) k bs Hb (skip_items_suffix _)) as [pre Hpre].
    destruct (skip_item _ _ k bs) as [[u|e|] bs']; [| |contradiction]; cbn [snd] in Hpre.
    + destruct Hc as (s' & -> & _ & _ & Hl). cbn [fst snd]. split; [|rewrite Hd; split; discriminate].
      exists pre. split; [exact Hpre|]. intros _ ->. cbn in Hpre. subst bs'. lia.
    + destruct Hc as (s' & l' & -> & _). cbn [fst snd]. split; [|rewrite Hd; split; discriminate].
      exists pre. split; [exact Hpre|discriminate].
Qed.

(** An object whose field [a] is the array [5, 6] of [u8]s *)
Definition sample : bytes := HEADER ++ [1; 4; 1; 97; 136; 8; 5; 6].

Lemma step_terminates_witness : exists d,
  sound (state d) /\ Epee.new sample = Ok d /\ no_panic (fst (step (state d))).
Proof.
  destruct (Epee.new sample) as [d|e|] eqn:Hd; [|discriminate Hd..].
  destruct (new_holds sample d ltac:(decide_now) Hd) as [Hh _]. apply holds_sound in Hh.
  exists d. split; [exact Hh|]. split; [reflexivity|]. exact (proj1 (step_terminates (state d) Hh)).
Defined.

(** C23: [step], which keeps what is left to decode on a stack of bounded size,
    is the recursive descent [skip_item]: from a stack whose top is for items
    of type [k] it consumes the bytes which the descent consumes on one such
    item, leaves the stack with that item popped, and fails exactly when the
    descent does, with the same error and at the same byte. *)
Theorem step_skips s bs k n l : repr s ((k, n) :: l) -> is_bytes bs ->
  match skip_item (skip_items (length bs)) (length (popped k n l)) k bs with
  | (Ok _, bs') => exists s', step (s, bs) = (Ok (Some tt), (s', bs')) /\ repr s' (popped k n l)
  | (Err e, bs') => exists s' l', step (s, bs) = (Err e, (s', bs')) /\ repr s' l'
  | (Panic, _) => False
  end.
Proof.
  intros Hr Hb. pose proof (step_skips_core (length bs) s bs k n l Hr Hb (Nat.le_refl _)) as Hc.
  destruct (skip_item _ _ k bs) as [[u|e|] bs']; [| |exact Hc].
  - destruct Hc as (s' & H1 & H2 & _). eauto.
  - destruct Hc as (s' & l' & H1 & H2 & _). eauto.
Qed.

Lemma step_skips_witness : exists s s', Stack.root_object (E := EpeeError) = Ok s /\
  step (s, [4; 1; 97; 136; 8; 5; 6; 7]) = (Ok (Some tt), (s', [7])) /\ repr s' [].
Proof.
  destruct (root_object_refines (E := EpeeError)) as (s & Hs & Hr).
  pose proof (step_skips s [4; 1; 97; 136; 8; 5; 6; 7] (OfType Object) 1 [] Hr ltac:(decide_now)) as H.
  destruct H as (s' & H1 & H2). exists s, s'. auto.
Defined.

(** *** What the methods return *)

Definition one_of (k : Type_) (e : EpeeEntry.t) : Prop := EpeeEntry.kind e = k /\ EpeeEntry.len e = 1.

(** A value of what it's [typed] for, a [TypeError] of what it isn't, or an
    error of the encoding; [InternalError] if [internal] *)
Definition expected {A} (internal : bool) (typed : Prop) (r : outcome EpeeError A) : Prop :=
  match r with
  | Ok _ => typed
  | Err TypeError => ~ typed
  | Err InternalError => typed /\ internal = true
  | Err x => typed /\ decode_error x = true
  | Panic => False
  end.

Lemma expected_decode {A} internal (typed : Prop) x : typed -> decode_error x = true -> expected (A := A) internal typed (Err x).
Proof. intros Ht Hx. destruct x; try discriminate Hx; cbn; auto. Qed.

Lemma one_of_spec k e :
  if negb (bool_decide (EpeeEntry.kind e = k)) || negb (EpeeEntry.len e =? 1) then ~ one_of k e else one_of k e.
Proof.
  unfold one_of. destruct (bool_decide_reflect (EpeeEntry.kind e = k)), (Z.eqb_spec (EpeeEntry.len e) 1); cbn; tauto.
Qed.

Lemma fields_type_error_keeps e d d' items : holds (state d) items -> fields e d = (Err TypeError, d') -> d' = d.
Proof.
  intros Hi. unfold fields, EpeeEntry.take, dropping. destruct e as [[] k n]; cbn; [|congruence].
  destruct (Epee.error d); [congruence|]. destruct (_ || _); [congruence|].
  pose proof (single_step_total _ _ Hi) as Ht. destruct (run_spec single_step d) as (H1 & _).
  destruct (single_step (state d)) as [o d1]. cbn [fst] in H1. subst o.
  destruct (Epee.run single_step d) as [[[[m|key kk m|]|]|x|] d2]; cbn [fst] in Ht; try discriminate.
  intros [= -> _]. destruct Ht as [_ [=]].
Qed.

Lemma fields_expected e d a items rest : Client.wf (Client.HEntry e) -> Epee.error d = None -> holds (state d) items ->
  (length (Client.items (Client.HEntry e) ++ rest) <= length items)%nat ->
  (a = false -> items = Client.items (Client.HEntry e) ++ rest) -> expected a (one_of Object e) (fst (fields e d)).
Proof.
  intros [Hroot _] He Hi Hl Ha. pose proof (one_of_spec Object e) as Ho. unfold fields, EpeeEntry.take, dropping. rewrite Hroot.
  cbn [EpeeEntry.drop EpeeEntry.root EpeeEntry.kind EpeeEntry.len]. rewrite He. destruct (_ || _); [exact Ho|].
  destruct e as [root k n]. destruct Ho as [Hk Hn]. cbn in Hroot, Hk, Hn. subst root k n.
  assert (Ho : one_of Object (EpeeEntry.mk true Object 1)) by (split; reflexivity).
  pose proof (single_step_total _ _ Hi) as Ht. destruct (run_spec single_step d) as (H1 & _).
  destruct (single_step (state d)) as [x d1]. cbn [fst] in H1. subst x.
  assert (Hx : forall r, fst (Epee.run single_step d) = Ok (Some r) -> (forall n, r <> StepObject n) -> a = true).
  { intros r Hr Hne. rewrite Hr in Ht. destruct Ht as (_ & _ & k & bs & inner & Hk & Hread). destruct a; [reflexivity|].
    rewrite (Ha eq_refl) in Hk. injection Hk as <-. apply read_object in Hread as [n ->]. contradiction (Hne n eq_refl). }
  destruct (Epee.run single_step d) as [[[[m|key kk m|]|]|x|] d2]; cbn [fst] in *; cbn [fst].
  - exact Ho.
  - split; [exact Ho|]. apply (Hx _ eq_refl). discriminate.
  - split; [exact Ho|]. apply (Hx _ eq_refl). discriminate.
  - destruct Ht as [_ ->]. cbn [Client.items EpeeEntry.len length] in Hl. rewrite length_app, repeat_length in Hl. lia.
  - apply expected_decode; [exact Ho|apply Ht].
  - exact Ht.
Qed.

Lemma next_field_expected it d a items rest : 0 <= FieldIterator.len it -> Epee.error d = None -> holds (state d) items ->
  (length (Client.items (Client.HFields it) ++ rest) <= length items)%nat ->
  (a = false -> items = Client.items (Client.HFields it) ++ rest) ->
  match fst (FieldIterator.next it d) with
  | None => FieldIterator.len it = 0
  | Some r => FieldIterator.len it <> 0 /\ expected a True r
  end.
Proof.
  intros Hw He Hi Hl Ha. unfold FieldIterator.next. rewrite He. destruct (Z.eqb_spec (FieldIterator.len it) 0) as [Hn|Hn]; [exact Hn|].
  cbn [Client.items] in *. rewrite (repeat_pop _ _ Hw Hn) in Ha, Hl. cbv zeta.
  pose proof (single_step_total _ _ Hi) as Ht. destruct (run_spec single_step d) as (H1 & _).
  destruct (single_step (state d)) as [x d1]. cbn [fst] in H1. subst x.
  assert (Hx : forall r, fst (Epee.run single_step d) = Ok (Some r) -> (forall key k n, r <> StepEntry key k n) -> a = true).
  { intros r Hr Hne. rewrite Hr in Ht. destruct Ht as (_ & _ & k & bs & inner & Hk & Hread). destruct a; [reflexivity|].
    rewrite (Ha eq_refl) in Hk. injection Hk as <-. apply read_entry in Hread as (key & k' & n & ->). contradiction (Hne _ _ _ eq_refl). }
  destruct (Epee.run single_step d) as [[[[m|key kk m|]|]|x|] d2]; cbn [fst] in *; (split; [exact Hn|]).
  - split; [exact I|]. apply (Hx _ eq_refl). discriminate.
  - exact I.
  - split; [exact I|]. apply (Hx _ eq_refl). discriminate.
  - destruct Ht as [_ ->]. cbn in Hl. lia.
  - apply expected_decode; [exact I|apply Ht].
  - exact Ht.
Qed.

Lemma read_expected {A} k (r : epee_reader A) e d : ReaderSafe r -> fails r -> Client.wf (Client.HEntry e) ->
  sound (state d) -> Epee.error d = None -> expected false (one_of k e) (fst (to_read k r e d)).
Proof.
  intros Hsafe Hfails Hw Hs He. destruct (to_read k r e d) as [o d'] eqn:Hx.
  destruct (to_read_spec k r e d o d' Hsafe Hfails Hw Hs Hx) as [Hn _]. revert Hx. unfold to_read. pose proof (one_of_spec k e) as Ho.
  destruct (_ || _).
  - unfold dropping. destruct (drop_safe (Client.HEntry e) d Hw Hs) as (d1 & Hd & _). cbn in Hd. rewrite Hd. intros [= <- _]. exact Ho.
  - unfold EpeeEntry.take, dropping. destruct Hw as [-> _]. cbn. rewrite He. destruct (run_spec (pop_and_read r) d) as (H1 & _).
    destruct (Epee.run (pop_and_read r) d) as [x d1]. cbn [fst] in *. intros [= -> _]. destruct o as [y|y|]; [exact Ho| |exact Hn].
    apply expected_decode; [exact Ho|]. revert H1. unfold pop_and_read, dbind, dpop, on_encoding.
    destruct Hs as [_ (l & Hr)]. destruct (pop_refines (E := EpeeError) _ _ Hr) as (s' & -> & _). cbn.
    destruct (r _) as [z bs] eqn:Hz. cbn. intros <-. exact (Hfails _ _ _ Hz).
Qed.

(** An error which was recorded is returned, and nothing is decoded. *)
Lemma recorded_read {A} k e d x (r : epee_reader A) : Client.wf (Client.HEntry e) -> Epee.error d = Some x ->
  exists y, to_read k r e d = (Err y, d) /\ (one_of k e -> y = x).
Proof.
  intros [Hroot _] He. unfold to_read. pose proof (one_of_spec k e) as Ho. destruct (_ || _).
  - exists TypeError. split; [|intros H; contradiction (Ho H)]. unfold dropping, EpeeEntry.drop. rewrite Hroot.
    destruct (Z.to_nat (EpeeEntry.len e)); cbn [Epee.drop_loop]; [reflexivity|]. rewrite He. reflexivity.
  - exists x. split; [|reflexivity]. unfold EpeeEntry.take, dropping. rewrite Hroot. cbn. rewrite He. reflexivity.
Qed.

(** C24: what is left to decode is what the live handles have left.  In every
    state a client reaches, whatever its calls returned, and by drops and
    forgets at will, as long as no error is recorded, the decoder's stack has at
    least as many items as the handles have left; and while nothing was abandoned,
    laid out item by item, it is the list of what they have left, the innermost
    first.  Nothing is abandoned by a call which fails to decode, nor by a
    [TypeError] of [to_u64] and the like: what abandons is a forget, and
    [fields] when it returns [TypeError], which leaves the decoder before the
    entry it consumed.  When nothing was and the handles are gone, the stack is
    empty, so the object can't be read twice: [entry] fails with [EpeeReuse]. *)
Theorem handles_sync encoding c : is_bytes encoding -> Client.reachable encoding c ->
  Epee.error (Client.decoder c) = None ->
  (exists l, repr (Epee.stack (Client.decoder c)) l /\ (length (Client.left c) <= length (expand l))%nat /\
     (Client.abandoned c = false -> expand l = Client.left c)) /\
  (Client.abandoned c = false -> Client.opened c = true -> Client.handles c = [] -> entry (Client.decoder c) = Err EpeeReuse) /\
  forall e d', fields e (Client.decoder c) = (Err TypeError, d') -> d' = Client.decoder c.
Proof.
  intros Hb Hr He. destruct (inv_reachable encoding c Hb Hr) as (_ & _ & _ & Hh).
  destruct (Hh He) as (items & Hi & Hlen & Ha). split_and!.
  - destruct Hi as [_ (l & Hl & <-)]. eauto.
  - intros Hf Ho Hn. specialize (Ha Hf). unfold Client.left in Ha. rewrite Ho, Hn in Ha. subst items.
    destruct Hi as [_ (l & Hl & Hx)]. apply expand_nil in Hx; [|exact (repr_pos _ _ Hl)]. subst l.
    unfold entry. destruct Hl as (_ & _ & _ & Hd & _). cbn in Hd. rewrite Hd. reflexivity.
  - intros e d'. exact (fields_type_error_keeps e _ d' items Hi).
Qed.

(** A client's next call, evaluated *)
Ltac client_call H call :=
  eapply Client.ReachS in H; [|eapply call; [vm_compute; reflexivity|..]; (exact I || discriminate)]; cbn in H.

Lemma handles_sync_witness : exists c, Client.reachable sample c /\ Client.opened c = true /\
  Client.handles c = [] /\ Epee.error (Client.decoder c) = None /\ entry (Client.decoder c) = Err EpeeReuse.
Proof.
  destruct (Epee.new sample) as [d| |] eqn:Hd; [|discriminate Hd..]. pose proof (Client.Reach0 sample d Hd) as Hr0.
  vm_compute in Hd. injection Hd as <-.
  client_call Hr0 Client.CallEntry. client_call Hr0 Client.CallFields. client_call Hr0 Client.CallNextField.
  client_call Hr0 Client.CallIterate. client_call Hr0 Client.CallNextItem.
  client_call Hr0 (Client.CallPrimitive Uint8 1). client_call Hr0 Client.CallDrop. client_call Hr0 Client.CallDrop.
  eexists. split; [exact Hr0|]. do 3 (split; [reflexivity|]).
  exact (proj1 (proj2 (handles_sync sample _ ltac:(decide_now) Hr0 eq_refl)) eq_refl eq_refl eq_refl).
Defined.

(** A method returns, and leaves a sound decoder. *)
Definition safe {A} (x : outcome EpeeError A * Epee.t) : Prop := no_panic (fst x) /\ sound (state (snd x)).

Lemma safe_run {A} (m : dec A) d : no_panic (fst (m (state d))) /\ sound (snd (m (state d))) -> safe (Epee.run m d).
Proof. intros H. destruct (run_spec m d) as (H1 & H2 & _). unfold safe. rewrite H1, H2. exact H. Qed.

Lemma fields_safe e d : Client.wf (Client.HEntry e) -> sound (state d) -> safe (fields e d).
Proof.
  intros Hw Hs. unfold fields, EpeeEntry.take, dropping. destruct e as [root k n]. destruct Hw as [Hroot _].
  cbn in Hroot. subst root. cbn [EpeeEntry.root EpeeEntry.drop EpeeEntry.kind EpeeEntry.len].
  pose proof (safe_run single_step d (single_step_sound _ Hs)) as [Hn Hs'].
  destruct (Epee.error d); [split; [exact I|exact Hs]|]. destruct (_ || _); [split; [exact I|exact Hs]|].
  destruct (Epee.run single_step d) as [[[[f|key kk m|]|]|x|] d1]; (split; [try exact I|exact Hs']). exact Hn.
Qed.

Lemma next_field_safe it d o it' d' : 0 <= FieldIterator.len it -> sound (state d) ->
  FieldIterator.next it d = (o, (it', d')) ->
  (forall x, o = Some x -> no_panic x) /\ sound (state d') /\ 0 <= FieldIterator.len it'.
Proof.
  intros Hw Hs. unfold FieldIterator.next. destruct (Epee.error d).
  - intros [= <- <- <-]. split; [intros x [= <-]; exact I|auto].
  - destruct (Z.eqb_spec (FieldIterator.len it) 0) as [|Hn]; [intros [= <- <- <-]; split; [discriminate|auto]|].
    pose proof (safe_run single_step d (single_step_sound _ Hs)) as [Hp Hs']. cbv zeta.
    destruct (Epee.run single_step d) as [[[[f|key kk m|]|]|x|] d1]; [..|contradiction];
      intros [= <- <- <-]; (split; [intros y [= <-]; exact I|]); (split; [exact Hs'|cbn; lia]).
Qed.

Lemma to_read_safe {A} k (r : epee_reader A) e d : ReaderSafe r -> fails r -> Client.wf (Client.HEntry e) ->
  sound (state d) -> safe (to_read k r e d).
Proof.
  intros Hr Hf Hw Hs. destruct (to_read k r e d) as [o d'] eqn:Hx.
  destruct (to_read_spec k r e d o d' Hr Hf Hw Hs Hx) as (H1 & H2 & _). split; assumption.
Qed.

(** No call panics, whatever the encoding and whatever failed before.  On a
    decoder which is sound, every method returns and leaves it sound, every
    drop included, though an earlier error may have left the stack out of step
    with the encoding; [new] makes a sound decoder, or fails. *)
Theorem handles_safe :
  (forall encoding, is_bytes encoding -> no_panic (Epee.new encoding)) /\
  (forall encoding d, is_bytes encoding -> Epee.new encoding = Ok d -> sound (state d)) /\
  forall d, sound (state d) ->
    (forall h, Client.wf h -> exists d', Client.drop h d = Ok d' /\ sound (state d')) /\
    (forall e, Client.wf (Client.HEntry e) ->
       safe (fields e d) /\ safe (iterate e d) /\ (forall kind n, safe (to_primitive kind n e d)) /\
       safe (to_str e d) /\ forall n, safe (to_fixed_len_str e n d)) /\
    (forall it o it' d', 0 <= FieldIterator.len it -> FieldIterator.next it d = (o, (it', d')) ->
       (forall x, o = Some x -> no_panic x) /\ sound (state d') /\ 0 <= FieldIterator.len it') /\
    (forall it o it', 0 <= ArrayIterator.len it -> ArrayIterator.next it d = (o, it') ->
       (forall x, o = Some x -> no_panic x) /\ 0 <= ArrayIterator.len it').
Proof.
  split; [|split].
  - intros bs Hb. unfold Epee.new. destruct (read_bytes_safe (len HEADER) bs Hb) as [H1 [p Hp]].
    destruct (read_bytes (len HEADER) bs) as [[h|e|] bs1]; cbn [fst snd] in *; [|exact I|exact H1].
    destruct (negb _); [exact I|]. unfold rok. rewrite Hp in Hb. apply is_bytes_app_r in Hb.
    destruct (epee_read_byte_safe bs1 Hb) as [H2 _]. destruct (read_byte bs1) as [[v|e|] bs2]; [|exact I|exact H2].
    destruct (negb _); [exact I|]. destruct (root_object_refines (E := EpeeError)) as (s & -> & _). exact I.
  - intros bs d Hb Hd. exact (holds_sound _ _ (proj1 (new_holds bs d Hb Hd))).
  - intros d Hs. split; [intros h Hw; exact (drop_safe h d Hw Hs)|]. split; [|split].
    + intros e Hw. split; [exact (fields_safe e d Hw Hs)|]. split.
      { unfold iterate, EpeeEntry.take, dropping. destruct e as [[] k n]; cbn; [|split; [exact I|exact Hs]].
        destruct (Epee.error d); (split; [exact I|exact Hs]). }
      split; [intros kind n; exact (to_read_safe kind (read_bytes n) e d (read_bytes_safe n) (fails_read_bytes n) Hw Hs)|].
      pose proof (to_read_safe String read_str e d read_str_safe fails_read_str Hw Hs) as Ht. split; [exact Ht|].
      intros n. unfold to_fixed_len_str, to_str. destruct (to_read String read_str e d) as [[a|x|] d1];
        destruct Ht as [Ht1 Ht2]; (split; [|exact Ht2]); cbn; try exact I; [|exact Ht1]. destruct (negb _); exact I.
    + intros it o it' d' Hw. exact (next_field_safe it d o it' d' Hw Hs).
    + intros it o it' Hw. unfold ArrayIterator.next. destruct (Epee.error d).
      * intros [= <- <-]. split; [intros x [= <-]; exact I|exact Hw].
      * destruct (Z.eqb_spec (ArrayIterator.len it) 0); intros [= <- <-]; (split; [|cbn; lia]);
          [discriminate|intros x [= <-]; exact I].
Qed.

Lemma handles_safe_witness : exists d, Epee.new sample = Ok d /\ sound (state d) /\
  safe (fields (EpeeEntry.mk true Object 1) d).
Proof.
  destruct handles_safe as (_ & Hnew & H). destruct (Epee.new sample) as [d| |] eqn:Hd; [|discriminate Hd..].
  pose proof (Hnew sample d ltac:(decide_now) Hd) as Hs. exists d. split; [reflexivity|]. split; [exact Hs|].
  exact (proj1 (proj1 (proj2 (H d Hs)) (EpeeEntry.mk true Object 1) (conj eq_refl Z.le_0_1))).
Defined.

(** C26: [InternalError] is for what never happens.  In every state a client
    reaches, on any encoding, the methods of the innermost handle return a value
    when the entry is what they're for, [TypeError] when and only when it isn't
    ([to_fixed_len_str] also for a string of another length), or an error of
    the encoding; [next] ends when nothing is left.  [InternalError] is returned
    by [fields] and by [next] on fields alone, and only after an entry was
    abandoned.  Once an error is recorded they decode nothing, and return it, or
    [TypeError] where the entry isn't what a method is for. *)
Theorem handles_errors encoding d o h hs a : is_bytes encoding ->
  Client.reachable encoding (Client.mk d o (h :: hs) a) ->
  match Epee.error d with
  | None =>
      match h with
      | Client.HEntry e =>
          expected a (one_of Object e) (fst (fields e d)) /\
          fst (iterate e d) = Ok (ArrayIterator.mk (EpeeEntry.kind e) (EpeeEntry.len e)) /\
          (forall kind n, expected false (one_of kind e) (fst (to_primitive kind n e d))) /\
          expected false (one_of String e) (fst (to_str e d)) /\
          forall n, fst (to_fixed_len_str e n d) =
            match fst (to_str e d) with Ok str => if len str =? n then Ok str else Err TypeError | r => r end
      | Client.HFields it =>
          match fst (FieldIterator.next it d) with
          | None => FieldIterator.len it = 0
          | Some r => FieldIterator.len it <> 0 /\ expected a True r
          end
      | Client.HArray it =>
          match fst (ArrayIterator.next it d) with
          | None => ArrayIterator.len it = 0
          | Some r => ArrayIterator.len it <> 0 /\ r = Ok (EpeeEntry.mk true (ArrayIterator.kind it) 1)
          end
      end
  | Some x =>
      match h with
      | Client.HEntry e =>
          fields e d = (Err x, d) /\ iterate e d = (Err x, d) /\
          (forall kind n, exists y, to_primitive kind n e d = (Err y, d) /\ (one_of kind e -> y = x)) /\
          forall n, exists y, to_str e d = (Err y, d) /\ to_fixed_len_str e n d = (Err y, d) /\ (one_of String e -> y = x)
      | Client.HFields it => FieldIterator.next it d = (Some (Err x), (it, d))
      | Client.HArray it => ArrayIterator.next it d = (Some (Err x), it)
      end
  end.
Proof.
  intros Hb Hr. destruct (inv_reachable encoding _ Hb Hr) as (Hs & [Hw _]%Forall_cons_iff & _ & Hh).
  cbn [Client.decoder Client.abandoned] in *. destruct (Epee.error d) as [x|] eqn:He.
  - destruct h as [e|it|it]; cbn in Hw.
    + pose proof (fun k r => recorded_read (A := bytes) k e d x r Hw He) as Hread. destruct e as [root k n]. destruct Hw as [Hroot _].
      cbn in Hroot. subst root. unfold fields, iterate, EpeeEntry.take, dropping. cbn. rewrite He. split_and!; auto.
      * intros kind m. apply Hread.
      * intros m. destruct (Hread String read_str) as (y & Hy & H1). exists y. split; [exact Hy|]. split; [|exact H1].
        unfold to_fixed_len_str, to_str. rewrite Hy. reflexivity.
    + unfold FieldIterator.next. rewrite He. reflexivity.
    + unfold ArrayIterator.next. rewrite He. reflexivity.
  - destruct (Hh eq_refl) as (items & Hi & Hl & Ha). unfold Client.left in Ha, Hl. cbn [Client.handles map concat] in Ha, Hl.
    rewrite <- app_assoc in Ha, Hl. destruct h as [e|it|it]; cbn [Client.wf] in Hw.
    + split; [exact (fields_expected e d a items _ Hw He Hi Hl Ha)|]. split.
      { destruct e as [root k n]. destruct Hw as [Hroot _]. cbn in Hroot. subst root.
        unfold iterate, EpeeEntry.take, dropping. cbn. rewrite He. reflexivity. }
      split; [intros kind n; exact (read_expected kind (read_bytes n) e d (read_bytes_safe n) (fails_read_bytes n) Hw Hs He)|].
      split; [exact (read_expected String read_str e d read_str_safe fails_read_str Hw Hs He)|].
      intros n. unfold to_fixed_len_str. destruct (to_str e d) as [[str|y|] d1]; cbn; try reflexivity.
      destruct (len str =? n); reflexivity.
    + exact (next_field_expected it d a items _ Hw He Hi Hl Ha).
    + unfold ArrayIterator.next. rewrite He. destruct (Z.eqb_spec (ArrayIterator.len it) 0); cbn; auto.
Qed.

Lemma handles_errors_witness : exists d hs, Epee.error d = None /\
  Client.reachable sample (Client.mk d true (Client.HFields (FieldIterator.mk 1) :: hs) false) /\
  match fst (FieldIterator.next (FieldIterator.mk 1) d) with
  | None => 1 = 0 | Some r => 1 <> 0 /\ expected false True r
  end.
Proof.
  destruct (Epee.new sample) as [d| |] eqn:Hd; [|discriminate Hd..]. pose proof (Client.Reach0 sample d Hd) as Hr0.
  vm_compute in Hd. injection Hd as <-. client_call Hr0 Client.CallEntry. client_call Hr0 Client.CallFields.
  do 2 eexists. split; [|split; [exact Hr0|]]; [reflexivity|].
  exact (handles_errors sample _ _ _ _ _ ltac:(decide_now) Hr0).
Defined.

(** Once a client called [fields] on the only field of the object, a [u8], it
    reaches a state in which the iterator's [next] is an [InternalError]; and
    another, by dropping the iterator instead, in which it has no handles and
    [entry] succeeds again, on a decoder whose next item is the [u8]. *)
Definition u8_field : bytes := HEADER ++ [1; 8; 1; 97; 8; 5; 1; 98; 8; 6].

Example fields_type_error :
  (exists d it hs, Client.reachable u8_field (Client.mk d true (Client.HFields it :: hs) true) /\
     fst (FieldIterator.next it d) = Some (Err InternalError)) /\
  exists d, Client.reachable u8_field (Client.mk d true [] true) /\ entry d = Ok (EpeeEntry.mk true Object 1) /\
    Stack.peek (E := EpeeError) (Epee.stack d) = Ok (Some (Entry, 1)).
Proof.
  destruct (Epee.new u8_field) as [d| |] eqn:Hd; [|discriminate Hd..]. pose proof (Client.Reach0 u8_field d Hd) as Hr0.
  vm_compute in Hd. injection Hd as <-. client_call Hr0 Client.CallEntry. client_call Hr0 Client.CallFields.
  client_call Hr0 Client.CallNextField. client_call Hr0 Client.CallFields. split.
  - do 3 eexists. split; [exact Hr0|]. vm_compute. reflexivity.
  - client_call Hr0 Client.CallDrop. eexists. split; [exact Hr0|]. split; vm_compute; reflexivity.
Qed.
End Theorems.
