(* ===== verification/Extra.v ===== *)
(** Transaction extra ([wallet/src/extra.rs]): payment IDs, the fields of
    [extra], their sorted encoding and the lenient reader which stops at what
    it doesn't understand.  [BufRead] is [&mut &[u8]], whose [fill_buf] is all
    that is left. *)

From Stdlib Require Import ZArith Lia.
From stdpp Require Import base list strings numbers sorting.
From S2P Require Import Prelude Dalek MoneroIo Ed25519.

Definition MAX_TX_EXTRA_NONCE_SIZE : Z := 255.
Definition PAYMENT_ID_MARKER : Z := 0.
Definition ENCRYPTED_PAYMENT_ID_MARKER : Z := 1.
Definition ARBITRARY_DATA_MARKER : Z := 127.
Definition MAX_ARBITRARY_DATA_SIZE : Z := MAX_TX_EXTRA_NONCE_SIZE - 1.
Definition MAX_EXTRA_SIZE_BY_RELAY_RULE : Z := 1060.

(** [enum PaymentId] *)
Inductive PaymentId : Type :=
| Unencrypted (id : bytes)
| Encrypted (id : bytes).

Module PaymentId.
(** [BitXor] *)
Definition bitxor (self : PaymentId) (bs : bytes) : PaymentId :=
  match self with
  | Unencrypted _ => self
  | Encrypted id => Encrypted (to_le 8 (Z.lxor (from_le id) (from_le bs)))
  end.

Definition write (self : PaymentId) : bytes :=
  match self with
  | Unencrypted id => [PAYMENT_ID_MARKER] ++ id
  | Encrypted id => [ENCRYPTED_PAYMENT_ID_MARKER] ++ id
  end.

Definition serialize (self : PaymentId) : bytes := write self.

Definition read : io_reader PaymentId :=
  let* kind := read_byte in
  match kind with
  | 0 => rmap Unencrypted (read_bytes 32)
  | 1 => rmap Encrypted (read_bytes 8)
  | _ => rother "unknown payment ID type"
  end.
End PaymentId.

(** [enum ExtraField] *)
Inductive ExtraField : Type :=
| Padding (size : Z)
| PublicKey (key : CompressedPoint)
| Nonce (data : bytes)
| MergeMining (depth : Z) (merkle_root : bytes)
| PublicKeys (keys : list CompressedPoint)
| MysteriousMinergate (data : bytes).

Module ExtraField.
Definition write (self : ExtraField) : bytes :=
  match self with
  | Padding size => [0] ++ repeat 0 (Z.to_nat (size - 1))
  | PublicKey key => [1] ++ CompressedPoint.write key
  | Nonce data => [2] ++ write_vec write_byte data
  | MergeMining depth merkle_root =>
      [3] ++ VarInt.write (VarInt.varint_len depth + len merkle_root) ++ VarInt.write depth ++ merkle_root
  | PublicKeys keys => [4] ++ write_vec CompressedPoint.write keys
  | MysteriousMinergate data => [222] ++ write_vec write_byte data
  end.

Definition serialize (self : ExtraField) : bytes := write self.

(** [for v in buf], over the zeroes which pad [extra] *)
Fixpoint padding_loop (buf : bytes) (size : Z) : outcome io_error Z :=
  match buf with
  | [] => Ok size
  | v :: buf =>
      if negb (v =? 0) then Err (Other "non-zero value after padding")
      else if size =? 255 then Err (Other "padding exceeded max count")
      else padding_loop buf (size + 1)
  end.

(** The loop on [fill_buf], whose second round finds nothing: what was found
    is consumed when all of it was zeroes. *)
Definition read_padding : io_reader ExtraField :=
  fun bs =>
    match padding_loop bs 1 with
    | Ok size => (if size =? 0 then Panic else Ok (Padding size), [])
    | Err e => (Err e, bs)
    | Panic => (Panic, bs)
    end.

Definition read_merge_mining : io_reader ExtraField :=
  let* field_len := VarInt.read VarInt.usize in
  let* depth := VarInt.read VarInt.u64 in
  let* merkle_root := read_bytes 32 in
  let fields := VarInt.varint_len depth + len merkle_root in
  if field_len <? fields then rother "`MergeMining` tag had a length smaller than its fields"
  else
    let* _ := read_raw_vec read_byte (Z.to_nat (field_len - fields)) in
    rret (MergeMining depth merkle_root).

Definition read : io_reader ExtraField :=
  let* kind := read_byte in
  match kind with
  | 0 => read_padding
  | 1 => rmap PublicKey CompressedPoint.read
  | 2 => rmap Nonce (read_vec read_byte (Some MAX_TX_EXTRA_NONCE_SIZE))
  | 3 => read_merge_mining
  | 4 => rmap PublicKeys (read_vec CompressedPoint.read None)
  | 222 => rmap MysteriousMinergate (read_vec read_byte None)
  | _ => rother "unknown extra field"
  end.

Definition is_public_key (field : ExtraField) : bool := match field with PublicKey _ => true | _ => false end.
Definition is_public_keys (field : ExtraField) : bool := match field with PublicKeys _ => true | _ => false end.
Definition is_nonce (field : ExtraField) : bool := match field with Nonce _ => true | _ => false end.
Definition is_merge_mining (field : ExtraField) : bool := match field with MergeMining _ _ => true | _ => false end.
Definition is_minergate (field : ExtraField) : bool := match field with MysteriousMinergate _ => true | _ => false end.
Definition is_padding (field : ExtraField) : bool := match field with Padding _ => true | _ => false end.
End ExtraField.

(** [struct Extra] *)
Abbreviation Extra := (list ExtraField).

Module Extra.
Section Keys.
Context {D : Dalek}.

Definition key_or_identity (key : CompressedPoint) : Point :=
  default ed_identity (CompressedPoint.decompress key).

(** [keys]'s loop *)
Fixpoint keys_loop (fields : Extra) (keys : list Point) (additional : option (list Point))
  : list Point * option (list Point) :=
  match fields with
  | [] => (keys, additional)
  | PublicKey key :: fields => keys_loop fields (keys ++ [key_or_identity key]) additional
  | PublicKeys ks :: fields =>
      keys_loop fields keys (match additional with Some a => Some a | None => Some (map key_or_identity ks) end)
  | _ :: fields => keys_loop fields keys additional
  end.

Definition keys (self : Extra) : option (list Point * option (list Point)) :=
  let (keys, additional) := keys_loop self [] None in
  match keys with [] => None | _ => Some (keys, additional) end.
End Keys.

Fixpoint payment_id {E} (self : Extra) : outcome E (option PaymentId) :=
  match self with
  | [] => Ok None
  | Nonce data :: _ =>
      let (res, reader) := PaymentId.read data in
      match res with
      | Panic => Panic
      | _ => Ok (if bool_decide (reader = []) then ok_opt res else None)
      end
  | _ :: self => payment_id self
  end.

Definition new (key : CompressedPoint) (additional : list CompressedPoint) : Extra :=
  let res := [PublicKey key] in
  match additional with [] => res | _ => res ++ [PublicKeys additional] end.

Definition push_nonce (self : Extra) (nonce : bytes) : Extra := self ++ [Nonce nonce].

Definition SORT_ORDER : list (ExtraField -> bool) :=
  [ExtraField.is_public_key; ExtraField.is_public_keys; ExtraField.is_nonce;
   ExtraField.is_merge_mining; ExtraField.is_minergate; ExtraField.is_padding].

Definition write (self : Extra) : bytes :=
  write_raw_vec (fun selection => write_raw_vec ExtraField.write (List.filter selection self)) SORT_ORDER.

Definition serialize (self : Extra) : bytes := write self.

(** [read]'s loop.  Every field read takes a byte, so [read] gives it as many
    rounds as there are bytes. *)
Fixpoint read_loop (fuel : nat) (res : Extra) : io_reader Extra :=
  fun bs =>
    match bs with
    | [] => (Ok res, bs)
    | _ :: _ =>
        match fuel with
        | O => (Panic, bs)
        | S fuel =>
            match ExtraField.read bs with
            | (Ok field, bs) => read_loop fuel (res ++ [field]) bs
            | (Err _, bs) => (Ok res, bs)
            | (Panic, bs) => (Panic, bs)
            end
        end
    end.

Definition read : io_reader Extra := fun bs => read_loop (length bs) [] bs.

(** [arbitrary_data]'s loop *)
Fixpoint arbitrary_data_loop (fields : Extra) : list bytes :=
  match fields with
  | [] => []
  | Nonce data :: fields =>
      match data with
      | b :: data => if b =? ARBITRARY_DATA_MARKER then data :: arbitrary_data_loop fields else arbitrary_data_loop fields
      | [] => arbitrary_data_loop fields
      end
  | _ :: fields => arbitrary_data_loop fields
  end.

Definition arbitrary_data {E} (self : Extra) : outcome E (list bytes) :=
  let serialized := serialize self in
  let bounded := take (Z.to_nat (Z.min (len serialized) MAX_EXTRA_SIZE_BY_RELAY_RULE)) serialized in
  match fst (read bounded) with
  | Ok bounded_extra => Ok (arbitrary_data_loop bounded_extra)
  | _ => Panic
  end.
End Extra.

(** ** Fields *)

#[global] Typeclasses Opaque PaymentId.write ExtraField.write.

Section Fields.
Lemma read_tag {A} (k : Z -> io_reader A) b bs : rbind read_byte k (b :: bs) = k b bs.
Proof. reflexivity. Qed.

Definition payment_id_ok (x : PaymentId) : Prop :=
  match x with Unencrypted id => is_array 32 id | Encrypted id => is_array 8 id end.

#[export] Instance payment_id_codec : Codec PaymentId.read PaymentId.write payment_id_ok.
Proof.
  split.
  - intros [id|id] H; (apply is_bytes_cons; [unfold U, PAYMENT_ID_MARKER, ENCRYPTED_PAYMENT_ID_MARKER; lia|apply H]).
  - intros [id|id] rest H; unfold PaymentId.read, PaymentId.write; rewrite <- app_assoc; cbn [app]; rewrite read_tag;
      cbn [PAYMENT_ID_MARKER ENCRYPTED_PAYMENT_ID_MARKER]; unfold rmap; erewrite rbind_ok by (apply read_bytes_rt, H); reflexivity.
  - intros bs x rest Hb H. unfold PaymentId.read in H. read_inv1. read_inv1.
    destruct a as [|[p|p|]|p]; try discriminate H; unfold rmap in H; read_inv; (split; [assumption|reflexivity]).
  - unfold PaymentId.read. safe_tac.
Qed.

(** The fields which are read back.  A [usize] counts the keys. *)
Definition field_ok (x : ExtraField) : Prop :=
  match x with
  | Padding size => 1 <= size <= 255
  | PublicKey key => is_array 32 key
  | Nonce data => vec_ok (U 8) (Some MAX_TX_EXTRA_NONCE_SIZE) data
  | MergeMining depth merkle_root => U 64 depth /\ is_array 32 merkle_root
  | PublicKeys keys => vec_ok (is_array 32) None keys
  | MysteriousMinergate data => vec_ok (U 8) None data
  end.

Lemma padding_loop_spec buf size : 1 <= size <= 255 ->
  match ExtraField.padding_loop buf size with
  | Ok size' => buf = repeat 0 (Z.to_nat (size' - size)) /\ size <= size' <= 255
  | Err _ => True
  | Panic => False
  end.
Proof.
  revert size. induction buf as [|v buf IH]; intros size Hs; cbn [ExtraField.padding_loop].
  - rewrite Z.sub_diag. split; [reflexivity|lia].
  - destruct (Z.eqb_spec v 0) as [->|]; cbn [negb]; [|exact I]. destruct (Z.eqb_spec size 255); [exact I|].
    specialize (IH (size + 1) ltac:(lia)). destruct (ExtraField.padding_loop buf (size + 1)) as [s|e|]; [|exact I|exact IH].
    destruct IH as [-> H]. split; [|lia]. replace (Z.to_nat (s - size)) with (S (Z.to_nat (s - (size + 1)))) by lia. reflexivity.
Qed.

Lemma padding_loop_zeroes n size : 1 <= size -> size + Z.of_nat n <= 255 ->
  ExtraField.padding_loop (repeat 0 n) size = Ok (size + Z.of_nat n).
Proof.
  revert size. induction n as [|n IH]; intros size H1 H2; cbn [repeat ExtraField.padding_loop].
  - f_equal. lia.
  - cbn [Z.eqb negb]. destruct (Z.eqb_spec size 255); [lia|]. rewrite IH by lia. f_equal. lia.
Qed.

#[export] Instance read_padding_safe : ReaderSafe ExtraField.read_padding.
Proof.
  intros bs _. unfold ExtraField.read_padding. pose proof (padding_loop_spec bs 1 ltac:(lia)) as H.
  destruct (ExtraField.padding_loop bs 1) as [s|e|]; [|split; [exact I|exists []; reflexivity]|contradiction].
  destruct (Z.eqb_spec s 0); [lia|]. split; [exact I|]. exists bs. symmetry. apply app_nil_r.
Qed.

#[export] Instance extra_field_safe : ReaderSafe ExtraField.read.
Proof.
  unfold ExtraField.read, ExtraField.read_merge_mining. safe_tac.
Qed.
End Fields.

Section Reading.
Lemma read_field_write f rest : field_ok f -> ExtraField.is_padding f = false ->
  ExtraField.read (ExtraField.write f ++ rest) = (Ok f, rest).
Proof.
  intros Hf Hp. destruct f; [discriminate| | | | |]; unfold ExtraField.write; rewrite <- !app_assoc;
    cbn [app]; unfold ExtraField.read; rewrite read_tag; cbn [field_ok] in Hf; cbn beta iota; unfold rmap;
    try (erewrite rbind_ok by (apply codec_rt, Hf); reflexivity).
  destruct Hf as [Hd Hm]. unfold ExtraField.read_merge_mining.
  assert (Hl : len merkle_root = 32) by (destruct Hm as [_ Hm]; unfold len; lia). rewrite Hl.
  pose proof (varint_len_bounds VarInt.u64 depth Hd) as Hv.
  change (VarInt.LOWER_BOUND _) with 1 in Hv. change (VarInt.UPPER_BOUND _) with 10 in Hv.
  assert (HU : U USIZE_BITS (VarInt.varint_len depth + 32)) by (unfold U, USIZE_BITS; lia).
  read_run. rewrite Hl, Z.ltb_irrefl, Z.sub_diag. reflexivity.
Qed.

Lemma read_padding_write n : 1 <= n <= 255 ->
  ExtraField.read (ExtraField.write (Padding n)) = (Ok (Padding n), []).
Proof.
  intros Hn. unfold ExtraField.write, ExtraField.read. cbn [app]. rewrite read_tag. unfold ExtraField.read_padding.
  rewrite padding_loop_zeroes by lia. replace (1 + _) with n by lia. destruct (Z.eqb_spec n 0); [lia|reflexivity].
Qed.

Lemma read_rmap_inv {A B} (f : A -> B) (r : io_reader A) w P bs b rest : Codec r w P -> is_bytes bs ->
  rmap f r bs = (Ok b, rest) -> exists a, b = f a /\ P a.
Proof.
  intros HC Hb (a & bs' & Hr & H)%rbind_ok_inv. apply rret_ok_inv in H as [<- _].
  apply codec_sound in Hr as [Ha _]; [|exact Hb]. eauto.
Qed.

(** What a read gives can be written, and padding is the last of [extra]. *)
Lemma read_field_inv bs f rest : is_bytes bs -> ExtraField.read bs = (Ok f, rest) ->
  field_ok f /\ (ExtraField.is_padding f = true -> rest = []) /\ (length rest < length bs)%nat /\ is_bytes rest.
Proof.
  intros Hb H. destruct (extra_field_safe bs Hb) as [_ [pre Hpre]]. rewrite H in Hpre. cbn [snd] in Hpre.
  assert (Hr : is_bytes rest) by (rewrite Hpre in Hb; exact (is_bytes_app_r _ _ Hb)).
  unfold ExtraField.read in H. apply rbind_ok_inv in H as (kind & bs' & Hk & H).
  apply codec_sound in Hk as [_ Hk]; [|exact Hb]. cbn in Hk. subst bs.
  pose proof Hb as [_ Hb']%Forall_cons_iff.
  assert (Hgen : forall r : io_reader ExtraField, ReaderSafe r -> r bs' = (Ok f, rest) ->
                 (length rest < length (kind :: bs'))%nat).
  { intros r Hs Hx. destruct (Hs bs' Hb') as [_ [p Hp]]. rewrite Hx in Hp. cbn in Hp. rewrite Hp. cbn.
    rewrite length_app. lia. }
  assert (Hmap : forall A (c : A -> ExtraField) (r : io_reader A) w P, Codec r w P -> (forall a, ExtraField.is_padding (c a) = false) ->
                 (forall a, P a -> field_ok (c a)) -> rmap c r bs' = (Ok f, rest) ->
    field_ok f /\ (ExtraField.is_padding f = true -> rest = []) /\ (length rest < length (kind :: bs'))%nat /\ is_bytes rest).
  { intros A c r w P HC Hc Hok Hx. pose proof (Hgen (rmap c r) ltac:(unfold rmap; safe_tac) Hx) as Hl.
    apply (read_rmap_inv c r w P _ _ _ HC Hb') in Hx as (a & -> & Ha). rewrite Hc. split_and!; auto. discriminate. }
  repeat case_match; try discriminate H;
    try (revert H; apply (Hmap _ _ _ _ _ (read_vec_codec read_byte write_byte (U 8) _ _)); auto; reflexivity).
  - pose proof (Hgen ExtraField.read_padding _ H) as Hl. unfold ExtraField.read_padding in H.
    pose proof (padding_loop_spec bs' 1 ltac:(lia)) as Hs.
    destruct (ExtraField.padding_loop bs' 1) as [s|e|]; [|discriminate|discriminate].
    destruct (Z.eqb_spec s 0); [discriminate|]. injection H as <- <-. split_and!; auto. exact (proj2 Hs).
  - pose proof (Hgen ExtraField.read_merge_mining ltac:(unfold ExtraField.read_merge_mining; safe_tac) H) as Hl.
    unfold ExtraField.read_merge_mining in H. change (is_bytes bs') in Hb'. read_inv1. read_inv1. read_inv1. read_inv1.
    read_inv1. read_inv1. cbv zeta in H. destruct (_ <? _); [discriminate H|].
    apply rbind_ok_inv in H as (skipped & bs3 & _ & [<- _]%rret_ok_inv). split; [split; assumption|]. split; [discriminate|auto].
  - revert H. apply (Hmap _ PublicKeys _ _ (vec_ok (is_array 32) None) _); auto.
  - revert H. apply (Hmap _ PublicKey _ _ (is_array 32) _); auto.
Qed.
End Reading.

(** ** The loop of [read] *)

Section Loop.
Lemma field_bytes f : field_ok f -> is_bytes (ExtraField.write f).
Proof.
  intros Hf. destruct f; unfold ExtraField.write; cbn [field_ok] in Hf;
    (apply is_bytes_app_2; [repeat constructor; unfold U; lia|]); try (bytes_tac; fail).
  - apply zeros_bytes.
  - destruct Hf as [Hd Hm]. pose proof (varint_len_bounds VarInt.u64 depth Hd) as Hv.
    change (VarInt.LOWER_BOUND _) with 1 in Hv. change (VarInt.UPPER_BOUND _) with 10 in Hv.
    assert (Hl : len merkle_root = 32) by (destruct Hm as [_ Hm]; unfold len; lia). rewrite Hl.
    assert (HU : U 64 (VarInt.varint_len depth + 32)) by (unfold U; lia).
    bytes_tac.
Qed.

Lemma fields_bytes fs : Forall field_ok fs -> is_bytes (write_raw_vec ExtraField.write fs).
Proof. apply write_raw_vec_bytes, field_bytes. Qed.

Lemma read_loop_fuel fuel fuel' res bs : is_bytes bs -> (length bs <= fuel)%nat -> (length bs <= fuel')%nat ->
  Extra.read_loop fuel res bs = Extra.read_loop fuel' res bs.
Proof.
  revert fuel' res bs. induction fuel as [|fuel IH]; intros [|fuel'] res [|b bs] Hb Hf Hf'; cbn in Hf, Hf';
    try lia; try reflexivity.
  cbn [Extra.read_loop]. destruct (ExtraField.read (b :: bs)) as [[f|e|] rest] eqn:Hr; [|reflexivity..].
  apply read_field_inv in Hr as (_ & _ & Hl & Hb'); [|exact Hb]. cbn in Hl. apply IH; [exact Hb'|lia|lia].
Qed.

Lemma write_field_cons f : exists b bs, ExtraField.write f = b :: bs.
Proof. destruct f; unfold ExtraField.write; cbn [app]; eauto. Qed.

(** Fields which don't pad are read one by one. *)
Lemma read_loop_fields fs fuel res rest : Forall field_ok fs -> Forall (fun f => ExtraField.is_padding f = false) fs ->
  is_bytes rest -> (length (write_raw_vec ExtraField.write fs ++ rest) <= fuel)%nat ->
  Extra.read_loop fuel res (write_raw_vec ExtraField.write fs ++ rest) = Extra.read_loop (length rest) (res ++ fs) rest.
Proof.
  intros Hok Hp Hr. revert fuel res. induction fs as [|f fs IH]; intros fuel res Hf; cbn [write_raw_vec app] in *.
  - rewrite app_nil_r. apply read_loop_fuel; auto.
  - apply Forall_cons_iff in Hok as [Hf1 Hok]. apply Forall_cons_iff in Hp as [Hp1 Hp].
    rewrite <- app_assoc in *. pose proof (read_field_write f (write_raw_vec ExtraField.write fs ++ rest) Hf1 Hp1) as Hrf.
    destruct (write_field_cons f) as (b & bs & Hw). rewrite Hw in *. cbn [app length] in *.
    destruct fuel as [|fuel]; [lia|]. cbn [Extra.read_loop]. rewrite Hrf. rewrite length_app in Hf.
    rewrite (IH Hok Hp) by lia. rewrite <- app_assoc. reflexivity.
Qed.

(** The result of a read, whatever the bytes *)
Lemma read_loop_total fuel res bs : is_bytes bs -> (length bs <= fuel)%nat ->
  exists x rest, Extra.read_loop fuel res bs = (Ok (res ++ x), rest) /\ Forall field_ok x /\
    (exists pre, bs = pre ++ rest) /\
    exists fs ps, x = fs ++ ps /\ Forall (fun f => ExtraField.is_padding f = false) fs /\
      (ps = [] \/ exists n, ps = [Padding n]).
Proof.
  revert res bs. induction fuel as [|fuel IH]; intros res [|b bs] Hb Hf; cbn in Hf; try lia;
    try (exists [], []; rewrite app_nil_r; split_and!; [reflexivity|constructor|exists []; reflexivity|
      exists [], []; split_and!; [reflexivity|constructor|left; reflexivity]]).
  cbn [Extra.read_loop]. destruct (ExtraField.read (b :: bs)) as [[f|e|] bs'] eqn:Hr.
  - destruct (extra_field_safe (b :: bs) Hb) as [_ [p1 Hp1]]. rewrite Hr in Hp1. cbn [snd] in Hp1.
    apply read_field_inv in Hr as (Hok & Hpad & Hl & Hb'); [|exact Hb]. cbn in Hl.
    destruct (IH (res ++ [f]) bs' Hb' ltac:(lia)) as (x & rest & Hx & Hxok & [p2 Hp2] & fs & ps & -> & Hfs & Hps).
    exists (f :: fs ++ ps), rest. split; [rewrite Hx, <- app_assoc; reflexivity|]. split; [constructor; assumption|].
    split; [exists (p1 ++ p2); rewrite Hp1, Hp2, app_assoc; reflexivity|].
    destruct (ExtraField.is_padding f) eqn:Hpf; [|exists (f :: fs), ps; auto].
    specialize (Hpad eq_refl). subst bs'. destruct fuel; cbn in Hx; injection Hx as Hx _;
      (rewrite <- (app_nil_r (res ++ [f])) in Hx at 1; apply app_inv_head in Hx; rewrite <- Hx);
      (exists [], [f]; split_and!; [reflexivity|constructor|right]); destruct f; try discriminate; eauto.
  - exists [], bs'. rewrite app_nil_r. destruct (extra_field_safe (b :: bs) Hb) as [_ [pre Hpre]]. rewrite Hr in Hpre.
    split_and!; [reflexivity|constructor|eauto|].
    exists [], []. split_and!; [reflexivity|constructor|left; reflexivity].
  - destruct (extra_field_safe (b :: bs) Hb) as [Hn _]. rewrite Hr in Hn. contradiction.
Qed.
End Loop.

(** ** The order of the fields *)

Definition sorted (x : Extra) : Extra := concat (map (fun selection => List.filter selection x) Extra.SORT_ORDER).

Section Order.
Lemma write_raw_vec_app {A} (w : A -> bytes) l l' : write_raw_vec w (l ++ l') = write_raw_vec w l ++ write_raw_vec w l'.
Proof. induction l as [|a l IH]; cbn; [reflexivity|]. rewrite IH, app_assoc. reflexivity. Qed.

Lemma write_sorted x : Extra.write x = write_raw_vec ExtraField.write (sorted x).
Proof.
  unfold Extra.write, sorted. induction Extra.SORT_ORDER as [|s l IH]; [reflexivity|]. cbn [write_raw_vec map concat].
  rewrite write_raw_vec_app, <- IH. reflexivity.
Qed.

Lemma sorted_permutation x : sorted x ≡ₚ x.
Proof.
  induction x as [|f x IH]; [reflexivity|]. etransitivity; [|apply perm_skip, IH].
  unfold sorted, Extra.SORT_ORDER. cbn [map concat List.filter]. destruct f; cbn;
    rewrite <- ?Permutation_middle; reflexivity.
Qed.

Lemma filter_filter {A} (p q : A -> bool) l : List.filter p (List.filter q l) = List.filter (fun a => q a && p a) l.
Proof.
  induction l as [|a l IH]; [reflexivity|]. cbn. destruct (q a); cbn; [destruct (p a)|]; rewrite IH; reflexivity.
Qed.

Lemma filter_ext_bool {A} (p q : A -> bool) l : (forall a, p a = q a) -> List.filter p l = List.filter q l.
Proof. intros H. induction l as [|a l IH]; cbn; [reflexivity|]. rewrite H, IH. reflexivity. Qed.

Lemma filter_none {A} (l : list A) : List.filter (fun _ => false) l = [].
Proof. induction l; auto. Qed.

Lemma filter_app_bool {A} (p : A -> bool) l l' : List.filter p (l ++ l') = List.filter p l ++ List.filter p l'.
Proof. induction l as [|a l IH]; [reflexivity|]. cbn. destruct (p a); cbn; rewrite IH; reflexivity. Qed.

(** Each selection finds in the sorted fields what it finds in the others. *)
Lemma filter_sorted x s : s ∈ Extra.SORT_ORDER -> List.filter s (sorted x) = List.filter s x.
Proof.
  intros Hs. unfold sorted, Extra.SORT_ORDER in *. cbn [map concat]. rewrite !filter_app_bool, !filter_filter. cbn [List.filter].
  repeat (apply elem_of_cons in Hs as [->|Hs]); [..|inversion Hs];
    repeat match goal with
    | |- context [List.filter (fun a => ?p a && ?q a) x] =>
        first [ rewrite (filter_ext_bool (fun a => p a && q a) (fun _ => false) x) by (intros []; reflexivity)
              | rewrite (filter_ext_bool (fun a => p a && q a) p x) by (intros []; reflexivity) ]
    end;
    rewrite ?filter_none, ?app_nil_r; reflexivity.
Qed.

Lemma sorted_idem x : sorted (sorted x) = sorted x.
Proof.
  unfold sorted at 1 3. f_equal. apply map_ext_in. intros s Hs. apply filter_sorted, list_elem_of_In, Hs.
Qed.
End Order.

Section Theorems.
Lemma forall_sorted (P : ExtraField -> Prop) x : Forall P x -> Forall P (sorted x).
Proof. intros H. rewrite sorted_permutation. exact H. Qed.

(** Sorted fields are those which don't pad, then those which do. *)
Lemma sorted_split x : exists fs, sorted x = fs ++ List.filter ExtraField.is_padding x /\
  Forall (fun f => ExtraField.is_padding f = false) fs.
Proof.
  unfold sorted, Extra.SORT_ORDER. cbn [map concat]. rewrite app_nil_r, !app_assoc. eexists. split; [reflexivity|].
  rewrite !Forall_app. split_and!; apply Forall_forall; intros f [_ Hf]%list_elem_of_In%filter_In;
    destruct f; try discriminate; reflexivity.
Qed.

Lemma read_sorted x : Forall field_ok x -> (length (List.filter ExtraField.is_padding x) <= 1)%nat ->
  Extra.read (Extra.serialize x) = (Ok (sorted x), []).
Proof.
  intros Hok Hp. unfold Extra.serialize. rewrite write_sorted. apply forall_sorted in Hok.
  destruct (sorted_split x) as (fs & Hs & Hfs). rewrite Hs in *. apply Forall_app in Hok as [Hok1 Hok2].
  unfold Extra.read. rewrite write_raw_vec_app.
  assert (Hb : is_bytes (write_raw_vec ExtraField.write (List.filter ExtraField.is_padding x))) by (apply fields_bytes, Hok2).
  rewrite (read_loop_fields fs _ [] _ Hok1 Hfs Hb (Nat.le_refl _)). cbn [app].
  destruct (List.filter ExtraField.is_padding x) as [|f [|]] eqn:Hf; [rewrite app_nil_r; reflexivity| |cbn in Hp; lia].
  assert (Hin : In f (List.filter ExtraField.is_padding x)) by (rewrite Hf; left; reflexivity).
  apply filter_In in Hin as [_ Hpf]. destruct f as [n| | | | |]; try discriminate.
  apply Forall_cons_iff in Hok2 as [Hn _]. cbn [write_raw_vec] in *. rewrite app_nil_r in *.
  pose proof (read_padding_write n Hn) as Hr. destruct (write_field_cons (Padding n)) as (b & bs & Hw). rewrite Hw in *.
  cbn [length Extra.read_loop]. rewrite Hr. destruct (length bs); reflexivity.
Qed.

(** An extra which can be read, with padding at most once, is read back from
    its serialization with its fields in the order wallets expect, which
    loses none, and the order is settled: sorted fields stay as they are and
    serialize to the same bytes. *)
Theorem extra_roundtrip x : Forall field_ok x -> (length (List.filter ExtraField.is_padding x) <= 1)%nat ->
  Extra.read (Extra.serialize x) = (Ok (sorted x), []) /\ sorted x ≡ₚ x /\
  sorted (sorted x) = sorted x /\ Extra.serialize (sorted x) = Extra.serialize x.
Proof.
  intros Hok Hp. split; [exact (read_sorted x Hok Hp)|]. split; [apply sorted_permutation|].
  split; [apply sorted_idem|]. unfold Extra.serialize. rewrite !write_sorted, sorted_idem. reflexivity.
Qed.

Lemma extra_roundtrip_witness :
  Extra.read (Extra.serialize [Padding 3; MergeMining 7 (repeat 5 32); Nonce [1; 2]; PublicKey (repeat 9 32)]) =
  (Ok [PublicKey (repeat 9 32); Nonce [1; 2]; MergeMining 7 (repeat 5 32); Padding 3], []).
Proof.
  destruct (extra_roundtrip [Padding 3; MergeMining 7 (repeat 5 32); Nonce [1; 2]; PublicKey (repeat 9 32)]) as (H & _).
  - repeat constructor; cbn; try lia; decide_now.
  - cbn. lia.
  - exact H.
Defined.

(** Reading an extra never fails, whatever the bytes of the transaction: it
    stops at the first field it doesn't understand, having consumed a prefix,
    and the rounds it is given are enough.  What it returns can be written
    and is read back in full, in its sorted order. *)
Theorem extra_read_total bs : is_bytes bs ->
  exists x, fst (Extra.read bs) = Ok x /\ Forall field_ok x /\ (exists pre, bs = pre ++ snd (Extra.read bs)) /\
    Extra.read (Extra.serialize x) = (Ok (sorted x), []).
Proof.
  intros Hb. unfold Extra.read at 1 2.
  destruct (read_loop_total (length bs) [] bs Hb (Nat.le_refl _)) as (x & rest & Hx & Hok & Hpre & fs & ps & -> & Hfs & Hps).
  rewrite Hx. exists (fs ++ ps). cbn [app fst snd]. split; [reflexivity|]. split; [exact Hok|]. split; [exact Hpre|].
  apply read_sorted; [exact Hok|]. rewrite filter_app_bool.
  assert (List.filter ExtraField.is_padding fs = []) as ->.
  { clear -Hfs. induction Hfs as [|f fs Hf _ IH]; [reflexivity|]. cbn. rewrite Hf. exact IH. }
  destruct Hps as [->|[n ->]]; cbn; lia.
Qed.

Lemma extra_read_total_witness : exists x,
  fst (Extra.read [2; 2; 7; 8; 1; 0]) = Ok x /\ Extra.read (Extra.serialize x) = (Ok (sorted x), []).
Proof.
  destruct (extra_read_total [2; 2; 7; 8; 1; 0] ltac:(decide_now)) as (x & H1 & _ & _ & H2). exists x. auto.
Defined.

Context {D : Dalek}.

(** The extra of a transaction sent: its keys, maybe a payment ID, and data *)
Definition sent (key : CompressedPoint) (additional : list CompressedPoint) (id : option PaymentId) (data : list bytes) : Extra :=
  fold_left (fun x d => Extra.push_nonce x (ARBITRARY_DATA_MARKER :: d)) data
    (match id with
     | Some id => Extra.push_nonce (Extra.new key additional) (PaymentId.serialize id)
     | None => Extra.new key additional
     end).

Definition data_nonce (d : bytes) : ExtraField := Nonce (ARBITRARY_DATA_MARKER :: d).

Lemma push_data_eq x data : fold_left (fun x d => Extra.push_nonce x (ARBITRARY_DATA_MARKER :: d)) data x = x ++ map data_nonce data.
Proof.
  revert x. induction data as [|d data IH]; intros x; [symmetry; apply app_nil_r|].
  cbn [fold_left map]. rewrite IH. unfold Extra.push_nonce. rewrite <- app_assoc. reflexivity.
Qed.

Lemma sent_eq key additional id data :
  sent key additional id data =
    Extra.new key additional ++ match id with Some id => [Nonce (PaymentId.serialize id)] | None => [] end ++ map data_nonce data.
Proof. unfold sent. rewrite push_data_eq. destruct id; unfold Extra.push_nonce; rewrite <- ?app_assoc; reflexivity. Qed.

Lemma filter_map_const {A} (p : ExtraField -> bool) (f : A -> ExtraField) b l : (forall a, p (f a) = b) ->
  List.filter p (map f l) = if b then map f l else [].
Proof. intros H. induction l as [|a l IH]; cbn; [destruct b; reflexivity|]. rewrite H, IH. destruct b; reflexivity. Qed.

Lemma sorted_sent key additional id data : sorted (sent key additional id data) = sent key additional id data.
Proof.
  rewrite sent_eq. unfold sorted, Extra.SORT_ORDER. cbn [map concat]. rewrite !filter_app_bool.
  rewrite (filter_map_const ExtraField.is_nonce data_nonce true) by reflexivity.
  repeat match goal with
  | |- context [List.filter ?p (map ?f ?l)] => rewrite (filter_map_const p f false) by reflexivity
  end.
  unfold Extra.new. destruct additional, id; cbn; rewrite ?app_nil_r; reflexivity.
Qed.

Lemma keys_loop_nonces l keys additional : Forall (fun f => ExtraField.is_nonce f = true) l ->
  Extra.keys_loop l keys additional = (keys, additional).
Proof. induction 1 as [|f l Hf _ IH]; [reflexivity|]. destruct f; try discriminate. exact IH. Qed.

Definition opt_id_ok (id : option PaymentId) : Prop := match id with Some id => payment_id_ok id | None => True end.

Lemma sent_ok key additional id data : is_array 32 key -> vec_ok (is_array 32) None additional -> opt_id_ok id ->
  Forall (fun d => is_bytes d /\ len d <= MAX_ARBITRARY_DATA_SIZE) data ->
  Forall field_ok (sent key additional id data).
Proof.
  intros Hk Ha Hi Hd. rewrite sent_eq. apply Forall_app. split; [|apply Forall_app; split].
  - unfold Extra.new. destruct additional; (constructor; [exact Hk|]); [constructor|constructor; [exact Ha|constructor]].
  - destruct id as [id|]; [|constructor]. constructor; [|constructor]. cbn in Hi |- *. unfold vec_ok, PaymentId.serialize.
    split; [exact (codec_bytes (r := PaymentId.read) _ Hi)|].
    assert (len (PaymentId.write id) <= 33 /\ 0 <= len (PaymentId.write id)) as [Hl Hl0].
    { destruct id; destruct Hi as [_ Hi]; unfold PaymentId.write, len; cbn [app length]; rewrite Hi; lia. }
    unfold U, USIZE_BITS, MAX_TX_EXTRA_NONCE_SIZE. lia.
  - apply Forall_map. refine (Forall_impl _ _ _ Hd _). intros d [Hb Hl]. cbn. unfold vec_ok.
    unfold MAX_ARBITRARY_DATA_SIZE, MAX_TX_EXTRA_NONCE_SIZE, ARBITRARY_DATA_MARKER, U, USIZE_BITS, len in *.
    cbn [length]. split_and!; try lia. constructor; [lia|exact Hb].
Qed.

(** Data isn't taken for a payment ID. *)
Lemma payment_id_data {E} data : Extra.payment_id (E := E) (map data_nonce data) = Ok None.
Proof. destruct data as [|d data]; [reflexivity|]. cbn. destruct (bool_decide _); reflexivity. Qed.

Lemma data_of_nonces data : Extra.arbitrary_data_loop (map data_nonce data) = data.
Proof. induction data as [|d data IH]; [reflexivity|]. cbn. rewrite IH. reflexivity. Qed.

Lemma sent_read key additional id data : is_array 32 key -> vec_ok (is_array 32) None additional ->
  opt_id_ok id -> Forall (fun d => is_bytes d /\ len d <= MAX_ARBITRARY_DATA_SIZE) data ->
  Extra.read (Extra.serialize (sent key additional id data)) = (Ok (sent key additional id data), []).
Proof.
  intros Hk Ha Hi Hd. pose proof (sent_ok key additional id data Hk Ha Hi Hd) as Hok.
  rewrite <- (sorted_sent key additional id data) at 2. apply read_sorted; [exact Hok|].
  rewrite sent_eq, !filter_app_bool. rewrite (filter_map_const ExtraField.is_padding _ false) by reflexivity.
  unfold Extra.new. destruct additional, id; cbn; lia.
Qed.

Lemma sent_keys key additional id data : Extra.keys (sent key additional id data) =
  Some ([Extra.key_or_identity key], match additional with [] => None | _ => Some (map Extra.key_or_identity additional) end).
Proof.
  rewrite sent_eq. unfold Extra.keys, Extra.new.
  assert (Hn : Forall (fun f => ExtraField.is_nonce f = true)
    (match id with Some id => [Nonce (PaymentId.serialize id)] | None => [] end ++ map data_nonce data)).
  { apply Forall_app. split; [destruct id; repeat constructor|]. apply Forall_map, Forall_forall. reflexivity. }
  destruct additional; cbn [app Extra.keys_loop]; rewrite (keys_loop_nonces _ _ _ Hn); reflexivity.
Qed.

Lemma sent_payment_id {E} key additional id data : opt_id_ok id -> Extra.payment_id (E := E) (sent key additional id data) = Ok id.
Proof.
  intros Hi. rewrite sent_eq. destruct id as [id|]; [|unfold Extra.new; destruct additional; apply payment_id_data].
  assert (Hrd : PaymentId.read (PaymentId.serialize id) = (Ok id, [])).
  { rewrite <- (app_nil_r (PaymentId.serialize id)). apply codec_rt, Hi. }
  unfold Extra.new. destruct additional; cbn [app Extra.payment_id]; rewrite Hrd; reflexivity.
Qed.

(** C27: what a sender puts in an extra is what its recipient finds there.  The
    extra with the transaction's keys, maybe a payment ID, and pieces of
    arbitrary data reads back as it was built, without a change of order, its
    keys are the points encoded, the identity for those which aren't points, its
    payment ID is the one given, if any, and its arbitrary data the pieces
    given, as long as the relay rule's limit on the length holds. *)
Theorem extra_carries key additional id data : is_array 32 key -> vec_ok (is_array 32) None additional ->
  opt_id_ok id -> Forall (fun d => is_bytes d /\ len d <= MAX_ARBITRARY_DATA_SIZE) data ->
  len (Extra.serialize (sent key additional id data)) <= MAX_EXTRA_SIZE_BY_RELAY_RULE ->
  Extra.read (Extra.serialize (sent key additional id data)) = (Ok (sent key additional id data), []) /\
  Extra.keys (sent key additional id data) =
    Some ([Extra.key_or_identity key],
          match additional with [] => None | _ => Some (map Extra.key_or_identity additional) end) /\
  Extra.payment_id (E := io_error) (sent key additional id data) = Ok id /\
  Extra.arbitrary_data (E := io_error) (sent key additional id data) = Ok data.
Proof.
  intros Hk Ha Hi Hd Hl. pose proof (sent_read key additional id data Hk Ha Hi Hd) as Hr.
  split; [exact Hr|]. split; [apply sent_keys|]. split; [apply sent_payment_id, Hi|].
  unfold Extra.arbitrary_data. rewrite Z.min_l by exact Hl. rewrite take_ge by (unfold len; lia). rewrite Hr. cbn [fst].
  rewrite sent_eq. f_equal. pose proof (data_of_nonces data) as Hm.
  unfold Extra.new. destruct additional, id as [[i|i]|]; exact Hm.
Qed.
End Theorems.

Section Witness.
Import Model.

Lemma extra_carries_witness :
  Extra.payment_id (E := io_error) (sent (1 :: repeat 0 31) [] (Some (Encrypted (repeat 3 8))) [[1; 2; 3]; [4]]) =
    Ok (Some (Encrypted (repeat 3 8))) /\
  Extra.arbitrary_data (E := io_error) (sent (1 :: repeat 0 31) [] (Some (Encrypted (repeat 3 8))) [[1; 2; 3]; [4]]) =
    Ok [[1; 2; 3]; [4]].
Proof.
  destruct (extra_carries (1 :: repeat 0 31) [] (Some (Encrypted (repeat 3 8))) [[1; 2; 3]; [4]]) as (_ & _ & H1 & H2).
  - decide_now.
  - repeat constructor; unfold U, USIZE_BITS, len; cbn; lia.
  - cbn. decide_now.
  - repeat constructor; unfold U, MAX_ARBITRARY_DATA_SIZE, MAX_TX_EXTRA_NONCE_SIZE, len; cbn; lia.
  - vm_compute. discriminate.
  - split; assumption.
Defined.
End Witness.
