(* ===== verification/WalletOutput.v ===== *)
(** Scanned outputs ([wallet/src/output.rs]): what a wallet keeps of an output
    it may spend, and its encoding. *)

From Stdlib Require Import ZArith Lia.
From stdpp Require Import base list strings numbers.
From S2P Require Import Prelude Dalek MoneroIo Ed25519 Transaction Address Extra.

(** [struct AbsoluteId] *)
Module AbsoluteId.
Record t := mk { transaction : bytes; index_in_transaction : Z }.

(** [ct_eq] *)
Definition eqb (self other : t) : bool :=
  bytes_eqb (transaction self) (transaction other) && (index_in_transaction self =? index_in_transaction other).

Definition write (self : t) : bytes := transaction self ++ to_le 8 (index_in_transaction self).

Definition read : io_reader t :=
  let* transaction := read_bytes 32 in
  let* index_in_transaction := read_u64 in
  rret (mk transaction index_in_transaction).
End AbsoluteId.

(** [struct RelativeId] *)
Module RelativeId.
Record t := mk { index_on_blockchain : Z }.

Definition eqb (self other : t) : bool := index_on_blockchain self =? index_on_blockchain other.

Definition write (self : t) : bytes := to_le 8 (index_on_blockchain self).

Definition read : io_reader t := rmap mk read_u64.
End RelativeId.

(** [struct OutputData] *)
Module OutputData.
Section Ops.
Context {D : Dalek}.

Record t := mk { key : Point; key_offset : Scalar; commitment : Commitment.t }.

Definition eqb (self other : t) : bool :=
  Point.eqb (key self) (key other) && Scalar.eqb (key_offset self) (key_offset other) &&
  Commitment.eqb (commitment self) (commitment other).

Definition write (self : t) : bytes :=
  CompressedPoint.to_bytes (Point.compress (key self)) ++ Scalar.write (key_offset self) ++
  Commitment.write (commitment self).

Definition read : io_reader t :=
  let* key := read_point "output data included an invalid key" in
  let* key_offset := Scalar.read in
  let* commitment := Commitment.read in
  rret (mk key key_offset commitment).
End Ops.
End OutputData.

(** [struct Metadata] *)
Module Metadata.
Record t := mk {
  additional_timelock : Timelock.t;
  subaddress : option SubaddressIndex.t;
  payment_id : option PaymentId;
  arbitrary_data : list bytes
}.

#[export] Instance subaddress_eq_dec : EqDecision SubaddressIndex.t.
Proof. solve_decision. Defined.
#[export] Instance payment_id_eq_dec : EqDecision PaymentId.
Proof. solve_decision. Defined.

Definition eqb (self other : t) : bool :=
  bool_decide (additional_timelock self = additional_timelock other) &&
  bool_decide (subaddress self = subaddress other) &&
  bool_decide (payment_id self = payment_id other) &&
  bool_decide (arbitrary_data self = arbitrary_data other).

(** [write]'s loop, with the [expect] on the length of a part *)
Fixpoint write_parts {E} (parts : list bytes) : outcome E bytes :=
  match parts with
  | [] => Ok []
  | part :: parts =>
      let? length := expect (if len part <? 2 ^ 8 then Some (len part) else None) in
      let? rest := write_parts parts in
      Ok ([length] ++ part ++ rest)
  end.

Definition write_subaddress (subaddress : option SubaddressIndex.t) : bytes :=
  match subaddress with
  | Some subaddress =>
      [1] ++ to_le 4 (SubaddressIndex.account subaddress) ++ to_le 4 (SubaddressIndex.address subaddress)
  | None => [0]
  end.

Definition write_payment_id (payment_id : option PaymentId) : bytes :=
  match payment_id with
  | Some payment_id => [1] ++ PaymentId.write payment_id
  | None => [0]
  end.

Definition write {E} (self : t) : outcome E bytes :=
  let? parts := write_parts (arbitrary_data self) in
  Ok (Timelock.write (additional_timelock self) ++ write_subaddress (subaddress self) ++
      write_payment_id (payment_id self) ++ VarInt.write (len (arbitrary_data self)) ++ parts).

Definition read_subaddress : io_reader (option SubaddressIndex.t) :=
  let* is_some := read_byte in
  match is_some with
  | 0 => rret None
  | 1 =>
      let* account := read_u32 in
      let* address := read_u32 in
      let* index := ok_or_other (SubaddressIndex.new account address) "invalid subaddress in metadata" in
      rret (Some index)
  | _ => rother "invalid subaddress is_some boolean in metadata"
  end.

Definition read_payment_id : io_reader (option PaymentId) :=
  let* is_some := read_byte in
  if is_some =? 1 then rok PaymentId.read else rret None.

(** The loop over the chunks of arbitrary data *)
Fixpoint read_chunks (chunks : nat) (total_len : Z) (data : list bytes) : io_reader (list bytes) :=
  match chunks with
  | O => rret data
  | S chunks =>
      let* length := read_byte in
      let* chunk := read_raw_vec read_byte (Z.to_nat length) in
      let total_len := Z.min (total_len + len chunk) USIZE_MAX in
      if MAX_EXTRA_SIZE_BY_RELAY_RULE <? total_len
      then rother "amount of arbitrary data exceeded amount allowed by policy"
      else read_chunks chunks total_len (data ++ [chunk])
  end.

Definition read_arbitrary_data : io_reader (list bytes) :=
  let* chunks := VarInt.read VarInt.usize in
  if MAX_EXTRA_SIZE_BY_RELAY_RULE <? chunks
  then rother "amount of arbitrary data chunks exceeded amount possible under policy"
  else read_chunks (Z.to_nat chunks) 0 [].

Definition read : io_reader t :=
  let* additional_timelock := Timelock.read in
  let* subaddress := read_subaddress in
  let* payment_id := read_payment_id in
  let* arbitrary_data := read_arbitrary_data in
  rret (mk additional_timelock subaddress payment_id arbitrary_data).
End Metadata.

(** [struct WalletOutput] *)
Module WalletOutput.
Section Ops.
Context {D : Dalek}.

Record t := mk {
  absolute_id : AbsoluteId.t;
  relative_id : RelativeId.t;
  data : OutputData.t;
  metadata : Metadata.t
}.

(** [PartialEq::eq] *)
Definition eqb (self other : t) : bool :=
  (AbsoluteId.eqb (absolute_id self) (absolute_id other) && RelativeId.eqb (relative_id self) (relative_id other) &&
   OutputData.eqb (data self) (data other)) && Metadata.eqb (metadata self) (metadata other).

Definition write {E} (self : t) : outcome E bytes :=
  let? metadata := Metadata.write (metadata self) in
  Ok (AbsoluteId.write (absolute_id self) ++ RelativeId.write (relative_id self) ++ OutputData.write (data self) ++ metadata).

Definition read : io_reader t :=
  let* absolute_id := AbsoluteId.read in
  let* relative_id := RelativeId.read in
  let* data := OutputData.read in
  let* metadata := Metadata.read in
  rret (mk absolute_id relative_id data metadata).

(** [serialize], whose [expect] is on a write to a [Vec] *)
Definition serialize {E} (self : t) : outcome E bytes := write self.
End Ops.
End WalletOutput.

#[global] Typeclasses Opaque AbsoluteId.write RelativeId.write OutputData.write.

(** ** Encodings *)

Section Codecs.
Context {D : Dalek} {DL : DalekLaws D}.

Definition absolute_id_ok (x : AbsoluteId.t) : Prop :=
  is_array 32 (AbsoluteId.transaction x) /\ U 64 (AbsoluteId.index_in_transaction x).

#[export] Instance absolute_id_codec : Codec AbsoluteId.read AbsoluteId.write absolute_id_ok.
Proof.
  split.
  - intros x [H1 H2]. apply is_bytes_app_2; [apply H1|apply to_le_bytes].
  - intros [t i] rest [H1 H2]. cbn in H1, H2. unfold AbsoluteId.read, AbsoluteId.write. cbn.
    rewrite <- app_assoc. read_run. reflexivity.
  - intros bs x rest Hb H. unfold AbsoluteId.read in H. read_inv. split; [split; assumption|].
    unfold AbsoluteId.write. cbn. rewrite <- app_assoc. reflexivity.
  - unfold AbsoluteId.read. safe_tac.
Qed.

Definition relative_id_ok (x : RelativeId.t) : Prop := U 64 (RelativeId.index_on_blockchain x).

#[export] Instance relative_id_codec : Codec RelativeId.read RelativeId.write relative_id_ok.
Proof.
  apply (codec_iso read_u64 (to_le 8) (U 64) RelativeId.mk RelativeId.index_on_blockchain); [apply _|..].
  - intros [i] Hi. auto.
  - intros a Ha. auto.
Qed.

Definition output_data_ok (x : OutputData.t) : Prop :=
  scalar_ok (OutputData.key_offset x) /\ commitment_ok (OutputData.commitment x).

#[export] Instance output_data_codec : Codec OutputData.read OutputData.write output_data_ok.
Proof.
  split.
  - intros x [H1 H2]. unfold OutputData.write, CompressedPoint.to_bytes. apply is_bytes_app_2; [apply ed_compress_array|].
    apply is_bytes_app_2; [apply H1|exact (codec_bytes (r := Commitment.read) _ H2)].
  - intros [k o c] rest [H1 H2]. cbn in H1, H2. unfold OutputData.read, OutputData.write, CompressedPoint.to_bytes. cbn [OutputData.key OutputData.key_offset OutputData.commitment].
    rewrite <- !app_assoc. erewrite rbind_ok by (apply (codec_rt (r := read_point _)); exact I). read_run. reflexivity.
  - intros bs x rest Hb H. unfold OutputData.read in H. read_inv. split; [split; assumption|].
    unfold OutputData.write, CompressedPoint.to_bytes. cbn. rewrite <- !app_assoc. reflexivity.
  - unfold OutputData.read. safe_tac.
Qed.

Definition subaddress_ok (x : SubaddressIndex.t) : Prop :=
  U 32 (SubaddressIndex.account x) /\ U 32 (SubaddressIndex.address x) /\
  ~ (SubaddressIndex.account x = 0 /\ SubaddressIndex.address x = 0).

Lemma subaddress_new x : subaddress_ok x ->
  SubaddressIndex.new (SubaddressIndex.account x) (SubaddressIndex.address x) = Some x.
Proof.
  intros (_ & _ & Hn). unfold SubaddressIndex.new. destruct x as [a b]. cbn in *.
  destruct (Z.eqb_spec a 0), (Z.eqb_spec b 0); try reflexivity. tauto.
Qed.

Definition opt_ok {A} (P : A -> Prop) (x : option A) : Prop := match x with Some a => P a | None => True end.

#[export] Instance read_subaddress_codec :
  Codec Metadata.read_subaddress Metadata.write_subaddress (opt_ok subaddress_ok).
Proof.
  split.
  - intros [x|] H; cbn; [|apply is_bytes_cons; [unfold U; lia|apply is_bytes_nil]].
    apply is_bytes_cons; [unfold U; lia|]. apply is_bytes_app_2; apply to_le_bytes.
  - intros [x|] rest H; unfold Metadata.read_subaddress, Metadata.write_subaddress; [|reflexivity].
    rewrite <- !app_assoc. cbn [app]. rewrite read_tag. cbn beta iota. pose proof (subaddress_new x H) as Hn.
    destruct H as (H1 & H2 & _). read_run. rewrite Hn. reflexivity.
  - intros bs x rest Hb H. unfold Metadata.read_subaddress in H. read_inv1. read_inv1.
    destruct a as [|[|[]|]|]; try discriminate H.
    + read_inv. split; [exact I|reflexivity].
    + apply rbind_ok_inv in H as (account & bs1 & Ha & H). apply rbind_ok_inv in H as (address & bs2 & Hd & H).
      apply rbind_ok_inv in H as (i & bs3 & Hi & H). apply rret_ok_inv in H as [<- <-].
      apply codec_sound in Ha as [Ha ->]; [|assumption].
      apply codec_sound in Hd as [Hd ->]; [|eapply is_bytes_app_r; eassumption].
      unfold SubaddressIndex.new in Hi. destruct ((account =? 0) && (address =? 0)) eqn:E; [discriminate Hi|].
      apply rret_ok_inv in Hi as [<- <-].
      split; [|cbn; rewrite <- app_assoc; reflexivity]. cbn. split_and!; [assumption..|]. cbn.
      apply andb_false_iff in E. lia.
  - unfold Metadata.read_subaddress. safe_tac.
Qed.

#[export] Instance read_payment_id_safe : ReaderSafe Metadata.read_payment_id.
Proof. unfold Metadata.read_payment_id. safe_tac. Qed.

Lemma read_payment_id_write x rest : opt_ok payment_id_ok x ->
  Metadata.read_payment_id (Metadata.write_payment_id x ++ rest) = (Ok x, rest).
Proof.
  intros H. unfold Metadata.read_payment_id, Metadata.write_payment_id. destruct x as [x|]; [|reflexivity].
  rewrite <- app_assoc. cbn [app]. rewrite read_tag. unfold rok. cbn [Z.eqb Pos.eqb].
  rewrite (codec_rt (r := PaymentId.read) x rest H). reflexivity.
Qed.

Lemma read_payment_id_inv bs x rest : is_bytes bs -> Metadata.read_payment_id bs = (Ok x, rest) -> opt_ok payment_id_ok x.
Proof.
  intros Hb H. unfold Metadata.read_payment_id in H. read_inv1. read_inv1. destruct (a =? 1).
  - unfold rok in H. destruct (PaymentId.read bs0) as [[i|e|] bs1] eqn:Hi; [|injection H as <- _; exact I|discriminate].
    injection H as <- _. apply codec_sound in Hi as [Hi _]; [exact Hi|assumption].
  - apply rret_ok_inv in H as [<- _]. exact I.
Qed.

(** *** Arbitrary data *)

Fixpoint total (data : list bytes) : Z := match data with [] => 0 | d :: data => len d + total data end.

Definition chunk_ok (d : bytes) : Prop := is_bytes d /\ len d < 2 ^ 8.

Lemma total_nonneg data : 0 <= total data.
Proof. induction data as [|d data IH]; cbn [total]; unfold len; lia. Qed.

Lemma write_parts_ok {E} data : Forall chunk_ok data -> exists bs, Metadata.write_parts (E := E) data = Ok bs /\ is_bytes bs.
Proof.
  induction 1 as [|d data [Hb Hl] _ (bs & Hw & Hbs)]; cbn [Metadata.write_parts]; [exists []; split; [reflexivity|apply is_bytes_nil]|].
  destruct (Z.ltb_spec (len d) (2 ^ 8)); [|lia]. cbn [expect obind]. rewrite Hw. cbn [obind]. eexists. split; [reflexivity|].
  apply is_bytes_cons; [unfold U, len in *; lia|]. apply is_bytes_app_2; assumption.
Qed.

Lemma read_chunks_write {E} data acc n total_len bs rest : Forall chunk_ok data -> n = length data ->
  0 <= total_len -> total_len + total data <= MAX_EXTRA_SIZE_BY_RELAY_RULE ->
  Metadata.write_parts (E := E) data = Ok bs ->
  Metadata.read_chunks n total_len acc (bs ++ rest) = (Ok (acc ++ data), rest).
Proof.
  intros Hd. revert acc n total_len bs. induction Hd as [|d data [Hb Hl] _ IH]; intros acc n total_len bs -> Ht0 Ht Hw;
    cbn [Metadata.write_parts Metadata.read_chunks length total] in *.
  - injection Hw as <-. rewrite app_nil_r. reflexivity.
  - destruct (Z.ltb_spec (len d) (2 ^ 8)); [|lia]. cbn [expect obind] in Hw.
    destruct (Metadata.write_parts data) as [bs1|e|] eqn:Hw1; try discriminate. cbn [obind] in Hw. injection Hw as <-.
    cbn [app]. rewrite <- ?app_assoc. cbn [app]. rewrite read_tag.
    assert (Hr : read_raw_vec read_byte (Z.to_nat (len d)) (d ++ bs1 ++ rest) = (Ok d, bs1 ++ rest)).
    { rewrite <- (raw_bytes_id d) at 2. apply codec_rt. split; [unfold len; lia|exact Hb]. }
    erewrite rbind_ok by exact Hr. cbv zeta. pose proof (total_nonneg data). unfold MAX_EXTRA_SIZE_BY_RELAY_RULE in *.
    assert (0 <= len d) by (unfold len; lia).
    rewrite Z.min_l by (unfold USIZE_MAX, USIZE_BITS; lia). destruct (Z.ltb_spec 1060 (total_len + len d)); [lia|].
    rewrite (IH (acc ++ [d]) (length data) (total_len + len d) bs1 eq_refl) by (auto; lia). rewrite <- app_assoc. reflexivity.
Qed.

#[export] Instance read_chunks_safe n total_len acc : ReaderSafe (Metadata.read_chunks n total_len acc).
Proof. revert total_len acc. induction n as [|n IH]; intros total_len acc; cbn [Metadata.read_chunks]; safe_tac. Qed.

Lemma read_chunks_inv n total_len acc bs data rest : is_bytes bs -> 0 <= total_len <= MAX_EXTRA_SIZE_BY_RELAY_RULE ->
  Metadata.read_chunks n total_len acc bs = (Ok data, rest) ->
  exists data', data = acc ++ data' /\ length data' = n /\ Forall chunk_ok data' /\
    total_len + total data' <= MAX_EXTRA_SIZE_BY_RELAY_RULE.
Proof.
  revert total_len acc bs. induction n as [|n IH]; intros total_len acc bs Hb Ht; cbn [Metadata.read_chunks].
  - intros [<- _]%rret_ok_inv. exists []. rewrite app_nil_r. cbn. split_and!; auto; lia.
  - intros (l & bs1 & Hl & H)%rbind_ok_inv. apply codec_sound in Hl as [HU ->]; [|exact Hb]. apply is_bytes_app_r in Hb.
    apply rbind_ok_inv in H as (chunk & bs2 & Hc & H).
    apply (codec_sound (r := read_raw_vec read_byte _)) in Hc as [[Hlen Hch] ->]; [|exact Hb]. apply is_bytes_app_r in Hb. cbv zeta in H.
    assert (Hlc : len chunk = l) by (unfold len, U in *; lia). unfold U in HU.
    destruct (Z.ltb_spec MAX_EXTRA_SIZE_BY_RELAY_RULE (Z.min (total_len + len chunk) USIZE_MAX)) as [|Hle]; [discriminate|].
    assert (Hmin : Z.min (total_len + len chunk) USIZE_MAX = total_len + len chunk).
    { apply Z.min_l. unfold MAX_EXTRA_SIZE_BY_RELAY_RULE, USIZE_MAX, USIZE_BITS in *. lia. }
    rewrite Hmin in *. apply IH in H as (data' & -> & <- & Hd & Htot); [|exact Hb|unfold len in *; lia].
    exists (chunk :: data'). rewrite <- app_assoc. cbn [length total]. split_and!; auto; [|lia].
    constructor; [split; [exact Hch|lia]|exact Hd].
Qed.

Definition arbitrary_data_ok (data : list bytes) : Prop :=
  Forall chunk_ok data /\ len data <= MAX_EXTRA_SIZE_BY_RELAY_RULE /\ total data <= MAX_EXTRA_SIZE_BY_RELAY_RULE.

#[export] Instance read_arbitrary_data_safe : ReaderSafe Metadata.read_arbitrary_data.
Proof. unfold Metadata.read_arbitrary_data. safe_tac. Qed.

Lemma read_arbitrary_data_inv bs data rest : is_bytes bs -> Metadata.read_arbitrary_data bs = (Ok data, rest) ->
  arbitrary_data_ok data.
Proof.
  intros Hb (chunks & bs1 & Hc & H)%rbind_ok_inv. apply codec_sound in Hc as [HU ->]; [|exact Hb]. apply is_bytes_app_r in Hb.
  destruct (Z.ltb_spec MAX_EXTRA_SIZE_BY_RELAY_RULE chunks) as [|Hle]; [discriminate|].
  apply read_chunks_inv in H as (data' & -> & Hn & Hd & Ht); [|exact Hb|unfold MAX_EXTRA_SIZE_BY_RELAY_RULE; lia].
  split; [exact Hd|]. unfold len, U in *. cbn. lia.
Qed.

Definition metadata_ok (x : Metadata.t) : Prop :=
  timelock_ok (Metadata.additional_timelock x) /\ opt_ok subaddress_ok (Metadata.subaddress x) /\
  opt_ok payment_id_ok (Metadata.payment_id x) /\ arbitrary_data_ok (Metadata.arbitrary_data x).

#[export] Instance metadata_safe : ReaderSafe Metadata.read.
Proof. unfold Metadata.read. safe_tac. Qed.

Lemma metadata_write {E} x : metadata_ok x -> exists bs, Metadata.write (E := E) x = Ok bs /\ is_bytes bs /\
  forall rest, Metadata.read (bs ++ rest) = (Ok x, rest).
Proof.
  intros (Ht & Hs & Hp & Hd & Hn & Hl). unfold Metadata.write.
  destruct (write_parts_ok (E := E) _ Hd) as (parts & Hw & Hb). rewrite Hw. cbn [obind].
  assert (HU : U USIZE_BITS (len (Metadata.arbitrary_data x)))
    by (unfold U, USIZE_BITS, len, MAX_EXTRA_SIZE_BY_RELAY_RULE in *; lia).
  eexists. split; [reflexivity|]. split.
  - apply is_bytes_app_2; [exact (codec_bytes (r := Timelock.read) _ Ht)|].
    apply is_bytes_app_2; [exact (codec_bytes (r := Metadata.read_subaddress) _ Hs)|]. apply is_bytes_app_2.
    + destruct (Metadata.payment_id x) as [i|]; cbn; [|repeat constructor; unfold U; lia].
      apply is_bytes_cons; [unfold U; lia|exact (codec_bytes (r := PaymentId.read) _ Hp)].
    + apply is_bytes_app_2; [exact (codec_bytes (r := VarInt.read VarInt.usize) _ HU)|exact Hb].
  - intros rest. destruct x as [t s p d]. cbn in *. unfold Metadata.read. rewrite <- !app_assoc.
    erewrite rbind_ok by (apply (codec_rt (r := Timelock.read)), Ht).
    erewrite rbind_ok by (apply (codec_rt (r := Metadata.read_subaddress)), Hs).
    erewrite rbind_ok by (apply read_payment_id_write, Hp). unfold Metadata.read_arbitrary_data.
    assert (Hr : (let* chunks := VarInt.read VarInt.usize in
        if MAX_EXTRA_SIZE_BY_RELAY_RULE <? chunks
        then rother "amount of arbitrary data chunks exceeded amount possible under policy"
        else Metadata.read_chunks (Z.to_nat chunks) 0 []) (VarInt.write (len d) ++ parts ++ rest) = (Ok d, rest)).
    { erewrite rbind_ok by (apply (codec_rt (r := VarInt.read VarInt.usize)), HU). destruct (Z.ltb_spec MAX_EXTRA_SIZE_BY_RELAY_RULE (len d)); [lia|].
      apply (read_chunks_write (E := E) d []); auto; unfold len; lia. }
    erewrite rbind_ok by exact Hr. reflexivity.
Qed.

Lemma metadata_read_inv bs x rest : is_bytes bs -> Metadata.read bs = (Ok x, rest) -> metadata_ok x.
Proof.
  intros Hb (t & bs1 & Ht & H)%rbind_ok_inv. apply codec_sound in Ht as [Ht ->]; [|exact Hb]. apply is_bytes_app_r in Hb.
  apply rbind_ok_inv in H as (s & bs2 & Hs & H). apply codec_sound in Hs as [Hs ->]; [|exact Hb]. apply is_bytes_app_r in Hb.
  apply rbind_ok_inv in H as (p & bs3 & Hp & H). destruct (read_payment_id_safe bs2 Hb) as [_ [pre Hpre]]. rewrite Hp in Hpre.
  apply read_payment_id_inv in Hp; [|exact Hb]. rewrite Hpre in Hb. apply is_bytes_app_r in Hb.
  apply rbind_ok_inv in H as (d & bs4 & Hd & H). apply read_arbitrary_data_inv in Hd; [|exact Hb].
  apply rret_ok_inv in H as [<- _]. split_and!; assumption.
Qed.
End Codecs.

(** ** Theorems *)

Section Theorems.
Context {D : Dalek} {DL : DalekLaws D}.
Import WalletOutput.

Definition wallet_output_ok (x : WalletOutput.t) : Prop :=
  absolute_id_ok (absolute_id x) /\ relative_id_ok (relative_id x) /\ output_data_ok (data x) /\ metadata_ok (metadata x).

Lemma wallet_output_write {E} x : wallet_output_ok x -> exists bs, write (E := E) x = Ok bs /\ is_bytes bs /\
  forall rest, read (bs ++ rest) = (Ok x, rest).
Proof.
  intros (Ha & Hr & Hd & Hm). unfold write. destruct (metadata_write (E := E) _ Hm) as (m & -> & Hb & Hrt). cbn [obind].
  eexists. split; [reflexivity|]. split.
  - apply is_bytes_app_2; [exact (codec_bytes (r := AbsoluteId.read) _ Ha)|].
    apply is_bytes_app_2; [exact (codec_bytes (r := RelativeId.read) _ Hr)|].
    apply is_bytes_app_2; [exact (codec_bytes (r := OutputData.read) _ Hd)|exact Hb].
  - intros rest. destruct x as [a r d me]. cbn [absolute_id relative_id data metadata] in *. unfold read. rewrite <- !app_assoc.
    erewrite rbind_ok by (apply (codec_rt (r := AbsoluteId.read)), Ha).
    erewrite rbind_ok by (apply (codec_rt (r := RelativeId.read)), Hr).
    erewrite rbind_ok by (apply (codec_rt (r := OutputData.read)), Hd).
    erewrite rbind_ok by apply Hrt. reflexivity.
Qed.

Lemma eqb_spec x y : eqb x y = true <-> x = y.
Proof.
  destruct x as [[a1 a2] [r] [k o [m am]] [t s p d]], y as [[a1' a2'] [r'] [k' o' [m' am']] [t' s' p' d']].
  unfold eqb, AbsoluteId.eqb, RelativeId.eqb, OutputData.eqb, Metadata.eqb, Commitment.eqb, Scalar.eqb, Point.eqb. cbn.
  rewrite !andb_true_iff, !bytes_eqb_spec, !Z.eqb_eq, ed_eqb_spec, !bool_decide_eq_true. 
  split; [intros; destruct_and?; subst; reflexivity|intros [=]; subst; auto 20].
Qed.

(** A scanned output is read back exactly from its serialization, whatever
    follows it, the write of it never panics, and the equality of the code,
    field by field, is equality. *)
Theorem wallet_output_roundtrip x : wallet_output_ok x ->
  (exists bs, serialize (E := io_error) x = Ok bs /\ forall rest, read (bs ++ rest) = (Ok x, rest)) /\
  forall y, eqb x y = true <-> x = y.
Proof.
  intros Hx. split; [|intros y; apply eqb_spec]. destruct (wallet_output_write (E := io_error) x Hx) as (bs & Hw & _ & Hr).
  exists bs. auto.
Qed.

(** C28: reading a scanned output never panics and consumes a prefix.  What it
    returns respects the bounds on indexes, points, scalars and arbitrary data,
    so writing it again does not panic and reads back as it. *)
Theorem wallet_output_read_safe bs : is_bytes bs ->
  no_panic (fst (read bs)) /\ (exists pre, bs = pre ++ snd (read bs)) /\
  forall x, fst (read bs) = Ok x ->
    wallet_output_ok x /\
    exists bs', serialize (E := io_error) x = Ok bs' /\ forall rest, read (bs' ++ rest) = (Ok x, rest).
Proof.
  intros Hb. assert (Hs : ReaderSafe read) by (unfold read; safe_tac). destruct (Hs bs Hb) as [Hn Hpre].
  split; [exact Hn|]. split; [exact Hpre|]. intros x Hx. destruct (read bs) as [o rest] eqn:Hr. cbn in Hx. subst o.
  assert (Hok : wallet_output_ok x).
  { unfold read in Hr. apply rbind_ok_inv in Hr as (a & bs1 & Ha & H). apply codec_sound in Ha as [Ha ->]; [|exact Hb].
    apply is_bytes_app_r in Hb. apply rbind_ok_inv in H as (r & bs2 & Hr & H). apply codec_sound in Hr as [Hr ->]; [|exact Hb].
    apply is_bytes_app_r in Hb. apply rbind_ok_inv in H as (d & bs3 & Hd & H). apply codec_sound in Hd as [Hd ->]; [|exact Hb].
    apply is_bytes_app_r in Hb. apply rbind_ok_inv in H as (m & bs4 & Hm & H). apply metadata_read_inv in Hm; [|exact Hb].
    apply rret_ok_inv in H as [<- _]. split_and!; assumption. }
  split; [exact Hok|]. destruct (wallet_output_write (E := io_error) x Hok) as (bs' & Hw & _ & Hrt). exists bs'. auto.
Qed.
End Theorems.

Section Witness.
Import Model.

Definition example_output : WalletOutput.t :=
  WalletOutput.mk (AbsoluteId.mk (repeat 1 32) 0) (RelativeId.mk 12)
    (OutputData.mk ED25519_BASEPOINT_POINT (Scalar.from sc_ONE) Commitment.zero)
    (Metadata.mk (Timelock.Block 100) (Some (SubaddressIndex.mk 0 2)) (Some (Encrypted (repeat 7 8))) [[1; 2; 3]; []]).

Lemma example_output_ok : wallet_output_ok example_output.
Proof.
  split; [split; [decide_now|unfold U, example_output; cbn; lia]|]. split; [unfold relative_id_ok, U, example_output; cbn; lia|].
  split; [split; [apply (scalar_from_ok (DL := dalek_laws))|split; [apply (scalar_from_ok (DL := dalek_laws))|unfold U; cbn; lia]]|].
  split; [unfold timelock_ok, Timelock.TIMELOCK_BLOCK_THRESHOLD; cbn; lia|].
  split; [unfold subaddress_ok, U, example_output; cbn; lia|]. split; [decide_now|].
  split; [|cbn; unfold MAX_EXTRA_SIZE_BY_RELAY_RULE, len; cbn; lia].
  repeat constructor; unfold U, len; cbn; lia.
Qed.

Lemma wallet_output_roundtrip_witness : exists bs,
  WalletOutput.serialize (E := io_error) example_output = Ok bs /\
  WalletOutput.read (bs ++ [7]) = (Ok example_output, [7]).
Proof.
  destruct (wallet_output_roundtrip (DL := dalek_laws) example_output example_output_ok) as [(bs & H1 & H2) _].
  exists bs. split; [exact H1|exact (H2 [7])].
Defined.

(** The serialization of an output is read, and what's returned reads back. *)
Lemma wallet_output_read_safe_witness : exists bs x, is_bytes bs /\ no_panic (fst (WalletOutput.read bs)) /\
  fst (WalletOutput.read bs) = Ok x /\ RelativeId.index_on_blockchain (WalletOutput.relative_id x) = 12 /\ wallet_output_ok x /\
  exists bs', WalletOutput.serialize (E := io_error) x = Ok bs' /\ WalletOutput.read (bs' ++ [7]) = (Ok x, [7]).
Proof.
  destruct (wallet_output_write (DL := dalek_laws) (E := io_error) example_output example_output_ok) as (bs & _ & Hb & Hr).
  destruct (wallet_output_read_safe (DL := dalek_laws) bs Hb) as (Hn & _ & H).
  pose proof (Hr []) as Hx. rewrite app_nil_r in Hx. apply (f_equal fst) in Hx.
  destruct (H example_output Hx) as (Hok & bs' & Hw & Hrt). exists bs, example_output.
  split_and!; [exact Hb|exact Hn|exact Hx|reflexivity|exact Hok|]. exists bs'. split; [exact Hw|exact (Hrt [7])].
Defined.
End Witness.
