(* ===== verification/ViewPair.v ===== *)
(** View pairs and the derivations shared by a sender and its recipient
    ([wallet/src/view_pair.rs], [wallet/src/lib.rs]): addresses and
    subaddresses of a pair, and on the key agreed on for an output its shared
    key, view tag, encrypted amount and payment ID mask. *)

From Stdlib Require Import ZArith Lia.
From stdpp Require Import base list strings numbers.
From S2P Require Import Prelude Dalek MoneroIo Ed25519 RingCT Transaction Address Extra.

(** ** Derivations ([lib.rs]) *)

(** [struct SharedKeyDerivations] *)
Module SharedKeyDerivations.
Record t := mk { view_tag : Z; shared_key : Scalar }.

(** The bytes of ["uniqueness"], ["view_tag"], ["commitment_mask"] and ["amount"] *)
Definition UNIQUENESS : bytes := [117; 110; 105; 113; 117; 101; 110; 101; 115; 115].
Definition VIEW_TAG : bytes := [118; 105; 101; 119; 95; 116; 97; 103].
Definition COMMITMENT_MASK : bytes := [99; 111; 109; 109; 105; 116; 109; 101; 110; 116; 95; 109; 97; 115; 107].
Definition AMOUNT : bytes := [97; 109; 111; 117; 110; 116].

Section Ops.
Context {D : Dalek} {K : Keccak}.

(** What [uniqueness] adds for an input *)
Definition uniqueness_input (input : Input) : bytes :=
  match input with
  | Gen height => VarInt.write height
  | ToKey _ _ key_image => CompressedPoint.to_bytes key_image
  end.

Definition uniqueness (inputs : list Input) : bytes :=
  keccak256 (UNIQUENESS ++ write_raw_vec uniqueness_input inputs).

(** The bytes of [8Ra] *)
Definition derivation (ecdh : Point) : bytes :=
  CompressedPoint.to_bytes (Point.compress (ed_mul_by_cofactor ecdh)).

Definition output_derivations {E} (uniqueness : option bytes) (ecdh : Point) (o : Z) : outcome E t :=
  let output_derivation := derivation ecdh ++ VarInt.write o in
  let? view_tag := expect (head (keccak256 (VIEW_TAG ++ output_derivation))) in
  let output_derivation :=
    match uniqueness with Some uniqueness => uniqueness ++ output_derivation | None => output_derivation end in
  let? shared_key := Scalar.hash output_derivation in
  Ok (mk view_tag shared_key).

(** [&hash[.. 8]], which panics on a shorter hash *)
Definition first_8 {E} (hash : bytes) : outcome E bytes := if len hash <? 8 then Panic else Ok (take 8 hash).

Definition payment_id_xor {E} (ecdh : Point) : outcome E bytes :=
  first_8 (keccak256 (derivation ecdh ++ [141])).

Definition commitment_mask {E} (self : t) : outcome E Scalar :=
  Scalar.hash (COMMITMENT_MASK ++ shared_key self).

Definition compact_amount_encryption {E} (self : t) (amount : Z) : outcome E bytes :=
  let? amount_mask := first_8 (keccak256 (AMOUNT ++ shared_key self)) in
  Ok (to_le 8 (Z.lxor amount (from_le amount_mask))).

Definition decrypt {E} (self : t) (enc_amount : EncryptedAmount) : outcome E Commitment.t :=
  match enc_amount with
  | EncryptedOriginal mask amount =>
      let? mask_shared_sec_scalar := Scalar.hash (shared_key self) in
      let? amount_shared_sec_scalar := Scalar.hash mask_shared_sec_scalar in
      let? m := Scalar.into mask_shared_sec_scalar in
      let mask := sc_sub (sc_from_bytes_mod_order mask) m in
      let? a := Scalar.into amount_shared_sec_scalar in
      let amount_scalar := sc_sub (sc_from_bytes_mod_order amount) a in
      let? amount := first_8 (sc_to_bytes amount_scalar) in
      Ok (Commitment.new (Scalar.from mask) (from_le amount))
  | EncryptedCompact amount =>
      let? mask := commitment_mask self in
      let? amount := compact_amount_encryption self (from_le amount) in
      Ok (Commitment.new mask (from_le amount))
  end.
End Ops.
End SharedKeyDerivations.

(** ** View pairs ([view_pair.rs]) *)

Inductive ViewPairError : Type := TorsionedSpendKey.

(** [struct ViewPair] *)
Module ViewPair.
Section Ops.
Context {D : Dalek} {K : Keccak}.

Record t := mk { spend : Point; view_key : Scalar }.

Definition new (spend : Point) (view : Scalar) : outcome ViewPairError t :=
  if negb (ed_is_torsion_free spend) then Err TorsionedSpendKey else Ok (mk spend view).

Definition view {E} (self : t) : outcome E Point :=
  let? view := Scalar.into (view_key self) in Ok (ed_mul view ED25519_BASEPOINT_POINT).

(** The bytes of ["SubAddr\0"] *)
Definition SUB_ADDR : bytes := [83; 117; 98; 65; 100; 100; 114; 0].

Definition subaddress_derivation {E} (self : t) (index : SubaddressIndex.t) : outcome E Scalar :=
  Scalar.hash (SUB_ADDR ++ view_key self ++ to_le 4 (SubaddressIndex.account index) ++
               to_le 4 (SubaddressIndex.address index)).

Definition subaddress_keys {E} (self : t) (index : SubaddressIndex.t) : outcome E (Point * Point) :=
  let? scalar := subaddress_derivation self index in
  let? scalar := Scalar.into scalar in
  let spend := ed_add (spend self) (ed_mul scalar ED25519_BASEPOINT_POINT) in
  let? view := Scalar.into (view_key self) in
  Ok (spend, ed_mul view spend).

Definition legacy_address {E} (self : t) (network : Network) : outcome E Address.t :=
  let? view := view self in Ok (Address.new network Legacy (spend self) view).

Definition legacy_integrated_address {E} (self : t) (network : Network) (payment_id : bytes) : outcome E Address.t :=
  let? view := view self in Ok (Address.new network (LegacyIntegrated payment_id) (spend self) view).

Definition subaddress {E} (self : t) (network : Network) (subaddress : SubaddressIndex.t) : outcome E Address.t :=
  let? (spend, view) := subaddress_keys self subaddress in
  Ok (Address.new network Subaddress spend view).
End Ops.
End ViewPair.

(** [struct GuaranteedViewPair] *)
Module GuaranteedViewPair.
Section Ops.
Context {D : Dalek} {K : Keccak}.

Record t := mk { pair : ViewPair.t }.

Definition new (spend : Point) (view : Scalar) : outcome ViewPairError t :=
  let? pair := ViewPair.new spend view in Ok (mk pair).

Definition address {E} (self : t) (network : Network) (subaddress : option SubaddressIndex.t)
  (payment_id : option bytes) : outcome E Address.t :=
  let? (spend, view) :=
    match subaddress with
    | Some index => ViewPair.subaddress_keys (pair self) index
    | None => let? view := ViewPair.view (pair self) in Ok (ViewPair.spend (pair self), view)
    end in
  Ok (Address.new network
        (Featured (match subaddress with Some _ => true | None => false end) payment_id true) spend view).
End Ops.
End GuaranteedViewPair.

(** ** Facts *)

Section Facts.
Context {D : Dalek} {DL : DalekLaws D} {K : Keccak} {KL : KeccakLaws K}.
Import SharedKeyDerivations.

Lemma hash_inv {E} data h : Scalar.hash (E := E) data = Ok h ->
  scalar_ok h /\ h = Scalar.from (sc_from_bytes_mod_order (keccak_digest data)).
Proof.
  unfold Scalar.hash. destruct (sc_eqb _ _); [discriminate|]. intros [= <-]. split; [apply scalar_from_ok|reflexivity].
Qed.

Lemma hash_into_inv {E F} data h : Scalar.hash (E := E) data = Ok h -> exists s, Scalar.into (E := F) h = Ok s /\ Scalar.from s = h.
Proof. intros [Hok _]%hash_inv. exact (scalar_into_ok h Hok). Qed.

Lemma keccak_first_8 {E} data : exists bs, first_8 (E := E) (keccak256 data) = Ok bs /\ is_array 8 bs.
Proof.
  destruct (keccak_array data) as [Hb Hl]. unfold first_8, keccak256, len. rewrite Hl. eexists. split; [reflexivity|].
  split; [apply Forall_take, Hb|]. rewrite length_take, Hl. reflexivity.
Qed.

Lemma lxor_U w a b : 0 <= w -> U w a -> U w b -> U w (Z.lxor a b).
Proof.
  intros Hw [Ha1 Ha2] [Hb1 Hb2]. split; [apply Z.lxor_nonneg; lia|].
  destruct (Z.eq_dec (Z.lxor a b) 0) as [->|Hn]; [apply Z.pow_pos_nonneg; lia|].
  assert (Hw0 : 0 < w).
  { destruct (Z.eq_dec w 0) as [->|]; [|lia]. change (2 ^ 0) with 1 in *.
    replace a with 0 in Hn by lia. replace b with 0 in Hn by lia. contradiction. }
  apply Z.log2_lt_pow2; [pose proof (proj2 (Z.lxor_nonneg a b)); lia|].
  eapply Z.le_lt_trans; [apply Z.log2_lxor; lia|]. apply Z.max_lub_lt.
  - destruct (Z.eq_dec a 0) as [->|]; [cbn; lia|apply Z.log2_lt_pow2; lia].
  - destruct (Z.eq_dec b 0) as [->|]; [cbn; lia|apply Z.log2_lt_pow2; lia].
Qed.

Lemma compact_encryption_ok {E} d amount : U 64 amount ->
  exists bs, compact_amount_encryption (E := E) d amount = Ok bs /\ is_array 8 bs /\
    forall F, compact_amount_encryption (E := F) d (from_le bs) = Ok (to_le 8 amount).
Proof.
  intros Ha. unfold compact_amount_encryption.
  destruct (keccak_first_8 (E := E) (AMOUNT ++ shared_key d)) as (m & Hm & Hmb). rewrite Hm. cbn [obind].
  eexists. split; [reflexivity|]. split; [apply to_le_array|]. intros F.
  assert (HmF : first_8 (E := F) (keccak256 (AMOUNT ++ shared_key d)) = Ok m).
  { revert Hm. unfold first_8. destruct (_ <? 8); [discriminate|]. intros [= <-]. reflexivity. }
  rewrite HmF. cbn [obind]. do 2 f_equal.
  assert (HU : U 64 (from_le m)).
  { destruct Hmb as [Hb Hl]. pose proof (from_le_U m Hb) as H. unfold len in H. rewrite Hl in H. exact H. }
  rewrite from_to_le by (apply lxor_U; [lia|exact Ha|exact HU]).
  rewrite Z.lxor_assoc, Z.lxor_nilpotent, Z.lxor_0_r. reflexivity.
Qed.

(** The amount a sender encrypts is the one its recipient decrypts, with the
    mask both derive. *)
Lemma decrypt_encrypt {E} d amount mask bs : U 64 amount -> commitment_mask (E := E) d = Ok mask ->
  compact_amount_encryption (E := E) d amount = Ok bs ->
  decrypt (E := E) d (EncryptedCompact bs) = Ok (Commitment.new mask amount).
Proof.
  intros Ha Hm Hbs. destruct (compact_encryption_ok (E := E) d amount Ha) as (bs' & Hbs' & _ & Hd).
  assert (bs' = bs) as -> by congruence. cbn [decrypt]. rewrite Hm. cbn [obind]. rewrite Hd. cbn [obind].
  rewrite from_to_le by exact Ha. reflexivity.
Qed.

Lemma decrypt_ok {E} d enc c : decrypt (E := E) d enc = Ok c -> commitment_ok c.
Proof.
  destruct enc as [m a|a]; cbn [decrypt]; intros H.
  - destruct (Scalar.hash (shared_key d)) as [h1| |]; [|discriminate..]. cbn [obind] in H.
    destruct (Scalar.hash h1) as [h2| |]; [|discriminate..]. cbn [obind] in H.
    destruct (Scalar.into h1) as [s1| |]; [|discriminate..]. cbn [obind] in H.
    destruct (Scalar.into h2) as [s2| |]; [|discriminate..]. cbn [obind] in H. unfold first_8 in H.
    destruct (_ <? 8) eqn:Hl; [discriminate|]. cbn [obind] in H. injection H as <-. split; [apply scalar_from_ok|].
    cbn [Commitment.amount]. destruct (sc_bytes_array (sc_sub (sc_from_bytes_mod_order a) s2)) as [Hb Hn].
    pose proof (from_le_U (take 8 (sc_to_bytes (sc_sub (sc_from_bytes_mod_order a) s2))) (Forall_take _ _ _ Hb)) as HU.
    unfold len in HU. rewrite length_take, Hn in HU. exact HU.
  - destruct (commitment_mask d) as [m| |] eqn:Hm; [|discriminate..]. cbn [obind] in H.
    unfold compact_amount_encryption in H. destruct (first_8 _); [|discriminate..]. cbn [obind] in H. injection H as <-.
    split; [exact (proj1 (hash_inv _ _ Hm))|]. cbn [Commitment.amount].
    pose proof (from_le_U (to_le 8 (Z.lxor (from_le a) (from_le a0))) (to_le_bytes _ _)) as HU. unfold len in HU.
    rewrite to_le_length in HU. exact HU.
Qed.

Section Total.
Context {PR : Primitives}.

Lemma derivations_total u ecdh o : exists d s, (forall E, output_derivations (E := E) u ecdh o = Ok d) /\
  shared_key d = Scalar.from s /\ U 8 (view_tag d).
Proof.
  destruct (keccak_array (VIEW_TAG ++ derivation ecdh ++ VarInt.write o)) as [Hb Hl].
  destruct (keccak_digest (VIEW_TAG ++ derivation ecdh ++ VarInt.write o)) as [|t l] eqn:Ht; [discriminate|].
  destruct (hash_total (match u with Some u => u ++ derivation ecdh ++ VarInt.write o | None => derivation ecdh ++ VarInt.write o end))
    as [s Hs].
  exists (mk t (Scalar.from s)), s. split; [|split; [reflexivity|exact (Forall_inv Hb)]].
  intros E. unfold output_derivations, keccak256. rewrite Ht. cbn [head hd_error expect obind].
  rewrite Hs. reflexivity.
Qed.

Lemma mask_total d : exists m, forall E, commitment_mask (E := E) d = Ok (Scalar.from m).
Proof. apply hash_total. Qed.

Lemma view_total p : scalar_ok (ViewPair.view_key p) ->
  exists v, (forall E, Scalar.into (E := E) (ViewPair.view_key p) = Ok v) /\
            forall E, ViewPair.view (E := E) p = Ok (ed_mul v ED25519_BASEPOINT_POINT).
Proof.
  intros Hv. destruct (scalar_into_all _ Hv) as (v & H & _). exists v. split; [exact H|].
  intros E. unfold ViewPair.view. rewrite H. reflexivity.
Qed.

(** The keys of a subaddress: its view key is its spend key times the view key. *)
Lemma subaddress_keys_total p index : scalar_ok (ViewPair.view_key p) ->
  exists v m, (forall E, Scalar.into (E := E) (ViewPair.view_key p) = Ok v) /\
    let spend := ed_add (ViewPair.spend p) (ed_mul m ED25519_BASEPOINT_POINT) in
    forall E, ViewPair.subaddress_keys (E := E) p index = Ok (spend, ed_mul v spend).
Proof.
  intros Hv. destruct (view_total p Hv) as (v & H & _).
  destruct (hash_total (ViewPair.SUB_ADDR ++ ViewPair.view_key p ++ to_le 4 (SubaddressIndex.account index) ++
    to_le 4 (SubaddressIndex.address index))) as [m Hm].
  exists v, m. split; [exact H|]. intros spend E. unfold ViewPair.subaddress_keys, ViewPair.subaddress_derivation.
  rewrite Hm. cbn [obind]. rewrite scalar_into_from. cbn [obind]. rewrite H. reflexivity.
Qed.
End Total.

Lemma first_8_all data : exists bs, (forall E, first_8 (E := E) (keccak256 data) = Ok bs) /\ is_array 8 bs.
Proof.
  destruct (keccak_first_8 (E := unit) data) as (bs & Hb & Hl). exists bs. split; [|exact Hl]. intros E.
  revert Hb. unfold first_8. destruct (_ <? 8); [discriminate|]. intros [= <-]. reflexivity.
Qed.

Lemma compact_encryption_all d amount : U 64 amount ->
  exists bs, (forall E, compact_amount_encryption (E := E) d amount = Ok bs) /\ is_array 8 bs.
Proof.
  intros Ha. destruct (first_8_all (AMOUNT ++ shared_key d)) as (m & Hm & _).
  exists (to_le 8 (Z.lxor amount (from_le m))). split; [|apply to_le_array].
  intros E. unfold compact_amount_encryption. rewrite Hm. reflexivity.
Qed.
End Facts.
