(* ===== verification/Scan.v ===== *)
(** The scanner ([wallet/src/scan.rs]): the outputs of a block which were sent
    to a view pair. *)

From Stdlib Require Import ZArith Lia Sorted.
From stdpp Require Import base list strings numbers gmap.
From S2P Require Import Prelude Dalek MoneroIo Ed25519 RingCT Transaction Block Interface Address Extra WalletOutput ViewPair.

Inductive ScanError : Type :=
| UnsupportedProtocol (version : Z)
| InvalidScannableBlock (msg : string).

(** [struct Timelocked] *)
Module Timelocked.
Section Ops.
Context {D : Dalek}.
Definition t : Type := list WalletOutput.t.

Definition additional_timelock (output : WalletOutput.t) : Timelock.t :=
  Metadata.additional_timelock (WalletOutput.metadata output).

Definition not_additionally_locked (self : t) : list WalletOutput.t :=
  List.filter (fun output => match additional_timelock output with Timelock.None => true | _ => false end) self.

(** [PartialOrd]'s [<=] *)
Definition le (a b : Timelock.t) : bool :=
  match Timelock.partial_cmp a b with Some Lt | Some Eq => true | _ => false end.

Definition additional_timelock_satisfied_by (self : t) (block time : Z) : list WalletOutput.t :=
  List.filter (fun output => le (additional_timelock output) (Timelock.Block block) ||
                             le (additional_timelock output) (Timelock.Time time)) self.

Definition ignore_additional_timelock (self : t) : list WalletOutput.t := self.
End Ops.
End Timelocked.

(** [struct InternalScanner] *)
Module InternalScanner.
Section Ops.
Context {D : Dalek} {K : Keccak}.

Record t := mk {
  pair : ViewPair.t;
  guaranteed : bool;
  subaddresses : gmap CompressedPoint (option SubaddressIndex.t)
}.

Definition new (pair : ViewPair.t) (guaranteed : bool) : t :=
  mk pair guaranteed {[ Point.compress (ViewPair.spend pair) := None ]}.

Definition register_subaddress {E} (self : t) (subaddress : SubaddressIndex.t) : outcome E t :=
  let? (spend, _) := ViewPair.subaddress_keys (pair self) subaddress in
  Ok (mk (pair self) (guaranteed self) (<[Point.compress spend := Some subaddress]> (subaddresses self))).

(** The commitment of an output found, [None] for one to skip *)
Definition output_commitment (tx : Transaction Pruned) (o : nat) (output : Output.t) (d : SharedKeyDerivations.t)
  : outcome ScanError (option Commitment.t) :=
  match Output.amount output with
  | Some amount => Ok (Some (Commitment.new (Commitment.mask Commitment.zero) amount))
  | None =>
      match tx with
      | V2 _ (Some proofs) =>
          match RctBase.encrypted_amounts (pruned_base proofs) !! o with
          | Some amount =>
              let? commitment := SharedKeyDerivations.decrypt d amount in
              let? point := Commitment.commit commitment in
              if bool_decide (Some (Point.compress point) = RctBase.commitments (pruned_base proofs) !! o)
              then Ok (Some commitment) else Ok None
          | None => Err (InvalidScannableBlock "RCT proofs without an encrypted amount per output")
          end
      | _ => Err (InvalidScannableBlock "non-miner v2 transaction without RCT proofs")
      end
  end.

(** The offset of the key of an output sent to [subaddress] *)
Definition key_offset (self : t) (shared_key : DScalar) (subaddress : option SubaddressIndex.t)
  : outcome ScanError DScalar :=
  match subaddress with
  | None => Ok shared_key
  | Some subaddress =>
      let? derivation := ViewPair.subaddress_derivation (pair self) subaddress in
      let? derivation := Scalar.into derivation in
      Ok (sc_add shared_key derivation)
  end.

Section Transaction.
Context (self : t) (output_index_for_first_ringct_output : Z) (tx_hash : bytes) (tx : Transaction Pruned)
  (extra : Extra) (payment_id : option PaymentId).

(** The loop over the keys of an output: the first which makes it ours *)
Fixpoint scan_keys (o : nat) (output : Output.t) (output_key : Point) (keys : list Point)
  : outcome ScanError (option WalletOutput.t) :=
  match keys with
  | [] => Ok None
  | key :: keys =>
      let? view := Scalar.into (ViewPair.view_key (pair self)) in
      let ecdh := ed_mul view key in
      let? output_derivations :=
        SharedKeyDerivations.output_derivations
          (if guaranteed self
           then Some (SharedKeyDerivations.uniqueness (TransactionPrefix.inputs (Transaction.prefix tx))) else None)
          ecdh (Z.of_nat o) in
      if match Output.view_tag output with
         | Some actual => negb (actual =? SharedKeyDerivations.view_tag output_derivations)
         | None => false
         end
      then scan_keys o output output_key keys
      else
        let? shared_key := Scalar.into (SharedKeyDerivations.shared_key output_derivations) in
        let subaddress_spend_key := ed_sub output_key (ed_mul shared_key ED25519_BASEPOINT_POINT) in
        match subaddresses self !! Point.compress subaddress_spend_key with
        | None => scan_keys o output output_key keys
        | Some subaddress =>
            let? key_offset := key_offset self shared_key subaddress in
            let? commitment := output_commitment tx o output output_derivations in
            match commitment with
            | None => scan_keys o output output_key keys
            | Some commitment =>
                let? payment_id :=
                  match payment_id with
                  | None => Ok None
                  | Some id =>
                      let? xor := SharedKeyDerivations.payment_id_xor ecdh in Ok (Some (PaymentId.bitxor id xor))
                  end in
                if 2 ^ 64 <=? output_index_for_first_ringct_output + Z.of_nat o
                then Err (InvalidScannableBlock "transaction's output's index isn't representable as a u64")
                else
                  let? arbitrary_data := Extra.arbitrary_data extra in
                  Ok (Some (WalletOutput.mk
                    (AbsoluteId.mk tx_hash (Z.of_nat o))
                    (RelativeId.mk (output_index_for_first_ringct_output + Z.of_nat o))
                    (OutputData.mk output_key (Scalar.from key_offset) commitment)
                    (Metadata.mk (TransactionPrefix.additional_timelock (Transaction.prefix tx)) subaddress payment_id
                       arbitrary_data)))
            end
        end
  end.

(** The loop over the outputs *)
Fixpoint scan_outputs (tx_keys : list Point) (additional : option (list Point)) (o : nat) (outputs : list Output.t)
  : outcome ScanError Timelocked.t :=
  match outputs with
  | [] => Ok []
  | output :: outputs =>
      if bool_decide (Output.key output = CompressedPoint.IDENTITY) then scan_outputs tx_keys additional (S o) outputs
      else
        match CompressedPoint.decompress (Output.key output) with
        | None => scan_outputs tx_keys additional (S o) outputs
        | Some output_key =>
            let additional_key :=
              match additional with
              | Some additional => match additional !! o with Some key => [key] | None => [] end
              | None => []
              end in
            let? found := scan_keys o output output_key (tx_keys ++ additional_key) in
            let? res := scan_outputs tx_keys additional (S o) outputs in
            Ok (match found with Some output => output :: res | None => res end)
        end
  end.
End Transaction.

Definition scan_transaction (self : t) (output_index_for_first_ringct_output : Z) (tx_hash : bytes)
  (tx : Transaction Pruned) : outcome ScanError Timelocked.t :=
  if negb (Transaction.version tx =? 2) then Ok []
  else
    match fst (Extra.read (TransactionPrefix.extra (Transaction.prefix tx))) with
    | Panic => Panic
    | Err _ => Ok []
    | Ok extra =>
        match Extra.keys extra with
        | None => Ok []
        | Some (tx_keys, additional) =>
            let? payment_id := Extra.payment_id extra in
            scan_outputs self output_index_for_first_ringct_output tx_hash tx extra payment_id tx_keys additional 0
              (TransactionPrefix.outputs (Transaction.prefix tx))
        end
    end.

(** The loop over the transactions of a block *)
Fixpoint scan_transactions (self : t) (output_index_for_first_ringct_output : Z)
  (txs_with_hashes : list (bytes * Transaction Pruned)) : outcome ScanError Timelocked.t :=
  match txs_with_hashes with
  | [] => Ok []
  | (hash, tx) :: txs_with_hashes =>
      let? this_txs_outputs := scan_transaction self output_index_for_first_ringct_output hash tx in
      let? output_index_for_first_ringct_output :=
        match tx with
        | V2 prefix _ =>
            let next := output_index_for_first_ringct_output + len (TransactionPrefix.outputs prefix) in
            if 2 ^ 64 <=? next then Err (InvalidScannableBlock "RingCT output indexes exceeded u64::MAX") else Ok next
        | V1 _ _ => Ok output_index_for_first_ringct_output
        end in
      let? res := scan_transactions self output_index_for_first_ringct_output txs_with_hashes in
      Ok (this_txs_outputs ++ res)
  end.

(** What is done to an output of a block of version 12 or more *)
Definition drop_unencrypted_payment_id (output : WalletOutput.t) : WalletOutput.t :=
  let m := WalletOutput.metadata output in
  match Metadata.payment_id m with
  | Some (Unencrypted _) =>
      WalletOutput.mk (WalletOutput.absolute_id output) (WalletOutput.relative_id output) (WalletOutput.data output)
        (Metadata.mk (Metadata.additional_timelock m) (Metadata.subaddress m) None (Metadata.arbitrary_data m))
  | _ => output
  end.

Definition scan (self : t) (block : ScannableBlock.t) : outcome ScanError Timelocked.t :=
  let transactions := ScannableBlock.transactions block in
  let first := ScannableBlock.output_index_for_first_ringct_output block in
  let block := ScannableBlock.block block in
  if negb (length (Block.transactions block) =? length transactions)%nat
  then Err (InvalidScannableBlock "scanning a ScannableBlock with more/less transactions than it should have")
  else
    match first with
    | None => Ok []
    | Some first =>
        let version := BlockHeader.hardfork_version (Block.header block) in
        if 16 <? version then Err (UnsupportedProtocol version)
        else
          let? miner_hash := Transaction.hash (Block.miner_transaction block) in
          let txs_with_hashes :=
            (miner_hash, Transaction.into_pruned (Block.miner_transaction block)) ::
            zip (Block.transactions block) transactions in
          let? res := scan_transactions self first txs_with_hashes in
          Ok (if 12 <=? version then map drop_unencrypted_payment_id res else res)
    end.
End Ops.
End InternalScanner.

(** [struct Scanner] *)
Module Scanner.
Section Ops.
Context {D : Dalek} {K : Keccak}.
Definition new (pair : ViewPair.t) : InternalScanner.t := InternalScanner.new pair false.
Definition register_subaddress {E} : InternalScanner.t -> SubaddressIndex.t -> outcome E InternalScanner.t :=
  InternalScanner.register_subaddress.
Definition scan : InternalScanner.t -> ScannableBlock.t -> outcome ScanError Timelocked.t := InternalScanner.scan.
End Ops.
End Scanner.

(** [struct GuaranteedScanner] *)
Module GuaranteedScanner.
Section Ops.
Context {D : Dalek} {K : Keccak}.
Definition new (pair : GuaranteedViewPair.t) : InternalScanner.t :=
  InternalScanner.new (GuaranteedViewPair.pair pair) true.
Definition register_subaddress {E} : InternalScanner.t -> SubaddressIndex.t -> outcome E InternalScanner.t :=
  InternalScanner.register_subaddress.
Definition scan : InternalScanner.t -> ScannableBlock.t -> outcome ScanError Timelocked.t := InternalScanner.scan.
End Ops.
End GuaranteedScanner.

(** ** Facts *)

Section Facts.
Context {D : Dalek} {DL : DalekLaws D} {K : Keccak} {KL : KeccakLaws K}.
Import InternalScanner.

(** What the table of spend keys promises *)
Definition table_ok (self : t) : Prop :=
  forall k s, subaddresses self !! k = Some s ->
    exists P, k = Point.compress P /\
      match s with
      | None => P = ViewPair.spend (pair self)
      | Some index => exists view, ViewPair.subaddress_keys (E := ScanError) (pair self) index = Ok (P, view)
      end.

Lemma new_ok p g : table_ok (new p g).
Proof.
  intros k s. unfold new. cbn. rewrite lookup_singleton_Some. intros [<- <-]. exists (ViewPair.spend p). auto.
Qed.

Lemma register_ok self index self' : table_ok self -> register_subaddress (E := ScanError) self index = Ok self' ->
  table_ok self' /\ pair self' = pair self /\ guaranteed self' = guaranteed self /\
  (forall k s, subaddresses self !! k = Some s -> is_Some (subaddresses self' !! k)) /\
  exists P view, ViewPair.subaddress_keys (E := ScanError) (pair self) index = Ok (P, view) /\
    subaddresses self' !! Point.compress P = Some (Some index).
Proof.
  intros Ht. unfold register_subaddress. destruct (ViewPair.subaddress_keys (pair self) index) as [[P v]|e|] eqn:Hk;
    [|discriminate..]. cbn [obind]. intros [= <-]. cbn. split; [|split; [reflexivity|split; [reflexivity|split]]].
  - intros k s. cbn. rewrite lookup_insert_Some. intros [[<- <-]|[_ H]]; [exists P; split; [reflexivity|eauto]|exact (Ht k s H)].
  - intros k s Hs. rewrite lookup_insert_is_Some. destruct (decide (Point.compress P = k)); eauto.
  - exists P, v. split; [reflexivity|]. apply lookup_insert_eq.
Qed.

Lemma subaddress_keys_inv {E} p index P v d s : ViewPair.subaddress_keys (E := E) p index = Ok (P, v) ->
  ViewPair.subaddress_derivation (E := E) p index = Ok d -> Scalar.into (E := E) d = Ok s ->
  P = ed_add (ViewPair.spend p) (ed_mul s ED25519_BASEPOINT_POINT).
Proof.
  unfold ViewPair.subaddress_keys. intros H Hd Hs. rewrite Hd in H. cbn [obind] in H. rewrite Hs in H. cbn [obind] in H.
  obind_inv H. injection H as <- _. reflexivity.
Qed.

(** The offset found is the one which makes the key of the output. *)
Lemma key_offset_spec self output_key shared sub offset : table_ok self ->
  subaddresses self !! Point.compress (ed_sub output_key (ed_mul shared ED25519_BASEPOINT_POINT)) = Some sub ->
  key_offset self shared sub = Ok offset ->
  ed_add (ViewPair.spend (pair self)) (ed_mul offset ED25519_BASEPOINT_POINT) = output_key.
Proof.
  intros Ht Hl Ho. destruct (Ht _ _ Hl) as (P & Hk & HP). apply ed_compress_inj in Hk.
  assert (HPk : ed_add P (ed_mul shared ED25519_BASEPOINT_POINT) = output_key) by (rewrite <- Hk; apply ed_sub_add).
  destruct sub as [index|]; cbn [key_offset] in Ho.
  - destruct HP as [view HP]. obind_inv Ho. obind_inv Ho. injection Ho as <-.
    rewrite (subaddress_keys_inv _ _ _ _ _ _ HP Hx Hx0) in HPk.
    rewrite ed_mul_add_l by apply ed_basepoint_free. rewrite <- HPk, <- ed_add_assoc. f_equal. apply ed_add_comm.
  - injection Ho as <-. rewrite <- HP. exact HPk.
Qed.

(** ** What is found *)

(** The commitment is the output's. *)
Definition opens (tx : Transaction Pruned) (o : nat) (output : Output.t) (c : Commitment.t) : Prop :=
  match Output.amount output with
  | Some amount => c = Commitment.new (Scalar.from sc_ONE) amount
  | None =>
      exists prefix proofs P, tx = V2 prefix (Some proofs) /\ Commitment.commit (E := ScanError) c = Ok P /\
        RctBase.commitments (pruned_base proofs) !! o = Some (Point.compress P)
  end.

(** What [scan] promises of an output it returns for the output [o] of [tx] *)
Record found (self : t) (first : Z) (tx_hash : bytes) (tx : Transaction Pruned) (o : nat) (output : Output.t)
  (w : WalletOutput.t) : Prop := {
  found_id : WalletOutput.absolute_id w = AbsoluteId.mk tx_hash (Z.of_nat o);
  found_index : WalletOutput.relative_id w = RelativeId.mk (first + Z.of_nat o) /\ first + Z.of_nat o < 2 ^ 64;
  found_key : Point.compress (OutputData.key (WalletOutput.data w)) = Output.key output;
  found_spendable : exists offset, OutputData.key_offset (WalletOutput.data w) = Scalar.from offset /\
    ed_add (ViewPair.spend (pair self)) (ed_mul offset ED25519_BASEPOINT_POINT) = OutputData.key (WalletOutput.data w);
  found_commitment : opens tx o output (OutputData.commitment (WalletOutput.data w));
  found_subaddress : exists k, subaddresses self !! k = Some (Metadata.subaddress (WalletOutput.metadata w));
  found_timelock : Metadata.additional_timelock (WalletOutput.metadata w) =
    TransactionPrefix.additional_timelock (Transaction.prefix tx)
}.

Lemma output_commitment_opens tx o output d c : output_commitment tx o output d = Ok (Some c) -> opens tx o output c.
Proof.
  unfold output_commitment, opens. destruct (Output.amount output); [intros [= <-]; reflexivity|].
  destruct tx as [prefix ?|prefix [proofs|]]; try discriminate.
  destruct (RctBase.encrypted_amounts (pruned_base proofs) !! o); [|discriminate]. intros H.
  obind_inv H. obind_inv H. destruct (bool_decide _) eqn:Hb; [|discriminate]. injection H as <-.
  apply bool_decide_eq_true in Hb. exists prefix, proofs, x0. auto.
Qed.

Lemma scan_keys_found self first tx_hash tx extra pid o output output_key keys w : table_ok self ->
  CompressedPoint.decompress (Output.key output) = Some output_key ->
  scan_keys self first tx_hash tx extra pid o output output_key keys = Ok (Some w) ->
  found self first tx_hash tx o output w.
Proof.
  intros Ht Hd. induction keys as [|key keys IH]; cbn [scan_keys]; [discriminate|]. intros H.
  obind_inv H. cbv zeta in H. obind_inv H. destruct (match Output.view_tag output with Some _ => _ | None => _ end);
    [exact (IH H)|]. obind_inv H.
  destruct (subaddresses self !! _) as [sub|] eqn:Hl; [|exact (IH H)]. obind_inv H. obind_inv H.
  destruct x3 as [c|]; [|exact (IH H)]. obind_inv H. destruct (Z.leb_spec (2 ^ 64) (first + Z.of_nat o)); [discriminate|].
  obind_inv H. injection H as <-. split; cbn; auto.
  - apply compress_decompress, Hd.
  - exists x2. split; [reflexivity|]. exact (key_offset_spec self output_key x1 sub x2 Ht Hl Hx2).
  - exact (output_commitment_opens _ _ _ _ _ Hx3).
  - eauto.
Qed.

(** Indexes are found in order. *)
Definition index (w : WalletOutput.t) : Z := RelativeId.index_on_blockchain (WalletOutput.relative_id w).

Definition ascending (lo hi : Z) (ws : list WalletOutput.t) : Prop :=
  Forall (fun w => lo <= index w < hi) ws /\ StronglySorted (fun v w => index v < index w) ws.

Lemma ascending_nil lo hi : ascending lo hi [].
Proof. split; constructor. Qed.

Lemma ascending_app lo mid hi l l' : lo <= mid <= hi -> ascending lo mid l -> ascending mid hi l' -> ascending lo hi (l ++ l').
Proof.
  intros Hm [H1 H2] [H3 H4]. split.
  - apply Forall_app. split; [revert H1|revert H3]; intros H; refine (Forall_impl _ _ _ H _); cbn; intros w Hw; lia.
  - clear Hm. induction H2 as [|w l Hs IH Hw]; [exact H4|]. cbn. apply Forall_cons_iff in H1 as [Hw1 H1].
    constructor; [exact (IH H1)|]. apply Forall_app. split; [exact Hw|]. refine (Forall_impl _ _ _ H3 _).
    cbn. intros v Hv. lia.
Qed.

Lemma scan_outputs_found self first tx_hash tx extra pid tx_keys additional o outputs ws : table_ok self ->
  scan_outputs self first tx_hash tx extra pid tx_keys additional o outputs = Ok ws ->
  Forall (fun w => exists i output, outputs !! i = Some output /\ found self first tx_hash tx (o + i) output w) ws /\
  ascending (first + Z.of_nat o) (first + Z.of_nat o + len outputs) ws.
Proof.
  intros Ht. revert o ws. induction outputs as [|output outputs IH]; intros o ws; cbn [scan_outputs].
  - intros [= <-]. split; [constructor|apply ascending_nil].
  - assert (Hskip : forall ws, scan_outputs self first tx_hash tx extra pid tx_keys additional (S o) outputs = Ok ws ->
      Forall (fun w => exists i x, (output :: outputs) !! i = Some x /\ found self first tx_hash tx (o + i) x w) ws /\
      ascending (first + Z.of_nat (S o)) (first + Z.of_nat o + len (output :: outputs)) ws).
    { intros l H. destruct (IH _ _ H) as [H1 H2]. split.
      - refine (Forall_impl _ _ _ H1 _). cbn. intros w (i & x & Hi & Hf). exists (S i), x.
        rewrite Nat.add_succ_r. split; [exact Hi|exact Hf].
      - revert H2. unfold len. cbn [length]. replace (first + Z.of_nat (S o) + Z.of_nat (length outputs)) with
          (first + Z.of_nat o + Z.of_nat (S (length outputs))) by lia. auto. }
    assert (Hw : forall l, ascending (first + Z.of_nat (S o)) (first + Z.of_nat o + len (output :: outputs)) l ->
                 ascending (first + Z.of_nat o) (first + Z.of_nat o + len (output :: outputs)) l).
    { intros l Hl. apply (ascending_app _ (first + Z.of_nat (S o)) _ [] l); [|apply ascending_nil|exact Hl].
      unfold len. cbn [length]. lia. }
    destruct (bool_decide _); [intros H; destruct (Hskip _ H); auto|].
    destruct (CompressedPoint.decompress (Output.key output)) as [output_key|] eqn:Hd; [|intros H; destruct (Hskip _ H); auto].
    cbv zeta. intros H. obind_inv H. obind_inv H. injection H as <-. destruct (Hskip _ Hx0) as [H1 H2].
    destruct x as [w|]; [|auto]. apply (scan_keys_found _ _ _ _ _ _ _ _ _ _ _ Ht Hd) in Hx.
    split; [constructor; [|exact H1]; exists 0%nat, output; rewrite Nat.add_0_r; auto|].
    apply (ascending_app _ (first + Z.of_nat (S o)) _ [w] x0); [unfold len; cbn [length]; lia| |exact H2].
    destruct (found_index _ _ _ _ _ _ _ Hx) as [Hi _]. split; [|repeat constructor].
    constructor; [|constructor]. unfold index. rewrite Hi. cbn. lia.
Qed.

Lemma scan_transaction_found self first tx_hash tx ws : table_ok self ->
  scan_transaction self first tx_hash tx = Ok ws ->
  Forall (fun w => exists o output, TransactionPrefix.outputs (Transaction.prefix tx) !! o = Some output /\
                                    found self first tx_hash tx o output w) ws /\
  ascending first (first + len (TransactionPrefix.outputs (Transaction.prefix tx))) ws /\
  (ws <> [] -> Transaction.version tx = 2).
Proof.
  intros Ht. unfold scan_transaction. pose proof (ascending_nil first (first + len (TransactionPrefix.outputs (Transaction.prefix tx)))).
  destruct (Z.eqb_spec (Transaction.version tx) 2) as [Hv|]; cbn [negb];
    [|intros [= <-]; split_and!; [constructor|assumption|contradiction]].
  destruct (fst (Extra.read _)) as [extra|e|]; [|intros [= <-]; split_and!; [constructor|assumption|contradiction]|discriminate].
  destruct (Extra.keys extra) as [[tx_keys additional]|]; [|intros [= <-]; split_and!; [constructor|assumption|contradiction]].
  intros Hs. obind_inv Hs. destruct (scan_outputs_found _ _ _ _ _ _ _ _ _ _ _ Ht Hs) as [H1 H2].
  rewrite Z.add_0_r in H2. split_and!; auto.
Qed.

(** An output found in one of the transactions *)
Definition found_in (self : t) (txs : list (bytes * Transaction Pruned)) (w : WalletOutput.t) : Prop :=
  exists hash tx start o output, (hash, tx) ∈ txs /\
    TransactionPrefix.outputs (Transaction.prefix tx) !! o = Some output /\ found self start hash tx o output w.

Lemma scan_transactions_found self first txs ws : table_ok self -> U 64 first ->
  scan_transactions self first txs = Ok ws -> Forall (found_in self txs) ws /\ ascending first (2 ^ 64) ws.
Proof.
  intros Ht. revert first ws. induction txs as [|[hash tx] txs IH]; intros first ws HU; cbn [scan_transactions].
  - intros [= <-]. split; [constructor|apply ascending_nil].
  - intros H. obind_inv H. obind_inv H. obind_inv H. injection H as <-.
    apply (scan_transaction_found _ _ _ _ _ Ht) in Hx as (H1 & H2 & H3).
    assert (Hn : U 64 x0 /\ first <= x0 /\ ascending first x0 x).
    { destruct tx as [prefix ?|prefix proofs].
      - injection Hx0 as <-. split; [exact HU|]. split; [lia|]. destruct x; [apply ascending_nil|]. specialize (H3 ltac:(discriminate)). discriminate.
      - cbv zeta in Hx0. destruct (Z.leb_spec (2 ^ 64) (first + len (TransactionPrefix.outputs prefix))); [discriminate|].
        injection Hx0 as <-. cbn [Transaction.prefix] in H2. unfold U, len in *. split; [lia|]. split; [lia|exact H2]. }
    destruct Hn as (HU0 & Hle & Ha). destruct (IH x0 x1 HU0 Hx1) as [H4 H5]. split.
    + apply Forall_app. split.
      * refine (Forall_impl _ _ _ H1 _). intros w (o & output & Ho & Hf). exists hash, tx, first, o, output.
        split; [left|auto].
      * refine (Forall_impl _ _ _ H4 _). intros w (h & t & st & o & output & Hin & Hf). exists h, t, st, o, output.
        split; [right; exact Hin|exact Hf].
    + apply (ascending_app _ x0); [unfold U in HU0; lia|exact Ha|exact H5].
Qed.

Lemma drop_found self txs w : found_in self txs w -> found_in self txs (drop_unencrypted_payment_id w).
Proof.
  intros (h & tx & st & o & output & H1 & H2 & H3). exists h, tx, st, o, output. split; [exact H1|]. split; [exact H2|].
  unfold drop_unencrypted_payment_id. destruct (Metadata.payment_id (WalletOutput.metadata w)) as [[id|id]|]; [|exact H3..].
  destruct H3. split; assumption.
Qed.

Lemma drop_index w : index (drop_unencrypted_payment_id w) = index w.
Proof. unfold drop_unencrypted_payment_id. destruct (Metadata.payment_id (WalletOutput.metadata w)) as [[id|id]|]; reflexivity. Qed.

Lemma ascending_map lo hi f ws : (forall w, index (f w) = index w) -> ascending lo hi ws -> ascending lo hi (map f ws).
Proof.
  intros Hf [H1 H2]. split.
  - apply Forall_map. refine (Forall_impl _ _ _ H1 _). intros w Hw. rewrite Hf. exact Hw.
  - clear H1. induction H2 as [|w l Hs IH Hw]; [constructor|]. cbn. constructor; [exact IH|].
    apply Forall_map. refine (Forall_impl _ _ _ Hw _). intros v Hv. rewrite !Hf. exact Hv.
Qed.
End Facts.

(** ** Theorems *)

Section Theorems.
Context {D : Dalek} {DL : DalekLaws D} {K : Keccak} {KL : KeccakLaws K}.
Import InternalScanner.

Lemma scan_found self block ws : table_ok self ->
  match ScannableBlock.output_index_for_first_ringct_output block with Some first => U 64 first | None => True end ->
  scan self block = Ok ws -> ws <> [] ->
  exists first miner_hash,
    ScannableBlock.output_index_for_first_ringct_output block = Some first /\
    Transaction.hash (E := ScanError) (Block.miner_transaction (ScannableBlock.block block)) = Ok miner_hash /\
    Forall (found_in self ((miner_hash, Transaction.into_pruned (Block.miner_transaction (ScannableBlock.block block))) ::
                           zip (Block.transactions (ScannableBlock.block block)) (ScannableBlock.transactions block))) ws /\
    ascending first (2 ^ 64) ws /\
    (12 <= BlockHeader.hardfork_version (Block.header (ScannableBlock.block block)) ->
     Forall (fun w => match Metadata.payment_id (WalletOutput.metadata w) with Some (Unencrypted _) => False | _ => True end) ws).
Proof.
  intros Ht HU Hs Hne. unfold scan in Hs. cbv zeta in Hs. destruct (negb _); [discriminate|].
  destruct (ScannableBlock.output_index_for_first_ringct_output block) as [first|]; [|injection Hs as <-; contradiction].
  destruct (16 <? _); [discriminate|]. obind_inv Hs. obind_inv Hs.
  destruct (scan_transactions_found _ _ _ _ Ht HU Hx0) as [H1 H2]. exists first, x. split; [reflexivity|]. split; [exact Hx|].
  destruct (Z.leb_spec 12 (BlockHeader.hardfork_version (Block.header (ScannableBlock.block block)))); injection Hs as <-.
  - split; [apply Forall_map; refine (Forall_impl _ _ _ H1 _); intros w; apply drop_found|].
    split; [exact (ascending_map _ _ _ _ drop_index H2)|]. intros _. apply Forall_map, Forall_forall. intros w _.
    unfold drop_unencrypted_payment_id. destruct (Metadata.payment_id (WalletOutput.metadata w)) as [[id|id]|] eqn:Hid;
      cbn; rewrite ?Hid; exact I.
  - split; [exact H1|]. split; [exact H2|]. intros; lia.
Qed.

(** C30: every output a scanner returns can be spent and is what it says.  It is
    an output of one of the block's transactions, at the index said; the
    public spend key of the pair with the key offset added is its key; its
    commitment opens to the amount and mask returned, the amount in the clear
    for a miner's; and it is to the pair or a subaddress registered.  Indexes
    on the blockchain strictly increase from the block's first, so no output
    is returned twice, and fit in a [u64].  From version 12 on no unencrypted
    payment ID is returned. *)
Theorem scan_sound self block ws : table_ok self ->
  match ScannableBlock.output_index_for_first_ringct_output block with Some first => U 64 first | None => True end ->
  scan self block = Ok ws -> ws <> [] ->
  exists first miner_hash,
    ScannableBlock.output_index_for_first_ringct_output block = Some first /\
    Transaction.hash (E := ScanError) (Block.miner_transaction (ScannableBlock.block block)) = Ok miner_hash /\
    Forall (found_in self ((miner_hash, Transaction.into_pruned (Block.miner_transaction (ScannableBlock.block block))) ::
                           zip (Block.transactions (ScannableBlock.block block)) (ScannableBlock.transactions block))) ws /\
    ascending first (2 ^ 64) ws /\
    (12 <= BlockHeader.hardfork_version (Block.header (ScannableBlock.block block)) ->
     Forall (fun w => match Metadata.payment_id (WalletOutput.metadata w) with Some (Unencrypted _) => False | _ => True end) ws).
Proof. apply scan_found. Qed.

(** The transactions scanned of a block, and their hashes, the miner's first *)
Definition scanned (x : ScannableBlock.t) : list (Transaction Pruned) :=
  Transaction.into_pruned (Block.miner_transaction (ScannableBlock.block x)) :: ScannableBlock.transactions x.

Definition scanned_hashes (miner_hash : bytes) (x : ScannableBlock.t) : list bytes :=
  miner_hash :: Block.transactions (ScannableBlock.block x).

(** The transaction of an output found in a validated block *)
Definition from_block (x : ScannableBlock.t) (hash : bytes) (tx : Transaction Pruned) : Prop :=
  (Transaction.hash (E := ScanError) (Block.miner_transaction (ScannableBlock.block x)) = Ok hash /\
   tx = Transaction.into_pruned (Block.miner_transaction (ScannableBlock.block x))) \/
  (hash ∈ Block.transactions (ScannableBlock.block x) /\ exists e, shows e hash tx).

Lemma scan_from_block self x ws : table_ok self -> scannable_ok x -> scan self x = Ok ws ->
  Forall (fun w => exists tx first o output,
    from_block x (AbsoluteId.transaction (WalletOutput.absolute_id w)) tx /\
    TransactionPrefix.outputs (Transaction.prefix tx) !! o = Some output /\
    found self first (AbsoluteId.transaction (WalletOutput.absolute_id w)) tx o output w) ws.
Proof.
  intros Ht (_ & Htxs & HU) Hs. destruct ws as [|w ws]; [constructor|].
  destruct (scan_found self x (w :: ws) Ht HU Hs) as (first & miner_hash & _ & Hm & Hf & _); [discriminate|].
  refine (Forall_impl _ _ _ Hf _). intros v (hash & tx & start & o & output & Hin & Ho & Hv). exists tx, start, o, output.
  assert (He : AbsoluteId.transaction (WalletOutput.absolute_id v) = hash) by (rewrite (found_id _ _ _ _ _ _ _ Hv); reflexivity).
  rewrite He. split; [|auto]. apply elem_of_cons in Hin as [[= -> ->]|Hin]; [left; auto|].
  right. apply list_elem_of_lookup in Hin as [i Hi]. apply lookup_zip_Some in Hi as [H1 H2].
  split; [exact (list_elem_of_lookup_2 _ _ _ H1)|].
  destruct (Forall2_lookup_lr _ _ _ _ _ _ Htxs H1 H2) as [e He']. eauto.
Qed.

(** *** What's scanned but for the indexes on the blockchain, which no hash commits to *)

Definition unindexed (w : WalletOutput.t) : WalletOutput.t :=
  WalletOutput.mk (WalletOutput.absolute_id w) (RelativeId.mk 0) (WalletOutput.data w) (WalletOutput.metadata w).

(** Successes of two runs which differ by the index only *)
Definition agree {A B} (f : A -> B) (x y : outcome ScanError A) : Prop := forall a b, x = Ok a -> y = Ok b -> f a = f b.

Lemma agree_bind {A B C D'} (f : A -> B) (g : C -> D') m m' k k' : agree f m m' ->
  (forall a a', f a = f a' -> agree g (k a) (k' a')) -> agree g (obind m k) (obind m' k').
Proof. intros Hm Hk x y Hx Hy. destruct m, m'; try discriminate. exact (Hk _ _ (Hm _ _ eq_refl eq_refl) _ _ Hx Hy). Qed.

Lemma agree_same {A C D'} (g : C -> D') (m : outcome ScanError A) k k' : (forall a, agree g (k a) (k' a)) -> agree g (obind m k) (obind m k').
Proof. intros Hk. destruct m; cbn; [apply Hk|discriminate..]. Qed.

Lemma agree_ok {A B} (f : A -> B) a b : f a = f b -> agree f (Ok a) (Ok b).
Proof. intros H x y [= <-] [= <-]. exact H. Qed.

Lemma scan_keys_agree self first first' tx_hash tx extra pid o output output_key keys :
  agree (option_map unindexed) (scan_keys self first tx_hash tx extra pid o output output_key keys)
    (scan_keys self first' tx_hash tx extra pid o output output_key keys).
Proof.
  induction keys as [|key keys IH]; cbn [scan_keys]; [apply agree_ok; reflexivity|].
  apply agree_same. intros view. cbv zeta. apply agree_same. intros d.
  destruct (match Output.view_tag output with Some _ => _ | None => _ end); [exact IH|]. apply agree_same. intros s.
  destruct (subaddresses self !! _); [|exact IH]. apply agree_same. intros offset. apply agree_same. intros [c|]; [|exact IH].
  apply agree_same. intros id. destruct (_ <=? _); [discriminate|]. destruct (_ <=? _); [intros ? ? _ [=]|]. apply agree_same. intros data.
  apply agree_ok. reflexivity.
Qed.

Lemma scan_outputs_agree self first first' tx_hash tx extra pid tx_keys additional o outputs :
  agree (map unindexed) (scan_outputs self first tx_hash tx extra pid tx_keys additional o outputs)
    (scan_outputs self first' tx_hash tx extra pid tx_keys additional o outputs).
Proof.
  revert o. induction outputs as [|output outputs IH]; intros o; cbn [scan_outputs]; [apply agree_ok; reflexivity|].
  destruct (bool_decide _); [apply IH|]. destruct (CompressedPoint.decompress _); [|apply IH]. cbv zeta.
  apply (agree_bind (option_map unindexed)); [apply scan_keys_agree|]. intros w w' Hw.
  apply (agree_bind (map unindexed)); [apply IH|]. intros ws ws' Hws. apply agree_ok.
  destruct w, w'; cbn in *; congruence.
Qed.

Lemma scan_transactions_agree self first first' txs :
  agree (map unindexed) (scan_transactions self first txs) (scan_transactions self first' txs).
Proof.
  revert first first'. induction txs as [|[hash tx] txs IH]; intros first first'; cbn [scan_transactions]; [apply agree_ok; reflexivity|].
  apply (agree_bind (map unindexed)).
  { unfold scan_transaction. destruct (negb _); [apply agree_ok; reflexivity|]. destruct (fst _); [|apply agree_ok; reflexivity|discriminate].
    destruct (Extra.keys a) as [[tx_keys additional]|]; [|apply agree_ok; reflexivity]. apply agree_same. intros pid. apply scan_outputs_agree. }
  intros a a' Ha. apply (agree_bind (fun _ => tt)); [intros ? ? _ _; reflexivity|]. intros next next' _.
  apply (agree_bind (map unindexed)); [apply IH|]. intros b b' Hb. apply agree_ok. rewrite !map_app. congruence.
Qed.

Lemma drop_unindexed w : unindexed (drop_unencrypted_payment_id w) = drop_unencrypted_payment_id (unindexed w).
Proof. unfold drop_unencrypted_payment_id. cbn. destruct (Metadata.payment_id (WalletOutput.metadata w)) as [[]|]; reflexivity. Qed.

(** Blocks of the same header, transactions and miner transaction's hash *)
Lemma scan_agree self x y : is_Some (ScannableBlock.output_index_for_first_ringct_output x) ->
  is_Some (ScannableBlock.output_index_for_first_ringct_output y) ->
  Block.header (ScannableBlock.block x) = Block.header (ScannableBlock.block y) ->
  Block.transactions (ScannableBlock.block x) = Block.transactions (ScannableBlock.block y) ->
  Transaction.hash (E := ScanError) (Block.miner_transaction (ScannableBlock.block x)) =
    Transaction.hash (Block.miner_transaction (ScannableBlock.block y)) ->
  scanned x = scanned y -> agree (map unindexed) (scan self x) (scan self y).
Proof.
  intros [i Hi] [j Hj] Hh Ht Hm [= Hmt Htx]. unfold scan. cbv zeta. rewrite Hi, Hj, Hh, Ht, Hm, Htx, Hmt.
  destruct (negb _); [discriminate|]. destruct (16 <? _); [discriminate|]. apply agree_same. intros mh.
  apply (agree_bind (map unindexed)); [apply scan_transactions_agree|]. intros a a' Ha. apply agree_ok. destruct (12 <=? _); [|exact Ha].
  rewrite !map_map. rewrite !(map_ext _ _ drop_unindexed), <- !(map_map unindexed drop_unencrypted_payment_id). congruence.
Qed.

(** Transactions shown to be of the same hashes, and of the same versions *)
Lemma shown_agree hashes txs txs' : Forall2 (fun h tx => exists e, shows e h tx) hashes txs ->
  Forall2 (fun h tx => exists e, shows e h tx) hashes txs' -> map Transaction.version txs = map Transaction.version txs' ->
  txs = txs' \/ exists h t t' e e', t ∈ txs /\ t' ∈ txs' /\ shows e h t /\ shows e' h t' /\ collides (evidence_inputs e t) (evidence_inputs e' t').
Proof.
  intros Ht. revert txs'. induction Ht as [|h t hashes txs [e He] _ IH]; intros txs' Ht' Hv; inversion Ht' as [|? t' ? txs0 [e' He'] Ht0]; subst; [auto|].
  injection Hv as Hv Hvs. destruct (shows_inj e e' h t t' He He' Hv) as [->|Hc].
  - destruct (IH _ Ht0 Hvs) as [->|(h' & a & a' & d & d' & Ha & Ha' & Hrest)]; [auto|right].
    exists h', a, a', d, d'. split; [right; exact Ha|]. split; [right; exact Ha'|exact Hrest].
  - right. exists h, t, t', e, e'. split; [left|]. split; [left|auto].
Qed.

(** C31: what's scanned depends on the hash of the block, not on who answers for
    it.  Whatever an untrusted interface answers when asked for the block of a
    hash, over any interface which provides transactions as its laws say, the
    outputs scanned of the block its validated method returns are of the miner
    transaction of a block of that hash, or of transactions shown to be of the
    hashes that block lists.  And the outputs scanned of what two interfaces
    return for the same hash are the same, in the same order, but for their
    indexes on the blockchain, which no hash commits to: unless the versions of
    the transactions differ, one claims there is no RingCT output, preimages
    hashed for the blocks or for two of the transactions collide, or a block is
    block 202612, whose hash is replaced. *)
Theorem scan_validated {S S'} (PT : ProvidesTransactions.t S) (P : ProvidesUnvalidatedScannableBlocks.t S)
  (PT' : ProvidesTransactions.t S') (P' : ProvidesUnvalidatedScannableBlocks.t S') self hash : table_ok self ->
  ProvidesTransactions.Laws PT -> ProvidesUnvalidatedScannableBlocks.Deserialized P ->
  ProvidesTransactions.Laws PT' -> ProvidesUnvalidatedScannableBlocks.Deserialized P' ->
  let get {T} (PT : ProvidesTransactions.t T) P :=
    ProvidesScannableBlocks.scannable_block (t := ProvidesScannableBlocks.blanket PT P) hash in
  forall s x s1 ws, get PT P s = (Ok x, s1) -> scan self x = Ok ws ->
    Block.hash (E := io_error) (ScannableBlock.block x) = Ok hash /\
    Forall (fun w => exists tx first o output,
      from_block x (AbsoluteId.transaction (WalletOutput.absolute_id w)) tx /\
      TransactionPrefix.outputs (Transaction.prefix tx) !! o = Some output /\
      found self first (AbsoluteId.transaction (WalletOutput.absolute_id w)) tx o output w) ws /\
    forall s' x' s1' ws', get PT' P' s' = (Ok x', s1') -> scan self x' = Ok ws' ->
      is_Some (ScannableBlock.output_index_for_first_ringct_output x) ->
      is_Some (ScannableBlock.output_index_for_first_ringct_output x') ->
      map Transaction.version (scanned x) = map Transaction.version (scanned x') ->
      map unindexed ws = map unindexed ws' \/
      collides (block_inputs (ScannableBlock.block x)) (block_inputs (ScannableBlock.block x')) \/
      (exists h t t' e e', t ∈ scanned x /\ t' ∈ scanned x' /\ shows e h t /\ shows e' h t' /\
         collides (evidence_inputs e t) (evidence_inputs e' t')) \/
      replaced (ScannableBlock.block x) (ScannableBlock.block x') \/ replaced (ScannableBlock.block x') (ScannableBlock.block x).
Proof.
  intros Ht HPT HP HPT' HP' get s x s1 ws Hg Hs.
  destruct (ensures_ok _ _ _ _ _ (scannable_by_hash_ok PT HPT P HP hash) Hg) as [Hx Hh].
  split; [exact Hh|]. split; [exact (scan_from_block self x ws Ht Hx Hs)|].
  intros s' x' s1' ws' Hg' Hs' Hi Hi' Hv.
  destruct (ensures_ok _ _ _ _ _ (scannable_by_hash_ok PT' HPT' P' HP' hash) Hg') as [Hx' Hh'].
  destruct Hx as (Hb & Htx & _), Hx' as (Hb' & Htx' & _).
  destruct (block_hash_inj _ _ hash Hb Hb' Hh Hh') as [(Hhd & Htr & Hmh)|[Hc|Hr]]; [|auto|auto].
  destruct (tx_hash_total (Block.miner_transaction (ScannableBlock.block x))) as [mh Hm].
  destruct (tx_hash_total (Block.miner_transaction (ScannableBlock.block x'))) as [mh' Hm'].
  rewrite Hm, Hm' in Hmh. injection Hmh as <-.
  assert (Hshown : forall y, block_ok (ScannableBlock.block y) ->
    Transaction.hash (E := io_error) (Block.miner_transaction (ScannableBlock.block y)) = Ok mh ->
    Forall2 (fun h tx => exists e, shows e h tx) (Block.transactions (ScannableBlock.block y)) (ScannableBlock.transactions y) ->
    Forall2 (fun h tx => exists e, shows e h tx) (scanned_hashes mh y) (scanned y)).
  { intros y Hy Hmy Hty. constructor; [exact (shows_itself _ _ (proj1 (proj2 Hy)) Hmy)|exact Hty]. }
  pose proof (Hshown x Hb (Hm _) Htx) as H1. pose proof (Hshown x' Hb' (Hm' _) Htx') as H2.
  unfold scanned_hashes in H2. rewrite <- Htr in H2.
  destruct (shown_agree _ _ _ H1 H2 Hv) as [He|Hc]; [|auto]. left.
  refine (scan_agree self x x' Hi Hi' Hhd Htr _ He ws ws' Hs Hs'). rewrite Hm, Hm'. reflexivity.
Qed.

(** The table of spend keys is right in every state of a scanner: it starts
    with the pair's own key, and registering a subaddress adds its key and
    keeps every key registered. *)
Theorem register_invariant p g : table_ok (new p g) /\
  subaddresses (new p g) !! Point.compress (ViewPair.spend p) = Some None /\
  forall self index self', table_ok self -> register_subaddress (E := ScanError) self index = Ok self' ->
    table_ok self' /\ pair self' = pair self /\ guaranteed self' = guaranteed self /\
    (forall k s, subaddresses self !! k = Some s -> is_Some (subaddresses self' !! k)) /\
    exists P view, ViewPair.subaddress_keys (E := ScanError) (pair self) index = Ok (P, view) /\
      subaddresses self' !! Point.compress P = Some (Some index).
Proof.
  split; [apply new_ok|]. split; [apply lookup_singleton_eq|]. intros self index self'. apply register_ok.
Qed.

(** An output made for the scanner: [R] is the key of the transaction to use,
    [d] what it shares with the sender by it. *)
Record made_for (self : t) (tx : Transaction Pruned) (o : nat) (output : Output.t) (R : Point)
  (d : SharedKeyDerivations.t) (sub : option SubaddressIndex.t) : Prop := {
  for_derivations : exists view, Scalar.into (E := ScanError) (ViewPair.view_key (pair self)) = Ok view /\
    SharedKeyDerivations.output_derivations (E := ScanError)
      (if guaranteed self
       then Some (SharedKeyDerivations.uniqueness (TransactionPrefix.inputs (Transaction.prefix tx))) else None)
      (ed_mul view R) (Z.of_nat o) = Ok d;
  for_view_tag : match Output.view_tag output with Some tag => tag = SharedKeyDerivations.view_tag d | None => True end;
  for_key : exists P s, subaddresses self !! Point.compress P = Some sub /\
    Scalar.into (E := ScanError) (SharedKeyDerivations.shared_key d) = Ok s /\
    Output.key output = Point.compress (ed_add P (ed_mul s ED25519_BASEPOINT_POINT));
  for_not_identity : Output.key output <> CompressedPoint.IDENTITY
}.

(** And with a commitment which it can open, [c] being what it finds *)
Record sent_to (self : t) (tx : Transaction Pruned) (o : nat) (output : Output.t) (R : Point)
  (d : SharedKeyDerivations.t) (c : Commitment.t) (sub : option SubaddressIndex.t) : Prop := {
  sent_made : made_for self tx o output R d sub;
  sent_commitment : output_commitment tx o output d = Ok (Some c)
}.

(** [R] is the first of [keys] by which the output is the scanner's. *)
Definition first_to (self : t) (tx : Transaction Pruned) (o : nat) (output : Output.t) (keys : list Point) (R : Point)
  (d : SharedKeyDerivations.t) (c : Commitment.t) (sub : option SubaddressIndex.t) : Prop :=
  exists before after, keys = before ++ R :: after /\ sent_to self tx o output R d c sub /\
    forall R' d' c' sub', R' ∈ before -> ~ sent_to self tx o output R' d' c' sub'.

(** A key determines what is found by it. *)
Lemma sent_unique self tx o output R d c sub d' c' sub' :
  sent_to self tx o output R d c sub -> sent_to self tx o output R d' c' sub' -> c = c' /\ sub = sub'.
Proof.
  intros [[(v & Hv & Hd) _ (P & s & HP & Hs & Hk) _] Hc] [[(v' & Hv' & Hd') _ (P' & s' & HP' & Hs' & Hk') _] Hc'].
  assert (v' = v) as -> by congruence. assert (d' = d) as -> by congruence. assert (s' = s) as -> by congruence.
  rewrite Hk in Hk'. apply ed_compress_inj in Hk'. apply (f_equal (fun p => ed_sub p (ed_mul s ED25519_BASEPOINT_POINT))) in Hk'.
  rewrite !ed_add_sub in Hk'. subst P'. split; congruence.
Qed.

Lemma first_unique self tx o output keys R d c sub R' d' c' sub' : first_to self tx o output keys R d c sub ->
  first_to self tx o output keys R' d' c' sub' -> c = c' /\ sub = sub'.
Proof.
  intros (b & a & -> & Hs & Hb) (b' & a' & He & Hs' & Hb').
  assert (R' = R) as ->; [|exact (sent_unique _ _ _ _ _ _ _ _ _ _ _ Hs Hs')].
  revert b' He Hb'. induction b as [|x b IH]; intros [|x' b'] He Hb'; injection He as Hx He.
  - congruence.
  - subst x'. contradiction (Hb' R d c sub ltac:(left) Hs).
  - subst x. contradiction (Hb R' d' c' sub' ltac:(left) Hs').
  - apply (IH (fun y d c sub H => Hb y d c sub (list_elem_of_further _ _ _ H)) b' He). intros y e f g H. apply Hb'. right. exact H.
Qed.

(** Why scanning a transaction fails on an output: its amount is encrypted and
    isn't in the transaction, or its index on the blockchain isn't a [u64]. *)
Definition no_amount (tx : Transaction Pruned) (o : nat) (e : ScanError) : Prop :=
  match tx with
  | V2 _ (Some proofs) => RctBase.encrypted_amounts (pruned_base proofs) !! o = None /\
      e = InvalidScannableBlock "RCT proofs without an encrypted amount per output"
  | _ => e = InvalidScannableBlock "non-miner v2 transaction without RCT proofs"
  end.

Definition unscannable (first : Z) (tx : Transaction Pruned) (o : nat) (output : Output.t) (e : ScanError) : Prop :=
  (Output.amount output = None /\ no_amount tx o e) \/
  (2 ^ 64 <= first + Z.of_nat o /\ e = InvalidScannableBlock "transaction's output's index isn't representable as a u64").

(** *** Every outcome *)

Lemma obind_no_panic {E A B} (m : outcome E A) (k : A -> outcome E B) : no_panic m ->
  (forall a, m = Ok a -> no_panic (k a)) -> no_panic (obind m k).
Proof. destruct m; cbn; auto. Qed.

(** What the scanner relies on not to panic *)
Record scannable (self : t) : Prop := {
  scannable_primitives : Primitives;
  scannable_view : scalar_ok (ViewPair.view_key (pair self))
}.

Context (self : t) (Hself : scannable self).
#[local] Instance scanner_primitives : Primitives := scannable_primitives self Hself.

Lemma decrypt_total {E} d enc : exists c, SharedKeyDerivations.decrypt (E := E) d enc = Ok c.
Proof.
  destruct enc as [m a|a]; cbn [SharedKeyDerivations.decrypt].
  - destruct (hash_total (SharedKeyDerivations.shared_key d)) as [s1 H1]. rewrite H1. cbn [obind].
    destruct (hash_total (Scalar.from s1)) as [s2 H2]. rewrite H2. cbn [obind]. rewrite !scalar_into_from.
    cbn [obind]. unfold SharedKeyDerivations.first_8, len. rewrite (is_array_length _ _ (sc_bytes_array _)). eexists. reflexivity.
  - destruct (mask_total d) as [m Hm]. rewrite Hm. cbn [obind]. unfold SharedKeyDerivations.compact_amount_encryption.
    destruct (first_8_all (SharedKeyDerivations.AMOUNT ++ SharedKeyDerivations.shared_key d)) as (x & Hx & _). rewrite Hx. eexists. reflexivity.
Qed.

Lemma commitment_outcome tx o output d :
  match output_commitment tx o output d with
  | Ok _ => True | Err e => Output.amount output = None /\ no_amount tx o e | Panic => False
  end.
Proof.
  unfold output_commitment, no_amount. destruct (Output.amount output); [exact I|]. destruct tx as [|prefix [proofs|]]; auto.
  destruct (_ !! o) as [enc|]; [|auto]. destruct (decrypt_total (E := ScanError) d enc) as [c Hc]. rewrite Hc. cbn [obind].
  destruct (commit_total c (decrypt_ok _ _ _ Hc)) as [P HP]. rewrite HP. cbn [obind]. destruct (bool_decide _); exact I.
Qed.

Lemma key_offset_total shared sub : exists offset, key_offset self shared sub = Ok offset.
Proof.
  destruct sub as [index|]; [|eexists; reflexivity]. cbn [key_offset]. unfold ViewPair.subaddress_derivation.
  destruct (hash_total (ViewPair.SUB_ADDR ++ ViewPair.view_key (pair self) ++
    to_le 4 (SubaddressIndex.account index) ++ to_le 4 (SubaddressIndex.address index))) as [h Hh].
  rewrite Hh. cbn [obind]. rewrite scalar_into_from. eexists. reflexivity.
Qed.

Lemma payment_id_total (pid : option PaymentId) ecdh : exists id : option PaymentId,
  match pid with
  | None => Ok None
  | Some id => let? xor := SharedKeyDerivations.payment_id_xor (E := ScanError) ecdh in Ok (Some (PaymentId.bitxor id xor))
  end = Ok id.
Proof.
  destruct pid as [id|]; [|eexists; reflexivity]. unfold SharedKeyDerivations.payment_id_xor.
  destruct (first_8_all (SharedKeyDerivations.derivation ecdh ++ [141])) as (m & Hm & _). rewrite Hm. eexists. reflexivity.
Qed.

Lemma arbitrary_total extra : Forall field_ok extra -> exists data, Extra.arbitrary_data (E := ScanError) extra = Ok data.
Proof.
  intros He. unfold Extra.arbitrary_data. assert (Hb : is_bytes (Extra.serialize extra)).
  { unfold Extra.serialize. rewrite write_sorted. apply fields_bytes, forall_sorted, He. }
  set (n := Z.to_nat _). assert (Hb' : is_bytes (take n (Extra.serialize extra))) by (apply Forall_take, Hb).
  destruct (read_loop_total (length (take n (Extra.serialize extra))) [] _ Hb' (Nat.le_refl _)) as (x & rest & Hx & _).
  unfold Extra.read. rewrite Hx. eexists. reflexivity.
Qed.

Lemma extra_id_total extra : Forall field_ok extra -> exists id, Extra.payment_id (E := ScanError) extra = Ok id.
Proof.
  induction 1 as [|f extra Hf _ IH]; [eexists; reflexivity|]. destruct f; try exact IH. cbn [Extra.payment_id].
  destruct Hf as [Hb _]. destruct (codec_safe (r := PaymentId.read) data Hb) as [Hn _].
  destruct (PaymentId.read data) as [[i|e|] rest]; [eexists; reflexivity|eexists; reflexivity|contradiction].
Qed.

(** What [scan_keys] is to return for an output *)
Definition keys_outcome (first : Z) (tx_hash : bytes) (tx : Transaction Pruned) (o : nat) (output : Output.t)
  (keys : list Point) (r : outcome ScanError (option WalletOutput.t)) : Prop :=
  match r with
  | Ok None => forall R d c sub, R ∈ keys -> ~ sent_to self tx o output R d c sub
  | Ok (Some w) => WalletOutput.absolute_id w = AbsoluteId.mk tx_hash (Z.of_nat o) /\
      exists R d c sub, first_to self tx o output keys R d c sub /\
        OutputData.commitment (WalletOutput.data w) = c /\ Metadata.subaddress (WalletOutput.metadata w) = sub
  | Err e => exists R d sub, R ∈ keys /\ made_for self tx o output R d sub /\ unscannable first tx o output e
  | Panic => False
  end.

Lemma keys_outcome_later first tx_hash tx o output key keys r : (forall d c sub, ~ sent_to self tx o output key d c sub) ->
  keys_outcome first tx_hash tx o output keys r -> keys_outcome first tx_hash tx o output (key :: keys) r.
Proof.
  intros Hk. destruct r as [[w|]|e|]; cbn; [| | |auto].
  - intros (Hid & R & d & c & sub & (b & a & -> & Hs & Hb) & Hw). split; [exact Hid|]. exists R, d, c, sub. split; [|exact Hw].
    exists (key :: b), a. split; [reflexivity|]. split; [exact Hs|]. intros R' d' c' sub' [->|H]%elem_of_cons; [apply Hk|exact (Hb _ _ _ _ H)].
  - intros H R d c sub [->|Hin]%elem_of_cons; [apply Hk|exact (H _ _ _ _ Hin)].
  - intros (R & d & sub & Hin & H). exists R, d, sub. split; [right; exact Hin|exact H].
Qed.

Lemma scan_keys_spec first tx_hash tx extra pid o output output_key keys : Forall field_ok extra ->
  CompressedPoint.decompress (Output.key output) = Some output_key -> Output.key output <> CompressedPoint.IDENTITY ->
  keys_outcome first tx_hash tx o output keys (scan_keys self first tx_hash tx extra pid o output output_key keys).
Proof.
  intros He Hd Hni. induction keys as [|key keys IH]; cbn [scan_keys]; [intros R d c sub H; inversion H|].
  destruct (scalar_into_all _ (scannable_view _ Hself)) as (view & Hv & _). rewrite Hv. cbn [obind]. cbv zeta.
  destruct (derivations_total (if guaranteed self then Some (SharedKeyDerivations.uniqueness
    (TransactionPrefix.inputs (Transaction.prefix tx))) else None) (ed_mul view key) (Z.of_nat o)) as (d & s & Hder & Hsk & _).
  rewrite Hder. cbn [obind].
  assert (Hsame : forall d' sub, made_for self tx o output key d' sub -> d' = d).
  { intros d' sub [(v' & Hv' & Hder') _ _ _]. rewrite Hv in Hv'. injection Hv' as <-. rewrite Hder in Hder'. congruence. }
  destruct (match Output.view_tag output with Some _ => _ | None => _ end) eqn:Htag.
  { apply keys_outcome_later; [|exact IH]. intros d' c sub [Hm _]. pose proof (Hsame _ _ Hm) as ->.
    pose proof (for_view_tag _ _ _ _ _ _ _ Hm) as Ht. destruct (Output.view_tag output); [|discriminate].
    subst. rewrite Z.eqb_refl in Htag. discriminate. }
  assert (Hinto : Scalar.into (E := ScanError) (SharedKeyDerivations.shared_key d) = Ok s) by (rewrite Hsk; apply scalar_into_from).
  rewrite Hinto. cbn [obind]. destruct (subaddresses self !! _) as [sub|] eqn:Hl.
  2: { apply keys_outcome_later; [|exact IH]. intros d' c sub [Hm _]. pose proof (Hsame _ _ Hm) as ->.
    destruct (for_key _ _ _ _ _ _ _ Hm) as (P & s' & HP & Hs' & Hk). rewrite Hinto in Hs'. injection Hs' as <-.
    assert (output_key = ed_add P (ed_mul s ED25519_BASEPOINT_POINT)) as ->
      by (apply ed_compress_inj; exact (eq_trans (compress_decompress _ _ Hd) Hk)).
    rewrite ed_add_sub in Hl. unfold Point.compress in *. congruence. }
  assert (Hm : made_for self tx o output key d sub).
  { split; [eauto| |exists (ed_sub output_key (ed_mul s ED25519_BASEPOINT_POINT)), s; split_and!; auto|exact Hni].
    - destruct (Output.view_tag output); [|exact I]. apply negb_false_iff, Z.eqb_eq in Htag. exact Htag.
    - rewrite ed_sub_add. symmetry. exact (compress_decompress _ _ Hd). }
  destruct (key_offset_total s sub) as [offset Ho]. rewrite Ho. cbn [obind].
  pose proof (commitment_outcome tx o output d) as Hc. destruct (output_commitment tx o output d) as [[c|]|e|] eqn:Hoc; cbn [obind].
  - destruct (payment_id_total pid (ed_mul view key)) as [id Hid]. rewrite Hid. cbn [obind].
    destruct (Z.leb_spec (2 ^ 64) (first + Z.of_nat o)); [exists key, d, sub; split; [left|split; [exact Hm|right; auto]]|].
    destruct (arbitrary_total extra He) as [data Ha]. rewrite Ha. cbn [obind]. split; [reflexivity|].
    exists key, d, c, sub. split; [|split; reflexivity]. exists [], keys. split; [reflexivity|]. split; [split; assumption|].
    intros R' d' c' sub' Hin. inversion Hin.
  - apply keys_outcome_later; [|exact IH]. intros d' c sub' [Hm' Hc']. pose proof (Hsame _ _ Hm') as ->. congruence.
  - exists key, d, sub. split; [left|]. split; [exact Hm|left; exact Hc].
  - exact Hc.
Qed.

(** The keys tried for an output *)
Definition keys_for (tx_keys : list Point) (additional : option (list Point)) (o : nat) : list Point :=
  tx_keys ++ match additional with
             | Some additional => match additional !! o with Some key => [key] | None => [] end
             | None => []
             end.

(** What [scan_outputs] is to return *)
Definition outputs_outcome (first : Z) (tx_hash : bytes) (tx : Transaction Pruned) (tx_keys : list Point)
  (additional : option (list Point)) (o : nat) (outputs : list Output.t) (r : outcome ScanError Timelocked.t) : Prop :=
  match r with
  | Ok ws => forall i output, outputs !! i = Some output ->
      (exists R d c sub, R ∈ keys_for tx_keys additional (o + i) /\ sent_to self tx (o + i) output R d c sub) ->
      exists w, w ∈ ws /\ WalletOutput.absolute_id w = AbsoluteId.mk tx_hash (Z.of_nat (o + i)) /\
        exists R d c sub, first_to self tx (o + i) output (keys_for tx_keys additional (o + i)) R d c sub /\
          OutputData.commitment (WalletOutput.data w) = c /\ Metadata.subaddress (WalletOutput.metadata w) = sub
  | Err e => exists i output R d sub, outputs !! i = Some output /\ R ∈ keys_for tx_keys additional (o + i) /\
      made_for self tx (o + i) output R d sub /\ unscannable first tx (o + i) output e
  | Panic => False
  end.

(** The outputs after the first *)
Lemma outputs_outcome_later first tx_hash tx tx_keys additional o output outputs r found :
  (forall R d c sub, R ∈ keys_for tx_keys additional o -> sent_to self tx o output R d c sub ->
     exists w, found = Some w /\ keys_outcome first tx_hash tx o output (keys_for tx_keys additional o) (Ok (Some w))) ->
  outputs_outcome first tx_hash tx tx_keys additional (S o) outputs r ->
  outputs_outcome first tx_hash tx tx_keys additional o (output :: outputs)
    (let? res := r in Ok (match found with Some w => w :: res | None => res end)).
Proof.
  intros Hf. destruct r as [ws|e|]; cbn [obind outputs_outcome]; [| |auto].
  - intros H [|i] x Hi Hs.
    + injection Hi as <-. rewrite Nat.add_0_r in *. destruct Hs as (R & d & c & sub & Hin & Hs).
      destruct (Hf R d c sub Hin Hs) as (w & -> & Hid & Hw). exists w. split; [left|]. auto.
    + rewrite Nat.add_succ_r in *. destruct (H i x Hi Hs) as (w & Hw & Hrest). exists w. split; [|exact Hrest].
      destruct found; [right|]; exact Hw.
  - intros (i & x & R & d & sub & Hi & Hr). exists (S i), x, R, d, sub. rewrite Nat.add_succ_r. split; [exact Hi|exact Hr].
Qed.

Lemma scan_outputs_spec first tx_hash tx extra pid tx_keys additional o outputs : Forall field_ok extra ->
  outputs_outcome first tx_hash tx tx_keys additional o outputs
    (scan_outputs self first tx_hash tx extra pid tx_keys additional o outputs).
Proof.
  intros He. revert o. induction outputs as [|output outputs IH]; intros o; cbn [scan_outputs]; [intros i x Hi; discriminate Hi|].
  assert (Hskip : (forall R d c sub, ~ sent_to self tx o output R d c sub) ->
    outputs_outcome first tx_hash tx tx_keys additional o (output :: outputs)
      (scan_outputs self first tx_hash tx extra pid tx_keys additional (S o) outputs)).
  { intros Hn. pose proof (outputs_outcome_later first tx_hash tx tx_keys additional o output outputs _ None
      (fun R d c sub _ Hs => False_ind _ (Hn R d c sub Hs)) (IH (S o))) as H0.
    destruct (scan_outputs _ _ _ _ _ _ _ _ _ _); exact H0. }
  destruct (bool_decide_reflect (Output.key output = CompressedPoint.IDENTITY)) as [Hni|Hni].
  { apply Hskip. intros R d c sub [Hm _]. exact (for_not_identity _ _ _ _ _ _ _ Hm Hni). }
  destruct (CompressedPoint.decompress (Output.key output)) as [output_key|] eqn:Hd.
  2: { apply Hskip. intros R d c sub [Hm _]. destruct (for_key _ _ _ _ _ _ _ Hm) as (P & s & _ & _ & Hk).
    rewrite Hk, decompress_compress in Hd. discriminate. }
  cbv zeta. change (tx_keys ++ _) with (keys_for tx_keys additional o).
  pose proof (scan_keys_spec first tx_hash tx extra pid o output output_key (keys_for tx_keys additional o) He Hd Hni) as Hk.
  destruct (scan_keys _ _ _ _ _ _ _ _ _ _) as [found|e|]; cbn [obind]; [| |exact Hk].
  - apply outputs_outcome_later; [|apply IH]. intros R d c sub Hin Hs. destruct found as [w|]; [eauto|].
    contradiction (Hk R d c sub Hin Hs).
  - destruct Hk as (R & d & sub & H). exists 0%nat, output, R, d, sub. rewrite Nat.add_0_r. split; [reflexivity|exact H].
Qed.

Lemma scan_transaction_spec first tx_hash tx : is_bytes (TransactionPrefix.extra (Transaction.prefix tx)) ->
  match fst (Extra.read (TransactionPrefix.extra (Transaction.prefix tx))) with
  | Ok extra =>
      match Extra.keys extra with
      | Some (tx_keys, additional) => Transaction.version tx = 2 ->
          outputs_outcome first tx_hash tx tx_keys additional 0 (TransactionPrefix.outputs (Transaction.prefix tx))
            (scan_transaction self first tx_hash tx)
      | None => scan_transaction self first tx_hash tx = Ok []
      end
  | _ => False
  end /\ no_panic (scan_transaction self first tx_hash tx) /\
  (Transaction.version tx <> 2 -> scan_transaction self first tx_hash tx = Ok []).
Proof.
  intros Hb. unfold scan_transaction.
  destruct (read_loop_total _ [] _ Hb (Nat.le_refl _)) as (x & rest & Hx & Hok & _). unfold Extra.read. rewrite Hx. cbn [fst app].
  destruct (Z.eqb_spec (Transaction.version tx) 2) as [Hv|Hv]; cbn [negb].
  - destruct (Extra.keys x) as [[tx_keys additional]|]; [|split_and!; [reflexivity|exact I|contradiction]].
    destruct (extra_id_total x Hok) as [pid Hp]. rewrite Hp. cbn [obind].
    pose proof (scan_outputs_spec first tx_hash tx x pid tx_keys additional 0 (TransactionPrefix.outputs (Transaction.prefix tx)) Hok) as Hs.
    split_and!; [intros _; exact Hs| |contradiction]. destruct (scan_outputs _ _ _ _ _ _ _ _ _ _); [exact I|exact I|exact Hs].
  - split_and!; [|exact I|reflexivity]. destruct (Extra.keys x) as [[tx_keys additional]|]; [contradiction|reflexivity].
Qed.

(** Scanning never panics, whatever the transactions of the block hold: a
    block is scanned, or one of the two errors is returned. *)
Theorem scan_no_panic block :
  is_bytes (TransactionPrefix.extra (Transaction.prefix (Block.miner_transaction (ScannableBlock.block block)))) ->
  Forall (fun tx => is_bytes (TransactionPrefix.extra (Transaction.prefix tx))) (ScannableBlock.transactions block) ->
  no_panic (scan self block).
Proof.
  intros Hm Ht. unfold scan. cbv zeta. destruct (negb _); [exact I|].
  destruct (ScannableBlock.output_index_for_first_ringct_output block) as [first|]; [|exact I].
  destruct (16 <? _); [exact I|]. apply obind_no_panic.
  { destruct (Block.miner_transaction (ScannableBlock.block block)) as [|? []]; exact I. }
  intros miner_hash _. apply obind_no_panic; [|intros; exact I].
  assert (Hall : Forall (fun x => is_bytes (TransactionPrefix.extra (Transaction.prefix (snd x))))
    ((miner_hash, Transaction.into_pruned (Block.miner_transaction (ScannableBlock.block block))) ::
     zip (Block.transactions (ScannableBlock.block block)) (ScannableBlock.transactions block))).
  { constructor.
    - cbn [snd]. destruct (Block.miner_transaction (ScannableBlock.block block)) as [|? []]; exact Hm.
    - apply Forall_forall. intros [h tx] Hin. apply elem_of_zip_r in Hin. exact (proj1 (Forall_forall _ _) Ht tx Hin). }
  revert first Hall. generalize ((miner_hash, Transaction.into_pruned (Block.miner_transaction (ScannableBlock.block block))) ::
     zip (Block.transactions (ScannableBlock.block block)) (ScannableBlock.transactions block)) as txs.
  induction txs as [|[h tx] txs IH]; intros first Hall; cbn [scan_transactions]; [exact I|].
  apply Forall_cons_iff in Hall as [Htx Hall]. apply obind_no_panic; [exact (proj1 (proj2 (scan_transaction_spec first h tx Htx)))|]. intros outs _.
  apply obind_no_panic; [destruct tx; [exact I|cbv zeta; destruct (_ <=? _); exact I]|]. intros next _.
  apply obind_no_panic; [apply IH, Hall|]. intros; exact I.
Qed.

(** C29: an output made for the pair, or for a subaddress registered, is found.
    It's made for the scanner if the shared key is derived from the pair's
    view key and one of the transaction's keys, or the additional key of the
    output, its key is the shared key's point added to a spend key registered,
    its view tag is the one derived; and it's sent to it if the encrypted amount
    opens the commitment as well.  Then scanning the transaction returns it:
    its key offset spends it, and its commitment and its subaddress are those it
    was sent with, by the first of the keys by which it was sent, where there are
    several.  Scanning doesn't panic, and it fails only on an output made for
    the scanner whose encrypted amount the transaction doesn't have, or whose
    index isn't a [u64]: the outputs of others, their keys and their tags make
    it neither fail nor miss any. *)
Theorem scan_complete first tx_hash tx extra tx_keys additional : table_ok self ->
  is_bytes (TransactionPrefix.extra (Transaction.prefix tx)) -> Transaction.version tx = 2 ->
  fst (Extra.read (TransactionPrefix.extra (Transaction.prefix tx))) = Ok extra ->
  Extra.keys extra = Some (tx_keys, additional) ->
  match scan_transaction self first tx_hash tx with
  | Ok ws => forall o output, TransactionPrefix.outputs (Transaction.prefix tx) !! o = Some output ->
      (exists R d c sub, R ∈ keys_for tx_keys additional o /\ sent_to self tx o output R d c sub) ->
      exists w, w ∈ ws /\ found self first tx_hash tx o output w /\
        (exists R d c sub, first_to self tx o output (keys_for tx_keys additional o) R d c sub) /\
        forall R d c sub, first_to self tx o output (keys_for tx_keys additional o) R d c sub ->
          OutputData.commitment (WalletOutput.data w) = c /\ Metadata.subaddress (WalletOutput.metadata w) = sub
  | Err e => exists o output R d sub, TransactionPrefix.outputs (Transaction.prefix tx) !! o = Some output /\
      R ∈ keys_for tx_keys additional o /\ made_for self tx o output R d sub /\ unscannable first tx o output e
  | Panic => False
  end.
Proof.
  intros Ht Hb Hv Hx Hk. destruct (scan_transaction_spec first tx_hash tx Hb) as [Hs _]. rewrite Hx, Hk in Hs. specialize (Hs Hv).
  destruct (scan_transaction self first tx_hash tx) as [ws|e|] eqn:Hscan; [|exact Hs|exact Hs].
  intros o output Ho Hsent. destruct (Hs o output Ho Hsent) as (w & Hw & Hid & R & d & c & sub & Hfirst & Hc & Hsub).
  exists w. split; [exact Hw|]. split.
  - destruct (scan_transaction_found _ _ _ _ _ Ht Hscan) as [Hf _]. destruct (proj1 (list.Forall_forall _ _) Hf w Hw) as (o' & output' & Ho' & Hfound).
    rewrite (found_id _ _ _ _ _ _ _ Hfound) in Hid. injection Hid as Hid. apply Nat2Z.inj in Hid as ->.
    rewrite Ho in Ho'. injection Ho' as <-. exact Hfound.
  - split; [eauto 6|]. intros R' d' c' sub' H. destruct (first_unique _ _ _ _ _ _ _ _ _ _ _ _ _ Hfirst H) as [<- <-]. auto.
Qed.
End Theorems.

Section Witness.
Import Model.

(** A placeholder hash which is never the zero scalar *)
#[local] Instance constant_hash : Keccak := fun _ => repeat 1 32.

Lemma constant_hash_laws : KeccakLaws constant_hash.
Proof. intros bs. decide_now. Qed.

Definition example_pair : ViewPair.t := ViewPair.mk ED25519_BASEPOINT_POINT (Scalar.from sc_ONE).

Definition example_self : InternalScanner.t := InternalScanner.new example_pair false.

(** The shared key is the same for each output. *)
Definition example_key : CompressedPoint :=
  Point.compress (ed_add ED25519_BASEPOINT_POINT
    (ed_mul (sc_from_bytes_mod_order (keccak_digest [])) ED25519_BASEPOINT_POINT)).

Definition example_extra : bytes := Extra.write (Extra.new (Point.compress ED25519_BASEPOINT_POINT) []).

Definition example_prefix : TransactionPrefix.t :=
  TransactionPrefix.mk Timelock.None [Gen 1] [Output.mk (Some 5) example_key None] example_extra.

Definition example_block : ScannableBlock.t :=
  ScannableBlock.mk (Block.mk (BlockHeader.mk 16 16 1 (repeat 0 32) 0) (V2 (P := NotPruned) example_prefix None) []) [] (Some 7).

Definition example_derivations : SharedKeyDerivations.t :=
  SharedKeyDerivations.mk 1 (Scalar.from (sc_from_bytes_mod_order (keccak_digest []))).

Lemma example_table : table_ok example_self.
Proof. apply new_ok. Qed.

Lemma example_scannable : scannable example_self.
Proof.
  split; [split|].
  - intros data. vm_compute. reflexivity.
  - assert (match ed_decompress CompressedPoint.H with Some _ => true | None => false end = true) as H by (vm_compute; reflexivity).
    destruct (ed_decompress _); [eauto|discriminate].
  - apply (scalar_from_ok (DL := dalek_laws)).
Qed.

Lemma scan_sound_witness : exists ws w, InternalScanner.scan example_self example_block = Ok (w :: ws) /\ 7 <= index w < 2 ^ 64.
Proof.
  assert (match InternalScanner.scan example_self example_block with Ok (_ :: _) => true | _ => false end = true) as H
    by (vm_compute; reflexivity).
  destruct (InternalScanner.scan example_self example_block) as [[|w ws]|e|] eqn:Hs; try discriminate H. exists ws, w.
  split; [reflexivity|].
  destruct (scan_sound (DL := dalek_laws) example_self example_block (w :: ws) example_table) as (first & h & Hf & _ & _ & [Ha _] & _);
    [split; reflexivity || discriminate|exact Hs|discriminate|].
  injection Hf as <-. inversion Ha; subst. assumption.
Defined.

Lemma example_block_scannable : scannable_ok example_block.
Proof.
  split; [|split; [constructor|unfold U; cbn; lia]]. split; [split_and!; cbn; decide_now|].
  split; [|split; [reflexivity|split; [constructor|reflexivity]]].
  split; [|exact I]. split; [exact I|].
  split; [|split]; apply vec_ok_intro; try reflexivity.
  - constructor; [cbn; decide_now|constructor].
  - constructor; [|constructor]. split; [exists 5; split; [reflexivity|decide_now]|]. split; decide_now.
  - decide_now.
Qed.

(** Interfaces which answer with the block, and different indexes *)
Definition example_answers (index : Z) : ProvidesUnvalidatedScannableBlocks.t unit :=
  let x := UnvalidatedScannableBlock.mk (ScannableBlock.block example_block) [] (Some index) in
  ProvidesUnvalidatedScannableBlocks.mk unit (fun _ => qret [x]) (fun _ => qret x) (fun _ => qret x).

Lemma example_answers_deserialized index : U 64 index -> ProvidesUnvalidatedScannableBlocks.Deserialized (example_answers index).
Proof.
  intros Hi. assert (Hx : UnvalidatedScannableBlock.ok (UnvalidatedScannableBlock.mk (ScannableBlock.block example_block) [] (Some index))).
  { split; [exact (proj1 example_block_scannable)|]. split; [constructor|exact Hi]. }
  split; intros; apply ensures_ret; [constructor; [|constructor]| |]; exact Hx.
Qed.

(** The block, as scanned of an interface's answer *)
Definition example_get (index : Z) : outcome InterfaceError.t ScannableBlock.t * unit :=
  ProvidesScannableBlocks.scannable_block
    (t := ProvidesScannableBlocks.blanket (ProvidesTransactions.blanket example_transactions) (example_answers index)) (repeat 1 32) tt.

Lemma scan_validated_witness : exists x x' ws ws' s,
  example_get 7 = (Ok x, s) /\ InternalScanner.scan example_self x = Ok ws /\
  example_get 9 = (Ok x', s) /\ InternalScanner.scan example_self x' = Ok ws' /\ ws <> [] /\ ws <> ws' /\
  Block.hash (E := io_error) (ScannableBlock.block x) = Ok (repeat 1 32) /\
  (map unindexed ws = map unindexed ws' \/
   collides (block_inputs (ScannableBlock.block x)) (block_inputs (ScannableBlock.block x')) \/
   (exists h t t' e e', t ∈ scanned x /\ t' ∈ scanned x' /\ shows e h t /\ shows e' h t' /\
      collides (evidence_inputs e t) (evidence_inputs e' t')) \/
   replaced (ScannableBlock.block x) (ScannableBlock.block x') \/ replaced (ScannableBlock.block x') (ScannableBlock.block x)).
Proof.
  assert (Ht : match example_get 7, example_get 9 with
    | (Ok x, _), (Ok x', _) =>
        match InternalScanner.scan example_self x, InternalScanner.scan example_self x' with
        | Ok [w], Ok [w'] => (index w =? 7) && (index w' =? 9) &&
            bool_decide (is_Some (ScannableBlock.output_index_for_first_ringct_output x)) &&
            bool_decide (is_Some (ScannableBlock.output_index_for_first_ringct_output x')) &&
            bool_decide (map Transaction.version (scanned x) = map Transaction.version (scanned x'))
        | _, _ => false
        end
    | _, _ => false
    end = true) by (vm_compute; reflexivity).
  destruct (example_get 7) as [[x|e|] []] eqn:Hg; try discriminate Ht.
  destruct (example_get 9) as [[x'|e|] []] eqn:Hg'; try discriminate Ht.
  destruct (InternalScanner.scan example_self x) as [[|w [|]]|e|] eqn:H1; try discriminate Ht.
  destruct (InternalScanner.scan example_self x') as [[|w' [|]]|e|] eqn:H2; try discriminate Ht.
  apply andb_true_iff in Ht as [[[[Hw Hw']%andb_true_iff Hi%bool_decide_eq_true_1]%andb_true_iff Hi'%bool_decide_eq_true_1]%andb_true_iff Hv%bool_decide_eq_true_1].
  apply Z.eqb_eq in Hw, Hw'.
  exists x, x', [w], [w'], tt. split; [reflexivity|]. split; [exact H1|]. split; [reflexivity|]. split; [exact H2|].
  split; [discriminate|]. split; [intros [= ->]; lia|].
  pose proof (ProvidesTransactions.blanket_laws (DL := dalek_laws) example_transactions example_deserialized) as HT.
  destruct (scan_validated (DL := dalek_laws) (KL := constant_hash_laws) _ (example_answers 7) _ (example_answers 9) example_self (repeat 1 32)
    example_table HT (example_answers_deserialized 7 ltac:(decide_now)) HT (example_answers_deserialized 9 ltac:(decide_now))
    tt x tt [w] Hg H1) as (Hh & _ & H).
  split; [exact Hh|]. exact (H tt x' tt [w'] Hg' H2 Hi Hi' Hv).
Defined.

Lemma register_invariant_witness : exists self, InternalScanner.register_subaddress (E := ScanError) example_self
    (SubaddressIndex.mk 0 1) = Ok self /\ table_ok self.
Proof.
  destruct (register_invariant example_pair false) as (H0 & _ & H).
  assert (match InternalScanner.register_subaddress (E := ScanError) example_self (SubaddressIndex.mk 0 1) with
          Ok _ => true | _ => false end = true) as Hb by (vm_compute; reflexivity).
  destruct (InternalScanner.register_subaddress example_self (SubaddressIndex.mk 0 1)) as [self|e|] eqn:Hr; try discriminate Hb.
  exists self. split; [reflexivity|]. exact (proj1 (H example_self (SubaddressIndex.mk 0 1) self H0 Hr)).
Defined.

Lemma scan_no_panic_witness : no_panic (InternalScanner.scan example_self example_block).
Proof.
  apply (scan_no_panic (DL := dalek_laws) (KL := constant_hash_laws) example_self example_scannable); [decide_now|constructor].
Defined.

Lemma scan_complete_witness : exists ws w,
  InternalScanner.scan_transaction example_self 7 (repeat 2 32) (V2 (P := Pruned) example_prefix None) = Ok ws /\ w ∈ ws /\
  OutputData.commitment (WalletOutput.data w) = Commitment.new (Scalar.from sc_ONE) 5.
Proof.
  assert (fst (Extra.read example_extra) = Ok (Extra.new (Point.compress ED25519_BASEPOINT_POINT) [])) as Hx.
  { vm_compute. reflexivity. }
  assert (Extra.keys (Extra.new (Point.compress ED25519_BASEPOINT_POINT) []) = Some ([ED25519_BASEPOINT_POINT], None)) as Hk.
  { unfold Extra.keys, Extra.new. cbn [Extra.keys_loop]. unfold Extra.key_or_identity.
    rewrite (decompress_compress (DL := dalek_laws)). reflexivity. }
  pose proof (scan_complete (DL := dalek_laws) (KL := constant_hash_laws) example_self example_scannable 7 (repeat 2 32)
    (V2 (P := Pruned) example_prefix None) (Extra.new (Point.compress ED25519_BASEPOINT_POINT) [])
    [ED25519_BASEPOINT_POINT] None example_table ltac:(decide_now) eq_refl Hx Hk) as H.
  assert (match InternalScanner.scan_transaction example_self 7 (repeat 2 32) (V2 (P := Pruned) example_prefix None) with
          Ok _ => true | _ => false end = true) as Hb by (vm_compute; reflexivity).
  destruct (InternalScanner.scan_transaction example_self 7 (repeat 2 32) (V2 example_prefix None)) as [ws|e|] eqn:Hs;
    try discriminate Hb.
  assert (Hsent : sent_to example_self (V2 (P := Pruned) example_prefix None) 0 (Output.mk (Some 5) example_key None)
    ED25519_BASEPOINT_POINT example_derivations (Commitment.new (Scalar.from sc_ONE) 5) None).
  { split; [split|reflexivity].
    - exists sc_ONE. split; [apply (scalar_into_from (DL := dalek_laws))|]. vm_compute. reflexivity.
    - exact I.
    - exists ED25519_BASEPOINT_POINT, (sc_from_bytes_mod_order (keccak_digest [])).
      split; [apply lookup_singleton_eq|]. split; [apply (scalar_into_from (DL := dalek_laws))|]. reflexivity.
    - vm_compute. discriminate. }
  destruct (H 0%nat (Output.mk (Some 5) example_key None) eq_refl) as (w & Hw & _ & _ & Hc);
    [exists ED25519_BASEPOINT_POINT, example_derivations, (Commitment.new (Scalar.from sc_ONE) 5), None; split; [left|exact Hsent]|].
  exists ws, w. split; [reflexivity|]. split; [exact Hw|].
  apply (Hc ED25519_BASEPOINT_POINT example_derivations _ None). exists [], []. split; [reflexivity|]. split; [exact Hsent|].
  intros R' d' c' sub' Hin. inversion Hin.
Defined.
End Witness.
