(* ===== verification/DecoySelection.v ===== *)
(** The selection of decoys ([wallet/src/decoys.rs]).  Floats are IEEE 754
    binary64 numbers as [SpecFloat] computes with them; the generator's [u64]s
    and its samples of the exponentiated gamma distribution ([rand_distr]) are
    operations of a class, of which the theorems assume nothing but the width
    of a [u64].  The interface is a [ProvidesDecoys] which keeps its laws. *)

From Stdlib Require Import ZArith Lia Sorted SpecFloat.
From stdpp Require Import base list strings numbers sorting.
From S2P Require Import Prelude Dalek MoneroIo Ed25519 Transaction Clsag Interface WalletOutput.

Definition DEFAULT_LOCK_WINDOW : nat := 10.
Definition COINBASE_LOCK_WINDOW : Z := 60.
Definition BLOCK_TIME : Z := 120.
Definition RECENT_WINDOW : Z := 15.
Definition BLOCKS_PER_YEAR : nat := Z.to_nat (365 * 24 * 60 * 60 / BLOCK_TIME).

(** ** Floats: [f64] *)

Module F64.
Definition f64 : Type := spec_float.

(** [as f64] of an integer which isn't negative *)
Definition of_int (n : Z) : f64 := binary_normalize 53 1024 n 0 false.
Definition mul : f64 -> f64 -> f64 := SFmul 53 1024.
Definition div : f64 -> f64 -> f64 := SFdiv 53 1024.
Definition sub : f64 -> f64 -> f64 := SFsub 53 1024.
(** [a > b] *)
Definition gt (a b : f64) : bool := SFltb b a.

(** [as u64]: truncates, saturates, and is zero for what isn't a number *)
Definition as_u64 (x : f64) : Z :=
  match x with
  | S754_zero _ | S754_nan => 0
  | S754_infinity sign => if sign then 0 else 2 ^ 64 - 1
  | S754_finite sign m e => if sign then 0 else Z.min (2 ^ 64 - 1) (Z.shiftl (Zpos m) e)
  end.

Lemma as_u64_U x : U 64 (as_u64 x).
Proof.
  unfold U. destruct x as [s|s| |s m e]; cbn [as_u64]; try destruct s; try lia.
  assert (0 <= Z.shiftl (Zpos m) e) by (apply Z.shiftl_nonneg; lia). lia.
Qed.
End F64.

(** The generator: [next_u64], and a sample of [Gamma::new(19.28, 1.0 / 1.61)],
    exponentiated *)
Class DecoyRng (R : Type) := {
  next_u64 : R -> Z * R;
  gamma_age : R -> F64.f64 * R
}.

Class DecoyRngLaws {R} (G : DecoyRng R) : Prop := next_u64_U : forall r, U 64 (fst (next_u64 r)).

Definition TIP_APPLICATION : F64.f64 := F64.of_int (Z.of_nat DEFAULT_LOCK_WINDOW * BLOCK_TIME).

(** ** Selection *)

Definition internal {A} (msg : string) : outcome TransactionsError.t A :=
  Err (TransactionsError.InterfaceError (InterfaceError.InternalError msg)).

(** [sort_by_key] *)
Definition sort_by_key {A} (key : A -> Z) (l : list A) : list A := sort_by (fun a b => key a <? key b) l.

(** [partition_point], on a partitioned slice *)
Fixpoint partition_point {A} (pred : A -> bool) (l : list A) : nat :=
  match l with a :: l => if pred a then S (partition_point pred l) else O | [] => O end.

(** [binary_search], on a sorted slice without repetition *)
Fixpoint search (x : Z) (l : list Z) : option nat :=
  match l with y :: l => if y =? x then Some O else S <$> search x l | [] => None end.

Section Select.
Context {D : Dalek} {R : Type} {G : DecoyRng R}.

(** Outputs per second *)
Definition per_second (distribution : list Z) : outcome TransactionsError.t F64.f64 :=
  let blocks := Nat.min (length distribution) BLOCKS_PER_YEAR in
  let? initial := expect (distribution !! (length distribution - (blocks + 1))%nat) in
  let? last := expect (distribution !! (length distribution - 1)%nat) in
  let outputs := Z.max 0 (last - initial) in
  Ok (F64.div (F64.of_int outputs) (F64.of_int (Z.of_nat blocks * BLOCK_TIME))).

Definition index_on_blockchain (output : WalletOutput.t) : Z :=
  RelativeId.index_on_blockchain (WalletOutput.relative_id output).

(** One sample: how many outputs before the bound it is *)
Definition sample_output (per_second : F64.f64) (rng : R) : Z * R :=
  let (age, rng) := gamma_age rng in
  let (age, rng) :=
    if F64.gt age TIP_APPLICATION then (F64.sub age TIP_APPLICATION, rng)
    else let (x, rng) := next_u64 rng in (F64.of_int (x mod (RECENT_WINDOW * BLOCK_TIME)), rng) in
  (F64.as_u64 (F64.mul age per_second), rng).

Section Loops.
Context (distribution : list Z) (highest_output_exclusive_bound : Z) (per_second : F64.f64) (max_iters : nat).

(** The body of the inner loop after the check for an infinite loop: the
    candidates and the outputs not to select, a [HashSet] into which only what
    it doesn't contain is inserted *)
Definition select_candidate (rng : R) (candidates : list Z) (do_not_select : list Z)
  : outcome TransactionsError.t (list Z * list Z * R) :=
  let (o, rng) := sample_output per_second rng in
  if o <? highest_output_exclusive_bound then
    let i := partition_point (fun s => s <? highest_output_exclusive_bound - 1 - o) distribution in
    let? prev_outputs :=
      match i with O => Ok 0 | S prev_block => expect (distribution !! prev_block) end in
    let? outputs := expect (distribution !! i) in
    if outputs <? prev_outputs then internal "RPC returned non-monotonic distribution"
    else
      let n := outputs - prev_outputs in
      if n =? 0 then Ok (candidates, do_not_select, rng)
      else
        let (x, rng) := next_u64 rng in
        let o := prev_outputs + x mod n in
        if bool_decide (o ∈ do_not_select) then Ok (candidates, do_not_select, rng)
        else Ok (candidates ++ [o], o :: do_not_select, rng)
  else Ok (candidates, do_not_select, rng).

(** The inner loop *)
Fixpoint fill_candidates (fuel : nat) (remaining : nat) (rng : R) (candidates : list Z) (do_not_select : list Z)
  (iters : nat) : outcome TransactionsError.t (list Z * list Z * nat * R) :=
  match fuel with
  | O => Panic
  | S fuel =>
      if (length candidates =? remaining)%nat then Ok (candidates, do_not_select, iters, rng)
      else
        let iters := S iters in
        if (iters =? max_iters)%nat then internal "hit decoy selection round limit"
        else if highest_output_exclusive_bound <? Z.of_nat (length do_not_select) then Panic
        else if highest_output_exclusive_bound - Z.of_nat (length do_not_select) <? Z.of_nat (remaining - length candidates)
        then internal "hit decoy selection round limit"
        else
          let? (candidates, do_not_select, rng) := select_candidate rng candidates do_not_select in
          fill_candidates fuel remaining rng candidates do_not_select iters
  end.

Definition different_view {A} : outcome TransactionsError.t A :=
  Err (TransactionsError.InterfaceError
         (InterfaceError.InvalidInterface "node presented different view of output we're trying to spend")).

(** The loop over the outputs the interface returned, the [i]th first *)
Fixpoint take_unlocked (output_being_spent : WalletOutput.t) (candidates : list Z) (real_index : option nat) (i : nat)
  (outputs : list (option (Point * Point))) (res : list (Z * (Point * Point)))
  : outcome TransactionsError.t (list (Z * (Point * Point))) :=
  match outputs with
  | [] => Ok res
  | output :: outputs =>
      if match real_index with Some real_index => (real_index =? i)%nat | None => false end then
        match output with
        | Some (key, output_commitment) =>
            if Point.eqb (OutputData.key (WalletOutput.data output_being_spent)) key then
              let? commitment := Commitment.commit (OutputData.commitment (WalletOutput.data output_being_spent)) in
              if Point.eqb commitment output_commitment
              then take_unlocked output_being_spent candidates real_index (S i) outputs res
              else different_view
            else different_view
        | None => different_view
        end
      else
        match output with
        | None => take_unlocked output_being_spent candidates real_index (S i) outputs res
        | Some (key, commitment) =>
            if negb (ed_is_torsion_free key && ed_is_torsion_free commitment)
            then take_unlocked output_being_spent candidates real_index (S i) outputs res
            else if ed_is_identity key then take_unlocked output_being_spent candidates real_index (S i) outputs res
            else
              let? candidate := expect (candidates !! i) in
              take_unlocked output_being_spent candidates real_index (S i) outputs (res ++ [(candidate, (key, commitment))])
        end
  end.

Section Selection.
Context {S : Type} (rpc : ProvidesDecoys.t S) (block_number : Z) (output_being_spent : WalletOutput.t) (decoy_count : nat)
  (fingerprintable_deterministic : bool).

(** The outer loop *)
Fixpoint select_loop (fuel : nat) (rng : R) (do_not_select : list Z) (first_iter : bool) (iters : nat)
  (res : list (Z * (Point * Point))) : query S TransactionsError.t (list (Z * (Point * Point)) * R) :=
  match fuel with
  | O => qlift Panic
  | Datatypes.S fuel =>
      if (length res =? decoy_count)%nat then qret (res, rng)
      else
        let! remaining :=
          qlift (if (decoy_count <? length res)%nat then Panic else Ok (decoy_count - length res)%nat) in
        let! (candidates, do_not_select, iters, rng) := qlift (fill_candidates max_iters remaining rng [] do_not_select iters) in
        let! (candidates, real_index) :=
          if first_iter then
            let candidates := sort_by_key id (candidates ++ [index_on_blockchain output_being_spent]) in
            let! real_index := qlift (expect (search (index_on_blockchain output_being_spent) candidates)) in
            qret (candidates, Some real_index)
          else qret (candidates, None) in
        let! outputs :=
          ProvidesDecoys.unlocked_ringct_outputs candidates
            (if fingerprintable_deterministic then FingerprintableDeterministic block_number else EvaluateNormal) in
        let! res := qlift (take_unlocked output_being_spent candidates real_index 0 outputs res) in
        select_loop fuel rng do_not_select false iters res
  end.
End Selection.
End Loops.

Section Select.
Context {S : Type} (rpc : ProvidesDecoys.t S).

(** [10 * usize::from(ring_len)], as built when not testing *)
Definition max_iters (ring_len : Z) : nat := 10 * Z.to_nat ring_len.

Definition select_n (rng : R) (block_number : Z) (output_being_spent : WalletOutput.t) (ring_len : Z)
  (fingerprintable_deterministic : bool) : query S TransactionsError.t (list (Z * (Point * Point)) * R) :=
  if block_number <=? Z.of_nat DEFAULT_LOCK_WINDOW then qlift (internal "not enough blocks to select decoys")
  else
    let! latest := qmap_err TransactionsError.InterfaceError (ProvidesBlockchainMeta.latest_block_number
                     (t := ProvidesDecoys.decoys_meta)) in
    if latest <? block_number then qlift (internal "decoys being requested from blocks this node doesn't have")
    else
      let! distribution := qmap_err TransactionsError.InterfaceError
                             (ProvidesDecoys.ringct_output_distribution (Unbounded, Included block_number)) in
      if (length distribution <? DEFAULT_LOCK_WINDOW)%nat then qlift (internal "not enough blocks to select decoys")
      else
        let! highest_output_exclusive_bound := qlift (expect (distribution !! (length distribution - DEFAULT_LOCK_WINDOW)%nat)) in
        if Z.max 0 (highest_output_exclusive_bound - COINBASE_LOCK_WINDOW) <? ring_len
        then qlift (internal "not enough decoy candidates")
        else
          let! per_second := qlift (per_second distribution) in
          let! decoy_count := qlift (if ring_len <? 1 then Panic else Ok (Z.to_nat (ring_len - 1))) in
          select_loop distribution highest_output_exclusive_bound per_second (max_iters ring_len) rpc block_number
            output_being_spent decoy_count fingerprintable_deterministic (Datatypes.S (max_iters ring_len)) rng
            [index_on_blockchain output_being_spent] true 0 [].

(** The offsets of positions, whose subtractions panic when they underflow *)
Fixpoint offsets_of {E} (prior : Z) (positions : list Z) : outcome E (list Z) :=
  match positions with
  | [] => Ok []
  | position :: positions =>
      if position <? prior then Panic
      else
        let? offsets := offsets_of position positions in
        Ok ((position - prior) :: offsets)
  end.

Definition select_decoys (rng : R) (ring_len block_number : Z) (input : WalletOutput.t)
  (fingerprintable_deterministic : bool) : query S TransactionsError.t (Decoys.t * R) :=
  if ring_len =? 0 then qlift (internal "requesting a ring of length 0")
  else
    let! (decoys, rng) := select_n rng block_number input ring_len fingerprintable_deterministic in
    let! commitment := qlift (Commitment.commit (OutputData.commitment (WalletOutput.data input))) in
    let ring := sort_by_key fst (decoys ++ [(index_on_blockchain input, (OutputData.key (WalletOutput.data input), commitment))]) in
    let! offsets := qlift (offsets_of 0 (map fst ring)) in
    let signer_index := Z.of_nat (partition_point (fun x => fst x <? index_on_blockchain input) ring) in
    let! signer_index := qlift (if 255 <? signer_index then Panic else Ok signer_index) in
    let! decoys := qlift (expect (Decoys.new offsets signer_index (map snd ring))) in
    qret (decoys, rng).
End Select.
End Select.

(** [struct OutputWithDecoys] *)
Module OutputWithDecoys.
Section Ops.
Context {D : Dalek}.
Record t := mk { output : OutputData.t; decoys : Decoys.t }.

(** [write], also [serialize] *)
Definition write (self : t) : bytes := OutputData.write (output self) ++ Decoys.write (decoys self).

Definition read : io_reader t :=
  let* output := OutputData.read in
  let* decoys := Decoys.read in
  rret (mk output decoys).

Definition decoys_eqb (a b : Decoys.t) : bool :=
  bool_decide (Decoys.offsets a = Decoys.offsets b) && (Decoys.signer_index a =? Decoys.signer_index b) &&
  (length (Decoys.ring a) =? length (Decoys.ring b))%nat &&
  forallb (fun x => Point.eqb (fst (fst x)) (fst (snd x)) && Point.eqb (snd (fst x)) (snd (snd x)))
    (zip (Decoys.ring a) (Decoys.ring b)).

(** [eq] *)
Definition eqb (self other : t) : bool := OutputData.eqb (output self) (output other) && decoys_eqb (decoys self) (decoys other).

Context {R : Type} {G : DecoyRng R} {S : Type} (rpc : ProvidesDecoys.t S).

Definition new (rng : R) (ring_len block_number : Z) (output : WalletOutput.t) : query S TransactionsError.t (t * R) :=
  let! (decoys, rng) := select_decoys rpc rng ring_len block_number output false in
  qret (mk (WalletOutput.data output) decoys, rng).

Definition fingerprintable_deterministic_new (rng : R) (ring_len block_number : Z) (output : WalletOutput.t)
  : query S TransactionsError.t (t * R) :=
  let! (decoys, rng) := select_decoys rpc rng ring_len block_number output true in
  qret (mk (WalletOutput.data output) decoys, rng).
End Ops.
End OutputWithDecoys.

(** ** Sorting and searching *)

Section Sorting.
Context {A : Type} (key : A -> Z).

Definition sorted_by (l : list A) : Prop := StronglySorted (fun a b => key a <= key b) l.

Lemma sort_by_key_sorted l : sorted_by (sort_by_key key l).
Proof. apply sort_by_sorted; [lia|]. intros a b. destruct (Z.ltb_spec (key a) (key b)); lia. Qed.

Lemma sort_by_key_perm l : sort_by_key key l ≡ₚ l.
Proof. apply sort_by_perm. Qed.

(** Keys which don't repeat increase strictly. *)
Lemma sorted_strict l : sorted_by l -> NoDup (map key l) -> StronglySorted (fun a b => key a < key b) l.
Proof.
  induction 1 as [|a l Hl IH Ha]; intros Hn; [constructor|]. cbn in Hn. apply NoDup_cons in Hn as [Hni Hn].
  constructor; [exact (IH Hn)|]. apply Forall_forall. intros b Hb. rewrite Forall_forall in Ha. specialize (Ha b Hb).
  assert (key a <> key b); [|lia]. intros He. apply Hni. rewrite He. apply list_elem_of_fmap_2, Hb.
Qed.

Lemma partition_point_spec l a : StronglySorted (fun a b => key a < key b) l -> a ∈ l ->
  l !! partition_point (fun x => key x <? key a) l = Some a.
Proof.
  induction 1 as [|b l Hl IH Hb]; intros Hin; [inversion Hin|]. cbn [partition_point]. rewrite Forall_forall in Hb.
  apply elem_of_cons in Hin as [->|Hin].
  - rewrite Z.ltb_irrefl. reflexivity.
  - rewrite (proj2 (Z.ltb_lt _ _) (Hb a Hin)). exact (IH Hin).
Qed.
End Sorting.

Lemma partition_point_le {A} (pred : A -> bool) l : (partition_point pred l <= length l)%nat.
Proof. induction l as [|a l IH]; cbn; [lia|]. destruct (pred a); lia. Qed.

(** The partition point is before what doesn't satisfy the predicate. *)
Lemma partition_point_lt {A} (pred : A -> bool) l i a : l !! i = Some a -> pred a = false -> (partition_point pred l <= i)%nat.
Proof.
  revert i. induction l as [|b l IH]; intros [|i] Hi Hp; try discriminate; cbn in *.
  - injection Hi as ->. rewrite Hp. lia.
  - destruct (pred b); [|lia]. specialize (IH i Hi Hp). lia.
Qed.

Lemma search_spec x l : x ∈ l -> exists i, search x l = Some i /\ l !! i = Some x.
Proof.
  induction l as [|y l IH]; intros Hin; [inversion Hin|]. cbn [search].
  destruct (Z.eqb_spec y x) as [->|Hne]; [exists 0%nat; auto|]. apply elem_of_cons in Hin as [->|Hin]; [contradiction|].
  destruct (IH Hin) as (i & -> & Hi). exists (S i). auto.
Qed.

Lemma monotone_le lo l i x : ProvidesDecoys.monotone_from lo l -> l !! i = Some x -> lo <= x.
Proof.
  revert lo i. induction l as [|d l IH]; intros lo [|i] Hm Hi; try discriminate; destruct Hm as [Hd Hm].
  - injection Hi as <-. exact Hd.
  - specialize (IH d i Hm Hi). lia.
Qed.

Lemma monotone_lookup lo l i j x y : ProvidesDecoys.monotone_from lo l -> (i <= j)%nat -> l !! i = Some x -> l !! j = Some y -> x <= y.
Proof.
  revert lo i j. induction l as [|d l IH]; intros lo [|i] [|j] Hm Hij Hi Hj; try discriminate; try lia; destruct Hm as [Hd Hm].
  - cbn in Hi, Hj. assert (x = y) by congruence. lia.
  - injection Hi as <-. exact (monotone_le d l j y Hm Hj).
  - exact (IH d i j Hm ltac:(lia) Hi Hj).
Qed.

(** ** The loops *)

Section Loops.
Context {D : Dalek} {DL : DalekLaws D} {R : Type} {G : DecoyRng R} {GL : DecoyRngLaws G}.
Context (distribution : list Z) (bound : Z) (per_second : F64.f64) (max_iters : nat).
Context (Hmono : ProvidesDecoys.monotone_from 0 distribution) (back : nat).
Context (Hbound : distribution !! back = Some bound).

(** What the inner loop keeps of the candidates found since [dns0] *)
Record selecting (dns0 candidates dns : list Z) : Prop := {
  selecting_dns : dns ≡ₚ candidates ++ dns0;
  selecting_nodup : NoDup candidates;
  selecting_fresh : forall o, o ∈ candidates -> (o ∉ dns0) /\ 0 <= o < bound;
  selecting_size : Z.of_nat (length dns) <= bound
}.

Lemma select_candidate_spec rng dns0 candidates dns : selecting dns0 candidates dns -> Z.of_nat (length dns) < bound ->
  match select_candidate distribution bound per_second rng candidates dns with
  | Ok (candidates', dns', _) =>
      selecting dns0 candidates' dns' /\ (length candidates' <= S (length candidates))%nat
  | Err _ => True
  | Panic => False
  end.
Proof.
  intros Hs Hsize. unfold select_candidate. destruct (sample_output per_second rng) as [o rng'] eqn:Ho.
  assert (HU : 0 <= o).
  { unfold sample_output in Ho. destruct (gamma_age rng) as [age r]. destruct (if F64.gt age TIP_APPLICATION then _ else _) as [a r'].
    injection Ho as <- _. apply F64.as_u64_U. }
  destruct (Z.ltb_spec o bound) as [Hlt|]; [|split; [exact Hs|lia]].
  set (i := partition_point _ distribution).
  assert (Hi : (i <= back)%nat).
  { apply (partition_point_lt _ _ back bound Hbound). apply Z.ltb_ge. lia. }
  pose proof (lookup_lt_Some _ _ _ Hbound) as Hback.
  destruct (lookup_lt_is_Some_2 distribution i ltac:(lia)) as [outputs Hout].
  pose proof (monotone_lookup _ _ _ _ _ _ Hmono Hi Hout Hbound) as Hle.
  assert (Hprev : exists prev, match i with O => Ok (E := TransactionsError.t) 0 | S p => expect (distribution !! p) end = Ok prev /\
                               0 <= prev <= outputs).
  { destruct i as [|p]; [exists 0; split; [reflexivity|]; pose proof (monotone_le _ _ _ _ Hmono Hout); lia|].
    destruct (lookup_lt_is_Some_2 distribution p ltac:(lia)) as [prev Hp]. exists prev. rewrite Hp. split; [reflexivity|].
    pose proof (monotone_le _ _ _ _ Hmono Hp). pose proof (monotone_lookup _ _ p (S p) _ _ Hmono ltac:(lia) Hp Hout). lia. }
  destruct Hprev as (prev & -> & Hpr). rewrite Hout. cbn [obind expect].
  destruct (Z.ltb_spec outputs prev); [lia|]. destruct (Z.eqb_spec (outputs - prev) 0); [split; [exact Hs|lia]|].
  destruct (next_u64 rng') as [x rng''] eqn:Hx. pose proof (next_u64_U rng') as HxU. rewrite Hx in HxU. cbn [fst] in HxU.
  pose proof (Z.mod_pos_bound x (outputs - prev) ltac:(lia)). set (new := prev + x mod (outputs - prev)).
  case_bool_decide as Hin; [split; [exact Hs|lia]|]. split; [|rewrite length_app; cbn; lia].
  destruct Hs as [Hd Hn Hf Hz]. split.
  - rewrite Hd, <- app_assoc. cbn. rewrite Permutation_middle. reflexivity.
  - rewrite Hd, not_elem_of_app in Hin. apply NoDup_app. split; [exact Hn|].
    split; [|apply NoDup_singleton]. intros y Hy Hy'. apply list_elem_of_singleton in Hy' as ->. tauto.
  - rewrite Hd, not_elem_of_app in Hin. intros y Hy. apply elem_of_app in Hy as [Hy|Hy]; [exact (Hf y Hy)|].
    apply list_elem_of_singleton in Hy as ->. split; [tauto|unfold new; lia].
  - cbn [length]. lia.
Qed.

(** The inner loop fills the candidates or hits the limit on iterations. *)
Lemma fill_candidates_spec fuel remaining dns0 rng candidates dns iters : selecting dns0 candidates dns ->
  (length candidates <= remaining)%nat -> (iters < max_iters)%nat -> (max_iters - iters <= fuel)%nat ->
  match fill_candidates distribution bound per_second max_iters fuel remaining rng candidates dns iters with
  | Ok (candidates', dns', iters', _) =>
      selecting dns0 candidates' dns' /\ length candidates' = remaining /\ (iters' < max_iters)%nat /\
      (remaining - length candidates <= iters' - iters)%nat /\ (iters <= iters')%nat
  | Err _ => True
  | Panic => False
  end.
Proof.
  revert rng candidates dns iters. induction fuel as [|fuel IH]; intros rng candidates dns iters Hs Hl Hi Hf; [lia|].
  cbn [fill_candidates]. destruct (Nat.eqb_spec (length candidates) remaining) as [He|Hne].
  { split; [exact Hs|]. lia. }
  destruct (Nat.eqb_spec (S iters) max_iters); [exact I|].
  pose proof (selecting_size _ _ _ Hs) as Hz. destruct (Z.ltb_spec bound (Z.of_nat (length dns))); [lia|].
  destruct (Z.ltb_spec (bound - Z.of_nat (length dns)) (Z.of_nat (remaining - length candidates))); [exact I|].
  pose proof (select_candidate_spec rng dns0 candidates dns Hs ltac:(lia)) as Hc.
  destruct (select_candidate _ _ _ _ _ _) as [[[c d] r]|e|]; [|exact I|exact Hc]. cbn [obind]. destruct Hc as [Hs' Hl'].
  specialize (IH r c d (S iters) Hs' ltac:(lia) ltac:(lia) ltac:(lia)).
  destruct (fill_candidates _ _ _ _ _ _ _ _ _ _) as [[[[c' d'] it'] r']|e|]; [|exact I|exact IH].
  destruct IH as (H1 & H2 & H3 & H4 & H5). split_and!; auto; lia.
Qed.
End Loops.

(** *** The outputs returned *)

(** The candidates from the [i]th on, the real one aside *)
Fixpoint others (real_index : option nat) (i : nat) (candidates : list Z) : list Z :=
  match candidates with
  | [] => []
  | c :: candidates =>
      if bool_decide (real_index = Some i) then others real_index (S i) candidates
      else c :: others real_index (S i) candidates
  end.

Lemma others_none i l : others None i l = l.
Proof. revert i. induction l as [|c l IH]; intros i; cbn; [reflexivity|]. f_equal. apply IH. Qed.

Lemma others_after r i l : (r < i)%nat -> others (Some r) i l = l.
Proof.
  revert i. induction l as [|c l IH]; intros i Hi; cbn [others]; [reflexivity|].
  rewrite bool_decide_eq_false_2 by (intros [= ->]; lia). f_equal. apply IH. lia.
Qed.

(** The candidates without repetition are the real one and the others. *)
Lemma others_perm r i l x : (i <= r)%nat -> (l !! (r - i)%nat = Some x) -> l ≡ₚ x :: others (Some r) i l.
Proof.
  revert i. induction l as [|c l IH]; intros i Hi Hl; [discriminate|]. cbn [others].
  destruct (decide (r = i)) as [->|Hne].
  - rewrite Nat.sub_diag in Hl. injection Hl as ->. rewrite bool_decide_eq_true_2 by reflexivity.
    rewrite others_after by lia. reflexivity.
  - rewrite bool_decide_eq_false_2 by congruence. replace (r - i)%nat with (S (r - S i)) in Hl by lia.
    rewrite (IH (S i) ltac:(lia) Hl) at 1. apply Permutation_swap.
Qed.

Section Unlocked.
Context {D : Dalek} {DL : DalekLaws D}.

(** A ring member which may be signed for *)
Definition member_ok (m : Point * Point) : Prop :=
  ed_is_torsion_free (fst m) = true /\ ed_is_torsion_free (snd m) = true /\ fst m <> ed_identity.

(** The commitment of an output doesn't panic. *)
Definition commits (output : WalletOutput.t) (C : Point) : Prop :=
  forall E, Commitment.commit (E := E) (OutputData.commitment (WalletOutput.data output)) = Ok C.

Lemma take_unlocked_spec input C candidates real_index outputs i res : commits input C ->
  (i + length outputs = length candidates)%nat ->
  match take_unlocked input candidates real_index i outputs res with
  | Ok res' =>
      exists new, res' = res ++ new /\ map fst new `sublist_of` others real_index i (drop i candidates) /\
                  Forall (fun x => member_ok (snd x)) new
  | Err _ => True
  | Panic => False
  end.
Proof.
  intros HC. revert i res. induction outputs as [|output outputs IH]; intros i res Hl; cbn [take_unlocked].
  - exists []. rewrite app_nil_r. split; [reflexivity|]. split; [apply sublist_nil_l|constructor].
  - cbn in Hl. destruct (lookup_lt_is_Some_2 candidates i ltac:(lia)) as [c Hc].
    rewrite (drop_S candidates c i Hc). cbn [others].
    assert (Hskip : forall real, match take_unlocked input candidates real_index (S i) outputs res with
      | Ok res' => exists new, res' = res ++ new /\ map fst new `sublist_of`
          (if real : bool then others real_index (S i) (drop (S i) candidates)
           else c :: others real_index (S i) (drop (S i) candidates)) /\ Forall (fun x => member_ok (snd x)) new
      | Err _ => True | Panic => False end).
    { intros real. specialize (IH (S i) res ltac:(lia)). destruct (take_unlocked _ _ _ _ _ _); [|exact I|exact IH].
      destruct IH as (new & H1 & H2 & H3). exists new. split; [exact H1|]. split; [|exact H3].
      destruct real; [exact H2|apply sublist_cons, H2]. }
    assert (Hreal : match real_index with Some r => (r =? i)%nat | None => false end = bool_decide (real_index = Some i)).
    { destruct real_index as [r|]; [|reflexivity]. destruct (Nat.eqb_spec r i) as [->|Hne].
      - rewrite bool_decide_eq_true_2; reflexivity.
      - rewrite bool_decide_eq_false_2; [reflexivity|congruence]. }
    rewrite Hreal. destruct (bool_decide (real_index = Some i)).
    + destruct output as [[k oc]|]; [|exact I]. destruct (Point.eqb _ k); [|exact I]. rewrite HC. cbn [obind].
      destruct (Point.eqb C oc); [|exact I]. exact (Hskip true).
    + destruct output as [[k oc]|]; [|exact (Hskip false)].
      destruct (ed_is_torsion_free k && ed_is_torsion_free oc) eqn:Hf; cbn [negb]; [|exact (Hskip false)].
      destruct (ed_is_identity k) eqn:Hid; [exact (Hskip false)|]. rewrite Hc. cbn [expect obind].
      specialize (IH (S i) (res ++ [(c, (k, oc))]) ltac:(lia)). destruct (take_unlocked _ _ _ _ _ _); [|exact I|exact IH].
      destruct IH as (new & -> & H2 & H3). exists ((c, (k, oc)) :: new). rewrite <- app_assoc. split; [reflexivity|].
      split; [apply sublist_skip, H2|]. constructor; [|exact H3]. apply andb_prop in Hf as [Hf1 Hf2]. split_and!; auto.
      cbn. intros ->. rewrite (proj2 (ed_is_identity_spec ed_identity) eq_refl) in Hid. discriminate.
Qed.
End Unlocked.

(** *** Selecting *)

Section Selecting.
Context {D : Dalek} {DL : DalekLaws D} {R : Type} {G : DecoyRng R} {GL : DecoyRngLaws G}.
Context {S : Type} (rpc : ProvidesDecoys.t S) (Hrpc : ProvidesDecoys.Laws rpc).
Context (input : WalletOutput.t) (C : Point) (HC : commits input C).

(** The decoys found so far *)
Record decoys_found (bound : Z) (decoy_count : nat) (dns : list Z) (res : list (Z * (Point * Point))) : Prop := {
  found_nodup : NoDup (map fst res);
  found_excluded : forall x, x ∈ map fst res -> x ∈ dns /\ x <> index_on_blockchain input /\ 0 <= x < bound;
  found_members : Forall (fun x => member_ok (snd x)) res;
  found_length : (length res <= decoy_count)%nat
}.

Section Loop.
Context (distribution : list Z) (bound : Z) (per_second : F64.f64) (max_iters : nat).
Context (Hmono : ProvidesDecoys.monotone_from 0 distribution) (back : nat).
Context (Hbound : distribution !! back = Some bound).
Context (block_number : Z) (decoy_count : nat) (deterministic : bool).

(** The decoys found so far, with those of an iteration *)
Lemma decoys_found_app dns res candidates dns' chosen new :
  decoys_found bound decoy_count dns res -> selecting bound dns candidates dns' -> index_on_blockchain input ∈ dns ->
  map fst new `sublist_of` chosen -> chosen ⊆ candidates -> NoDup chosen ->
  Forall (fun x => member_ok (snd x)) new -> (length res + length chosen <= decoy_count)%nat ->
  decoys_found bound decoy_count dns' (res ++ new).
Proof.
  intros Hf Hs Hx Hsub Hc Hn Hm Hl. destruct Hf as [H1 H2 H3 H4], Hs as [Hd Hn' Hfr Hz].
  assert (Hin : forall x, x ∈ map fst new -> x ∈ candidates).
  { intros x Hxn. apply Hc. exact (elem_of_sublist _ _ _ Hxn Hsub). }
  split.
  - rewrite map_app. apply NoDup_app. split; [exact H1|]. split; [|exact (sublist_NoDup _ _ Hn Hsub)].
    intros x Hx1 Hx2. destruct (Hfr x (Hin x Hx2)) as [Hni _]. apply Hni, H2, Hx1.
  - intros x. rewrite map_app, elem_of_app. intros [Hxr|Hxn].
    + destruct (H2 x Hxr) as (Ha & Hb & Hcc). split; [|auto]. rewrite Hd. apply elem_of_app. auto.
    + destruct (Hfr x (Hin x Hxn)) as [Hni Hb]. split; [rewrite Hd; apply elem_of_app; left; apply Hin, Hxn|].
      split; [|exact Hb]. intros ->. apply Hni, Hx.
  - apply Forall_app. auto.
  - rewrite length_app. apply sublist_length in Hsub. rewrite length_map in Hsub. lia.
Qed.

Lemma selecting_start dns : Z.of_nat (length dns) <= bound -> selecting bound dns [] dns.
Proof.
  intros Hz. split; [reflexivity|constructor| |exact Hz].
  intros o Ho. inversion Ho.
Qed.

(** In the first iteration, the output being spent is among the candidates;
    the others are those selected. *)
Lemma first_query E candidates : exists r,
  (expect (E := E) (search (index_on_blockchain input) (sort_by_key id (candidates ++ [index_on_blockchain input]))) = Ok r) /\
  others (Some r) 0 (sort_by_key id (candidates ++ [index_on_blockchain input])) ≡ₚ candidates.
Proof.
  set (x := index_on_blockchain input). pose proof (sort_by_key_perm id (candidates ++ [x])) as Hp.
  destruct (search_spec x (sort_by_key id (candidates ++ [x]))) as (r & Hr & Hl).
  { rewrite Hp. apply elem_of_app. right. apply list_elem_of_singleton. reflexivity. }
  exists r. rewrite Hr. split; [reflexivity|]. apply (Permutation_cons_inv (a := x)).
  rewrite <- (others_perm r 0 _ x ltac:(lia)) by (rewrite Nat.sub_0_r; exact Hl). rewrite Hp, Permutation_app_comm. reflexivity.
Qed.

Lemma select_loop_spec fuel rng dns first_iter iters res :
  decoys_found bound decoy_count dns res -> index_on_blockchain input ∈ dns -> Z.of_nat (length dns) <= bound ->
  (iters < max_iters)%nat -> (max_iters - iters <= fuel)%nat ->
  ensures (select_loop distribution bound per_second max_iters rpc block_number input decoy_count deterministic
             fuel rng dns first_iter iters res)
    (fun r => exists dns', decoys_found bound decoy_count dns' (fst r) /\ length (fst r) = decoy_count).
Proof.
  revert rng dns first_iter iters res. induction fuel as [|fuel IH]; intros rng dns first_iter iters res Hf Hx Hz Hi Hfu; [lia|].
  cbn [select_loop]. destruct (Nat.eqb_spec (length res) decoy_count) as [He|Hne].
  { apply ensures_ret. exists dns. auto. }
  pose proof (found_length _ _ _ _ Hf) as Hl. apply (ensures_bind (eq (decoy_count - length res)%nat)).
  { apply ensures_lift. destruct (Nat.ltb_spec decoy_count (length res)); [lia|reflexivity]. }
  intros remaining <-. pose proof (fill_candidates_spec distribution bound per_second max_iters Hmono back Hbound max_iters
    (decoy_count - length res) dns rng [] dns iters (selecting_start dns Hz) ltac:(cbn; lia) Hi ltac:(lia)) as Hfill.
  set (fill := fill_candidates _ _ _ _ _ _ _ _ _ _) in *.
  apply (ensures_bind (fun x => Ok x = fill)); [apply ensures_lift; destruct fill; auto; contradiction|].
  intros [[[candidates dns'] iters'] rng'] He. rewrite <- He in Hfill. destruct Hfill as (Hs & Hlen & Hi' & Hgrow & _). cbn in Hgrow.
  apply (ensures_bind (fun x => others (snd x) 0 (fst x) ≡ₚ candidates)).
  { destruct first_iter; [|apply ensures_ret; cbn; rewrite others_none; reflexivity].
    destruct (first_query TransactionsError.t candidates) as (r & Hr & Hp). unfold id in *. rewrite Hr.
    apply (ensures_bind (eq r)); [apply ensures_lift; reflexivity|]. intros ? <-. apply ensures_ret. exact Hp. }
  intros [queried real_index] Hq. cbn [fst snd] in Hq.
  eapply ensures_bind; [apply ProvidesDecoys.unlocked_law|]. intros outputs Ho. cbn beta in Ho.
  pose proof (take_unlocked_spec input C queried real_index outputs 0 res HC ltac:(lia)) as Ht. rewrite drop_0 in Ht.
  apply (ensures_bind (fun res' => exists dns'', dns'' = dns' /\ decoys_found bound decoy_count dns'' res')).
  { apply ensures_lift. destruct (take_unlocked _ _ _ _ _ _) as [res'|e|]; [|exact I|exact Ht].
    destruct Ht as (new & -> & Hsub & Hm). exists dns'. split; [reflexivity|].
    apply (decoys_found_app dns res candidates dns' (others real_index 0 queried) new); auto.
    - intros y. rewrite Hq. auto.
    - rewrite Hq. apply Hs.
    - rewrite Hq, Hlen. lia. }
  intros res' (? & -> & Hf'). apply IH; [exact Hf'| |exact (selecting_size _ _ _ _ Hs)|exact Hi'|lia].
  rewrite (selecting_dns _ _ _ _ Hs). apply elem_of_app. auto.
Qed.
End Loop.

Lemma per_second_ok distribution : (DEFAULT_LOCK_WINDOW <= length distribution)%nat -> exists x, per_second distribution = Ok x.
Proof.
  intros Hl. unfold per_second, DEFAULT_LOCK_WINDOW in *.
  destruct (lookup_lt_is_Some_2 distribution (length distribution - (Nat.min (length distribution) BLOCKS_PER_YEAR + 1)) ltac:(lia)) as [a ->].
  destruct (lookup_lt_is_Some_2 distribution (length distribution - 1) ltac:(lia)) as [b ->]. eexists. reflexivity.
Qed.

Lemma select_n_spec rng block_number ring_len deterministic : 1 <= ring_len ->
  ensures (select_n rpc rng block_number input ring_len deterministic)
    (fun r => exists bound dns, bound < 2 ^ 64 /\ decoys_found bound (Z.to_nat (ring_len - 1)) dns (fst r) /\
                                length (fst r) = Z.to_nat (ring_len - 1)).
Proof.
  intros Hr. unfold select_n. destruct (_ <=? _); [apply ensures_err|].
  eapply ensures_bind; [apply ensures_map_err, ProvidesDecoys.latest_block_number_law|]. intros latest _.
  destruct (latest <? block_number); [apply ensures_err|].
  eapply ensures_bind; [apply ensures_map_err, ProvidesDecoys.distribution_law|]. intros distribution [HU Hm].
  destruct (Nat.ltb_spec (length distribution) DEFAULT_LOCK_WINDOW) as [|Hlen]; [apply ensures_err|].
  destruct (lookup_lt_is_Some_2 distribution (length distribution - DEFAULT_LOCK_WINDOW)) as [bound Hb];
    [unfold DEFAULT_LOCK_WINDOW in *; lia|].
  apply (ensures_bind (eq bound)); [rewrite Hb; apply ensures_lift; reflexivity|]. intros ? <-.
  rewrite Forall_lookup in HU. specialize (HU _ _ Hb). unfold U in HU. unfold COINBASE_LOCK_WINDOW.
  destruct (Z.ltb_spec (Z.max 0 (bound - 60)) ring_len); [apply ensures_err|].
  destruct (per_second_ok distribution Hlen) as [ps Hps].
  apply (ensures_bind (eq ps)); [rewrite Hps; apply ensures_lift; reflexivity|]. intros ? <-.
  apply (ensures_bind (eq (Z.to_nat (ring_len - 1)))).
  { apply ensures_lift. destruct (Z.ltb_spec ring_len 1); [lia|reflexivity]. }
  intros ? <-. eapply ensures_mono; [|eapply (select_loop_spec _ bound); [exact Hm|exact Hb|..]].
  - intros [res rng'] (dns & Hf & Hl). exists bound, dns. split; [lia|]. auto.
  - split; [constructor| |constructor|cbn; lia]. intros x Hx. inversion Hx.
  - left.
  - cbn. lia.
  - unfold max_iters. lia.
  - lia.
Qed.

(** *** The ring *)

Lemma offsets_of_spec E prior l : StronglySorted Z.lt l -> Forall (fun x => prior <= x /\ U 64 x) l -> 0 <= prior ->
  exists offsets, offsets_of (E := E) prior l = Ok offsets /\ prefix_sums prior offsets = l /\ Forall (U 64) offsets.
Proof.
  intros Hs. revert prior. induction Hs as [|x l Hl IH Hx]; intros prior Hf Hp; [exists []; auto|].
  inversion Hf as [|? ? [Hle HU] Hf']; subst. cbn [offsets_of]. destruct (Z.ltb_spec x prior); [lia|].
  unfold U in HU. destruct (IH x) as (offsets & -> & He & Ho); [|lia|].
  { rewrite Forall_forall in Hx, Hf' |- *. intros y Hy. split; [apply Z.lt_le_incl, Hx, Hy|apply Hf', Hy]. }
  exists ((x - prior) :: offsets). cbn [obind prefix_sums]. split; [reflexivity|].
  replace (prior + (x - prior)) with x by lia. rewrite He. split; [reflexivity|]. constructor; [unfold U; lia|exact Ho].
Qed.

Lemma strictly_sorted_inj l i j x : StronglySorted Z.lt l -> l !! i = Some x -> l !! j = Some x -> i = j.
Proof.
  intros Hs. revert i j. induction Hs as [|a l _ IH Ha]; intros [|i] [|j] Hi Hj; try discriminate; [reflexivity|..].
  3: f_equal; exact (IH i j Hi Hj).
  all: rewrite Forall_forall in Ha; cbn in Hi, Hj.
  - injection Hi as ->. apply list_elem_of_lookup_2, Ha in Hj. lia.
  - injection Hj as ->. apply list_elem_of_lookup_2, Ha in Hi. lia.
Qed.

(** A selected ring: the output being spent at the signer's index and its
    position, and the other members ones which may be signed for *)
Definition ring_selected (ring_len : Z) (d : Decoys.t) : Prop :=
  decoys_ok d /\ len (Decoys.ring d) = ring_len /\
  Decoys.ring d !! Z.to_nat (Decoys.signer_index d) = Some (OutputData.key (WalletOutput.data input), C) /\
  (exists positions, (forall E, Decoys.positions (E := E) d = Ok positions) /\
     StronglySorted Z.lt positions /\ positions !! Z.to_nat (Decoys.signer_index d) = Some (index_on_blockchain input)) /\
  forall i m, Decoys.ring d !! i = Some m -> Z.of_nat i <> Decoys.signer_index d -> member_ok m.

Lemma ring_spec bound dns decoys ring_len : decoys_found bound (Z.to_nat (ring_len - 1)) dns decoys ->
  length decoys = Z.to_nat (ring_len - 1) -> bound < 2 ^ 64 -> 1 <= ring_len -> U 8 ring_len ->
  U 64 (index_on_blockchain input) ->
  let real := (index_on_blockchain input, (OutputData.key (WalletOutput.data input), C)) in
  let ring := sort_by_key fst (decoys ++ [real]) in
  StronglySorted Z.lt (map fst ring) /\ Forall (fun x => 0 <= x /\ U 64 x) (map fst ring) /\ len ring = ring_len /\
  ring !! partition_point (fun x => fst x <? index_on_blockchain input) ring = Some real /\
  forall i x, ring !! i = Some x -> fst x <> index_on_blockchain input -> member_ok (snd x).
Proof.
  intros Hf Hl Hb Hr HU8 HU real ring. unfold U in HU. pose proof (sort_by_key_perm fst (decoys ++ [real])) as Hp. fold ring in Hp.
  assert (Hstrict : StronglySorted (fun a b => fst a < fst b) ring).
  { apply sorted_strict; [apply sort_by_key_sorted|]. rewrite Hp, map_app. apply NoDup_app. split; [apply Hf|].
    split; [|repeat constructor; inversion 1]. intros x Hx Hx'. apply list_elem_of_singleton in Hx' as ->.
    apply (found_excluded _ _ _ _ Hf) in Hx as (_ & Hne & _). apply Hne. reflexivity. }
  split_and!.
  - clear -Hstrict. induction Hstrict as [|a l Hl IH Ha]; cbn; constructor; [exact IH|]. apply Forall_map. exact Ha.
  - rewrite Hp. rewrite map_app. apply Forall_app. split; [|repeat constructor; cbn; unfold U; lia]. apply Forall_forall.
    intros x Hx. apply (found_excluded _ _ _ _ Hf) in Hx as (_ & _ & Hx). unfold U. lia.
  - unfold len. rewrite Hp, length_app, Hl. cbn. lia.
  - apply (partition_point_spec fst ring real Hstrict). rewrite Hp. apply elem_of_app. right. left.
  - intros i x Hx Hne. apply list_elem_of_lookup_2 in Hx. rewrite Hp in Hx. apply elem_of_app in Hx as [Hx|Hx].
    + exact (proj1 (Forall_forall _ _) (found_members _ _ _ _ Hf) x Hx).
    + apply list_elem_of_singleton in Hx as ->. exfalso. apply Hne. reflexivity.
Qed.

(** C40: selecting decoys ends, without panicking, for any interface which keeps
    its laws and any generator: within its limit of rounds it returns an error,
    or a ring of the length asked for in which the output being spent is at the
    signer's index and at its own position, the positions strictly increase, and
    any other member is free of torsion with a key which isn't the identity.
    The fuel of the loops is never spent. *)
Theorem decoys_selected rng ring_len block_number deterministic : U 8 ring_len -> U 64 (index_on_blockchain input) ->
  ensures (select_decoys rpc rng ring_len block_number input deterministic) (fun r => ring_selected ring_len (fst r)).
Proof.
  intros HU8 HU. unfold select_decoys. destruct (Z.eqb_spec ring_len 0); [apply ensures_err|]. pose proof HU8 as Hr. unfold U in Hr.
  eapply ensures_bind; [apply select_n_spec; lia|]. intros [decoys rng'] (bound & dns & Hb & Hf & Hl). cbn [fst] in Hf, Hl.
  apply (ensures_bind (eq C)); [apply ensures_lift; rewrite HC; reflexivity|]. intros ? <-. cbv zeta.
  destruct (ring_spec bound dns decoys ring_len Hf Hl Hb ltac:(lia) HU8 HU) as (Hs & HUs & Hlen & Hreal & Hm).
  set (ring := sort_by_key fst _) in *. destruct (offsets_of_spec TransactionsError.t 0 (map fst ring) Hs HUs ltac:(lia)) as (offs & Ho & Hsum & HUo).
  apply (ensures_bind (eq offs)); [apply ensures_lift; rewrite Ho; reflexivity|]. intros ? <-.
  set (signer := partition_point _ ring) in *. pose proof (lookup_lt_Some _ _ _ Hreal) as Hsl. unfold len in Hlen.
  apply (ensures_bind (eq (Z.of_nat signer))).
  { apply ensures_lift. destruct (Z.ltb_spec 255 (Z.of_nat signer)); [lia|reflexivity]. }
  intros ? <-. assert (Hok : decoys_ok (Decoys.mk offs (Z.of_nat signer) (map snd ring))).
  { split; [exact HUo|]. cbn. unfold len, Decoys.MAX_RING_SIZE. rewrite !length_map. split; [lia|]. split; [lia|].
    split; [rewrite <- (prefix_sums_length 0), Hsum; apply length_map|]. apply sorted_sums_ok; rewrite Hsum.
    - apply StronglySorted_Sorted, Hs.
    - eapply list.Forall_impl; [exact HUs|]. intros x [_ Hx]. exact Hx. }
  pose proof (proj2 (decoys_new_spec offs (Z.of_nat signer) (map snd ring) _ HUo ltac:(unfold U; lia)) (conj eq_refl Hok)) as Hn.
  eapply (ensures_bind (eq (Decoys.mk offs (Z.of_nat signer) (map snd ring)))); [apply ensures_lift; rewrite Hn; reflexivity|].
  intros ? <-. apply ensures_ret. cbn [fst]. split; [exact Hok|]. cbn. rewrite Nat2Z.id. split; [unfold len; rewrite length_map; lia|].
  split; [rewrite list_lookup_fmap, Hreal; reflexivity|]. split.
  - exists (map fst ring). split; [intros E; rewrite positions_sums by exact Hok; cbn; rewrite Hsum; reflexivity|].
    split; [exact Hs|]. rewrite list_lookup_fmap, Hreal. reflexivity.
  - intros i m Hi Hne. rewrite list_lookup_fmap in Hi. destruct (ring !! i) as [x|] eqn:Hx; [|discriminate].
    injection Hi as <-. apply (Hm i x Hx). intros He. apply Hne. f_equal.
    apply (strictly_sorted_inj (map fst ring) i signer (fst x) Hs); rewrite list_lookup_fmap; [rewrite Hx; reflexivity|].
    rewrite Hreal. cbn. f_equal. symmetry. exact He.
Qed.
End Selecting.

(** ** Outputs with decoys *)

Section Codec.
Context {D : Dalek} {DL : DalekLaws D}.

Definition output_with_decoys_ok (x : OutputWithDecoys.t) : Prop :=
  output_data_ok (OutputWithDecoys.output x) /\ decoys_ok (OutputWithDecoys.decoys x).

#[export] Instance output_with_decoys_codec : Codec OutputWithDecoys.read OutputWithDecoys.write output_with_decoys_ok.
Proof.
  split.
  - intros x [Ho Hd]. apply is_bytes_app_2; [apply (codec_bytes _ Ho)|apply (codec_bytes _ Hd)].
  - intros x rest [Ho Hd]. unfold OutputWithDecoys.read, OutputWithDecoys.write. rewrite <- app_assoc.
    unfold rbind. rewrite (codec_rt _ _ Ho), (codec_rt _ _ Hd). destruct x. reflexivity.
  - intros bs x rest Hbs H. unfold OutputWithDecoys.read in H. read_inv.
    split; [split; assumption|]. unfold OutputWithDecoys.write. cbn. rewrite <- !app_assoc. reflexivity.
  - unfold OutputWithDecoys.read. safe_tac.
Qed.

Lemma decoys_eqb_spec a b : OutputWithDecoys.decoys_eqb a b = true <-> a = b.
Proof.
  unfold OutputWithDecoys.decoys_eqb. rewrite !andb_true_iff, bool_decide_eq_true, Z.eqb_eq, Nat.eqb_eq, forallb_forall.
  destruct a as [oa sa ra], b as [ob sb rb]. cbn. split; [|intros [= -> -> ->]].
  - intros [[[-> ->] Hl] Hall]. f_equal. revert rb Hl Hall. induction ra as [|[k c] ra IH]; intros [|[k' c'] rb] Hl Hall; try discriminate; [reflexivity|].
    pose proof (Hall ((k, c), (k', c')) (or_introl eq_refl)) as H. apply andb_prop in H as [H1 H2]. cbn in H1, H2.
    apply ed_eqb_spec in H1 as ->. apply ed_eqb_spec in H2 as ->. f_equal. apply IH; [cbn in Hl; lia|].
    intros x Hx. apply Hall. right. exact Hx.
  - split_and!; try reflexivity. intros [[k c] [k' c']] Hx. cbn.
    assert ((k, c) = (k', c')) as [= -> ->].
    { clear -Hx. induction rb as [|m rb IH]; [destruct Hx|]. destruct Hx as [[= <- <-]|Hx]; auto. }
    rewrite !(proj2 (ed_eqb_spec _ _) eq_refl). reflexivity.
Qed.
End Codec.

Section Witness.
Import Model.

(** A generator which counts, and samples a second *)
#[local] Instance counting_rng : DecoyRng Z := {
  next_u64 r := ((r * 1013) mod 2 ^ 64, r + 1);
  gamma_age r := (F64.of_int 1, r + 1)
}.

Lemma counting_rng_laws : DecoyRngLaws counting_rng.
Proof. intros r. cbn. unfold U. apply Z.mod_pos_bound. lia. Qed.

(** Each output has the same key and the same commitment. *)
Definition example_decoys_interface : ProvidesUnvalidatedDecoys.t unit :=
  ProvidesUnvalidatedDecoys.mk _ unit {| ProvidesBlockchainMeta.latest_block_number := qret 20 |}
    (fun _ => qret [10; 40; 80; 120; 160; 200; 240; 280; 320; 360; 400; 440])
    (fun indexes _ => qret (map (fun _ => Some (ED25519_BASEPOINT_POINT, ED25519_BASEPOINT_POINT)) indexes)).

Lemma example_decoys_deserialized : ProvidesUnvalidatedDecoys.Deserialized example_decoys_interface.
Proof. split; intros; apply ensures_ret; [unfold U, USIZE_BITS; lia|repeat constructor; unfold U; lia|exact I]. Qed.

Lemma decoys_selected_witness : exists d,
  (exists r, fst (select_decoys (ProvidesDecoys.blanket example_decoys_interface) 1 4 11 example_output false tt) = Ok (d, r)) /\
  ring_selected example_output ED25519_BASEPOINT_POINT 4 d.
Proof.
  pose proof (decoys_selected (DL := dalek_laws) (GL := counting_rng_laws) (ProvidesDecoys.blanket example_decoys_interface)
    (ProvidesDecoys.blanket_laws example_decoys_interface example_decoys_deserialized) example_output ED25519_BASEPOINT_POINT) as H.
  specialize (H ltac:(intros E; vm_compute; reflexivity) 1 4 11 false ltac:(unfold U; lia) ltac:(unfold U; cbn; lia) tt).
  assert (match fst (select_decoys (ProvidesDecoys.blanket example_decoys_interface) 1 4 11 example_output false tt) with
          Ok _ => true | _ => false end = true) as Hb by (vm_compute; reflexivity).
  destruct (fst (select_decoys _ _ _ _ _ _ _)) as [[d r]|e|]; [|discriminate Hb..]. exists d. split; [exists r; reflexivity|exact H].
Defined.
End Witness.
