(* ===== verification/Send.v ===== *)
(** Sending ([wallet/src/send/mod.rs], [tx_keys.rs], [tx.rs], [eventuality.rs]):
    signable transactions, their validation, the keys and derivations their
    outputs are made with, their fee, the transactions they become, and
    eventualities.  The seeded ChaCha20 generator and the shuffle ([rand_chacha],
    [rand]) are operations of [Rand]; the [debug_assert]s are omitted. *)

From Stdlib Require Import ZArith Lia.
From stdpp Require Import base list strings numbers.
From S2P Require Import Prelude Dalek MoneroIo Ed25519 Clsag Bulletproofs BpCore BpOriginal BpPlus RingCT Transaction Interface.
From S2P Require Import Address Extra WalletOutput ViewPair DecoySelection.

(** ** The order of inputs *)

(** [key_image_sort], by whether it is [Less] *)
Definition key_image_cmp (x y : CompressedPoint) : comparison := CompOpp (CompressedPoint.cmp x y).
Definition key_image_lt (x y : CompressedPoint) : bool := match key_image_cmp x y with Lt => true | _ => false end.

(** ** Change and payments *)

Abbreviation MoneroAddress := Address.t.

Section Data.
Context {D : Dalek}.

Inductive ChangeEnum : Type :=
| AddressOnly (address : MoneroAddress)
| Standard (view_pair : ViewPair.t) (subaddress : option SubaddressIndex.t)
| Guaranteed (view_pair : GuaranteedViewPair.t) (subaddress : option SubaddressIndex.t).

(** [struct Change] *)
Definition Change : Type := option ChangeEnum.

Inductive InternalPayment : Type :=
| Payment (address : MoneroAddress) (amount : Z)
| ChangePayment (change : ChangeEnum).
End Data.

Module Change.
Section Ops.
Context {D : Dalek}.
Definition new (view_pair : ViewPair.t) (subaddress : option SubaddressIndex.t) : Change := Some (Standard view_pair subaddress).
Definition guaranteed (view_pair : GuaranteedViewPair.t) (subaddress : option SubaddressIndex.t) : Change :=
  Some (Guaranteed view_pair subaddress).
Definition fingerprintable (address : option MoneroAddress) : Change := option_map AddressOnly address.
End Ops.
End Change.

Module ChangeEnum.
Section Ops.
Context {D : Dalek} {K : Keccak}.

Definition address {E} (self : ChangeEnum) : outcome E MoneroAddress :=
  match self with
  | AddressOnly addr => Ok addr
  | Standard view_pair subaddress =>
      match subaddress with
      | Some subaddress => ViewPair.subaddress view_pair Mainnet subaddress
      | None => ViewPair.legacy_address view_pair Mainnet
      end
  | Guaranteed view_pair subaddress => GuaranteedViewPair.address view_pair Mainnet subaddress None
  end.
End Ops.
End ChangeEnum.

Module InternalPayment.
Section Ops.
Context {D : Dalek} {K : Keccak}.

Definition address {E} (self : InternalPayment) : outcome E MoneroAddress :=
  match self with
  | Payment addr _ => Ok addr
  | ChangePayment change => ChangeEnum.address change
  end.

Definition is_payment (self : InternalPayment) : bool := match self with Payment _ _ => true | _ => false end.
Definition is_change (self : InternalPayment) : bool := match self with ChangePayment _ => true | _ => false end.

(** [filter_map] of the amounts of payments *)
Fixpoint amounts (payments : list InternalPayment) : list Z :=
  match payments with
  | [] => []
  | Payment _ amount :: payments => amount :: amounts payments
  | ChangePayment _ :: payments => amounts payments
  end.
End Ops.
End InternalPayment.

(** [sum::<u64>()] and [sum::<u128>()], which panic when they overflow *)
Fixpoint sum_uint {E} (width : Z) (acc : Z) (l : list Z) : outcome E Z :=
  match l with
  | [] => Ok acc
  | x :: l => if 2 ^ width <=? acc + x then Panic else sum_uint width (acc + x) l
  end.

Inductive SendError : Type :=
| UnsupportedRctType
| NoInputs
| InvalidInputs
| InvalidDecoyQuantity
| NoOutputs
| TooManyOutputs
| NoChange
| MultiplePaymentIds
| TooMuchArbitraryData
| TooLargeTransaction
| AmountsUnrepresentable (in_amount out_amount : Z)
| NotEnoughFunds (inputs outputs : Z) (necessary_fee : option Z)
| WrongPrivateKey
| IncorrectSerialization
| SendClsagError (e : ClsagError).

(** [struct SignableTransaction] *)
Module SignableTransaction.
Section Data.
Context {D : Dalek}.
Record t := mk {
  rct_type : RctType.t;
  outgoing_view_key : bytes;
  inputs : list OutputWithDecoys.t;
  payments : list InternalPayment;
  data : list bytes;
  fee_rate : FeeRate.t
}.

(** [output.key()], [output.commitment()] and [output.key_offset()] of an input *)
Definition input_key (input : OutputWithDecoys.t) : Point := OutputData.key (OutputWithDecoys.output input).
Definition input_commitment (input : OutputWithDecoys.t) : Commitment.t :=
  OutputData.commitment (OutputWithDecoys.output input).
Definition input_key_offset (input : OutputWithDecoys.t) : Scalar := OutputData.key_offset (OutputWithDecoys.output input).
End Data.

(** *** Keys ([tx_keys.rs]) *)

Section Keys.
Context {D : Dalek} {K : Keccak} {R : Rand}.

(** The bytes of ["transaction_keys"], ["bulletproof"] and ["shuffle_payments"] *)
Definition TRANSACTION_KEYS : bytes :=
  [116; 114; 97; 110; 115; 97; 99; 116; 105; 111; 110; 95; 107; 101; 121; 115].
Definition BULLETPROOF : bytes := [98; 117; 108; 108; 101; 116; 112; 114; 111; 111; 102].
Definition SHUFFLE_PAYMENTS : bytes :=
  [115; 104; 117; 102; 102; 108; 101; 95; 112; 97; 121; 109; 101; 110; 116; 115].

(** The function [seeded_rng], to the seed *)
Definition seeded_rng_of {E} (dst outgoing_view_key : bytes) (input_keys_and_commitments : list (Point * Point))
  : outcome E bytes :=
  let? dst_len := if 255 <? len dst then Panic else Ok (len dst) in
  let transcript := [dst_len] ++ dst ++ outgoing_view_key in
  let input_keys_and_commitments :=
    map (fun x => (Point.compress (fst x), Point.compress (snd x))) input_keys_and_commitments in
  let input_keys_and_commitments := sort_by (fun a b => key_image_lt (fst a) (fst b)) input_keys_and_commitments in
  let transcript := transcript ++
    write_raw_vec (fun x => CompressedPoint.to_bytes (fst x) ++ CompressedPoint.to_bytes (snd x)) input_keys_and_commitments in
  Ok (keccak256 transcript).

Definition input_keys_and_commitments {E} (self : t) : outcome E (list (Point * Point)) :=
  each (fun output =>
    let? commitment := Commitment.commit (input_commitment output) in
    Ok (input_key output, commitment)) (inputs self).

Definition seeded_rng {E} (self : t) (dst : bytes) : outcome E bytes :=
  let? input_keys_and_commitments := input_keys_and_commitments self in
  seeded_rng_of dst (outgoing_view_key self) input_keys_and_commitments.

Definition has_payments_to_subaddresses (self : t) : bool :=
  existsb (fun payment =>
    match payment with
    | Payment addr _ => AddressType.is_subaddress (Address.kind addr)
    | ChangePayment (AddressOnly addr) => AddressType.is_subaddress (Address.kind addr)
    | ChangePayment (Standard _ _) | ChangePayment (Guaranteed _ _) => false
    end) (payments self).

Definition has_change_view (self : t) : bool :=
  existsb (fun payment =>
    match payment with
    | Payment _ _ => false
    | ChangePayment (AddressOnly _) => false
    | ChangePayment (Standard _ _) | ChangePayment (Guaranteed _ _) => true
    end) (payments self).

Definition should_use_additional_keys (self : t) : bool :=
  if negb (has_payments_to_subaddresses self) then false
  else has_payments_to_subaddresses self && negb ((length (payments self) =? 2)%nat && has_change_view self).

(** [TransactionKeys::new] and its [next], the keys being [Clsag.random]'s *)
Definition transaction_keys_new {E} (outgoing_view_key : bytes) (input_keys_and_commitments : list (Point * Point))
  : outcome E Clsag.rng :=
  let? seed := seeded_rng_of TRANSACTION_KEYS outgoing_view_key input_keys_and_commitments in
  Ok (chacha20 seed).

Definition transaction_keys {E} (self : t) : outcome E (Scalar * list Scalar) :=
  let? input_keys_and_commitments := input_keys_and_commitments self in
  let? tx_keys := transaction_keys_new (outgoing_view_key self) input_keys_and_commitments in
  let (tx_key, tx_keys) := Clsag.random tx_keys in
  let additional_keys :=
    if should_use_additional_keys self then fst (Clsag.random_vec (length (payments self)) tx_keys) else [] in
  Ok (tx_key, additional_keys).

(** The public keys of the additional keys *)
Definition additional_key_pub {E} (x : Scalar * InternalPayment) : outcome E CompressedPoint :=
  let (additional_key, payment) := x in
  let? additional_key := Scalar.into additional_key in
  let? addr := InternalPayment.address payment in
  if AddressType.is_subaddress (Address.kind addr)
  then Ok (Point.compress (ed_mul additional_key (Address.spend addr)))
  else Ok (Point.compress (ed_mul additional_key ED25519_BASEPOINT_POINT)).

Definition transaction_keys_pub {E} (self : t) : outcome E (Point * list CompressedPoint) :=
  let? (tx_key, additional_keys) := transaction_keys self in
  let? tx_key := Scalar.into tx_key in
  if has_payments_to_subaddresses self && negb (should_use_additional_keys self) then
    match List.find InternalPayment.is_payment (payments self) with
    | Some (Payment addr _) => Ok (ed_mul tx_key (Address.spend addr), [])
    | _ => Panic
    end
  else if should_use_additional_keys self then
    let? additional_keys_pub := each additional_key_pub (zip additional_keys (payments self)) in
    Ok (ed_mul tx_key ED25519_BASEPOINT_POINT, additional_keys_pub)
  else Ok (ed_mul tx_key ED25519_BASEPOINT_POINT, []).

(** The body of [ecdhs]'s loop *)
Definition ecdh {E} (tx_key : Scalar) (additional_keys : list Scalar) (tx_key_pub : Point) (x : nat * InternalPayment)
  : outcome E Point :=
  let (i, payment) := x in
  let? addr := InternalPayment.address payment in
  let key_to_use :=
    if AddressType.is_subaddress (Address.kind addr) then default tx_key (additional_keys !! i) else tx_key in
  let? key_to_use := Scalar.into key_to_use in
  match payment with
  | Payment _ _ | ChangePayment (AddressOnly _) => Ok (ed_mul key_to_use (Address.view addr))
  | ChangePayment (Standard view_pair _) =>
      let? view := Scalar.into (ViewPair.view_key view_pair) in Ok (ed_mul view tx_key_pub)
  | ChangePayment (Guaranteed view_pair _) =>
      let? view := Scalar.into (ViewPair.view_key (GuaranteedViewPair.pair view_pair)) in Ok (ed_mul view tx_key_pub)
  end.

Definition ecdhs {E} (self : t) : outcome E (list Point) :=
  let? (tx_key, additional_keys) := transaction_keys self in
  let? (tx_key_pub, _) := transaction_keys_pub self in
  each (ecdh tx_key additional_keys tx_key_pub) (enumerate (payments self)).

(** [inputs] of [tx.rs] *)
Definition prefix_inputs (self : t) (key_images : list CompressedPoint) : list Input :=
  zip_with (fun input key_image => ToKey None (Decoys.offsets (OutputWithDecoys.decoys input)) key_image)
    (inputs self) key_images.

Definition shared_key_derivations {E} (self : t) (key_images : list CompressedPoint)
  : outcome E (list SharedKeyDerivations.t) :=
  let? ecdhs := ecdhs self in
  let uniqueness := SharedKeyDerivations.uniqueness (prefix_inputs self key_images) in
  each (fun x : nat * (InternalPayment * Point) =>
    let '(i, (payment, ecdh)) := x in
    let? addr := InternalPayment.address payment in
    SharedKeyDerivations.output_derivations
      (if AddressType.is_guaranteed (Address.kind addr) then Some uniqueness else None) ecdh (Z.of_nat i))
    (enumerate (zip (payments self) ecdhs)).

Definition payment_id_xors {E} (self : t) : outcome E (list bytes) :=
  let? ecdhs := ecdhs self in
  each SharedKeyDerivations.payment_id_xor ecdhs.
End Keys.

(** *** The transaction ([tx.rs]) *)

Section Tx.
Context {D : Dalek} {K : Keccak} {R : Rand}.

(** The length of the rings a type has, and if its outputs have view tags *)
Definition ring_len {E} (rct_type : RctType.t) : outcome E Z :=
  match rct_type with
  | RctType.ClsagBulletproof => Ok 11
  | RctType.ClsagBulletproofPlus => Ok 16
  | _ => Panic
  end.

Definition view_tagged {E} (rct_type : RctType.t) : outcome E bool :=
  match rct_type with
  | RctType.ClsagBulletproof => Ok false
  | RctType.ClsagBulletproofPlus => Ok true
  | _ => Panic
  end.

(** The body of [outputs]'s loop *)
Definition output {E} (rct_type : RctType.t) (x : InternalPayment * SharedKeyDerivations.t) : outcome E Output.t :=
  let (payment, derivations) := x in
  let? shared_key := Scalar.into (SharedKeyDerivations.shared_key derivations) in
  let? addr := InternalPayment.address payment in
  let key := ed_add (ed_mul shared_key ED25519_BASEPOINT_POINT) (Address.spend addr) in
  let? tagged := view_tagged rct_type in
  Ok (Output.mk None (Point.compress key) (if tagged : bool then Some (SharedKeyDerivations.view_tag derivations) else None)).

Definition outputs {E} (self : t) (key_images : list CompressedPoint) : outcome E (list Output.t) :=
  let? shared_key_derivations := shared_key_derivations self key_images in
  each (output (rct_type self)) (zip (payments self) shared_key_derivations).

(** [find_map] of the payment ID of a payment *)
Fixpoint find_payment_id {E} (l : list (InternalPayment * bytes)) : outcome E (option (bytes * bytes)) :=
  match l with
  | [] => Ok None
  | (payment, payment_id_xor) :: l =>
      let? addr := InternalPayment.address payment in
      match AddressType.payment_id (Address.kind addr) with
      | Some id => Ok (Some (id, payment_id_xor))
      | None => find_payment_id l
      end
  end.

Definition extra {E} (self : t) : outcome E bytes :=
  let? (tx_key, additional_keys) := transaction_keys_pub self in
  let? payment_id_xors := payment_id_xors self in
  let extra := Extra.new (Point.compress tx_key) additional_keys in
  let? found := find_payment_id (zip (payments self) payment_id_xors) in
  let? extra :=
    match found with
    | Some (id, id_xor) =>
        let id := to_le 8 (Z.lxor (from_le id) (from_le id_xor)) in
        Ok (Extra.push_nonce extra (PaymentId.write (Encrypted id)))
    | None =>
        if (length (payments self) =? 2)%nat then
          match List.find (fun x => InternalPayment.is_payment (fst x)) (zip (payments self) payment_id_xors) with
          | Some (_, payment_id_xor) => Ok (Extra.push_nonce extra (PaymentId.write (Encrypted payment_id_xor)))
          | None => Panic
          end
        else Ok extra
    end in
  let extra := fold_left (fun extra part => Extra.push_nonce extra (ARBITRARY_DATA_MARKER :: part)) (data self) extra in
  Ok (Extra.write extra).

(** The loop for [padded_log2]: a shift by 64 panics. *)
Fixpoint padded_log2 {E} (fuel : nat) (log2_find : Z) (n : Z) : outcome E Z :=
  match fuel with
  | O => Panic
  | S fuel => if Z.shiftl 1 log2_find <? n then padded_log2 fuel (log2_find + 1) n else Ok log2_find
  end.

Definition shim_point : bytes := 1 :: repeat 0 31.
Definition shim_scalar : bytes := repeat 0 32.
Definition shim_points (lr_len : Z) : bytes := VarInt.write lr_len ++ concat (repeat shim_point (Z.to_nat lr_len)).

(** The dummy proof [weight_and_necessary_fee] reads *)
Definition shim_bulletproof {E} (rct_type : RctType.t) (lr_len : Z) : outcome E Bulletproof :=
  match rct_type with
  | RctType.ClsagBulletproof =>
      let bp := concat (repeat shim_point 4) ++ concat (repeat shim_scalar 2) ++
                concat (repeat (shim_points lr_len) 2) ++ concat (repeat shim_scalar 3) in
      match fst (Bulletproof.read bp) with Ok bp => Ok bp | _ => Panic end
  | RctType.ClsagBulletproofPlus =>
      let bp := concat (repeat shim_point 3) ++ concat (repeat shim_scalar 3) ++ concat (repeat (shim_points lr_len) 2) in
      match fst (Bulletproof.read_plus bp) with Ok bp => Ok bp | _ => Panic end
  | _ => Panic
  end.

Definition base_weight {E} (self : t) : outcome E Z :=
  let? ring_len := ring_len (rct_type self) in
  let key_images := map (fun _ => CompressedPoint.G) (inputs self) in
  let clsags := map (fun _ => Clsag.new CompressedPoint.G (repeat Scalar.ZERO (Z.to_nat ring_len)) Scalar.ZERO) (inputs self) in
  let pseudo_outs := map (fun _ => CompressedPoint.G) (inputs self) in
  let encrypted_amounts := map (fun _ => EncryptedCompact (repeat 0 8)) (payments self) in
  let commitments := map (fun _ => CompressedPoint.G) (payments self) in
  let? padded_log2 := padded_log2 64 0 (len (payments self)) in
  let lr_len := 6 + padded_log2 in
  let? bulletproof := shim_bulletproof (rct_type self) lr_len in
  let inputs := prefix_inputs self key_images in
  let? outputs := outputs self key_images in
  let? extra := extra self in
  let? weight :=
    Transaction.weight
      (V2 (P := NotPruned) (TransactionPrefix.mk Timelock.None inputs outputs extra)
         (Some (mk_RctProofs (RctBase.mk 0 [] encrypted_amounts commitments) (ClsagProofs clsags pseudo_outs bulletproof)))) in
  if weight <? 1 then Panic else Ok (weight - 1).

(** The loop over the possible fees *)
Fixpoint find_fee (base_weight fee_len : Z) (possible_fees : list Z) : option (Z * Z) :=
  match possible_fees with
  | [] => None
  | possible_fee :: possible_fees =>
      if VarInt.varint_len (if possible_fee <? 2 ^ 64 then possible_fee else U64_MAX) <=? fee_len
      then Some (base_weight + fee_len, possible_fee)
      else find_fee base_weight (fee_len + 1) possible_fees
  end.

Definition weight_and_necessary_fee {E} (self : t) : outcome E (Z * Z) :=
  let? base_weight := base_weight self in
  let possible_weights := map (fun i => base_weight + i) (seqZ 1 10) in
  let? possible_fees := each (FeeRate.calculate_fee_from_weight (fee_rate self)) possible_weights in
  expect (find_fee base_weight 1 possible_fees).

(** [u64::try_from(..).unwrap()] *)
Definition u64 {E} (x : Z) : outcome E Z := if x <? 2 ^ 64 then Ok x else Panic.

Definition amounts_in (self : t) : list Z := map (fun input => Commitment.amount (input_commitment input)) (inputs self).

(** The amount of a change output *)
Definition change_amount {E} (self : t) : outcome E Z :=
  let? inputs := sum_uint 64 0 (amounts_in self) in
  let? payments := sum_uint 64 0 (InternalPayment.amounts (payments self)) in
  let? (_, necessary_fee) := weight_and_necessary_fee self in
  let? necessary_fee := u64 necessary_fee in
  if 2 ^ 64 <=? payments + necessary_fee then Panic
  else if inputs <? payments + necessary_fee then Panic
  else Ok (inputs - (payments + necessary_fee)).

Definition commitment_and_encrypted_amount {E} (self : t) (x : InternalPayment * SharedKeyDerivations.t)
  : outcome E (Commitment.t * EncryptedAmount) :=
  let (payment, derivations) := x in
  let? amount := match payment with Payment _ amount => Ok amount | ChangePayment _ => change_amount self end in
  let? mask := SharedKeyDerivations.commitment_mask derivations in
  let? encrypted := SharedKeyDerivations.compact_amount_encryption derivations amount in
  Ok (Commitment.new mask amount, EncryptedCompact encrypted).

Definition commitments_and_encrypted_amounts {E} (self : t) (key_images : list CompressedPoint)
  : outcome E (list (Commitment.t * EncryptedAmount)) :=
  let? shared_key_derivations := shared_key_derivations self key_images in
  each (commitment_and_encrypted_amount self) (zip (payments self) shared_key_derivations).

Definition sum_output_masks {E} (self : t) (key_images : list CompressedPoint) : outcome E Scalar :=
  let? commitments := commitments_and_encrypted_amounts self key_images in
  let? masks := each (fun x => Scalar.into (Commitment.mask (fst x))) commitments in
  Ok (Scalar.from (foldl sc_add sc_ZERO masks)).

(** The fee of [transaction_without_signatures] *)
Definition fee {E} (self : t) : outcome E Z :=
  if existsb InternalPayment.is_change (payments self) then
    let? (_, necessary_fee) := weight_and_necessary_fee self in
    u64 necessary_fee
  else
    let? inputs := sum_uint 64 0 (amounts_in self) in
    let? payments := sum_uint 64 0 (InternalPayment.amounts (payments self)) in
    if inputs <? payments then Panic else Ok (inputs - payments).
End Tx.

(** *** Validation and creation ([mod.rs]) *)

Section New.
Context {D : Dalek} {K : Keccak} {R : Rand}.

Definition check (b : bool) (e : SendError) : outcome SendError unit := if b then Err e else Ok tt.

(** The body of the loop over the inputs *)
Definition validate_input (rct_type : RctType.t) (input : OutputWithDecoys.t) : outcome SendError unit :=
  let key := input_key input in
  let? _ := check (negb (ed_is_torsion_free key)) InvalidInputs in
  let? _ := check (ed_is_identity key) InvalidInputs in
  let? ring_len := ring_len rct_type in
  check (negb (Z.of_nat (Decoys.length_ (OutputWithDecoys.decoys input)) =? ring_len)) InvalidDecoyQuantity.

Definition has_payment_id (payment : InternalPayment) : outcome SendError bool :=
  let? addr := InternalPayment.address payment in
  Ok (match AddressType.payment_id (Address.kind addr) with Some _ => true | None => false end).

(** The check that there are enough funds, to the weight *)
Definition validate_funds (self : t) : outcome SendError Z :=
  let? in_amount := sum_uint 128 0 (amounts_in self) in
  let? payments_amount := sum_uint 128 0 (InternalPayment.amounts (payments self)) in
  let? (weight, necessary_fee) := weight_and_necessary_fee self in
  let out_amount := Z.min (2 ^ 128 - 1) (payments_amount + necessary_fee) in
  if (2 ^ 64 <=? in_amount) || (2 ^ 64 <=? out_amount) then Err (AmountsUnrepresentable in_amount out_amount)
  else if in_amount <? out_amount then
    let? payments_amount := u64 payments_amount in
    let? necessary_fee := u64 necessary_fee in
    Err (NotEnoughFunds in_amount payments_amount (Some necessary_fee))
  else Ok weight.

Definition MAX_TX_SIZE : Z := 300000 / 2 - 600.

Definition validate (self : t) : outcome SendError unit :=
  let? _ := check (match rct_type self with RctType.ClsagBulletproof | RctType.ClsagBulletproofPlus => false | _ => true end)
              UnsupportedRctType in
  let? _ := check (match inputs self with [] => true | _ => false end) NoInputs in
  let keys := map (fun input => Point.compress (input_key input)) (inputs self) in
  let? _ := check (negb (length (remove_dups keys) =? length (inputs self))%nat) InvalidInputs in
  let? _ := each (validate_input (rct_type self)) (inputs self) in
  let? _ := check (negb (existsb InternalPayment.is_payment (payments self))) NoOutputs in
  let? _ := check (length (payments self) <? 2)%nat NoChange in
  let change_count := length (List.filter InternalPayment.is_change (payments self)) in
  let? _ := check (1 <? change_count)%nat IncorrectSerialization in
  let? ids := each has_payment_id (payments self) in
  let payment_ids := length (List.filter id ids) in
  let? _ := check (1 <? payment_ids)%nat MultiplePaymentIds in
  let? _ := check (MAX_COMMITMENTS <? len (payments self)) TooManyOutputs in
  let? _ := check (existsb (fun part => MAX_ARBITRARY_DATA_SIZE <? len part) (data self)) TooMuchArbitraryData in
  let? extra := extra self in
  let? _ := check (MAX_EXTRA_SIZE_BY_RELAY_RULE <? len extra) TooMuchArbitraryData in
  let? weight := validate_funds self in
  check (MAX_TX_SIZE <=? weight) TooLargeTransaction.

Definition with_payments (self : t) (payments : list InternalPayment) : t :=
  mk (rct_type self) (outgoing_view_key self) (inputs self) payments (data self) (fee_rate self).

Definition new (rct_type : RctType.t) (outgoing_view_key : bytes) (inputs : list OutputWithDecoys.t)
  (payments : list (MoneroAddress * Z)) (change : Change) (data : list bytes) (fee_rate : FeeRate.t)
  : outcome SendError t :=
  let payments := map (fun x => Payment (fst x) (snd x)) payments in
  let payments := match change with Some change => payments ++ [ChangePayment change] | None => payments end in
  let res := mk rct_type outgoing_view_key inputs payments data fee_rate in
  let? _ := validate res in
  let? rng := seeded_rng res SHUFFLE_PAYMENTS in
  Ok (with_payments res (shuffle rng (SignableTransaction.payments res))).

(** The fee required *)
Definition necessary_fee {E} (self : t) : outcome E Z :=
  let? (_, necessary_fee) := weight_and_necessary_fee self in
  u64 necessary_fee.
End New.

(** *** Encoding *)

Section Codec.
Context {D : Dalek} {K : Keccak} {R : Rand}.

(** The [const] generic of [MoneroAddress] *)
Definition ADDRESS_BYTES : Z :=
  match NetworkedAddressBytes.MONERO_BYTES with Some b => NetworkedAddressBytes.to_const_generic b | None => 0 end.

Definition write_view_pair (view_pair : ViewPair.t) : bytes :=
  CompressedPoint.write (Point.compress (ViewPair.spend view_pair)) ++ Scalar.write (ViewPair.view_key view_pair).

Definition write_subaddress (subaddress : option SubaddressIndex.t) : bytes :=
  match subaddress with
  | Some subaddress => to_le 4 (SubaddressIndex.account subaddress) ++ to_le 4 (SubaddressIndex.address subaddress)
  | None => to_le 4 0 ++ to_le 4 0
  end.

Definition write_address {E} (addr : MoneroAddress) : outcome E bytes :=
  let? s := Address.to_string ADDRESS_BYTES addr in Ok (write_vec write_byte s).

Definition write_payment {E} (payment : InternalPayment) : outcome E bytes :=
  match payment with
  | Payment addr amount =>
      let? addr := write_address addr in Ok ([0] ++ addr ++ to_le 8 amount)
  | ChangePayment (AddressOnly addr) =>
      let? addr := write_address addr in Ok ([1] ++ addr)
  | ChangePayment (Standard view_pair subaddress) =>
      Ok ([2] ++ write_view_pair view_pair ++ write_subaddress subaddress)
  | ChangePayment (Guaranteed view_pair subaddress) =>
      Ok ([3] ++ write_view_pair (GuaranteedViewPair.pair view_pair) ++ write_subaddress subaddress)
  end.

(** [write], also [serialize] *)
Definition write {E} (self : t) : outcome E bytes :=
  let? payments := each write_payment (payments self) in
  Ok (write_byte (RctType.to_u8 (rct_type self)) ++ outgoing_view_key self ++
      write_vec OutputWithDecoys.write (inputs self) ++
      (VarInt.write (len payments) ++ concat payments) ++
      write_vec (write_vec write_byte) (data self) ++
      FeeRate.write (fee_rate self)).

(** What isn't UTF-8 isn't an address either. *)
Definition read_address : io_reader MoneroAddress :=
  let* s := read_vec read_byte (Some Address.SIZE_UPPER_BOUND) in
  match Address.from_str_with_unchecked_network ADDRESS_BYTES s with
  | Ok addr => rret addr
  | Err _ => rother "invalid address"
  | Panic => rpanic
  end.

Definition read_view_pair (msg : string) : io_reader ViewPair.t :=
  let* spend := CompressedPoint.read in
  let* spend := ok_or_other (CompressedPoint.decompress spend) msg in
  let* view := Scalar.read in
  rlift (omap_err (fun _ => Other "torsioned spend key") (ViewPair.new spend view)).

Definition read_subaddress : io_reader (option SubaddressIndex.t) :=
  let* account := read_u32 in
  let* address := read_u32 in
  rret (SubaddressIndex.new account address).

Definition read_payment : io_reader InternalPayment :=
  let* kind := read_byte in
  match kind with
  | 0 =>
      let* addr := read_address in
      let* amount := read_u64 in
      rret (Payment addr amount)
  | 1 => rmap (fun addr => ChangePayment (AddressOnly addr)) read_address
  | 2 =>
      let* view_pair := read_view_pair "`Change` payment had invalid public spend key" in
      let* subaddress := read_subaddress in
      rret (ChangePayment (Standard view_pair subaddress))
  | 3 =>
      let* view_pair := read_view_pair "guaranteed `Change` payment had invalid public spend key" in
      let* subaddress := read_subaddress in
      rret (ChangePayment (Guaranteed (GuaranteedViewPair.mk view_pair) subaddress))
  | _ => rother "invalid payment"
  end.

(** The fields [read] reads *)
Definition read_fields : io_reader t :=
  let* rct_type := read_byte in
  let* rct_type := ok_or_other (RctType.of_u8 rct_type) "unsupported/invalid RctType" in
  let* outgoing_view_key := read_bytes 32 in
  let* inputs := read_vec OutputWithDecoys.read (Some TransactionPrefix.INPUTS_UPPER_BOUND) in
  let* payments := read_vec read_payment (Some MAX_COMMITMENTS) in
  let* data := read_vec (read_vec read_byte (Some MAX_ARBITRARY_DATA_SIZE)) (Some MAX_EXTRA_SIZE_BY_RELAY_RULE) in
  let* fee_rate := FeeRate.read in
  rret (mk rct_type outgoing_view_key inputs payments data fee_rate).

(** The error of [validate] is the source of the error read. *)
Definition read : io_reader t :=
  let* res := read_fields in
  let* _ := rlift (omap_err (fun _ => Other "invalid SignableTransaction") (validate res)) in
  rret res.
End Codec.
End SignableTransaction.

(** [struct SignableTransactionWithKeyImages] *)
Module SignableTransactionWithKeyImages.
Section Ops.
Context {D : Dalek} {K : Keccak} {R : Rand}.
Record t := mk { intent : SignableTransaction.t; key_images : list CompressedPoint }.

(** The commitments in the clear, for which the proof is made *)
Definition bulletproof {E} (intent : SignableTransaction.t) (bp_commitments : list Commitment.t) : outcome E Bulletproof :=
  let? bp_rng := SignableTransaction.seeded_rng intent SignableTransaction.BULLETPROOF in
  let? (proof, _) :=
    match SignableTransaction.rct_type intent with
    | RctType.ClsagBulletproof => expect_ok (Prove.prove (chacha20 bp_rng) bp_commitments)
    | RctType.ClsagBulletproofPlus => expect_ok (Prove.prove_plus (chacha20 bp_rng) bp_commitments)
    | _ => Panic
    end in
  Ok proof.

Definition transaction_without_signatures {E} (self : t) : outcome E (Transaction NotPruned) :=
  let? commitments_and_encrypted_amounts :=
    SignableTransaction.commitments_and_encrypted_amounts (intent self) (key_images self) in
  let? commitments :=
    each (fun x => let? c := Commitment.commit (fst x) in Ok (Point.compress c)) commitments_and_encrypted_amounts in
  let bp_commitments := map fst commitments_and_encrypted_amounts in
  let encrypted_amounts := map snd commitments_and_encrypted_amounts in
  let? bulletproof := bulletproof (intent self) bp_commitments in
  let inputs := SignableTransaction.prefix_inputs (intent self) (key_images self) in
  let? outputs := SignableTransaction.outputs (intent self) (key_images self) in
  let? extra := SignableTransaction.extra (intent self) in
  let? fee := SignableTransaction.fee (intent self) in
  Ok (V2 (P := NotPruned) (TransactionPrefix.mk Timelock.None inputs outputs extra)
        (Some (mk_RctProofs (RctBase.mk fee [] encrypted_amounts commitments) (ClsagProofs [] [] bulletproof)))).
End Ops.
End SignableTransactionWithKeyImages.

(** *** Signing ([mod.rs]) *)

Module Signing.
Import SignableTransaction.
Section Ops.
Context {D : Dalek} {K : Keccak} {R : Rand}.

Definition with_inputs (self : t) (inputs : list OutputWithDecoys.t) : t :=
  mk (rct_type self) (outgoing_view_key self) inputs (payments self) (data self) (fee_rate self).

Definition with_key_images (self : t) (key_images : list CompressedPoint) : SignableTransactionWithKeyImages.t :=
  let sorted_inputs := sort_by (fun a b => key_image_lt (snd a) (snd b)) (zip (inputs self) key_images) in
  SignableTransactionWithKeyImages.mk (with_inputs self (map fst sorted_inputs)) (map snd sorted_inputs).

Definition unsigned_transaction {E} (self : t) (key_images : list CompressedPoint)
  : outcome E (option (Transaction NotPruned)) :=
  if negb (length (inputs self) =? length key_images)%nat then Ok None
  else
    let? tx := SignableTransactionWithKeyImages.transaction_without_signatures (with_key_images self key_images) in
    Ok (Some tx).

(** The key image of an input, if the spend key is right *)
Definition input_key_image (sender_spend_key : DScalar) (input : OutputWithDecoys.t) : outcome SendError CompressedPoint :=
  let? key_offset := Scalar.into (input_key_offset input) in
  let input_key := sc_add sender_spend_key key_offset in
  if negb (ed_eqb (ed_mul input_key ED25519_BASEPOINT_POINT) (SignableTransaction.input_key input)) then Err WrongPrivateKey
  else
    let? generator := Point.biased_hash (Point.compress (SignableTransaction.input_key input)) in
    Ok (Point.compress (ed_mul input_key generator)).

(** The key and the context of an input *)
Definition clsag_input (sender_spend_key : DScalar) (input : OutputWithDecoys.t)
  : outcome SendError (Scalar * ClsagContext.t) :=
  let? key_offset := Scalar.into (input_key_offset input) in
  let input_key := Scalar.from (sc_add sender_spend_key key_offset) in
  let? context :=
    omap_err SendClsagError (ClsagContext.new (OutputWithDecoys.decoys input) (input_commitment input)) in
  Ok (input_key, context).

(** What is filled in a transaction without its CLSAGs *)
Definition fill_clsags {E} (tx : Transaction NotPruned) (signed : list (Clsag.t * Point)) : outcome E (Transaction NotPruned) :=
  match tx with
  | V2 prefix (Some (mk_RctProofs base (ClsagProofs _ _ bulletproof))) =>
      Ok (V2 (P := NotPruned) prefix
            (Some (mk_RctProofs base (ClsagProofs (map fst signed) (map (fun x => Point.compress (snd x)) signed) bulletproof))))
  | _ => Panic
  end.

Definition sign (self : t) (rng : Clsag.rng) (sender_spend_key : Scalar) : outcome SendError (Transaction NotPruned) :=
  let? sender_spend_key := Scalar.into sender_spend_key in
  let? key_images := each (input_key_image sender_spend_key) (inputs self) in
  let tx := with_key_images self key_images in
  let intent := SignableTransactionWithKeyImages.intent tx in
  let? clsag_signs := each (clsag_input sender_spend_key) (inputs intent) in
  let? mask_sum := sum_output_masks intent (SignableTransactionWithKeyImages.key_images tx) in
  let? tx := SignableTransactionWithKeyImages.transaction_without_signatures tx in
  let? msg := Transaction.signature_hash tx in
  let? msg := expect msg in
  let? (clsags_and_pseudo_outs, _) := omap_err SendClsagError (Clsag.sign rng clsag_signs mask_sum msg) in
  fill_clsags tx clsags_and_pseudo_outs.
End Ops.
End Signing.

(** *** Eventualities ([eventuality.rs]) *)

Module Eventuality.
Section Ops.
Context {D : Dalek} {K : Keccak} {R : Rand}.

(** [struct Eventuality] *)
Definition t : Type := SignableTransaction.t.

Definition from (tx : SignableTransaction.t) : t := tx.
Definition extra {E} (self : t) : outcome E bytes := SignableTransaction.extra self.
Definition write {E} (self : t) : outcome E bytes := SignableTransaction.write self.
Definition read : io_reader t := SignableTransaction.read.

Definition input_key_image (input : Input) : option CompressedPoint :=
  match input with Gen _ => None | ToKey _ _ key_image => Some key_image end.

Definition matches {E} (self : t) (tx : Transaction Pruned) : outcome E bool :=
  let prefix := Transaction.prefix tx in
  let? extra := SignableTransaction.extra self in
  if negb (bytes_eqb extra (TransactionPrefix.extra prefix)) then Ok false
  else if negb (bool_decide (TransactionPrefix.additional_timelock prefix = Timelock.None)) then Ok false
  else if negb (length (TransactionPrefix.inputs prefix) =? length (SignableTransaction.inputs self))%nat then Ok false
  else
    match mapM input_key_image (TransactionPrefix.inputs prefix) with
    | None => Ok false
    | Some key_images =>
        let? outputs := SignableTransaction.outputs self key_images in
        if negb (bool_decide (outputs = TransactionPrefix.outputs prefix)) then Ok false
        else
          let? commitments_and_encrypted_amounts := SignableTransaction.commitments_and_encrypted_amounts self key_images in
          match tx with
          | V2 _ (Some proofs) =>
              let? commitments :=
                each (fun x => let? c := Commitment.commit (fst x) in Ok (Point.compress c)) commitments_and_encrypted_amounts in
              if negb (bool_decide (RctBase.commitments (pruned_base proofs) = commitments)) then Ok false
              else if negb (bool_decide (RctBase.encrypted_amounts (pruned_base proofs) = map snd commitments_and_encrypted_amounts))
              then Ok false
              else Ok true
          | _ => Ok false
          end
    end.
End Ops.
End Eventuality.
