(* ===== verification/SendKeys.v ===== *)
(** Well-formed signable transactions: their keys, derivations and outputs are
    computed without a panic, and don't depend on the order of the inputs
    ([wallet/src/send/tx_keys.rs]). *)

From Stdlib Require Import ZArith Lia Sorted.
From stdpp Require Import base list strings numbers sorting.
From S2P Require Import Prelude Dalek MoneroIo Ed25519 Clsag ClsagSign Bulletproofs RingCT Transaction Interface.
From S2P Require Import Address Extra WalletOutput ViewPair DecoySelection Send.

Import SignableTransaction.

(** ** The order of key images *)

Section Order.
Lemma bytes_cmp_eq a b : bytes_cmp a b = Eq <-> a = b.
Proof.
  revert b. induction a as [|x a IH]; intros [|y b]; cbn; try (split; (reflexivity || discriminate)).
  destruct (Z.compare_spec x y) as [->|Hlt|Hlt].
  - rewrite IH. split; [intros ->; reflexivity|intros [= ->]; reflexivity].
  - split; [discriminate|intros [= -> _]; lia].
  - split; [discriminate|intros [= -> _]; lia].
Qed.

Lemma bytes_cmp_opp a b : bytes_cmp b a = CompOpp (bytes_cmp a b).
Proof.
  revert b. induction a as [|x a IH]; intros [|y b]; cbn; try reflexivity.
  rewrite (Z.compare_antisym x y). destruct (x ?= y); cbn; [apply IH|reflexivity..].
Qed.

Lemma bytes_cmp_trans a b c : bytes_cmp a b <> Gt -> bytes_cmp b c <> Gt -> bytes_cmp a c <> Gt.
Proof.
  revert b c. induction a as [|x a IH]; intros [|y b] [|z c]; cbn; try congruence; intros H1 H2.
  destruct (Z.compare_spec x y) as [->|Hxy|Hxy]; [|destruct (Z.compare_spec y z) as [->|Hyz|Hyz]; try congruence|congruence].
  - destruct (y ?= z); try congruence. exact (IH _ _ H1 H2).
  - rewrite (proj2 (Z.compare_lt_iff x z)) by lia. discriminate.
  - rewrite (proj2 (Z.compare_lt_iff x z)) by lia. discriminate.
Qed.

(** [a] doesn't go after [b]. *)
Definition key_image_le (a b : CompressedPoint) : Prop := bytes_cmp b a <> Gt.

Lemma key_image_le_trans a b c : key_image_le a b -> key_image_le b c -> key_image_le a c.
Proof. unfold key_image_le. intros H1 H2. exact (bytes_cmp_trans _ _ _ H2 H1). Qed.

Lemma key_image_lt_le a b : if key_image_lt a b then key_image_le a b else key_image_le b a.
Proof.
  unfold key_image_lt, key_image_cmp, key_image_le, CompressedPoint.cmp. rewrite (bytes_cmp_opp a b).
  destruct (bytes_cmp a b); cbn; discriminate.
Qed.

Lemma key_image_le_antisym a b : key_image_le a b -> key_image_le b a -> a = b.
Proof.
  unfold key_image_le. rewrite (bytes_cmp_opp a b). destruct (bytes_cmp a b) eqn:H; cbn; try congruence.
  intros _ _. apply bytes_cmp_eq, H.
Qed.

(** Sorted by keys which don't repeat, the order given doesn't matter. *)
Lemma sort_by_key_image {A} (key : A -> CompressedPoint) l l' : l ≡ₚ l' -> NoDup (map key l) ->
  sort_by (fun a b => key_image_lt (key a) (key b)) l = sort_by (fun a b => key_image_lt (key a) (key b)) l'.
Proof.
  intros Hp Hn. set (R := fun a b => key_image_le (key a) (key b)).
  assert (Hs : forall l, StronglySorted R (sort_by (fun a b => key_image_lt (key a) (key b)) l)).
  { intros k. apply sort_by_sorted; [intros a b c; apply key_image_le_trans|]. intros a b. apply key_image_lt_le. }
  apply (StronglySorted_unique_strong R); [|apply Hs|apply Hs|rewrite !sort_by_perm; exact Hp].
  intros x y Hx Hy H1 H2. rewrite sort_by_perm in Hx, Hy. rewrite <- Hp in Hy.
  pose proof (key_image_le_antisym _ _ H1 H2) as He. apply list_elem_of_lookup in Hx as [i Hi], Hy as [j Hj].
  assert (i = j); [|congruence]. apply (NoDup_lookup (map key l) i j (key x) Hn); rewrite list_lookup_fmap.
  - rewrite Hi. reflexivity.
  - rewrite Hj, He. reflexivity.
Qed.
End Order.

(** ** One computation per element *)

Lemma each_perm {E A B} (f : A -> outcome E B) l l' bs : l ≡ₚ l' -> each f l = Ok bs ->
  exists bs', each f l' = Ok bs' /\ bs ≡ₚ bs'.
Proof.
  intros Hp Hb. apply each_ok in Hb. destruct (Permutation_Forall2 Hp Hb) as (bs' & Hb' & Hf).
  exists bs'. split; [apply each_ok, Hf|exact Hb'].
Qed.

Lemma each_all {A B} (f : forall E, A -> outcome E B) (P : A -> B -> Prop) l :
  (forall a, In a l -> exists b, (forall E, f E a = Ok b) /\ P a b) ->
  exists bs, (forall E, each (f E) l = Ok bs) /\ Forall2 P l bs.
Proof.
  induction l as [|a l IH]; intros H; [exists []; split; [reflexivity|constructor]|].
  destruct (H a (or_introl eq_refl)) as (b & Hb & HP). destruct IH as (bs & Hbs & Hf); [intros; apply H; right; assumption|].
  exists (b :: bs). split; [|constructor; assumption]. intros E. cbn [each]. rewrite Hb, Hbs. reflexivity.
Qed.

Lemma enumerate_lookup {A} (l : list A) i : enumerate l !! i = (fun a => (i, a)) <$> (l !! i).
Proof.
  unfold enumerate. destruct (l !! i) as [a|] eqn:Ha.
  - apply lookup_zip_with_Some. exists i, a. split; [reflexivity|]. split; [|exact Ha].
    apply lookup_seq. split; [reflexivity|]. apply lookup_lt_Some in Ha. lia.
  - apply lookup_ge_None in Ha. apply lookup_ge_None. rewrite length_zip, length_seq. lia.
Qed.

Lemma enumerate_length {A} (l : list A) : length (enumerate l) = length l.
Proof. unfold enumerate. rewrite length_zip, length_seq. lia. Qed.

(** ** Well-formedness *)

Section WellFormed.
Context {D : Dalek}.

Definition view_pair_ok (x : ViewPair.t) : Prop :=
  scalar_ok (ViewPair.view_key x) /\ ed_is_torsion_free (ViewPair.spend x) = true.

Definition change_ok (x : ChangeEnum) : Prop :=
  match x with
  | AddressOnly a => Address.address_ok a
  | Standard view_pair subaddress => view_pair_ok view_pair /\ opt_ok subaddress_ok subaddress
  | Guaranteed view_pair subaddress => view_pair_ok (GuaranteedViewPair.pair view_pair) /\ opt_ok subaddress_ok subaddress
  end.

Definition payment_ok (x : InternalPayment) : Prop :=
  match x with
  | Payment a amount => Address.address_ok a /\ U 64 amount
  | ChangePayment change => change_ok change
  end.

(** What the types of the fields and the memory they are held in ensure *)
Record signable_ok (self : t) : Prop := {
  ok_view_key : is_array 32 (outgoing_view_key self);
  ok_inputs : Forall output_with_decoys_ok (inputs self);
  ok_payments : Forall payment_ok (payments self);
  ok_data : Forall is_bytes (data self);
  ok_fee_rate : fee_rate_ok (fee_rate self);
  ok_memory : len (inputs self) < 2 ^ 32 /\ len (payments self) < 2 ^ 32 /\ len (data self) + len (concat (data self)) < 2 ^ 32
}.
End WellFormed.

(** ** Keys *)

Section Keys.
Context {D : Dalek} {DL : DalekLaws D} {K : Keccak} {KL : KeccakLaws K} {R : Rand} {PR : Primitives}.

Lemma change_address_all c : change_ok c -> exists a, (forall E, ChangeEnum.address (E := E) c = Ok a) /\ Address.address_ok a /\
  match c with
  | AddressOnly a' => a = a'
  | Standard _ _ => AddressType.payment_id (Address.kind a) = None /\ AddressType.is_guaranteed (Address.kind a) = false
  | Guaranteed _ _ => AddressType.payment_id (Address.kind a) = None /\ AddressType.is_guaranteed (Address.kind a) = true
  end.
Proof.
  destruct c as [a|vp sub|gvp sub]; cbn [change_ok]; intros Hc; [exists a; auto|..]; destruct Hc as [[Hv _] _].
  - destruct sub as [index|].
    + destruct (subaddress_keys_total vp index Hv) as (v & m & _ & Hk). eexists. cbn [ChangeEnum.address]. unfold ViewPair.subaddress.
      split; [intros E; rewrite Hk; reflexivity|]. split; [exact I|split; reflexivity].
    + destruct (view_total vp Hv) as (v & _ & Hk). eexists. cbn [ChangeEnum.address]. unfold ViewPair.legacy_address.
      split; [intros E; rewrite Hk; reflexivity|]. split; [exact I|split; reflexivity].
  - destruct sub as [index|].
    + destruct (subaddress_keys_total (GuaranteedViewPair.pair gvp) index Hv) as (v & m & _ & Hk). eexists.
      cbn [ChangeEnum.address]. unfold GuaranteedViewPair.address.
      split; [intros E; rewrite Hk; reflexivity|]. split; [exact I|split; reflexivity].
    + destruct (view_total (GuaranteedViewPair.pair gvp) Hv) as (v & _ & Hk). eexists. cbn [ChangeEnum.address].
      unfold GuaranteedViewPair.address. split; [intros E; rewrite Hk; reflexivity|]. split; [exact I|split; reflexivity].
Qed.

Lemma address_all p : payment_ok p -> exists a, (forall E, InternalPayment.address (E := E) p = Ok a) /\ Address.address_ok a.
Proof.
  destruct p as [a amount|c]; cbn [payment_ok]; intros Hp; [exists a; split; [reflexivity|apply Hp]|].
  destruct (change_address_all c Hp) as (a & Ha & Hok & _). exists a. auto.
Qed.

Lemma input_keys_all l : Forall output_with_decoys_ok l ->
  exists ikc, (forall E, each (E := E) (fun output => let? commitment := Commitment.commit (input_commitment output) in
                                         Ok (input_key output, commitment)) l = Ok ikc) /\
    Forall2 (fun input x => fst x = input_key input) l ikc.
Proof.
  intros Hl. apply each_all. intros input Hin. rewrite list.Forall_forall in Hl.
  destruct (Hl input (proj2 (list_elem_of_In _ _) Hin)) as [[_ Hc] _].
  destruct (commit_total (input_commitment input) Hc) as [P HP]. exists (input_key input, P).
  split; [intros E; rewrite HP; reflexivity|reflexivity].
Qed.

Lemma seeded_rng_of_all dst ovk ikc : len dst <= 255 -> exists seed, forall E, seeded_rng_of (E := E) dst ovk ikc = Ok seed.
Proof. intros Hl. eexists. intros E. unfold seeded_rng_of. destruct (Z.ltb_spec 255 (len dst)); [lia|]. reflexivity. Qed.

(** The keys a transaction's outputs are made with *)
Lemma transaction_keys_all self : Forall output_with_decoys_ok (inputs self) ->
  exists x xs, (forall E, transaction_keys (E := E) self = Ok (Scalar.from x, map Scalar.from xs)) /\
    length xs = if should_use_additional_keys self then length (payments self) else 0%nat.
Proof.
  intros Hi. destruct (input_keys_all _ Hi) as (ikc & Hk & _).
  destruct (seeded_rng_of_all TRANSACTION_KEYS (outgoing_view_key self) ikc) as [seed Hs]; [discriminate|].
  destruct (random_vec_from (length (payments self)) (fun n => chacha20 seed (S n))) as (xs & Hxs & Hl).
  exists (sc_from_bytes_mod_order_wide (chacha20 seed 0%nat)), (if should_use_additional_keys self then xs else []).
  split; [|destruct (should_use_additional_keys self); [exact Hl|reflexivity]].
  intros E. unfold transaction_keys, input_keys_and_commitments, transaction_keys_new. rewrite Hk. cbn [obind]. rewrite Hs.
  cbn [obind Clsag.random]. destruct (should_use_additional_keys self); [rewrite Hxs|]; reflexivity.
Qed.

Lemma seeded_rng_all self dst : len dst <= 255 -> Forall output_with_decoys_ok (inputs self) ->
  exists seed, forall E, seeded_rng (E := E) self dst = Ok seed.
Proof.
  intros Hl Hi. destruct (input_keys_all _ Hi) as (ikc & Hk & _).
  destruct (seeded_rng_of_all dst (outgoing_view_key self) ikc Hl) as [seed Hs]. exists seed. intros E.
  unfold seeded_rng, input_keys_and_commitments. rewrite Hk. apply Hs.
Qed.

Lemma find_exists {A} (f : A -> bool) l : existsb f l = true -> exists x, List.find f l = Some x /\ f x = true.
Proof.
  induction l as [|a l IH]; cbn; [discriminate|]. destruct (f a) eqn:Ha; [eauto|exact IH].
Qed.

Section Self.
Context (self : t) (Hself : signable_ok self) (Hpay : existsb InternalPayment.is_payment (payments self) = true).

Lemma in_payment_ok p : In p (payments self) -> payment_ok p.
Proof. intros Hin. apply list_elem_of_In in Hin. exact (proj1 (list.Forall_forall _ _) (ok_payments _ Hself) p Hin). Qed.

Definition additional_length : nat := if should_use_additional_keys self then length (payments self) else 0.

(** The public keys: how each is made of its private key *)
Definition pub_of (x : DScalar) (xs : list DScalar) (pub : Point) (adds : list CompressedPoint) : Prop :=
  if has_payments_to_subaddresses self && negb (should_use_additional_keys self)
  then exists a amount, List.find InternalPayment.is_payment (payments self) = Some (Payment a amount) /\
         pub = ed_mul x (Address.spend a) /\ adds = []
  else pub = ed_mul x ED25519_BASEPOINT_POINT /\
       if should_use_additional_keys self
       then Forall2 (fun y add => exists a, (forall E, InternalPayment.address (E := E) (snd y) = Ok a) /\
              add = Point.compress (ed_mul (fst y) (if AddressType.is_subaddress (Address.kind a) then Address.spend a
                                                    else ED25519_BASEPOINT_POINT)))
              (zip xs (payments self)) adds
       else adds = [].

Lemma keys_all : exists x xs pub adds,
  (forall E, transaction_keys (E := E) self = Ok (Scalar.from x, map Scalar.from xs)) /\ length xs = additional_length /\
  (forall E, transaction_keys_pub (E := E) self = Ok (pub, adds)) /\ length adds = additional_length /\
  Forall (is_array 32) adds /\ pub_of x xs pub adds.
Proof.
  destruct (transaction_keys_all self (ok_inputs _ Hself)) as (x & xs & Hk & Hl). exists x, xs.
  unfold transaction_keys_pub, additional_length, pub_of.
  destruct (has_payments_to_subaddresses self && negb (should_use_additional_keys self)) eqn:Hsub.
  - apply andb_prop in Hsub as [_ Hs]. destruct (should_use_additional_keys self); [discriminate|].
    destruct (find_exists _ _ Hpay) as ([a amount|c] & Hf & Hp); [|discriminate].
    exists (ed_mul x (Address.spend a)), []. rewrite Hf. split_and!; auto; [|eauto].
    intros E. rewrite Hk. cbn [obind]. rewrite scalar_into_from. reflexivity.
  - destruct (should_use_additional_keys self) eqn:Hs.
    + destruct (each_all (fun E => additional_key_pub (E := E)) (fun y add => exists y', Scalar.from y' = fst y /\
        exists a, (forall E, InternalPayment.address (E := E) (snd y) = Ok a) /\
              add = Point.compress (ed_mul y' (if AddressType.is_subaddress (Address.kind a) then Address.spend a
                                                    else ED25519_BASEPOINT_POINT)))
        (zip (map Scalar.from xs) (payments self))) as (adds & Ha & Hf).
      { intros [y p] Hin. apply list_elem_of_In in Hin. pose proof (elem_of_zip_l _ _ _ _ Hin) as Hy. pose proof (elem_of_zip_r _ _ _ _ Hin) as Hp.
        apply list_elem_of_In, in_map_iff in Hy as (y' & <- & _). apply list_elem_of_In in Hp. destruct (address_all p (in_payment_ok p Hp)) as (a & Haddr & _).
        eexists. split; [|exists y'; split; [reflexivity|]; exists a; split; [exact Haddr|reflexivity]].
        intros E. unfold additional_key_pub. rewrite scalar_into_from. cbn [obind]. rewrite Haddr. cbn [obind].
        destruct (AddressType.is_subaddress _); reflexivity. }
      exists (ed_mul x ED25519_BASEPOINT_POINT), adds. split_and!; auto.
      * intros E. rewrite Hk. cbn [obind]. rewrite scalar_into_from. cbn [obind]. rewrite Ha. reflexivity.
      * apply list.Forall2_length in Hf. rewrite <- Hf, length_zip, length_map. lia.
      * clear -Hf DL. induction Hf as [|y add l adds (y' & _ & a & _ & ->) _ IH]; constructor; [apply ed_compress_array|exact IH].
      * clear Ha Hl Hk. revert adds Hf. generalize (payments self) as l. induction xs as [|y xs IH]; intros [|p l] adds Hf; cbn in Hf |- *; try (inversion Hf; subst; constructor; fail).
        inversion Hf as [|? add ? adds' (y' & Hy & a & Ha & ->) Hf']; subst. constructor; [|exact (IH l adds' Hf')].
        exists a. split; [exact Ha|]. cbn in Hy |- *. apply sc_to_bytes_inj in Hy as ->. reflexivity.
    + exists (ed_mul x ED25519_BASEPOINT_POINT), []. split_and!; auto.
      intros E. rewrite Hk. cbn [obind]. rewrite scalar_into_from. reflexivity.
Qed.

(** ** Derivations *)

(** What a payment's ECDH is *)
Definition ecdh_of (x : DScalar) (xs : list DScalar) (pub : Point) (i : nat) (p : InternalPayment) (e : Point) : Prop :=
  match p with
  | Payment a _ | ChangePayment (AddressOnly a) =>
      e = ed_mul (if AddressType.is_subaddress (Address.kind a) then default x (xs !! i) else x) (Address.view a)
  | ChangePayment (Standard view_pair _) =>
      exists v, (forall E, Scalar.into (E := E) (ViewPair.view_key view_pair) = Ok v) /\ e = ed_mul v pub
  | ChangePayment (Guaranteed view_pair _) =>
      exists v, (forall E, Scalar.into (E := E) (ViewPair.view_key (GuaranteedViewPair.pair view_pair)) = Ok v) /\ e = ed_mul v pub
  end.

Lemma ecdhs_all : exists x xs pub adds es,
  (forall E, transaction_keys (E := E) self = Ok (Scalar.from x, map Scalar.from xs)) /\ length xs = additional_length /\
  (forall E, transaction_keys_pub (E := E) self = Ok (pub, adds)) /\ length adds = additional_length /\
  Forall (is_array 32) adds /\ pub_of x xs pub adds /\
  (forall E, ecdhs (E := E) self = Ok es) /\
  Forall2 (fun y e => ecdh_of x xs pub (fst y) (snd y) e) (enumerate (payments self)) es.
Proof.
  destruct keys_all as (x & xs & pub & adds & Hk & Hl & Hp & Hal & Haa & Hpub). exists x, xs, pub, adds.
  destruct (each_all (fun E => ecdh (E := E) (Scalar.from x) (map Scalar.from xs) pub)
    (fun y e => ecdh_of x xs pub (fst y) (snd y) e) (enumerate (payments self))) as (es & He & Hf).
  - intros [i p] Hin. apply list_elem_of_In, elem_of_zip_r, list_elem_of_In, in_payment_ok in Hin.
    destruct (address_all p Hin) as (a & Ha & _).
    assert (Hkey : exists k, k = (if AddressType.is_subaddress (Address.kind a) then default x (xs !! i) else x) /\
      forall E, Scalar.into (E := E) (if AddressType.is_subaddress (Address.kind a)
        then default (Scalar.from x) (map Scalar.from xs !! i) else Scalar.from x) = Ok k).
    { eexists. split; [reflexivity|]. intros E. destruct (AddressType.is_subaddress _); [|apply scalar_into_from].
      rewrite list_lookup_fmap. destruct (xs !! i); apply scalar_into_from. }
    destruct Hkey as (k & Hkd & Hk'). unfold ecdh.
    destruct p as [a' amount|[a'|vp sub|gvp sub]]; cbn [InternalPayment.address ChangeEnum.address] in Ha.
    + pose proof (Ok_inj _ _ (Ha unit)) as ->. exists (ed_mul k (Address.view a)). split; [|cbn; rewrite Hkd; reflexivity].
      intros E. cbn [InternalPayment.address obind]. rewrite Hk'. reflexivity.
    + pose proof (Ok_inj _ _ (Ha unit)) as ->. exists (ed_mul k (Address.view a)). split; [|cbn; rewrite Hkd; reflexivity].
      intros E. cbn [InternalPayment.address ChangeEnum.address obind]. rewrite Hk'. reflexivity.
    + destruct Hin as [[Hv _] _]. destruct (scalar_into_all _ Hv) as (v & Hv' & _). exists (ed_mul v pub).
      split; [|exists v; auto]. intros E. cbn [InternalPayment.address ChangeEnum.address]. rewrite Ha. cbn [obind]. rewrite Hk'.
      cbn [obind]. rewrite Hv'. reflexivity.
    + destruct Hin as [[Hv _] _]. destruct (scalar_into_all _ Hv) as (v & Hv' & _). exists (ed_mul v pub).
      split; [|exists v; auto]. intros E. cbn [InternalPayment.address ChangeEnum.address]. rewrite Ha. cbn [obind]. rewrite Hk'.
      cbn [obind]. rewrite Hv'. reflexivity.
  - exists es. split_and!; auto. intros E. unfold ecdhs. rewrite Hk. cbn [obind]. rewrite Hp. cbn [obind]. apply He.
Qed.

(** The derivation of the [i]th payment *)
Definition derived (u : bytes) (i : nat) (p : InternalPayment) (e : Point) (d : SharedKeyDerivations.t) : Prop :=
  exists a s, (forall E, InternalPayment.address (E := E) p = Ok a) /\
    (forall E, SharedKeyDerivations.output_derivations (E := E)
       (if AddressType.is_guaranteed (Address.kind a) then Some u else None) e (Z.of_nat i) = Ok d) /\
    SharedKeyDerivations.shared_key d = Scalar.from s /\ U 8 (SharedKeyDerivations.view_tag d).

Lemma derivations_all key_images es : (forall E, ecdhs (E := E) self = Ok es) -> exists ds,
  (forall E, shared_key_derivations (E := E) self key_images = Ok ds) /\
  Forall2 (fun y d => derived (SharedKeyDerivations.uniqueness (prefix_inputs self key_images)) (fst y) (fst (snd y)) (snd (snd y)) d)
    (enumerate (zip (payments self) es)) ds.
Proof.
  intros He. unfold shared_key_derivations.
  destruct (each_all (fun E (x : nat * (InternalPayment * Point)) =>
    let '(i, (payment, ecdh)) := x in
    let? addr := InternalPayment.address (E := E) payment in
    SharedKeyDerivations.output_derivations
      (if AddressType.is_guaranteed (Address.kind addr)
       then Some (SharedKeyDerivations.uniqueness (prefix_inputs self key_images)) else None) ecdh (Z.of_nat i))
    (fun y d => derived (SharedKeyDerivations.uniqueness (prefix_inputs self key_images)) (fst y) (fst (snd y)) (snd (snd y)) d)
    (enumerate (zip (payments self) es))) as (ds & Hd & Hf).
  - intros [i [p e]] Hin. apply list_elem_of_In, elem_of_zip_r, elem_of_zip_l, list_elem_of_In, in_payment_ok in Hin.
    destruct (address_all p Hin) as (a & Ha & _).
    destruct (derivations_total (if AddressType.is_guaranteed (Address.kind a)
      then Some (SharedKeyDerivations.uniqueness (prefix_inputs self key_images)) else None) e (Z.of_nat i)) as (d & s & Hd & Hs & Ht).
    exists d. split; [intros E; rewrite Ha; apply Hd|]. exists a, s. auto.
  - exists ds. split; [|exact Hf]. intros E. rewrite He. apply Hd.
Qed.

Lemma xors_all es : (forall E, ecdhs (E := E) self = Ok es) -> exists xors,
  (forall E, payment_id_xors (E := E) self = Ok xors) /\ Forall2 (fun e xor => is_array 8 xor /\
     forall E, SharedKeyDerivations.payment_id_xor (E := E) e = Ok xor) es xors.
Proof.
  intros He. unfold payment_id_xors.
  destruct (each_all (fun E => SharedKeyDerivations.payment_id_xor (E := E)) (fun e xor => is_array 8 xor /\
     forall E, SharedKeyDerivations.payment_id_xor (E := E) e = Ok xor) es) as (xors & Hx & Hf).
  - intros e _. destruct (first_8_all (SharedKeyDerivations.derivation e ++ [141])) as (m & Hm & Hl). exists m. auto.
  - exists xors. split; [|exact Hf]. intros E. rewrite He. apply Hx.
Qed.

Lemma derivations_length key_images es ds : length es = length (payments self) ->
  Forall2 (fun y d => derived (SharedKeyDerivations.uniqueness (prefix_inputs self key_images)) (fst y) (fst (snd y)) (snd (snd y)) d)
    (enumerate (zip (payments self) es)) ds -> length ds = length (payments self).
Proof. intros Hl Hf. apply list.Forall2_length in Hf. rewrite <- Hf, enumerate_length, length_zip. lia. Qed.
End Self.
End Keys.
