(* ===== verification/SendWeight.v ===== *)
(** The transaction a signable transaction becomes: its outputs and its extra,
    its weight as computed before it's made, and the fee
    ([wallet/src/send/tx.rs]). *)

From Stdlib Require Import ZArith Lia Sorted.
From stdpp Require Import base list strings numbers sorting.
From S2P Require Import Prelude Dalek MoneroIo Ed25519 Clsag Bulletproofs RingCT Transaction Interface.
From S2P Require Import Address Extra WalletOutput ViewPair DecoySelection Send SendKeys.

Import SignableTransaction.

Section Tx.
Context {D : Dalek} {DL : DalekLaws D} {K : Keccak} {KL : KeccakLaws K} {R : Rand} {PR : Primitives}.

(** The types with CLSAGs, [true] for the one with Bulletproofs+ *)
Definition clsag_type (t : RctType.t) (plus : bool) : Prop :=
  t = if plus then RctType.ClsagBulletproofPlus else RctType.ClsagBulletproof.

Definition ring_len_of (plus : bool) : Z := if plus then 16 else 11.

Lemma ring_len_all t plus : clsag_type t plus -> forall E, ring_len (E := E) t = Ok (ring_len_of plus).
Proof. intros -> E. destruct plus; reflexivity. Qed.

Lemma view_tagged_all t plus : clsag_type t plus -> forall E, view_tagged (E := E) t = Ok plus.
Proof. intros -> E. destruct plus; reflexivity. Qed.

(** If a payment ID is put in the extra *)
Definition has_id (p : InternalPayment) : bool :=
  match InternalPayment.address (E := unit) p with
  | Ok a => match AddressType.payment_id (Address.kind a) with Some _ => true | None => false end
  | _ => false
  end.

Definition extra_has_id (payments : list InternalPayment) : bool := existsb has_id payments || (length payments =? 2)%nat.

Section Self.
Context (self : t) (Hself : signable_ok self) (Hpay : existsb InternalPayment.is_payment (payments self) = true).
Context (plus : bool) (Hplus : clsag_type (rct_type self) plus).

(** *** Outputs *)

(** The output of a payment with derivations *)
Definition output_of (p : InternalPayment) (d : SharedKeyDerivations.t) (o : Output.t) : Prop :=
  exists a s, (forall E, InternalPayment.address (E := E) p = Ok a) /\ SharedKeyDerivations.shared_key d = Scalar.from s /\
    o = Output.mk None (Point.compress (ed_add (ed_mul s ED25519_BASEPOINT_POINT) (Address.spend a)))
          (if plus then Some (SharedKeyDerivations.view_tag d) else None).

Lemma outputs_all key_images es ds : (forall E, ecdhs (E := E) self = Ok es) -> length es = length (payments self) ->
  (forall E, shared_key_derivations (E := E) self key_images = Ok ds) -> 
  Forall2 (fun y d => derived (SharedKeyDerivations.uniqueness (prefix_inputs self key_images)) (fst y) (fst (snd y)) (snd (snd y)) d)
    (enumerate (zip (payments self) es)) ds ->
  exists outs, (forall E, outputs (E := E) self key_images = Ok outs) /\
    Forall2 (fun y o => output_of (fst y) (snd y) o) (zip (payments self) ds) outs.
Proof.
  intros He Hel Hd Hf. unfold outputs.
  destruct (each_all (fun E => output (E := E) (rct_type self)) (fun y o => output_of (fst y) (snd y) o) (zip (payments self) ds))
    as (outs & Ho & Hfo).
  - intros [p d] Hin. apply list_elem_of_In in Hin. pose proof (elem_of_zip_l _ _ _ _ Hin) as Hp. pose proof (elem_of_zip_r _ _ _ _ Hin) as Hdi.
    apply list_elem_of_In in Hp. apply (in_payment_ok self Hself) in Hp. destruct (address_all p Hp) as (a & Ha & _).
    apply list_elem_of_lookup in Hdi as [i Hi]. destruct (Forall2_lookup_r _ _ _ _ _ Hf Hi) as (y & _ & (_ & s & _ & _ & Hs & _)).
    eexists. split; [|exists a, s; split; [exact Ha|split; [exact Hs|reflexivity]]].
    intros E. unfold output. rewrite Hs, scalar_into_from. cbn [obind]. rewrite Ha. cbn [obind].
    rewrite (view_tagged_all _ plus Hplus). reflexivity.
  - exists outs. split; [|exact Hfo]. intros E. rewrite Hd. apply Ho.
Qed.

(** *** Extra *)

Lemma find_payment_id_all l : Forall (fun x => payment_ok (fst x) /\ is_array 8 (snd x)) l ->
  exists r, (forall E, find_payment_id (E := E) l = Ok r) /\
    match r with
    | Some (id, xor) => is_array 8 id /\ is_array 8 xor /\ existsb has_id (map fst l) = true
    | None => existsb has_id (map fst l) = false
    end.
Proof.
  induction 1 as [|[p xor] l [Hp Hx] _ IH]; [exists None; split; [reflexivity|reflexivity]|]. cbn [fst snd] in Hp, Hx.
  destruct (address_all p Hp) as (a & Ha & Hok). cbn [map existsb fst]. unfold has_id at 1 3. rewrite (Ha unit).
  cbn [find_payment_id]. destruct (AddressType.payment_id (Address.kind a)) as [id|] eqn:Hid.
  - exists (Some (id, xor)). split; [intros E; rewrite Ha; cbn [obind]; rewrite Hid; reflexivity|]. split_and!; auto.
    unfold Address.address_ok in Hok. destruct (Address.kind a); cbn in Hid; try discriminate Hid; [injection Hid as ->; exact Hok|].
    subst. exact Hok.
  - destruct IH as (r & Hr & Hspec). exists r. split; [intros E; rewrite Ha; cbn [obind]; rewrite Hid; apply Hr|]. exact Hspec.
Qed.

Lemma find_payment (l : list InternalPayment) (xors : list bytes) : length xors = length l -> existsb InternalPayment.is_payment l = true ->
  exists x, List.find (fun x => InternalPayment.is_payment (fst x)) (zip l xors) = Some x /\ snd x ∈ xors.
Proof.
  revert xors. induction l as [|p l IH]; intros [|xor xors] Hl He; try discriminate. cbn in *.
  destruct (InternalPayment.is_payment p) eqn:Hp; [exists (p, xor); split; [reflexivity|left]|].
  destruct (IH xors ltac:(lia) He) as (x & Hx & Hi). exists x. split; [exact Hx|right; exact Hi].
Qed.

(** The extra is one [sent] describes. *)
Lemma extra_all pub adds es : (forall E, transaction_keys_pub (E := E) self = Ok (pub, adds)) ->
  (forall E, ecdhs (E := E) self = Ok es) -> length es = length (payments self) ->
  exists id, (forall E, extra (E := E) self = Ok (Extra.serialize (sent (Point.compress pub) adds id (data self)))) /\
    opt_id_ok id /\ match id with Some (Encrypted _) => extra_has_id (payments self) = true
                               | Some _ => False
                               | None => extra_has_id (payments self) = false end.
Proof.
  intros Hp He Hel. destruct (xors_all self es He) as (xors & Hx & Hxf). pose proof (list.Forall2_length _ _ _ Hxf) as Hxl.
  assert (Hxa : Forall (is_array 8) xors).
  { clear -Hxf. induction Hxf as [|? ? ? ? [H _] _ IH]; constructor; auto. }
  assert (Hzip : Forall (fun x => payment_ok (fst x) /\ is_array 8 (snd x)) (zip (payments self) xors)).
  { apply list.Forall_forall. intros [p x] Hin. split.
    - apply elem_of_zip_l, list_elem_of_In, (in_payment_ok self Hself) in Hin. exact Hin.
    - apply elem_of_zip_r in Hin. exact (proj1 (list.Forall_forall _ _) Hxa x Hin). }
  assert (Hfst : map fst (zip (payments self) xors) = payments self) by (apply (fst_zip (payments self) xors); lia).
  destruct (find_payment_id_all _ Hzip) as (r & Hr & Hspec). rewrite Hfst in Hspec. unfold extra_has_id.
  destruct r as [[id xor]|].
  - destruct Hspec as (Hid & Hxor & ->). exists (Some (Encrypted (to_le 8 (Z.lxor (from_le id) (from_le xor))))).
    split; [|split; [apply to_le_array|reflexivity]]. intros E. unfold extra. rewrite Hp. cbn [obind]. rewrite Hx. cbn [obind].
    rewrite Hr. reflexivity.
  - rewrite Hspec. cbn [orb]. destruct (length (payments self) =? 2)%nat eqn:H2.
    + destruct (find_payment (payments self) xors ltac:(lia) Hpay) as ([p xor] & Hf & Hi). cbn [snd] in Hi.
      exists (Some (Encrypted xor)). split; [|split; [exact (proj1 (list.Forall_forall _ _) Hxa xor Hi)|reflexivity]].
      intros E. unfold extra. rewrite Hp. cbn [obind]. rewrite Hx. cbn [obind]. rewrite Hr. cbn [obind]. rewrite H2, Hf. reflexivity.
    + exists None. split; [|split; [exact I|reflexivity]].
      intros E. unfold extra. rewrite Hp. cbn [obind]. rewrite Hx. cbn [obind]. rewrite Hr. cbn [obind]. rewrite H2. reflexivity.
Qed.

(** *** Sizes *)

Lemma len_app {A} (l l' : list A) : len (l ++ l') = len l + len l'.
Proof. unfold len. rewrite length_app. lia. Qed.

Lemma len_cons {A} (a : A) l : len (a :: l) = 1 + len l.
Proof. unfold len. cbn [length]. lia. Qed.

Lemma len_raw_vec {A} (w : A -> bytes) n l : Forall (fun a => len (w a) = n) l -> len (write_raw_vec w l) = n * len l.
Proof.
  induction 1 as [|a l Ha _ IH]; cbn [write_raw_vec]; [unfold len; cbn; lia|]. rewrite len_app, Ha, IH, len_cons. lia.
Qed.

(** The size of the pieces of data in an extra *)
Definition data_size (data : list bytes) : Z := sum_list (map (fun d => 2 + VarInt.varint_len (1 + len d) + len d) data).

Definition extra_size (additional : nat) (id : bool) (data : list bytes) : Z :=
  33 + match additional with O => 0 | _ => 1 + VarInt.varint_len (Z.of_nat additional) + 32 * Z.of_nat additional end
     + (if id then 11 else 0) + data_size data.

Lemma data_nonces_size d : Forall (fun x => len x < 2 ^ 32) d ->
  len (write_raw_vec ExtraField.write (map data_nonce d)) = data_size d.
Proof.
  unfold data_size. induction 1 as [|x d Hx _ IH]; [reflexivity|]. cbn [map write_raw_vec sum_list]. rewrite len_app, IH.
  unfold data_nonce, ExtraField.write, write_vec. rewrite raw_bytes_id, !len_app, !len_cons.
  assert (0 <= len x) by (unfold len; lia).
  rewrite write_len by (unfold U; lia). unfold len at 1. cbn [length]. lia.
Qed.

Lemma sent_size key adds id d : is_array 32 key -> Forall (is_array 32) adds -> len adds < 2 ^ 32 ->
  opt_id_ok id -> match id with Some (Unencrypted _) => False | _ => True end -> Forall (fun x => len x < 2 ^ 32) d ->
  len (Extra.serialize (sent key adds id d)) = extra_size (length adds) (match id with Some _ => true | None => false end) d.
Proof.
  intros Hk Ha Hal Hi Hid Hd. unfold Extra.serialize. rewrite write_sorted, sorted_sent, sent_eq.
  rewrite !write_raw_vec_app, !len_app, data_nonces_size by exact Hd. unfold extra_size.
  assert (Hkey : len (ExtraField.write (PublicKey key)) = 33).
  { unfold ExtraField.write, CompressedPoint.write. rewrite len_app. unfold len. cbn. rewrite (is_array_length _ _ Hk). reflexivity. }
  assert (Hid' : len (write_raw_vec ExtraField.write (match id with Some id => [Nonce (PaymentId.serialize id)] | None => [] end))
    = if match id with Some _ => true | None => false end then 11 else 0).
  { destruct id as [[i|i]|]; [contradiction| |reflexivity]. cbn [write_raw_vec]. rewrite app_nil_r.
    unfold ExtraField.write, PaymentId.serialize, PaymentId.write, write_vec. rewrite raw_bytes_id, !len_app.
    assert (H8 : len i = 8) by (unfold len; rewrite (is_array_length _ _ Hi); reflexivity).
    rewrite H8. vm_compute. reflexivity. }
  rewrite Hid'. unfold Extra.new. destruct adds as [|a adds].
  - cbn [write_raw_vec length]. rewrite app_nil_r, Hkey. lia.
  - cbn [app write_raw_vec]. rewrite app_nil_r, len_app, Hkey. unfold ExtraField.write, write_vec. rewrite !len_app.
    rewrite write_len by (unfold U, len in *; lia).
    rewrite (len_raw_vec _ 32).
    + unfold len. cbn [length]. lia.
    + eapply list.Forall_impl; [exact Ha|]. intros x Hx. unfold CompressedPoint.write, len. rewrite (is_array_length _ _ Hx). reflexivity.
Qed.

(** An input is a byte, its amount, its offsets and its key image. *)
Definition input_size (input : OutputWithDecoys.t) : Z :=
  let offsets := Decoys.offsets (OutputWithDecoys.decoys input) in
  34 + VarInt.varint_len (len offsets) + sum_list (map VarInt.varint_len offsets).

Lemma varints_size l : Forall (U 64) l -> len (write_raw_vec VarInt.write l) = sum_list (map VarInt.varint_len l).
Proof.
  induction 1 as [|x l Hx _ IH]; [reflexivity|]. cbn [write_raw_vec map sum_list]. rewrite len_app, IH, write_len by exact Hx. reflexivity.
Qed.

Lemma inputs_size ins key_images : Forall output_with_decoys_ok ins -> Forall (is_array 32) key_images ->
  length key_images = length ins ->
  len (write_raw_vec Input.write
    (zip_with (fun input key_image => ToKey None (Decoys.offsets (OutputWithDecoys.decoys input)) key_image) ins key_images))
  = sum_list (map input_size ins).
Proof.
  intros Hi. revert key_images. induction Hi as [|x ins [_ Hx] _ IH]; intros [|k key_images] Hk Hl; try discriminate; [reflexivity|].
  apply Forall_cons_iff in Hk as [Hk Hks]. cbn [zip_with write_raw_vec map sum_list]. rewrite len_app, IH; [|exact Hks|cbn in Hl; lia].
  f_equal. unfold Input.write, input_size, write_vec, CompressedPoint.write. cbn [default]. rewrite !len_app, !len_cons.
  destruct Hx as (Hu & _ & Hm & Hlo & _). unfold len, Decoys.MAX_RING_SIZE in Hm.
  rewrite varints_size by exact Hu. rewrite (write_len (len _)) by (unfold U, len; lia).
  assert (len k = 32) as -> by (unfold len; rewrite (is_array_length _ _ Hk); reflexivity).
  change (len (VarInt.write 0)) with 1. unfold len at 1. cbn [length]. lia.
Qed.

Definition output_size (plus : bool) : Z := if plus then 35 else 34.

Lemma output_size_of p d o : output_of p d o -> len (Output.write o) = output_size plus.
Proof.
  intros (a & s & _ & _ & ->). unfold Output.write, CompressedPoint.to_bytes, output_size. cbn [Output.amount Output.key Output.view_tag default].
  rewrite !len_app. assert (Hc : forall q, len (Point.compress q) = 32).
  { intros q. unfold len, Point.compress. rewrite (is_array_length _ _ (ed_compress_array q)). reflexivity. }
  rewrite Hc. destruct plus; vm_compute; reflexivity.
Qed.

Lemma output_sizes l outs : Forall2 (fun y o => output_of (fst y) (snd y) o) l outs ->
  Forall (fun o => len (Output.write o) = output_size plus) outs.
Proof. induction 1 as [|y o l outs H _ IH]; constructor; [exact (output_size_of _ _ _ H)|exact IH]. Qed.

(** The bytes of a proof of [lr] rounds *)
Definition bp_size (lr : Z) : Z := ((if plus then 6 else 9) + 2 * lr) * 32 + 2 * VarInt.varint_len lr.

(** A proof of the right kind and size *)
Definition bp_fits (lr : Z) (bp : Bulletproof) : Prop :=
  (match bp with Original _ => plus = false | Plus _ => plus = true end) /\ len (Bulletproof.write bp) = bp_size lr.

(** The serialized length of a transaction of the shape sent, without what the
    encoding of its fee takes *)
Definition tx_size (ins : list OutputWithDecoys.t) (n : Z) (extra : Z) (bp : Z) : Z :=
  4 + VarInt.varint_len (len ins) + sum_list (map input_size ins) + VarInt.varint_len n + n * output_size plus
  + VarInt.varint_len extra + extra + n * 8 + n * 32 + bp + len ins * (32 * (ring_len_of plus + 2)) + len ins * 32.

Lemma write_size ins key_images outs extra fee amounts commitments clsags pseudo_outs bp lr n :
  Forall output_with_decoys_ok ins -> Forall (is_array 32) key_images -> length key_images = length ins -> len ins < 2 ^ 32 ->
  Forall (fun o => len (Output.write o) = output_size plus) outs -> len outs = n -> n < 2 ^ 32 -> len extra < 2 ^ 64 -> U 64 fee ->
  Forall (fun a => len (EncryptedAmount.write a) = 8) amounts -> len amounts = n ->
  Forall (is_array 32) commitments -> len commitments = n ->
  Forall (fun c => len (Clsag.write c) = 32 * (ring_len_of plus + 2)) clsags -> length clsags = length ins ->
  Forall (is_array 32) pseudo_outs -> length pseudo_outs = length ins -> bp_fits lr bp ->
  len (Transaction.write (V2 (P := NotPruned)
    (TransactionPrefix.mk Timelock.None
       (zip_with (fun input key_image => ToKey None (Decoys.offsets (OutputWithDecoys.decoys input)) key_image) ins key_images) outs extra)
    (Some (mk_RctProofs (RctBase.mk fee [] amounts commitments) (ClsagProofs clsags pseudo_outs bp)))))
  = tx_size ins n (len extra) (bp_size lr) + VarInt.varint_len fee.
Proof.
  intros Hi Hk Hkl Hil Ho Hol Hn He Hf Ha Hal Hc Hcl Hs Hsl Hp Hpl [Hkind Hbp].
  assert (Ht : RctType.eqb (match bp with Original _ => RctType.ClsagBulletproof | Plus _ => RctType.ClsagBulletproofPlus end)
                 RctType.MlsagBorromean = false) by (destruct bp; reflexivity).
  unfold Transaction.write, Transaction.version. cbn [potentially_pruned_write NotPruned]. unfold RctProofs.write, RctProofs.rct_type.
  cbn [prunable base]. unfold RctBase.write, RctPrunable.write, TransactionPrefix.write. cbn [RctBase.fee RctBase.pseudo_outs
    RctBase.encrypted_amounts RctBase.commitments TransactionPrefix.additional_timelock TransactionPrefix.inputs
    TransactionPrefix.outputs TransactionPrefix.extra Timelock.write].
  cbv zeta. rewrite Ht. unfold write_vec. rewrite !len_app. rewrite inputs_size by assumption.
  assert (Hzl : len (zip_with (fun input key_image => ToKey None (Decoys.offsets (OutputWithDecoys.decoys input)) key_image) ins key_images) = len ins).
  { unfold len. rewrite length_zip_with. lia. }
  rewrite Hzl. assert (H32 : forall l, Forall (is_array 32) l -> len (write_raw_vec CompressedPoint.write l) = 32 * len l).
  { intros l Hl. apply len_raw_vec. eapply list.Forall_impl; [exact Hl|]. intros x Hx. unfold CompressedPoint.write, len.
    rewrite (is_array_length _ _ Hx). reflexivity. }
  rewrite (H32 commitments), (H32 pseudo_outs) by assumption.
  rewrite (len_raw_vec _ _ _ Ho), (len_raw_vec _ _ _ Ha), (len_raw_vec _ _ _ Hs), Hbp.
  assert (0 <= len ins /\ 0 <= len outs /\ 0 <= len extra) as (? & ? & ?) by (unfold len; lia).
  rewrite !write_len by (unfold U in *; lia). change (VarInt.varint_len 2) with 1. change (VarInt.varint_len 0) with 1.
  rewrite Hol, Hal, Hcl. assert (len clsags = len ins /\ len pseudo_outs = len ins) as [-> ->] by (unfold len; lia).
  unfold tx_size. rewrite ?len_cons. change (@len Z []) with 0. lia.
Qed.

(** *** The weight before the transaction is made *)

Lemma padded_log2_all n : 1 <= n <= 16 -> exists k, (forall E, padded_log2 (E := E) 64 0 n = Ok k) /\ 0 <= k <= 4.
Proof.
  intros Hn. exists (Z.log2_up n). assert (Hc : exists k, (k <= 16)%nat /\ n = Z.of_nat k) by (exists (Z.to_nat n); lia).
  destruct Hc as (k & Hk & ->). do 17 (destruct k as [|k]; [split; [intros E; vm_compute; reflexivity|vm_compute; split; discriminate]|]). lia.
Qed.

(** The rounds of a proof for [n] outputs *)
Definition lr_of (n : Z) : Z := match padded_log2 (E := unit) 64 0 n with Ok k => 6 + k | _ => 0 end.

Lemma lr_of_all n : 1 <= n <= 16 -> (forall E, padded_log2 (E := E) 64 0 n = Ok (lr_of n - 6)) /\ 6 <= lr_of n <= 10.
Proof.
  intros Hn. destruct (padded_log2_all n Hn) as (k & Hk & Hb). unfold lr_of. rewrite (Hk unit). split; [|lia].
  intros E. rewrite Hk. f_equal. lia.
Qed.

Lemma zero_bytes : sc_to_bytes sc_ZERO = shim_scalar.
Proof. rewrite sc_bytes, sc_zero_val. reflexivity. Qed.

Lemma shim_point_ok : is_array 32 shim_point.
Proof. decide_now. Qed.

Lemma shim_points_write lr : 0 <= lr ->
  shim_points lr = write_vec CompressedPoint.write (repeat shim_point (Z.to_nat lr)).
Proof.
  intros Hl. unfold shim_points, write_vec, len. rewrite repeat_length, Z2Nat.id by exact Hl. f_equal.
  induction (Z.to_nat lr) as [|n IH]; [reflexivity|]. cbn [repeat concat write_raw_vec]. rewrite IH. reflexivity.
Qed.

Lemma shim_points_ok lr : 6 <= lr <= 10 -> points_ok (repeat shim_point (Z.to_nat lr)).
Proof.
  intros Hl. split; [apply list.Forall_forall; intros x Hx; apply list_elem_of_In, repeat_spec in Hx as ->; exact shim_point_ok|].
  unfold U, USIZE_BITS, MAX_LR, len. rewrite repeat_length, Z2Nat.id by lia. cbn. lia.
Qed.

Lemma shim_points_size lr : 6 <= lr <= 10 -> len (shim_points lr) = VarInt.varint_len lr + 32 * lr.
Proof.
  intros Hl. unfold shim_points. rewrite len_app, write_len by (unfold U; lia). f_equal.
  replace (32 * lr) with (32 * Z.of_nat (Z.to_nat lr)) by lia. induction (Z.to_nat lr) as [|n IH]; [reflexivity|].
  cbn [repeat concat]. rewrite len_app, IH. change (len shim_point) with 32. lia.
Qed.

(** The dummy proof is of the size the proof is to have. *)
Lemma shim_all lr : 6 <= lr <= 10 -> exists bp, (forall E, shim_bulletproof (E := E) (rct_type self) lr = Ok bp) /\ bp_fits lr bp.
Proof.
  intros Hl. unfold bp_fits, bp_size. rewrite Hplus. pose proof (shim_points_write lr ltac:(lia)) as Hw.
  pose proof (shim_points_size lr Hl) as Hs. pose proof (shim_points_ok lr Hl) as Hok. pose proof shim_point_ok as Hp.
  set (pts := repeat shim_point (Z.to_nat lr)) in *. destruct plus.
  - set (bp := Plus (mk_PlusProof shim_point (mk_WipProof pts pts shim_point shim_point sc_ZERO sc_ZERO sc_ZERO))).
    assert (Hwr : Bulletproof.write bp = concat (repeat shim_point 3) ++ concat (repeat shim_scalar 3) ++ concat (repeat (shim_points lr) 2)).
    { unfold bp, Bulletproof.write, Bulletproof.write_core, write_dscalar, CompressedPoint.write. cbn [bpp_A bpp_wip wip_A wip_B wip_L wip_R
        wip_r_answer wip_s_answer wip_delta_answer]. rewrite zero_bytes. unfold CompressedPoint.write in Hw. rewrite <- Hw. cbn [repeat concat].
      rewrite <- !app_assoc, ?app_nil_r. reflexivity. }
    exists bp. split; [|split; [reflexivity|]].
    + intros E. unfold shim_bulletproof. rewrite <- Hwr, <- (app_nil_r (Bulletproof.write bp)).
      rewrite (codec_rt (r := Bulletproof.read_plus)) by (cbn; auto 10). reflexivity.
    + rewrite Hwr, !len_app. cbn [repeat concat]. rewrite !len_app, Hs. change (len shim_point) with 32. change (len shim_scalar) with 32.
      change (@len Z []) with 0. lia.
  - set (bp := Original (mk_OriginalProof shim_point shim_point shim_point shim_point sc_ZERO sc_ZERO sc_ZERO (mk_IpProof pts pts sc_ZERO sc_ZERO))).
    assert (Hwr : Bulletproof.write bp = concat (repeat shim_point 4) ++ concat (repeat shim_scalar 2) ++
                    concat (repeat (shim_points lr) 2) ++ concat (repeat shim_scalar 3)).
    { unfold bp, Bulletproof.write, Bulletproof.write_core, write_dscalar, CompressedPoint.write. cbn [bp_A bp_S bp_T1 bp_T2 bp_tau_x bp_mu
        bp_t_hat bp_ip ip_L ip_R ip_a ip_b]. rewrite zero_bytes. unfold CompressedPoint.write in Hw. rewrite <- Hw. cbn [repeat concat].
      rewrite <- !app_assoc, ?app_nil_r. reflexivity. }
    exists bp. split; [|split; [reflexivity|]].
    + intros E. unfold shim_bulletproof. rewrite <- Hwr, <- (app_nil_r (Bulletproof.write bp)).
      rewrite (codec_rt (r := Bulletproof.read)) by (cbn; auto 10). reflexivity.
    + rewrite Hwr, !len_app. cbn [repeat concat]. rewrite !len_app, Hs. change (len shim_point) with 32. change (len shim_scalar) with 32.
      change (@len Z []) with 0. lia.
Qed.

Definition clawback (n : Z) : Z := match Bulletproof.calculate_clawback (E := unit) plus n with Ok (c, _) => c | _ => 0 end.

Lemma weight_all prefix base clsags pseudo_outs bp lr : bp_fits lr bp -> 
  let tx := V2 (P := NotPruned) prefix (Some (mk_RctProofs base (ClsagProofs clsags pseudo_outs bp))) in
  forall E, Transaction.weight (E := E) tx = Ok (len (Transaction.write tx) + clawback (len (TransactionPrefix.outputs prefix))).
Proof.
  intros [Hk _] tx E. destruct (clawback_total plus (len (TransactionPrefix.outputs prefix)) ltac:(unfold len; lia)) as (c & lr' & _ & Hc).
  unfold Transaction.weight, clawback. rewrite (Hc unit).
  assert (Ht : Transaction.is_rct_bulletproof tx = negb plus /\ Transaction.is_rct_bulletproof_plus tx = plus).
  { unfold tx. cbn. destruct bp; subst; split; reflexivity. }
  destruct Ht as [-> ->]. cbv zeta. destruct plus; cbn [negb orb]; unfold tx; cbn [obind]; rewrite Hc; reflexivity.
Qed.

(** *** The weight and the fee of a signable transaction *)

Definition extra_len : Z := extra_size (additional_length self) (extra_has_id (payments self)) (data self).

(** The weight, without what the encoding of the fee takes *)
Definition base_of : Z :=
  tx_size (inputs self) (len (payments self)) extra_len (bp_size (lr_of (len (payments self)))) + clawback (len (payments self)).

Lemma data_len x : x ∈ data self -> len x < 2 ^ 32.
Proof.
  intros Hx. destruct (ok_memory _ Hself) as (_ & _ & Hm). assert (len x <= len (concat (data self))); [|unfold len in *; lia].
  apply list_elem_of_split in Hx as (l & l' & ->). rewrite concat_app, len_app. cbn [concat]. rewrite len_app. unfold len. lia.
Qed.

Lemma data_lens : Forall (fun x => len x < 2 ^ 32) (data self).
Proof. apply list.Forall_forall. intros x. apply data_len. Qed.

Lemma extra_len_all x : (forall E, extra (E := E) self = Ok x) -> len x = extra_len.
Proof.
  intros Hx. destruct (ecdhs_all self Hself Hpay) as (kx & kxs & pub & adds & es & _ & _ & Hp & Hal & Haa & _ & He & Hf).
  pose proof (list.Forall2_length _ _ _ Hf) as Hel. rewrite enumerate_length in Hel.
  destruct (extra_all pub adds es Hp He ltac:(lia)) as (id & Hex & Hid & Hb).
  assert (x = Extra.serialize (sent (Point.compress pub) adds id (data self))) as -> by (specialize (Hx unit); rewrite (Hex unit) in Hx; apply Ok_inj in Hx; auto).
  destruct (ok_memory _ Hself) as (_ & Hpm & _). unfold extra_len. rewrite <- Hal.
  rewrite sent_size; [|apply ed_compress_array|exact Haa| |exact Hid| |exact data_lens].
  - destruct id as [[i|i]|]; [contradiction|rewrite Hb; reflexivity..].
  - unfold len in *. rewrite Hal. unfold additional_length. destruct (should_use_additional_keys self); lia.
  - destruct id as [[i|i]|]; auto.
Qed.

(** The outputs, their sizes and the extra *)
Lemma tx_parts key_images : exists outs x,
  (forall E, outputs (E := E) self key_images = Ok outs) /\ (forall E, extra (E := E) self = Ok x) /\
  Forall (fun o => len (Output.write o) = output_size plus) outs /\ len outs = len (payments self) /\ len x = extra_len.
Proof.
  destruct (ecdhs_all self Hself Hpay) as (kx & kxs & pub & adds & es & _ & _ & Hp & Hal & Haa & _ & He & Hf).
  assert (Hel : length es = length (payments self)) by (apply list.Forall2_length in Hf; rewrite enumerate_length in Hf; lia).
  destruct (derivations_all self Hself key_images es He) as (ds & Hds & Hdf).
  pose proof (derivations_length self key_images es ds Hel Hdf) as Hdl.
  destruct (outputs_all key_images es ds He Hel Hds Hdf) as (outs & Ho & Hof).
  destruct (extra_all pub adds es Hp He Hel) as (id & Hex & _).
  exists outs. eexists. split; [exact Ho|]. split; [exact Hex|]. split; [|split].
  - exact (output_sizes _ _ Hof).
  - apply list.Forall2_length in Hof. rewrite length_zip in Hof. unfold len. lia.
  - apply extra_len_all. exact Hex.
Qed.

Context (Hcount : (length (payments self) <= 16)%nat).

Lemma count_bounds : 1 <= len (payments self) <= 16.
Proof. unfold len. destruct (payments self); [discriminate Hpay|]. cbn [length] in *. lia. Qed.

Lemma sum_bound {A} (f : A -> Z) b l : (forall a, a ∈ l -> 0 <= f a <= b) -> 0 <= sum_list (map f l) <= b * len l.
Proof.
  clear. induction l as [|a l IH]; intros H; [cbn; unfold len; cbn; lia|]. cbn [map sum_list]. rewrite len_cons.
  pose proof (H a ltac:(left)). pose proof (IH ltac:(intros x Hx; apply H; right; exact Hx)). lia.
Qed.

Lemma varint_bound x : U 64 x -> 1 <= VarInt.varint_len x <= 10.
Proof. intros Hx. exact (varint_len_bounds VarInt.u64 x Hx). Qed.

Lemma input_size_bound x : x ∈ inputs self -> 0 <= input_size x <= 2 ^ 12.
Proof.
  clear Hcount. intros Hx. destruct (proj1 (list.Forall_forall _ _) (ok_inputs _ Hself) x Hx) as [_ (Hu & _ & Hm & Hl & _)].
  unfold len, Decoys.MAX_RING_SIZE in Hm. unfold input_size. cbv zeta.
  set (o := Decoys.offsets (OutputWithDecoys.decoys x)) in *.
  assert (0 <= len o <= 255) by (unfold len; lia). pose proof (varint_bound (len o) ltac:(unfold U; lia)).
  pose proof (sum_bound VarInt.varint_len 10 o) as Hs. rewrite list.Forall_forall in Hu.
  assert (0 <= sum_list (map VarInt.varint_len o) <= 10 * len o); [|lia].
  apply Hs. intros a Ha. pose proof (varint_bound a (Hu a Ha)). lia.
Qed.

Lemma extra_len_bound : 0 <= extra_len < 2 ^ 40.
Proof.
  destruct (ok_memory _ Hself) as (_ & _ & Hm). pose proof count_bounds as Hc. unfold extra_len, extra_size, data_size.
  assert (Ha : 0 <= Z.of_nat (additional_length self) <= 16).
  { unfold additional_length. unfold len in Hc. destruct (should_use_additional_keys self); lia. }
  assert (Hd : 0 <= sum_list (map (fun d => 2 + VarInt.varint_len (1 + len d) + len d) (data self)) <= 12 * len (data self) + len (concat (data self))).
  { pose proof data_lens as Hl. clear -Hl. induction Hl as [|d l Hd _ IH]; [vm_compute; split; discriminate|].
    cbn [map sum_list concat]. rewrite len_cons, len_app. pose proof (varint_bound (1 + len d) ltac:(unfold U, len in *; lia)).
    unfold len in *. lia. }
  pose proof (varint_bound (Z.of_nat (additional_length self)) ltac:(unfold U; lia)).
  assert (0 <= len (data self) /\ 0 <= len (concat (data self))) by (unfold len; lia).
  destruct (additional_length self), (extra_has_id (payments self)); lia.
Qed.

Lemma base_of_bound : 0 <= base_of < 2 ^ 62.
Proof.
  pose proof count_bounds as Hc. destruct (ok_memory _ Hself) as (Hi & _). pose proof extra_len_bound as He.
  pose proof (sum_bound input_size (2 ^ 12) (inputs self) input_size_bound) as Hs.
  assert (0 <= len (inputs self)) by (unfold len; lia).
  pose proof (varint_bound (len (inputs self)) ltac:(unfold U; lia)). pose proof (varint_bound (len (payments self)) ltac:(unfold U; lia)).
  pose proof (varint_bound extra_len ltac:(unfold U; lia)). destruct (lr_of_all (len (payments self)) Hc) as [_ Hlr].
  pose proof (varint_bound (lr_of (len (payments self))) ltac:(unfold U; lia)).
  assert (Hcb : 0 <= clawback (len (payments self)) <= 2 ^ 20).
  { unfold clawback. assert (Hk : exists k, (k <= 16)%nat /\ len (payments self) = Z.of_nat k) by (exists (length (payments self)); unfold len; lia).
    destruct Hk as (k & Hk & ->). clear -Hk. do 17 (destruct k as [|k]; [destruct plus; vm_compute; split; discriminate|]). lia. }
  assert (0 <= bp_size (lr_of (len (payments self))) <= 2 ^ 12) by (unfold bp_size; destruct plus; lia).
  unfold base_of, tx_size, output_size, ring_len_of. destruct plus; lia.
Qed.

Lemma base_weight_all E : base_weight (E := E) self = Ok base_of.
Proof.
  pose proof count_bounds as Hc. destruct (lr_of_all _ Hc) as [Hlog Hlr]. destruct (shim_all _ Hlr) as (bp & Hbp & Hfits).
  destruct (tx_parts (map (fun _ => CompressedPoint.G) (inputs self))) as (outs & x & Ho & Hx & Hos & Hol & Hxl).
  destruct (ok_memory _ Hself) as (Hi & _). pose proof extra_len_bound as He.
  unfold base_weight. rewrite (ring_len_all _ _ Hplus). cbn [obind]. rewrite Hlog. cbn [obind].
  replace (6 + (lr_of (len (payments self)) - 6)) with (lr_of (len (payments self))) by lia.
  rewrite Hbp. cbn [obind]. rewrite Ho. cbn [obind]. rewrite Hx. cbn [obind].
  rewrite (weight_all _ _ _ _ bp _ Hfits). cbn [obind TransactionPrefix.outputs]. rewrite Hol. unfold prefix_inputs.
  assert (HG : is_array 32 CompressedPoint.G) by (unfold CompressedPoint.G; rewrite ed_basepoint_compressed; apply ed_compress_array).
  rewrite (write_size _ _ _ _ _ _ _ _ _ _ (lr_of (len (payments self))) (len (payments self)));
    try apply (ok_inputs _ Hself); try assumption; try (unfold len; rewrite length_map; reflexivity); try (rewrite length_map; reflexivity);
    try (apply Forall_map, Forall_forall; intros; assumption); try lia; try (unfold U; lia).
  - change (VarInt.varint_len 0) with 1. fold extra_len in Hxl. rewrite Hxl. unfold base_of. pose proof base_of_bound as Hb. unfold base_of in Hb.
    destruct (Z.ltb_spec (tx_size (inputs self) (len (payments self)) extra_len (bp_size (lr_of (len (payments self)))) + 1 +
      clawback (len (payments self))) 1); [lia|]. f_equal. lia.
  - apply Forall_map, Forall_forall. reflexivity.
  - apply Forall_map, Forall_forall. intros _ _. unfold Clsag.write. cbn [Clsag.s Clsag.c1 Clsag.D]. rewrite !len_app.
    rewrite (len_raw_vec Scalar.write 32).
    + unfold Scalar.write, CompressedPoint.write. assert (len CompressedPoint.G = 32) as -> by (unfold len; rewrite (is_array_length _ _ HG); reflexivity).
      change (len Scalar.ZERO) with 32. unfold len. rewrite repeat_length. destruct plus; reflexivity.
    + apply list.Forall_forall. intros y Hy. apply list_elem_of_In, repeat_spec in Hy as ->. reflexivity.
Qed.

(** *** The fee *)

Lemma find_fee_spec base fee_len fees : length fees = Z.to_nat (11 - fee_len) -> 1 <= fee_len <= 10 -> Forall (fun f => 0 <= f) fees ->
  exists w f, find_fee base fee_len fees = Some (w, f) /\ base + fee_len <= w <= base + 10 /\
    fees !! Z.to_nat (w - base - fee_len) = Some f /\ (f < 2 ^ 64 -> base + VarInt.varint_len f <= w).
Proof.
  revert fee_len. induction fees as [|f fees IH]; intros fee_len Hl Hf H0; [cbn in Hl; lia|]. cbn [find_fee].
  apply Forall_cons_iff in H0 as [Hf0 H0].
  destruct (Z.leb_spec (VarInt.varint_len (if f <? 2 ^ 64 then f else U64_MAX)) fee_len) as [Hle|Hgt].
  - exists (base + fee_len), f. split; [reflexivity|]. split; [lia|]. replace (base + fee_len - base - fee_len) with 0 by lia.
    split; [reflexivity|]. intros H64. rewrite (proj2 (Z.ltb_lt _ _) H64) in Hle. lia.
  - destruct (Z.eq_dec fee_len 10) as [->|Hne].
    { pose proof (varint_bound (if f <? 2 ^ 64 then f else U64_MAX)). unfold U, U64_MAX in *.
      destruct (Z.ltb_spec f (2 ^ 64)); lia. }
    destruct (IH (fee_len + 1)) as (w & f' & Hfind & Hw & Hi & Hlen); [cbn [length] in Hl; lia|lia|exact H0|].
    exists w, f'. split; [exact Hfind|]. split; [lia|]. split; [|exact Hlen].
    replace (Z.to_nat (w - base - fee_len)) with (S (Z.to_nat (w - base - (fee_len + 1)))) by lia. exact Hi.
Qed.

Lemma weight_and_necessary_fee_eq E : weight_and_necessary_fee (E := E) self =
  let? possible_fees := each (FeeRate.calculate_fee_from_weight (fee_rate self)) (map (fun i => base_of + i) (seqZ 1 10)) in
  expect (find_fee base_of 1 possible_fees).
Proof. unfold weight_and_necessary_fee. rewrite base_weight_all. reflexivity. Qed.

(** The fee pays for the weight assigned, which is no less than the weight with
    the fee encoded. *)
Lemma weight_and_necessary_fee_all : exists w f, (forall E, weight_and_necessary_fee (E := E) self = Ok (w, f)) /\
  base_of < w <= base_of + 10 /\ 0 <= f < 2 ^ 128 /\ FeeRate.per_weight (fee_rate self) * w <= f /\
  (f < 2 ^ 64 -> base_of + VarInt.varint_len f <= w).
Proof.
  pose proof base_of_bound as Hb.
  destruct (each_all (fun E => FeeRate.calculate_fee_from_weight (E := E) (fee_rate self))
    (fun w f => 0 <= f < 2 ^ 128 /\ FeeRate.per_weight (fee_rate self) * w <= f) (map (fun i => base_of + i) (seqZ 1 10))) as (fees & Hf & Hspec).
  { intros w Hin. apply in_map_iff in Hin as (i & <- & Hi). apply list_elem_of_In, elem_of_seqZ in Hi.
    destruct (fee_from_weight (fee_rate self) (base_of + i) (ok_fee_rate _ Hself)) as (f & Hfe & H128 & _ & Hpay'); [unfold U; lia|].
    exists f. split; [exact Hfe|]. pose proof (ok_fee_rate _ Hself) as (Hpw & _). unfold U in Hpw. split; [split; [nia|exact H128]|lia]. }
  pose proof (list.Forall2_length _ _ _ Hspec) as Hl. rewrite length_map, length_seqZ in Hl.
  assert (H0 : Forall (fun f => 0 <= f) fees).
  { apply list.Forall_forall. intros f Hin. apply list_elem_of_lookup in Hin as [i Hi].
    destruct (Forall2_lookup_r _ _ _ _ _ Hspec Hi) as (w & _ & H & _). lia. }
  destruct (find_fee_spec base_of 1 fees ltac:(lia) ltac:(lia) H0) as (w & f & Hfind & Hw & Hi & Hlen).
  exists w, f. destruct (Forall2_lookup_r _ _ _ _ _ Hspec Hi) as (w' & Hw' & Hfb & Hrate).
  rewrite list_lookup_fmap in Hw'. destruct (seqZ 1 10 !! _) as [i|] eqn:Hseq; [|discriminate]. injection Hw' as <-.
  apply lookup_seqZ in Hseq as [-> _].
  split; [intros E; rewrite weight_and_necessary_fee_eq, Hf; cbn [obind]; rewrite Hfind; reflexivity|].
  split; [lia|]. split; [exact Hfb|]. split; [|exact Hlen]. replace w with (base_of + (1 + Z.of_nat (Z.to_nat (w - base_of - 1)))) at 1 by lia. exact Hrate.
Qed.
End Self.

(** *** The order of the payments and of the inputs doesn't matter *)

(** The same transaction, with its inputs and payments in another order *)
Record same_intent (a b : t) : Prop := {
  same_type : rct_type a = rct_type b;
  same_view_key : outgoing_view_key a = outgoing_view_key b;
  same_inputs : inputs a ≡ₚ inputs b;
  same_payments : payments a ≡ₚ payments b;
  same_data : data a = data b;
  same_fee_rate : fee_rate a = fee_rate b
}.

Lemma existsb_perm {A} (f : A -> bool) l l' : l ≡ₚ l' -> existsb f l = existsb f l'.
Proof.
  intros Hp. apply Bool.eq_iff_eq_true. rewrite !existsb_exists. split; intros (x & Hin & Hx); exists x; (split; [|exact Hx]).
  - apply list_elem_of_In. rewrite <- Hp. apply list_elem_of_In, Hin.
  - apply list_elem_of_In. rewrite Hp. apply list_elem_of_In, Hin.
Qed.

Lemma sum_perm (l l' : list Z) : l ≡ₚ l' -> sum_list l = sum_list l'.
Proof. induction 1; cbn; lia. Qed.

Lemma same_intent_ok a b : same_intent a b -> signable_ok a -> signable_ok b.
Proof.
  intros [H1 H2 H3 H4 H5 H6] [K1 K2 K3 K4 K5 K6]. split.
  - rewrite <- H2. exact K1.
  - rewrite <- H3. exact K2.
  - rewrite <- H4. exact K3.
  - rewrite <- H5. exact K4.
  - rewrite <- H6. exact K5.
  - rewrite <- H5. unfold len in *. rewrite <- H3, <- H4. exact K6.
Qed.

Lemma should_same a b : same_intent a b -> should_use_additional_keys a = should_use_additional_keys b /\
  has_payments_to_subaddresses a = has_payments_to_subaddresses b.
Proof.
  intros [_ _ _ Hp _ _]. unfold should_use_additional_keys, has_payments_to_subaddresses, has_change_view.
  rewrite !(existsb_perm _ _ _ Hp), Hp. auto.
Qed.

Lemma base_of_same plus a b : same_intent a b -> base_of a plus = base_of b plus.
Proof.
  intros Hs. destruct (should_same a b Hs) as [Hsh _]. pose proof Hs as [_ _ Hi Hp Hd _].
  assert (Hn : length (payments a) = length (payments b)) by (rewrite Hp; reflexivity).
  assert (Hin : length (inputs a) = length (inputs b)) by (rewrite Hi; reflexivity).
  unfold base_of, extra_len, additional_length, extra_has_id, tx_size. rewrite Hsh, Hd, (existsb_perm _ _ _ Hp).
  unfold len. rewrite Hn, Hin. rewrite (sum_perm (map input_size (inputs a)) (map input_size (inputs b))) by (rewrite Hi; reflexivity).
  reflexivity.
Qed.

Lemma weight_same plus a b : same_intent a b -> signable_ok a -> clsag_type (rct_type a) plus ->
  existsb InternalPayment.is_payment (payments a) = true -> (length (payments a) <= 16)%nat ->
  forall E, weight_and_necessary_fee (E := E) a = weight_and_necessary_fee b.
Proof.
  intros Hs Ha Ht Hpay Hc E. pose proof Hs as [H1 _ _ Hp _ H6].
  rewrite (weight_and_necessary_fee_eq a Ha Hpay plus Ht Hc), (weight_and_necessary_fee_eq b (same_intent_ok a b Hs Ha)) with (plus := plus).
  - rewrite (base_of_same plus a b Hs), H6. reflexivity.
  - rewrite <- Hpay. symmetry. apply existsb_perm, Hp.
  - rewrite <- H1. exact Ht.
  - rewrite <- Hp. exact Hc.
Qed.
End Tx.
