(* ===== verification/SendNew.v ===== *)
(** The validation of signable transactions and their creation
    ([wallet/src/send/mod.rs]). *)

From Stdlib Require Import ZArith Lia Sorted.
From stdpp Require Import base list strings numbers sorting.
From S2P Require Import Prelude Dalek MoneroIo Ed25519 Clsag Bulletproofs RingCT Transaction Interface.
From S2P Require Import Address Extra WalletOutput ViewPair DecoySelection Send SendKeys SendWeight.

Import SignableTransaction.

(** ** Sums *)

#[export] Instance sum_list_perm : Proper ((≡ₚ) ==> eq) sum_list.
Proof. intros l l'. apply sum_perm. Qed.

#[export] Instance existsb_proper {A} (f : A -> bool) : Proper ((≡ₚ) ==> eq) (existsb f).
Proof. intros l l'. apply existsb_perm. Qed.

Lemma sum_uint_ok {E} w acc l : Forall (U 64) l -> acc + sum_list l < 2 ^ w -> sum_uint (E := E) w acc l = Ok (acc + sum_list l).
Proof.
  intros Hl. revert acc. induction Hl as [|x l Hx Hl IH]; intros acc Ha; cbn [sum_uint sum_list] in *; [f_equal; lia|].
  pose proof (sum_list_nonneg l Hl). destruct (Z.leb_spec (2 ^ w) (acc + x)); [lia|]. rewrite IH by lia. f_equal. lia.
Qed.

Lemma sum_list_below l : Forall (U 64) l -> 0 <= sum_list l <= 2 ^ 64 * len l.
Proof.
  induction 1 as [|x l Hx _ IH]; [cbn; unfold len; cbn; lia|]. cbn [sum_list]. rewrite len_cons. unfold U in Hx. lia.
Qed.

Lemma remove_dups_length {A} `{EqDecision A} (l : list A) : length (remove_dups l) = length l <-> NoDup l.
Proof.
  assert (Hle : forall l : list A, (length (remove_dups l) <= length l)%nat).
  { intros k. induction k as [|x k IH]; cbn [remove_dups]; [lia|]. destruct (decide_rel elem_of x k); cbn [length]; lia. }
  induction l as [|x l IH]; [split; [constructor|reflexivity]|]. cbn [remove_dups]. rewrite NoDup_cons.
  destruct (decide_rel elem_of x l) as [Hx|Hx]; cbn [length].
  - specialize (Hle l). split; [lia|tauto].
  - rewrite <- IH. split; [intros [= Hl]; auto|intros [_ ->]; reflexivity].
Qed.

Lemma filter_map_length {A} (f : A -> bool) l : length (List.filter id (map f l)) = length (List.filter f l).
Proof.
  induction l as [|x l IH]; [reflexivity|]. cbn [map List.filter]. unfold id at 1. destruct (f x); cbn [length]; rewrite IH; reflexivity.
Qed.

#[export] Instance filter_length_perm {A} (f : A -> bool) : Proper ((≡ₚ) ==> eq) (fun l => length (List.filter f l)).
Proof.
  intros l l' Hp. induction Hp as [|x l l' _ IH|x y l|l l' l'' _ IH _ IH']; cbn in *; [reflexivity| | |congruence].
  - destruct (f x); cbn; congruence.
  - destruct (f x), (f y); reflexivity.
Qed.

Lemma existsb_false_Forall {A} (f : A -> bool) l : existsb f l = false <-> Forall (fun x => f x = false) l.
Proof. induction l as [|x l IH]; cbn; [split; [constructor|reflexivity]|]. rewrite orb_false_iff, IH, Forall_cons_iff. reflexivity. Qed.

(** ** Validation *)

Section Valid.
Context {D : Dalek} {DL : DalekLaws D} {K : Keccak} {KL : KeccakLaws K} {R : Rand} {PR : Primitives}.

Definition total_in (self : t) : Z := sum_list (amounts_in self).
Definition total_out (self : t) : Z := sum_list (InternalPayment.amounts (payments self)).

(** What is to hold of an input *)
Definition input_valid (plus : bool) (input : OutputWithDecoys.t) : Prop :=
  ed_is_torsion_free (input_key input) = true /\ ed_is_identity (input_key input) = false /\
  len (Decoys.offsets (OutputWithDecoys.decoys input)) = ring_len_of plus.

(** What [validate] is to check, for a transaction of weight [w] which needs
    the fee [f] *)
Record valid (self : t) (plus : bool) (w f : Z) : Prop := {
  v_type : clsag_type (rct_type self) plus;
  v_some : inputs self <> [];
  v_distinct : NoDup (map (fun input => Point.compress (input_key input)) (inputs self));
  v_inputs : Forall (input_valid plus) (inputs self);
  v_payment : existsb InternalPayment.is_payment (payments self) = true;
  v_count : (2 <= length (payments self) <= 16)%nat;
  v_change : (length (List.filter InternalPayment.is_change (payments self)) <= 1)%nat;
  v_ids : (length (List.filter has_id (payments self)) <= 1)%nat;
  v_data : Forall (fun part => len part <= MAX_ARBITRARY_DATA_SIZE) (data self);
  v_extra : extra_len self <= MAX_EXTRA_SIZE_BY_RELAY_RULE;
  v_fee : forall E, weight_and_necessary_fee (E := E) self = Ok (w, f);
  v_funds : total_out self + f <= total_in self < 2 ^ 64;
  v_weight : w < MAX_TX_SIZE
}.

Lemma amounts_in_ok l : Forall output_with_decoys_ok l -> Forall (U 64) (map (fun input => Commitment.amount (input_commitment input)) l).
Proof. intros Hl. apply Forall_map. eapply list.Forall_impl; [exact Hl|]. intros x [[_ [_ Hu]] _]. exact Hu. Qed.

Lemma amounts_ok l : Forall payment_ok l -> Forall (U 64) (InternalPayment.amounts l).
Proof.
  induction 1 as [|[a amount|c] l Hp _ IH]; cbn [InternalPayment.amounts]; [constructor| |exact IH].
  constructor; [apply Hp|exact IH].
Qed.

Lemma amounts_length l : (length (InternalPayment.amounts l) <= length l)%nat.
Proof. induction l as [|[] l IH]; cbn; lia. Qed.

Lemma amounts_perm l l' : l ≡ₚ l' -> InternalPayment.amounts l ≡ₚ InternalPayment.amounts l'.
Proof.
  induction 1 as [|[a m|c] l l' _ IH|[a m|c] [a' m'|c'] l|l l' l'' _ IH _ IH']; cbn [InternalPayment.amounts];
    try reflexivity; try assumption; try (rewrite IH; reflexivity); [apply Permutation_swap|etransitivity; eassumption].
Qed.

Lemma validate_inputs_cases t plus l : clsag_type t plus ->
  match each (validate_input t) l with Ok _ => Forall (input_valid plus) l | Err _ => ~ Forall (input_valid plus) l | Panic => False end.
Proof.
  intros Ht. induction l as [|x l IH]; [constructor|]. cbn [each]. unfold validate_input at 1. rewrite (ring_len_all _ _ Ht).
  unfold Decoys.length_. fold (len (Decoys.offsets (OutputWithDecoys.decoys x))).
  destruct (ed_is_torsion_free (input_key x)) eqn:H1; cbn [negb check obind].
  2:{ intros [(H & _) _]%Forall_cons_iff. congruence. }
  destruct (ed_is_identity (input_key x)) eqn:H2; cbn [negb check obind].
  { intros [(_ & H & _) _]%Forall_cons_iff. congruence. }
  destruct (Z.eqb_spec (len (Decoys.offsets (OutputWithDecoys.decoys x))) (ring_len_of plus)) as [H3|H3]; cbn [negb check obind].
  2:{ intros [(_ & _ & H) _]%Forall_cons_iff. congruence. }
  destruct (each (validate_input t) l); cbn [obind]; [|intros [_ H]%Forall_cons_iff; exact (IH H)|exact IH].
  constructor; [split; auto|exact IH].
Qed.

Lemma payment_ids_all l : Forall payment_ok l -> each has_payment_id l = Ok (map has_id l).
Proof.
  induction 1 as [|p l Hp _ IH]; [reflexivity|]. cbn [each map]. rewrite IH. unfold has_payment_id, has_id.
  destruct (address_all p Hp) as (a & Ha & _). rewrite !Ha. cbn [obind]. reflexivity.
Qed.

Section Self.
Context (self : t) (Hself : signable_ok self).

Lemma total_in_sum {E} : sum_uint (E := E) 128 0 (amounts_in self) = Ok (total_in self) /\ 0 <= total_in self < 2 ^ 100.
Proof.
  pose proof (amounts_in_ok _ (ok_inputs _ Hself)) as Ha. pose proof (sum_list_below _ Ha) as Hb.
  destruct (ok_memory _ Hself) as (Hm & _). unfold total_in, amounts_in in *. unfold len in *. rewrite length_map in Hb.
  split; [apply sum_uint_ok; [exact Ha|]|]; lia.
Qed.

Lemma total_out_sum {E} : sum_uint (E := E) 128 0 (InternalPayment.amounts (payments self)) = Ok (total_out self) /\
  0 <= total_out self < 2 ^ 100.
Proof.
  pose proof (amounts_ok _ (ok_payments _ Hself)) as Ha. pose proof (sum_list_below _ Ha) as Hb.
  pose proof (amounts_length (payments self)) as Hl.
  destruct (ok_memory _ Hself) as (_ & Hm & _). unfold total_out in *. unfold len in *.
  split; [apply sum_uint_ok; [exact Ha|]|]; lia.
Qed.

Lemma extra_len_ok E : existsb InternalPayment.is_payment (payments self) = true ->
  exists x, extra (E := E) self = Ok x /\ len x = extra_len self.
Proof.
  intros Hpay. destruct (ecdhs_all self Hself Hpay) as (kx & kxs & pub & adds & es & _ & _ & Hp & _ & _ & _ & He & Hf).
  pose proof (list.Forall2_length _ _ _ Hf) as Hel. rewrite enumerate_length in Hel.
  destruct (extra_all self Hself Hpay pub adds es Hp He ltac:(lia)) as (id & Hex & _).
  eexists. split; [apply Hex|]. exact (extra_len_all self Hself Hpay _ Hex).
Qed.

(** There are enough funds, or an error says why not. *)
Lemma validate_funds_cases w f : (forall E, weight_and_necessary_fee (E := E) self = Ok (w, f)) -> 0 <= f < 2 ^ 128 ->
  match validate_funds self with
  | Ok w' => w' = w /\ total_out self + f <= total_in self < 2 ^ 64
  | Err (AmountsUnrepresentable i o) => i = total_in self /\ (2 ^ 64 <= i \/ 2 ^ 64 <= total_out self + f)
  | Err (NotEnoughFunds i o n) => i = total_in self /\ o = total_out self /\ n = Some f /\ i < o + f
  | _ => False
  end.
Proof.
  intros Hw Hf. unfold validate_funds. destruct (total_in_sum (E := SendError)) as [-> Hi]. destruct (total_out_sum (E := SendError)) as [-> Ho].
  cbn [obind]. rewrite Hw. cbn [obind]. cbv zeta.
  destruct (Z.leb_spec (2 ^ 64) (total_in self)); cbn [orb]; [split; [reflexivity|lia]|].
  destruct (Z.leb_spec (2 ^ 64) (Z.min (2 ^ 128 - 1) (total_out self + f))); [split; [reflexivity|lia]|].
  rewrite Z.min_r in * by lia. destruct (Z.ltb_spec (total_in self) (total_out self + f)); [|split; [reflexivity|lia]].
  unfold u64. rewrite !(proj2 (Z.ltb_lt _ _)) by lia. cbn [obind]. auto.
Qed.

(** [validate] accepts what's valid, refuses what isn't, and doesn't panic. *)
Lemma validate_cases :
  match validate self with
  | Ok _ => exists plus w f, valid self plus w f
  | Err _ => forall plus w f, ~ valid self plus w f
  | Panic => False
  end.
Proof.
  unfold validate.
  assert (Ht : exists plus, clsag_type (rct_type self) plus \/ forall plus, ~ clsag_type (rct_type self) plus).
  { unfold clsag_type. destruct (rct_type self); (exists true; (left; reflexivity) || (right; intros []; discriminate)) || (exists false; left; reflexivity). }
  destruct Ht as [plus [Ht|Ht]].
  2:{ destruct (rct_type self) eqn:Hr; cbn; try (intros p w f [H _ _ _ _ _ _ _ _ _ _ _ _]; rewrite Hr in H; exact (Ht _ H)).
      - destruct (Ht false); reflexivity.
      - destruct (Ht true); reflexivity. }
  assert (Hp : forall p w f, valid self p w f -> p = plus).
  { intros p w f [H _ _ _ _ _ _ _ _ _ _ _ _]. unfold clsag_type in *. destruct p, plus; congruence. }
  replace (match rct_type self with RctType.ClsagBulletproof | RctType.ClsagBulletproofPlus => false | _ => true end) with false
    by (rewrite Ht; destruct plus; reflexivity). cbn [check obind].
  destruct (inputs self) as [|i0 il] eqn:Hi; cbn [check obind]; [intros p w f V; exact (v_some _ _ _ _ V Hi)|]. rewrite <- Hi.
  destruct (Nat.eqb_spec (length (remove_dups (map (fun input => Point.compress (input_key input)) (inputs self)))) (length (inputs self)))
    as [Hd|Hd]; cbn [negb check obind].
  2:{ intros p w f V. apply Hd. rewrite <- (length_map (fun input => Point.compress (input_key input)) (inputs self)).
      apply remove_dups_length, (v_distinct _ _ _ _ V). }
  rewrite <- (length_map (fun input => Point.compress (input_key input)) (inputs self)) in Hd. apply remove_dups_length in Hd.
  pose proof (validate_inputs_cases _ plus (inputs self) Ht) as Hv. destruct (each (validate_input _) _) as [us| |]; cbn [obind]; [|..|exact Hv].
  2:{ intros p w f V. pose proof (Hp p w f V) as ->. exact (Hv (v_inputs _ _ _ _ V)). }
  destruct (existsb InternalPayment.is_payment (payments self)) eqn:Hpay; cbn [negb check obind].
  2:{ intros p w f V. pose proof (v_payment _ _ _ _ V). congruence. }
  destruct (Nat.ltb_spec (length (payments self)) 2); cbn [check obind]; [intros p w f V; pose proof (v_count _ _ _ _ V); lia|].
  destruct (Nat.ltb_spec 1 (length (List.filter InternalPayment.is_change (payments self)))); cbn [check obind];
    [intros p w f V; pose proof (v_change _ _ _ _ V); lia|].
  rewrite (payment_ids_all _ (ok_payments _ Hself)). cbn [obind]. rewrite filter_map_length.
  destruct (Nat.ltb_spec 1 (length (List.filter has_id (payments self)))); cbn [check obind];
    [intros p w f V; pose proof (v_ids _ _ _ _ V); lia|].
  unfold len at 1. destruct (Z.ltb_spec MAX_COMMITMENTS (Z.of_nat (length (payments self)))) as [Hc|Hc]; unfold MAX_COMMITMENTS in Hc; cbn [check obind];
    [intros p w f V; pose proof (v_count _ _ _ _ V); lia|].
  destruct (existsb _ (data self)) eqn:Hdata; cbn [check obind].
  { intros p w f V. apply not_false_iff_true in Hdata. apply Hdata, existsb_false_Forall.
    eapply list.Forall_impl; [exact (v_data _ _ _ _ V)|]. intros x Hx. apply Z.ltb_ge, Hx. }
  apply existsb_false_Forall in Hdata.
  destruct (extra_len_ok SendError Hpay) as (x & -> & Hx). cbn [obind]. rewrite Hx.
  destruct (Z.ltb_spec MAX_EXTRA_SIZE_BY_RELAY_RULE (extra_len self)); cbn [check obind];
    [intros p w f V; pose proof (v_extra _ _ _ _ V); lia|].
  destruct (weight_and_necessary_fee_all self Hself Hpay plus Ht ltac:(lia)) as (w & f & Hw & Hwb & Hfb & _).
  assert (Hwf : forall p w' f', valid self p w' f' -> w' = w /\ f' = f).
  { intros p w' f' V. pose proof (v_fee _ _ _ _ V unit) as H'. rewrite Hw in H'. injection H' as -> ->. auto. }
  pose proof (validate_funds_cases w f Hw Hfb) as Hfunds. destruct (validate_funds self) as [w'|e|]; cbn [obind]; [| |exact Hfunds].
  - destruct Hfunds as [-> Hfunds]. destruct (Z.leb_spec MAX_TX_SIZE w); cbn [check].
    + intros p w' f' V. destruct (Hwf _ _ _ V) as [-> ->]. pose proof (v_weight _ _ _ _ V). lia.
    + exists plus, w, f. split; try assumption; [congruence|lia|].
      eapply list.Forall_impl; [exact Hdata|]. intros y Hy. apply Z.ltb_ge, Hy.
  - intros p w' f' V. destruct (Hwf _ _ _ V) as [-> ->]. pose proof (v_funds _ _ _ _ V). destruct e; try exact Hfunds; lia.
Qed.

Lemma validate_accepts : validate self = Ok tt <-> exists plus w f, valid self plus w f.
Proof.
  pose proof validate_cases as H. split.
  - intros Hv. rewrite Hv in H. exact H.
  - intros (plus & w & f & V). destruct (validate self) as [[]|e|]; [reflexivity|destruct (H plus w f V)|contradiction].
Qed.
End Self.

(** *** The order of the payments and of the inputs doesn't matter *)

Lemma valid_same a b plus w f : same_intent a b -> signable_ok a -> valid a plus w f -> valid b plus w f.
Proof.
  intros Hs Ha V. pose proof Hs as [H1 H2 H3 H4 H5 H6]. pose proof (v_payment _ _ _ _ V) as Hpay. pose proof (v_count _ _ _ _ V) as Hc.
  split.
  - rewrite <- H1. apply V.
  - intros Hi. rewrite Hi in H3. apply Permutation_nil_r in H3. exact (v_some _ _ _ _ V H3).
  - rewrite <- H3. apply V.
  - rewrite <- H3. apply V.
  - rewrite <- H4. exact Hpay.
  - rewrite <- H4. exact Hc.
  - rewrite <- (filter_length_perm InternalPayment.is_change _ _ H4). apply V.
  - rewrite <- (filter_length_perm has_id _ _ H4). apply V.
  - rewrite <- H5. apply V.
  - destruct (should_same a b Hs) as [Hsh _]. unfold extra_len, additional_length, extra_has_id.
    rewrite <- Hsh, <- H4, <- H5. apply V.
  - intros E. rewrite <- (weight_same plus a b Hs Ha (v_type _ _ _ _ V) Hpay ltac:(lia)). apply V.
  - unfold total_out, total_in, amounts_in. rewrite <- H3, <- (amounts_perm _ _ H4). apply V.
  - apply V.
Qed.
End Valid.
