(* ===== verification/SendTx.v ===== *)
(** The transaction made for a valid [SignableTransaction], without its
    signatures ([wallet/src/send/tx.rs]): it's always made, it balances, its
    fee is the one necessary at least, and its Bulletproof is verified. *)

From Stdlib Require Import ZArith Lia Sorted.
From stdpp Require Import base list strings numbers sorting.
From S2P Require Import Prelude Dalek MoneroIo Ed25519 Clsag Bulletproofs BpCore BpOriginal BpPlus BpTheorems RingCT Transaction Interface.
From S2P Require Import Address Extra WalletOutput ViewPair DecoySelection Send SendKeys SendWeight SendNew.

Import SignableTransaction.

Section Tx.
Context {D : Dalek} {DL : DalekLaws D} {K : Keccak} {KL : KeccakLaws K} {R : Rand} {PR : Primitives} {ST : Setup}.

(** The amount of the output of a payment, [f] being the fee *)
Definition amount_sent (self : t) (f : Z) (p : InternalPayment) : Z :=
  match p with Payment _ amount => amount | ChangePayment _ => total_in self - (total_out self + f) end.

Definition has_change (self : t) : bool := existsb InternalPayment.is_change (payments self).

(** The fee paid *)
Definition fee_paid (self : t) (f : Z) : Z := if has_change self then f else total_in self - total_out self.

Section Self.
Context (self : t) (Hself : signable_ok self) (plus : bool) (w f : Z) (V : valid self plus w f).

Lemma funds : 0 <= total_out self /\ 0 <= f /\ total_out self + f <= total_in self < 2 ^ 64.
Proof.
  destruct (total_out_sum self Hself (E := unit)) as [_ Ho].
  destruct (weight_and_necessary_fee_all self Hself (v_payment _ _ _ _ V) plus (v_type _ _ _ _ V)) as (w' & f' & Hw & _ & Hf & _);
    [pose proof (v_count _ _ _ _ V); lia|].
  pose proof (v_fee _ _ _ _ V unit) as Hv. rewrite Hw in Hv. injection Hv as <- <-. pose proof (v_funds _ _ _ _ V). lia.
Qed.

Lemma sums_64 E : sum_uint (E := E) 64 0 (amounts_in self) = Ok (total_in self) /\
  sum_uint (E := E) 64 0 (InternalPayment.amounts (payments self)) = Ok (total_out self).
Proof.
  pose proof funds as Hf. split; (rewrite sum_uint_ok; [reflexivity| |]).
  - apply (amounts_in_ok _ (ok_inputs _ Hself)).
  - unfold total_in in Hf. lia.
  - apply (amounts_ok _ (ok_payments _ Hself)).
  - unfold total_out in Hf. lia.
Qed.

Lemma necessary_fee_all E : necessary_fee (E := E) self = Ok f.
Proof.
  pose proof funds. unfold necessary_fee. rewrite (v_fee _ _ _ _ V). cbn [obind]. unfold u64.
  destruct (Z.ltb_spec f (2 ^ 64)); [reflexivity|lia].
Qed.

Lemma change_amount_all E : change_amount (E := E) self = Ok (total_in self - (total_out self + f)).
Proof.
  pose proof funds. unfold change_amount. destruct (sums_64 E) as [-> ->]. cbn [obind]. rewrite (v_fee _ _ _ _ V). cbn [obind]. unfold u64.
  destruct (Z.ltb_spec f (2 ^ 64)); [|lia]. cbn [obind]. destruct (Z.leb_spec (2 ^ 64) (total_out self + f)); [lia|].
  destruct (Z.ltb_spec (total_in self) (total_out self + f)); [lia|reflexivity].
Qed.

Lemma fee_all E : fee (E := E) self = Ok (fee_paid self f).
Proof.
  pose proof funds. unfold fee, fee_paid, has_change. destruct (existsb _ _).
  - rewrite (v_fee _ _ _ _ V). cbn [obind]. unfold u64. destruct (Z.ltb_spec f (2 ^ 64)); [reflexivity|lia].
  - destruct (sums_64 E) as [-> ->]. cbn [obind]. destruct (Z.ltb_spec (total_in self) (total_out self)); [lia|reflexivity].
Qed.

Lemma fee_enough : f <= fee_paid self f < 2 ^ 64.
Proof. pose proof funds. unfold fee_paid. destruct (has_change self); lia. Qed.

(** With one change output or none, the outputs are what the inputs are but the fee. *)
Lemma amounts_balance : sum_list (map (amount_sent self f) (payments self)) + fee_paid self f = total_in self.
Proof.
  pose proof (v_change _ _ _ _ V) as Hc. unfold fee_paid, has_change.
  assert (H : sum_list (map (amount_sent self f) (payments self)) =
    total_out self + Z.of_nat (length (List.filter InternalPayment.is_change (payments self))) * (total_in self - (total_out self + f))).
  { unfold amount_sent. generalize (total_in self - (total_out self + f)) as c. unfold total_out. intros c. clear.
    induction (payments self) as [|[a m|x] l IH]; cbn [map sum_list InternalPayment.amounts List.filter InternalPayment.is_change length]; lia. }
  rewrite H. clear H. assert (He : existsb InternalPayment.is_change (payments self) = false <->
    length (List.filter InternalPayment.is_change (payments self)) = 0%nat).
  { clear. induction (payments self) as [|[a m|x] l IH]; cbn; [tauto|exact IH|split; discriminate]. }
  destruct (existsb _ (payments self)).
  - assert (length (List.filter InternalPayment.is_change (payments self)) = 1%nat) as ->; [|lia].
    destruct (length _) as [|[|n]]; [destruct He as [_ He]; discriminate (He eq_refl)|reflexivity|lia].
  - rewrite (proj1 He eq_refl). lia.
Qed.

(** *** Commitments and encrypted amounts *)

(** What's made for a payment of its derivations *)
Definition committed_to (p : InternalPayment) (d : SharedKeyDerivations.t) (x : Commitment.t * EncryptedAmount) : Prop :=
  commitment_ok (fst x) /\ Commitment.amount (fst x) = amount_sent self f p /\
  (exists bs, snd x = EncryptedCompact bs /\ is_array 8 bs) /\
  forall E, SharedKeyDerivations.decrypt (E := E) d (snd x) = Ok (fst x).

Lemma amount_sent_U p : p ∈ payments self -> U 64 (amount_sent self f p).
Proof.
  pose proof funds. intros Hp. pose proof (proj1 (list.Forall_forall _ _) (ok_payments _ Hself) p Hp) as Hok.
  destruct p as [a amount|c]; [apply Hok|unfold U; cbn; lia].
Qed.

Lemma commitments_all key_images ds : (forall E, shared_key_derivations (E := E) self key_images = Ok ds) ->
  exists l, (forall E, commitments_and_encrypted_amounts (E := E) self key_images = Ok l) /\
    Forall2 (fun y x => committed_to (fst y) (snd y) x) (zip (payments self) ds) l.
Proof.
  intros Hd. unfold commitments_and_encrypted_amounts.
  destruct (each_all (fun E => commitment_and_encrypted_amount (E := E) self) (fun y x => committed_to (fst y) (snd y) x) (zip (payments self) ds)) as (l & Hl & Hf).
  - intros [p d] Hin. apply list_elem_of_In, elem_of_zip_l in Hin. pose proof (amount_sent_U p Hin) as HU.
    destruct (mask_total d) as [m Hm]. destruct (compact_encryption_all d _ HU) as (bs & Hbs & Hb8).
    exists (Commitment.new (Scalar.from m) (amount_sent self f p), EncryptedCompact bs). split.
    + intros E. unfold commitment_and_encrypted_amount. destruct p as [a amount|c]; cbn [obind].
      * rewrite Hm. cbn [obind]. cbn [amount_sent] in Hbs. rewrite Hbs. reflexivity.
      * rewrite change_amount_all. cbn [obind]. rewrite Hm. cbn [obind]. cbn [amount_sent] in Hbs. rewrite Hbs. reflexivity.
    + split; [split; [apply scalar_from_ok|exact HU]|]. split; [reflexivity|]. split; [eauto|].
      intros E. cbn [fst snd]. exact (decrypt_encrypt d _ _ bs HU (Hm E) (Hbs E)).
  - exists l. split; [|exact Hf]. intros E. rewrite Hd. apply Hl.
Qed.

(** *** The proof *)

Lemma bulletproof_all opens : Forall commitment_ok opens -> (1 <= length opens <= 16)%nat ->
  exists bp, (forall E, SignableTransactionWithKeyImages.bulletproof (E := E) self opens = Ok bp) /\ accepted plus opens bp.
Proof.
  intros Ho Hl. destruct (seeded_rng_all self BULLETPROOF ltac:(discriminate) (ok_inputs _ Hself)) as [seed Hs].
  destruct (prove_accepted plus (chacha20 seed) opens (conj Ho Hl)) as (bp & g & Hp & Ha). exists bp. split; [|exact Ha].
  intros E. unfold SignableTransactionWithKeyImages.bulletproof. rewrite Hs. cbn [obind]. rewrite (v_type _ _ _ _ V).
  destruct plus; cbn [prove_as] in Hp; rewrite Hp; reflexivity.
Qed.

Lemma accepted_fits opens bp : (1 <= length opens <= 16)%nat -> accepted plus opens bp -> bp_fits plus (lr_of (len opens)) bp.
Proof.
  intros Hl (Hok & (k & Hlr & Hk) & _). assert (Hk' : lr_of (len opens) = Z.of_nat k).
  { assert (Hlog : k = Nat.log2 (padded_pow_of_2 (length opens) * BITS)) by (rewrite <- Hk, Nat.log2_pow2 by lia; reflexivity).
    rewrite Hlog. unfold len. clear -Hl. remember (length opens) as m eqn:Hm. clear Hm.
    do 17 (destruct m as [|m]; [first [lia|vm_compute; reflexivity]|]). lia. }
  rewrite Hk'. assert (Hlen : forall l, points_ok l -> len (write_vec CompressedPoint.write l) = VarInt.varint_len (len l) + 32 * len l).
  { intros l [Hf HU]. unfold write_vec. rewrite len_app, write_len by apply HU. rewrite (len_raw_vec _ 32); [lia|].
    eapply list.Forall_impl; [exact Hf|]. intros x Hx. unfold CompressedPoint.write, len. rewrite (is_array_length _ _ Hx). reflexivity. }
  assert (H32 : forall x, is_array 32 x -> len (CompressedPoint.write x) = 32).
  { intros x Hx. unfold CompressedPoint.write, len. rewrite (is_array_length _ _ Hx). reflexivity. }
  assert (Hs32 : forall x, len (write_dscalar x) = 32).
  { intros x. unfold write_dscalar, len. rewrite (is_array_length _ _ (sc_bytes_array x)). reflexivity. }
  unfold bp_fits, bp_size. destruct bp as [bp|bp]; cbn [lr_lengths] in Hlr; injection Hlr as HL HR.
  - destruct Hok as (-> & HA & HS & HT1 & HT2 & HLo & HRo). split; [reflexivity|]. unfold Bulletproof.write, Bulletproof.write_core.
    rewrite !len_app, !H32, !Hs32, !Hlen by assumption. unfold len. rewrite HL, HR. lia.
  - destruct Hok as (-> & HA & HwA & HB & HLo & HRo). split; [reflexivity|]. unfold Bulletproof.write, Bulletproof.write_core.
    rewrite !len_app, !H32, !Hs32, !Hlen by assumption. unfold len. rewrite HL, HR. lia.
Qed.

(** *** The transaction *)

(** What a transaction is made of *)
Record pieces := mk_pieces {
  p_outputs : list Output.t;
  p_extra : bytes;
  p_opens : list (Commitment.t * EncryptedAmount);
  p_commitments : list Point;
  p_bulletproof : Bulletproof
}.

Definition unsigned (key_images : list CompressedPoint) (x : pieces) (clsags : list Clsag.t) (pseudo_outs : list CompressedPoint)
  : Transaction NotPruned :=
  V2 (P := NotPruned) (TransactionPrefix.mk Timelock.None (prefix_inputs self key_images) (p_outputs x) (p_extra x))
    (Some (mk_RctProofs (RctBase.mk (fee_paid self f) [] (map snd (p_opens x)) (map Point.compress (p_commitments x)))
             (ClsagProofs clsags pseudo_outs (p_bulletproof x)))).

Record made (key_images : list CompressedPoint) (x : pieces) : Prop := {
  made_outputs : forall E, outputs (E := E) self key_images = Ok (p_outputs x);
  made_extra : forall E, extra (E := E) self = Ok (p_extra x);
  made_opens : forall E, commitments_and_encrypted_amounts (E := E) self key_images = Ok (p_opens x);
  made_committed : exists ds, (forall E, shared_key_derivations (E := E) self key_images = Ok ds) /\
    Forall2 (fun y x => committed_to (fst y) (snd y) x) (zip (payments self) ds) (p_opens x);
  made_amounts : Forall2 (fun p o => commitment_ok (fst o) /\ Commitment.amount (fst o) = amount_sent self f p /\ len (EncryptedAmount.write (snd o)) = 8)
    (payments self) (p_opens x);
  made_commitments : forall E, each (Commitment.commit (E := E)) (map fst (p_opens x)) = Ok (p_commitments x);
  made_proof : accepted plus (map fst (p_opens x)) (p_bulletproof x);
  made_sizes : Forall (fun o => len (Output.write o) = output_size plus) (p_outputs x) /\ len (p_outputs x) = len (payments self) /\
    len (p_extra x) = extra_len self
}.

Lemma each_compress {E} l Cs : each (Commitment.commit (E := E)) (map fst l) = Ok Cs ->
  each (fun x : Commitment.t * EncryptedAmount => let? c := Commitment.commit (E := E) (fst x) in Ok (Point.compress c)) l = Ok (map Point.compress Cs).
Proof.
  revert Cs. induction l as [|x l IH]; intros Cs; cbn [map each]; [intros [= <-]; reflexivity|].
  destruct (Commitment.commit (fst x)) as [c| |]; cbn [obind]; try discriminate.
  destruct (each Commitment.commit (map fst l)) as [cs| |]; cbn [obind]; try discriminate. intros [= <-]. rewrite (IH cs eq_refl). reflexivity.
Qed.

(** The transaction is always made. *)
Lemma transaction_all key_images : exists x, made key_images x /\
  forall E, SignableTransactionWithKeyImages.transaction_without_signatures (E := E) (SignableTransactionWithKeyImages.mk self key_images)
    = Ok (unsigned key_images x [] []).
Proof.
  pose proof (v_payment _ _ _ _ V) as Hpay. pose proof (v_count _ _ _ _ V) as Hc.
  destruct (ecdhs_all self Hself Hpay) as (kx & kxs & pub & adds & es & _ & _ & Hp & _ & _ & _ & He & Hf).
  assert (Hel : length es = length (payments self)) by (apply list.Forall2_length in Hf; rewrite enumerate_length in Hf; lia).
  destruct (derivations_all self Hself key_images es He) as (ds & Hds & Hdf).
  pose proof (derivations_length self key_images es ds Hel Hdf) as Hdl.
  destruct (commitments_all key_images ds Hds) as (l & Hl & Hlf).
  destruct (tx_parts self Hself Hpay plus (v_type _ _ _ _ V) key_images) as (outs & ex & Ho & Hx & Hsizes).
  assert (Hopens : Forall2 (fun p o => commitment_ok (fst o) /\ Commitment.amount (fst o) = amount_sent self f p /\ len (EncryptedAmount.write (snd o)) = 8)
    (payments self) l).
  { clear -Hlf Hdl. revert ds l Hdl Hlf. induction (payments self) as [|p ps IH]; intros [|d ds] l Hdl Hlf; try discriminate.
    - inversion Hlf; subst. constructor.
    - inversion Hlf as [|? x ? l' (H1 & H2 & (bs & H3 & H4) & _) Hlf']; subst. constructor; [|exact (IH ds l' ltac:(cbn in Hdl; lia) Hlf')].
      split; [exact H1|]. split; [exact H2|]. rewrite H3. unfold EncryptedAmount.write, len. rewrite (is_array_length _ _ H4). reflexivity. }
  assert (Hcok : Forall commitment_ok (map fst l)).
  { apply Forall_map. clear -Hopens. induction Hopens as [|? ? ? ? [H _] _ IH]; constructor; assumption. }
  assert (Hll : length (map fst l) = length (payments self)) by (rewrite length_map; symmetry; exact (list.Forall2_length _ _ _ Hopens)).
  destruct (bulletproof_all (map fst l) Hcok) as (bp & Hbp & Hacc); [lia|].
  destruct (accepted_verified _ _ _ Hacc) as (Cs & HCs & _).
  exists (mk_pieces outs ex l Cs bp). split; [split; cbn; auto; eauto|].
  intros E. unfold SignableTransactionWithKeyImages.transaction_without_signatures. cbn [SignableTransactionWithKeyImages.intent SignableTransactionWithKeyImages.key_images].
  rewrite Hl. cbn [obind]. rewrite (each_compress _ _ (HCs E)). cbn [obind]. rewrite Hbp. cbn [obind]. rewrite Ho. cbn [obind]. rewrite Hx. cbn [obind].
  rewrite fee_all. reflexivity.
Qed.

(** The weight of the transaction signed, with what its fee takes *)
Lemma weight_made key_images x clsags pseudo_outs : made key_images x -> Forall (is_array 32) key_images -> length key_images = length (inputs self) ->
  Forall (fun c => len (Clsag.write c) = 32 * (ring_len_of plus + 2)) clsags -> length clsags = length (inputs self) ->
  Forall (is_array 32) pseudo_outs -> length pseudo_outs = length (inputs self) ->
  forall E, Transaction.weight (E := E) (unsigned key_images x clsags pseudo_outs) = Ok (base_of self plus + VarInt.varint_len (fee_paid self f)).
Proof.
  intros M Hk Hkl Hcl Hcn Hp Hpn E. destruct (made_sizes _ _ M) as (Ho & Hol & Hxl). pose proof (made_amounts _ _ M) as Ha.
  pose proof (list.Forall2_length _ _ _ Ha) as Hal. pose proof (v_count _ _ _ _ V) as Hcount. destruct (ok_memory _ Hself) as (Hi & _).
  assert (Hl : len (map fst (p_opens x)) = len (payments self)) by (unfold len; rewrite length_map; lia).
  pose proof (accepted_fits (map fst (p_opens x)) (p_bulletproof x) ltac:(rewrite length_map; lia) (made_proof _ _ M)) as Hfits. rewrite Hl in Hfits.
  pose proof (extra_len_bound self Hself (v_payment _ _ _ _ V) ltac:(lia)) as He. pose proof fee_enough as Hfee. pose proof funds as Hfunds.
  pose proof (made_commitments _ _ M unit) as HC. apply each_ok, list.Forall2_length in HC. rewrite length_map in HC.
  unfold unsigned. rewrite (weight_all self plus (v_type _ _ _ _ V) _ _ _ _ _ _ Hfits). cbn [TransactionPrefix.outputs]. rewrite Hol. unfold prefix_inputs.
  rewrite (write_size plus _ _ _ _ _ _ _ _ _ _ (lr_of (len (payments self))) (len (payments self)));
    try apply (ok_inputs _ Hself); try assumption; try (unfold U; lia); try (unfold len in *; lia).
  - rewrite Hxl. unfold base_of. f_equal. lia.
  - apply Forall_map. clear -Ha. induction Ha as [|p o l l' (_ & _ & H) _ IH]; constructor; assumption.
  - unfold len. rewrite length_map. lia.
  - apply Forall_map, Forall_true. intros q. apply ed_compress_array.
  - unfold len. rewrite length_map. lia.
Qed.
End Self.
End Tx.
