(* ===== verification/SendSign.v ===== *)
(** Signing ([wallet/src/send/mod.rs]): the unsigned transaction for any key
    images, and the signed transaction, whose signatures verify and whose
    commitments balance. *)

From Stdlib Require Import ZArith Lia Sorted.
From stdpp Require Import base list strings numbers sorting.
From S2P Require Import Prelude Dalek MoneroIo Ed25519 Clsag ClsagSign Bulletproofs BpCore BpOriginal BpPlus BpAlgebra BpVectors BpOriginalProofs BpRange BpTheorems RingCT Transaction Interface.
From S2P Require Import Address Extra WalletOutput ViewPair DecoySelection Send SendKeys SendWeight SendNew SendTx.

Import SignableTransaction.

(** ** Sums of points *)

Section Sums.
Context {D : Dalek} {DL : DalekLaws D}.

Lemma point_sum_perm l l' : l ≡ₚ l' -> point_sum l = point_sum l'.
Proof.
  unfold point_sum. induction 1 as [|x l l' _ IH|x y l|l l' l'' _ IH _ IH']; cbn [foldr]; [reflexivity|rewrite IH; reflexivity| |congruence].
  rewrite !ed_add_assoc, (ed_add_comm y x). reflexivity.
Qed.

Lemma amounts_sum h l : ed_is_torsion_free h = true -> Forall (U 64) l -> Clsag.sum_list l < 2 ^ 64 ->
  point_sum (map (fun a => ed_mul (sc_from_u64 a) h) l) = ed_mul (sc_from_u64 (sum_list l)) h.
Proof.
  intros Hh Hl. induction Hl as [|a l Ha Hl IH]; cbn [map sum_list point_sum foldr]; intros Hs; [rewrite u64_zero, ed_mul_zero; reflexivity|].
  pose proof (sum_list_nonneg l Hl). unfold U in Ha. unfold point_sum in IH. rewrite IH by lia. rewrite u64_add by (unfold U; lia).
  rewrite ed_mul_add_l by exact Hh. reflexivity.
Qed.

Lemma sc_add_fold s l : foldl sc_add s l = sc_add s (foldl sc_add sc_ZERO l).
Proof.
  revert s. induction l as [|x l IH]; intros s; cbn [foldl]; [rewrite sc_add_zero; reflexivity|].
  rewrite IH, (IH (sc_add sc_ZERO x)), (sc_add_comm sc_ZERO x), sc_add_zero, sc_add_assoc. reflexivity.
Qed.

(** The sum of commitments is the commitment to the sums. *)
Lemma commitments_sum h opens Cs masks : (forall E, Commitment.H (E := E) = Ok h) ->
  each (Commitment.commit (E := unit)) opens = Ok Cs -> each (fun x => Scalar.into (E := unit) (Commitment.mask x)) opens = Ok masks ->
  point_sum Cs = ed_add (ed_mul (foldl sc_add sc_ZERO masks) ED25519_BASEPOINT_POINT)
                   (point_sum (map (fun a => ed_mul (sc_from_u64 a) h) (map Commitment.amount opens))).
Proof.
  intros Hh. revert Cs masks. induction opens as [|c opens IH]; intros Cs masks; cbn [each map].
  - intros [= <-] [= <-]. cbn. rewrite ed_mul_zero, ed_add_id. reflexivity.
  - destruct (Commitment.commit c) as [p| |] eqn:Hc; cbn [obind]; try discriminate.
    destruct (each Commitment.commit opens) as [ps| |]; cbn [obind]; try discriminate. intros [= <-].
    destruct (Scalar.into (Commitment.mask c)) as [m| |] eqn:Hm; cbn [obind]; try discriminate.
    destruct (each (fun x => Scalar.into (E := unit) (Commitment.mask x)) opens) as [ms| |]; cbn [obind]; try discriminate. intros [= <-].
    apply commit_spec in Hc as (m' & h' & Hm' & Hh' & ->). rewrite Hm in Hm'. injection Hm' as <-.
    assert (h' = h) as -> by (rewrite (Hh ClsagError) in Hh' || rewrite (Hh unit) in Hh'; injection Hh' as ->; reflexivity).
    cbn [point_sum foldr foldl map]. unfold point_sum in IH. rewrite (IH ps ms eq_refl eq_refl), (sc_add_fold (sc_add sc_ZERO m) ms), (sc_add_comm sc_ZERO m), sc_add_zero.
    rewrite ed_mul_add_l by apply ed_basepoint_free. apply ed_add_swap.
Qed.
End Sums.

Section Sign.
Context {D : Dalek} {DL : DalekLaws D} {K : Keccak} {KL : KeccakLaws K} {R : Rand} {PR : Primitives} {ST : Setup}.
Import Signing.

(** ** The order of the inputs *)

(** The inputs with their key images *)
Definition paired (tx : SignableTransactionWithKeyImages.t) : list (OutputWithDecoys.t * CompressedPoint) :=
  zip (inputs (SignableTransactionWithKeyImages.intent tx)) (SignableTransactionWithKeyImages.key_images tx).

Lemma with_key_images_spec self key_images : length key_images = length (inputs self) ->
  let tx := with_key_images self key_images in
  same_intent self (SignableTransactionWithKeyImages.intent tx) /\ payments (SignableTransactionWithKeyImages.intent tx) = payments self /\
  length (SignableTransactionWithKeyImages.key_images tx) = length (inputs (SignableTransactionWithKeyImages.intent tx)) /\
  paired tx ≡ₚ zip (inputs self) key_images /\ StronglySorted key_image_le (SignableTransactionWithKeyImages.key_images tx).
Proof.
  intros Hl tx. unfold tx, with_key_images, paired. set (l := sort_by _ (zip (inputs self) key_images)).
  assert (Hp : l ≡ₚ zip (inputs self) key_images) by apply sort_by_perm.
  cbn [SignableTransactionWithKeyImages.intent SignableTransactionWithKeyImages.key_images with_inputs inputs payments].
  split; [split; cbn; try reflexivity|split; [reflexivity|split; [rewrite !length_map; reflexivity|split]]].
  - assert (Hz : map fst (zip (inputs self) key_images) = inputs self) by (apply (fst_zip (inputs self) key_images); lia).
    rewrite Hp, Hz. reflexivity.
  - rewrite zip_fst_snd. exact Hp.
  - assert (Hs : StronglySorted (fun a b => key_image_le (snd a) (snd b)) l).
    { apply sort_by_sorted; [intros a b c; apply key_image_le_trans|]. intros a b. apply key_image_lt_le. }
    clear -Hs. induction Hs as [|x l Hs IH Hx]; cbn [map]; constructor; [exact IH|]. apply Forall_map. exact Hx.
Qed.

Section Self.
Context (self : t) (Hself : signable_ok self) (plus : bool) (w f : Z) (V : valid self plus w f).

(** What a transaction in either order has in common *)
Lemma same_amounts self' : same_intent self self' -> payments self' = payments self ->
  total_in self' = total_in self /\ total_out self' = total_out self /\ fee_paid self' f = fee_paid self f /\
  forall p, amount_sent self' f p = amount_sent self f p.
Proof.
  intros [_ _ Hi _ _ _] Hp. assert (Ht : total_in self' = total_in self) by (unfold total_in, amounts_in; rewrite <- Hi; reflexivity).
  unfold fee_paid, has_change, amount_sent, total_out. rewrite Ht, Hp. auto.
Qed.

(** The transaction with the inputs in the order of their key images *)
Lemma unsigned_all key_images : length key_images = length (inputs self) ->
  let tx := with_key_images self key_images in
  let self' := SignableTransactionWithKeyImages.intent tx in
  let key_images' := SignableTransactionWithKeyImages.key_images tx in
  same_intent self self' /\ payments self' = payments self /\ signable_ok self' /\ valid self' plus w f /\
  exists x, made self' plus f key_images' x /\
    (forall E, SignableTransactionWithKeyImages.transaction_without_signatures (E := E) tx = Ok (unsigned self' f key_images' x [] [])) /\
    forall E, unsigned_transaction (E := E) self key_images = Ok (Some (unsigned self' f key_images' x [] [])).
Proof.
  intros Hl tx self' key_images'. destruct (with_key_images_spec self key_images Hl) as (Hs & Hp & _).
  pose proof (same_intent_ok _ _ Hs Hself) as Hok. pose proof (valid_same _ _ _ _ _ Hs Hself V) as V'.
  destruct (transaction_all self' Hok plus w f V' key_images') as (x & M & Hx).
  assert (Htx : tx = SignableTransactionWithKeyImages.mk self' key_images') by (unfold self', key_images'; destruct tx; reflexivity).
  split; [exact Hs|]. split; [exact Hp|]. split; [exact Hok|]. split; [exact V'|]. exists x. split; [exact M|].
  split; [intros E; rewrite Htx; apply Hx|]. intros E. unfold unsigned_transaction. rewrite Hl, Nat.eqb_refl. cbn [negb]. fold tx. rewrite Htx, Hx. reflexivity.
Qed.
End Self.

(** ** The unsigned transaction *)

Definition rct_proofs (tx : Transaction NotPruned) : option RctProofs := match tx with V2 _ proofs => proofs | V1 _ _ => None end.

Definition key_images_of (l : list Input) : list CompressedPoint := omap Eventuality.input_key_image l.

(** [tx] is what [self] intends, with the outputs' commitments opened by [opens]. *)
Record intended (self : t) (key_images : list CompressedPoint) (tx : Transaction NotPruned) (opens : list Commitment.t) : Prop := {
  int_inputs : TransactionPrefix.inputs (Transaction.prefix tx) ≡ₚ prefix_inputs self key_images;
  int_sorted : StronglySorted key_image_le (key_images_of (TransactionPrefix.inputs (Transaction.prefix tx)));
  int_timelock : TransactionPrefix.additional_timelock (Transaction.prefix tx) = Timelock.None;
  int_outputs : length (TransactionPrefix.outputs (Transaction.prefix tx)) = length (payments self);
  int_amounts : Forall2 (fun p c => match p with Payment _ amount => Commitment.amount c = amount | ChangePayment _ => True end)
    (payments self) opens;
  int_proofs : exists fee encrypted_amounts commitments bulletproof,
    rct_proofs tx = Some (mk_RctProofs (RctBase.mk fee [] encrypted_amounts (map Point.compress commitments)) (ClsagProofs [] [] bulletproof)) /\
    length encrypted_amounts = length (payments self) /\
    each (Commitment.commit (E := SendError)) opens = Ok commitments /\
    sum_list (map Commitment.amount opens) + fee = total_in self /\
    (exists necessary, necessary_fee (E := SendError) self = Ok necessary /\ 0 <= necessary <= fee /\ (has_change self = true -> fee = necessary)) /\
    forall rng, exists rng', Prove.verify (E := SendError) bulletproof rng (map Point.compress commitments) = Ok (true, rng')
}.

Lemma prefix_inputs_zip self l : prefix_inputs (with_inputs self (map fst l)) (map snd l) =
  map (fun x => ToKey None (Decoys.offsets (OutputWithDecoys.decoys (fst x))) (snd x)) l.
Proof. unfold prefix_inputs, with_inputs. cbn [inputs]. induction l as [|[i k] l IH]; cbn; [reflexivity|]. f_equal. exact IH. Qed.

Lemma key_images_map l : key_images_of (map (fun x => ToKey None (Decoys.offsets (OutputWithDecoys.decoys (fst x))) (snd x)) l) = map snd l.
Proof. unfold key_images_of. induction l as [|[i k] l IH]; cbn; [reflexivity|]. f_equal. exact IH. Qed.

Lemma prefix_inputs_map self key_images : prefix_inputs self key_images =
  map (fun x => ToKey None (Decoys.offsets (OutputWithDecoys.decoys (fst x))) (snd x)) (zip (inputs self) key_images).
Proof.
  unfold prefix_inputs. revert key_images. induction (inputs self) as [|i l IH]; intros [|k ks]; cbn; try reflexivity. f_equal. apply IH.
Qed.

Lemma unsigned_intended self key_images plus w f : signable_ok self -> valid self plus w f -> length key_images = length (inputs self) ->
  exists tx opens, (forall E, unsigned_transaction (E := E) self key_images = Ok (Some tx)) /\ intended self key_images tx opens.
Proof.
  intros Hself V Hl. destruct (unsigned_all self Hself plus w f V key_images Hl) as (Hs & Hp & Hok & V' & x & M & _ & Htx).
  destruct (with_key_images_spec self key_images Hl) as (_ & _ & Hkl & Hpair & Hsort).
  set (self' := SignableTransactionWithKeyImages.intent (with_key_images self key_images)) in *.
  set (key_images' := SignableTransactionWithKeyImages.key_images (with_key_images self key_images)) in *.
  destruct (same_amounts self f self' Hs Hp) as (Hti & Hto & Hfee & Ham).
  exists (unsigned self' f key_images' x [] []), (map fst (p_opens x)). split; [exact Htx|].
  pose proof (made_amounts _ _ _ _ _ M) as Ha. rewrite Hp in Ha. destruct (made_sizes _ _ _ _ _ M) as (_ & Hol & _). rewrite Hp in Hol.
  pose proof (amounts_balance self plus w f V) as Hbal. pose proof (fee_enough self Hself plus w f V) as Hen. pose proof (funds self Hself plus w f V) as Hfu.
  split; cbn [Transaction.prefix unsigned TransactionPrefix.inputs TransactionPrefix.additional_timelock TransactionPrefix.outputs rct_proofs].
  - rewrite !prefix_inputs_map. fold (paired (with_key_images self key_images)) in Hpair. unfold paired in Hpair. fold self' key_images' in Hpair.
    rewrite Hpair. reflexivity.
  - rewrite prefix_inputs_map, key_images_map.
    assert (Hz : map snd (zip (inputs self') key_images') = key_images') by (apply (snd_zip (inputs self') key_images'); lia). rewrite Hz. exact Hsort.
  - reflexivity.
  - unfold len in Hol. lia.
  - clear -Ha Ham. induction Ha as [|p o l l' (_ & H & _) _ IH]; constructor; [|exact IH]. destruct p; [rewrite H; reflexivity|exact I].
  - exists (fee_paid self' f), (map snd (p_opens x)), (p_commitments x), (p_bulletproof x). split; [reflexivity|].
    split; [rewrite length_map; symmetry; exact (list.Forall2_length _ _ _ Ha)|]. split; [apply (made_commitments _ _ _ _ _ M)|].
    rewrite Hfee. split; [|split].
    + rewrite <- Hbal. f_equal. f_equal. clear -Ha Ham. induction Ha as [|p o l l' (_ & H & _) _ IH]; [reflexivity|]. cbn [map]. rewrite H, Ham. f_equal. exact IH.
    + exists f. split; [apply (necessary_fee_all self Hself plus w f V)|]. split; [lia|]. unfold fee_paid. intros ->. reflexivity.
    + destruct (accepted_verified _ _ _ (made_proof _ _ _ _ _ M)) as (Cs & HCs & Hv). pose proof (made_commitments _ _ _ _ _ M unit) as HC.
      rewrite HCs in HC. injection HC as <-. intros rng. destruct (Hv rng) as (rng' & H). exists rng'. apply H.
Qed.

(** ** Signing *)

Section Key.
Context (sk : DScalar).

(** The key of an input is the spend key's, with its offset. *)
Definition owned (input : OutputWithDecoys.t) : Prop := exists offset,
  Scalar.into (E := SendError) (input_key_offset input) = Ok offset /\
  ed_mul (sc_add sk offset) ED25519_BASEPOINT_POINT = input_key input.

(** Its key image *)
Definition has_key_image (input : OutputWithDecoys.t) (key_image : CompressedPoint) : Prop := exists offset generator,
  Scalar.into (E := SendError) (input_key_offset input) = Ok offset /\
  Point.biased_hash (E := SendError) (Point.compress (input_key input)) = Ok generator /\
  key_image = Point.compress (ed_mul (sc_add sk offset) generator).

(** The member of the ring at the signer's index has its commitment, or key. *)
Definition ring_committed (input : OutputWithDecoys.t) : Prop := exists members,
  Decoys.signer_ring_members (E := SendError) (OutputWithDecoys.decoys input) = Ok members /\
  Commitment.commit (E := SendError) (input_commitment input) = Ok (snd members).

Definition ring_keyed (input : OutputWithDecoys.t) : Prop := exists members,
  Decoys.signer_ring_members (E := SendError) (OutputWithDecoys.decoys input) = Ok members /\ fst members = input_key input.

Lemma offset_all input : output_with_decoys_ok input -> exists offset, forall E, Scalar.into (E := E) (input_key_offset input) = Ok offset.
Proof. intros [[H _] _]. destruct (scalar_into_all _ H) as (s & Hs & _). exists s. exact Hs. Qed.

Lemma key_images_cases l : Forall output_with_decoys_ok l ->
  match each (input_key_image sk) l with
  | Ok key_images => Forall owned l /\ Forall2 has_key_image l key_images
  | Err e => e = WrongPrivateKey /\ ~ Forall owned l
  | Panic => False
  end.
Proof.
  induction 1 as [|x l Hx _ IH]; cbn [each]; [split; constructor|]. destruct (offset_all x Hx) as [off Hoff].
  unfold input_key_image at 1. rewrite Hoff. cbn [obind].
  destruct (ed_eqb (ed_mul (sc_add sk off) ED25519_BASEPOINT_POINT) (SignableTransaction.input_key x)) eqn:He; cbn [negb].
  - apply ed_eqb_spec in He. destruct (biased_hash_total (Point.compress (SignableTransaction.input_key x))) as [gen Hgen]. rewrite Hgen. cbn [obind].
    destruct (each (input_key_image sk) l); cbn [obind]; [|destruct IH as [-> IH]; split; [reflexivity|intros [_ H]%Forall_cons_iff; exact (IH H)]|exact IH].
    destruct IH as [IH1 IH2]. split; constructor; auto; [exists off; auto|exists off, gen; auto].
  - split; [reflexivity|]. intros [(off' & Hoff' & H) _]%Forall_cons_iff. rewrite Hoff in Hoff'. injection Hoff' as <-.
    apply ed_eqb_spec in H. congruence.
Qed.

(** What an input is signed with *)
Definition signed_with (input : OutputWithDecoys.t) (x : Scalar * ClsagContext.t) : Prop := exists offset,
  Scalar.into (E := SendError) (input_key_offset input) = Ok offset /\
  x = (Scalar.from (sc_add sk offset), ClsagContext.mk (input_commitment input) (OutputWithDecoys.decoys input)).

Lemma members_all d : decoys_ok d -> exists m, forall E, Decoys.signer_ring_members (E := E) d = Ok m.
Proof.
  intros Hd. destruct (signer_ring_members_spec (E := unit) d Hd) as (m & _ & Hm). exists m. intros E.
  destruct (signer_ring_members_spec (E := E) d Hd) as (m' & -> & Hm'). congruence.
Qed.

Lemma clsag_inputs_cases l : Forall output_with_decoys_ok l ->
  match each (clsag_input sk) l with
  | Ok xs => Forall ring_committed l /\ Forall2 signed_with l xs /\ Forall (fun x => context_commitment_ok (snd x)) xs
  | Err e => e = SendClsagError InvalidCommitment /\ ~ Forall ring_committed l
  | Panic => False
  end.
Proof.
  induction 1 as [|x l Hx _ IH]; cbn [each]; [split_and!; constructor|]. destruct (offset_all x Hx) as [off Hoff]. destruct Hx as [[_ Hc] Hd].
  destruct (members_all _ Hd) as [m Hm]. destruct (commit_total (input_commitment x) Hc) as [C HC].
  unfold clsag_input at 1. rewrite Hoff. cbn [obind].
  assert (Hnew : ClsagContext.new (OutputWithDecoys.decoys x) (input_commitment x) =
    if ed_eqb (snd m) C then Ok (ClsagContext.mk (input_commitment x) (OutputWithDecoys.decoys x)) else Err InvalidCommitment).
  { unfold ClsagContext.new. rewrite Hm. cbn [obind]. rewrite HC. cbn [obind]. unfold Point.eqb. destruct (ed_eqb _ _); reflexivity. }
  rewrite Hnew. destruct (ed_eqb (snd m) C) eqn:He; cbn [omap_err obind].
  - apply ed_eqb_spec in He. destruct (each (clsag_input sk) l); cbn [obind];
      [|destruct IH as [-> IH]; split; [reflexivity|intros [_ H]%Forall_cons_iff; exact (IH H)]|exact IH].
    destruct IH as (IH1 & IH2 & IH3). split; [constructor; [exists m; split; [apply Hm|rewrite He; apply HC]|exact IH1]|].
    split; constructor; auto; [exists off; auto|]. split; [split; [exact Hd|]|exact Hc]. exists (OutputWithDecoys.decoys x), (input_commitment x). exact Hnew.
  - split; [reflexivity|]. intros [(m' & Hm' & HC') _]%Forall_cons_iff. rewrite Hm in Hm'. injection Hm' as <-. rewrite HC in HC'. injection HC' as HC'.
    symmetry in HC'. apply ed_eqb_spec in HC'. congruence.
Qed.

(** CLSAGs are made unless a ring doesn't have the input's key. *)
Lemma key_images_loop_cases l xs : Forall output_with_decoys_ok l -> Forall owned l -> Forall2 signed_with l xs ->
  (Forall ring_keyed l /\ Forall signs xs) \/ (~ Forall ring_keyed l /\ Clsag.key_images_loop xs = Err Clsag.InvalidKey).
Proof.
  intros Hl. revert xs. induction Hl as [|x l Hx _ IH]; intros xs Ho Hs; [inversion Hs; left; split; constructor|].
  apply Forall_cons_iff in Ho as [(off & Hoff & Hkey) Ho]. apply Forall2_cons_inv_l in Hs as (y & ys & (off' & Hoff' & ->) & Hs & ->).
  rewrite Hoff in Hoff'. injection Hoff' as <-. destruct (members_all _ (proj2 Hx)) as [m Hm]. cbn [Clsag.key_images_loop].
  unfold Clsag.key_image at 1. cbn [fst snd ClsagContext.decoys]. rewrite scalar_into_from. cbn [obind]. rewrite Hm. cbn [obind].
  destruct (ed_eqb (ed_mul (sc_add sk off) ED25519_BASEPOINT_POINT) (fst m)) eqn:He; cbn [negb].
  - apply ed_eqb_spec in He. destruct (biased_hash_total (ed_compress (fst m))) as [gen Hgen].
    destruct (IH ys Ho Hs) as [[IH1 IH2]|[IH1 IH2]].
    + left. split; constructor; auto; [exists m; split; [apply Hm|congruence]|]. exists (sc_add sk off), m. auto.
    + right. split; [intros [_ H]%Forall_cons_iff; exact (IH1 H)|]. rewrite Hgen. cbn [obind]. rewrite IH2. reflexivity.
  - right. split; [|reflexivity]. intros [(m' & Hm' & H) _]%Forall_cons_iff. rewrite Hm in Hm'. injection Hm' as <-.
    rewrite <- Hkey in H. symmetry in H. apply ed_eqb_spec in H. congruence.
Qed.
End Key.

(** ** The signed transaction *)

Definition to_input (x : OutputWithDecoys.t * CompressedPoint) : Input :=
  ToKey None (Decoys.offsets (OutputWithDecoys.decoys (fst x))) (snd x).

(** The signature of an input verifies for its ring, key image and pseudo-out,
    unless the key image or [D] is the identity. *)
Definition clsag_valid (msg : bytes) (x : OutputWithDecoys.t * CompressedPoint) (y : Clsag.t * Point) : Prop := exists I,
  snd x = Point.compress I /\
  Clsag.verify (fst y) (map (fun m => (Point.compress (fst m), Point.compress (snd m))) (Decoys.ring (OutputWithDecoys.decoys (fst x))))
    (snd x) (Point.compress (snd y)) msg = honest_result I (fst y).

(** [tx] is the transaction intended, for the inputs' key images, signed. *)
Record signed (self : t) (sk : DScalar) (key_images : list CompressedPoint) (l : list (OutputWithDecoys.t * CompressedPoint))
  (base : RctBase.t) (bulletproof : Bulletproof) (res : list (Clsag.t * Point)) (tx : Transaction NotPruned) : Prop := {
  sg_key_images : Forall2 (has_key_image sk) (inputs self) key_images;
  sg_order : l ≡ₚ zip (inputs self) key_images;
  sg_inputs : TransactionPrefix.inputs (Transaction.prefix tx) = map to_input l;
  sg_unsigned : unsigned_transaction (E := SendError) self key_images =
    Ok (Some (V2 (P := NotPruned) (Transaction.prefix tx) (Some (mk_RctProofs base (ClsagProofs [] [] bulletproof)))));
  sg_signed : tx = V2 (P := NotPruned) (Transaction.prefix tx)
    (Some (mk_RctProofs base (ClsagProofs (map fst res) (map (fun x => Point.compress (snd x)) res) bulletproof)));
  sg_clsags : exists msg, Transaction.signature_hash (E := SendError) tx = Ok (Some msg) /\ Forall2 (clsag_valid msg) l res;
  sg_encodable : Forall2 (fun x y => clsag_ok (length (Decoys.ring (OutputWithDecoys.decoys (fst x)))) (fst y)) l res;
  sg_balance : exists h commitments, Commitment.H (E := SendError) = Ok h /\ RctBase.commitments base = map Point.compress commitments /\
    point_sum (map snd res) = ed_add (point_sum commitments) (ed_mul (sc_from_u64 (RctBase.fee base)) h)
}.

Lemma masks_all self key_images plus f x E : made self plus f key_images x -> exists masks,
  sum_output_masks (E := E) self key_images = Ok (Scalar.from (foldl sc_add sc_ZERO masks)) /\
  each (fun x => Scalar.into (E := unit) (Commitment.mask x)) (map fst (p_opens x)) = Ok masks.
Proof.
  intros M. destruct (each_all (fun E (y : Commitment.t * EncryptedAmount) => Scalar.into (E := E) (Commitment.mask (fst y))) (fun _ _ => True) (p_opens x))
    as (masks & Hm & _).
  { intros y Hin. pose proof (made_amounts _ _ _ _ _ M) as Ha. apply list_elem_of_In, list_elem_of_lookup in Hin as [i Hi].
    destruct (Forall2_lookup_r _ _ _ _ _ Ha Hi) as (p & _ & ([Hc _] & _)). destruct (scalar_into_all _ Hc) as (s & Hs & _). exists s. auto. }
  exists masks. split; [unfold sum_output_masks; rewrite (made_opens _ _ _ _ _ M); cbn [obind]; rewrite Hm; reflexivity|].
  specialize (Hm unit). revert masks Hm. clear. induction (p_opens x) as [|y l IH]; intros masks; cbn [map each]; [auto|].
  destruct (Scalar.into (Commitment.mask (fst y))); cbn [obind]; try discriminate.
  destruct (each (fun y : Commitment.t * EncryptedAmount => Scalar.into (Commitment.mask (fst y))) l) as [ms| |]; cbn [obind]; try discriminate.
  intros [= <-]. rewrite (IH ms eq_refl). reflexivity.
Qed.

Lemma signature_hash_all self f key_images x : exists msg, length msg = 32%nat /\
  forall E clsags pseudo_outs, Transaction.signature_hash (E := E) (unsigned self f key_images x clsags pseudo_outs) = Ok (Some msg).
Proof.
  exists (match Transaction.signature_hash (E := unit) (unsigned self f key_images x [] []) with Ok (Some msg) => msg | _ => [] end).
  split; [apply is_array_length, keccak_array|intros; reflexivity].
Qed.

(** Commitments to what the inputs have, with masks that sum to those of the
    outputs, balance. *)
Lemma made_balance self plus w f key_images x masks (pseudo_outs : EdwardsPoint) h : signable_ok self -> valid self plus w f -> made self plus f key_images x ->
  (forall E, Commitment.H (E := E) = Ok h) -> ed_is_torsion_free h = true ->
  each (fun x => Scalar.into (E := unit) (Commitment.mask x)) (map fst (p_opens x)) = Ok masks ->
  pseudo_outs = ed_add (ed_mul (foldl sc_add sc_ZERO masks) ED25519_BASEPOINT_POINT)
                  (point_sum (map (fun a => ed_mul (sc_from_u64 a) h) (amounts_in self))) ->
  pseudo_outs = ed_add (point_sum (p_commitments x)) (ed_mul (sc_from_u64 (fee_paid self f)) h).
Proof.
  intros Hself V M Hh Hhf Hm ->. pose proof (amounts_balance self plus w f V) as Hbal. pose proof (fee_enough self Hself plus w f V) as Hen.
  pose proof (funds self Hself plus w f V) as Hfu. pose proof (made_amounts _ _ _ _ _ M) as Ha.
  rewrite (commitments_sum h _ _ masks Hh (made_commitments _ _ _ _ _ M unit) Hm), <- ed_add_assoc. f_equal.
  assert (Hop : map Commitment.amount (map fst (p_opens x)) = map (amount_sent self f) (payments self)).
  { clear -Ha. induction Ha as [|p o l l' (_ & H & _) _ IH]; [reflexivity|]. cbn. rewrite H. f_equal. exact IH. }
  assert (HopU : Forall (U 64) (map (amount_sent self f) (payments self))).
  { apply Forall_map, list.Forall_forall. intros p Hp. exact (amount_sent_U self Hself plus w f V p Hp). }
  rewrite Hop, !amounts_sum; auto.
  - fold (total_in self). rewrite <- Hbal. rewrite u64_add, ed_mul_add_l by (assumption || unfold U; pose proof (sum_list_nonneg _ HopU); lia). reflexivity.
  - pose proof (sum_list_nonneg _ HopU). lia.
  - apply (amounts_in_ok _ (ok_inputs _ Hself)).
  - fold (total_in self). lia.
Qed.

(** The pseudo-outs and the commitments to the outputs balance. *)
Lemma signed_balance self sk plus w f key_images x xs (res : list (Clsag.t * Point)) h : signable_ok self -> valid self plus w f -> made self plus f key_images x ->
  (forall E, Commitment.H (E := E) = Ok h) -> ed_is_torsion_free h = true -> Forall2 (signed_with sk) (inputs self) xs ->
  (exists masks, each (fun x => Scalar.into (E := unit) (Commitment.mask x)) (map fst (p_opens x)) = Ok masks /\
     point_sum (map snd res) = ed_add (ed_mul (foldl sc_add sc_ZERO masks) ED25519_BASEPOINT_POINT) (amounts_H h xs)) ->
  point_sum (map snd res) = ed_add (point_sum (p_commitments x)) (ed_mul (sc_from_u64 (fee_paid self f)) h).
Proof.
  intros Hself V M Hh Hhf Hx (masks & Hm & Hs). apply (made_balance self plus w f key_images x masks _ h Hself V M Hh Hhf Hm).
  rewrite Hs. f_equal. unfold amounts_H, amounts_in. f_equal. clear -Hx.
  induction Hx as [|i y l xs (off & _ & ->) _ IH]; [reflexivity|]. cbn. f_equal. exact IH.
Qed.

Lemma members_any {E F} d m : Decoys.signer_ring_members (E := E) d = Ok m -> Decoys.signer_ring_members (E := F) d = Ok m.
Proof. unfold Decoys.signer_ring_members. destruct (Decoys.ring d !! 0%nat); [|discriminate]. intros [= <-]. reflexivity. Qed.

Lemma biased_any {E F} data p : Point.biased_hash (E := E) data = Ok p -> Point.biased_hash (E := F) data = Ok p.
Proof. destruct (biased_hash_total data) as [q Hq]. rewrite !Hq. intros [= ->]. reflexivity. Qed.

(** Each signature is for its input and key image. *)
Lemma clsags_valid sk l xs (res : list (Clsag.t * Point)) msg : Forall (fun x => has_key_image sk (fst x) (snd x)) l ->
  Forall ring_keyed (map fst l) -> Forall2 (signed_with sk) (map fst l) xs ->
  Forall2 (fun x y => exists gen I, Clsag.key_image x = Ok (gen, I) /\
    Clsag.verify (fst y) (compressed_ring (snd x)) (Point.compress I) (Point.compress (snd y)) msg = honest_result I (fst y)) xs res ->
  Forall2 (clsag_valid msg) l res.
Proof.
  intros Hk. revert xs res. induction Hk as [|[i k] l (off & gen & Hoff & Hgen & HI) _ IH]; intros xs res Hr Hx Hs; cbn [map fst snd] in *.
  - inversion Hx; subst. inversion Hs; subst. constructor.
  - apply Forall_cons_iff in Hr as [(m & Hm & Hmk) Hr]. apply Forall2_cons_inv_l in Hx as (y & ys & (off' & Hoff' & ->) & Hx & ->).
    apply Forall2_cons_inv_l in Hs as (z & zs & (gen' & I & Hki & Hv) & Hs & ->). rewrite Hoff in Hoff'. injection Hoff' as <-.
    constructor; [|exact (IH ys zs Hr Hx Hs)]. exists I. cbn [fst snd].
    unfold Clsag.key_image in Hki. cbn [fst snd ClsagContext.decoys] in Hki. rewrite scalar_into_from in Hki. cbn [obind] in Hki.
    rewrite (members_any _ _ Hm) in Hki. cbn [obind] in Hki. destruct (ed_eqb _ _); cbn [negb] in Hki; [|discriminate].
    rewrite Hmk, (biased_any _ _ Hgen : Point.biased_hash (ed_compress (input_key i)) = _) in Hki. injection Hki as _ <-.
    split; [exact HI|]. rewrite HI. exact Hv.
Qed.

Lemma zip_key_images sk l key_images : Forall2 (has_key_image sk) l key_images -> Forall (fun x => has_key_image sk (fst x) (snd x)) (zip l key_images).
Proof. induction 1; cbn; constructor; auto. Qed.

Lemma encodable sk l xs res : Forall2 (signed_with sk) l xs -> Forall2 signed_ok xs res ->
  Forall2 (fun x y => clsag_ok (length (Decoys.ring (OutputWithDecoys.decoys x))) (fst y)) l res.
Proof.
  intros Hx. revert res. induction Hx as [|x y l xs (off & _ & ->) _ IH]; intros res Hr; [inversion Hr; constructor|].
  apply Forall2_cons_inv_l in Hr as (r & rs & H & Hr & ->). constructor; [exact H|exact (IH rs Hr)].
Qed.

(** It's the transaction made, with signatures. *)
Definition signs_made (self : t) (plus : bool) (f : Z) (key_images : list CompressedPoint) (tx : Transaction NotPruned) : Prop :=
  let made_for := with_key_images self key_images in
  let self' := SignableTransactionWithKeyImages.intent made_for in
  let key_images' := SignableTransactionWithKeyImages.key_images made_for in
  exists x res, made self' plus f key_images' x /\
    tx = unsigned self' f key_images' x (map fst res) (map (fun x : Clsag.t * Point => Point.compress (snd x)) res) /\
    Forall2 (fun x y => clsag_ok (length (Decoys.ring (OutputWithDecoys.decoys x))) (fst y)) (inputs self') res.

(** Signing, on every outcome *)
Lemma sign_cases self rng key sk plus w f : signable_ok self -> valid self plus w f -> (forall E, Scalar.into (E := E) key = Ok sk) ->
  match sign self rng key with
  | Ok tx => Forall (owned sk) (inputs self) /\ exists key_images l base bulletproof res, signed self sk key_images l base bulletproof res tx /\
      signs_made self plus f key_images tx
  | Err WrongPrivateKey => ~ Forall (owned sk) (inputs self)
  | Err (SendClsagError InvalidCommitment) => Forall (owned sk) (inputs self) /\ ~ Forall ring_committed (inputs self)
  | Err (SendClsagError Clsag.InvalidKey) => Forall (owned sk) (inputs self) /\ ~ Forall ring_keyed (inputs self)
  | _ => False
  end.
Proof.
  intros Hself V Hkey. unfold sign. rewrite Hkey. cbn [obind]. pose proof (key_images_cases sk _ (ok_inputs _ Hself)) as Hki.
  destruct (each (input_key_image sk) (inputs self)) as [key_images|e|]; cbn [obind]; [|destruct Hki as [-> Hki]; exact Hki|exact Hki].
  destruct Hki as [Hown Hki]. assert (Hl : length key_images = length (inputs self)) by (symmetry; exact (list.Forall2_length _ _ _ Hki)).
  destruct (unsigned_all self Hself plus w f V key_images Hl) as (Hs & Hp & Hok & V' & x & M & Hx & Htx). cbv zeta.
  destruct (with_key_images_spec self key_images Hl) as (_ & _ & Hkl & Hpair & Hsort). unfold paired in Hpair.
  set (self' := SignableTransactionWithKeyImages.intent (with_key_images self key_images)) in *.
  set (key_images' := SignableTransactionWithKeyImages.key_images (with_key_images self key_images)) in *.
  assert (Hfst : map fst (zip (inputs self') key_images') = inputs self') by (apply (fst_zip (inputs self') key_images'); lia).
  assert (HF : forall P, Forall P (inputs self) <-> Forall P (inputs self')).
  { intros P. pose proof (same_inputs _ _ Hs) as Hin. split; intros H; [rewrite <- Hin|rewrite Hin]; exact H. }
  apply HF in Hown.
  pose proof (clsag_inputs_cases sk _ (ok_inputs _ Hok)) as Hci.
  destruct (each (clsag_input sk) (inputs self')) as [xs|e|]; cbn [obind]; [|destruct Hci as [-> Hci]; rewrite !HF; auto|exact Hci].
  destruct Hci as (_ & Hxs & Hctx). destruct (masks_all self' key_images' plus f x SendError M) as (masks & -> & Hmasks). cbn [obind].
  rewrite Hx. cbn [obind]. destruct (signature_hash_all self' f key_images' x) as (msg & Hmsg & Hsig). rewrite Hsig. cbn [obind expect].
  destruct (key_images_loop_cases sk _ xs (ok_inputs _ Hok) Hown Hxs) as [[Hrk Hsigns]|[Hrk Hloop]].
  2:{ unfold Clsag.sign. rewrite Hloop. cbn [omap_err obind]. rewrite !HF. split; assumption. }
  assert (Hsok : Forall signer_ok xs) by (apply Forall_and; split; assumption).
  destruct (sign_total rng xs (foldl sc_add sc_ZERO masks) msg Hsok) as (res & g' & Hsign & Hsg). rewrite Hsign. cbn [omap_err obind].
  split; [apply HF, Hown|].
  assert (Hcx : Forall (fun x => context_ok (snd x)) xs) by (eapply list.Forall_impl; [exact Hctx|]; intros y [H _]; exact H).
  destruct (sign_spec _ _ _ _ _ _ Hmsg Hcx Hsign) as [Hver Hsum].
  exists key_images, (zip (inputs self') key_images'), (RctBase.mk (fee_paid self' f) [] (map snd (p_opens x)) (map Point.compress (p_commitments x))), (p_bulletproof x), res.
  pose proof (encodable sk _ _ _ Hxs Hsg) as Henc.
  split; [|exists x, res; split; [exact M|split; [reflexivity|exact Henc]]].
  split.
  - exact Hki.
  - exact Hpair.
  - apply prefix_inputs_map.
  - apply Htx.
  - reflexivity.
  - exists msg. split; [apply Hsig|]. rewrite <- Hfst in Hrk, Hxs.
    apply (clsags_valid sk _ xs); auto. rewrite Hpair. apply zip_key_images, Hki.
  - rewrite <- Hfst in Henc. apply (Forall2_fmap_l fst) in Henc. exact Henc.
  - destruct H_all as (h & _ & Hh & Hhf). exists h, (p_commitments x). split; [apply Hh|]. split; [reflexivity|].
    apply (signed_balance self' sk plus w f key_images' x xs res h Hok V' M Hh Hhf Hxs). exists masks. split; [exact Hmasks|].
    destruct Hsum as (so & h' & Hso & Hh' & Hsum).
    { intros ->. apply (v_some _ _ _ _ V'). destruct (inputs self'); [reflexivity|inversion Hxs]. }
    rewrite scalar_into_from in Hso. injection Hso as <-. rewrite Hh in Hh'. injection Hh' as <-. exact Hsum.
Qed.
End Sign.
