(* ===== verification/SendEventuality.v ===== *)
(** Eventualities ([wallet/src/send/eventuality.rs]): what's derived of a
    [SignableTransaction] doesn't depend on the order of its inputs, and the
    [Eventuality] matches the transaction made. *)

From Stdlib Require Import ZArith Lia Sorted.
From stdpp Require Import base list strings numbers sorting.
From S2P Require Import Prelude Dalek MoneroIo Ed25519 Clsag Bulletproofs BpTheorems RingCT Transaction Interface.
From S2P Require Import Address Extra WalletOutput ViewPair DecoySelection Send SendKeys SendWeight SendNew SendTx SendSign.

Import SignableTransaction.

Section Same.
Context {D : Dalek} {DL : DalekLaws D} {K : Keccak} {KL : KeccakLaws K} {R : Rand} {PR : Primitives} {ST : Setup}.

Lemma seeded_rng_perm {E} dst ovk l l' : l ≡ₚ l' -> NoDup (map (fun x => Point.compress (fst x)) l) ->
  seeded_rng_of (E := E) dst ovk l = seeded_rng_of dst ovk l'.
Proof.
  intros Hp Hn. unfold seeded_rng_of. cbv zeta.
  rewrite (sort_by_key_image fst (map (fun x => (Point.compress (fst x), Point.compress (snd x))) l)
             (map (fun x => (Point.compress (fst x), Point.compress (snd x))) l')); [reflexivity| |].
  - rewrite Hp. reflexivity.
  - rewrite map_map. exact Hn.
Qed.

Section Order.
Context (a b : t) (Hs : same_intent a b) (Hp : payments a = payments b) (Ha : signable_ok a)
  (Hn : NoDup (map (fun input => Point.compress (input_key input)) (inputs a))).

Lemma input_keys_same : exists ikc ikc', (forall E, input_keys_and_commitments (E := E) a = Ok ikc) /\
  (forall E, input_keys_and_commitments (E := E) b = Ok ikc') /\
  forall E dst, seeded_rng_of (E := E) dst (outgoing_view_key a) ikc = seeded_rng_of dst (outgoing_view_key b) ikc'.
Proof.
  pose proof Hs as [_ Hv Hi _ _ _]. destruct (input_keys_all _ (ok_inputs _ Ha)) as (ikc & Hk & Hf).
  destruct (input_keys_all _ (ok_inputs _ (same_intent_ok _ _ Hs Ha))) as (ikc' & Hk' & _). exists ikc, ikc'.
  split; [exact Hk|]. split; [exact Hk'|]. intros E dst. rewrite Hv. apply seeded_rng_perm.
  - destruct (each_perm _ _ _ _ Hi (Hk unit)) as (ikc2 & Hk2 & Hperm). rewrite Hk' in Hk2. injection Hk2 as ->. exact Hperm.
  - clear -Hf Hn. assert (He : map (fun x : Point * Point => Point.compress (fst x)) ikc = map (fun input => Point.compress (input_key input)) (inputs a)).
    { induction Hf as [|i x l l' Hx _ IH]; [reflexivity|]. cbn [map] in *. apply NoDup_cons in Hn as [_ Hn]. rewrite Hx, (IH Hn). reflexivity. }
    rewrite He. exact Hn.
Qed.

Lemma keys_same E : transaction_keys (E := E) a = transaction_keys b.
Proof.
  destruct input_keys_same as (ikc & ikc' & Hk & Hk' & Hseed). unfold transaction_keys, transaction_keys_new. rewrite Hk, Hk'. cbn [obind].
  rewrite Hseed, (proj1 (should_same a b Hs)), Hp. reflexivity.
Qed.

Lemma keys_pub_same E : transaction_keys_pub (E := E) a = transaction_keys_pub b.
Proof. unfold transaction_keys_pub. destruct (should_same a b Hs) as [Hsh Hsub]. rewrite keys_same, Hsh, Hsub, Hp. reflexivity. Qed.

Lemma ecdhs_same E : ecdhs (E := E) a = ecdhs b.
Proof. unfold ecdhs. rewrite keys_same, keys_pub_same, Hp. reflexivity. Qed.

Lemma extra_same E : extra (E := E) a = extra b.
Proof. unfold extra, payment_id_xors. rewrite keys_pub_same, ecdhs_same, Hp, (same_data _ _ Hs). reflexivity. Qed.

Lemma uniqueness_same key_images : length key_images = length (inputs a) ->
  SharedKeyDerivations.uniqueness (prefix_inputs a key_images) = SharedKeyDerivations.uniqueness (prefix_inputs b key_images).
Proof.
  intros Hl. assert (Hl' : length key_images = length (inputs b)) by (rewrite <- (same_inputs _ _ Hs); exact Hl).
  unfold SharedKeyDerivations.uniqueness. do 2 f_equal.
  assert (H : forall l, length key_images = length l -> write_raw_vec SharedKeyDerivations.uniqueness_input
    (zip_with (fun input key_image => ToKey None (Decoys.offsets (OutputWithDecoys.decoys input)) key_image) l key_images) = concat key_images).
  { clear. induction key_images as [|k ks IH]; intros [|i l] Hl; try discriminate; [reflexivity|]. cbn. f_equal. apply IH. cbn in Hl. lia. }
  unfold prefix_inputs. rewrite !H by assumption. reflexivity.
Qed.

Lemma derivations_same key_images E : length key_images = length (inputs a) ->
  shared_key_derivations (E := E) a key_images = shared_key_derivations b key_images.
Proof. intros Hl. unfold shared_key_derivations. rewrite ecdhs_same, Hp, uniqueness_same by exact Hl. reflexivity. Qed.

Lemma outputs_same key_images E : length key_images = length (inputs a) -> outputs (E := E) a key_images = outputs b key_images.
Proof. intros Hl. unfold outputs. rewrite derivations_same, Hp, (same_type _ _ Hs) by exact Hl. reflexivity. Qed.

Lemma commitments_same key_images E plus w f : valid a plus w f -> length key_images = length (inputs a) ->
  commitments_and_encrypted_amounts (E := E) a key_images = commitments_and_encrypted_amounts b key_images.
Proof.
  intros V Hl. unfold commitments_and_encrypted_amounts. rewrite derivations_same, Hp by exact Hl.
  destruct (shared_key_derivations b key_images); [|reflexivity..]. cbn [obind].
  assert (He : forall x, commitment_and_encrypted_amount (E := E) a x = commitment_and_encrypted_amount b x).
  { intros [p d]. unfold commitment_and_encrypted_amount.
    rewrite (change_amount_all a Ha plus w f V), (change_amount_all b (same_intent_ok _ _ Hs Ha) plus w f (valid_same _ _ _ _ _ Hs Ha V)).
    destruct (same_amounts a f b Hs (eq_sym Hp)) as (-> & -> & _). reflexivity. }
  generalize (zip (payments b) a0) as l. induction l as [|x l IH]; [reflexivity|]. cbn [each]. rewrite He, IH. reflexivity.
Qed.
End Order.

(** ** Matching *)

Lemma prefix_key_images self key_images : length key_images = length (inputs self) ->
  mapM Eventuality.input_key_image (prefix_inputs self key_images) = Some key_images.
Proof.
  unfold prefix_inputs. revert key_images. induction (inputs self) as [|i l IH]; intros [|k ks] Hl; try discriminate; [reflexivity|].
  cbn [zip_with mapM Eventuality.input_key_image]. cbn. cbn in IH. rewrite IH by (cbn in Hl; lia). reflexivity.
Qed.

(** The eventuality matches the transaction, whatever its signatures. *)
Lemma matches_made self self' plus w f key_images x clsags pseudo_outs :
  same_intent self self' -> payments self' = payments self -> signable_ok self -> valid self plus w f ->
  length key_images = length (inputs self) -> made self' plus f key_images x ->
  forall E, Eventuality.matches (E := E) (Eventuality.from self) (Transaction.into_pruned (unsigned self' f key_images x clsags pseudo_outs)) = Ok true.
Proof.
  intros Hs Hp Hself V Hl M E. pose proof (v_distinct _ _ _ _ V) as Hn. symmetry in Hp.
  assert (Hl' : length key_images = length (inputs self')) by (rewrite <- (same_inputs _ _ Hs); exact Hl).
  unfold Eventuality.matches, Eventuality.from, unsigned, Transaction.into_pruned. cbv zeta. cbn -[prefix_inputs].
  rewrite (extra_same self self' Hs Hp Hself Hn), (made_extra _ _ _ _ _ M). cbn [obind].
  rewrite (proj2 (bytes_eqb_spec _ _) eq_refl). cbn [negb]. rewrite bool_decide_eq_true_2 by reflexivity. cbn [negb].
  assert (length (prefix_inputs self' key_images) = length (inputs self)) as ->.
  { unfold prefix_inputs. rewrite length_zip_with. lia. }
  rewrite Nat.eqb_refl. cbn [negb]. rewrite prefix_key_images by exact Hl'.
  rewrite (outputs_same self self' Hs Hp Hself Hn) by exact Hl. rewrite (made_outputs _ _ _ _ _ M). cbn [obind].
  rewrite bool_decide_eq_true_2 by reflexivity. cbn [negb].
  rewrite (commitments_same self self' Hs Hp Hself Hn _ _ _ _ _ V) by exact Hl. rewrite (made_opens _ _ _ _ _ M). cbn [obind].
  rewrite (each_compress _ _ (made_commitments _ _ _ _ _ M E)). cbn [obind].
  rewrite !bool_decide_eq_true_2 by reflexivity. reflexivity.
Qed.

(** *** Verdicts *)

Lemma inputs_uniqueness l key_images : mapM Eventuality.input_key_image l = Some key_images ->
  SharedKeyDerivations.uniqueness l = keccak256 (SharedKeyDerivations.UNIQUENESS ++ concat key_images).
Proof.
  intros Hm. unfold SharedKeyDerivations.uniqueness. do 2 f_equal. apply mapM_Some_1 in Hm.
  induction Hm as [|i k l ks Hi _ IH]; [reflexivity|]. destruct i; [discriminate|]. injection Hi as <-. cbn. f_equal. exact IH.
Qed.

(** What matches carries what's made. *)
Lemma matches_cases self plus w f tx : signable_ok self -> valid self plus w f -> exists b,
  (forall E, Eventuality.matches (E := E) (Eventuality.from self) tx = Ok b) /\
  (b = true -> TransactionPrefix.additional_timelock (Transaction.prefix tx) = Timelock.None /\
    exists key_images x, mapM Eventuality.input_key_image (TransactionPrefix.inputs (Transaction.prefix tx)) = Some key_images /\
      length key_images = length (inputs self) /\ made self plus f key_images x /\
      exists prefix proofs, tx = V2 (P := Pruned) prefix (Some proofs) /\
        TransactionPrefix.outputs prefix = p_outputs x /\ TransactionPrefix.extra prefix = p_extra x /\
        RctBase.commitments (pruned_base proofs) = map Point.compress (p_commitments x) /\
        RctBase.encrypted_amounts (pruned_base proofs) = map snd (p_opens x)).
Proof.
  intros Hself V. unfold Eventuality.matches, Eventuality.from. cbv zeta.
  destruct (transaction_all self Hself plus w f V []) as (x0 & M0 & _).
  assert (Hstep : forall (b : bool) (k : forall E, outcome E bool) P, (b = true -> exists r, (forall E, k E = Ok r) /\ (r = true -> P)) ->
    exists r, (forall E, (if negb b then Ok false else k E) = Ok r) /\ (r = true -> P)).
  { intros [] k P H; [exact (H eq_refl)|exists false; split; [reflexivity|discriminate]]. }
  setoid_rewrite (made_extra _ _ _ _ _ M0). cbn [obind]. apply Hstep. intros Hx. apply bytes_eqb_spec in Hx.
  apply Hstep. intros Ht. apply bool_decide_eq_true in Ht. apply Hstep. intros Hl. apply Nat.eqb_eq in Hl.
  destruct (mapM Eventuality.input_key_image _) as [key_images|] eqn:Hki; [|exists false; split; [reflexivity|discriminate]].
  destruct (transaction_all self Hself plus w f V key_images) as (x & M & _).
  setoid_rewrite (made_outputs _ _ _ _ _ M). cbn [obind]. apply Hstep. intros Ho. apply bool_decide_eq_true in Ho.
  setoid_rewrite (made_opens _ _ _ _ _ M). cbn [obind]. destruct tx as [|prefix [proofs|]]; try (exists false; split; [reflexivity|discriminate]).
  assert (Hcs : forall E, each (fun y : Commitment.t * EncryptedAmount => let? c := Commitment.commit (E := E) (fst y) in Ok (Point.compress c)) (p_opens x)
    = Ok (map Point.compress (p_commitments x))) by (intros E; apply each_compress, (made_commitments _ _ _ _ _ M)).
  setoid_rewrite Hcs. cbn [obind]. apply Hstep. intros Hc. apply bool_decide_eq_true in Hc.
  apply Hstep. intros Ha. apply bool_decide_eq_true in Ha. exists true. split; [reflexivity|]. intros _. split; [exact Ht|].
  exists key_images, x. split; [reflexivity|]. split; [|split; [exact M|]].
  - apply mapM_Some_1, list.Forall2_length in Hki. lia.
  - exists prefix, proofs. split; [reflexivity|]. split; [symmetry; exact Ho|]. split; [|split; assumption].
    pose proof (made_extra _ _ _ _ _ M unit) as H. rewrite (made_extra _ _ _ _ _ M0) in H. injection H as <-. symmetry. exact Hx.
Qed.
End Same.
