(* ===== verification/SendScan.v ===== *)
(** What's sent is received: the scanner of a payment's recipient finds its
    output in the transaction made ([wallet/src/send/], [wallet/src/scan.rs]). *)

From Stdlib Require Import ZArith Lia Sorted.
From stdpp Require Import base list strings numbers sorting gmap.
From S2P Require Import Prelude Dalek MoneroIo Ed25519 Clsag Bulletproofs BpTheorems RingCT Transaction Interface.
From S2P Require Import Address Extra WalletOutput ViewPair Scan DecoySelection Send SendKeys SendWeight SendNew SendTx SendSign.

Import SignableTransaction.

Section Received.
Context {D : Dalek} {DL : DalekLaws D} {K : Keccak} {KL : KeccakLaws K} {R : Rand} {PR : Primitives} {ST : Setup}.
Context (scanner : InternalScanner.t) (Hview : scalar_ok (ViewPair.view_key (InternalScanner.pair scanner)))
  (Hfree : ed_is_torsion_free (ViewPair.spend (InternalScanner.pair scanner)) = true).

(** ** Recipients *)

(** The scanner has the spend key of its subaddress, or of its pair. *)
Definition registered (sub : option SubaddressIndex.t) : Prop :=
  match sub with
  | None => InternalScanner.subaddresses scanner !! Point.compress (ViewPair.spend (InternalScanner.pair scanner)) = Some None
  | Some index => exists P view, ViewPair.subaddress_keys (E := ScanError) (InternalScanner.pair scanner) index = Ok (P, view) /\
      InternalScanner.subaddresses scanner !! Point.compress P = Some (Some index)
  end.

(** An address of the scanner's pair *)
Definition address_of (sub : option SubaddressIndex.t) (a : Address.t) : Prop := exists network payment_id,
  if InternalScanner.guaranteed scanner
  then GuaranteedViewPair.address (E := ScanError) (GuaranteedViewPair.mk (InternalScanner.pair scanner)) network sub payment_id = Ok a
  else match sub, payment_id with
       | None, None => ViewPair.legacy_address (E := ScanError) (InternalScanner.pair scanner) network = Ok a
       | None, Some id => ViewPair.legacy_integrated_address (E := ScanError) (InternalScanner.pair scanner) network id = Ok a
       | Some index, None => ViewPair.subaddress (E := ScanError) (InternalScanner.pair scanner) network index = Ok a
       | Some _, Some _ => False
       end.

(** The payment, or the change, is to the scanner. *)
Definition receives (sub : option SubaddressIndex.t) (p : InternalPayment) : Prop :=
  registered sub /\
  match p with
  | Payment a _ | ChangePayment (AddressOnly a) => address_of sub a
  | ChangePayment (Standard view_pair subaddress) =>
      view_pair = InternalScanner.pair scanner /\ subaddress = sub /\ InternalScanner.guaranteed scanner = false
  | ChangePayment (Guaranteed view_pair subaddress) =>
      GuaranteedViewPair.pair view_pair = InternalScanner.pair scanner /\ subaddress = sub /\ InternalScanner.guaranteed scanner = true
  end.

(** What's known of an address of the pair, [v] being the view key *)
Record address_keys (sub : option SubaddressIndex.t) (v : DScalar) (a : Address.t) : Prop := {
  ak_table : InternalScanner.subaddresses scanner !! Point.compress (Address.spend a) = Some sub;
  ak_view : Address.view a = ed_mul v (if AddressType.is_subaddress (Address.kind a) then Address.spend a else ED25519_BASEPOINT_POINT);
  ak_guaranteed : AddressType.is_guaranteed (Address.kind a) = InternalScanner.guaranteed scanner;
  ak_free : ed_is_torsion_free (Address.spend a) = true
}.

Lemma address_of_keys sub a v : registered sub -> (forall E, Scalar.into (E := E) (ViewPair.view_key (InternalScanner.pair scanner)) = Ok v) ->
  address_of sub a -> address_keys sub v a.
Proof.
  intros Hreg Hv (network & id & Ha).
  assert (Hk : exists P, Address.spend a = P /\ ed_is_torsion_free P = true /\ InternalScanner.subaddresses scanner !! Point.compress P = Some sub /\
    Address.view a = ed_mul v (if AddressType.is_subaddress (Address.kind a) then Address.spend a else ED25519_BASEPOINT_POINT) /\
    AddressType.is_guaranteed (Address.kind a) = InternalScanner.guaranteed scanner).
  { destruct sub as [index|]; cbn [registered] in Hreg.
    - destruct Hreg as (P & view & Hkeys & Hl). destruct (subaddress_keys_total (InternalScanner.pair scanner) index Hview) as (v' & m & Hv' & Hk).
      pose proof (Hv unit) as Hvu. rewrite Hv' in Hvu. injection Hvu as ->. cbv zeta in Hk. rewrite Hk in Hkeys. injection Hkeys as <- <-.
      destruct (InternalScanner.guaranteed scanner); [unfold GuaranteedViewPair.address in Ha|destruct id; [contradiction|]; unfold ViewPair.subaddress in Ha];
        cbn [GuaranteedViewPair.pair] in Ha; rewrite Hk in Ha; cbn [obind] in Ha; injection Ha as <-; eexists; (split; [reflexivity|]);
        (split; [apply ed_add_free; [exact Hfree|apply ed_mul_free, ed_basepoint_free]|]); auto.
    - destruct (view_total (InternalScanner.pair scanner) Hview) as (v' & Hv' & Hk). pose proof (Hv unit) as Hvu. rewrite Hv' in Hvu. injection Hvu as ->.
      destruct (InternalScanner.guaranteed scanner); [unfold GuaranteedViewPair.address in Ha|
        destruct id; [unfold ViewPair.legacy_integrated_address in Ha|unfold ViewPair.legacy_address in Ha]];
        cbn [GuaranteedViewPair.pair] in Ha; rewrite Hk in Ha; cbn [obind] in Ha; injection Ha as <-; eexists; (split; [reflexivity|]); auto. }
  destruct Hk as (P & <- & H1 & H2 & H3 & H4). split; assumption.
Qed.

(** The address of a payment received is the pair's. *)
Lemma receives_address sub p : receives sub p -> exists a, (forall E, InternalPayment.address (E := E) p = Ok a) /\ address_of sub a /\
  match p with
  | Payment a' _ | ChangePayment (AddressOnly a') => a = a'
  | _ => True
  end.
Proof.
  intros [Hreg Hp]. destruct p as [a amount|[a|vp s|gvp s]]; [exists a; auto|exists a; auto|..].
  - destruct Hp as (-> & -> & Hg). unfold InternalPayment.address, ChangeEnum.address, address_of. rewrite Hg. destruct sub as [index|].
    + destruct (subaddress_keys_total (InternalScanner.pair scanner) index Hview) as (v & m & _ & Hk). unfold ViewPair.subaddress. cbv zeta in Hk.
      eexists. split; [intros E; rewrite Hk; reflexivity|]. split; [|exact I]. exists Mainnet, None. rewrite Hk. reflexivity.
    + destruct (view_total (InternalScanner.pair scanner) Hview) as (v & _ & Hk). unfold ViewPair.legacy_address.
      eexists. split; [intros E; rewrite Hk; reflexivity|]. split; [|exact I]. exists Mainnet, None. rewrite Hk. reflexivity.
  - destruct Hp as (Hgp & -> & Hg). destruct gvp as [vp]. cbn in Hgp. subst vp.
    unfold InternalPayment.address, ChangeEnum.address, address_of. rewrite Hg. unfold GuaranteedViewPair.address. cbn [GuaranteedViewPair.pair]. destruct sub as [index|].
    + destruct (subaddress_keys_total (InternalScanner.pair scanner) index Hview) as (v & m & _ & Hk). cbv zeta in Hk.
      eexists. split; [intros E; rewrite Hk; reflexivity|]. split; [|exact I]. exists Mainnet, None. rewrite Hk. reflexivity.
    + destruct (view_total (InternalScanner.pair scanner) Hview) as (v & _ & Hk).
      eexists. split; [intros E; rewrite Hk; reflexivity|]. split; [|exact I]. exists Mainnet, None. rewrite Hk. reflexivity.
Qed.

(** ** Keys *)

Section Self.
Context (self : t) (Hself : signable_ok self) (plus : bool) (w f : Z) (V : valid self plus w f).

(** With two outputs of which one is change that's viewed, there are no
    additional keys, and the transaction's key is for the only payment. *)
Lemma special_key : has_payments_to_subaddresses self && negb (should_use_additional_keys self) = true ->
  exists a amount c, List.find InternalPayment.is_payment (payments self) = Some (Payment a amount) /\
    AddressType.is_subaddress (Address.kind a) = true /\
    match c with AddressOnly _ => False | _ => True end /\
    forall p, p ∈ payments self -> p = Payment a amount \/ p = ChangePayment c.
Proof.
  intros H. apply andb_prop in H as [Hsub Huse]. unfold should_use_additional_keys in Huse. rewrite Hsub in Huse. cbn [negb andb] in Huse.
  rewrite negb_involutive in Huse. apply andb_prop in Huse as [Hl Hc]. apply Nat.eqb_eq in Hl.
  pose proof (v_payment _ _ _ _ V) as Hpay. pose proof (v_change _ _ _ _ V) as Hch. unfold has_payments_to_subaddresses in Hsub. unfold has_change_view in Hc.
  destruct (payments self) as [|p [|q [|? ?]]]; try discriminate. cbn in *.
  destruct p as [a m|[a'|vp s|gvp s]], q as [a2 m2|[a2|vp2 s2|gvp2 s2]]; cbn in *; try discriminate; try lia; rewrite ?orb_false_r in Hsub;
    (eexists _, _, _; split; [reflexivity|]; split; [exact Hsub|]; split; [|intros p Hp; apply elem_of_cons in Hp as [->|Hp];
      [|apply list_elem_of_singleton in Hp as ->]; ((left; reflexivity) || (right; reflexivity))]; exact I).
Qed.

Lemma mul_swap s t p : ed_is_torsion_free p = true -> ed_mul s (ed_mul t p) = ed_mul t (ed_mul s p).
Proof. intros Hp. rewrite !ed_mul_mul, sc_mul_comm by exact Hp. reflexivity. Qed.

(** The ECDH of a payment received is the view key's with the transaction's key,
    or with the payment's additional key. *)
Lemma ecdh_received x xs pub adds i p e a sub v : pub_of self x xs pub adds -> length xs = additional_length self -> length adds = additional_length self ->
  payments self !! i = Some p -> ecdh_of x xs pub i p e -> receives sub p ->
  (forall E, InternalPayment.address (E := E) p = Ok a) -> address_keys sub v a ->
  (forall E, Scalar.into (E := E) (ViewPair.view_key (InternalScanner.pair scanner)) = Ok v) ->
  e = ed_mul v pub \/
  (should_use_additional_keys self = true /\ AddressType.is_subaddress (Address.kind a) = true /\
   exists key, adds !! i = Some (Point.compress key) /\ e = ed_mul v key).
Proof.
  intros Hpub Hxl Hal Hi He [Hreg Hrec] Ha [Htab Hva Hg Hfr] Hv.
  assert (Hdest : match p with Payment a' _ | ChangePayment (AddressOnly a') => a = a' | _ => e = ed_mul v pub end).
  { destruct p as [a' m|[a'|vp s|gvp s]]; try (specialize (Ha unit); injection Ha as ->; reflexivity).
    - destruct Hrec as (-> & _). destruct He as (v' & Hv' & ->). pose proof (Hv unit) as H. rewrite Hv' in H. injection H as ->. reflexivity.
    - destruct Hrec as (Hgp & _). destruct He as (v' & Hv' & ->). pose proof (Hv unit) as H. rewrite Hgp in Hv'. rewrite Hv' in H. injection H as ->. reflexivity. }
  assert (Hcase : e = ed_mul v pub \/
    (((exists m, p = Payment a m) \/ p = ChangePayment (AddressOnly a)) /\
     e = ed_mul (if AddressType.is_subaddress (Address.kind a) then default x (xs !! i) else x) (Address.view a))).
  { destruct p as [a' m|[a'|vp s|gvp s]]; [subst a'; right; split; [left; eauto|exact He]|subst a'; right; split; [right; reflexivity|exact He]|left; exact Hdest..]. }
  destruct Hcase as [H|[Hdirect Hecdh]]; [left; exact H|]. clear Hdest He.
  unfold pub_of in Hpub. destruct (has_payments_to_subaddresses self && negb (should_use_additional_keys self)) eqn:Hspecial.
  - destruct (special_key Hspecial) as (a1 & m1 & c & Hf & Hsub & Hc & Hall). destruct Hpub as (a2 & m2 & Hf2 & -> & ->). rewrite Hf in Hf2. injection Hf2 as <- <-.
    apply andb_prop in Hspecial as [_ Huse]. unfold additional_length in Hxl. destruct (should_use_additional_keys self); [discriminate|].
    destruct xs as [|]; [|discriminate]. pose proof (list_elem_of_lookup_2 _ _ _ Hi) as Hin. destruct (Hall p Hin) as [->| ->].
    + specialize (Ha unit). injection Ha as <-. rewrite Hsub in Hecdh, Hva. cbn in Hecdh. left. rewrite Hecdh, Hva. apply mul_swap, Hfr.
    + destruct Hdirect as [(? & [=])|[= ->]]. destruct Hc.
  - destruct Hpub as [-> Hadds]. destruct (AddressType.is_subaddress (Address.kind a)) eqn:Hsub.
    + destruct (should_use_additional_keys self) eqn:Huse.
      * right. split; [reflexivity|]. split; [reflexivity|]. unfold additional_length in Hxl. rewrite Huse in Hxl.
        destruct (lookup_lt_is_Some_2 xs i) as [k Hk]; [apply lookup_lt_Some in Hi; lia|]. rewrite Hk in Hecdh. cbn [default] in Hecdh.
        assert (Hz : zip xs (payments self) !! i = Some (k, p)) by (apply lookup_zip_with_Some; exists k, p; auto).
        destruct (Forall2_lookup_l _ _ _ _ _ Hadds Hz) as (add & Hadd & (a' & Ha' & ->)). cbn [fst snd] in *.
        pose proof (Ha' unit) as H. rewrite Ha in H. injection H as <-. rewrite Hsub in Hadd. exists (ed_mul k (Address.spend a)). split; [exact Hadd|].
        rewrite Hecdh, Hva. apply mul_swap, Hfr.
      * exfalso. rewrite andb_true_r in Hspecial. pose proof (list_elem_of_lookup_2 _ _ _ Hi) as Hin. apply list_elem_of_In in Hin.
        unfold has_payments_to_subaddresses in Hspecial. apply not_true_iff_false in Hspecial. 
        destruct Hdirect as [(m & ->)| ->]; apply Hspecial, existsb_exists; (eexists; split; [exact Hin|exact Hsub]).
    + left. rewrite Hecdh, Hva. apply mul_swap, ed_basepoint_free.
Qed.

(** ** Outputs *)

(** [tx] has the outputs, the extra, the commitments and the encrypted amounts
    made, for inputs with these key images. *)
Definition carries (tx : Transaction Pruned) (key_images : list CompressedPoint) (x : pieces) : Prop := exists prefix proofs,
  tx = V2 (P := Pruned) prefix (Some proofs) /\
  TransactionPrefix.outputs prefix = p_outputs x /\ TransactionPrefix.extra prefix = p_extra x /\
  SharedKeyDerivations.uniqueness (TransactionPrefix.inputs prefix) = SharedKeyDerivations.uniqueness (prefix_inputs self key_images) /\
  RctBase.commitments (pruned_base proofs) = map Point.compress (p_commitments x) /\
  RctBase.encrypted_amounts (pruned_base proofs) = map snd (p_opens x).

Lemma enumerate_zip_lookup {A B} (l : list A) (k : list B) i a b : l !! i = Some a -> k !! i = Some b ->
  enumerate (zip l k) !! i = Some (i, (a, b)).
Proof.
  intros Ha Hb. rewrite enumerate_lookup.
  assert (zip l k !! i = Some (a, b)) as -> by (apply lookup_zip_with_Some; exists a, b; auto). reflexivity.
Qed.

(** The output of a payment received is one the scanner looks for. *)
Lemma sent_received tx key_images x i p sub : carries tx key_images x -> made self plus f key_images x -> payments self !! i = Some p -> receives sub p ->
  exists output key d c ex pub additional,
    p_outputs x !! i = Some output /\
    (Output.key output <> CompressedPoint.IDENTITY -> sent_to scanner tx i output key d c sub) /\
    Commitment.amount c = amount_sent self f p /\
    Extra.read (p_extra x) = (Ok ex, []) /\ Extra.keys ex = Some ([pub], additional) /\ key ∈ keys_for [pub] additional i /\
    (should_use_additional_keys self = false -> key = pub).
Proof.
  intros (prefix & proofs & -> & _ & _ & Huniq & Hbc & Hbe) M Hi Hrec. pose proof (v_payment _ _ _ _ V) as Hpay.
  destruct (ecdhs_all self Hself Hpay) as (kx & kxs & pub & adds & es & _ & Hxl & Hp & Hal & Haa & Hpub & He & Hf).
  assert (Hel : length es = length (payments self)) by (apply list.Forall2_length in Hf; rewrite enumerate_length in Hf; lia).
  destruct (derivations_all self Hself key_images es He) as (ds & Hds & Hdf).
  pose proof (derivations_length self key_images es ds Hel Hdf) as Hdl.
  destruct (outputs_all self Hself plus (v_type _ _ _ _ V) key_images es ds He Hel Hds Hdf) as (outs & Ho & Hof).
  destruct (extra_all self Hself Hpay pub adds es Hp He Hel) as (id & Hex & Hid & _).
  destruct (made_committed _ _ _ _ _ M) as (ds' & Hds' & Hcf).
  pose proof (Hds' unit) as H. rewrite Hds in H. injection H as <-. pose proof (made_outputs _ _ _ _ _ M unit) as H. rewrite Ho in H. injection H as H.
  pose proof (made_extra _ _ _ _ _ M unit) as H'. rewrite Hex in H'. injection H' as H'.
  pose proof (lookup_lt_Some _ _ _ Hi) as Hlt.
  destruct (lookup_lt_is_Some_2 es i ltac:(lia)) as [e Hei]. destruct (lookup_lt_is_Some_2 ds i ltac:(lia)) as [d Hdi].
  assert (Hein : enumerate (payments self) !! i = Some (i, p)) by (rewrite enumerate_lookup, Hi; reflexivity).
  destruct (Forall2_lookup_l _ _ _ _ _ Hf Hein) as (e' & Hei' & Hecdh). rewrite Hei in Hei'. injection Hei' as <-. cbn [fst snd] in Hecdh.
  destruct (Forall2_lookup_l _ _ _ _ _ Hdf (enumerate_zip_lookup _ _ _ _ _ Hi Hei)) as (d' & Hdi' & (a & s & Ha & Hder & Hsk & _)).
  rewrite Hdi in Hdi'. injection Hdi' as <-. cbn [fst snd] in *.
  assert (Hz : zip (payments self) ds !! i = Some (p, d)) by (apply lookup_zip_with_Some; exists p, d; auto).
  destruct (Forall2_lookup_l _ _ _ _ _ Hof Hz) as (o & Hoi & (a' & s' & Ha' & Hsk' & Hout)). cbn [fst snd] in *.
  pose proof (Ha' unit) as Hau. rewrite Ha in Hau. injection Hau as <-. rewrite Hsk in Hsk'. apply sc_to_bytes_inj in Hsk' as <-.
  destruct (Forall2_lookup_l _ _ _ _ _ Hcf Hz) as ([c enc] & Hci & (Hcok & Hcam & _ & Hdec)). cbn [fst snd] in *.
  destruct (scalar_into_all _ Hview) as (v & Hv & _).
  destruct (receives_address sub p Hrec) as (a' & Ha2 & Hao & _). pose proof (Ha2 unit) as Hau. rewrite Ha in Hau. injection Hau as <-.
  pose proof (address_of_keys sub a v (proj1 Hrec) Hv Hao) as Hak.
  set (additional := match adds with [] => None | _ => Some (map Extra.key_or_identity adds) end).
  assert (Hkey : exists key, e = ed_mul v key /\ key ∈ keys_for [pub] additional i /\ (should_use_additional_keys self = false -> key = pub)).
  { destruct (ecdh_received kx kxs pub adds i p e a sub v Hpub Hxl Hal Hi Hecdh Hrec Ha Hak Hv) as [->|(Huse & _ & key & Hk & ->)].
    - exists pub. split; [reflexivity|]. split; [left|reflexivity].
    - exists key. split; [reflexivity|]. split; [|congruence]. apply elem_of_app. right. unfold additional. destruct adds as [|add adds]; [discriminate|].
      rewrite list_lookup_fmap, Hk. cbn. unfold Extra.key_or_identity. rewrite decompress_compress. left. }
  destruct Hkey as (key & Hek & Hkin & Hkpub).
  assert (Hadds_ok : vec_ok (is_array 32) None adds).
  { split; [exact Haa|]. unfold len. rewrite Hal. unfold additional_length, U, USIZE_BITS. pose proof (v_count _ _ _ _ V).
    destruct (should_use_additional_keys self); lia. }
  assert (Hdata : Forall (fun d => is_bytes d /\ len d <= MAX_ARBITRARY_DATA_SIZE) (data self)).
  { apply Forall_and. split; [exact (ok_data _ Hself)|exact (v_data _ _ _ _ V)]. }
  exists o, key, d, c, (sent (Point.compress pub) adds id (data self)), pub, additional.
  split; [rewrite <- H; exact Hoi|]. split; [|split; [exact Hcam|split; [|split; [|split; assumption]]]].
  - intros Hne. pose proof (ak_table _ _ _ Hak) as Htab.
    pose proof (made_commitments _ _ _ _ _ M ScanError) as HC. apply each_ok in HC.
    assert (Hmap : map fst (p_opens x) !! i = Some c) by (rewrite list_lookup_fmap, Hci; reflexivity).
    destruct (Forall2_lookup_l _ _ _ _ _ HC Hmap) as (P & HP & Hcommit).
    split; [split|].
    + exists v. split; [apply Hv|]. rewrite <- (ak_guaranteed _ _ _ Hak), <- Hek. cbn [Transaction.prefix]. rewrite Huniq. apply Hder.
    + rewrite Hout. cbn [Output.view_tag]. destruct plus; [reflexivity|exact I].
    + exists (Address.spend a), s. split; [exact Htab|]. split; [rewrite Hsk; apply scalar_into_from|].
      rewrite Hout. cbn [Output.key]. rewrite ed_add_comm. reflexivity.
    + exact Hne.
    + unfold InternalScanner.output_commitment. rewrite Hout. cbn [Output.amount]. rewrite Hbe, Hbc, list_lookup_fmap, Hci. cbn [fmap option_fmap option_map snd]. rewrite Hdec. cbn [obind]. rewrite Hcommit. cbn [obind].
      rewrite list_lookup_fmap, HP. rewrite bool_decide_eq_true_2 by reflexivity. reflexivity.
  - rewrite <- H'. apply sent_read; [apply ed_compress_array|exact Hadds_ok|exact Hid|exact Hdata].
  - rewrite sent_keys. unfold additional, Extra.key_or_identity at 1. rewrite decompress_compress. reflexivity.
Qed.

(** The extra of the transaction is of bytes, and its outputs have no amounts
    in the clear. *)
Lemma extra_bytes key_images x : made self plus f key_images x -> is_bytes (p_extra x).
Proof.
  intros M. destruct (ecdhs_all self Hself (v_payment _ _ _ _ V)) as (kx & kxs & pub' & adds & es & _ & _ & Hp & Hadl & Haa & _ & He & Hf).
  assert (Hel : length es = length (payments self)) by (apply list.Forall2_length in Hf; rewrite enumerate_length in Hf; lia).
  destruct (extra_all self Hself (v_payment _ _ _ _ V) pub' adds es Hp He Hel) as (id & Hx & Hid & _).
  pose proof (made_extra _ _ _ _ _ M unit) as H. rewrite Hx in H. injection H as <-. unfold Extra.serialize. rewrite write_sorted, sorted_sent.
  apply fields_bytes, sent_ok; [apply ed_compress_array| |exact Hid|].
  - split; [exact Haa|]. unfold len. rewrite Hadl. unfold additional_length, U, USIZE_BITS. pose proof (v_count _ _ _ _ V).
    destruct (should_use_additional_keys self); lia.
  - apply Forall_and. split; [exact (ok_data _ Hself)|exact (v_data _ _ _ _ V)].
Qed.

Lemma no_amounts key_images x : made self plus f key_images x -> Forall (fun output => Output.amount output = None) (p_outputs x).
Proof.
  intros M. pose proof (made_outputs _ _ _ _ _ M unit) as Ho. unfold outputs in Ho. apply obind_ok_inv in Ho as (ds & _ & Ho). apply each_ok in Ho. clear -Ho.
  induction Ho as [|[p d] o l l' H _ IH]; constructor; [|exact IH]. unfold SignableTransaction.output in H. obind_inv H. obind_inv H. obind_inv H. injection H as <-. reflexivity.
Qed.

(** The scanner finds it. *)
Lemma scan_received tx key_images x i p sub first tx_hash : carries tx key_images x -> made self plus f key_images x ->
  payments self !! i = Some p -> receives sub p -> first + len (payments self) <= 2 ^ 64 ->
  (forall output, TransactionPrefix.outputs (Transaction.prefix tx) !! i = Some output -> Output.key output <> CompressedPoint.IDENTITY) ->
  exists outputs output, InternalScanner.scan_transaction scanner first tx_hash tx = Ok outputs /\ output ∈ outputs /\
    WalletOutput.absolute_id output = AbsoluteId.mk tx_hash (Z.of_nat i) /\
    (should_use_additional_keys self = false ->
     Commitment.amount (OutputData.commitment (WalletOutput.data output)) = amount_sent self f p /\
     Metadata.subaddress (WalletOutput.metadata output) = sub).
Proof.
  intros Hc M Hi Hrec Hfirst Hne. destruct (sent_received tx key_images x i p sub Hc M Hi Hrec) as
    (output & key & d & c & ex & pub & additional & Hout & Hsent & Ham & Hex & Hkeys & Hin & Hpub).
  destruct Hc as (prefix & proofs & -> & Hpo & Hpx & _ & _ & Henc). cbn [Transaction.prefix] in Hne. rewrite Hpo in Hne.
  specialize (Hsent (Hne _ Hout)). destruct (made_sizes _ _ _ _ _ M) as (_ & Hol & _). pose proof (made_amounts _ _ _ _ _ M) as Ha.
  pose proof (list.Forall2_length _ _ _ Ha) as Hal. pose proof (extra_bytes key_images x M) as Hbytes. rewrite <- Hpx in Hbytes.
  destruct (scan_transaction_spec scanner {| scannable_primitives := PR; scannable_view := Hview |} first tx_hash
    (V2 (P := Pruned) prefix (Some proofs)) Hbytes) as [Hs _]. cbn [Transaction.prefix] in Hs. rewrite Hpx, Hex in Hs. cbn [fst] in Hs.
  rewrite Hkeys, Hpo in Hs. specialize (Hs eq_refl). unfold len in Hol, Hfirst.
  destruct (InternalScanner.scan_transaction _ _ _ _) as [ws|e|]; [| |contradiction].
  - destruct (Hs i output Hout (ex_intro _ key (ex_intro _ d (ex_intro _ c (ex_intro _ sub (conj Hin Hsent))))))
      as (wo & Hwo & Hid & R' & d' & c' & sub' & Hfound & <- & <-).
    exists ws, wo. split; [reflexivity|]. split; [exact Hwo|]. split; [exact Hid|]. intros Huse. rewrite (Hpub Huse) in Hsent.
    assert (Hf : first_to scanner (V2 (P := Pruned) prefix (Some proofs)) i output (keys_for [pub] additional i) pub d c sub).
    { eexists [], _. split; [reflexivity|]. split; [exact Hsent|]. intros x' ? ? ? H. inversion H. }
    destruct (first_unique _ _ _ _ _ _ _ _ _ _ _ _ _ Hf Hfound) as [<- <-]. auto.
  - destruct Hs as (j & out & R' & d' & sub' & Hj & _ & _ & [[_ [Hno _]]|[Hno _]]); apply lookup_lt_Some in Hj; cbn [Nat.add] in Hno; [|lia].
    apply lookup_ge_None in Hno. rewrite Henc, length_map in Hno. lia.
Qed.
End Self.
End Received.
