(* ===== verification/SendCodec.v ===== *)
(** The encoding of a [SignableTransaction] ([write] and [read] of
    [wallet/src/send/mod.rs]), which isn't one of the Monero protocol. *)

From Stdlib Require Import ZArith Lia.
From stdpp Require Import base list strings numbers.
From S2P Require Import Prelude Dalek MoneroIo Ed25519 Clsag Bulletproofs RingCT Transaction Interface.
From S2P Require Import Base58 Address Extra WalletOutput ViewPair DecoySelection Send SendKeys SendWeight SendNew.

Import SignableTransaction.

Section Codec.
Context {D : Dalek} {DL : DalekLaws D} {K : Keccak} {KL : KeccakLaws K} {R : Rand}.

(** *** Addresses *)

Definition monero_bytes : NetworkedAddressBytes.t :=
  NetworkedAddressBytes.mk (AddressBytes.mk 18 19 42 70) (AddressBytes.mk 24 25 36 86) (AddressBytes.mk 53 54 63 111).

Lemma address_bytes_eq : ADDRESS_BYTES = NetworkedAddressBytes.to_const_generic monero_bytes.
Proof. vm_compute. reflexivity. Qed.

Lemma monero_bytes_ok : nab_ok monero_bytes /\ NoDup (nab_list monero_bytes).
Proof. split; decide_now. Qed.

(** The address as a string, which is always made *)
Definition address_string (a : MoneroAddress) : bytes := match Address.to_string (E := unit) ADDRESS_BYTES a with Ok s => s | _ => [] end.
Definition encode_address (a : MoneroAddress) : bytes := write_vec write_byte (address_string a).

Lemma address_string_all a : Address.address_ok a -> (forall E, Address.to_string (E := E) ADDRESS_BYTES a = Ok (address_string a)) /\
  Address.from_str_with_unchecked_network ADDRESS_BYTES (address_string a) = Ok a /\ vec_ok (U 8) (Some Address.SIZE_UPPER_BOUND) (address_string a).
Proof.
  intros Ha. destruct monero_bytes_ok as [Hb Hn]. rewrite address_bytes_eq.
  destruct (Address.from_str_to_string (E := unit) monero_bytes Hb a Hn Ha) as (s & Hs & Hf). rewrite <- address_bytes_eq in *.
  assert (address_string a = s) as He by (unfold address_string; rewrite Hs; reflexivity). rewrite He.
  split; [intros E; apply (Address.from_str_sound _ _ _ Hf)|]. split; [exact Hf|]. rewrite address_bytes_eq in Hs.
  destruct (Address.address_size (AddressBytes.mk 18 19 42 70) (AddressBytes.mk 24 25 36 86) (AddressBytes.mk 53 54 63 111) monero_bytes a s)
    as (_ & Hl & _); [exact Hb|vm_compute; reflexivity|exact Ha|exact Hs|].
  split; [exact (Address.to_string_bytes _ _ _ Hs)|]. split; [|exact Hl]. assert (Address.SIZE_UPPER_BOUND < 2 ^ 8) by (vm_compute; reflexivity).
  unfold U, len in *. change USIZE_BITS with 64. lia.
Qed.

#[export] Instance address_codec : Codec read_address encode_address Address.address_ok.
Proof.
  split.
  - intros a Ha. destruct (address_string_all a Ha) as (_ & _ & Hv). exact (codec_bytes (r := read_vec read_byte (Some Address.SIZE_UPPER_BOUND)) (w := write_vec write_byte) _ Hv).
  - intros a rest Ha. destruct (address_string_all a Ha) as (_ & Hf & Hv). unfold read_address, encode_address.
    erewrite rbind_ok by (apply codec_rt, Hv). rewrite Hf. reflexivity.
  - intros bs a rest Hb H. unfold read_address in H. apply rbind_ok_inv in H as (s & bs1 & Hs & H).
    apply codec_sound in Hs as [Hv ->]; [|exact Hb]. destruct (Address.from_str_with_unchecked_network ADDRESS_BYTES s) as [a'|e|] eqn:Hf; try discriminate H.
    apply rret_ok_inv in H as [-> ->]. destruct (Address.from_str_sound _ _ _ Hf) as [Ha Hst]. split; [exact Ha|].
    unfold encode_address, address_string. rewrite Hst. reflexivity.
  - unfold read_address. apply rbind_safe; [apply _|]. intros s.
    assert (Hn : no_panic (Address.from_str_with_unchecked_network ADDRESS_BYTES s)).
    { unfold Address.from_str_with_unchecked_network. pose proof (decode_check_no_panic s) as Hd. destruct (decode_check s) as [raw|e|] eqn:Hds; [|exact I|exact Hd].
      apply (decode_check_ok (E := unit)) in Hds as [Hb _]. cbn [omap_err obind]. pose proof (Address.address_read_safe ADDRESS_BYTES raw Hb) as [Hs _].
      destruct (Address.read ADDRESS_BYTES raw) as [[a|e|] [|x rest]]; cbn in Hs; try exact I; contradiction. }
    destruct (Address.from_str_with_unchecked_network ADDRESS_BYTES s); [apply rret_safe|apply rfail_safe|contradiction].
Qed.

(** *** View pairs and subaddresses *)

Lemma omap_err_ok {E F A} (g : E -> F) (m : outcome E A) a : omap_err g m = Ok a <-> m = Ok a.
Proof. destruct m; cbn; split; congruence. Qed.

#[export] Instance view_pair_codec msg : Codec (read_view_pair msg) write_view_pair view_pair_ok.
Proof.
  split.
  - intros [sp v] [Hv Ht]. unfold write_view_pair. cbn in *. apply is_bytes_app_2; [apply ed_compress_array|]. apply Hv.
  - intros [sp v] rest [Hv Ht]. unfold read_view_pair, write_view_pair. cbn [ViewPair.spend ViewPair.view_key] in *. rewrite <- app_assoc.
    erewrite rbind_ok by (apply (codec_rt (r := CompressedPoint.read)), ed_compress_array). rewrite decompress_compress.
    cbn beta. unfold ok_or_other at 1. rewrite rbind_rret. erewrite rbind_ok by (apply (codec_rt (r := Scalar.read)), Hv).
    unfold rlift, ViewPair.new. rewrite Ht. reflexivity.
  - intros bs x rest Hb H. unfold read_view_pair in H. apply rbind_ok_inv in H as (c & bs1 & Hc & H).
    apply codec_sound in Hc as [Hca ->]; [|exact Hb]. apply is_bytes_app_r in Hb.
    destruct (CompressedPoint.decompress c) as [sp|] eqn:Hd; [|discriminate H]. unfold ok_or_other in H at 1. rewrite rbind_rret in H.
    apply rbind_ok_inv in H as (v & bs2 & Hv & H). apply codec_sound in Hv as [Hvo ->]; [|exact Hb].
    unfold rlift in H. injection H as H <-. apply omap_err_ok in H. unfold ViewPair.new in H.
    destruct (ed_is_torsion_free sp) eqn:Ht; [|discriminate]. injection H as <-. split; [split; assumption|].
    unfold write_view_pair. cbn. rewrite (compress_decompress _ _ Hd), <- app_assoc. reflexivity.
  - unfold read_view_pair. apply rbind_safe; [apply _|]. intros c. apply rbind_safe; [apply _|]. intros sp. apply rbind_safe; [apply _|]. intros v.
    intros bs _. unfold rlift. split; [|exists []; reflexivity]. cbn [fst]. unfold ViewPair.new. destruct (ed_is_torsion_free sp); exact I.
Qed.

#[export] Instance change_subaddress_codec : Codec read_subaddress write_subaddress (opt_ok subaddress_ok).
Proof.
  split.
  - intros [x|] _; apply is_bytes_app_2; apply to_le_bytes.
  - intros [x|] rest H; unfold read_subaddress, write_subaddress; [|reflexivity].
    pose proof (subaddress_new x H) as Hn. destruct H as (H1 & H2 & _). read_run. rewrite Hn. reflexivity.
  - intros bs x rest Hb H. unfold read_subaddress in H.
    apply rbind_ok_inv in H as (account & bs1 & Ha & H). apply rbind_ok_inv in H as (address & bs2 & Hd & H).
    apply rret_ok_inv in H as [<- <-]. apply codec_sound in Ha as [Ha ->]; [|assumption].
    apply codec_sound in Hd as [Hd ->]; [|eapply is_bytes_app_r; eassumption]. unfold SubaddressIndex.new.
    destruct ((account =? 0) && (address =? 0)) eqn:E.
    + apply andb_prop in E as [->%Z.eqb_eq ->%Z.eqb_eq]. split; [exact I|]. cbn. reflexivity.
    + apply andb_false_iff in E. split; [|cbn; rewrite <- app_assoc; reflexivity]. split; [exact Ha|]. split; [exact Hd|]. cbn. lia.
  - unfold read_subaddress. safe_tac.
Qed.

(** *** Payments *)

Definition encode_payment (payment : InternalPayment) : bytes :=
  match payment with
  | Payment addr amount => [0] ++ encode_address addr ++ to_le 8 amount
  | ChangePayment (AddressOnly addr) => [1] ++ encode_address addr
  | ChangePayment (Standard view_pair subaddress) => [2] ++ write_view_pair view_pair ++ write_subaddress subaddress
  | ChangePayment (Guaranteed view_pair subaddress) =>
      [3] ++ write_view_pair (GuaranteedViewPair.pair view_pair) ++ write_subaddress subaddress
  end.

Lemma write_payment_all p : payment_ok p -> forall E, write_payment (E := E) p = Ok (encode_payment p).
Proof.
  destruct p as [a m|[a|vp s|gvp s]]; cbn [payment_ok change_ok]; intros Hp E; try reflexivity; unfold write_payment, write_address.
  - destruct (address_string_all a (proj1 Hp)) as (Hs & _). rewrite Hs. reflexivity.
  - destruct (address_string_all a Hp) as (Hs & _). rewrite Hs. reflexivity.
Qed.

#[export] Instance payment_codec : Codec read_payment encode_payment payment_ok.
Proof.
  split.
  - intros [a m|[a|vp s|gvp s]]; cbn [payment_ok change_ok encode_payment]; intros Hp; (apply is_bytes_cons; [unfold U; lia|]).
    + destruct Hp as [Ha Hm]. apply is_bytes_app_2; [exact (codec_bytes (r := read_address) _ Ha)|apply to_le_bytes].
    + exact (codec_bytes (r := read_address) _ Hp).
    + destruct Hp as [Hv Hs]. apply is_bytes_app_2; [exact (codec_bytes (r := read_view_pair "") _ Hv)|exact (codec_bytes (r := read_subaddress) _ Hs)].
    + destruct Hp as [Hv Hs]. apply is_bytes_app_2; [exact (codec_bytes (r := read_view_pair "") _ Hv)|exact (codec_bytes (r := read_subaddress) _ Hs)].
  - intros [a m|[a|vp s|[vp] s]] rest; cbn [payment_ok change_ok encode_payment GuaranteedViewPair.pair]; intros Hp;
      unfold read_payment; cbn [app]; rewrite read_tag; cbn beta iota; rewrite <- ?app_assoc.
    + destruct Hp as [Ha Hm]. erewrite rbind_ok by apply codec_rt, Ha. read_run. reflexivity.
    + unfold rmap. erewrite rbind_ok by apply codec_rt, Hp. reflexivity.
    + destruct Hp as [Hv Hs]. erewrite rbind_ok by apply codec_rt, Hv. erewrite rbind_ok by apply codec_rt, Hs. reflexivity.
    + destruct Hp as [Hv Hs]. erewrite rbind_ok by apply codec_rt, Hv. erewrite rbind_ok by apply codec_rt, Hs. reflexivity.
  - intros bs x rest Hb H. unfold read_payment in H. apply rbind_ok_inv in H as (k & bs1 & Hk & H).
    apply codec_sound in Hk as [Hku ->]; [|exact Hb]. apply is_bytes_app_r in Hb. unfold write_byte.
    destruct k as [|k|k]; [|destruct k as [[|[]|]|[|[]|]|]; try discriminate H|discriminate H].
    + apply rbind_ok_inv in H as (a & bs2 & Ha & H). apply codec_sound in Ha as [Ha ->]; [|exact Hb]. apply is_bytes_app_r in Hb.
      apply rbind_ok_inv in H as (m & bs3 & Hm & H). apply codec_sound in Hm as [Hm ->]; [|exact Hb]. apply rret_ok_inv in H as [<- <-].
      split; [split; assumption|]. cbn [encode_payment]. rewrite <- !app_assoc. reflexivity.
    + apply rbind_ok_inv in H as (vp & bs2 & Hv & H). apply codec_sound in Hv as [Hv ->]; [|exact Hb]. apply is_bytes_app_r in Hb.
      apply rbind_ok_inv in H as (s & bs3 & Hs & H). apply codec_sound in Hs as [Hs ->]; [|exact Hb]. apply rret_ok_inv in H as [<- <-].
      split; [split; assumption|]. cbn [encode_payment GuaranteedViewPair.pair]. rewrite <- !app_assoc. reflexivity.
    + apply rbind_ok_inv in H as (vp & bs2 & Hv & H). apply codec_sound in Hv as [Hv ->]; [|exact Hb]. apply is_bytes_app_r in Hb.
      apply rbind_ok_inv in H as (s & bs3 & Hs & H). apply codec_sound in Hs as [Hs ->]; [|exact Hb]. apply rret_ok_inv in H as [<- <-].
      split; [split; assumption|]. cbn [encode_payment]. rewrite <- !app_assoc. reflexivity.
    + unfold rmap in H. apply rbind_ok_inv in H as (a & bs2 & Ha & H). apply codec_sound in Ha as [Ha ->]; [|exact Hb]. apply rret_ok_inv in H as [<- <-].
      split; [exact Ha|reflexivity].
  - unfold read_payment. safe_tac.
Qed.

(** *** Signable transactions *)

Definition encode (self : t) : bytes :=
  write_byte (RctType.to_u8 (rct_type self)) ++ outgoing_view_key self ++ write_vec OutputWithDecoys.write (inputs self) ++
  write_vec encode_payment (payments self) ++ write_vec (write_vec write_byte) (data self) ++ FeeRate.write (fee_rate self).

Lemma write_all self : Forall payment_ok (payments self) -> forall E, write (E := E) self = Ok (encode self).
Proof.
  intros Hp E. unfold write.
  assert (He : each (write_payment (E := E)) (payments self) = Ok (map encode_payment (payments self))).
  { induction Hp as [|p l Hp _ IH]; [reflexivity|]. cbn [each map]. rewrite write_payment_all by exact Hp. cbn [obind]. rewrite IH. reflexivity. }
  assert (Hw : VarInt.write (len (map encode_payment (payments self))) ++ concat (map encode_payment (payments self))
    = write_vec encode_payment (payments self)).
  { unfold write_vec, len. rewrite length_map. f_equal. induction (payments self) as [|p l IH]; [reflexivity|].
    cbn. f_equal. apply IH; [exact (Forall_inv_tail Hp)|]. cbn [each map] in He. rewrite write_payment_all in He by exact (Forall_inv Hp).
    cbn [obind] in He. destruct (each write_payment l) as [x| |]; try discriminate. cbn [obind] in He. congruence. }
  unfold encode. rewrite He, <- Hw. reflexivity.
Qed.

#[export] Instance fee_rate_codec : Codec FeeRate.read FeeRate.write fee_rate_ok.
Proof.
  split.
  - intros r _. apply is_bytes_app_2; apply to_le_bytes.
  - intros r rest (H1 & H2 & H3 & H4). unfold FeeRate.read, FeeRate.write. read_run. unfold FeeRate.new.
    rewrite (proj2 (Z.eqb_neq _ _) H3), (proj2 (Z.eqb_neq _ _) H4). destruct r. reflexivity.
  - intros bs r rest Hb H. unfold FeeRate.read in H. apply rbind_ok_inv in H as (p & bs1 & Hp & H).
    apply codec_sound in Hp as [Hp ->]; [|exact Hb]. apply is_bytes_app_r in Hb. apply rbind_ok_inv in H as (m & bs2 & Hm & H).
    apply codec_sound in Hm as [Hm ->]; [|exact Hb]. unfold FeeRate.new in H. destruct (Z.eqb_spec p 0); [discriminate H|].
    destruct (Z.eqb_spec m 0); [discriminate H|]. apply rret_ok_inv in H as [<- <-]. split; [split_and!; assumption|].
    unfold FeeRate.write. cbn. rewrite <- app_assoc. reflexivity.
  - unfold FeeRate.read. safe_tac.
Qed.

(** What's within the bounds [read] has *)
Record encodable (self : t) : Prop := {
  enc_view_key : is_array 32 (outgoing_view_key self);
  enc_inputs : vec_ok output_with_decoys_ok (Some TransactionPrefix.INPUTS_UPPER_BOUND) (inputs self);
  enc_payments : vec_ok payment_ok (Some MAX_COMMITMENTS) (payments self);
  enc_data : vec_ok (vec_ok (U 8) (Some MAX_ARBITRARY_DATA_SIZE)) (Some MAX_EXTRA_SIZE_BY_RELAY_RULE) (data self);
  enc_fee_rate : fee_rate_ok (fee_rate self)
}.

#[export] Instance fields_codec : Codec read_fields encode encodable.
Proof.
  split.
  - intros self [H1 H2 H3 H4 H5]. unfold encode.
    apply is_bytes_app_2; [apply is_bytes_cons; [apply rct_type_to_U|constructor]|]. apply is_bytes_app_2; [apply H1|].
    apply is_bytes_app_2; [exact (codec_bytes (r := read_vec OutputWithDecoys.read (Some TransactionPrefix.INPUTS_UPPER_BOUND)) _ H2)|].
    apply is_bytes_app_2; [exact (codec_bytes (r := read_vec read_payment (Some MAX_COMMITMENTS)) _ H3)|].
    apply is_bytes_app_2; [exact (codec_bytes (r := read_vec (read_vec read_byte (Some MAX_ARBITRARY_DATA_SIZE)) (Some MAX_EXTRA_SIZE_BY_RELAY_RULE)) _ H4)|].
    exact (codec_bytes (r := FeeRate.read) _ H5).
  - intros [ty ovk ins pays dat fee] rest [H1 H2 H3 H4 H5]. cbn in H1, H2, H3, H4, H5. unfold read_fields, encode.
    cbn [rct_type outgoing_view_key inputs payments data fee_rate]. rewrite <- !app_assoc.
    erewrite rbind_ok by (apply codec_rt, rct_type_to_U). rewrite rct_type_of_to. unfold ok_or_other. rewrite rbind_rret.
    erewrite rbind_ok by (apply read_bytes_rt, H1). erewrite rbind_ok by apply codec_rt, H2. erewrite rbind_ok by apply codec_rt, H3.
    erewrite rbind_ok by apply codec_rt, H4. erewrite rbind_ok by apply codec_rt, H5. reflexivity.
  - intros bs x rest Hb H. unfold read_fields in H. apply rbind_ok_inv in H as (ty & bs1 & Hty & H).
    apply codec_sound in Hty as [Htu ->]; [|exact Hb]. apply is_bytes_app_r in Hb.
    destruct (RctType.of_u8 ty) as [t'|] eqn:Ht; [|discriminate H]. unfold ok_or_other in H. rewrite rbind_rret in H.
    apply rbind_ok_inv in H as (ovk & bs2 & Hovk & H). apply codec_sound in Hovk as [Hovk ->]; [|exact Hb]. apply is_bytes_app_r in Hb.
    apply rbind_ok_inv in H as (ins & bs3 & Hins & H). apply codec_sound in Hins as [Hins ->]; [|exact Hb]. apply is_bytes_app_r in Hb.
    apply rbind_ok_inv in H as (pays & bs4 & Hpays & H). apply codec_sound in Hpays as [Hpays ->]; [|exact Hb]. apply is_bytes_app_r in Hb.
    apply rbind_ok_inv in H as (dat & bs5 & Hdat & H). apply codec_sound in Hdat as [Hdat ->]; [|exact Hb]. apply is_bytes_app_r in Hb.
    apply rbind_ok_inv in H as (fee & bs6 & Hfee & H). apply codec_sound in Hfee as [Hfee ->]; [|exact Hb]. apply rret_ok_inv in H as [<- <-].
    split; [split; assumption|]. unfold encode. cbn [rct_type outgoing_view_key inputs payments data fee_rate].
    rewrite (rct_type_to_of _ _ Htu Ht), <- !app_assoc. reflexivity.
  - unfold read_fields. safe_tac.
Qed.

Lemma encodable_ok self : encodable self -> signable_ok self.
Proof.
  intros [H1 [H2 [_ H2b]] [H3 [_ H3b]] [H4 [_ H4b]] H5]. assert (TransactionPrefix.INPUTS_UPPER_BOUND < 2 ^ 32) by reflexivity.
  unfold MAX_COMMITMENTS in *. split; try assumption.
  - eapply list.Forall_impl; [exact H4|]. intros x [Hx _]. exact Hx.
  - split; [lia|]. split; [lia|]. assert (Hc : len (concat (data self)) <= MAX_ARBITRARY_DATA_SIZE * len (data self)).
    { clear -H4. induction H4 as [|x l [_ [_ Hx]] _ IH]; [vm_compute; discriminate|]. cbn [concat]. rewrite len_app, len_cons. lia. }
    unfold MAX_EXTRA_SIZE_BY_RELAY_RULE in *. assert (MAX_ARBITRARY_DATA_SIZE <= 1000) by (vm_compute; discriminate). unfold len in *. nia.
Qed.

Context {PR : Primitives}.

(** What [validate] accepts is within the bounds of [read]. *)
Lemma valid_encodable self plus w f : signable_ok self -> valid self plus w f -> encodable self.
Proof.
  intros Hok V. pose proof (ok_memory _ Hok) as (Hm1 & Hm2 & Hm3). pose proof (v_count _ _ _ _ V) as Hc.
  split; try apply Hok.
  - split; [apply Hok|]. assert (0 <= len (inputs self)) by (unfold len; lia). split; [unfold U; change USIZE_BITS with 64; lia|].
    destruct (weight_and_necessary_fee_all self Hok (v_payment _ _ _ _ V) plus (v_type _ _ _ _ V) ltac:(lia)) as (w' & f' & Hw & Hb & _).
    pose proof (v_fee _ _ _ _ V unit) as Hv. rewrite Hw in Hv. injection Hv as -> ->. pose proof (v_weight _ _ _ _ V) as Hmax.
    assert (Hbase : len (inputs self) * 384 <= base_of self plus).
    { unfold base_of, tx_size. pose proof (count_bounds self (v_payment _ _ _ _ V) ltac:(lia)) as Hcb.
      pose proof (varint_bound (len (inputs self)) ltac:(unfold U; lia)). pose proof (varint_bound (len (payments self)) ltac:(unfold U; lia)).
      pose proof (extra_len_bound self Hok (v_payment _ _ _ _ V) ltac:(lia)) as He.
      assert (HU : U 64 (extra_len self)) by (unfold U; lia). pose proof (varint_bound _ HU).
      pose proof (sum_bound input_size (2 ^ 12) (inputs self) (input_size_bound self Hok)) as Hs.
      destruct (lr_of_all (len (payments self)) Hcb) as [_ Hlr]. pose proof (varint_bound (lr_of (len (payments self))) ltac:(unfold U; lia)).
      assert (0 <= bp_size plus (lr_of (len (payments self)))) by (unfold bp_size; destruct plus; lia).
      assert (Hcl : 0 <= clawback plus (len (payments self))).
      { unfold len. remember (length (payments self)) as n eqn:Hn. clear -Hc. do 17 (destruct n as [|n]; [destruct plus; vm_compute; discriminate|]). lia. }
      unfold output_size, ring_len_of. destruct plus; lia. }
    assert (Hbig : 150000 / 384 < TransactionPrefix.INPUTS_UPPER_BOUND) by reflexivity. unfold MAX_TX_SIZE in Hmax.
    assert (len (inputs self) < 391) by (change (300000 / 2 - 600) with 149400 in Hmax; lia). assert (391 <= TransactionPrefix.INPUTS_UPPER_BOUND) by (vm_compute; discriminate). lia.
  - split; [apply Hok|]. unfold MAX_COMMITMENTS, U, len. change USIZE_BITS with 64. lia.
  - pose proof (v_data _ _ _ _ V) as Hd. pose proof (ok_data _ Hok) as Hb. assert (0 <= len (data self)) by (unfold len; lia).
    split; [|split; [unfold U; change USIZE_BITS with 64; unfold len in *; lia|]].
    + apply list.Forall_forall. intros x Hx.
      pose proof (proj1 (list.Forall_forall _ _) Hb x Hx) as Hxb. pose proof (proj1 (list.Forall_forall _ _) Hd x Hx) as Hxd.
      split; [exact Hxb|]. split; [|exact Hxd]. assert (MAX_ARBITRARY_DATA_SIZE < 2 ^ 10) by reflexivity. unfold U, len in *. change USIZE_BITS with 64. lia.
    + pose proof (v_extra _ _ _ _ V) as Hx. unfold extra_len, extra_size, data_size in Hx.
      assert (Hs : len (data self) <= sum_list (map (fun d => 2 + VarInt.varint_len (1 + len d) + len d) (data self))).
      { pose proof (data_lens self Hok) as Hl. clear -Hl. induction Hl as [|d l Hd _ IH]; [vm_compute; discriminate|]. cbn [map sum_list]. rewrite len_cons.
        pose proof (varint_bound (1 + len d) ltac:(unfold U, len in *; lia)). unfold len in *. lia. }
      pose proof (varint_bound (Z.of_nat (additional_length self))) as Hvb. assert (Ha : (additional_length self <= 16)%nat).
      { unfold additional_length. destruct (should_use_additional_keys self); lia. }
      specialize (Hvb ltac:(unfold U; lia)). destruct (additional_length self), (extra_has_id (payments self)); lia.
Qed.

(** [read] reads the fields, and validates them. *)
Lemma read_cases bs : is_bytes bs ->
  match read bs with
  | (Ok self, rest) => bs = encode self ++ rest /\ signable_ok self /\ validate self = Ok tt
  | (Err _, _) => True
  | (Panic, _) => False
  end.
Proof.
  intros Hb. pose proof (codec_safe (r := read_fields) bs Hb) as [Hn _]. unfold read, rbind. destruct (read_fields bs) as [[self|e|] rest] eqn:Hf; [|exact I|exact Hn].
  destruct (codec_sound (r := read_fields) _ _ _ Hb Hf) as [He ->]. pose proof (encodable_ok _ He) as Hok.
  unfold rlift. pose proof (validate_cases self Hok) as Hv. destruct (validate self) as [[]|e|] eqn:Hval; cbn [omap_err]; [|exact I|exact Hv].
  split; [reflexivity|]. split; [exact Hok|exact Hval].
Qed.

Lemma read_encode self rest : signable_ok self -> validate self = Ok tt -> read (encode self ++ rest) = (Ok self, rest).
Proof.
  intros Hok Hv. destruct (proj1 (validate_accepts self Hok) Hv) as (plus & w & f & V).
  unfold read. erewrite rbind_ok by (apply codec_rt, (valid_encodable self plus w f Hok V)). unfold rlift. rewrite Hv. reflexivity.
Qed.
End Codec.
