(* ===== verification/SendTheorems.v ===== *)
(** What a [SignableTransaction] promises ([wallet/src/send/]): it's created
    valid, becomes a transaction which balances and pays its fee, is signed
    unless a key or a ring is wrong, is matched by its [Eventuality], and its
    outputs are found by their recipients. *)

From Stdlib Require Import ZArith Lia Sorted.
From stdpp Require Import base list strings numbers sorting gmap.
From S2P Require Import Prelude Dalek MoneroIo Ed25519 Clsag ClsagSign Bulletproofs BpCore BpOriginal BpPlus BpTheorems RingCT Transaction Interface.
From S2P Require Import Address Extra WalletOutput ViewPair Scan DecoySelection Send SendKeys SendWeight SendNew SendTx SendSign SendEventuality SendScan SendCodec.

Import SignableTransaction.

Section Theorems.
Context {D : Dalek} {DL : DalekLaws D} {K : Keccak} {KL : KeccakLaws K} {R : Rand} {PR : Primitives} {ST : Setup}.

(** The payments in order, the change last *)
Definition payments_of (payments : list (MoneroAddress * Z)) (change : Change) : list InternalPayment :=
  map (fun x => Payment (fst x) (snd x)) payments ++ match change with Some change => [ChangePayment change] | None => [] end.

(** C15: [SignableTransaction::new] yields a transaction which is as asked for
    but for the order of its payments, and which [validate] accepts, or the
    error for which [validate] refuses what's asked for. It doesn't panic. *)
Theorem new_correct rct_type outgoing_view_key inputs payments change data fee_rate : RandLaws R ->
  let asked := mk rct_type outgoing_view_key inputs (payments_of payments change) data fee_rate in
  signable_ok asked ->
  match new rct_type outgoing_view_key inputs payments change data fee_rate with
  | Ok self => same_intent asked self /\ SignableTransaction.inputs self = inputs /\ signable_ok self /\ validate self = Ok tt
  | Err e => validate asked = Err e
  | Panic => False
  end.
Proof.
  intros HR asked Hok. unfold new. cbv zeta.
  replace (match change with Some change => map (fun x => Payment (fst x) (snd x)) payments ++ [ChangePayment change]
           | None => map (fun x => Payment (fst x) (snd x)) payments end) with (payments_of payments change)
    by (unfold payments_of; destruct change; [|rewrite app_nil_r]; reflexivity).
  fold asked. pose proof (validate_cases asked Hok) as Hv. destruct (validate asked) as [u|e|] eqn:Hva; cbn [obind]; [|reflexivity|exact Hv].
  destruct Hv as (plus & w & f & V). destruct (seeded_rng_all asked SHUFFLE_PAYMENTS ltac:(discriminate) (ok_inputs _ Hok)) as [seed Hs].
  rewrite Hs. cbn [obind]. set (self := with_payments asked _).
  assert (Hsame : same_intent asked self) by (split; try reflexivity; cbn; symmetry; apply shuffle_perm).
  pose proof (same_intent_ok _ _ Hsame Hok) as Hself. split; [exact Hsame|]. split; [reflexivity|]. split; [exact Hself|].
  apply validate_accepts; [exact Hself|]. exists plus, w, f. exact (valid_same _ _ _ _ _ Hsame Hok V).
Qed.

(** C12: [validate] accepts exactly what's valid: of a CLSAG type, with inputs of
    distinct prime-order keys which aren't the identity and rings of the length
    the type has, two to sixteen outputs of which one is a payment and at most
    one is change and at most one has a payment ID, data and an extra within
    their bounds, amounts that sum, with the fee necessary, to what the inputs
    have at most and no more than 64 bits, and a weight within its bound. *)
Theorem validate_decides self : signable_ok self ->
  no_panic (validate self) /\ (validate self = Ok tt <-> exists plus w f, valid self plus w f).
Proof.
  intros Hok. split; [|exact (validate_accepts self Hok)]. pose proof (validate_cases self Hok) as H.
  destruct (validate self); [exact I|exact I|exact H].
Qed.

Section Self.
Context (self : t) (Hself : signable_ok self) (Hvalid : validate self = Ok tt).

Lemma is_valid : exists plus w f, valid self plus w f.
Proof. apply (validate_accepts self Hself), Hvalid. Qed.

(** C9: The unsigned transaction of a valid [SignableTransaction] is always made
    for a key image per input, and only then. Its inputs are those intended in
    the order of their key images, its outputs are as many as the payments and
    commit to their amounts, these and the fee sum to what the inputs have, the
    fee is the one necessary at least (the one necessary if there's change),
    and the Bulletproof is verified for the commitments. *)
Theorem unsigned_transaction_correct key_images :
  match Signing.unsigned_transaction (E := SendError) self key_images with
  | Ok (Some tx) => length key_images = length (inputs self) /\ exists opens, intended self key_images tx opens
  | Ok None => length key_images <> length (inputs self)
  | _ => False
  end.
Proof.
  destruct is_valid as (plus & w & f & V). destruct (decide (length key_images = length (inputs self))) as [Hl|Hl].
  - destruct (unsigned_intended self key_images plus w f Hself V Hl) as (tx & opens & -> & Hint). split; [exact Hl|]. exists opens. exact Hint.
  - unfold Signing.unsigned_transaction. destruct (Nat.eqb_spec (length (inputs self)) (length key_images)) as [He|He]; [congruence|]. cbn [negb]. congruence.
Qed.

(** C8: [sign] doesn't panic. It errs for a key which isn't the inputs', and for
    a ring without the input's commitment or key at the signer's index; else
    it yields the unsigned transaction for the inputs' key images, with a CLSAG
    per input that verifies for the hash of the transaction signed, and
    pseudo-outs whose sum is that of the commitments to the outputs and of the
    fee. *)
Theorem sign_correct rng key : scalar_ok key -> exists sk, Scalar.into (E := SendError) key = Ok sk /\
  match Signing.sign self rng key with
  | Ok tx => Forall (owned sk) (inputs self) /\ exists key_images l base bulletproof res, signed self sk key_images l base bulletproof res tx
  | Err WrongPrivateKey => ~ Forall (owned sk) (inputs self)
  | Err (SendClsagError InvalidCommitment) => Forall (owned sk) (inputs self) /\ ~ Forall ring_committed (inputs self)
  | Err (SendClsagError Clsag.InvalidKey) => Forall (owned sk) (inputs self) /\ ~ Forall ring_keyed (inputs self)
  | _ => False
  end.
Proof.
  intros Hkey. destruct is_valid as (plus & w & f & V). destruct (scalar_into_all _ Hkey) as (sk & Hsk & _). exists sk. split; [apply Hsk|].
  pose proof (sign_cases self rng key sk plus w f Hself V Hsk) as H. destruct (Signing.sign self rng key) as [tx|e|]; [|exact H|exact H].
  destruct H as (Ho & key_images & l & base & bp & res & Hs & _). split; [exact Ho|]. exists key_images, l, base, bp, res. exact Hs.
Qed.

(** Rings of the lengths [validate] requires make signatures of the size the
    weight is computed with. *)
Lemma clsags_sizes plus w f l res : valid self plus w f -> Forall output_with_decoys_ok l -> Forall (input_valid plus) l ->
  Forall2 (fun x (y : Clsag.t * Point) => clsag_ok (length (Decoys.ring (OutputWithDecoys.decoys x))) (fst y)) l res ->
  Forall (fun c => len (Clsag.write c) = 32 * (ring_len_of plus + 2)) (map fst res).
Proof.
  intros V Hl Hv Hr. apply Forall_map. revert Hl Hv. induction Hr as [|x y l res Hc _ IH]; intros Hl Hv; constructor;
    apply Forall_cons_iff in Hl as [(_ & _ & _ & _ & Hlen & _) Hl], Hv as [(_ & _ & Hlo) Hv]; [|exact (IH Hl Hv)].
  destruct Hc as ((Hs & Hsf) & [Hc1 _] & HD). unfold Clsag.write. rewrite !len_app. rewrite (len_raw_vec Scalar.write 32).
  - unfold Scalar.write, CompressedPoint.write, len in *. rewrite (is_array_length _ _ Hc1), (is_array_length _ _ HD). lia.
  - eapply list.Forall_impl; [exact Hsf|]. intros s [Hs32 _]. unfold Scalar.write, len. rewrite (is_array_length _ _ Hs32). reflexivity.
Qed.

(** C16: The transaction signed pays for its weight. With change, its fee is the
    fee rate's for its weight at least, and its weight is within the bound for
    transactions. Without, the fee is what's left over, whose encoding may
    be longer than that of the fee necessary, for which the weight was
    computed: the weight paid for is then at most nine bytes short. *)
Theorem signed_pays_fee rng key tx : scalar_ok key -> Signing.sign self rng key = Ok tx ->
  exists weight fee, Transaction.weight (E := SendError) tx = Ok weight /\
    (exists proofs, rct_proofs tx = Some proofs /\ RctBase.fee (base proofs) = fee) /\
    FeeRate.per_weight (fee_rate self) * (weight - 9) <= fee /\ weight - 9 < MAX_TX_SIZE /\
    (has_change self = true -> FeeRate.per_weight (fee_rate self) * weight <= fee /\ weight < MAX_TX_SIZE).
Proof.
  intros Hkey Hsign. destruct is_valid as (plus & w & f & V). destruct (scalar_into_all _ Hkey) as (sk & Hsk & _).
  pose proof (sign_cases self rng key sk plus w f Hself V Hsk) as H. rewrite Hsign in H.
  destruct H as (_ & key_images & l & bs & bp & res0 & Hs & (x & res & M & Htx & Hres)).
  assert (Hl : length key_images = length (inputs self)) by (symmetry; exact (list.Forall2_length _ _ _ (sg_key_images _ _ _ _ _ _ _ _ Hs))).
  destruct (unsigned_all self Hself plus w f V key_images Hl) as (Hsame & Hp & Hok & V' & _).
  destruct (with_key_images_spec self key_images Hl) as (_ & _ & Hkl & Hpair & _). unfold paired in Hpair. cbv zeta in M, Htx, Hres.
  set (self' := SignableTransactionWithKeyImages.intent (Signing.with_key_images self key_images)) in *.
  set (key_images' := SignableTransactionWithKeyImages.key_images (Signing.with_key_images self key_images)) in *.
  destruct (same_amounts self f self' Hsame Hp) as (_ & _ & Hfee & _).
  assert (Hki : Forall (is_array 32) key_images').
  { assert (Hz : Forall (fun y : OutputWithDecoys.t * CompressedPoint => is_array 32 (snd y)) (zip (inputs self') key_images')).
    { rewrite Hpair. pose proof (sg_key_images _ _ _ _ _ _ _ _ Hs) as Hf. clear -Hf DL. induction Hf as [|? ? ? ? (off & gen & _ & _ & ->) _ IH]; constructor; [apply ed_compress_array|exact IH]. }
    assert (He : map snd (zip (inputs self') key_images') = key_images') by (apply (snd_zip (inputs self') key_images'); lia).
    rewrite <- He. apply Forall_map. exact Hz. }
  pose proof (list.Forall2_length _ _ _ Hres) as Hrl.
  pose proof (weight_made self' Hok plus w f V' key_images' x (map fst res) (map (fun x : Clsag.t * Point => Point.compress (snd x)) res) M Hki Hkl) as Hw.
  destruct (weight_and_necessary_fee_all self' Hok (v_payment _ _ _ _ V') plus (v_type _ _ _ _ V')) as (w' & f' & Hwf & Hb & Hf0 & Hrate & Hlen);
    [pose proof (v_count _ _ _ _ V'); lia|].
  pose proof (v_fee _ _ _ _ V' unit) as Hv. rewrite Hwf in Hv. injection Hv as -> ->.
  pose proof (fee_enough self Hself plus w f V) as Hen. pose proof (v_weight _ _ _ _ V) as Hmax.
  assert (Hpaid : 0 <= fee_paid self f) by lia.
  pose proof (varint_bound (fee_paid self f) ltac:(unfold U; lia)) as Hvb. pose proof (ok_fee_rate _ Hself) as (Hpw & _). unfold U in Hpw.
  rewrite <- (same_fee_rate _ _ Hsame) in Hrate.
  exists (base_of self' plus + VarInt.varint_len (fee_paid self' f)), (fee_paid self' f). split; [|split; [|split; [|split]]].
  - rewrite Htx. apply Hw.
    + apply (clsags_sizes plus w f (inputs self')); [exact V|apply (ok_inputs _ Hok)|apply (v_inputs _ _ _ _ V')|exact Hres].
    + rewrite length_map. symmetry. exact Hrl.
    + apply Forall_map, Forall_true. intros y. apply ed_compress_array.
    + rewrite length_map. symmetry. exact Hrl.
  - rewrite Htx. eexists. split; [reflexivity|reflexivity].
  - rewrite Hfee. nia.
  - rewrite Hfee. lia.
  - intros Hc. rewrite Hfee. assert (fee_paid self f = f) as -> by (unfold fee_paid; rewrite Hc; reflexivity).
    assert (f < 2 ^ 64) by lia. specialize (Hlen H). nia.
Qed.

(** C11: An [Eventuality] never panics on a transaction. It matches the unsigned
    transaction made for any key images, and the transaction signed, though
    its inputs are in another order than the eventuality's; and what it matches
    isn't timelocked and has as many inputs as were intended. *)
Theorem eventuality_matches :
  (forall tx, no_panic (Eventuality.matches (E := SendError) (Eventuality.from self) tx)) /\
  (forall key_images tx, Signing.unsigned_transaction (E := SendError) self key_images = Ok (Some tx) ->
     Eventuality.matches (E := SendError) (Eventuality.from self) (Transaction.into_pruned tx) = Ok true) /\
  (forall rng key tx, scalar_ok key -> Signing.sign self rng key = Ok tx ->
     Eventuality.matches (E := SendError) (Eventuality.from self) (Transaction.into_pruned tx) = Ok true) /\
  (forall tx, Eventuality.matches (E := SendError) (Eventuality.from self) tx = Ok true ->
     TransactionPrefix.additional_timelock (Transaction.prefix tx) = Timelock.None /\
     length (TransactionPrefix.inputs (Transaction.prefix tx)) = length (inputs self)).
Proof.
  destruct is_valid as (plus & w & f & V). split; [|split; [|split]].
  - intros tx. destruct (matches_cases self plus w f tx Hself V) as (b & Hb & _). rewrite Hb. exact I.
  - intros key_images tx Htx. destruct (decide (length key_images = length (inputs self))) as [Hl|Hl].
    2:{ exfalso. unfold Signing.unsigned_transaction in Htx. destruct (Nat.eqb_spec (length (inputs self)) (length key_images)) as [He|He]; [congruence|discriminate]. }
    destruct (unsigned_all self Hself plus w f V key_images Hl) as (Hs & Hp & Hok & V' & x & M & _ & Hx). rewrite Hx in Htx. injection Htx as <-.
    destruct (with_key_images_spec self key_images Hl) as (_ & _ & Hkl & _). rewrite <- (same_inputs _ _ Hs) in Hkl.
    apply (matches_made self _ plus w f _ x [] [] Hs Hp Hself V Hkl M).
  - intros rng key tx Hkey Hsign. destruct (scalar_into_all _ Hkey) as (sk & Hsk & _).
    pose proof (sign_cases self rng key sk plus w f Hself V Hsk) as H. rewrite Hsign in H.
    destruct H as (_ & key_images & l & bs & bp & res0 & Hs & (x & res & M & -> & _)). cbv zeta in M |- *.
    assert (Hl : length key_images = length (inputs self)) by (symmetry; exact (list.Forall2_length _ _ _ (sg_key_images _ _ _ _ _ _ _ _ Hs))).
    destruct (with_key_images_spec self key_images Hl) as (Hsame & Hp & Hkl & _). rewrite <- (same_inputs _ _ Hsame) in Hkl.
    apply (matches_made self _ plus w f _ x _ _ Hsame Hp Hself V Hkl M).
  - intros tx Htx. destruct (matches_cases self plus w f tx Hself V) as (b & Hb & Hspec). rewrite Hb in Htx. injection Htx as ->.
    destruct (Hspec eq_refl) as (Ht & key_images & x & Hki & Hl & _). split; [exact Ht|].
    apply mapM_Some_1, list.Forall2_length in Hki. lia.
Qed.

(** C10: What an [Eventuality] matches is received: the scanner of any payment's
    recipient, or of the change's, finds its output, unless the output's key is
    the identity; and when the transaction has no additional keys, with the
    amount of the payment, or what's left after the payments and the fee. *)
Theorem matched_is_received scanner tx i p sub first tx_hash :
  scalar_ok (ViewPair.view_key (InternalScanner.pair scanner)) -> ed_is_torsion_free (ViewPair.spend (InternalScanner.pair scanner)) = true ->
  Eventuality.matches (E := SendError) (Eventuality.from self) tx = Ok true ->
  payments self !! i = Some p -> receives scanner sub p -> first + len (payments self) <= 2 ^ 64 ->
  (forall output, TransactionPrefix.outputs (Transaction.prefix tx) !! i = Some output -> Output.key output <> CompressedPoint.IDENTITY) ->
  exists outputs output fee, InternalScanner.scan_transaction scanner first tx_hash tx = Ok outputs /\ output ∈ outputs /\
    WalletOutput.absolute_id output = AbsoluteId.mk tx_hash (Z.of_nat i) /\
    necessary_fee (E := SendError) self = Ok fee /\
    (should_use_additional_keys self = false ->
     Commitment.amount (OutputData.commitment (WalletOutput.data output)) =
       match p with Payment _ amount => amount | ChangePayment _ => total_in self - (total_out self + fee) end /\
     Metadata.subaddress (WalletOutput.metadata output) = sub).
Proof.
  intros Hview Hfree Hm Hi Hrec Hfirst Hne. destruct is_valid as (plus & w & f & V).
  destruct (matches_cases self plus w f tx Hself V) as (b & Hb & Hspec). rewrite Hb in Hm. injection Hm as ->.
  destruct (Hspec eq_refl) as (_ & key_images & x & Hki & Hl & M & prefix & proofs & -> & Ho & Hx & Hc & He).
  assert (Hcar : carries self (V2 (P := Pruned) prefix (Some proofs)) key_images x).
  { exists prefix, proofs. split_and!; auto. cbn [Transaction.prefix] in Hki.
    rewrite (inputs_uniqueness _ _ Hki), (inputs_uniqueness _ _ (prefix_key_images self key_images Hl)). reflexivity. }
  destruct (scan_received scanner Hview Hfree self Hself plus w f V _ key_images x i p sub first tx_hash Hcar M Hi Hrec Hfirst Hne)
    as (ws & wo & Hs & Hin & Hid & Ham).
  exists ws, wo, f. split; [exact Hs|]. split; [exact Hin|]. split; [exact Hid|]. split; [apply (necessary_fee_all self Hself plus w f V)|exact Ham].
Qed.
End Self.

(** C17: What's valid is written without a panic, and [read] yields it back and
    leaves what follows. [read] doesn't panic on any bytes, and what it yields
    is valid and is written as the bytes read: nothing has two encodings. *)
Theorem signable_roundtrip :
  (forall self, signable_ok self -> validate self = Ok tt ->
     exists bs, write (E := io_error) self = Ok bs /\ is_bytes bs /\ forall rest, read (bs ++ rest) = (Ok self, rest)) /\
  (forall bs, is_bytes bs ->
     match read bs with
     | (Ok self, rest) => signable_ok self /\ validate self = Ok tt /\ exists enc, write (E := io_error) self = Ok enc /\ bs = enc ++ rest
     | (Err _, _) => True
     | (Panic, _) => False
     end).
Proof.
  split.
  - intros self Hok Hv. exists (encode self). split; [apply write_all, (ok_payments _ Hok)|].
    destruct (proj1 (validate_accepts self Hok) Hv) as (plus & w & f & V).
    split; [exact (codec_bytes (r := read_fields) _ (valid_encodable self plus w f Hok V))|]. intros rest. apply read_encode; assumption.
  - intros bs Hb. pose proof (read_cases bs Hb) as H. destruct (read bs) as [[self|e|] rest]; [|exact I|exact H].
    destruct H as (-> & Hok & Hv). split; [exact Hok|]. split; [exact Hv|]. exists (encode self). split; [apply write_all, (ok_payments _ Hok)|reflexivity].
Qed.
End Theorems.

(** ** Witnesses *)

Section Witness.
Import Model.

#[local] Existing Instance BpTheorems.nonzero_hash.
#[local] Existing Instance BpTheorems.example_primitives.
#[local] Existing Instance BpTheorems.example_setup.

Lemma nonzero_hash_laws : KeccakLaws BpTheorems.nonzero_hash.
Proof. intros bs. apply to_le_array. Qed.

#[local] Instance example_rand : Rand := { chacha20 seed n := repeat (Z.of_nat n mod 256) 64; shuffle A seed l := rev l }.

Lemma example_rand_laws : RandLaws example_rand.
Proof. intros A seed l. cbn. symmetry. apply Permutation_rev. Qed.

Definition example_key : Scalar := Scalar.from (sc_from_u64 5).
Definition example_input_key : Point := ed_mul (sc_from_u64 8) ED25519_BASEPOINT_POINT.
Definition example_commitment : Commitment.t := Commitment.new (Scalar.from sc_ONE) (10 ^ 12).
Definition example_member : Point * Point :=
  (example_input_key, match Commitment.commit (E := unit) example_commitment with Ok p => p | _ => ed_identity end).
Definition example_input : OutputWithDecoys.t :=
  OutputWithDecoys.mk (OutputData.mk example_input_key (Scalar.from (sc_from_u64 3)) example_commitment)
    (Decoys.mk (repeat 1 16) 0 (repeat example_member 16)).
Definition example_pair : ViewPair.t := ViewPair.mk ED25519_BASEPOINT_POINT (Scalar.from sc_ONE).
Definition example_address : Address.t :=
  match ViewPair.legacy_address (E := ScanError) example_pair Mainnet with Ok a => a | _ => Address.new Mainnet Legacy ed_identity ed_identity end.

(** A payment and change, of an input *)
Definition example : t :=
  mk RctType.ClsagBulletproofPlus (repeat 7 32) [example_input] [Payment example_address 1000; ChangePayment (Standard example_pair None)] [[1; 2; 3]] (FeeRate.mk 20 1).

Lemma example_input_ok : output_with_decoys_ok example_input.
Proof.
  split; [split; [apply (scalar_from_ok (DL := dalek_laws))|split; [apply (scalar_from_ok (DL := dalek_laws))|unfold U; cbn; lia]]|].
  split; [apply list.Forall_forall; intros x Hx; apply list_elem_of_In, repeat_spec in Hx as ->; unfold U; lia|].
  decide_now.
Qed.

Lemma intent_ok : signable_ok example.
Proof.
  split.
  - decide_now.
  - constructor; [exact example_input_ok|constructor].
  - constructor; [split; [exact I|unfold U; cbn; lia]|]. constructor; [|constructor]. split; [|exact I].
    split; [apply (scalar_from_ok (DL := dalek_laws))|]. reflexivity.
  - repeat constructor; unfold U; lia.
  - unfold fee_rate_ok, U. cbn. lia.
  - repeat split; reflexivity.
Qed.

Lemma example_valid : validate example = Ok tt.
Proof. vm_compute. reflexivity. Qed.

Lemma new_correct_witness : exists self,
  new RctType.ClsagBulletproofPlus (repeat 7 32) [example_input] [(example_address, 1000)] (Change.new example_pair None) [[1; 2; 3]] (FeeRate.mk 20 1) = Ok self /\
  validate self = Ok tt /\ payments self ≡ₚ payments example.
Proof.
  pose proof (new_correct (DL := dalek_laws) (KL := nonzero_hash_laws) RctType.ClsagBulletproofPlus (repeat 7 32) [example_input] [(example_address, 1000)]
    (Change.new example_pair None) [[1; 2; 3]] (FeeRate.mk 20 1) example_rand_laws intent_ok) as H.
  destruct (new _ _ _ _ _ _ _) as [self|e|]; [|exfalso; change (validate example = Err e) in H; rewrite example_valid in H; discriminate|contradiction].
  destruct H as (Hs & _ & _ & Hv). exists self. split; [reflexivity|]. split; [exact Hv|]. symmetry. exact (same_payments _ _ Hs).
Defined.

Lemma validate_decides_witness : exists plus w f, valid example plus w f.
Proof. apply (validate_decides (DL := dalek_laws) (KL := nonzero_hash_laws) example intent_ok), example_valid. Defined.

Definition example_key_images : list CompressedPoint := [repeat 9 32].

Lemma unsigned_transaction_correct_witness : exists tx opens,
  Signing.unsigned_transaction (E := SendError) example example_key_images = Ok (Some tx) /\ intended example example_key_images tx opens.
Proof.
  pose proof (unsigned_transaction_correct (DL := dalek_laws) (KL := nonzero_hash_laws) example intent_ok example_valid example_key_images) as H.
  destruct (Signing.unsigned_transaction example example_key_images) as [[tx|]|e|]; [|contradiction H; reflexivity|contradiction..].
  destruct H as (_ & opens & H). exists tx, opens. split; [reflexivity|exact H].
Defined.

Definition example_sk : DScalar := sc_from_u64 5.

Lemma example_owned : Forall (owned example_sk) (inputs example).
Proof.
  constructor; [|constructor]. exists (sc_from_u64 3). split; [apply (scalar_into_from (DL := dalek_laws))|]. vm_compute. reflexivity.
Qed.

Lemma example_ring : Forall ring_committed (inputs example) /\ Forall ring_keyed (inputs example).
Proof.
  split; (constructor; [|constructor]; exists example_member; split; [vm_compute; reflexivity|]); vm_compute; reflexivity.
Qed.

Lemma sign_correct_witness : exists tx key_images l base bulletproof res,
  Signing.sign example Clsag.example_rng example_key = Ok tx /\ signed example example_sk key_images l base bulletproof res tx.
Proof.
  destruct (sign_correct (DL := dalek_laws) (KL := nonzero_hash_laws) example intent_ok example_valid Clsag.example_rng example_key
    (scalar_from_ok (DL := dalek_laws) _)) as (sk & Hsk & H).
  unfold example_key in Hsk. rewrite (scalar_into_from (DL := dalek_laws)) in Hsk. injection Hsk as <-.
  pose proof example_owned as Ho. destruct example_ring as [Hc Hk]. unfold example_sk in Ho.
  destruct (Signing.sign example Clsag.example_rng example_key) as [tx|e|]; [|exfalso|contradiction].
  - destruct H as (_ & key_images & l & bs & bp & res & H). exists tx, key_images, l, bs, bp, res. split; [reflexivity|exact H].
  - destruct e as [| | | | | | | | | | | | | |[]]; try exact H; tauto.
Defined.

Lemma intent_signs : exists tx, Signing.sign example Clsag.example_rng example_key = Ok tx.
Proof.
  destruct (proj1 (validate_accepts (DL := dalek_laws) (KL := nonzero_hash_laws) example intent_ok) example_valid) as (plus & w & f & V).
  pose proof (sign_cases (DL := dalek_laws) (KL := nonzero_hash_laws) example Clsag.example_rng example_key example_sk plus w f intent_ok V
    (fun E => scalar_into_from (DL := dalek_laws) _)) as H.
  pose proof example_owned as Ho. destruct example_ring as [Hc Hk].
  destruct (Signing.sign example Clsag.example_rng example_key) as [tx|e|]; [eauto|exfalso|contradiction].
  destruct e as [| | | | | | | | | | | | | |[]]; try exact H; tauto.
Qed.

Lemma signed_pays_fee_witness : exists tx weight fee, Signing.sign example Clsag.example_rng example_key = Ok tx /\
  Transaction.weight (E := SendError) tx = Ok weight /\ 20 * weight <= fee.
Proof.
  destruct intent_signs as (tx & Htx).
  destruct (signed_pays_fee (DL := dalek_laws) (KL := nonzero_hash_laws) example intent_ok example_valid Clsag.example_rng example_key tx
    (scalar_from_ok (DL := dalek_laws) _) Htx) as (weight & fee & Hw & _ & _ & _ & Hc).
  exists tx, weight, fee. split; [exact Htx|]. split; [exact Hw|]. exact (proj1 (Hc eq_refl)).
Defined.

Lemma eventuality_matches_witness : exists tx, Signing.sign example Clsag.example_rng example_key = Ok tx /\
  Eventuality.matches (E := SendError) (Eventuality.from example) (Transaction.into_pruned tx) = Ok true.
Proof.
  destruct intent_signs as (tx & Htx). exists tx. split; [exact Htx|].
  destruct (eventuality_matches (DL := dalek_laws) (KL := nonzero_hash_laws) example intent_ok example_valid) as (_ & _ & H & _).
  exact (H _ _ tx (scalar_from_ok (DL := dalek_laws) _) Htx).
Defined.

Definition example_scanner : InternalScanner.t := InternalScanner.new example_pair false.

Lemma example_receives : receives example_scanner None (Payment example_address 1000).
Proof. split; [apply lookup_singleton_eq|]. exists Mainnet, None. reflexivity. Qed.

(** No output's key is the identity. *)
Lemma example_outputs_keys :
  match outputs (E := unit) example example_key_images with
  | Ok l => forallb (fun o => negb (bytes_eqb (Output.key o) CompressedPoint.IDENTITY)) l
  | _ => false
  end = true.
Proof. vm_compute. reflexivity. Qed.

Lemma example_matched : exists tx, Eventuality.matches (E := SendError) (Eventuality.from example) tx = Ok true /\
  forall output, TransactionPrefix.outputs (Transaction.prefix tx) !! 0%nat = Some output -> Output.key output <> CompressedPoint.IDENTITY.
Proof.
  destruct (proj1 (validate_accepts (DL := dalek_laws) (KL := nonzero_hash_laws) example intent_ok) example_valid) as (plus & w & f & V).
  destruct (transaction_all (DL := dalek_laws) (KL := nonzero_hash_laws) example intent_ok plus w f V example_key_images) as (x & M & _).
  exists (Transaction.into_pruned (unsigned example f example_key_images x [] [])). split.
  - apply (matches_made (DL := dalek_laws) (KL := nonzero_hash_laws) example example plus w f); auto; [split; reflexivity|exact intent_ok].
  - intros output Ho. change (p_outputs x !! 0%nat = Some output) in Ho. pose proof example_outputs_keys as H.
    rewrite (made_outputs _ _ _ _ _ M) in H. rewrite forallb_forall in H. specialize (H output).
    intros He. rewrite He in H. rewrite (proj2 (bytes_eqb_spec _ _) eq_refl) in H. cbn in H.
    discriminate H. apply list_elem_of_In, list_elem_of_lookup. exists 0%nat. exact Ho.
Qed.

Lemma matched_is_received_witness : exists tx outputs output,
  InternalScanner.scan_transaction example_scanner 7 (repeat 2 32) tx = Ok outputs /\ output ∈ outputs /\
  Commitment.amount (OutputData.commitment (WalletOutput.data output)) = 1000.
Proof.
  destruct example_matched as (tx & Hm & Hk).
  destruct (matched_is_received (DL := dalek_laws) (KL := nonzero_hash_laws) example intent_ok example_valid example_scanner tx 0 _ None 7 (repeat 2 32)
    (scalar_from_ok (DL := dalek_laws) _) eq_refl Hm eq_refl example_receives) as (ws & wo & fee & Hs & Hin & _ & _ & Ham);
    [vm_compute; discriminate|exact Hk|].
  exists tx, ws, wo. split; [exact Hs|]. split; [exact Hin|]. exact (proj1 (Ham eq_refl)).
Defined.

Lemma signable_roundtrip_witness : exists bs, write (E := io_error) example = Ok bs /\ read bs = (Ok example, []).
Proof.
  destruct (signable_roundtrip (DL := dalek_laws) (KL := nonzero_hash_laws)) as [H _].
  destruct (H example intent_ok example_valid) as (bs & Hw & _ & Hr). exists bs. split; [exact Hw|]. rewrite <- (app_nil_r bs) at 1. apply Hr.
Defined.
End Witness.
