(* ===== verification/SendMultisig.v ===== *)
(** [wallet/src/send/multisig.rs]: the machines which sign a transaction with
    [modular-frost], a CLSAG instance per input.  Threshold keys ([dkg]) and the
    machines for an algorithm ([modular-frost]) are parameters, their maps from
    participants finite maps. *)

From Stdlib Require Import ZArith Lia.
From stdpp Require Import base list strings numbers gmap.
From S2P Require Import Prelude Dalek MoneroIo Ed25519 Clsag ClsagMultisig RingCT Transaction Interface.
From S2P Require Import WalletOutput DecoySelection Send.

Import ClsagMultisig.

Class Machines {D : Dalek} {T : Transcripts} {F : Frost} := {
  participant_eq_dec :: EqDecision Participant;
  participant_countable :: Countable Participant;
  participant_lt : Participant -> Participant -> bool;
  InvalidSigningSet : string -> FrostError;
  MissingParticipant : Participant -> FrostError;
  (** [ThresholdKeys] *)
  ThresholdKeys : Type;
  params_i : ThresholdKeys -> Participant;
  keys_scale : DScalar -> ThresholdKeys -> option ThresholdKeys;
  keys_offset : DScalar -> ThresholdKeys -> ThresholdKeys;
  keys_group_key : ThresholdKeys -> EdwardsPoint;
  current_scalar : ThresholdKeys -> DScalar;
  current_offset : ThresholdKeys -> DScalar;
  keys_view : ThresholdKeys -> list Participant -> option ThresholdView;
  (** [Preprocess] and [SignatureShare] *)
  Preprocess : Type;
  preprocess_addendum_of : Preprocess -> ClsagAddendum;
  preprocess_write : Preprocess -> bytes;
  SignatureShare : Type;
  share_write : SignatureShare -> bytes;
  (** [AlgorithmMachine], [AlgorithmSignMachine] and [AlgorithmSignatureMachine];
      the buffer which the mask was sent with is passed to [sign]. *)
  AlgorithmMachine : Type;
  AlgorithmSignMachine : Type;
  AlgorithmSignatureMachine : Type;
  machine_new : ClsagMultisig.t -> ThresholdKeys -> AlgorithmMachine;
  machine_preprocess : Clsag.rng -> AlgorithmMachine -> AlgorithmSignMachine * Preprocess * Clsag.rng;
  machine_read_preprocess : AlgorithmSignMachine -> io_reader Preprocess;
  machine_sign : AlgorithmSignMachine -> gmap Participant Preprocess -> bytes -> channel ->
    outcome FrostError (AlgorithmSignatureMachine * SignatureShare);
  machine_read_share : AlgorithmSignatureMachine -> io_reader SignatureShare;
  machine_complete : AlgorithmSignatureMachine -> gmap Participant SignatureShare -> outcome FrostError (Clsag.t * EdwardsPoint)
}.

(** A key image's generator, and the scalar and offset of the key from the
    spend key *)
Abbreviation lincomb := (EdwardsPoint * (DScalar * DScalar))%type.

(** A reader per element, in order *)
Fixpoint read_each {A B} (f : A -> io_reader B) (l : list A) : io_reader (list B) :=
  match l with
  | [] => rret []
  | a :: l =>
      let* b := f a in
      let* bs := read_each f l in
      rret (b :: bs)
  end.

Module TransactionMachine.
Section Ops.
Context {D : Dalek} {K : Keccak} {R : Rand} {T : Transcripts} {F : Frost} {M : Machines}.

Record t := mk {
  signable : SignableTransaction.t;
  keys : ThresholdKeys;
  key_image_generators_and_lincombs : list lincomb;
  clsags : list (channel * AlgorithmMachine)
}.

(** The body of [multisig]'s loop *)
Definition multisig_input (keys : ThresholdKeys) (input : OutputWithDecoys.t) : outcome SendError (lincomb * (channel * AlgorithmMachine)) :=
  let key_scalar := sc_ONE in
  let key_offset := SignableTransaction.input_key_offset input in
  let? scaled := expect (keys_scale key_scalar keys) in
  let? key_offset := Scalar.into key_offset in
  let offset := keys_offset key_offset scaled in
  if negb (ed_eqb (keys_group_key offset) (SignableTransaction.input_key input)) then Err WrongPrivateKey
  else
    let? context :=
      omap_err SendClsagError (ClsagContext.new (OutputWithDecoys.decoys input) (SignableTransaction.input_commitment input)) in
    let? (clsag, clsag_mask_send) := ClsagMultisig.new (transcript_new (bstr "Monero Multisignature Transaction")) context in
    Ok ((key_image_generator clsag, (current_scalar offset, current_offset offset)), (clsag_mask_send, machine_new clsag offset)).

(** [SignableTransaction::multisig] *)
Definition multisig (self : SignableTransaction.t) (keys : ThresholdKeys) : outcome SendError t :=
  let? clsags := each (multisig_input keys) (SignableTransaction.inputs self) in
  Ok (mk self keys (map fst clsags) (map snd clsags)).
End Ops.
End TransactionMachine.

Module TransactionSignMachine.
Section Ops.
Context {D : Dalek} {K : Keccak} {R : Rand} {T : Transcripts} {F : Frost} {M : Machines}.

Record t := mk {
  signable : SignableTransaction.t;
  keys : ThresholdKeys;
  key_image_generators_and_lincombs : list lincomb;
  clsags : list (channel * AlgorithmSignMachine);
  our_preprocess : list Preprocess
}.

(** [TransactionMachine::preprocess] *)
Fixpoint preprocess_loop (rng : Clsag.rng) (clsags : list (channel * AlgorithmMachine))
  : list (channel * AlgorithmSignMachine) * list Preprocess * Clsag.rng :=
  match clsags with
  | [] => ([], [], rng)
  | (clsag_mask_send, clsag) :: clsags =>
      let '(clsag, preprocess, rng) := machine_preprocess rng clsag in
      let '(clsags, preprocesses, rng) := preprocess_loop rng clsags in
      ((clsag_mask_send, clsag) :: clsags, preprocess :: preprocesses, rng)
  end.

Definition preprocess (rng : Clsag.rng) (self : TransactionMachine.t) : t * list Preprocess * Clsag.rng :=
  let '(clsags, preprocesses, rng) := preprocess_loop rng (TransactionMachine.clsags self) in
  (mk (TransactionMachine.signable self) (TransactionMachine.keys self) (TransactionMachine.key_image_generators_and_lincombs self)
     clsags preprocesses, preprocesses, rng).

(** [TransactionPreprocess] *)
Definition write_preprocess (self : list Preprocess) : bytes := write_raw_vec preprocess_write self.
Definition read_preprocess (self : t) : io_reader (list Preprocess) :=
  read_each (fun clsag => machine_read_preprocess (snd clsag)) (clsags self).

(** The preprocess of a participant for the CLSAG [c], with its part of the key
    image *)
Definition participant_preprocess (self : t) (view : ThresholdView) (commitments : gmap Participant (list Preprocess)) (c : nat)
  (l : Participant) : outcome FrostError (EdwardsPoint * (Participant * Preprocess)) :=
  let? preprocess :=
    if decide (l = params_i (keys self)) then index (our_preprocess self) c
    else let? preprocesses := ok_or (commitments !! l) (MissingParticipant l) in index preprocesses c in
  let? factor :=
    ok_or (interpolation_factor view l)
      (InternalError "view successfully formed with participant without an interpolation factor") in
  Ok (ed_mul factor (key_image_share (preprocess_addendum_of preprocess)), (l, preprocess)).

(** Those of every participant: the sum for the key image, and the map *)
Definition clsag_commitments (self : t) (view : ThresholdView) (commitments : gmap Participant (list Preprocess)) (included : list Participant)
  (c : nat) : outcome FrostError (EdwardsPoint * gmap Participant Preprocess) :=
  let? xs := each (participant_preprocess self view commitments c) included in
  Ok (foldl ed_add ed_identity (map fst xs), list_to_map (map snd xs)).

(** A key image, of the sum and the linear combination *)
Definition key_image_of (x : EdwardsPoint * lincomb) : CompressedPoint :=
  let '(key_image, (generator, (scalar, offset))) := x in
  ed_compress (ed_add (ed_mul scalar key_image) (ed_mul offset generator)).

(** The loop which sends the masks; the last is what the sums need to balance. *)
Fixpoint send_masks {A} (rng : Clsag.rng) (output_masks sum_pseudo_outs : DScalar)
  (clsags : list ((channel * AlgorithmSignMachine) * A)) : outcome FrostError (list ((channel * AlgorithmSignMachine) * A)) :=
  match clsags with
  | [] => Ok []
  | ((clsag_mask_send, clsag), commitments) :: clsags =>
      let (mask, rng) := Clsag.random rng in
      let? mask := Scalar.into mask in
      let '(mask, sum_pseudo_outs) :=
        match clsags with
        | [] => (sc_sub output_masks sum_pseudo_outs, sum_pseudo_outs)
        | _ :: _ => (mask, sc_add sum_pseudo_outs mask)
        end in
      let? to_sign := send_masks rng output_masks sum_pseudo_outs clsags in
      Ok (((send mask clsag_mask_send, clsag), commitments) :: to_sign)
  end.

Definition MULTISIG_PSEUDO_OUT_MASKS : bytes := bstr "multisig_pseudo_out_masks".

Definition sign_clsag (msg : bytes) (x : (channel * AlgorithmSignMachine) * gmap Participant Preprocess)
  : outcome FrostError (AlgorithmSignatureMachine * SignatureShare) :=
  let '((buf, clsag), commitments) := x in machine_sign clsag commitments msg buf.

(** Who signs: the participants whose preprocesses were received, and us *)
Definition included_of (self : t) (commitments : gmap Participant (list Preprocess)) : list Participant :=
  sort_by participant_lt (map fst (map_to_list commitments) ++ [params_i (keys self)]).

(** [sign]; the result is a [TransactionSignatureMachine] and the shares. *)
Definition sign (self : t) (commitments : gmap Participant (list Preprocess)) (msg : bytes)
  : outcome FrostError ((Transaction NotPruned * list AlgorithmSignatureMachine) * list SignatureShare) :=
  if negb (length msg =? 0)%nat then Panic
  else if existsb (fun x => negb (length (snd x) =? length (clsags self))%nat) (map_to_list commitments)
  then Err (InternalError "preprocesses from another instance of the signing protocol were passed in")
  else
    let commitments := delete (params_i (keys self)) commitments in
    let included := included_of self commitments in
    let? view := ok_or (keys_view (keys self) included) (InvalidSigningSet "couldn't form an interpolated view of the key") in
    let? xs := each (clsag_commitments self view commitments included) (seq 0 (length (clsags self))) in
    let key_images := map key_image_of (zip (map fst xs) (key_image_generators_and_lincombs self)) in
    let commitments := map (fun x => delete (params_i (keys self)) (snd x)) xs in
    let clsags := zip key_images (zip (clsags self) commitments) in
    let clsags := map snd (sort_by (fun x y => key_image_lt (fst x) (fst y)) clsags) in
    let tx := Signing.with_key_images (signable self) key_images in
    let intent := SignableTransactionWithKeyImages.intent tx in
    let? output_masks := SignableTransaction.sum_output_masks intent (SignableTransactionWithKeyImages.key_images tx) in
    let? rng := SignableTransaction.seeded_rng intent MULTISIG_PSEUDO_OUT_MASKS in
    let? output_masks := Scalar.into output_masks in
    let? to_sign := send_masks (chacha20 rng) output_masks sc_ZERO clsags in
    let? tx := SignableTransactionWithKeyImages.transaction_without_signatures tx in
    let? msg := Transaction.signature_hash tx in
    let? msg := expect msg in
    let? signed := each (sign_clsag msg) to_sign in
    Ok ((tx, map fst signed), map snd signed).
End Ops.
End TransactionSignMachine.

Module TransactionSignatureMachine.
Section Ops.
Context {D : Dalek} {K : Keccak} {T : Transcripts} {F : Frost} {M : Machines}.

Definition t : Type := Transaction NotPruned * list AlgorithmSignatureMachine.

(** [TransactionSignatureShare] *)
Definition write_share (self : list SignatureShare) : bytes := write_raw_vec share_write self.
Definition read_share (self : t) : io_reader (list SignatureShare) := read_each machine_read_share (snd self).

(** The shares for the CLSAG [c] *)
Definition shares_of {E} (shares : gmap Participant (list SignatureShare)) (c : nat) : outcome E (gmap Participant SignatureShare) :=
  let? xs := each (fun x => let? share := index (snd x) c in Ok (fst x, share)) (map_to_list shares) in
  Ok (list_to_map xs).

Definition complete_clsag (shares : gmap Participant (list SignatureShare)) (x : nat * AlgorithmSignatureMachine)
  : outcome FrostError (Clsag.t * EdwardsPoint) :=
  let (c, clsag) := x in
  let? shares := shares_of shares c in
  machine_complete clsag shares.

Definition complete (self : t) (shares : gmap Participant (list SignatureShare)) : outcome FrostError (Transaction NotPruned) :=
  let (tx, signature_machines) := self in
  if existsb (fun x => negb (length (snd x) =? length signature_machines)%nat) (map_to_list shares)
  then Err (InternalError "signature shares from another instance of the signing protocol were passed in")
  else
    match tx with
    | V2 prefix (Some (mk_RctProofs base (ClsagProofs clsags pseudo_outs bulletproof))) =>
        let? res := each (complete_clsag shares) (enumerate signature_machines) in
        Ok (V2 (P := NotPruned) prefix
              (Some (mk_RctProofs base (ClsagProofs (clsags ++ map fst res) (pseudo_outs ++ map (fun x => ed_compress (snd x)) res) bulletproof))))
    | _ => Panic
    end.
End Ops.
End TransactionSignatureMachine.
