(* ===== verification/SendMultisigProofs.v ===== *)
(** The machines of [wallet/src/send/multisig.rs], over what [modular-frost]
    documents: whatever the other participants send, a transaction which is
    completed is the one intended, its signatures verify and its commitments
    balance; and nothing panics. *)

From Stdlib Require Import ZArith Lia Sorted.
From stdpp Require Import base list strings numbers sorting gmap.
From S2P Require Import Prelude Dalek MoneroIo Ed25519 Clsag ClsagSign ClsagMultisig Bulletproofs BpCore BpOriginal BpOriginalProofs BpWip BpTheorems ClsagMultisigProofs RingCT Transaction Interface.
From S2P Require Import Address Extra WalletOutput ViewPair DecoySelection Send SendKeys SendNew SendTx SendSign SendMultisig SendTheorems.

Import SignableTransaction ClsagMultisig.

(** ** What [modular-frost] and [dkg] do *)

Section Frost.
Context {D : Dalek} {K : Keccak} {R : Rand} {T : Transcripts} {F : Frost}.

(** The addenda are processed in order; the machine may append to the
    algorithm's transcript before each. *)
Inductive processes (view : ThresholdView) : list (Participant * ClsagAddendum) -> t * channel -> outcome FrostError (t * channel) -> Prop :=
| processes_none s : processes view [] s (Ok s)
| processes_transcript l self buf transcript_of r :
    processes view l (with_transcript self transcript_of, buf) r -> processes view l (self, buf) r
| processes_next x l self buf s r : process_addendum view (fst x) (snd x) self buf = (Ok tt, s) ->
    processes view l s r -> processes view (x :: l) (self, buf) r
| processes_err x l self buf e s : process_addendum view (fst x) (snd x) self buf = (Err e, s) -> processes view (x :: l) (self, buf) (Err e)
| processes_panic x l self buf s : process_addendum view (fst x) (snd x) self buf = (Panic, s) -> processes view (x :: l) (self, buf) Panic.

(** What completing a signature is to an instance which has signed: either the
    sum of some shares verifies, or each share is checked. *)
Definition completes (view : ThresholdView) (included : list Participant) (self : t) (r : outcome FrostError (Clsag.t * EdwardsPoint)) : Prop :=
  match r with
  | Ok signature => exists sum, verify self sum = Ok (Some signature)
  | Err _ => True
  | Panic => (exists sum, verify self sum = Panic) \/
      exists l rG rH share, l ∈ included /\ verify_share self (verification_share view l) [[rG; rH]] share = Panic
  end.

Context {M : Machines}.

(** Our preprocess, or the one a participant sent *)
Definition preprocess_by (i : Participant) (own : Preprocess) (preprocesses : gmap Participant Preprocess) (l : Participant) : Preprocess :=
  if decide (l = i) then own else default own (preprocesses !! l).

(** Signing is to view the key as the participants share it, process every
    participant's addendum, and sign with the nonces' sums. *)
Definition machine_signs (alg : t) (keys : ThresholdKeys) (own : Preprocess) (preprocesses : gmap Participant Preprocess) (msg : bytes) (buf : channel)
  (result : outcome FrostError (AlgorithmSignatureMachine * SignatureShare)) : Prop :=
  exists included view r,
    included ≡ₚ map fst (map_to_list preprocesses) ++ [params_i keys] /\ keys_view keys included = Some view /\
    processes view (map (fun l => (l, preprocess_addendum_of (preprocess_by (params_i keys) own preprocesses l))) included) (alg, buf) r /\
    match r with
    | Ok (self, _) => exists transcript_of A AH nonce,
        match sign_share view [[A; AH]] [nonce] msg (with_transcript self transcript_of) with
        | Ok (_, self') => exists machine share, result = Ok (machine, share) /\
            forall shares, completes view included self' (machine_complete machine shares)
        | _ => result = Panic
        end
    | Err _ => False
    | Panic => result = Panic
    end.

Class MachinesLaws : Prop := {
  keys_scale_some : forall s keys, s <> sc_ZERO -> is_Some (keys_scale s keys);
  (** Neither a tweak nor the order of the participants changes the factors. *)
  tweak_params : forall s o keys scaled, keys_scale s keys = Some scaled -> params_i (keys_offset o scaled) = params_i keys;
  tweak_factors : forall s o keys scaled included included' view view', keys_scale s keys = Some scaled -> included ≡ₚ included' ->
    keys_view keys included = Some view -> keys_view (keys_offset o scaled) included' = Some view' ->
    forall l, interpolation_factor view' l = interpolation_factor view l;
  view_of_keys : forall keys included view, keys_view keys included = Some view ->
    view_scalar view = current_scalar keys /\ view_offset view = current_offset keys /\ group_key view = keys_group_key keys /\
    forall l, l ∈ included -> is_Some (interpolation_factor view l);
  machine_sign_law : forall alg keys rng machine own rng' preprocesses msg buf,
    machine_preprocess rng (machine_new alg keys) = (machine, own, rng') -> params_i keys ∉ dom preprocesses ->
    (exists e, machine_sign machine preprocesses msg buf = Err e) \/
    machine_signs alg keys own preprocesses msg buf (machine_sign machine preprocesses msg buf)
}.
End Frost.

(** ** One instance *)

Section Instance.
Context {D : Dalek} {DL : DalekLaws D} {K : Keccak} {PR : Primitives} {ST : Setup} {R : Rand} {T : Transcripts} {F : Frost} {M : Machines} {ML : MachinesLaws}.

Definition factor_of (view : ThresholdView) (l : Participant) : DScalar := default sc_ZERO (interpolation_factor view l).

(** The part of the key image the addenda interpolate to *)
Definition interpolated (view : ThresholdView) (addenda : list (Participant * ClsagAddendum)) : EdwardsPoint :=
  point_sum (map (fun x => ed_mul (factor_of view (fst x)) (key_image_share (snd x))) addenda).

Lemma process_image view l a self buf self' buf' : process_addendum view l a self buf = (Ok tt, (self', buf')) ->
  key_image_generator self' = key_image_generator self /\ mask_recv self' = false /\
  image self' = ed_add (image self) (ed_add (ed_mul (view_scalar view) (ed_mul (factor_of view l) (key_image_share a)))
    (ed_mul (if mask_recv self then view_offset view else sc_ZERO) (key_image_generator self))) /\
  is_Some (key_image_shares self' !! ed_compress (verification_share view l)) /\
  forall x, is_Some (key_image_shares self !! x) -> is_Some (key_image_shares self' !! x).
Proof.
  unfold process_addendum. destruct (Decoys.signer_ring_members _); [|discriminate..]. destruct (negb _); [discriminate|].
  assert (Hc : forall o s b, (forall x, key_image_shares s !! x = key_image_shares self !! x) -> image s = image self -> key_image_generator s = key_image_generator self ->
    mask_recv s = false -> (let (r, s') := contribute view l a o s in (r, (s', b))) = (Ok tt, (self', buf')) ->
    key_image_generator self' = key_image_generator self /\ mask_recv self' = false /\
    image self' = ed_add (image self) (ed_add (ed_mul (view_scalar view) (ed_mul (factor_of view l) (key_image_share a))) (ed_mul o (key_image_generator self))) /\
    is_Some (key_image_shares self' !! ed_compress (verification_share view l)) /\
    forall x, is_Some (key_image_shares self !! x) -> is_Some (key_image_shares self' !! x)).
  { intros o s b Hs Hi Hg Hm. unfold contribute, factor_of. destruct (interpolation_factor view l) as [f|]; [|discriminate]. intros [= <- _]. cbn.
    rewrite Hi, Hg. split_and!; auto; [rewrite lookup_insert_eq; eauto|]. intros x Hx. rewrite <- Hs in Hx.
    destruct (decide (ed_compress (verification_share view l) = x)) as [->|Hne]; [rewrite lookup_insert_eq; eauto|rewrite lookup_insert_ne by exact Hne; exact Hx]. }
  unfold take_mask. destruct (mask_recv self) eqn:Hr.
  - destruct (context_transcript _ _); [|discriminate..]. unfold recv. destruct buf; [|discriminate]. apply Hc; reflexivity.
  - apply Hc; auto.
Qed.

Lemma processes_image view addenda s r : processes view addenda s r -> match r with
  | Ok (self', _) => key_image_generator self' = key_image_generator (fst s) /\ (addenda = [] -> mask_recv self' = mask_recv (fst s)) /\
      (addenda <> [] -> mask_recv self' = false) /\
      image self' = ed_add (image (fst s)) (ed_add (ed_mul (view_scalar view) (interpolated view addenda))
        (ed_mul (if (mask_recv (fst s) && negb (length addenda =? 0)%nat)%bool then view_offset view else sc_ZERO) (key_image_generator (fst s)))) /\
      (forall x, x ∈ addenda -> is_Some (key_image_shares self' !! ed_compress (verification_share view (fst x)))) /\
      forall x, is_Some (key_image_shares (fst s) !! x) -> is_Some (key_image_shares self' !! x)
  | _ => True
  end.
Proof.
  induction 1 as [[self buf]|l self buf tr r _ IH|[l a] addenda self buf [self' buf'] r Hp _ IH|x l self buf e s _|x l self buf s _]; try exact I.
  - cbn [fst]. split_and!; auto; [congruence| |intros x Hx; inversion Hx]. unfold interpolated. cbn [length Nat.eqb negb map]. rewrite andb_false_r.
    rewrite ed_mul_zero, ed_add_id. cbn [point_sum foldr]. rewrite ed_mul_identity, ed_add_id. reflexivity.
  - destruct r as [[self' buf']|e|]; [exact IH|exact I..].
  - destruct r as [[self'' buf'']|e|]; [|exact I..]. cbn [fst snd] in *. apply process_image in Hp as (Hg & Hm & Hi & Hs & Hk).
    destruct IH as (IHg & IH0 & IH1 & IHi & IHs & IHk). split; [congruence|]. split; [discriminate|].
    split; [intros _; destruct addenda; [rewrite IH0 by reflexivity; exact Hm|apply IH1; discriminate]|]. split; [|split; [|auto]].
    + rewrite IHi, Hi, Hm. cbn [andb length Nat.eqb negb]. rewrite andb_true_r, ed_mul_zero, ed_add_id.
      unfold interpolated. cbn [map point_sum foldr fst snd]. rewrite ed_mul_add_r, <- !ed_add_assoc. f_equal. f_equal. apply ed_add_comm.
    + intros x Hx. apply list.elem_of_cons in Hx as [->|Hx]; [apply IHk, Hs|apply IHs, Hx].
Qed.

Context (tr : transcript) (ctx : ClsagContext.t) (Hctx : context_commitment_ok ctx).

Lemma processes_reaches sent view addenda s r : processes view addenda s r -> reaches tr ctx sent (fst s) (snd s) ->
  match r with Ok (self', buf') => reaches tr ctx sent self' buf' | Err _ => True | Panic => False end.
Proof.
  induction 1 as [[self buf]|l self buf t' r _ IH|[l a] addenda self buf [self' buf'] r Hp _ IH|x l self buf e s _|x l self buf s Hp]; cbn [fst snd] in *; intros Hr;
    [exact Hr|apply IH; constructor; exact Hr|apply IH; econstructor; eauto|exact I|].
  destruct (process_cases ctx Hctx sent self buf view (fst x) (snd x) (reaches_reached tr ctx Hctx _ _ _ Hr)) as (? & _ & H). rewrite Hp in H. exact H.
Qed.

(** An instance which was sent its mask signs, and what's completed verifies. *)
Lemma instance_signs alg chan keys own preprocesses msg mask result : new (E := ClsagError) tr ctx = Ok (alg, chan) -> length msg = 32%nat ->
  machine_signs alg keys own preprocesses msg (send mask chan) result ->
  exists included view machine share I,
    included ≡ₚ map fst (map_to_list preprocesses) ++ [params_i keys] /\ keys_view keys included = Some view /\ result = Ok (machine, share) /\
    I = ed_add (ed_mul (current_scalar keys)
          (interpolated view (map (fun l => (l, preprocess_addendum_of (preprocess_by (params_i keys) own preprocesses l))) included)))
          (ed_mul (current_offset keys) (key_image_generator alg)) /\
    forall shares, match machine_complete machine shares with
      | Ok (clsag, pseudo_out) => Clsag.verify clsag (compressed_ring ctx) (ed_compress I) (ed_compress pseudo_out) msg = Ok tt /\
          Commitment.commit (E := ClsagError) (Commitment.new (Scalar.from mask) (Commitment.amount (ClsagContext.commitment ctx))) = Ok pseudo_out
      | Err _ => True
      | Panic => False
      end.
Proof.
  intros Hnew Hmsg (included & view & r & Hperm & Hview & Hrun & Hr). exists included, view.
  set (addenda := map _ included) in *. assert (Hne : addenda <> []).
  { unfold addenda. destruct included; [|discriminate]. symmetry in Hperm. apply Permutation_nil_r, app_eq_nil in Hperm as [_ H]. discriminate H. }
  assert (Hre : reaches tr ctx (Some mask) alg (send mask chan)) by (constructor; constructor; exact Hnew).
  assert (Halg : mask_recv alg = true /\ image alg = ed_identity).
  { unfold new in Hnew. destruct (Decoys.signer_ring_members _); [|discriminate..]. cbn [obind] in Hnew.
    destruct (Point.biased_hash _); [|discriminate..]. injection Hnew as <- _. split; reflexivity. }
  pose proof (processes_reaches (Some mask) view addenda _ _ Hrun Hre) as Hst. pose proof (processes_image view addenda _ _ Hrun) as Hi.
  destruct r as [[st buf']|e|]; [|contradiction..]. cbn [fst] in Hi. destruct Hi as (_ & _ & Hm & Hi & Hs & _). specialize (Hm Hne).
  destruct Hr as (t' & A & AH & nonce & Hr). assert (Hre' := reach_transcript tr ctx _ _ _ t' Hst).
  pose proof (sign_share_cases ctx Hctx _ _ _ view A AH nonce msg (reaches_reached tr ctx Hctx _ _ _ Hre') Hmsg) as Hsign.
  cbn [with_transcript mask_recv] in Hsign. rewrite Hm in Hsign. destruct Hsign as (sh & st' & Hsign & Hint & Hmh & Him & Hks).
  rewrite Hsign in Hr. destruct Hr as (machine & share & -> & Hc). exists machine, share, (image st).
  split; [exact Hperm|]. split; [exact Hview|]. split; [reflexivity|]. split.
  { destruct Halg as [Hmr Hid]. destruct (view_of_keys _ _ _ Hview) as (Hvs & Hvo & _). rewrite Hi, Hmr, Hid, Hvs, Hvo.
    rewrite ed_add_comm, ed_add_id. destruct addenda; [congruence|reflexivity]. }
  intros shares. specialize (Hc shares). pose proof (reaches_reached tr ctx Hctx _ _ _ (reach_sign tr ctx _ _ _ _ _ _ _ _ _ Hre' Hsign)) as Hre2.
  destruct (machine_complete machine shares) as [[clsag po]|e|]; cbn [completes] in Hc; [|exact I|].
  - destruct Hc as [sum Hv]. pose proof (verify_cases ctx Hctx _ _ _ sum Hre2) as Hvc. rewrite Hv in Hvc. destruct (interim st'); [|discriminate].
    destruct Hvc as (msg' & mask' & Hmsg' & [= <-] & Hver & Hcom). rewrite Hmh in Hmsg'. injection Hmsg' as <-. rewrite Him in Hver. split; assumption.
  - destruct Hc as [[sum Hv]|(l & rG & rH & x & Hl & Hv)].
    + pose proof (verify_cases ctx Hctx _ _ _ sum Hre2) as Hvc. rewrite Hv in Hvc. destruct (interim st'); [exact Hvc|destruct Hint; discriminate].
    + unfold verify_share in Hv. destruct Hint as [i Hint]. rewrite Hint, Hks in Hv. cbn [expect obind with_transcript key_image_shares] in Hv.
      destruct (Hs (l, preprocess_addendum_of (preprocess_by (params_i keys) own preprocesses l))) as [y Hy];
        [apply list_elem_of_fmap; eauto|]. cbn [fst] in Hy. rewrite Hy in Hv. cbn [expect obind index lookup list_lookup] in Hv.
      destruct (challenge _ _). discriminate Hv.
Qed.
End Instance.

(** ** The transaction's machines *)

Section Machine.
Context {D : Dalek} {DL : DalekLaws D} {K : Keccak} {KL : KeccakLaws K} {R : Rand} {PR : Primitives} {ST : Setup} {T : Transcripts} {F : Frost}
  {M : Machines} {ML : MachinesLaws}.

Definition multisig_transcript : transcript := transcript_new (bstr "Monero Multisignature Transaction").

(** The group's key is the input's, once offset. *)
Definition group_keyed (keys : ThresholdKeys) (input : OutputWithDecoys.t) : Prop := exists offset scaled,
  Scalar.into (E := SendError) (input_key_offset input) = Ok offset /\ keys_scale sc_ONE keys = Some scaled /\
  keys_group_key (keys_offset offset scaled) = SignableTransaction.input_key input.

(** The instance made for an input *)
Definition context_of (input : OutputWithDecoys.t) : ClsagContext.t := ClsagContext.mk (input_commitment input) (OutputWithDecoys.decoys input).

Definition instance_of (keys : ThresholdKeys) (input : OutputWithDecoys.t) (x : lincomb * (channel * AlgorithmMachine)) : Prop :=
  context_commitment_ok (context_of input) /\ exists offset scaled alg chan,
    keys_scale sc_ONE keys = Some scaled /\ new (E := ClsagError) multisig_transcript (context_of input) = Ok (alg, chan) /\
    x = ((key_image_generator alg, (current_scalar (keys_offset offset scaled), current_offset (keys_offset offset scaled))),
         (chan, machine_new alg (keys_offset offset scaled))).

Lemma multisig_cases keys l : Forall output_with_decoys_ok l ->
  match each (TransactionMachine.multisig_input keys) l with
  | Ok xs => Forall (group_keyed keys) l /\ Forall ring_committed l /\ Forall2 (instance_of keys) l xs
  | Err WrongPrivateKey => ~ Forall (group_keyed keys) l
  | Err (SendClsagError InvalidCommitment) => ~ Forall ring_committed l
  | _ => False
  end.
Proof.
  induction 1 as [|x l Hx _ IH]; cbn [each]; [split_and!; constructor|]. destruct (offset_all x Hx) as [off Hoff].
  destruct (keys_scale_some sc_ONE keys one_not_zero) as [scaled Hsc]. unfold TransactionMachine.multisig_input at 1. rewrite Hsc, Hoff. cbn [expect obind].
  destruct (ed_eqb _ _) eqn:He; cbn [negb].
  2:{ intros [(off' & sc' & Hoff' & Hsc' & H) _]%Forall_cons_iff. rewrite Hoff in Hoff'. rewrite Hsc in Hsc'. injection Hoff' as <-. injection Hsc' as <-.
      apply ed_eqb_spec in H. congruence. }
  apply ed_eqb_spec in He. pose proof (clsag_inputs_cases sc_ZERO [x] ltac:(constructor; [exact Hx|constructor])) as Hc.
  cbn [each] in Hc. unfold Signing.clsag_input at 1 in Hc. rewrite Hoff in Hc. cbn [obind] in Hc.
  destruct (omap_err SendClsagError (ClsagContext.new (OutputWithDecoys.decoys x) (input_commitment x))) as [ctx|e|] eqn:Hcx; cbn [obind] in Hc |- *;
    [|destruct Hc as [-> Hc]; intros [H _]%Forall_cons_iff; apply Hc; auto|exact Hc].
  destruct Hc as (Hring & Hsw & Hctx). apply Forall_cons_iff in Hctx as [Hctx _], Hring as [Hring _]. cbn [snd] in Hctx.
  inversion Hsw as [|? ? ? ? (off' & Hoff' & Hx') _]; subst. injection Hx' as _ ->.
  destruct (members_all _ (proj2 Hx)) as [m Hm]. destruct (biased_hash_total (Point.compress (fst m))) as [gen Hgen].
  assert (Hn : forall E, new (E := E) multisig_transcript (context_of x) = Ok (mk multisig_transcript gen ∅ ed_identity (context_of x) true None None None, None)).
  { intros E. unfold new. cbn [ClsagContext.decoys context_of]. rewrite Hm. cbn [obind]. unfold CompressedPoint.to_bytes. rewrite Hgen. reflexivity. }
  fold (context_of x). fold multisig_transcript. rewrite Hn. cbn [obind].
  destruct (each (TransactionMachine.multisig_input keys) l) as [xs|e|]; cbn [obind]; [|destruct e as [| | | | | | | | | | | | | |[]]; try exact IH; intros [_ H]%Forall_cons_iff; exact (IH H)|exact IH].
  destruct IH as (IH1 & IH2 & IH3). split_and!; constructor; auto; [exists off, scaled; auto|]. split; [exact Hctx|].
  exists off, scaled, (mk multisig_transcript gen ∅ ed_identity (context_of x) true None None None), None. auto.
Qed.

(** A signing machine, of the instance of an input *)
Definition signs_for (keys : ThresholdKeys) (input : OutputWithDecoys.t) (lc : lincomb) (c : channel * AlgorithmSignMachine) (own : Preprocess) : Prop :=
  exists machine rng rng', instance_of keys input (lc, (fst c, machine)) /\ machine_preprocess rng machine = (snd c, own, rng').

Lemma preprocess_all rng keys l xs : Forall2 (instance_of keys) l xs ->
  let '(cs, own, _) := TransactionSignMachine.preprocess_loop rng (map snd xs) in
  length cs = length l /\ length own = length l /\
  forall i input lc c o, l !! i = Some input -> map fst xs !! i = Some lc -> cs !! i = Some c -> own !! i = Some o -> signs_for keys input lc c o.
Proof.
  intros H. revert rng. induction H as [|input x l xs Hx _ IH]; intros rng; cbn [map TransactionSignMachine.preprocess_loop].
  - split_and!; try reflexivity. intros i ? ? ? ? Hi. destruct i; discriminate.
  - destruct x as [lc [chan machine]]. cbn [snd fst]. destruct (machine_preprocess rng machine) as [[sm own] rng1] eqn:Hp.
    specialize (IH rng1). destruct (TransactionSignMachine.preprocess_loop rng1 (map snd xs)) as [[cs owns] rng2].
    destruct IH as (IH1 & IH2 & IH3). cbn [length]. split_and!; [congruence..|]. intros [|i]; cbn; [|apply IH3].
    intros ? ? ? ? [= <-] [= <-] [= <-] [= <-]. exists machine, rng, rng1. auto.
Qed.

(** ** The preprocesses of an input *)

Section Commitments.
Context (self : TransactionSignMachine.t) (commitments : gmap Participant (list Preprocess)) (view : ThresholdView).
Let i : Participant := params_i (TransactionSignMachine.keys self).
Context (Hi : commitments !! i = None).
Context (Hl : forall l ps, commitments !! l = Some ps -> length ps = length (TransactionSignMachine.clsags self)).
Context (Hown : length (TransactionSignMachine.our_preprocess self) = length (TransactionSignMachine.clsags self)).

Definition preprocess_for (own : Preprocess) (c : nat) (l : Participant) : Preprocess :=
  if decide (l = i) then own else match commitments !! l with Some ps => default own (ps !! c) | None => own end.

Lemma included_spec l : l ∈ TransactionSignMachine.included_of self commitments <-> l = i \/ is_Some (commitments !! l).
Proof.
  unfold TransactionSignMachine.included_of. rewrite sort_by_perm, elem_of_app, list_elem_of_singleton, list_elem_of_fmap. fold i. split.
  - intros [([l' ps] & -> & H)|H]; [|auto]. apply elem_of_map_to_list in H. cbn. eauto.
  - intros [H|[ps H]]; [auto|]. left. exists (l, ps). split; [reflexivity|]. apply elem_of_map_to_list, H.
Qed.

Lemma included_NoDup : NoDup (TransactionSignMachine.included_of self commitments).
Proof.
  unfold TransactionSignMachine.included_of. rewrite sort_by_perm. apply NoDup_app. split; [apply NoDup_fst_map_to_list|]. split; [|apply NoDup_singleton].
  intros l H Hs%list_elem_of_singleton. apply list_elem_of_fmap in H as ([l' ps] & -> & H). apply elem_of_map_to_list in H. cbn in Hs. fold i in Hs. congruence.
Qed.

Context (Hv : forall l, l ∈ TransactionSignMachine.included_of self commitments -> is_Some (interpolation_factor view l)).

Lemma clsag_commitments_spec c own : (c < length (TransactionSignMachine.clsags self))%nat ->
  TransactionSignMachine.our_preprocess self !! c = Some own ->
  let included := TransactionSignMachine.included_of self commitments in
  TransactionSignMachine.clsag_commitments self view commitments included c =
    Ok (interpolated view (map (fun l => (l, preprocess_addendum_of (preprocess_for own c l))) included),
        list_to_map (map (fun l => (l, preprocess_for own c l)) included)).
Proof.
  intros Hc Ho included. unfold TransactionSignMachine.clsag_commitments.
  rewrite (each_map _ (fun l => (ed_mul (factor_of view l) (key_image_share (preprocess_addendum_of (preprocess_for own c l))), (l, preprocess_for own c l)))).
  - cbn [obind]. rewrite !map_map. cbn [fst snd]. f_equal. f_equal. unfold interpolated, point_sum. rewrite map_map. cbn [fst snd].
    generalize (map (fun l => ed_mul (factor_of view l) (key_image_share (preprocess_addendum_of (preprocess_for own c l)))) included). intros ps.
    rewrite <- (ed_id_add (foldr ed_add ed_identity ps)). generalize ed_identity at 1 2 as p. induction ps as [|q ps IH]; intros p; cbn [foldl foldr]; [rewrite ed_add_id; reflexivity|].
    rewrite IH, ed_add_assoc. reflexivity.
  - apply list.Forall_forall. intros l Hin. destruct (Hv l Hin) as [f Hf]. unfold TransactionSignMachine.participant_preprocess, preprocess_for, factor_of. fold i.
    rewrite Hf. destruct (decide (l = i)) as [Hli|Hli].
    + unfold index. rewrite Ho. reflexivity.
    + apply included_spec in Hin as [Hin|[ps Hps]]; [contradiction|]. rewrite Hps. cbn [ok_or obind]. unfold index.
      destruct (lookup_lt_is_Some_2 ps c) as [p Hp]; [rewrite (Hl _ _ Hps); exact Hc|]. rewrite Hp. reflexivity.
Qed.

(** What an instance is given, without our preprocess *)
Definition given (own : Preprocess) (c : nat) : gmap Participant Preprocess :=
  delete i (list_to_map (map (fun l => (l, preprocess_for own c l)) (TransactionSignMachine.included_of self commitments))).

Lemma given_lookup own c l : given own c !! l =
  if decide (l = i) then None else if decide (l ∈ TransactionSignMachine.included_of self commitments) then Some (preprocess_for own c l) else None.
Proof.
  unfold given. destruct (decide (l = i)) as [->|Hli]; [apply lookup_delete_eq|]. rewrite lookup_delete_ne by congruence.
  destruct (decide (l ∈ _)) as [Hin|Hin].
  - apply elem_of_list_to_map; [rewrite map_map, map_id; apply included_NoDup|]. apply list_elem_of_fmap. eauto.
  - apply not_elem_of_list_to_map. rewrite map_map, map_id. exact Hin.
Qed.

Lemma given_participants own c : map fst (map_to_list (given own c)) ++ [i] ≡ₚ TransactionSignMachine.included_of self commitments.
Proof.
  assert (Hk : forall l, l ∈ map fst (map_to_list (given own c)) <-> is_Some (given own c !! l)).
  { intros l. rewrite list_elem_of_fmap. split.
    - intros ([l' p] & -> & H). apply elem_of_map_to_list in H. cbn. eauto.
    - intros [p H]. exists (l, p). split; [reflexivity|]. apply elem_of_map_to_list, H. }
  apply NoDup_Permutation.
  - apply NoDup_app. split; [apply NoDup_fst_map_to_list|]. split; [|apply NoDup_singleton].
    intros l H ->%list_elem_of_singleton. apply Hk in H. rewrite given_lookup, decide_True in H by reflexivity. destruct H. discriminate.
  - apply included_NoDup.
  - intros l. rewrite elem_of_app, list_elem_of_singleton, Hk, given_lookup. destruct (decide (l = i)) as [->|Hli].
    + split; [intros _; apply included_spec; auto|auto].
    + destruct (decide (l ∈ _)); split; [auto|eauto|intros [[? [=]]|]; contradiction|contradiction].
Qed.

Lemma given_by own c included : included ≡ₚ map fst (map_to_list (given own c)) ++ [i] ->
  interpolated view (map (fun l => (l, preprocess_addendum_of (preprocess_by i own (given own c) l))) included) =
  interpolated view (map (fun l => (l, preprocess_addendum_of (preprocess_for own c l))) (TransactionSignMachine.included_of self commitments)).
Proof.
  intros Hp. rewrite given_participants in Hp. unfold interpolated. rewrite !map_map. cbn [fst snd].
  rewrite (point_sum_perm _ (map (fun l => ed_mul (factor_of view l) (key_image_share (preprocess_addendum_of (preprocess_by i own (given own c) l))))
    (TransactionSignMachine.included_of self commitments))) by (rewrite Hp; reflexivity).
  f_equal. apply map_ext_in. intros l Hin. apply list_elem_of_In in Hin. do 3 f_equal. unfold preprocess_by. rewrite given_lookup.
  unfold preprocess_for. destruct (decide (l = i)); [reflexivity|]. rewrite decide_True by exact Hin. reflexivity.
Qed.
End Commitments.

(** ** The masks *)

Lemma send_masks_spec {A} rng output_masks sum (l : list ((channel * AlgorithmSignMachine) * A)) : l <> [] ->
  exists masks, length masks = length l /\
    TransactionSignMachine.send_masks rng output_masks sum l =
      Ok (zip_with (fun x mask => ((send mask (fst (fst x)), snd (fst x)), snd x)) l masks) /\
    sc_add sum (foldl sc_add sc_ZERO masks) = output_masks.
Proof.
  revert rng sum. induction l as [|[[buf clsag] a] l IH]; intros rng sum Hne; [contradiction|]. cbn [TransactionSignMachine.send_masks].
  unfold Clsag.random. destruct (scalar_into_all (Scalar.random (rng 0%nat)) (scalar_from_ok _)) as (mk & Hmk & _). rewrite Hmk. cbn [obind].
  destruct l as [|y l].
  - exists [sc_sub output_masks sum]. cbn [TransactionSignMachine.send_masks obind length foldl zip_with fst snd]. split_and!; [reflexivity..|].
    rewrite (sc_add_comm sc_ZERO), sc_add_zero, sc_add_comm. apply sc_sub_add.
  - destruct (IH (fun n => rng (S n)) (sc_add sum mk) ltac:(discriminate)) as (masks & Hlen & Hs & Hsum). exists (mk :: masks).
    rewrite Hs. cbn [obind length zip_with fst snd foldl]. split_and!; [rewrite Hlen; reflexivity|reflexivity|].
    rewrite (sc_add_comm sc_ZERO mk), sc_add_zero, (sc_add_fold mk), sc_add_assoc. exact Hsum.
Qed.

(** ** An input and what signs for it *)

Definition signer : Type := (OutputWithDecoys.t * CompressedPoint) * ((channel * AlgorithmSignMachine) * gmap Participant Preprocess).

Definition signer_for (self : TransactionSignMachine.t) (commitments : gmap Participant (list Preprocess)) (view : ThresholdView) (z : signer) : Prop :=
  exists lc own c, signs_for (TransactionSignMachine.keys self) (fst (fst z)) lc (fst (snd z)) own /\
    snd (fst z) = TransactionSignMachine.key_image_of
      (interpolated view (map (fun l => (l, preprocess_addendum_of (preprocess_for self commitments own c l))) (TransactionSignMachine.included_of self commitments)), lc) /\
    snd (snd z) = given self commitments own c /\ TransactionSignMachine.clsags self !! c = Some (fst (snd z)).

(** What's completed is a signature for the input and its key image. *)
Definition signed_for (msg : bytes) (z : signer) (mask : DScalar) (y : Clsag.t * Point) : Prop :=
  Clsag.verify (fst y) (compressed_ring (context_of (fst (fst z)))) (snd (fst z)) (Point.compress (snd y)) msg = Ok tt /\
  Commitment.commit (E := ClsagError) (Commitment.new (Scalar.from mask) (Commitment.amount (input_commitment (fst (fst z))))) = Ok (snd y).

Definition signature_machine_for (msg : bytes) (z : signer) (mask : DScalar) (machine : AlgorithmSignatureMachine) : Prop :=
  forall shares, match machine_complete machine shares with Ok y => signed_for msg z mask y | Err _ => True | Panic => False end.

Lemma signer_signs self commitments view z msg mask :
  commitments !! params_i (TransactionSignMachine.keys self) = None ->
  keys_view (TransactionSignMachine.keys self) (TransactionSignMachine.included_of self commitments) = Some view ->
  signer_for self commitments view z -> length msg = 32%nat ->
  match machine_sign (snd (fst (snd z))) (snd (snd z)) msg (send mask (fst (fst (snd z)))) with
  | Ok (machine, _) => signature_machine_for msg z mask machine
  | Err _ => True
  | Panic => False
  end.
Proof.
  intros Hi Hview (lc & own & c & (machine & rng & rng' & [Hctx (off & scaled & alg & chan & Hsc & Hnew & Hx)] & Hp) & Hki & Hgiven & _) Hmsg.
  injection Hx as -> -> ->. set (keys := TransactionSignMachine.keys self) in *. set (i := params_i keys) in *.
  destruct z as [[input ki] [[buf sm] comm]]. cbn [fst snd] in *. subst comm.
  pose proof (tweak_params _ off _ _ Hsc) as Hpi. fold i in Hpi.
  destruct (machine_sign_law alg _ _ _ _ _ (given self commitments own c) msg (send mask chan) Hp) as [[e ->]|Hs]; [|exact I|].
  { rewrite Hpi. apply not_elem_of_dom. rewrite given_lookup by exact Hi. apply decide_True. reflexivity. }
  destruct (instance_signs multisig_transcript (context_of input) Hctx alg chan _ own _ msg mask _ Hnew Hmsg Hs)
    as (included & view' & machine & share & I & Hperm & Hview' & -> & HI & Hc).
  rewrite Hpi in *. intros shares. specialize (Hc shares). destruct (machine_complete machine shares) as [[clsag po]|e|]; [|exact Logic.I|exact Hc].
  destruct Hc as [Hver Hcom]. split; cbn [fst snd]; [|exact Hcom]. rewrite Hki. enough (Point.compress I = TransactionSignMachine.key_image_of
    (interpolated view (map (fun l => (l, preprocess_addendum_of (preprocess_for self commitments own c l))) (TransactionSignMachine.included_of self commitments)),
     (key_image_generator alg, (current_scalar (keys_offset off scaled), current_offset (keys_offset off scaled))))) as <- by exact Hver.
  unfold TransactionSignMachine.key_image_of, Point.compress. f_equal. rewrite HI. f_equal. f_equal.
  rewrite <- (given_by self commitments view Hi own c included Hperm). unfold interpolated. f_equal. apply map_ext. intros x. unfold factor_of.
  rewrite (tweak_factors _ off keys scaled (TransactionSignMachine.included_of self commitments) included view view' Hsc); auto.
  rewrite Hperm. symmetry. apply given_participants. exact Hi.
Qed.

(** ** Signing *)

Record machine_ok (self : SignableTransaction.t) (keys : ThresholdKeys) (m : TransactionSignMachine.t) : Prop := {
  mo_signable : TransactionSignMachine.signable m = self;
  mo_keys : TransactionSignMachine.keys m = keys;
  mo_lincombs : length (TransactionSignMachine.key_image_generators_and_lincombs m) = length (inputs self);
  mo_clsags : length (TransactionSignMachine.clsags m) = length (inputs self);
  mo_own : length (TransactionSignMachine.our_preprocess m) = length (inputs self);
  mo_signs : forall i input lc c own, inputs self !! i = Some input -> TransactionSignMachine.key_image_generators_and_lincombs m !! i = Some lc ->
    TransactionSignMachine.clsags m !! i = Some c -> TransactionSignMachine.our_preprocess m !! i = Some own -> signs_for keys input lc c own
}.

(** Every input's key image and instance, in the order of the inputs *)
Lemma signers_all self keys m commitments view : machine_ok self keys m ->
  commitments !! params_i keys = None ->
  (forall l ps, commitments !! l = Some ps -> length ps = length (inputs self)) ->
  keys_view keys (TransactionSignMachine.included_of m commitments) = Some view ->
  exists xs z, each (TransactionSignMachine.clsag_commitments m view commitments (TransactionSignMachine.included_of m commitments))
      (seq 0 (length (inputs self))) = Ok xs /\
    length z = length (inputs self) /\
    let key_images := map TransactionSignMachine.key_image_of (zip (map fst xs) (TransactionSignMachine.key_image_generators_and_lincombs m)) in
    zip (inputs self) key_images = map fst z /\ length key_images = length (inputs self) /\
    zip key_images (zip (TransactionSignMachine.clsags m) (map (fun x => delete (params_i keys) (snd x)) xs)) = map (fun x => (snd (fst x), snd x)) z /\
    Forall (signer_for m commitments view) z.
Proof.
  intros [Hs Hk Hlc Hcl Hown Hsf] Hi Hl Hview. destruct (view_of_keys _ _ _ Hview) as (_ & _ & _ & Hfac).
  assert (Hspec : forall c own, (c < length (inputs self))%nat -> TransactionSignMachine.our_preprocess m !! c = Some own ->
    TransactionSignMachine.clsag_commitments m view commitments (TransactionSignMachine.included_of m commitments) c =
    Ok (interpolated view (map (fun l => (l, preprocess_addendum_of (preprocess_for m commitments own c l))) (TransactionSignMachine.included_of m commitments)),
        list_to_map (map (fun l => (l, preprocess_for m commitments own c l)) (TransactionSignMachine.included_of m commitments)))).
  { intros c own Hc Ho. apply (clsag_commitments_spec m commitments view); auto; [|lia]. intros l ps Hps. rewrite Hcl. exact (Hl l ps Hps). }
  destruct (each_total (fun _ => True) (TransactionSignMachine.clsag_commitments m view commitments (TransactionSignMachine.included_of m commitments))
    (seq 0 (length (inputs self)))) as (xs & Hxs & _ & Hxl).
  { intros c Hc. apply in_seq in Hc. destruct (lookup_lt_is_Some_2 (TransactionSignMachine.our_preprocess m) c ltac:(lia)) as [own Ho].
    rewrite (Hspec c own) by (lia || exact Ho). eauto. }
  rewrite length_seq in Hxl. pose proof (proj1 (each_ok _ _ _) Hxs) as Hx.
  set (key_images := map TransactionSignMachine.key_image_of (zip (map fst xs) (TransactionSignMachine.key_image_generators_and_lincombs m))).
  assert (Hkl : length key_images = length (inputs self)) by (unfold key_images; rewrite length_map, length_zip_with, length_map; lia).
  set (rest := zip (TransactionSignMachine.clsags m) (map (fun x => delete (params_i keys) (snd x)) xs)).
  assert (Hrl : length rest = length (inputs self)) by (unfold rest; rewrite length_zip_with, length_map; lia).
  exists xs, (zip (zip (inputs self) key_images) rest). split; [exact Hxs|]. cbv zeta. fold key_images rest.
  split; [rewrite !length_zip_with; lia|]. split; [symmetry; apply fst_zip; rewrite length_zip_with; lia|]. split; [exact Hkl|]. split.
  - clearbody rest key_images. clear -Hkl Hrl. revert rest key_images Hkl Hrl. induction (inputs self) as [|a l IH]; intros [|r rest] [|k ks] H H'; try discriminate; [reflexivity|].
    cbn in *. f_equal. apply IH; congruence.
  - apply Forall_lookup. intros c [[input ki] [cs comm]] Hz. apply lookup_zip_Some in Hz as [Hz Hr]. apply lookup_zip_Some in Hz as [Hin Hki].
    apply lookup_zip_Some in Hr as [Hc Hd]. apply list_lookup_fmap_Some in Hd as (x & -> & Hxc), Hki as ([s lc] & -> & Hz). apply lookup_zip_Some in Hz as [Hsx Hlcc].
    apply list_lookup_fmap_Some in Hsx as (x' & -> & Hx'). rewrite Hxc in Hx'. injection Hx' as <-.
    assert (Hlt : (c < length (inputs self))%nat) by (eapply lookup_lt_Some; exact Hin).
    destruct (lookup_lt_is_Some_2 (TransactionSignMachine.our_preprocess m) c ltac:(lia)) as [own Ho].
    pose proof (Forall2_lookup_lr _ _ _ c _ x Hx (lookup_seq_lt _ _ _ Hlt) Hxc) as Hval. cbn beta in Hval. rewrite Nat.add_0_l in Hval. rewrite (Hspec c own Hlt Ho) in Hval. apply Ok_inj in Hval as <-.
    exists lc, own, c. split; [|split; [reflexivity|split; [|exact Hc]]].
    + rewrite Hk. apply (Hsf c); assumption.
    + unfold given. rewrite Hk. reflexivity.
Qed.

(** What's been made for the key images, to be signed by the machines *)
Definition prepared (self : SignableTransaction.t) (plus : bool) (w f : Z) (tx : Transaction NotPruned) (machines : list AlgorithmSignatureMachine) : Prop :=
  exists key_images, length key_images = length (inputs self) /\
    let made_for := Signing.with_key_images self key_images in
    let self' := SignableTransactionWithKeyImages.intent made_for in
    let key_images' := SignableTransactionWithKeyImages.key_images made_for in
    exists z x masks commitment_masks msg, map fst z = zip (inputs self') key_images' /\ made self' plus f key_images' x /\
      tx = unsigned self' f key_images' x [] [] /\ Signing.unsigned_transaction (E := SendError) self key_images = Ok (Some tx) /\
      (forall clsags pseudo_outs, Transaction.signature_hash (E := SendError) (unsigned self' f key_images' x clsags pseudo_outs) = Ok (Some msg)) /\
      each (fun x => Scalar.into (E := unit) (Commitment.mask x)) (map fst (p_opens x)) = Ok commitment_masks /\
      length masks = length z /\ foldl sc_add sc_ZERO masks = foldl sc_add sc_ZERO commitment_masks /\
      Forall2 (fun zm machine => signature_machine_for msg (fst zm) (snd zm) machine) (zip z masks) machines.

(** An input's instance erred, though it was sent its mask. *)
Definition instance_errs (m : TransactionSignMachine.t) (e : FrostError) : Prop := exists c, c ∈ TransactionSignMachine.clsags m /\
  exists preprocesses msg mask, machine_sign (snd c) preprocesses msg (send mask (fst c)) = Err e.

(** The instances sign with the masks sent. *)
Lemma signers_sign m commitments view msg z masks :
  commitments !! params_i (TransactionSignMachine.keys m) = None ->
  keys_view (TransactionSignMachine.keys m) (TransactionSignMachine.included_of m commitments) = Some view -> length msg = 32%nat ->
  Forall (signer_for m commitments view) z -> length masks = length z ->
  match each (TransactionSignMachine.sign_clsag msg) (zip_with (fun (x : (channel * AlgorithmSignMachine) * gmap Participant Preprocess) mask =>
      ((send mask (fst (fst x)), snd (fst x)), snd x)) (map (fun x => snd x) z) masks) with
  | Ok signed => Forall2 (fun zm machine => signature_machine_for msg (fst zm) (snd zm) machine) (zip z masks) (map fst signed)
  | Err e => instance_errs m e
  | Panic => False
  end.
Proof.
  intros Hi Hview Hmsg Hz. revert masks. induction Hz as [|y z Hy _ IH]; intros [|mk masks] Hl; try discriminate; [constructor|].
  cbn [map zip_with each zip]. specialize (IH masks ltac:(cbn in Hl; congruence)). pose proof (signer_signs m commitments view y msg mk Hi Hview Hy Hmsg) as H.
  unfold TransactionSignMachine.sign_clsag at 1. destruct (machine_sign _ _ _ _) as [[machine ?]|e|] eqn:Hms; cbn [obind];
    [|destruct Hy as (? & ? & c & _ & _ & _ & Hc); exists (fst (snd y)); split; [eapply list_elem_of_lookup_2; exact Hc|eauto]|exact H].
  match type of IH with match ?m with _ => _ end => destruct m as [signed|e|] end; cbn [obind map fst]; [constructor; [exact H|exact IH]|exact IH|exact IH].
Qed.

Lemma sign_multisig_cases self keys plus w f m commitments : signable_ok self -> valid self plus w f -> machine_ok self keys m ->
  match TransactionSignMachine.sign m commitments [] with
  | Ok ((tx, machines), _) => prepared self plus w f tx machines
  | Err e => (exists l ps, commitments !! l = Some ps /\ length ps <> length (inputs self)) \/
      keys_view keys (TransactionSignMachine.included_of m (delete (params_i keys) commitments)) = None \/
      instance_errs m e
  | Panic => False
  end.
Proof.
  intros Hself V Hm. pose proof Hm as [Hs Hk Hlc Hcl Hown Hsf]. unfold TransactionSignMachine.sign. cbn [length Nat.eqb negb]. rewrite Hs, Hk, Hcl.
  destruct (existsb _ _) eqn:He.
  { left. apply existsb_exists in He as ([l ps] & Hin & He). apply list_elem_of_In, elem_of_map_to_list in Hin. exists l, ps.
    cbn [snd] in He. split; [exact Hin|]. intros H. rewrite H, Nat.eqb_refl in He. discriminate. }
  cbv zeta. set (comm := delete (params_i keys) commitments). assert (Hi : comm !! params_i keys = None) by apply lookup_delete_eq.
  assert (Hl : forall l ps, comm !! l = Some ps -> length ps = length (inputs self)).
  { intros l ps H. unfold comm in H. apply lookup_delete_Some in H as [_ H]. apply elem_of_map_to_list in H.
    destruct (Nat.eqb_spec (length ps) (length (inputs self))) as [Heq|Hne]; [exact Heq|]. exfalso. apply not_true_iff_false in He. apply He, existsb_exists.
    exists (l, ps). split; [apply list_elem_of_In, H|]. cbn [snd]. apply Nat.eqb_neq in Hne. rewrite Hne. reflexivity. }
  destruct (keys_view keys (TransactionSignMachine.included_of m comm)) as [view|] eqn:Hview; cbn [ok_or obind]; [|auto].
  destruct (signers_all self keys m comm view Hm Hi Hl Hview) as (xs & z0 & -> & Hzl & Hzi & Hkl & Hzc & Hsig). cbn [obind].
  set (key_images := map TransactionSignMachine.key_image_of _) in *. rewrite Hzc, sort_by_map, map_map. cbn [fst snd].
  destruct (unsigned_all self Hself plus w f V key_images Hkl) as (Hsame & Hp & Hok & V' & x & M1 & Hx & Htx).
  set (z := sort_by (fun a b : signer => key_image_lt (snd (fst a)) (snd (fst b))) z0).
  assert (Hz : map fst z = zip (inputs (SignableTransactionWithKeyImages.intent (Signing.with_key_images self key_images)))
    (SignableTransactionWithKeyImages.key_images (Signing.with_key_images self key_images))).
  { unfold Signing.with_key_images. rewrite Hzi, sort_by_map. fold z. cbn [SignableTransactionWithKeyImages.intent SignableTransactionWithKeyImages.key_images Signing.with_inputs inputs].
    rewrite zip_fst_snd. reflexivity. }
  assert (Hzok : Forall (signer_for m comm view) z) by (unfold z; rewrite sort_by_perm; exact Hsig).
  destruct (masks_all _ _ plus f x FrostError M1) as (cmasks & Hcm & Hcmasks). rewrite Hcm. cbn [obind].
  destruct (seeded_rng_all _ TransactionSignMachine.MULTISIG_PSEUDO_OUT_MASKS ltac:(discriminate) (ok_inputs _ Hok)) as [seed Hseed].
  rewrite Hseed. cbn [obind]. rewrite scalar_into_from. cbn [obind].
  destruct (send_masks_spec (chacha20 seed) (foldl sc_add sc_ZERO cmasks) sc_ZERO (map (fun x : signer => snd x) z)) as (masks & Hml & Hsend & Hsum).
  { intros Hn. apply map_eq_nil in Hn. apply (f_equal length) in Hn. rewrite (Permutation_length (sort_by_perm _ z0) : length z = _), Hzl in Hn.
    apply (v_some _ _ _ _ V), length_zero_iff_nil, Hn. }
  match goal with |- context [TransactionSignMachine.send_masks _ _ _ ?l] => change l with (map (fun x : signer => snd x) z) end.
  rewrite Hsend. cbn [obind]. rewrite Hx. cbn [obind].
  destruct (signature_hash_all (SignableTransactionWithKeyImages.intent (Signing.with_key_images self key_images)) f
    (SignableTransactionWithKeyImages.key_images (Signing.with_key_images self key_images)) x) as (msg & Hmsg & Hsh).
  rewrite Hsh. cbn [obind expect]. rewrite length_map in Hml.
  pose proof (signers_sign m comm view msg z masks ltac:(rewrite Hk; exact Hi) ltac:(rewrite Hk; exact Hview) Hmsg Hzok Hml) as Hsg.
  match type of Hsg with match ?m with _ => _ end => match goal with |- context [obind (each _ ?l)] => change (each (TransactionSignMachine.sign_clsag msg) l) with m end; destruct m as [signed|e|] end;
    cbn [obind]; [|auto|exact Hsg].
  exists key_images. split; [exact Hkl|]. exists z, x, masks, cmasks, msg. split_and!; auto.
  rewrite (sc_add_comm sc_ZERO), sc_add_zero in Hsum. exact Hsum.
Qed.

(** ** Completing *)

(** [tx] is the transaction intended, for key images, and its signatures
    verify. *)
Record multisigned (self : SignableTransaction.t) (key_images : list CompressedPoint) (l : list (OutputWithDecoys.t * CompressedPoint))
  (base : RctBase.t) (bulletproof : Bulletproof) (res : list (Clsag.t * Point)) (tx : Transaction NotPruned) : Prop := {
  ms_order : l ≡ₚ zip (inputs self) key_images;
  ms_sorted : StronglySorted key_image_le (map snd l);
  ms_inputs : TransactionPrefix.inputs (Transaction.prefix tx) = map to_input l;
  ms_unsigned : Signing.unsigned_transaction (E := SendError) self key_images =
    Ok (Some (V2 (P := NotPruned) (Transaction.prefix tx) (Some (mk_RctProofs base (ClsagProofs [] [] bulletproof)))));
  ms_signed : tx = V2 (P := NotPruned) (Transaction.prefix tx)
    (Some (mk_RctProofs base (ClsagProofs (map fst res) (map (fun x => Point.compress (snd x)) res) bulletproof)));
  ms_clsags : exists msg, Transaction.signature_hash (E := SendError) tx = Ok (Some msg) /\
    Forall2 (fun x y => Clsag.verify (fst y) (compressed_ring (context_of (fst x))) (snd x) (Point.compress (snd y)) msg = Ok tt) l res;
  ms_balance : exists h commitments, Commitment.H (E := SendError) = Ok h /\ RctBase.commitments base = map Point.compress commitments /\
    point_sum (map snd res) = ed_add (point_sum commitments) (ed_mul (sc_from_u64 (RctBase.fee base)) h)
}.

(** The pseudo-outs, which commit with the masks *)
Lemma pseudo_outs_sum h msg z masks (res : list (Clsag.t * Point)) : (forall E, Commitment.H (E := E) = Ok h) -> length masks = length z ->
  Forall2 (fun zm y => signed_for msg (fst zm) (snd zm) y) (zip z masks) res ->
  point_sum (map snd res) = ed_add (ed_mul (foldl sc_add sc_ZERO masks) ED25519_BASEPOINT_POINT)
    (point_sum (map (fun a => ed_mul (sc_from_u64 a) h) (map (fun x : signer => Commitment.amount (input_commitment (fst (fst x)))) z))).
Proof.
  intros Hh. revert masks res. induction z as [|x z IH]; intros [|mk masks] res Hl Hr; try discriminate; cbn [zip zip_with] in Hr.
  - inversion Hr; subst. cbn. rewrite ed_mul_zero, ed_add_id. reflexivity.
  - apply Forall2_cons_inv_l in Hr as (y & ys & [_ Hy] & Hr & ->). cbn [map point_sum foldr foldl]. unfold point_sum in IH.
    rewrite (IH masks ys) by (cbn in Hl; congruence). apply commit_spec in Hy as (m' & h' & Hm' & Hh' & Hy). cbn [Commitment.mask Commitment.amount fst snd] in *.
    rewrite scalar_into_from in Hm'. injection Hm' as <-. rewrite Hh in Hh'. injection Hh' as <-. rewrite Hy.
    rewrite (sc_add_fold (sc_add sc_ZERO mk)), (sc_add_comm sc_ZERO mk), sc_add_zero, ed_mul_add_l by apply ed_basepoint_free. apply ed_add_swap.
Qed.

Lemma shares_of_all {E} (shares : gmap Participant (list SignatureShare)) c n :
  (forall l ss, shares !! l = Some ss -> length ss = n) -> (c < n)%nat -> exists m, TransactionSignatureMachine.shares_of (E := E) shares c = Ok m.
Proof.
  intros Hs Hc. unfold TransactionSignatureMachine.shares_of.
  destruct (each_total (E := E) (fun _ => True) (fun x : Participant * list SignatureShare => let? share := index (snd x) c in Ok (fst x, share)) (map_to_list shares))
    as (xs & -> & _); [|eexists; reflexivity].
  intros [l ss] Hin. apply list_elem_of_In, elem_of_map_to_list in Hin. destruct (lookup_lt_is_Some_2 ss c) as [s Hss]; [rewrite (Hs _ _ Hin); exact Hc|].
  cbn [fst snd]. unfold index. rewrite Hss. cbn. eauto.
Qed.

Lemma completed_each msg shares n zs machines start :
  (forall l ss, shares !! l = Some ss -> length ss = n) -> (start + length machines <= n)%nat ->
  Forall2 (fun zm machine => signature_machine_for msg (fst zm) (snd zm) machine) zs machines ->
  match each (TransactionSignatureMachine.complete_clsag shares) (zip (seq start (length machines)) machines) with
  | Ok res => Forall2 (fun zm y => signed_for msg (fst zm) (snd zm) y) zs res
  | Err e => exists machine shares, machine ∈ machines /\ machine_complete machine shares = Err e
  | Panic => False
  end.
Proof.
  intros Hs Hn H. revert start Hn. induction H as [|zm machine zs machines Hm _ IH]; intros start Hn; cbn [length seq zip zip_with each]; [constructor|].
  cbn [length] in Hn. specialize (IH (S start) ltac:(lia)). unfold TransactionSignatureMachine.complete_clsag at 1.
  destruct (shares_of_all (E := FrostError) shares start n Hs ltac:(lia)) as [ss ->]. cbn [obind]. specialize (Hm ss).
  destruct (machine_complete machine ss) as [y|e|] eqn:Hc; cbn [obind]; [|exists machine, ss; split; [left|exact Hc]|exact Hm].
  destruct (each _ _) as [res|e|]; cbn [obind]; [constructor; [exact Hm|exact IH]| |exact IH].
  destruct IH as (mc & ss' & Hin & He). exists mc, ss'. split; [right; exact Hin|exact He].
Qed.

Lemma complete_multisig_cases self plus w f tx machines shares : signable_ok self -> valid self plus w f -> prepared self plus w f tx machines ->
  match TransactionSignatureMachine.complete (tx, machines) shares with
  | Ok tx' => exists key_images l base bulletproof res, multisigned self key_images l base bulletproof res tx'
  | Err e => (exists l ss, shares !! l = Some ss /\ length ss <> length machines) \/
      exists machine shares, machine ∈ machines /\ machine_complete machine shares = Err e
  | Panic => False
  end.
Proof.
  intros Hself V (key_images & Hkl & z & x & masks & cmasks & msg & Hz & M1 & -> & Htx & Hsh & Hcm & Hml & Hsum & Hmach).
  destruct (unsigned_all self Hself plus w f V key_images Hkl) as (Hsame & _ & Hok & V' & _).
  destruct (with_key_images_spec self key_images Hkl) as (_ & _ & Hkl' & Hpair & Hsort). unfold paired in Hpair.
  unfold TransactionSignatureMachine.complete. destruct (existsb _ _) eqn:He.
  { left. apply existsb_exists in He as ([l ss] & Hin & He). apply list_elem_of_In, elem_of_map_to_list in Hin. exists l, ss. split; [exact Hin|].
    cbn [snd] in He. intros H. rewrite H, Nat.eqb_refl in He. discriminate. }
  assert (Hs : forall l ss, shares !! l = Some ss -> length ss = length machines).
  { intros l ss H. apply elem_of_map_to_list in H. destruct (Nat.eqb_spec (length ss) (length machines)) as [Heq|Hne]; [exact Heq|]. exfalso.
    apply not_true_iff_false in He. apply He, existsb_exists. exists (l, ss). split; [apply list_elem_of_In, H|]. cbn [snd]. apply Nat.eqb_neq in Hne. rewrite Hne. reflexivity. }
  cbn [unsigned]. pose proof (completed_each msg shares (length machines) _ machines 0 Hs ltac:(lia) Hmach) as Hres. unfold enumerate.
  match type of Hres with match ?m with _ => _ end => match goal with |- context [obind (each _ ?l)] => change (each (TransactionSignatureMachine.complete_clsag shares) l) with m end;
    destruct m as [res|e|] end; cbn [obind]; [|auto|exact Hres].
  set (self' := SignableTransactionWithKeyImages.intent _) in *. set (key_images' := SignableTransactionWithKeyImages.key_images _) in *.
  exists key_images, (map fst z), (RctBase.mk (fee_paid self' f) [] (map snd (p_opens x)) (map Point.compress (p_commitments x))), (p_bulletproof x), res.
  split; cbn [Transaction.prefix].
  - rewrite Hz. exact Hpair.
  - rewrite Hz. rewrite (snd_zip (inputs self') key_images' ltac:(lia) : map snd (zip (inputs self') key_images') = _). exact Hsort.
  - rewrite Hz. apply prefix_inputs_map.
  - exact Htx.
  - reflexivity.
  - exists msg. split; [apply Hsh|]. clear -Hres Hml. revert masks res Hml Hres. induction z as [|y z IH]; intros [|mk masks] res Hml Hres; try discriminate; cbn in Hres.
    + inversion Hres; subst. constructor.
    + apply Forall2_cons_inv_l in Hres as (r & rs & [Hr _] & Hres & ->). cbn [map]. constructor; [exact Hr|]. apply (IH masks); [cbn in Hml; congruence|exact Hres].
  - destruct H_all as (h & _ & Hh & Hhf). exists h, (p_commitments x). split; [apply Hh|]. split; [reflexivity|].
    apply (made_balance self' plus w f key_images' x cmasks _ h Hok V' M1 Hh Hhf Hcm). rewrite <- Hsum.
    rewrite (pseudo_outs_sum h msg z masks res Hh Hml Hres). f_equal. f_equal. f_equal. unfold amounts_in.
    assert (Hzi : map fst (map fst z) = inputs self') by (rewrite Hz; apply (fst_zip (inputs self') key_images'); lia).
    rewrite <- Hzi, !map_map. reflexivity.
Qed.

(** C6: signing a valid transaction with threshold keys is safe, whatever the
    other participants send. The machine is made unless the group's key isn't
    an input's, or a ring doesn't have the input's commitment. Signing doesn't
    panic, and errs only for preprocesses of another transaction, a set of
    signers the key can't be viewed by, or an error of an input's instance;
    nor does completing panic. A completed transaction is the unsigned
    transaction for some key images, in their order, with a CLSAG per input
    which verifies for the input's ring, its key image, its pseudo-out and the
    hash of the transaction signed; and the pseudo-outs sum to the commitments
    to the outputs and the fee. *)
Theorem multisig_safe self keys : signable_ok self -> validate self = Ok tt ->
  match TransactionMachine.multisig self keys with
  | Ok machine => Forall (group_keyed keys) (inputs self) /\ Forall ring_committed (inputs self) /\
      forall rng commitments, let '(machine, _, _) := TransactionSignMachine.preprocess rng machine in
        match TransactionSignMachine.sign machine commitments [] with
        | Ok (machine, _) => forall shares,
            match TransactionSignatureMachine.complete machine shares with
            | Ok tx => exists key_images l base bulletproof res, multisigned self key_images l base bulletproof res tx
            | Err e => (exists l ss, shares !! l = Some ss /\ length ss <> length (snd machine)) \/
                exists machine' shares', machine' ∈ snd machine /\ machine_complete machine' shares' = Err e
            | Panic => False
            end
        | Err e => (exists l ps, commitments !! l = Some ps /\ length ps <> length (inputs self)) \/
            keys_view keys (TransactionSignMachine.included_of machine (delete (params_i keys) commitments)) = None \/
            instance_errs machine e
        | Panic => False
        end
  | Err WrongPrivateKey => ~ Forall (group_keyed keys) (inputs self)
  | Err (SendClsagError InvalidCommitment) => ~ Forall ring_committed (inputs self)
  | _ => False
  end.
Proof.
  intros Hself Hvalid. destruct (is_valid self Hself Hvalid) as (plus & w & f & V). unfold TransactionMachine.multisig.
  pose proof (multisig_cases keys _ (ok_inputs _ Hself)) as Hm. destruct (each (TransactionMachine.multisig_input keys) (inputs self)) as [xs|e|]; cbn [obind];
    [|exact Hm|exact Hm].
  destruct Hm as (Hg & Hr & Hx). split; [exact Hg|]. split; [exact Hr|]. intros rng commitments. unfold TransactionSignMachine.preprocess. cbn [TransactionMachine.clsags].
  pose proof (preprocess_all rng keys _ _ Hx) as Hp. destruct (TransactionSignMachine.preprocess_loop rng (map snd xs)) as [[cs owns] rng'].
  destruct Hp as (Hcl & Hol & Hp). cbn [TransactionMachine.signable TransactionMachine.keys TransactionMachine.key_image_generators_and_lincombs].
  assert (Hmo : machine_ok self keys (TransactionSignMachine.mk self keys (map fst xs) cs owns)).
  { split; cbn; auto. rewrite length_map. symmetry. exact (list.Forall2_length _ _ _ Hx). }
  pose proof (sign_multisig_cases self keys plus w f _ commitments Hself V Hmo) as Hs.
  destruct (TransactionSignMachine.sign _ _ _) as [[[tx machines] ?]|e|]; [|exact Hs|exact Hs].
  intros shares. exact (complete_multisig_cases self plus w f tx machines shares Hself V Hs).
Qed.
End Machine.

(** ** Witnesses *)

Section Witness.
Import Model.
#[local] Existing Instance BpTheorems.nonzero_hash.
#[local] Existing Instance BpTheorems.example_primitives.
#[local] Existing Instance BpTheorems.example_setup.
#[local] Existing Instance SendTheorems.example_rand.
#[local] Existing Instance ClsagMultisigProofs.example_transcripts.
#[local] Existing Instance ClsagMultisigProofs.example_frost.

(** Keys held by one participant, and machines which run the algorithm *)
Record example_keys := mk_keys { ek_i : nat; ek_secret : DScalar; ek_scalar : DScalar; ek_offset : DScalar }.

Definition example_share (k : example_keys) : DScalar := sc_add (sc_mul (ek_scalar k) (ek_secret k)) (ek_offset k).

Definition example_view (k : example_keys) : ThresholdView :=
  mk_view _ _ (ed_mul (example_share k) ED25519_BASEPOINT_POINT) (ek_scalar k) (ek_offset k) (fun _ => Some sc_ONE)
    (fun _ => ed_mul (example_share k) ED25519_BASEPOINT_POINT) (example_share k).

Definition example_process (m : t * example_keys) (preprocesses : gmap nat ClsagAddendum) (msg : bytes) (buf : channel)
  : outcome string ((t * DScalar) * DScalar) :=
  let (alg, keys) := m in
  if decide (preprocesses = ∅) then
    match process_addendum (example_view keys) (ek_i keys) (preprocess_addendum alg (ek_secret keys)) alg buf with
    | (Ok _, (st, _)) =>
        match sign_share (example_view keys) [[ED25519_BASEPOINT_POINT; key_image_generator alg]] [sc_ONE] msg (with_transcript st (transcript_of st)) with
        | Ok (share, st) => Ok ((st, share), share)
        | _ => Panic
        end
    | (Err e, _) => Err e
    | (Panic, _) => Panic
    end
  else Err "unknown participant"%string.

Definition example_complete (m : t * DScalar) (shares : gmap nat DScalar) : outcome string (Clsag.t * EdwardsPoint) :=
  match verify (fst m) (snd m) with
  | Ok (Some signature) => Ok signature
  | Panic => Panic
  | _ => Err "invalid share"%string
  end.

#[local] Instance example_machines : Machines := {
  participant_lt := Nat.ltb;
  InvalidSigningSet s := s;
  MissingParticipant _ := "missing participant"%string;
  ThresholdKeys := example_keys;
  params_i := ek_i;
  keys_scale s k := Some (mk_keys (ek_i k) (ek_secret k) (sc_mul s (ek_scalar k)) (sc_mul s (ek_offset k)));
  keys_offset o k := mk_keys (ek_i k) (ek_secret k) (ek_scalar k) (sc_add (ek_offset k) o);
  keys_group_key k := ed_mul (example_share k) ED25519_BASEPOINT_POINT;
  current_scalar := ek_scalar;
  current_offset := ek_offset;
  keys_view k included := if decide (included = [ek_i k]) then Some (example_view k) else None;
  Preprocess := ClsagAddendum;
  preprocess_addendum_of a := a;
  preprocess_write := write_addendum;
  SignatureShare := DScalar;
  share_write := sc_to_bytes;
  AlgorithmMachine := t * example_keys;
  AlgorithmSignMachine := t * example_keys;
  AlgorithmSignatureMachine := t * DScalar;
  machine_new alg keys := (alg, keys);
  machine_preprocess rng m := (m, preprocess_addendum (fst m) (ek_secret (snd m)), rng);
  machine_read_preprocess _ := read_addendum;
  machine_sign := example_process;
  machine_read_share _ := rother "not read";
  machine_complete := example_complete
}.

Lemma example_machines_laws : MachinesLaws.
Proof.
  split; cbn.
  - intros s keys _. eexists; reflexivity.
  - intros s o keys scaled [= <-]. reflexivity.
  - intros s o keys scaled included included' view view' [= <-] _. cbn. destruct (decide _); [|discriminate]. intros [= <-].
    destruct (decide _); [|discriminate]. intros [= <-]. reflexivity.
  - intros keys included view. destruct (decide _); [|discriminate]. intros [= <-]. cbn. split_and!; try reflexivity. eauto.
  - intros alg keys rng machine own rng' preprocesses msg buf [= <- <- <-] _. unfold example_process.
    destruct (decide (preprocesses = ∅)) as [->|_]; [|left; eauto]. cbn [fst snd].
    destruct (process_addendum _ _ _ _ _) as [[[]|e|] [st buf']] eqn:Hp; [|left; eauto|].
    + right. exists [ek_i keys], (example_view keys), (Ok (st, buf')). split; [rewrite map_to_list_empty; reflexivity|].
      split; [apply decide_True; reflexivity|]. split; [eapply processes_next; [|apply processes_none]; cbn; unfold preprocess_by; rewrite decide_True by reflexivity; exact Hp|].
      exists (transcript_of st), ED25519_BASEPOINT_POINT, (key_image_generator alg), sc_ONE.
      destruct (sign_share _ _ _ _ _) as [[share st']|e|]; [|reflexivity|reflexivity]. exists (st', share), share. split; [reflexivity|].
      intros shares. match goal with |- completes _ _ _ ?c => change c with (example_complete (st', share) shares) end. unfold example_complete. cbn [fst snd]. destruct (verify st' share) as [[signature|]|e|] eqn:Hv; cbn [completes]; [eauto|exact I|exact I|eauto].
    + right. exists [ek_i keys], (example_view keys), Panic. split; [rewrite map_to_list_empty; reflexivity|].
      split; [apply decide_True; reflexivity|]. split; [|reflexivity]. apply (processes_panic _ _ _ _ _ (st, buf')). cbn. unfold preprocess_by.
      rewrite decide_True by reflexivity. exact Hp.
Qed.

Definition example_threshold_keys : ThresholdKeys := mk_keys 1 (sc_from_u64 5) sc_ONE sc_ZERO.

Lemma example_group_keyed : Forall (group_keyed example_threshold_keys) (inputs SendTheorems.example).
Proof.
  constructor; [|constructor]. exists (sc_from_u64 3), (mk_keys 1 (sc_from_u64 5) (sc_mul sc_ONE sc_ONE) (sc_mul sc_ONE sc_ZERO)).
  split; [apply (scalar_into_from (DL := dalek_laws))|]. split; [reflexivity|]. vm_compute. reflexivity.
Qed.

(** A participant who signs alone completes the transaction. *)
Lemma multisig_safe_witness : exists machine, TransactionMachine.multisig SendTheorems.example example_threshold_keys = Ok machine /\ forall rng, let '(machine, _, _) := TransactionSignMachine.preprocess rng machine in
    match TransactionSignMachine.sign machine ∅ [] with
    | Ok (machine, _) => forall tx, TransactionSignatureMachine.complete machine ∅ = Ok tx ->
        exists key_images l base bulletproof res, multisigned SendTheorems.example key_images l base bulletproof res tx
    | Err e => instance_errs machine e
    | Panic => False
    end.
Proof.
  pose proof (multisig_safe (DL := dalek_laws) (KL := nonzero_hash_laws) (ML := example_machines_laws) SendTheorems.example example_threshold_keys
    intent_ok example_valid) as H.
  pose proof example_group_keyed as Hg. pose proof (proj1 example_ring) as Hr.
  unfold TransactionMachine.multisig in *. destruct (each _ _) as [xs|e|]; cbn [obind] in *; [|exfalso; destruct e as [| | | | | | | | | | | | | |[]]; tauto|contradiction].
  eexists. split; [reflexivity|]. intros rng. destruct H as (_ & _ & H). specialize (H rng ∅). unfold TransactionSignMachine.preprocess in *.
  destruct (TransactionSignMachine.preprocess_loop _ _) as [[cs own] rng'].
  match goal with |- context [TransactionSignMachine.sign ?m ?c ?b] => destruct (TransactionSignMachine.sign m c b) as [[m' shares]|e|] end; [|destruct H as [(l & ps & Hl & _)|[Hv|H]]|exact H].
  2:{ discriminate Hl. }
  2:{ exfalso. match type of Hv with keys_view ?k ?l = None => change (match decide (l = [1%nat]) with left _ => Some (example_view k) | right _ => None end = None) in Hv end.
      rewrite decide_True in Hv by (vm_compute; reflexivity). discriminate Hv. }
  2:{ exact H. }
  intros tx Htx. specialize (H ∅). rewrite Htx in H. exact H.
Defined.
End Witness.
