(* ===== verification/DaemonEpee.v ===== *)
(** [interface/daemon/src/bin_rpc/epee.rs]: what the client of a daemon extracts
    of its binary responses, over the decoder's handles.  A computation takes
    the decoder, which the handles borrow, from state to state; a handle which
    goes out of scope is dropped where the code drops it.  Handles dropped as
    an error is returned, or as a function ends, act on a decoder which nobody
    sees again, and are left out, as is the drop of an iterator which ended. *)

From Stdlib Require Import ZArith Lia.
From stdpp Require Import base list strings numbers.
From S2P Require Import Prelude Dalek MoneroIo Ed25519 RingCT Transaction Block Epee Interface.

Import InterfaceError(InternalError, InvalidInterface).

(** Why a computation stops: with an error, or as its methodology isn't
    applicable, [return Ok(None)] *)
Inductive stop : Type := Fails (e : InterfaceError.t) | Inapplicable.

Class From (E : Type) := from : InterfaceError.t -> E.
#[export] Instance from_self : From InterfaceError.t := fun e => e.
#[export] Instance from_fails : From stop := Fails.

Module DaemonEpee.

Section Loops.
Context {E : Type} {EF : From E}.

(** [?], of an error of the interface *)
Definition try {S A} (m : outcome InterfaceError.t A) : query S E A := qlift (omap_err from m).

(** [From<EpeeError> for InterfaceError] *)
Definition of_epee (err : EpeeError) : E := from (InvalidInterface "EpeeError::{:?}").

(** A method of the handles, with [.map_err(EpeeError)?] *)
Definition epee {A} (f : Epee.t -> outcome EpeeError A * Epee.t) : query Epee.t E A := qmap_err of_epee f.

(** A handle goes out of scope. *)
Definition drops (drop : Epee.t -> outcome E Epee.t) : query Epee.t E unit := fun d =>
  match drop d with
  | Ok d => (Ok tt, d)
  | Err e => (Err e, d)
  | Panic => (Panic, d)
  end.

Definition drop_entry (entry : EpeeEntry.t) : query Epee.t E unit := drops (EpeeEntry.drop entry).
Definition drop_fields (fields : FieldIterator.t) : query Epee.t E unit := drops (FieldIterator.drop fields).

(** [Iterator::next], with the error of an item *)
Definition next_field (it : FieldIterator.t) : query Epee.t E (option (bytes * EpeeEntry.t) * FieldIterator.t) := fun d =>
  match FieldIterator.next it d with
  | (None, (it, d)) => (Ok (None, it), d)
  | (Some (Ok field), (it, d)) => (Ok (Some field, it), d)
  | (Some (Err e), (_, d)) => (Err (of_epee e), d)
  | (Some Panic, (_, d)) => (Panic, d)
  end.

Definition next_item (it : ArrayIterator.t) : query Epee.t E (option EpeeEntry.t * ArrayIterator.t) := fun d =>
  match ArrayIterator.next it d with
  | (None, it) => (Ok (None, it), d)
  | (Some (Ok entry), it) => (Ok (Some entry, it), d)
  | (Some (Err e), _) => (Err (of_epee e), d)
  | (Some Panic, _) => (Panic, d)
  end.

(** [while let Some(..) = it.next() { .. }], with the state of the loop: an
    iterator yields as many items as it has left, at most. *)
Section While.
Context {A : Type}.

Fixpoint fields_loop (fuel : nat) (body : A -> bytes -> EpeeEntry.t -> query Epee.t E A) (a : A) (it : FieldIterator.t) : query Epee.t E A :=
  match fuel with
  | O => qlift Panic
  | S fuel =>
      let! (field, it) := next_field it in
      match field with
      | None => qret a
      | Some (key, value) => let! a := body a key value in fields_loop fuel body a it
      end
  end.

Definition while_fields (body : A -> bytes -> EpeeEntry.t -> query Epee.t E A) (a : A) (it : FieldIterator.t) : query Epee.t E A :=
  fields_loop (S (Z.to_nat (FieldIterator.len it))) body a it.

Fixpoint items_loop (fuel : nat) (body : A -> EpeeEntry.t -> query Epee.t E A) (a : A) (it : ArrayIterator.t) : query Epee.t E A :=
  match fuel with
  | O => qlift Panic
  | S fuel =>
      let! (entry, it) := next_item it in
      match entry with
      | None => qret a
      | Some entry => let! a := body a entry in items_loop fuel body a it
      end
  end.

Definition while_items (body : A -> EpeeEntry.t -> query Epee.t E A) (a : A) (it : ArrayIterator.t) : query Epee.t E A :=
  items_loop (S (Z.to_nat (ArrayIterator.len it))) body a it.

(** [optional_field!] and [field!], with what's left of the iterator; an entry
    of another key goes out of scope. *)
Fixpoint optional_field_loop (fuel : nat) (field : string) (body : EpeeEntry.t -> query Epee.t E A) (it : FieldIterator.t)
  : query Epee.t E (option A * FieldIterator.t) :=
  match fuel with
  | O => qlift Panic
  | S fuel =>
      let! (entry, it) := next_field it in
      match entry with
      | None => qret (None, it)
      | Some (key, value) =>
          if bytes_eqb key (bstr field) then let! a := body value in qret (Some a, it)
          else let! _ := drop_entry value in optional_field_loop fuel field body it
      end
  end.

Definition optional_field (field : string) (body : EpeeEntry.t -> query Epee.t E A) (it : FieldIterator.t)
  : query Epee.t E (option A * FieldIterator.t) :=
  optional_field_loop (S (Z.to_nat (FieldIterator.len it))) field body it.

Definition field (field : string) (body : EpeeEntry.t -> query Epee.t E A) (it : FieldIterator.t) : query Epee.t E A :=
  let! (a, _) := optional_field field body it in
  try (ok_or a (InvalidInterface "expected field {} but it wasn't present")).

(** [Epee::new(epee)?.entry()?.fields()?], and what's done with the fields *)
Definition with_root (encoding : bytes) (k : FieldIterator.t -> query Epee.t E A) : outcome E A :=
  let? d := omap_err of_epee (Epee.new encoding) in
  fst ((let! root := qlift (omap_err of_epee (entry d)) in let! it := epee (fields root) in k it) d).
End While.

(** The conversion to an array can't fail. *)
Definition epee_32 (entry : EpeeEntry.t) : query Epee.t E bytes :=
  let! str := epee (to_fixed_len_str entry 32) in
  if (length str =? 32)%nat then qret str else qlift Panic.
End Loops.

Definition is_key (key : bytes) (name : string) : bool := bytes_eqb key (bstr name).

(** ** [status], and [get_output_distribution.bin] *)

Definition check_status (encoding : bytes) : outcome InterfaceError.t unit :=
  with_root encoding (fun it =>
    let! status := field "status" (fun e => epee (to_str e)) it in
    if negb (bytes_eqb status (bstr "OK")) then qlift (Err (InvalidInterface "epee `status` wasn't `OK`")) else qret tt).

(** [usize::try_from] *)
Definition usize_of (x : Z) (msg : string) : outcome InterfaceError.t Z :=
  if x <? 2 ^ USIZE_BITS then Ok x else Err (InvalidInterface msg).

Definition extract_start_height (encoding : bytes) : outcome InterfaceError.t Z :=
  with_root encoding (fun it =>
    let! distributions := field "distributions" (fun e => epee (fields e)) it in
    let! start_height := field "start_height" (fun e => epee (to_u64 e)) distributions in
    qlift (usize_of start_height "`start_height` did not fit within a `usize`")).

Fixpoint read_u64_array_from_epee (len : nat) (encoding : bytes) : outcome InterfaceError.t (list Z) :=
  match len with
  | O => Ok []
  | S len =>
      match read_u64 encoding with
      | (Ok x, encoding) => let? xs := read_u64_array_from_epee len encoding in Ok (x :: xs)
      | (Err _, _) => Err (InternalError "incomplete array despite precondition the array is complete")
      | (Panic, _) => Panic
      end
  end.

Definition extract_distribution (encoding : bytes) (expected_len : Z) : outcome InterfaceError.t (list Z) :=
  with_root encoding (fun it =>
    let! distributions := field "distributions" (fun e => epee (fields e)) it in
    let! fixed_len_str := qlift (if expected_len * 8 <? 2 ^ USIZE_BITS then Ok (expected_len * 8)
      else Err (InternalError "requested a distribution whose byte length doesn't fit within a `usize`")) in
    let! distribution := field "distribution" (fun e => epee (to_fixed_len_str e fixed_len_str)) distributions in
    qlift (read_u64_array_from_epee (Z.to_nat expected_len) distribution)).

(** ** [get_o_indexes.bin] *)

Definition push_u64 {E} {EF : From E} (res : list Z) (entry : EpeeEntry.t) : query Epee.t E (list Z) :=
  let! index := epee (to_u64 entry) in qret (res ++ [index]).

Definition extract_output_indexes (encoding : bytes) : outcome InterfaceError.t (list Z) :=
  with_root encoding (fun it =>
    let! (indexes, _) := optional_field "o_indexes" (fun e => epee (iterate e)) it in
    match indexes with
    | None => qret []
    | Some indexes => while_items push_u64 [] indexes
    end).

(** ** [get_outs.bin] *)

Section Outs.
Context {D : Dalek}.

(** The fields of an output as they're found *)
Record out := mk_out { o_height : option Z; o_key : option CompressedPoint; o_mask : option CompressedPoint; o_txid : option bytes; o_unlocked : option bool }.

Definition out_field (o : out) (key : bytes) (value : EpeeEntry.t) : query Epee.t InterfaceError.t out :=
  if is_key key "height" then let! x := epee (to_u64 value) in qret (mk_out (Some x) (o_key o) (o_mask o) (o_txid o) (o_unlocked o))
  else if is_key key "key" then let! x := epee_32 value in qret (mk_out (o_height o) (Some x) (o_mask o) (o_txid o) (o_unlocked o))
  else if is_key key "mask" then let! x := epee_32 value in qret (mk_out (o_height o) (o_key o) (Some x) (o_txid o) (o_unlocked o))
  else if is_key key "txid" then let! x := epee_32 value in qret (mk_out (o_height o) (o_key o) (o_mask o) (Some x) (o_unlocked o))
  else if is_key key "unlocked" then let! x := epee (to_bool value) in qret (mk_out (o_height o) (o_key o) (o_mask o) (o_txid o) (Some x))
  else let! _ := drop_entry value in qret o.

Definition out_of (o : out) : outcome InterfaceError.t RingCtOutputInformation.t :=
  match o with
  | mk_out (Some block_number) (Some key) (Some commitment) (Some transaction) (Some unlocked) =>
      let? block_number := usize_of block_number "`get_outs.bin` returned an block number not representable within a `usize`" in
      let? commitment := ok_or (CompressedPoint.decompress commitment) (InvalidInterface "`get_outs.bin` returned an invalid commitment") in
      Ok (RingCtOutputInformation.mk block_number unlocked key commitment transaction)
  | _ => Err (InvalidInterface "missing field in output from `get_outs.bin`")
  end.

Definition accumulate_out (res : list RingCtOutputInformation.t) (entry : EpeeEntry.t)
  : query Epee.t InterfaceError.t (list RingCtOutputInformation.t) :=
  let! it := epee (fields entry) in
  let! o := while_fields out_field (mk_out None None None None None) it in
  let! info := qlift (out_of o) in
  qret (res ++ [info]).

Definition accumulate_outs (encoding : bytes) (amount : Z) (res : list RingCtOutputInformation.t)
  : outcome InterfaceError.t (list RingCtOutputInformation.t) :=
  let start := len res in
  with_root encoding (fun it =>
    let! outs := field "outs" (fun e => epee (iterate e)) it in
    let! res := while_items accumulate_out res outs in
    if negb (len res =? start + amount)
    then qlift (Err (InvalidInterface "`get_outs.bin` had a distinct amount of outs than expected")) else qret res).
End Outs.

(** ** [get_blocks.bin] *)

Section Blocks.
Context {D : Dalek}.
Import TransactionPrefix.

Abbreviation decodes A := (query Epee.t stop A).

Definition invalid {S A} (msg : string) : query S stop A := qlift (Err (from (InvalidInterface msg))).

(** A value is read of a string in full. *)
Definition read_str_of {A} (r : io_reader A) (not_read extraneous : string) (value : EpeeEntry.t) : decodes A :=
  let! encoding := epee (to_str value) in
  match r encoding with
  | (Ok a, []) => qret a
  | (Ok _, _ :: _) => invalid extraneous
  | (Err _, _) => invalid not_read
  | (Panic, _) => qlift Panic
  end.

(** The fields of a transaction *)
Definition tx_field (x : option (Transaction Pruned) * option bytes) (key : bytes) (value : EpeeEntry.t)
  : decodes (option (Transaction Pruned) * option bytes) :=
  if is_key key "blob" then
    let! transaction := read_str_of (Transaction.read (P := Pruned)) "invalid transaction: {e:?}" "transaction had extraneous bytes after it" value in
    qret (Some transaction, snd x)
  else if is_key key "prunable_hash" then let! hash := epee_32 value in qret (fst x, Some hash)
  else let! _ := drop_entry value in qret x.

(** A transaction which should have a prunable hash and doesn't is [Inapplicable]. *)
Definition tx_of (x : option (Transaction Pruned) * option bytes) : outcome stop PrunedTransactionWithPrunableHash.t :=
  match x with
  | (None, _) => Err (from (InvalidInterface "transaction without transaction encoding"))
  | (Some transaction, prunable_hash) =>
      let prunable_hash := match transaction with V1 _ _ => None | V2 _ _ => prunable_hash end in
      let missing := match prunable_hash with None => true | Some hash => bytes_eqb hash (repeat 0 32) end in
      let? _ := match transaction with V2 _ (Some _) => if missing then Err Inapplicable else Ok tt | _ => Ok tt end in
      ok_or (PrunedTransactionWithPrunableHash.new transaction prunable_hash) (from (InvalidInterface "non-v1 transaction missing prunable hash"))
  end.

Definition push_tx (transactions : list PrunedTransactionWithPrunableHash.t) (entry : EpeeEntry.t)
  : decodes (list PrunedTransactionWithPrunableHash.t) :=
  let! it := epee (fields entry) in
  let! x := while_fields tx_field (None, None) it in
  let! transaction := qlift (tx_of x) in
  qret (transactions ++ [transaction]).

(** The fields of a block *)
Definition block_field (x : option Block.t * list PrunedTransactionWithPrunableHash.t) (key : bytes) (value : EpeeEntry.t)
  : decodes (option Block.t * list PrunedTransactionWithPrunableHash.t) :=
  if is_key key "block" then
    let! block := read_str_of Block.read "invalid block: {e:?}" "block had extraneous bytes after it" value in
    qret (Some block, snd x)
  else if is_key key "txs" then
    let! transaction_entries := epee (iterate value) in
    let! transactions := while_items push_tx (snd x) transaction_entries in
    qret (fst x, transactions)
  else let! _ := drop_entry value in qret x.

Definition push_block (res : list (Block.t * list PrunedTransactionWithPrunableHash.t)) (entry : EpeeEntry.t)
  : decodes (list (Block.t * list PrunedTransactionWithPrunableHash.t)) :=
  let! block_fields := epee (fields entry) in
  let! (block, transactions) := while_fields block_field (None, []) block_fields in
  match block with
  | Some block => qret (res ++ [(block, transactions)])
  | None => invalid "block entry itself was missing the block"
  end.

(** The indexes of a transaction, and of a block *)
Definition push_indices (push : list Z -> EpeeEntry.t -> decodes (list Z)) (res : list Z) (entry : EpeeEntry.t) : decodes (list Z) :=
  let! it := epee (fields entry) in
  let! (indices, it) := optional_field "indices" (fun e => epee (iterate e)) it in
  match indices with
  | None => let! _ := drop_fields it in qret res
  | Some indices =>
      let! res := while_items push res indices in
      let! _ := drop_fields it in
      qret res
  end.

Definition blocks_bin_field (x : list (Block.t * list PrunedTransactionWithPrunableHash.t) * list Z) (key : bytes) (value : EpeeEntry.t)
  : decodes (list (Block.t * list PrunedTransactionWithPrunableHash.t) * list Z) :=
  if is_key key "blocks" then
    let! blocks := epee (iterate value) in
    let! res := while_items push_block (fst x) blocks in
    qret (res, snd x)
  else if is_key key "output_indices" then
    let! blocks := epee (iterate value) in
    let! indexes := while_items (push_indices (push_indices push_u64)) (snd x) blocks in
    qret (fst x, indexes)
  else let! _ := drop_entry value in qret x.

(** The first index of a RingCT output, and the indexes left *)
Definition handle_transaction {P : PotentiallyPruned} (x : option Z * list Z) (transaction : Transaction P)
  : outcome InterfaceError.t (option Z * list Z) :=
  let (first, all_output_indexes) := x in
  let outputs := length (outputs (Transaction.prefix transaction)) in
  if (length all_output_indexes <? outputs)%nat
  then Err (InvalidInterface "block entry omitted output indexes for present transactions")
  else
    let? first :=
      match transaction with
      | V2 _ _ =>
          if (outputs =? 0)%nat then Ok first
          else let? index := index all_output_indexes 0 in Ok (match first with Some first => Some first | None => Some index end)
      | V1 _ _ => Ok first
      end in
    Ok (first, drop outputs all_output_indexes).

Definition handle_block (x : list UnvalidatedScannableBlock.t * list Z) (y : Block.t * list PrunedTransactionWithPrunableHash.t)
  : outcome InterfaceError.t (list UnvalidatedScannableBlock.t * list Z) :=
  let (block, transactions) := y in
  let? s := handle_transaction (None, snd x) (Transaction.into_pruned (Block.miner_transaction block)) in
  let? (first, all_output_indexes) := ofold handle_transaction s (map PrunedTransactionWithPrunableHash.transaction transactions) in
  Ok (fst x ++ [UnvalidatedScannableBlock.mk block transactions first], all_output_indexes).

Definition extract_blocks_from_blocks_bin (encoding : bytes) : outcome InterfaceError.t (option (list UnvalidatedScannableBlock.t)) :=
  match with_root encoding (while_fields blocks_bin_field ([], [])) with
  | Ok (res, all_output_indexes) =>
      let? (result, all_output_indexes) := ofold handle_block ([], all_output_indexes) res in
      match all_output_indexes with
      | [] => Ok (Some result)
      | _ :: _ => Err (InvalidInterface "`get_blocks.bin` had a distinct amount of output indexes than transaction outputs")
      end
  | Err (Fails e) => Err e
  | Err Inapplicable => Ok None
  | Panic => Panic
  end.
End Blocks.
End DaemonEpee.
