(* ===== verification/DaemonEpeeProofs.v ===== *)
(** What the client extracts of any bytes is well formed, and extracting never
    panics ([interface/daemon/src/bin_rpc/epee.rs]): a sound decoder is kept by
    every computation over its handles. *)

From Stdlib Require Import ZArith Lia.
From stdpp Require Import base list strings numbers.
From S2P Require Import Prelude Dalek MoneroIo Ed25519 RingCT Transaction Block Epee Interface DaemonEpee.

Import InterfaceError(InternalError, InvalidInterface).
Import DaemonEpee.

(** What doesn't panic, and satisfies [Q] if it succeeds *)
Definition yields {E A} (m : outcome E A) (Q : A -> Prop) : Prop :=
  match m with Ok a => Q a | Err _ => True | Panic => False end.

Section Yields.
Context {E : Type}.

Lemma yields_bind {A B} (P : A -> Prop) (m : outcome E A) (k : A -> outcome E B) Q :
  yields m P -> (forall a, P a -> yields (k a) Q) -> yields (obind m k) Q.
Proof. destruct m; cbn; auto. Qed.

Lemma yields_mono {A} (P Q : A -> Prop) (m : outcome E A) : (forall a, P a -> Q a) -> yields m P -> yields m Q.
Proof. destruct m; cbn; auto. Qed.

Lemma yields_ok_or {A} (o : option A) (e : E) (Q : A -> Prop) : (forall a, o = Some a -> Q a) -> yields (ok_or o e) Q.
Proof. destruct o; cbn; auto. Qed.

Lemma yields_fold {A X} (P : X -> Prop) (f : X -> A -> outcome E X) l x :
  (forall x a, a ∈ l -> P x -> yields (f x a) P) -> P x -> yields (ofold f x l) P.
Proof.
  revert x. induction l as [|a l IH]; intros x Hf Hx; cbn [ofold]; [exact Hx|].
  eapply yields_bind; [exact (Hf x a ltac:(left) Hx)|]. intros x' Hx'. apply IH; [|exact Hx']. intros; apply Hf; [right|]; assumption.
Qed.

Lemma yields_each {A B} (Q : B -> Prop) (f : A -> outcome E B) l :
  (forall a, a ∈ l -> yields (f a) Q) -> yields (each f l) (fun bs => Forall Q bs /\ length bs = length l).
Proof.
  induction l as [|a l IH]; intros Hf; cbn [each]; [split; [constructor|reflexivity]|].
  eapply yields_bind; [apply Hf; left|]. intros b Hb. eapply yields_bind; [apply IH; intros; apply Hf; right; assumption|].
  intros bs [Hbs Hl]. split; [constructor; assumption|cbn; congruence].
Qed.
End Yields.

Section Keeps.
Context {E : Type}.

(** A computation over a sound decoder doesn't panic, and if it succeeds leaves
    it sound and satisfies [Q]. *)
Definition keeps {A} (m : query Epee.t E A) (Q : A -> Prop) : Prop := forall d, sound (state d) ->
  match m d with
  | (Ok a, d) => Q a /\ sound (state d)
  | (Err _, _) => True
  | (Panic, _) => False
  end.

Lemma keeps_ret {A} (a : A) (Q : A -> Prop) : Q a -> keeps (qret a) Q.
Proof. intros H d Hd. split; assumption. Qed.

Lemma keeps_err {A} (e : E) (Q : A -> Prop) : keeps (qlift (Err e)) Q.
Proof. intros d _. exact I. Qed.

Lemma keeps_lift {A} (m : outcome E A) (Q : A -> Prop) :
  yields m Q -> keeps (qlift m) Q.
Proof. intros H d Hd. unfold qlift, yields in *. destruct m; [split; assumption|exact I|exact H]. Qed.

Lemma keeps_bind {A B} (P : A -> Prop) (m : query Epee.t E A) (k : A -> query Epee.t E B) Q :
  keeps m P -> (forall a, P a -> keeps (k a) Q) -> keeps (qbind m k) Q.
Proof.
  intros Hm Hk d Hd. specialize (Hm d Hd). unfold qbind. destruct (m d) as [[a|e|] d']; [|exact I|exact Hm].
  destruct Hm as [Ha Hd']. exact (Hk a Ha d' Hd').
Qed.

Lemma keeps_mono {A} (P Q : A -> Prop) (m : query Epee.t E A) : (forall a, P a -> Q a) -> keeps m P -> keeps m Q.
Proof. intros H Hm d Hd. specialize (Hm d Hd). destruct (m d) as [[a|e|] d']; [|exact I|exact Hm]. destruct Hm. split; auto. Qed.

Context {EF : From E}.

Lemma keeps_epee {A} (f : Epee.t -> outcome EpeeError A * Epee.t) (Q : A -> Prop) :
  (forall d, sound (state d) -> safe (f d) /\ forall a d', f d = (Ok a, d') -> Q a) -> keeps (epee f) Q.
Proof.
  intros H d Hd. destruct (H d Hd) as [[Hn Hs] HQ]. unfold epee, qmap_err. destruct (f d) as [[a|e|] d']; [|exact I|exact Hn].
  split; [exact (HQ a d' eq_refl)|exact Hs].
Qed.

Lemma keeps_drops drop (H : forall d, sound (state d) -> exists d', drop d = Ok d' /\ sound (state d')) :
  keeps (drops drop) (fun _ => True).
Proof. intros d Hd. unfold drops. destruct (H d Hd) as (d' & -> & Hs). split; [exact I|exact Hs]. Qed.

Lemma sound_holds d : sound d -> exists items, holds d items.
Proof. intros [Hb (l & Hr)]. exists (expand l). split; [exact Hb|eauto]. Qed.

Lemma new_no_panic encoding : is_bytes encoding -> Epee.new encoding <> Panic.
Proof.
  intros Hb. unfold Epee.new. destruct (read_bytes_safe (len HEADER) encoding Hb) as [Hn [p1 Hp1]].
  destruct (read_bytes (len HEADER) encoding) as [[h|e|] bs1]; [|discriminate|contradiction]. cbn [snd] in Hp1.
  rewrite Hp1 in Hb. apply is_bytes_app_r in Hb. destruct (negb _); [discriminate|]. unfold rok.
  destruct (epee_read_byte_safe bs1 Hb) as [Hn' _].
  assert (H : forall v, (if negb (bool_decide (v = Some VERSION)) then Err (InvalidVersion v)
    else let? s := Stack.root_object in Ok (Epee.mk (snd (read_byte bs1)) s None)) <> Panic).
  { intros v. destruct (negb _); [discriminate|]. destruct (root_object_refines (E := EpeeError)) as (s & -> & _). discriminate. }
  destruct (read_byte bs1) as [[v|e|] bs2]; [apply (H (Some v))|apply (H None)|contradiction].
Qed.

Abbreviation entry_wf e := (Client.wf (Client.HEntry e)).

Lemma keeps_drop_entry e : entry_wf e -> keeps (drop_entry (E := E) e) (fun _ => True).
Proof.
  intros Hw. apply keeps_drops. intros d Hd. unfold EpeeEntry.drop. rewrite (proj1 Hw). exact (drop_loop_sound _ d Hd).
Qed.

Lemma keeps_drop_fields it : keeps (drop_fields (E := E) it) (fun _ => True).
Proof. apply keeps_drops. intros d Hd. exact (drop_loop_sound _ d Hd). Qed.

Lemma keeps_fields e : entry_wf e -> keeps (epee (fields e)) (fun it => 0 <= FieldIterator.len it).
Proof.
  intros Hw. apply keeps_epee. intros d Hd. split; [exact (fields_safe e d Hw Hd)|]. intros it d' H.
  apply fields_ok in H as (_ & _ & _ & _ & Hst). destruct (sound_holds _ Hd) as [items Hh].
  exact (proj2 (single_step_holds _ _ _ _ Hh Hst)).
Qed.

Lemma keeps_iterate e : entry_wf e -> keeps (epee (iterate e)) (fun it => 0 <= ArrayIterator.len it).
Proof.
  intros Hw. apply keeps_epee. intros d Hd. split.
  - unfold iterate, EpeeEntry.take, dropping. destruct e as [[] k n]; cbn; [|split; [exact I|exact Hd]].
    destruct (Epee.error d); (split; [exact I|exact Hd]).
  - intros it d' H. apply iterate_ok in H as [_ ->]. apply Hw.
Qed.

Lemma keeps_next_field it : 0 <= FieldIterator.len it -> keeps (next_field (E := E) it) (fun x =>
  match x with
  | (Some (_, e), it') => entry_wf e /\ 0 <= FieldIterator.len it' < FieldIterator.len it
  | (None, _) => True
  end).
Proof.
  intros Hw d Hd. unfold next_field. destruct (FieldIterator.next it d) as [o [it' d']] eqn:Hn.
  destruct (next_field_safe it d o it' d' Hw Hd Hn) as (Hp & Hs & Hl). destruct o as [[[key e]|err|]|]; [|exact I|exact (Hp _ eq_refl)|split; [exact I|exact Hs]].
  apply next_field_ok in Hn as (_ & _ & Hne & -> & Hroot & Hst). split; [|exact Hs]. split; [|cbn in *; lia].
  destruct (sound_holds _ Hd) as [items Hh]. rewrite Hroot. split; [reflexivity|]. exact (proj2 (single_step_holds _ _ _ _ Hh Hst)).
Qed.

Lemma keeps_next_item it : 0 <= ArrayIterator.len it -> keeps (next_item (E := E) it) (fun x =>
  match x with
  | (Some e, it') => entry_wf e /\ 0 <= ArrayIterator.len it' < ArrayIterator.len it
  | (None, _) => True
  end).
Proof.
  intros Hw d Hd. unfold next_item. destruct (ArrayIterator.next it d) as [o it'] eqn:Hn. destruct o as [[e|err|]|].
  - apply next_item_ok in Hn as (-> & Hne & ->). split; [|exact Hd]. repeat split; cbn; lia.
  - exact I.
  - unfold ArrayIterator.next in Hn. destruct (Epee.error d); [discriminate|]. destruct (_ =? 0); discriminate.
  - split; [exact I|exact Hd].
Qed.

(** What's read of an entry is what the reader yields of some bytes. *)
Lemma to_read_value {A} k (r : epee_reader A) e d a d' : sound (state d) -> to_read k r e d = (Ok a, d') ->
  exists bs rest, is_bytes bs /\ r bs = (Ok a, rest).
Proof.
  intros [Hb (l & Hr)]. unfold to_read. destruct (_ || _).
  - unfold dropping. destruct (EpeeEntry.drop e d); discriminate.
  - unfold EpeeEntry.take, dropping. destruct (EpeeEntry.root e); [|discriminate]. destruct (Epee.error d); [discriminate|].
    unfold Epee.run, pop_and_read, dbind, dpop, on_encoding. destruct (pop_refines (E := EpeeError) _ _ Hr) as (s' & Hp & _).
    cbn [state fst snd] in *. rewrite Hp. cbn [fst snd]. destruct (r (Epee.current_encoding_state d)) as [o bs] eqn:Hrd.
    cbn [EpeeEntry.drop EpeeEntry.root]. intros [= -> _]. exists (Epee.current_encoding_state d), bs. auto.
Qed.

Lemma to_primitive_value k n e d bs d' : sound (state d) -> to_primitive k n e d = (Ok bs, d') -> is_bytes bs /\ length bs = Z.to_nat n.
Proof.
  intros Hd H. apply to_read_value in H as (b & rest & Hb & Hr); [|exact Hd]. apply read_bytes_inv in Hr as [-> Hl].
  split; [exact (proj1 (proj1 (is_bytes_app _ _) Hb))|exact Hl].
Qed.

Lemma keeps_to_u64 e : entry_wf e -> keeps (epee (to_u64 e)) (U 64).
Proof.
  intros Hw. apply keeps_epee. intros d Hd. pose proof (to_read_safe Uint64 (read_bytes 8) e d (read_bytes_safe 8) (fails_read_bytes 8) Hw Hd) as Hs.
  unfold to_u64, map_res. fold (to_primitive Uint64 8) in *. destruct (to_primitive Uint64 8 e d) as [[bs|x|] d1] eqn:Hp; cbn [fst snd obind].
  - split; [exact Hs|]. intros a d' [= <- _]. destruct (to_primitive_value _ _ _ _ _ _ Hd Hp) as [Hb Hl]. pose proof (from_le_U bs Hb) as H.
    unfold len in H. rewrite Hl in H. exact H.
  - split; [exact Hs|discriminate].
  - destruct Hs as [[] _].
Qed.

Lemma keeps_to_bool e : entry_wf e -> keeps (epee (to_bool e)) (fun _ => True).
Proof.
  intros Hw. apply keeps_epee. intros d Hd. split; [|auto].
  pose proof (to_read_safe Bool (read_bytes 1) e d (read_bytes_safe 1) (fails_read_bytes 1) Hw Hd) as Hs.
  unfold to_bool, map_res. fold (to_primitive Bool 1) in *. destruct (to_primitive Bool 1 e d) as [[bs|x|] d1]; exact Hs.
Qed.

Lemma read_str_bytes bs a rest : is_bytes bs -> read_str bs = (Ok a, rest) -> is_bytes a.
Proof.
  intros Hb H. unfold read_str in H. apply rbind_ok_inv in H as (n & b1 & Hn & H). apply rbind_ok_inv in H as (u & b2 & Hu & H).
  destruct (read_varint_safe bs Hb) as [_ [pre Hpre]]. rewrite Hn in Hpre. cbn [snd] in Hpre.
  apply to_usize_inv in Hu as (-> & -> & _). apply read_bytes_inv in H as [-> _]. subst bs.
  apply is_bytes_app_r in Hb. apply is_bytes_app in Hb as [Hb _]. exact Hb.
Qed.

Lemma to_str_safe e d : entry_wf e -> sound (state d) -> safe (to_str e d) /\ forall a d', to_str e d = (Ok a, d') -> is_bytes a.
Proof.
  intros Hw Hd. split; [apply to_read_safe; [unfold read_str; safe_tac; auto using read_varint_safe, to_usize_safe, read_bytes_safe|apply fails_read_str|exact Hw|exact Hd]|].
  intros a d' H. apply to_read_value in H as (b & rest & Hb & Hr); [|exact Hd]. exact (read_str_bytes _ _ _ Hb Hr).
Qed.

Lemma keeps_to_str e : entry_wf e -> keeps (epee (to_str e)) is_bytes.
Proof. intros Hw. apply keeps_epee. intros d Hd. exact (to_str_safe e d Hw Hd). Qed.

Lemma keeps_to_fixed_len_str e n : entry_wf e -> keeps (epee (to_fixed_len_str e n)) (fun bs => is_bytes bs /\ len bs = n).
Proof.
  intros Hw. apply keeps_epee. intros d Hd. destruct (to_str_safe e d Hw Hd) as [[Hn Hs] HQ]. unfold to_fixed_len_str.
  destruct (to_str e d) as [[a|x|] d']; cbn [obind fst snd] in *; [|split; [split; assumption|discriminate]|destruct Hn].
  destruct (Z.eqb_spec (len a) n) as [Hl|]; cbn [negb]; (split; [split; [exact I|exact Hs]|]); [|discriminate].
  intros b d2 [= <- <-]. split; [exact (HQ a d' eq_refl)|exact Hl].
Qed.

Lemma keeps_epee_32 e : entry_wf e -> keeps (epee_32 e) (is_array 32).
Proof.
  intros Hw. eapply keeps_bind; [apply keeps_to_fixed_len_str, Hw|]. intros bs [Hb Hl]. unfold len in Hl.
  destruct (Nat.eqb_spec (length bs) 32); [|lia]. apply keeps_ret. split; assumption.
Qed.

(** ** The loops *)

Section While.
Context {A : Type} (P : A -> Prop).

Lemma keeps_while_fields body a it : (forall a key e, P a -> entry_wf e -> keeps (body a key e) P) ->
  P a -> 0 <= FieldIterator.len it -> keeps (while_fields body a it) P.
Proof.
  intros Hb Ha Hl. unfold while_fields. remember (S (Z.to_nat (FieldIterator.len it))) as fuel eqn:Hf.
  assert (H : (Z.to_nat (FieldIterator.len it) < fuel)%nat) by lia. clear Hf.
  revert a it Ha Hl H. induction fuel as [|fuel IH]; intros a it Ha Hl H; [lia|]. cbn [fields_loop].
  eapply keeps_bind; [exact (keeps_next_field it Hl)|]. intros [[[key e]|] it'] Hx; [|apply keeps_ret, Ha].
  destruct Hx as [Hw Hi]. eapply keeps_bind; [exact (Hb a key e Ha Hw)|]. intros a' Ha'. apply IH; [exact Ha'|lia|lia].
Qed.

Lemma keeps_while_items body a it : (forall a e, P a -> entry_wf e -> keeps (body a e) P) ->
  P a -> 0 <= ArrayIterator.len it -> keeps (while_items body a it) P.
Proof.
  intros Hb Ha Hl. unfold while_items. remember (S (Z.to_nat (ArrayIterator.len it))) as fuel eqn:Hf.
  assert (H : (Z.to_nat (ArrayIterator.len it) < fuel)%nat) by lia. clear Hf.
  revert a it Ha Hl H. induction fuel as [|fuel IH]; intros a it Ha Hl H; [lia|]. cbn [items_loop].
  eapply keeps_bind; [exact (keeps_next_item it Hl)|]. intros [[e|] it'] Hx; [|apply keeps_ret, Ha].
  destruct Hx as [Hw Hi]. eapply keeps_bind; [exact (Hb a e Ha Hw)|]. intros a' Ha'. apply IH; [exact Ha'|lia|lia].
Qed.

Lemma keeps_optional_field name body it : (forall e, entry_wf e -> keeps (body e) P) -> 0 <= FieldIterator.len it ->
  keeps (optional_field name body it) (fun x => match fst x with Some a => P a | None => True end).
Proof.
  intros Hb Hl. unfold optional_field. remember (S (Z.to_nat (FieldIterator.len it))) as fuel eqn:Hf.
  assert (H : (Z.to_nat (FieldIterator.len it) < fuel)%nat) by lia. clear Hf.
  revert it Hl H. induction fuel as [|fuel IH]; intros it Hl H; [lia|]. cbn [optional_field_loop].
  eapply keeps_bind; [exact (keeps_next_field it Hl)|]. intros [[[key e]|] it'] Hx; [|apply keeps_ret; exact I].
  destruct Hx as [Hw Hi]. destruct (bytes_eqb key (bstr name)).
  - eapply keeps_bind; [exact (Hb e Hw)|]. intros a' Ha'. apply keeps_ret. exact Ha'.
  - eapply keeps_bind; [exact (keeps_drop_entry e Hw)|]. intros _ _. apply IH; lia.
Qed.

Lemma keeps_field name body it : (forall e, entry_wf e -> keeps (body e) P) -> 0 <= FieldIterator.len it ->
  keeps (field name body it) P.
Proof.
  intros Hb Hl. eapply keeps_bind; [exact (keeps_optional_field name body it Hb Hl)|]. intros [[a|] it'] Ha; [|exact (keeps_err _ P)].
  apply keeps_ret. exact Ha.
Qed.

(** Whatever the bytes, the decoder is sound. *)
Lemma with_root_ok encoding k : is_bytes encoding -> (forall it, 0 <= FieldIterator.len it -> keeps (k it) P) ->
  yields (with_root encoding k) P.
Proof.
  intros Hb Hk. unfold with_root. destruct (Epee.new encoding) as [d|x|] eqn:He; cbn [omap_err obind].
  - destruct (new_holds encoding d Hb He) as [Hh _]. apply holds_sound in Hh.
    assert (H : keeps (let! root := qlift (omap_err of_epee (entry d)) in let! it := epee (fields root) in k it) P).
    { apply (keeps_bind (fun r => entry_wf r)).
      - apply keeps_lift. destruct (entry d) as [r|x|] eqn:Hr; cbn [omap_err]; [|exact I|].
        + apply entry_ok in Hr as [-> _]. repeat split; cbn; lia.
        + unfold entry in Hr. destruct (_ || _); discriminate.
      - intros r Hw. eapply keeps_bind; [exact (keeps_fields r Hw)|]. intros it Hit. exact (Hk it Hit). }
    specialize (H d Hh). revert H. unfold yields. destruct ((qbind _ _) d) as [[a|x|] d']; cbn [fst]; [intros H; apply H|auto..].
  - exact I.
  - exact (new_no_panic encoding Hb He).
Qed.
End While.
End Keeps.

Section Extract.
Context {D : Dalek} {DL : DalekLaws D}.

Lemma check_status_ok encoding : is_bytes encoding -> yields (check_status encoding) (fun _ => True).
Proof.
  intros Hb. apply with_root_ok; [exact Hb|]. intros it Hl. eapply keeps_bind; [apply keeps_field; [exact keeps_to_str|exact Hl]|].
  intros status _. destruct (negb _); [apply keeps_err|apply keeps_ret; exact I].
Qed.

Lemma extract_start_height_ok encoding : is_bytes encoding -> yields (extract_start_height encoding) (U USIZE_BITS).
Proof.
  intros Hb. apply with_root_ok; [exact Hb|]. intros it Hl. eapply keeps_bind; [apply keeps_field; [exact keeps_fields|exact Hl]|].
  intros ds Hds. eapply keeps_bind; [apply keeps_field; [exact keeps_to_u64|exact Hds]|]. intros h Hh. apply keeps_lift.
  unfold usize_of. destruct (_ <? _); [exact Hh|exact I].
Qed.

Lemma read_u64_array_ok n encoding : is_bytes encoding -> length encoding = (8 * n)%nat ->
  yields (read_u64_array_from_epee n encoding) (fun xs => Forall (U 64) xs /\ length xs = n).
Proof.
  revert encoding. induction n as [|n IH]; intros encoding Hb Hl; cbn [read_u64_array_from_epee]; [split; [constructor|reflexivity]|].
  destruct (codec_safe (r := read_u64) encoding Hb) as [Hn _]. destruct (read_u64 encoding) as [[x|e|] rest] eqn:Hr; [|exact I|exact Hn].
  destruct (codec_sound _ _ _ Hb Hr) as [Hx ->]. rewrite length_app, to_le_length in Hl.
  eapply yields_bind; [apply IH; [exact (is_bytes_app_r _ _ Hb)|lia]|]. intros xs [Hxs Hlen]. split; [constructor; assumption|cbn; congruence].
Qed.

Lemma extract_distribution_ok encoding expected_len : is_bytes encoding ->
  yields (extract_distribution encoding expected_len) (fun xs => Forall (U 64) xs /\ len xs = expected_len).
Proof.
  intros Hb. apply with_root_ok; [exact Hb|]. intros it Hl. eapply keeps_bind; [apply keeps_field; [exact keeps_fields|exact Hl]|].
  intros ds Hds. apply (keeps_bind (eq (expected_len * 8))); [apply keeps_lift; destruct (_ <? _); [reflexivity|exact I]|].
  intros ? <-. eapply keeps_bind; [apply keeps_field; [intros e; exact (keeps_to_fixed_len_str e _)|exact Hds]|].
  intros bs [Hbs Hlen]. unfold len in Hlen. apply keeps_lift.
  eapply yields_mono, read_u64_array_ok; [|exact Hbs|lia]. intros xs [H1 H2]. split; [exact H1|]. unfold len. lia.
Qed.

Lemma keeps_push_u64 {E} {EF : From E} res e : Forall (U 64) res -> Client.wf (Client.HEntry e) -> keeps (E := E) (push_u64 res e) (Forall (U 64)).
Proof.
  intros Hr Hw. eapply keeps_bind; [apply keeps_to_u64, Hw|]. intros i Hi. apply keeps_ret, Forall_app. auto.
Qed.

Lemma extract_output_indexes_ok encoding : is_bytes encoding -> yields (extract_output_indexes encoding) (Forall (U 64)).
Proof.
  intros Hb. apply with_root_ok; [exact Hb|]. intros it Hl.
  eapply keeps_bind; [apply keeps_optional_field; [exact keeps_iterate|exact Hl]|]. intros [[items|] it'] Hi; [|apply keeps_ret; constructor].
  apply keeps_while_items; [intros; apply keeps_push_u64; assumption|constructor|exact Hi].
Qed.

(** ** [get_outs.bin] *)

Definition info_ok (x : RingCtOutputInformation.t) : Prop :=
  U 64 (RingCtOutputInformation.block_number x) /\ is_array 32 (RingCtOutputInformation.key x) /\
  is_array 32 (RingCtOutputInformation.transaction x).

Definition out_wf (o : out) : Prop :=
  match o_height o with Some x => U 64 x | None => True end /\
  match o_key o with Some x => is_array 32 x | None => True end /\
  match o_txid o with Some x => is_array 32 x | None => True end.

Lemma keeps_out_field o key e : out_wf o -> Client.wf (Client.HEntry e) -> keeps (out_field o key e) out_wf.
Proof.
  intros (H1 & H2 & H3) Hw. unfold out_field.
  destruct (is_key key "height"); [eapply keeps_bind; [apply keeps_to_u64, Hw|]; intros; apply keeps_ret; split_and!; assumption|].
  do 3 (destruct (is_key key _); [eapply keeps_bind; [apply keeps_epee_32, Hw|]; intros; apply keeps_ret; split_and!; assumption|]).
  destruct (is_key key _); [eapply keeps_bind; [apply keeps_to_bool, Hw|]; intros; apply keeps_ret; split_and!; assumption|].
  eapply keeps_bind; [apply keeps_drop_entry, Hw|]. intros; apply keeps_ret; split_and!; assumption.
Qed.

Lemma out_of_ok o : out_wf o -> yields (out_of o) info_ok.
Proof.
  destruct o as [[h|] [k|] [m|] [t|] [u|]]; try (intros; exact I). intros (H1 & H2 & H3). cbn in *. unfold usize_of.
  destruct (_ <? _); [|exact I]. cbn [obind]. destruct (CompressedPoint.decompress m); [|exact I]. split_and!; assumption.
Qed.

Lemma keeps_accumulate_out res e : Forall info_ok res -> Client.wf (Client.HEntry e) -> keeps (accumulate_out res e) (Forall info_ok).
Proof.
  intros Hr Hw. eapply keeps_bind; [apply keeps_fields, Hw|]. intros it Hl.
  eapply keeps_bind; [apply (keeps_while_fields out_wf); [intros; apply keeps_out_field; assumption|split_and!; exact I|exact Hl]|].
  intros o Ho. eapply keeps_bind; [apply keeps_lift, out_of_ok, Ho|]. intros i Hi. apply keeps_ret, Forall_app. auto.
Qed.

Lemma accumulate_outs_ok encoding amount res : is_bytes encoding -> Forall info_ok res ->
  yields (accumulate_outs encoding amount res) (fun res' => Forall info_ok res' /\ len res' = len res + amount).
Proof.
  intros Hb Hr. apply with_root_ok; [exact Hb|]. intros it Hl. eapply keeps_bind; [apply keeps_field; [exact keeps_iterate|exact Hl]|].
  intros items Hi. eapply keeps_bind; [apply (keeps_while_items (Forall info_ok)); [intros; apply keeps_accumulate_out; assumption|exact Hr|exact Hi]|].
  intros res' Hr'. destruct (Z.eqb_spec (len res') (len res + amount)); cbn [negb]; [apply keeps_ret; auto|apply keeps_err].
Qed.
End Extract.

(** ** [get_blocks.bin] *)

Section Blocks.
Context {D : Dalek} {DL : DalekLaws D}.
Import TransactionPrefix.

Abbreviation entry_wf e := (Client.wf (Client.HEntry e)).
Abbreviation tx_ok := PrunedTransactionWithPrunableHash.ok.

Lemma keeps_read_str {A} (r : io_reader A) w Q a b e : Codec r w Q -> entry_wf e -> keeps (read_str_of r a b e) Q.
Proof.
  intros HC Hw. eapply keeps_bind; [apply keeps_to_str, Hw|]. intros bs Hb. destruct (codec_safe (r := r) bs Hb) as [Hn _].
  destruct (r bs) as [[x|err|] rest] eqn:Hr; [|apply keeps_err|destruct Hn].
  destruct (codec_sound _ _ _ Hb Hr) as [Hx _]. destruct rest; [apply keeps_ret, Hx|apply keeps_err].
Qed.

Lemma pruned_new_ok tx ph x : transaction_ok tx -> PrunedTransactionWithPrunableHash.new tx ph = Some x -> tx_ok x.
Proof.
  intros Hok. destruct tx as [p s|p [s|]]; destruct ph as [h|]; cbn; try discriminate; intros [= <-]; split; auto.
Qed.

Definition fields_ok' (x : option (Transaction Pruned) * option bytes) : Prop :=
  match fst x with Some tx => transaction_ok tx | None => True end.

Lemma keeps_tx_field x key e : fields_ok' x -> entry_wf e -> keeps (tx_field x key e) fields_ok'.
Proof.
  intros Hx Hw. unfold tx_field. destruct (is_key key "blob").
  - eapply keeps_bind; [apply (keeps_read_str _ _ _ _ _ _ transaction_codec Hw)|]. intros tx Htx. apply keeps_ret. exact Htx.
  - destruct (is_key key _).
    + eapply keeps_bind; [apply keeps_epee_32, Hw|]. intros; apply keeps_ret; exact Hx.
    + eapply keeps_bind; [apply keeps_drop_entry, Hw|]. intros; apply keeps_ret; exact Hx.
Qed.

Lemma tx_of_ok x : fields_ok' x -> yields (tx_of x) tx_ok.
Proof.
  intros Hx. unfold tx_of. destruct x as [[tx|] ph]; [|exact I]. cbn [fields_ok' fst] in Hx.
  eapply (yields_bind (fun _ => True)).
  - destruct tx as [p s|p [s|]]; [exact I| |exact I]. destruct ph as [h|]; [|exact I]. destruct (bytes_eqb _ _); exact I.
  - intros _ _. apply yields_ok_or. intros y Hy. exact (pruned_new_ok _ _ _ Hx Hy).
Qed.

Lemma keeps_push_tx txs e : Forall tx_ok txs -> entry_wf e -> keeps (push_tx txs e) (Forall tx_ok).
Proof.
  intros Ht Hw. eapply keeps_bind; [apply keeps_fields, Hw|]. intros it Hl.
  eapply keeps_bind; [apply (keeps_while_fields fields_ok'); [intros; apply keeps_tx_field; assumption|exact I|exact Hl]|].
  intros x Hx. eapply keeps_bind; [apply keeps_lift, tx_of_ok, Hx|]. intros tx Htx. apply keeps_ret, Forall_app. auto.
Qed.

Definition block_fields_ok (x : option Block.t * list PrunedTransactionWithPrunableHash.t) : Prop :=
  match fst x with Some b => block_ok b | None => True end /\ Forall tx_ok (snd x).

Lemma keeps_block_field x key e : block_fields_ok x -> entry_wf e -> keeps (block_field x key e) block_fields_ok.
Proof.
  intros [Hb Ht] Hw. unfold block_field. destruct (is_key key "block").
  - eapply keeps_bind; [apply (keeps_read_str _ _ _ _ _ _ block_codec Hw)|]. intros b Hb'. apply keeps_ret. split; assumption.
  - destruct (is_key key _).
    + eapply keeps_bind; [apply keeps_iterate, Hw|]. intros items Hi.
      eapply keeps_bind; [apply (keeps_while_items (Forall tx_ok)); [intros; apply keeps_push_tx; assumption|exact Ht|exact Hi]|].
      intros txs Htxs. apply keeps_ret. split; assumption.
    + eapply keeps_bind; [apply keeps_drop_entry, Hw|]. intros; apply keeps_ret. split; assumption.
Qed.

Definition entry_ok' (x : Block.t * list PrunedTransactionWithPrunableHash.t) : Prop := block_ok (fst x) /\ Forall tx_ok (snd x).

Lemma keeps_push_block res e : Forall entry_ok' res -> entry_wf e -> keeps (push_block res e) (Forall entry_ok').
Proof.
  intros Hr Hw. eapply keeps_bind; [apply keeps_fields, Hw|]. intros it Hl.
  eapply keeps_bind; [apply (keeps_while_fields block_fields_ok); [intros; apply keeps_block_field; assumption|split; [exact I|constructor]|exact Hl]|].
  intros [[b|] txs] [Hb Ht]; [|apply keeps_err]. apply keeps_ret, Forall_app. split; [exact Hr|]. constructor; [split; assumption|constructor].
Qed.

Lemma keeps_push_indices push res e : (forall res e, Forall (U 64) res -> entry_wf e -> keeps (push res e) (Forall (U 64))) ->
  Forall (U 64) res -> entry_wf e -> keeps (push_indices push res e) (Forall (U 64)).
Proof.
  intros Hp Hr Hw. eapply keeps_bind; [apply keeps_fields, Hw|]. intros it Hl.
  eapply keeps_bind; [apply keeps_optional_field; [exact keeps_iterate|exact Hl]|]. intros [[items|] it'] Hi.
  - eapply keeps_bind; [apply (keeps_while_items (Forall (U 64))); [exact Hp|exact Hr|exact Hi]|]. intros res' Hr'.
    eapply keeps_bind; [apply keeps_drop_fields|]. intros; apply keeps_ret, Hr'.
  - eapply keeps_bind; [apply keeps_drop_fields|]. intros; apply keeps_ret, Hr.
Qed.

Definition response_ok (x : list (Block.t * list PrunedTransactionWithPrunableHash.t) * list Z) : Prop :=
  Forall entry_ok' (fst x) /\ Forall (U 64) (snd x).

Lemma keeps_blocks_bin_field x key e : response_ok x -> entry_wf e -> keeps (blocks_bin_field x key e) response_ok.
Proof.
  intros [Hb Hi] Hw. unfold blocks_bin_field. destruct (is_key key "blocks"); [|destruct (is_key key _)].
  - eapply keeps_bind; [apply keeps_iterate, Hw|]. intros items Hl.
    eapply keeps_bind; [apply (keeps_while_items (Forall entry_ok')); [intros; apply keeps_push_block; assumption|exact Hb|exact Hl]|].
    intros res Hr. apply keeps_ret. split; assumption.
  - eapply keeps_bind; [apply keeps_iterate, Hw|]. intros items Hl.
    eapply keeps_bind; [apply (keeps_while_items (Forall (U 64))); [|exact Hi|exact Hl]|].
    + intros; do 2 (apply keeps_push_indices; [intros|assumption..]). apply keeps_push_u64; assumption.
    + intros res Hr. apply keeps_ret. split; assumption.
  - eapply keeps_bind; [apply keeps_drop_entry, Hw|]. intros; apply keeps_ret. split; assumption.
Qed.

Definition indexes_ok (x : option Z * list Z) : Prop := match fst x with Some i => U 64 i | None => True end /\ Forall (U 64) (snd x).

Lemma handle_transaction_ok {P : PotentiallyPruned} x (tx : Transaction P) : indexes_ok x -> yields (handle_transaction x tx) indexes_ok.
Proof.
  intros [Hf Hi]. destruct x as [first l]. cbn [fst snd] in *. unfold handle_transaction. cbv zeta.
  destruct (Nat.ltb_spec (length l) (length (outputs (Transaction.prefix tx)))) as [|Hle]; [exact I|].
  apply (yields_bind (fun f => match f with Some i => U 64 i | None => True end)); [|intros f Hf'; split; [exact Hf'|apply Forall_drop, Hi]].
  destruct tx as [p s|p s]; [exact Hf|]. destruct (Nat.eqb_spec (length (outputs (Transaction.prefix (V2 p s)))) 0) as [|Hne]; [exact Hf|].
  destruct l as [|i l]; [cbn [length] in Hle; lia|]. destruct first as [f|]; [exact Hf|]. exact (Forall_inv Hi).
Qed.

Lemma handle_block_ok x y : Forall UnvalidatedScannableBlock.ok (fst x) /\ Forall (U 64) (snd x) -> entry_ok' y ->
  yields (handle_block x y) (fun z => Forall UnvalidatedScannableBlock.ok (fst z) /\ Forall (U 64) (snd z)).
Proof.
  intros [Hr Hi] [Hb Ht]. destruct y as [b txs]. unfold handle_block.
  eapply yields_bind; [apply handle_transaction_ok; split; [exact I|exact Hi]|]. intros s Hs.
  eapply yields_bind; [apply (yields_fold indexes_ok); [intros; apply handle_transaction_ok; assumption|exact Hs]|].
  intros [first l] [Hf Hl]. split; [|exact Hl]. apply Forall_app. split; [exact Hr|]. constructor; [|constructor]. split_and!; assumption.
Qed.

Lemma extract_blocks_ok encoding : is_bytes encoding ->
  yields (extract_blocks_from_blocks_bin encoding) (fun bs => match bs with Some bs => Forall UnvalidatedScannableBlock.ok bs | None => True end).
Proof.
  intros Hb. unfold extract_blocks_from_blocks_bin.
  assert (H : yields (with_root encoding (while_fields blocks_bin_field ([], []))) response_ok).
  { apply with_root_ok; [exact Hb|]. intros it Hl. apply keeps_while_fields; [exact keeps_blocks_bin_field|split; constructor|exact Hl]. }
  destruct (with_root _ _) as [[res l]|[e|]|]; [|exact I|exact I|exact H]. destruct H as [Hr Hl].
  eapply yields_bind.
  - apply (yields_fold (fun z => Forall UnvalidatedScannableBlock.ok (fst z) /\ Forall (U 64) (snd z))); [|split; [constructor|exact Hl]].
    intros z y Hy Hz. apply handle_block_ok; [exact Hz|]. exact (proj1 (list.Forall_forall _ _) Hr y Hy).
  - intros [bs l'] [Hbs _]. destruct l'; [exact Hbs|exact I].
Qed.
End Blocks.
