(* ===== verification/Daemon.v ===== *)
(** [interface/daemon/src/lib.rs] and [blocks.rs]: the client of a daemon's JSON
    routes, over a transport.  The transport, the [hex] crate and
    [serde_json]'s [from_str] at each type deserialized are parameters; strings
    are their bytes.  What's formatted into error messages is omitted, and
    awaiting is a call. *)

From Stdlib Require Import ZArith Lia.
From stdpp Require Import base list strings numbers.
From S2P Require Import Prelude Dalek MoneroIo Ed25519 RingCT Transaction Block Address Interface.

Import InterfaceError(InternalError, InvalidInterface).

(** ** What the client is made of *)

(** [trait HttpTransport]: a request's route, body and limit on the response's size *)
Class HttpTransport (S : Type) := post : bytes -> bytes -> option Z -> query S InterfaceError.t bytes.

(** [hex::decode] and [hex::encode] *)
Class Hex := { hex_decode : bytes -> option bytes; hex_encode : bytes -> bytes }.

(** [serde_json::from_str] *)
Class Deserialize (A : Type) := from_str : bytes -> option A.

(** [serde_json::Value] *)
Class JsonValues := {
  Value : Type;
  value_get : bytes -> Value -> option Value;
  value_is : Z -> Value -> bool;
  value_to_string : Value -> bytes
}.

(** ** Literals and numbers within strings *)

(** A literal, whose quotes are written ['] *)
Definition lit (s : string) : bytes := map (fun c => if c =? 39 then 34 else c) (bstr s).

(** The lines of a literal *)
Definition lines (l : list string) : bytes :=
  match map lit l with [] => [] | s :: l => s ++ concat (map (fun s => 10 :: s) l) end.

(** A [usize] in decimal; 20 digits are enough. *)
Fixpoint digits (fuel : nat) (n : Z) : bytes :=
  match fuel with
  | O => []
  | S fuel => if n <? 10 then [48 + n] else digits fuel (n / 10) ++ [48 + n mod 10]
  end.

Definition display (n : Z) : bytes := digits 20 n.

(** [String::from_utf8]'s check *)
Definition continuation (b : Z) : bool := (128 <=? b) && (b <=? 191).

Fixpoint is_utf8 (bs : bytes) : bool :=
  match bs with
  | [] => true
  | b0 :: bs0 =>
      if b0 <? 128 then is_utf8 bs0
      else
        match bs0 with
        | [] => false
        | b1 :: bs1 =>
            if (194 <=? b0) && (b0 <=? 223) then continuation b1 && is_utf8 bs1
            else
              match bs1 with
              | [] => false
              | b2 :: bs2 =>
                  if (224 <=? b0) && (b0 <=? 239) then
                    ((if b0 =? 224 then 160 else 128) <=? b1) && (b1 <=? (if b0 =? 237 then 159 else 191)) && continuation b2 && is_utf8 bs2
                  else
                    match bs2 with
                    | [] => false
                    | b3 :: bs3 =>
                        (240 <=? b0) && (b0 <=? 244) && ((if b0 =? 240 then 144 else 128) <=? b1) && (b1 <=? (if b0 =? 244 then 143 else 191)) &&
                        continuation b2 && continuation b3 && is_utf8 bs3
                    end
              end
        end
  end.

(** ** Machine arithmetic: [usize]s which saturate, and which panic *)

Definition sat_add (a b : Z) : Z := Z.min (a + b) USIZE_MAX.
Definition sat_mul (a b : Z) : Z := Z.min (a * b) USIZE_MAX.
Definition sat_sub (a b : Z) : Z := Z.max (a - b) 0.
Definition uadd {E} (a b : Z) : outcome E Z := if a + b <=? USIZE_MAX then Ok (a + b) else Panic.
Definition usub {E} (a b : Z) : outcome E Z := if b <=? a then Ok (a - b) else Panic.
Definition udiv {E} (a b : Z) : outcome E Z := if b =? 0 then Panic else Ok (a / b).
Definition checked_add (a b : Z) : option Z := if a + b <=? USIZE_MAX then Some (a + b) else None.

(** [usize::div_ceil] *)
Definition div_ceil (a b : Z) : Z := (a + b - 1) / b.

Module MoneroDaemon.

(** ** Sizes *)

Definition MAX_REQUEST_SIZE : Z := 1024 * 1024.
Definition MAX_RESPONSE_SIZE : Z := 100 * 1024 * 1024.
Definition HTTP_OVERHEAD_ESTIMATE : Z := 65535.
Definition REQUEST_SIZE_TARGET : Z := MAX_REQUEST_SIZE - HTTP_OVERHEAD_ESTIMATE - 2048.
Definition JSON_BYTE_OVERHEAD_FACTOR_ESTIMATE : Z := 8.
Definition MIN_RESPONSE_SIZE_IN_BYTES_ESTIMATE : Z := 1024.
Definition MINER_TRANSACTION_OUTPUT_BOUND : Z := 10000.
Definition MINER_TRANSACTION_SIZE_BOUND : Z := 2048 + MINER_TRANSACTION_OUTPUT_BOUND * Output.SIZE_UPPER_BOUND.
Definition TRANSACTION_SIZE_BOUND : Z := Z.max MINER_TRANSACTION_SIZE_BOUND NON_MINER_SIZE_UPPER_BOUND.

(** ** Responses *)

Record JsonRpcResponse (A : Type) := mk_response { result : A; id : option Z }.
Arguments mk_response {A}.
Arguments result {A}.
Arguments id {A}.

(** [struct BlocksResponse], of [generate_blocks] *)
Record BlocksResponse := mk_blocks { blocks : list bytes; blocks_height : Z }.
Record HeightResponse := mk_height { height : Z }.
Record TransactionResponse := mk_tx { tx_hash : bytes; as_hex : bytes; pruned_as_hex : bytes; prunable_hash : bytes }.
Record TransactionsResponse := mk_txs { missed_tx : list bytes; txs : list TransactionResponse }.
(** [struct SendRawResponse]; its other fields are never read. *)
Record SendRawResponse := mk_send { send_status : bytes; reason : bytes }.
Record FeeResponse := mk_fee { fee_status : bytes; fees : option (list Z); fee : Z; quantization_mask : Z }.
Record BlockResponse := mk_block { blob : bytes }.

(** [serde_json] at the types deserialized *)
Class Json := {
  json_values :: JsonValues;
  json_value :: Deserialize Value;
  json_rpc_value :: Deserialize (JsonRpcResponse Value);
  json_rpc_blocks :: Deserialize (JsonRpcResponse BlocksResponse);
  json_height :: Deserialize HeightResponse;
  json_transactions :: Deserialize TransactionsResponse;
  json_send_raw :: Deserialize SendRawResponse;
  json_rpc_fee :: Deserialize (JsonRpcResponse FeeResponse);
  json_rpc_block :: Deserialize (JsonRpcResponse BlockResponse);
  json_rpc_block_batch :: Deserialize (list (JsonRpcResponse BlockResponse));
  json_rpc_string :: Deserialize (JsonRpcResponse bytes)
}.

(** [enum PublishTransactionError] *)
Inductive PublishTransactionError : Type := PublishInterfaceError (e : InterfaceError.t) | TransactionRejected (reason : bytes).

(** [struct MoneroDaemon], but for its transport *)
Record t := mk { limits : bool; supports_json_rpc_batch_requests : bool }.

Section Ops.
Context {D : Dalek} {K : Keccak} {HX : Hex} {J : Json} {S : Type} {HT : HttpTransport S}.

Definition rpc_hex (value : bytes) : outcome InterfaceError.t bytes :=
  ok_or (hex_decode value) (InvalidInterface "expected hex wasn't hex").

Definition hash_hex (hash : bytes) : outcome InterfaceError.t bytes :=
  let? hash := rpc_hex hash in
  if (length hash =? 32)%nat then Ok hash else Err (InvalidInterface "hash wasn't 32-bytes").

(** ** Calls *)

Definition rpc_call_core (self : t) (route : bytes) (params : option bytes) (response_size_limit : Z) : query S InterfaceError.t bytes :=
  let response_size_limit := Z.max response_size_limit MIN_RESPONSE_SIZE_IN_BYTES_ESTIMATE in
  let json_response_size_limt := sat_mul JSON_BYTE_OVERHEAD_FACTOR_ESTIMATE response_size_limit in
  let full_response_size_limit := sat_add HTTP_OVERHEAD_ESTIMATE json_response_size_limt in
  let response_size_limit := Z.min full_response_size_limit MAX_RESPONSE_SIZE in
  let! res := post route (default [] params) (if limits self then Some response_size_limit else None) in
  let res := take (Z.to_nat response_size_limit) res in
  if is_utf8 res then qret res else qlift (Err (InvalidInterface "response wasn't utf-8")).

Definition rpc_call_internal (self : t) (A : Type) {DA : Deserialize A} (route : bytes) (params : option bytes) (response_size_limit : Z)
  : query S InterfaceError.t A :=
  let! res := rpc_call_core self route params response_size_limit in
  qlift (ok_or (from_str res) (InvalidInterface "response wasn't the expected json")).

Definition rpc_call (self : t) (route : bytes) (params : option bytes) (response_size_limit : Z) : query S InterfaceError.t bytes :=
  let! value := rpc_call_internal self Value route params response_size_limit in
  qret (value_to_string value).

Definition json_rpc_request (method : bytes) (params : option bytes) : bytes :=
  lit "{ 'jsonrpc': '2.0', 'method': '" ++ method ++ lit "', 'params': " ++ default (bstr "[]") params ++ lit ", 'id': 0 }".

Definition json_rpc_call_internal (self : t) (A : Type) {DA : Deserialize (JsonRpcResponse A)} (method : bytes) (params : option bytes)
  (response_size_limit : Z) : query S InterfaceError.t A :=
  let! response := rpc_call_internal self (JsonRpcResponse A) (bstr "json_rpc") (Some (json_rpc_request method params)) response_size_limit in
  qret (result response).

Definition json_rpc_call (self : t) (method : bytes) (params : option bytes) (response_size_limit : Z) : query S InterfaceError.t bytes :=
  let! value := json_rpc_call_internal self Value method params response_size_limit in
  qret (value_to_string value).

(** The request which [new] makes *)
Definition BATCH_REQUEST : bytes :=
  lines ["["; "       { 'jsonrpc': '2.0', 'method': 'on_get_block_hash', 'params': [0], 'id': 0 },";
         "       { 'jsonrpc': '2.0', 'method': 'on_get_block_hash', 'params': [1], 'id': 1 }"; "      ]"].

Definition new : query S InterfaceError.t t :=
  let result := mk true true in
  let! response := rpc_call_internal result Value (bstr "json_rpc") (Some BATCH_REQUEST) 0 in
  match value_get (bstr "error") response with
  | Some error =>
      match value_get (bstr "code") error with
      | Some code =>
          if value_is (-32700) code then qret (mk true false)
          else qlift (Err (InvalidInterface "interface returned error when attempting a batch request, code {:?}"))
      | None => qlift (Err (InvalidInterface "interface returned error when attempting a batch request, code {:?}"))
      end
  | None => qret result
  end.

(** [response_size_limits], the setter *)
Definition response_size_limits (self : t) (enabled : bool) : t := mk enabled (supports_json_rpc_batch_requests self).

(** The loop of [generate_blocks] *)
Fixpoint generate_blocks_loop (ADDR_BYTES : Z) (self : t) (address : Address.t) (block_count : nat) (blocks_ : list bytes) (last_height : option Z)
  : query S InterfaceError.t (list bytes * option Z) :=
  match block_count with
  | O => qret (blocks_, last_height)
  | Datatypes.S block_count =>
      let! printed := qlift (Address.to_string ADDR_BYTES address) in
      let! res := json_rpc_call_internal self BlocksResponse (bstr "generateblocks")
        (Some (lit "{ 'wallet_address': '" ++ printed ++ lit "', 'amount_of_blocks': 1 }")) 32 in
      match blocks res with
      | [block] =>
          let! hash := qlift (hash_hex block) in
          generate_blocks_loop ADDR_BYTES self address block_count (blocks_ ++ [hash]) (Some (blocks_height res))
      | _ => qlift (Err (InvalidInterface "unexpected amount of blocks from `generateblocks`"))
      end
  end.

Definition generate_blocks (ADDR_BYTES : Z) (self : t) (address : Address.t) (block_count : nat) : query S InterfaceError.t (list bytes * Z) :=
  let! (blocks_, last_height) := generate_blocks_loop ADDR_BYTES self address block_count [] None in
  let! last_height := qlift (ok_or last_height (InternalError "requested generation of zero blocks")) in
  qret (blocks_, last_height).

Definition latest_block_number (self : t) : query S InterfaceError.t Z :=
  let! res := rpc_call_internal self HeightResponse (bstr "get_height") None 0 in
  if 1 <=? height res then qret (height res - 1)
  else qlift (Err (InvalidInterface "node claimed the blockchain didn't even have the genesis block")).

(** ** Transactions *)

Definition EXPLICIT_TRANSACTIONS_PER_REQUEST_LIMIT : Z := 100.
Definition IMPLICIT_TRANSACTIONS_PER_REQUEST_LIMIT : Z := REQUEST_SIZE_TARGET / sat_mul JSON_BYTE_OVERHEAD_FACTOR_ESTIMATE 32.
Definition TRANSACTIONS_PER_REQUEST_LIMIT : Z := Z.min EXPLICIT_TRANSACTIONS_PER_REQUEST_LIMIT IMPLICIT_TRANSACTIONS_PER_REQUEST_LIMIT.
Definition TRANSACTIONS_PER_RESPONSE_LIMIT : Z := div_ceil (MAX_RESPONSE_SIZE - HTTP_OVERHEAD_ESTIMATE) TRANSACTION_SIZE_BOUND.
Definition TRANSACTIONS_LIMIT : Z := Z.min TRANSACTIONS_PER_REQUEST_LIMIT TRANSACTIONS_PER_RESPONSE_LIMIT.

(** [join("\",\"")], within quotes *)
Definition join (l : list bytes) : bytes :=
  [34] ++ match l with [] => [] | s :: l => s ++ concat (map (fun s => lit "','" ++ s) l) end ++ [34].

Definition transactions_request (prune : bool) (hashes : list bytes) : bytes :=
  lit "{ 'txs_hashes': [" ++ join hashes ++ (if prune then lit "], 'prune': true }" else lit "] }").

Definition transactions_error {A} (m : query S InterfaceError.t A) : query S TransactionsError.t A := qmap_err TransactionsError.InterfaceError m.
Definition invalid {A} (msg : string) : outcome TransactionsError.t A := Err (TransactionsError.InterfaceError (InvalidInterface msg)).

(** [while !hashes_hex.is_empty()] *)
Fixpoint fetch_transactions (fuel : nat) (self : t) (prune : bool) (hashes_hex : list bytes) : query S TransactionsError.t (list TransactionResponse) :=
  match hashes_hex with
  | [] => qret []
  | _ :: _ =>
      match fuel with
      | O => qlift Panic
      | Datatypes.S fuel =>
          let this_count := Z.min TRANSACTIONS_LIMIT (len hashes_hex) in
          let! res := transactions_error (rpc_call_internal self TransactionsResponse (bstr "get_transactions")
            (Some (transactions_request prune (take (Z.to_nat this_count) hashes_hex))) (sat_mul this_count TRANSACTION_SIZE_BOUND)) in
          match missed_tx res with
          | _ :: _ => qlift (Err TransactionsError.TransactionNotFound)
          | [] =>
              if negb (len (txs res) =? this_count)
              then qlift (invalid (if prune then "not missing any transactions yet didn't return all pruned transactions"
                else "not missing any transactions yet didn't return all transactions"))
              else
                let! all_txs := fetch_transactions fuel self prune (drop (Z.to_nat this_count) hashes_hex) in
                qret (txs res ++ all_txs)
          end
      end
  end.

Definition read_transaction (res : TransactionResponse) : outcome TransactionsError.t (Transaction NotPruned) :=
  let? buf := omap_err TransactionsError.InterfaceError (rpc_hex (match as_hex res with [] => pruned_as_hex res | _ :: _ => as_hex res end)) in
  match Transaction.read (P := NotPruned) buf with
  | (Ok tx, []) =>
      match as_hex res with
      | [] => match TransactionPrefix.inputs (Transaction.prefix tx) with Gen _ :: _ => Ok tx | _ => Err TransactionsError.PrunedTransaction end
      | _ :: _ => Ok tx
      end
  | (Ok _, _ :: _) => invalid "transaction had extra bytes after it"
  | (Err _, _) => invalid "node yielded transaction allegedly with hash {:?} which was invalid"
  | (Panic, _) => Panic
  end.

Definition read_pruned_transaction (res : TransactionResponse) : outcome TransactionsError.t PrunedTransactionWithPrunableHash.t :=
  let? buf := omap_err TransactionsError.InterfaceError (rpc_hex (pruned_as_hex res)) in
  match Transaction.read (P := Pruned) buf with
  | (Ok tx, []) =>
      let? prunable_hash :=
        match tx with
        | V1 _ _ => Ok None
        | V2 _ _ => let? hash := omap_err TransactionsError.InterfaceError (hash_hex (prunable_hash res)) in Ok (Some hash)
        end in
      expect (PrunedTransactionWithPrunableHash.new tx prunable_hash)
  | (Ok _, _ :: _) => invalid "pruned transaction had extra bytes after it"
  | (Err _, _) => invalid "node yielded transaction allegedly with hash {:?} which was invalid"
  | (Panic, _) => Panic
  end.

Definition transactions (self : t) (hashes : list bytes) : query S TransactionsError.t (list (Transaction NotPruned)) :=
  let! all_txs := fetch_transactions (length hashes) self false (map hex_encode hashes) in
  qlift (each read_transaction all_txs).

Definition pruned_transactions (self : t) (hashes : list bytes) : query S TransactionsError.t (list PrunedTransactionWithPrunableHash.t) :=
  let! all_txs := fetch_transactions (length hashes) self true (map hex_encode hashes) in
  qlift (each read_pruned_transaction all_txs).

Definition publish_transaction (self : t) (tx : Transaction NotPruned) : query S PublishTransactionError unit :=
  let! res := qmap_err PublishInterfaceError (rpc_call_internal self SendRawResponse (bstr "send_raw_transaction")
    (Some (lit "{ 'tx_as_hex': '" ++ hex_encode (Transaction.write tx) ++ lit "', 'do_sanity_checks': false }")) 0) in
  if negb (bytes_eqb (send_status res) (bstr "OK")) then qlift (Err (TransactionRejected (reason res))) else qret tt.

(** ** Fee rates *)

Definition GRACE_BLOCKS_FOR_FEE_ESTIMATE : Z := 10.
Definition MULTIPLIERS : list Z := [1; 5; 25; 1000].

(** What's made of the response *)
Definition fee_rate_of (priority : FeePriority) (res : FeeResponse) : outcome FeeError.t FeeRate.t :=
  let priority := FeePriority_to_u32 priority in
  if negb (bytes_eqb (fee_status res) (bstr "OK")) then Err FeeError.InvalidFee
  else
    match fees res with
    | Some fees =>
        let priority_idx := if 4 <=? priority then 3 else sat_sub priority 1 in
        if len fees <=? priority_idx then Err FeeError.InvalidFeePriority
        else
          let? fee := index fees (Z.to_nat priority_idx) in
          ok_or (FeeRate.new fee (quantization_mask res)) FeeError.InvalidFee
    | None =>
        let? priority_idx := if priority =? 0 then Ok 1 else usub priority 1 in
        let? fee_multiplier := ok_or (MULTIPLIERS !! Z.to_nat priority_idx) FeeError.InvalidFeePriority in
        let? fee := if fee res * fee_multiplier <? 2 ^ 64 then Ok (fee res * fee_multiplier) else Err FeeError.InvalidFee in
        ok_or (FeeRate.new fee (quantization_mask res)) FeeError.InvalidFee
    end.

Definition fee_rate (self : t) (priority : FeePriority) : query S FeeError.t FeeRate.t :=
  let! res := qmap_err FeeError.InterfaceError (json_rpc_call_internal self FeeResponse (bstr "get_fee_estimate")
    (Some (lit "{ 'grace_blocks': " ++ display GRACE_BLOCKS_FOR_FEE_ESTIMATE ++ lit " }")) 0) in
  qlift (fee_rate_of priority res).

(** ** Blocks ([blocks.rs]) *)

Definition block_request (number : Z) : bytes :=
  lines ["{"; "      'jsonrpc': '2.0',"; "      'method': 'get_block',"] ++
  10 :: lit "      'params': { 'height': " ++ display number ++ lit " }," ++
  10 :: lit "      'id': " ++ display number ++
  10 :: lit "    }".

Definition GENEROUS_TRANSACTIONS_PER_BLOCK_ESTIMATE : Z := 1000.
Definition BLOCK_SIZE_ESTIMATE : Z :=
  BlockHeader.SIZE_UPPER_BOUND + VarInt.UPPER_BOUND VarInt.usize + GENEROUS_TRANSACTIONS_PER_BLOCK_ESTIMATE * 32.
Definition BLOCK_JSON_SIZE_ESTIMATE : Z := JSON_BYTE_OVERHEAD_FACTOR_ESTIMATE * BLOCK_SIZE_ESTIMATE.
Definition BLOCKS_PER_RESPONSE_ESTIMATE : Z := (MAX_RESPONSE_SIZE - HTTP_OVERHEAD_ESTIMATE) / BLOCK_JSON_SIZE_ESTIMATE.
Definition TARGET_RESPONSE_SIZE : Z := (MAX_RESPONSE_SIZE - HTTP_OVERHEAD_ESTIMATE) * 4 / 5.

(** The loop over the numbers after the first, until the request's size would
    be over its target: the request, and the last block it's for *)
Fixpoint batch_loop (request : bytes) (end_ : Z) (numbers : list Z) : outcome InterfaceError.t (bytes * Z) :=
  match numbers with
  | [] => Ok (request, end_)
  | number :: numbers =>
      let next_request := block_request number in
      if REQUEST_SIZE_TARGET <=? sat_add (len request) (len next_request)
      then let? end_ := usub number 1 in Ok (request, end_)
      else batch_loop (request ++ [44] ++ next_request) end_ numbers
  end.

Definition batch_request (start end_ : Z) : outcome InterfaceError.t (bytes * Z) :=
  if start =? end_ then Ok (block_request start, end_)
  else
    let? (request, end_) := batch_loop ([91] ++ block_request start) end_ (tail (Interface.numbers (start, end_))) in
    Ok (request ++ [93], end_).

(** [None] comes before any ID. *)
Definition id_lt {A} (x y : JsonRpcResponse A) : bool :=
  match id x, id y with
  | None, Some _ => true
  | Some x, Some y => x <? y
  | _, None => false
  end.

(** The blob is read from; what follows a block isn't looked at. *)
Definition read_block (blob : bytes) : outcome InterfaceError.t Block.t :=
  let? buf := rpc_hex blob in
  match fst (Block.read buf) with
  | Ok block => Ok block
  | Err _ => Err (InvalidInterface "invalid block")
  | Panic => Panic
  end.

Definition block_of (x : Z * JsonRpcResponse BlockResponse) : outcome InterfaceError.t Block.t :=
  let (number, json) := x in
  if bool_decide (id json = Some number) then read_block (blob (result json))
  else Err (InvalidInterface "request with ID {number} received response in complimentary position with ID {:?}").

(** The blocks per request, for the size of the response *)
Definition next_blocks_per_request (blocks_per_request response_byte_length : Z) : outcome InterfaceError.t Z :=
  let? blocks_per_request :=
    if response_byte_length <? TARGET_RESPONSE_SIZE then
      let? bytes_per_block := if blocks_per_request =? 0 then Panic else Ok (div_ceil response_byte_length blocks_per_request) in
      let? proportional_blocks_per_request := udiv TARGET_RESPONSE_SIZE bytes_per_block in
      let fifty_percent_more_blocks := sat_add blocks_per_request (Z.max (blocks_per_request / 2) 1) in
      Ok (Z.min proportional_blocks_per_request fifty_percent_more_blocks)
    else Ok blocks_per_request in
  Ok (if TARGET_RESPONSE_SIZE <? response_byte_length then Z.max (blocks_per_request / 2) 1 else blocks_per_request).

(** What's made of a response to the request for [start ..= end], [requested]
    blocks *)
Definition blocks_of (single_block : bool) (start end_ requested : Z) (response : bytes) : outcome InterfaceError.t (list Block.t) :=
  let? json_blocks :=
    ok_or (if single_block then (fun block => [block]) <$> from_str response else from_str response)
      (InvalidInterface "`get_block` response wasn't the expected JSON") in
  if negb (len json_blocks =? requested) then Err (InvalidInterface "requested {requested_blocks} blocks but received {}")
  else each block_of (zip (Interface.numbers (start, end_)) (sort_by id_lt json_blocks)).

(** [(end - start) + 1] *)
Definition requested_blocks {E} (start end_ : Z) : outcome E Z := let? n := usub end_ start in uadd n 1.

(** [while *range.start() <= *range.end()] *)
Fixpoint contiguous_blocks_loop (fuel : nat) (self : t) (start last blocks_per_request : Z) : query S InterfaceError.t (list Block.t) :=
  if last <? start then qret []
  else
    match fuel with
    | O => qlift Panic
    | Datatypes.S fuel =>
        let blocks_per_request := if supports_json_rpc_batch_requests self then blocks_per_request else 1 in
        let! more := qlift (usub blocks_per_request 1) in
        let end_ := Z.min (sat_add start more) last in
        let single_block := start =? end_ in
        let! _ := qlift (requested_blocks start end_) in
        let! (request, end_) := qlift (batch_request start end_) in
        let! requested_blocks := qlift (requested_blocks start end_) in
        fun s =>
          match rpc_call_core self (bstr "json_rpc") (Some request) MAX_RESPONSE_SIZE s with
          | (Err e, s) => if single_block then (Err e, s) else contiguous_blocks_loop fuel self start last 1 s
          | (Panic, s) => (Panic, s)
          | (Ok response, s) =>
              (let! blocks := qlift (blocks_of single_block start end_ requested_blocks response) in
               match checked_add start requested_blocks with
               | None => qret blocks
               | Some new_start =>
                   let! blocks_per_request := qlift (next_blocks_per_request blocks_per_request (len response)) in
                   let! rest := contiguous_blocks_loop fuel self new_start last blocks_per_request in
                   qret (blocks ++ rest)
               end) s
          end
    end.

(** Every round which doesn't read a block is followed by one which does, or
    which fails. *)
Definition contiguous_blocks (self : t) (range : Z * Z) : query S InterfaceError.t (list Block.t) :=
  contiguous_blocks_loop (2 * Z.to_nat (snd range - fst range + 1) + 1) self (fst range) (snd range) BLOCKS_PER_RESPONSE_ESTIMATE.

Definition block (self : t) (hash : bytes) : query S InterfaceError.t Block.t :=
  let! res := json_rpc_call_internal self BlockResponse (bstr "get_block") (Some (lit "{ 'hash': '" ++ hex_encode hash ++ lit "' }")) MAX_RESPONSE_SIZE in
  qlift (read_block (blob res)).

Definition block_hash (self : t) (number : Z) : query S InterfaceError.t bytes :=
  let! hash := json_rpc_call_internal self bytes (bstr "on_get_block_hash") (Some ([91] ++ display number ++ [93])) 0 in
  let! hash := qlift (hash_hex hash) in
  if bytes_eqb hash (repeat 0 32)
  then qlift (Err (InterfaceError.InterfaceError "requested hash for block {number}, which the interface did not have"))
  else qret hash.
End Ops.

(** ** The traits implemented *)

Section Instances.
Context {D : Dalek} {K : Keccak} {HX : Hex} {J : Json} {S : Type} {HT : HttpTransport S}.

Definition provides_blockchain_meta (self : t) : ProvidesBlockchainMeta.t S := {| ProvidesBlockchainMeta.latest_block_number := latest_block_number self |}.
Definition provides_transactions (self : t) : ProvidesUnvalidatedTransactions.t S :=
  ProvidesUnvalidatedTransactions.with_batch (transactions self) (pruned_transactions self).
Definition provides_fee_rates (self : t) : ProvidesUnvalidatedFeeRates.t S := {| ProvidesUnvalidatedFeeRates.fee_rate := fee_rate self |}.
Definition provides_blockchain (self : t) : ProvidesUnvalidatedBlockchain.t S :=
  {| ProvidesUnvalidatedBlockchain.contiguous_blocks := contiguous_blocks self; ProvidesUnvalidatedBlockchain.block := block self;
     ProvidesUnvalidatedBlockchain.block_by_number := ProvidesUnvalidatedBlockchain.number_of_contiguous (contiguous_blocks self);
     ProvidesUnvalidatedBlockchain.block_hash := block_hash self |}.
End Instances.
End MoneroDaemon.
