(* ===== verification/DaemonProofs.v ===== *)
(** What the client of a daemon's JSON routes promises ([interface/daemon/src/lib.rs],
    [blocks.rs]): over any transport, nothing panics, every loop ends, what's
    returned was deserialized, and there's as much of it as was requested.  The
    transport yields bytes, as does [hex::decode], and integers deserialized by
    [serde_json] are of their types; no more is assumed of them, but that the
    empty string isn't JSON. *)

From Stdlib Require Import ZArith Lia Sorted.
From stdpp Require Import base list strings numbers sorting.
From S2P Require Import Prelude Dalek MoneroIo Ed25519 RingCT Transaction Block Address Epee Interface DaemonEpee DaemonEpeeProofs Daemon.

Import InterfaceError(InternalError, InvalidInterface).
Import MoneroDaemon.

(** ** What's assumed of the parameters *)

Class TransportLaws {S} (HT : HttpTransport S) : Prop :=
  post_law route body limit : ensures (post route body limit) is_bytes.

Class HexLaws (HX : Hex) : Prop := hex_law bs x : hex_decode bs = Some x -> is_bytes x.

Class JsonLaws (J : Json) : Prop := {
  height_law bs x : from_str bs = Some x -> U USIZE_BITS (height x);
  fee_law bs x : from_str bs = Some x ->
    U 64 (fee (result x)) /\ U 64 (quantization_mask (result x)) /\
    match fees (result x) with Some fees => Forall (U 64) fees | None => True end;
  block_empty : from_str (A := JsonRpcResponse BlockResponse) [] = None;
  blocks_empty : from_str (A := list (JsonRpcResponse BlockResponse)) [] = None
}.

Section Proofs.
Context {D : Dalek} {DL : DalekLaws D} {K : Keccak} {KL : KeccakLaws K} {HX : Hex} {HL : HexLaws HX} {J : Json} {JL : JsonLaws J}.
Context {S : Type} {HT : HttpTransport S} {TL : TransportLaws HT} (self : t).

Lemma qbind_ok {E A B} (a : A) (k : A -> query S E B) s : qbind (qlift (Ok a)) k s = k a s.
Proof. reflexivity. Qed.

Lemma ensures_yields {E A} (m : outcome E A) (Q : A -> Prop) : yields m Q -> ensures (S := S) (qlift m) Q.
Proof. intros H. apply ensures_lift. exact H. Qed.

(** ** Calls *)

Lemma is_bytes_take n bs : is_bytes bs -> is_bytes (take n bs).
Proof. apply Forall_take. Qed.

Lemma rpc_call_core_ok route params limit : ensures (rpc_call_core self route params limit) is_bytes.
Proof.
  unfold rpc_call_core. cbv zeta. eapply ensures_bind; [apply post_law|]. intros res Hr.
  destruct (is_utf8 _); [apply ensures_ret, is_bytes_take, Hr|apply ensures_err].
Qed.

(** A call's result is something deserialized. *)
Lemma rpc_call_ok (A : Type) {DA : Deserialize A} route params limit :
  ensures (rpc_call_internal self A route params limit) (fun a => exists bs, from_str bs = Some a).
Proof.
  eapply ensures_bind; [apply rpc_call_core_ok|]. intros res _. apply ensures_yields, yields_ok_or. eauto.
Qed.

Lemma json_rpc_call_ok (A : Type) {DA : Deserialize (JsonRpcResponse A)} method params limit :
  ensures (json_rpc_call_internal self A method params limit) (fun a => exists bs x, from_str bs = Some x /\ result x = a).
Proof.
  eapply ensures_bind; [apply rpc_call_ok|]. intros x [bs Hx]. apply ensures_ret. eauto.
Qed.

Lemma rpc_hex_ok bs : yields (rpc_hex bs) is_bytes.
Proof. apply yields_ok_or. exact (hex_law bs). Qed.

Lemma hash_hex_ok bs : yields (hash_hex bs) (is_array 32).
Proof.
  eapply yields_bind; [apply rpc_hex_ok|]. intros x Hx. destruct (Nat.eqb_spec (length x) 32); [split; assumption|exact I].
Qed.


Lemma latest_block_number_ok : ensures (latest_block_number self) (U USIZE_BITS).
Proof.
  eapply ensures_bind; [apply rpc_call_ok|]. intros res [bs Hr]. apply height_law in Hr.
  destruct (Z.leb_spec 1 (height res)); [|apply ensures_err]. apply ensures_ret. unfold U in *. lia.
Qed.

(** ** Transactions *)

Lemma fetch_transactions_ok fuel prune hashes : (length hashes <= fuel)%nat ->
  ensures (fetch_transactions fuel self prune hashes) (fun txs => length txs = length hashes).
Proof.
  revert hashes. induction fuel as [|fuel IH]; intros [|h hashes] Hf; cbn [fetch_transactions]; try (apply ensures_ret; reflexivity); [cbn in Hf; lia|].
  set (l := h :: hashes) in *. set (n := Z.min TRANSACTIONS_LIMIT (len l)). assert (Hlim : 1 <= TRANSACTIONS_LIMIT) by (vm_compute; discriminate).
  assert (Hl : 1 <= len l) by (unfold len, l; cbn [length]; lia).
  eapply ensures_bind; [apply ensures_map_err, rpc_call_ok|]. intros res _. destruct (missed_tx res); [|apply ensures_err].
  destruct (Z.eqb_spec (len (txs res)) n) as [Hn|]; cbn [negb]; [|destruct prune; apply ensures_err].
  eapply ensures_bind; [apply IH; rewrite length_drop; unfold l in *; cbn [length] in *; lia|].
  intros rest Hr. apply ensures_ret. rewrite length_app, Hr, length_drop. unfold len in *. lia.
Qed.

Lemma read_whole {A} (r : io_reader A) w Q bs : Codec r w Q -> is_bytes bs -> yields (fst (r bs)) Q.
Proof.
  intros HC Hb. destruct (codec_safe (r := r) bs Hb) as [Hn _]. destruct (r bs) as [[a|e|] rest] eqn:Hr; [|exact I|destruct Hn].
  exact (proj1 (codec_sound _ _ _ Hb Hr)).
Qed.

Lemma yields_map_err {E F A} (f : E -> F) (m : outcome E A) Q : yields m Q -> yields (omap_err f m) Q.
Proof. destruct m; auto. Qed.

Lemma read_transaction_ok res : yields (read_transaction res) transaction_ok.
Proof.
  eapply yields_bind; [apply yields_map_err, rpc_hex_ok|]. intros buf Hb.
  pose proof (read_whole (Transaction.read (P := NotPruned)) _ _ buf transaction_codec Hb) as Hr.
  destruct (Transaction.read buf) as [[tx|e|] [|b rest]]; cbn [fst] in Hr; try exact I; try exact Hr.
  destruct (as_hex res); [|exact Hr]. destruct (TransactionPrefix.inputs _) as [|[n|a o k] l]; [exact I|exact Hr|exact I].
Qed.

Lemma read_pruned_transaction_ok res : yields (read_pruned_transaction res) PrunedTransactionWithPrunableHash.ok.
Proof.
  eapply yields_bind; [apply yields_map_err, rpc_hex_ok|]. intros buf Hb.
  pose proof (read_whole (Transaction.read (P := Pruned)) _ _ buf transaction_codec Hb) as Hr.
  destruct (Transaction.read buf) as [[tx|e|] [|b rest]]; cbn [fst] in Hr; try exact I; try exact Hr.
  eapply (yields_bind (fun ph => exists x, PrunedTransactionWithPrunableHash.new tx ph = Some x)).
  - destruct tx as [p s|p s]; [eexists; reflexivity|].
    eapply yields_bind; [apply yields_map_err, hash_hex_ok|]. intros h _. eexists. reflexivity.
  - intros ph [x Hx]. rewrite Hx. exact (pruned_new_ok _ _ _ Hr Hx).
Qed.

(** As many transactions are returned as were requested. *)
Lemma transactions_returned hashes :
  ensures (transactions self hashes) (fun txs => Forall transaction_ok txs /\ length txs = length hashes).
Proof.
  eapply ensures_bind; [apply fetch_transactions_ok; rewrite length_map; constructor|]. intros txs Hl. apply ensures_yields.
  eapply yields_mono, yields_each; [|intros; apply read_transaction_ok]. intros l [H1 H2]. rewrite length_map in Hl. split; [exact H1|congruence].
Qed.

Lemma pruned_transactions_returned hashes :
  ensures (pruned_transactions self hashes) (fun txs => Forall PrunedTransactionWithPrunableHash.ok txs /\ length txs = length hashes).
Proof.
  eapply ensures_bind; [apply fetch_transactions_ok; rewrite length_map; constructor|]. intros txs Hl. apply ensures_yields.
  eapply yields_mono, yields_each; [|intros; apply read_pruned_transaction_ok]. intros l [H1 H2]. rewrite length_map in Hl. split; [exact H1|congruence].
Qed.

Lemma publish_transaction_ok tx : ensures (publish_transaction self tx) (fun _ => True).
Proof.
  eapply ensures_bind; [apply ensures_map_err, rpc_call_ok|]. intros res _. destruct (negb _); [apply ensures_err|apply ensures_ret; exact I].
Qed.

(** ** Fee rates *)

Lemma fee_rate_new fee mask : U 64 fee -> U 64 mask -> yields (ok_or (FeeRate.new fee mask) FeeError.InvalidFee) fee_rate_ok.
Proof.
  intros Hf Hm. apply yields_ok_or. unfold FeeRate.new. intros r. destruct (Z.eqb_spec fee 0), (Z.eqb_spec mask 0); try discriminate.
  intros [= <-]. repeat split; try assumption; apply Hf || apply Hm.
Qed.

Lemma fee_rate_of_ok priority res : U 32 (FeePriority_to_u32 priority) -> U 64 (fee res) -> U 64 (quantization_mask res) ->
  match fees res with Some fees => Forall (U 64) fees | None => True end ->
  yields (fee_rate_of priority res) fee_rate_ok.
Proof.
  intros Hp Hf Hm Hfs. unfold fee_rate_of. set (p := FeePriority_to_u32 priority) in *. destruct (negb _); [exact I|].
  destruct (fees res) as [l|].
  - set (i := if 4 <=? p then 3 else sat_sub p 1). assert (Hi : 0 <= i) by (unfold i, sat_sub; destruct (_ <=? _); lia).
    destruct (Z.leb_spec (len l) i) as [|Hl]; [exact I|]. unfold index. unfold len in Hl.
    destruct (lookup_lt_is_Some_2 l (Z.to_nat i) ltac:(lia)) as [x Hx]. rewrite Hx. apply fee_rate_new; [|exact Hm].
    exact (Forall_lookup_1 _ _ _ _ Hfs Hx).
  - apply (yields_bind (fun _ => True)).
    { destruct (Z.eqb_spec p 0); [exact I|]. unfold usub. destruct (Z.leb_spec 1 p); [exact I|]. unfold U in Hp. lia. }
    intros i _. apply (yields_bind (fun m => 0 <= m)).
    { apply yields_ok_or. intros m Hmul. assert (Hall : Forall (fun m => 0 <= m) MULTIPLIERS) by (repeat constructor; discriminate).
      exact (Forall_lookup_1 _ _ _ _ Hall Hmul). }
    intros m Hmul. destruct (Z.ltb_spec (fee res * m) (2 ^ 64)); [|exact I]. cbn [obind]. apply fee_rate_new; [|exact Hm].
    unfold U in *. nia.
Qed.

Lemma fee_rate_ok' priority : U 32 (FeePriority_to_u32 priority) -> ensures (fee_rate self priority) fee_rate_ok.
Proof.
  intros Hp. eapply ensures_bind; [apply ensures_map_err, json_rpc_call_ok|]. intros res (bs & x & Hx & <-).
  destruct (fee_law _ _ Hx) as (H1 & H2 & H3). apply ensures_yields, fee_rate_of_ok; assumption.
Qed.

(** ** Blocks *)

Lemma batch_loop_ok request end_ n k : 1 <= n -> 0 <= k -> n + k = end_ + 1 ->
  exists r e, batch_loop request end_ (seqZ n k) = Ok (r, e) /\ n - 1 <= e <= end_.
Proof.
  intros Hn Hk. revert request n Hn. pattern k. apply natlike_ind; [| |exact Hk]; clear k Hk.
  - intros request n Hn He. exists request, end_. split; [reflexivity|lia].
  - intros k Hk IH request n Hn He. rewrite seqZ_cons, Z.pred_succ by lia. cbn [batch_loop].
    destruct (_ <=? _).
    + unfold usub. destruct (Z.leb_spec 1 n); [|lia]. eexists _, _. split; [reflexivity|lia].
    + destruct (IH (request ++ [44] ++ block_request n) (Z.succ n)) as (r & e & He' & Hb); [lia..|]. exists r, e. split; [exact He'|lia].
Qed.

(** The request covers blocks from the first on. *)
Lemma batch_request_ok start end_ : 0 <= start -> start <= end_ ->
  exists r e, batch_request start end_ = Ok (r, e) /\ start <= e <= end_.
Proof.
  intros H0 Hle. unfold batch_request. destruct (Z.eqb_spec start end_); [eexists _, _; split; [reflexivity|lia]|].
  unfold Interface.numbers. cbn [fst snd]. rewrite seqZ_cons by lia. cbn [tail].
  destruct (batch_loop_ok ([91] ++ block_request start) end_ (Z.succ start) (Z.pred (end_ - start + 1))) as (r & e & -> & He); [lia..|].
  eexists _, _. split; [reflexivity|lia].
Qed.

Lemma read_block_ok blob : yields (read_block blob) block_ok.
Proof.
  eapply yields_bind; [apply rpc_hex_ok|]. intros buf Hb. pose proof (read_whole Block.read _ _ buf block_codec Hb) as Hr.
  destruct (fst (Block.read buf)); [exact Hr|exact I|exact Hr].
Qed.

Lemma sort_by_length {A} (lt : A -> A -> bool) l : length (sort_by lt l) = length l.
Proof. apply Permutation_length, sort_by_perm. Qed.

(** A response yields a block for each requested, and it isn't empty. *)
Lemma blocks_of_ok single start end_ requested response : requested = end_ - start + 1 ->
  yields (blocks_of single start end_ requested response)
    (fun blocks => Forall block_ok blocks /\ len blocks = requested /\ response <> []).
Proof.
  intros Hreq. unfold blocks_of. apply (yields_bind (fun _ => response <> [])).
  { apply yields_ok_or. intros js Hj ->. destruct single; [|rewrite blocks_empty in Hj; discriminate].
    rewrite block_empty in Hj. discriminate. }
  intros js Hne. destruct (Z.eqb_spec (len js) requested) as [Hl|]; cbn [negb]; [|exact I].
  eapply yields_mono, yields_each.
  - cbn. intros bs [Hb Hlen]. split; [exact Hb|]. split; [|exact Hne]. rewrite length_zip_with, sort_by_length in Hlen.
    unfold Interface.numbers in Hlen. rewrite length_seqZ in Hlen. cbn [fst snd] in Hlen. unfold len in *. lia.
  - intros [number json] _. unfold block_of. destruct (bool_decide _); [apply read_block_ok|exact I].
Qed.

Lemma div_ceil_spec a b : 0 < a -> 0 < b -> 0 < div_ceil a b <= a.
Proof.
  intros Ha Hb. unfold div_ceil. split; [apply Z.div_str_pos; lia|].
  transitivity ((a * b) / b); [apply Z.div_le_mono; nia|]. rewrite Z.div_mul; lia.
Qed.

(** The blocks per request are never zero, nor more than the bytes of a response. *)
Definition per_request (n : Z) : Prop := 1 <= n <= TARGET_RESPONSE_SIZE.

Lemma target_pos : 1 <= TARGET_RESPONSE_SIZE <= USIZE_MAX - 1.
Proof. vm_compute. split; discriminate. Qed.

Lemma per_request_half n : per_request n -> per_request (Z.max (n / 2) 1).
Proof.
  intros [H1 H2]. pose proof target_pos. pose proof (Z.div_le_upper_bound n 2 n ltac:(lia) ltac:(lia)). unfold per_request. lia.
Qed.

Lemma next_blocks_per_request_ok n l : per_request n -> 0 < l -> exists m, next_blocks_per_request n l = Ok m /\ per_request m.
Proof.
  intros Hn Hl. unfold next_blocks_per_request.
  assert (H : exists m, (if l <? TARGET_RESPONSE_SIZE then
      let? bytes_per_block := if n =? 0 then Panic else Ok (div_ceil l n) in
      let? p := udiv (E := InterfaceError.t) TARGET_RESPONSE_SIZE bytes_per_block in Ok (Z.min p (sat_add n (Z.max (n / 2) 1)))
    else Ok n) = Ok m /\ per_request m).
  { destruct (Z.ltb_spec l TARGET_RESPONSE_SIZE) as [Hlt|]; [|eexists; split; [reflexivity|exact Hn]]. destruct Hn as [Hn1 Hn2].
    destruct (Z.eqb_spec n 0); [lia|]. cbn [obind]. pose proof (div_ceil_spec l n Hl ltac:(lia)) as Hd. unfold udiv.
    destruct (Z.eqb_spec (div_ceil l n) 0); [lia|]. cbn [obind]. eexists. split; [reflexivity|].
    assert (Hp : 1 <= TARGET_RESPONSE_SIZE / div_ceil l n) by (apply Z.div_le_lower_bound; lia).
    assert (Hq : TARGET_RESPONSE_SIZE / div_ceil l n <= TARGET_RESPONSE_SIZE) by (apply Z.div_le_upper_bound; nia).
    pose proof target_pos. unfold per_request, sat_add. lia. }
  destruct H as (m & -> & Hm). cbn [obind]. eexists. split; [reflexivity|]. destruct (_ <? _); [apply per_request_half, Hm|exact Hm].
Qed.

Lemma requested_blocks_ok {E} start end_ : 0 <= start -> start <= end_ -> end_ - start < TARGET_RESPONSE_SIZE ->
  requested_blocks (E := E) start end_ = Ok (end_ - start + 1).
Proof.
  intros H0 Hle Hb. unfold requested_blocks, usub, uadd. pose proof target_pos.
  destruct (Z.leb_spec start end_); [|lia]. cbn [obind]. destruct (Z.leb_spec (end_ - start + 1) USIZE_MAX); [reflexivity|lia].
Qed.

(** Rounds which may be left, where a round which fails is followed by one for
    a single block *)
Definition rounds (start last n : Z) : Z := 2 * Z.max 0 (last - start + 1) + (if n =? 1 then 0 else 1).

(** What's done of a response to a round's request *)
Definition round (fuel : nat) (start last m : Z) (single : bool) (end_ : Z) (response : bytes) : query S InterfaceError.t (list Block.t) :=
  let! blocks := qlift (blocks_of single start end_ (end_ - start + 1) response) in
  match checked_add start (end_ - start + 1) with
  | None => qret blocks
  | Some new_start =>
      let! m := qlift (next_blocks_per_request m (len response)) in
      let! rest := contiguous_blocks_loop fuel self new_start last m in
      qret (blocks ++ rest)
  end.

(** A round requests blocks, at least one and the next one only where a batch
    of more than one isn't to be requested. *)
Lemma contiguous_round fuel start last n : per_request n -> 0 <= start <= last -> last <= USIZE_MAX ->
  rounds start last n <= Z.of_nat (Datatypes.S fuel) ->
  exists m end_ request e, per_request m /\ rounds start last m <= Z.of_nat (Datatypes.S fuel) /\ start <= e <= end_ /\ end_ <= last /\
    (m = 1 -> start = end_) /\ batch_request start end_ = Ok (request, e) /\
    forall s, contiguous_blocks_loop (Datatypes.S fuel) self start last n s =
      match rpc_call_core self (bstr "json_rpc") (Some request) MAX_RESPONSE_SIZE s with
      | (Err e, s) => if start =? end_ then (Err e, s) else contiguous_blocks_loop fuel self start last 1 s
      | (Panic, s) => (Panic, s)
      | (Ok response, s) => round fuel start last m (start =? end_) e response s
      end.
Proof.
  intros Hn H0 Hlast Hf. set (m := if supports_json_rpc_batch_requests self then n else 1).
  assert (Hm : per_request m /\ rounds start last m <= Z.of_nat (Datatypes.S fuel)).
  { unfold m. destruct (supports_json_rpc_batch_requests self); [auto|].
    split; [pose proof target_pos; unfold per_request; lia|]. unfold rounds in *. change (1 =? 1) with true. cbv iota. destruct (n =? 1); lia. }
  destruct Hm as [Hm Hr]. set (end_ := Z.min (sat_add start (m - 1)) last).
  assert (He : start <= end_ <= last /\ end_ - start < m) by (unfold end_, sat_add; destruct Hm; lia).
  assert (Hmt : m <= TARGET_RESPONSE_SIZE) by apply Hm.
  destruct (batch_request_ok start end_) as (request & e & Hreq & He'); [lia..|].
  exists m, end_, request, e. split_and!; try assumption; try lia.
  intros s. cbn [contiguous_blocks_loop]. destruct (Z.ltb_spec last start); [lia|]. fold m. unfold usub at 1.
  destruct (Z.leb_spec 1 m) as [_|]; [|destruct Hm; lia]. rewrite qbind_ok. cbv zeta. fold end_.
  rewrite requested_blocks_ok, qbind_ok, Hreq, qbind_ok, requested_blocks_ok, qbind_ok by lia. reflexivity.
Qed.

Lemma contiguous_blocks_loop_ok fuel start last n : per_request n -> 0 <= start -> last <= USIZE_MAX ->
  rounds start last n <= Z.of_nat fuel \/ last < start ->
  ensures (contiguous_blocks_loop fuel self start last n) (fun bs => Forall block_ok bs /\ len bs = Z.max 0 (last - start + 1)).
Proof.
  revert start n. induction fuel as [|fuel IH]; intros start n Hn H0 Hlast Hf; destruct (Z.ltb_spec last start) as [Hlt|Hle];
    try (cbn [contiguous_blocks_loop]; destruct (Z.ltb_spec last start); [|lia]; apply ensures_ret; split; [constructor|unfold len; cbn; lia]).
  { destruct Hf; [unfold rounds in *; destruct (_ =? 1); lia|lia]. }
  destruct (contiguous_round fuel start last n) as (m & end_ & request & e & Hm & Hr & He & Hend & H1 & _ & Heq); [exact Hn|lia|exact Hlast|destruct Hf; lia|].
  intros s. rewrite Heq. pose proof (rpc_call_core_ok (bstr "json_rpc") (Some request) MAX_RESPONSE_SIZE s) as Hc.
  destruct (rpc_call_core self (bstr "json_rpc") (Some request) MAX_RESPONSE_SIZE s) as [[response|err|] s']; [| |destruct Hc].
  - clear Hc. revert s'. unfold round. eapply ensures_bind; [apply ensures_yields, (blocks_of_ok _ start e _ response eq_refl)|].
    intros bs (Hb & Hl & Hne). unfold checked_add. destruct (Z.leb_spec (start + (e - start + 1)) USIZE_MAX) as [|Hov];
      [|apply ensures_ret; split; [exact Hb|lia]].
    destruct (next_blocks_per_request_ok m (len response)) as (m' & Hm'e & Hm'); [exact Hm|destruct response; [congruence|unfold len; cbn [length]; lia]|].
    rewrite Hm'e. apply (ensures_bind (eq m')); [apply ensures_ret; reflexivity|]. intros ? <-.
    eapply ensures_bind; [apply (IH (start + (e - start + 1)) m'); [exact Hm'|lia|lia|]|].
    { unfold rounds in *. destruct (m =? 1), (m' =? 1); lia. }
    intros rest [Hrest Hlr]. apply ensures_ret. split; [apply Forall_app; auto|]. unfold len in *. rewrite length_app. lia.
  - destruct (Z.eqb_spec start end_) as [|Hne]; [exact I|].
    apply (IH start 1); [pose proof target_pos; unfold per_request; lia|lia|lia|]. left. unfold rounds in *. change (1 =? 1) with true.
    cbv iota. destruct (Z.eqb_spec m 1); lia.
Qed.

(** The blocks of a range are as many as the range has. *)
Lemma contiguous_blocks_returned range : usize_range range ->
  ensures (contiguous_blocks self range) (fun bs => Forall block_ok bs /\ len bs = Z.max 0 (snd range - fst range + 1)).
Proof.
  intros [[Hs _] [_ He]]. apply contiguous_blocks_loop_ok; [vm_compute; split; discriminate|exact Hs|unfold USIZE_MAX; lia|].
  unfold rounds. destruct (_ =? 1); lia.
Qed.

Lemma block_returned hash : ensures (block self hash) block_ok.
Proof. eapply ensures_bind; [apply json_rpc_call_ok|]. intros res _. apply ensures_yields, read_block_ok. Qed.

Lemma block_hash_returned number : ensures (block_hash self number) (is_array 32).
Proof.
  eapply ensures_bind; [apply json_rpc_call_ok|]. intros res _. eapply ensures_bind; [apply ensures_yields, hash_hex_ok|].
  intros h Hh. destruct (bytes_eqb _ _); [apply ensures_err|apply ensures_ret, Hh].
Qed.

(** ** The interfaces kept *)

#[export] Instance transactions_deserialized : ProvidesUnvalidatedTransactions.Deserialized (provides_transactions self).
Proof.
  apply ProvidesUnvalidatedTransactions.with_batch_deserialized; intros hashes;
    (eapply ensures_mono; [|first [apply transactions_returned|apply pruned_transactions_returned]]); intros l [H _]; exact H.
Qed.

#[export] Instance blockchain_deserialized : ProvidesUnvalidatedBlockchain.Deserialized (provides_blockchain self).
Proof.
  split; cbn.
  - intros range Hr. eapply ensures_mono, contiguous_blocks_returned, Hr. intros l [H _]. exact H.
  - exact block_returned.
  - intros number Hn. eapply ensures_bind; [apply contiguous_blocks_returned; split; exact Hn|].
    intros [|b [|b' l]] [Hb _]; try apply ensures_err. apply ensures_ret. exact (Forall_inv Hb).
  - exact block_hash_returned.
Qed.
End Proofs.

(** ** A daemon which answers *)

(** Responses by their IDs, those without one first *)
Definition id_le {A} (x y : JsonRpcResponse A) : Prop :=
  match id x, id y with
  | None, _ => True
  | Some _, None => False
  | Some x, Some y => x <= y
  end.

Section Order.
Context {A : Type} (reply : Z -> JsonRpcResponse A) (Hid : forall i, id (reply i) = Some i).

Lemma id_le_trans (x y z : JsonRpcResponse A) : id_le x y -> id_le y z -> id_le x z.
Proof. unfold id_le. destruct (id x), (id y), (id z); try tauto. lia. Qed.

Lemma id_lt_le (x y : JsonRpcResponse A) : if id_lt x y then id_le x y else id_le y x.
Proof. unfold id_lt, id_le. destruct (id x) as [i|], (id y) as [j|]; try exact I. destruct (Z.ltb_spec i j); lia. Qed.

Lemma replies_sorted n k : StronglySorted id_le (map reply (seqZ n k)).
Proof.
  destruct (Z_le_gt_dec 0 k) as [Hk|]; [|rewrite seqZ_nil by lia; constructor].
  revert n. pattern k. apply natlike_ind; [intros; constructor| |exact Hk]. intros j Hj IH n.
  rewrite seqZ_cons, Z.pred_succ by lia. cbn [map]. constructor; [apply IH|]. apply Forall_map, list.Forall_forall.
  intros i Hi. apply elem_of_seqZ in Hi. unfold id_le. rewrite !Hid. lia.
Qed.

(** Replies in any order are put back in order. *)
Lemma replies_ordered js n k : js ≡ₚ map reply (seqZ n k) -> sort_by id_lt js = map reply (seqZ n k).
Proof.
  intros Hp. apply (StronglySorted_unique_strong id_le); [|apply sort_by_sorted; [exact id_le_trans|exact id_lt_le]|apply replies_sorted|rewrite sort_by_perm; exact Hp].
  intros x y Hx Hy H1 H2. rewrite sort_by_perm, Hp in Hx. apply list_elem_of_fmap in Hx as (i & -> & _), Hy as (j & -> & _).
  unfold id_le in *. rewrite !Hid in *. f_equal. lia.
Qed.
End Order.

Lemma zip_map_r {A B} (f : A -> B) l : zip l (map f l) = map (fun a => (a, f a)) l.
Proof. induction l as [|a l IH]; [reflexivity|]. cbn [map zip zip_with]. f_equal. exact IH. Qed.

Section Honest.
Context {D : Dalek} {DL : DalekLaws D} {HX : Hex} {J : Json} {JL : JsonLaws J} {S : Type} {HT : HttpTransport S} (self : t).

(** The blocks which a daemon has, and how it encodes them *)
Context (chain : Z -> Block.t) (blob_of : Z -> bytes).

Definition reply (i : Z) : JsonRpcResponse BlockResponse := mk_response (mk_block (blob_of i)) (Some i).

(** A response to a request for the blocks [start ..= end]: within the limit, and
    of the replies for the blocks, a batch's in any order *)
Definition answers (batch : bool) (start end_ : Z) (response : bytes) : Prop :=
  is_utf8 response = true /\ len response <= MAX_RESPONSE_SIZE /\
  if batch then exists js, from_str response = Some js /\ js ≡ₚ map reply (Interface.numbers (start, end_))
  else from_str response = Some (reply start).

(** A daemon which has the blocks of a range: it may fail to answer a batch. *)
Class Honest (range : Z * Z) : Prop := {
  honest_blob i : fst range <= i <= snd range -> read_block (blob_of i) = Ok (chain i);
  honest_post start last request end_ limit s : fst range <= start <= last -> last <= snd range ->
    batch_request start last = Ok (request, end_) ->
    match fst (post (bstr "json_rpc") request limit s) with
    | Ok response => answers (negb (start =? last)) start end_ response
    | Err _ => start < last
    | Panic => False
    end
}.

Lemma blocks_of_answer single start end_ response : start <= end_ -> (single = true -> start = end_) ->
  (forall i, start <= i <= end_ -> read_block (blob_of i) = Ok (chain i)) -> answers (negb single) start end_ response ->
  blocks_of single start end_ (end_ - start + 1) response = Ok (map chain (Interface.numbers (start, end_))).
Proof.
  intros Hle Hs Hb (_ & _ & Ha).
  assert (H : exists js, (if single then (fun block => [block]) <$> from_str response else from_str response) = Some js /\
    js ≡ₚ map reply (Interface.numbers (start, end_))).
  { destruct single; cbn [negb] in Ha; [|exact Ha]. rewrite Ha. eexists. split; [reflexivity|]. rewrite <- (Hs eq_refl).
    unfold Interface.numbers. cbn [fst snd]. rewrite Z.sub_diag. change [reply start] with (map reply [start]).
    rewrite seqZ_cons by lia. change (Z.pred (0 + 1)) with 0. rewrite seqZ_nil by lia. reflexivity. }
  destruct H as (js & Hj & Hp). unfold blocks_of. rewrite Hj. cbn [ok_or obind].
  assert (Hl : len js = end_ - start + 1).
  { unfold len. rewrite (Permutation_length Hp), length_map. unfold Interface.numbers. rewrite length_seqZ. cbn [fst snd]. lia. }
  rewrite Hl, Z.eqb_refl. cbn [negb]. unfold Interface.numbers in *. rewrite (replies_ordered reply ltac:(reflexivity) js _ _ Hp), zip_map_r.
  cbn [fst snd] in *. rewrite (each_map _ (fun x => chain (fst x))).
  - rewrite map_map. reflexivity.
  - apply Forall_map, list.Forall_forall. intros i Hi. apply elem_of_seqZ in Hi. cbn [block_of reply id result blob].
    rewrite bool_decide_eq_true_2 by reflexivity. apply Hb. cbn [fst]. lia.
Qed.

Lemma response_limit : Z.min (sat_add HTTP_OVERHEAD_ESTIMATE (sat_mul JSON_BYTE_OVERHEAD_FACTOR_ESTIMATE
  (Z.max MAX_RESPONSE_SIZE MIN_RESPONSE_SIZE_IN_BYTES_ESTIMATE))) MAX_RESPONSE_SIZE = MAX_RESPONSE_SIZE.
Proof. reflexivity. Qed.

Lemma rpc_call_core_max route request : rpc_call_core self route (Some request) MAX_RESPONSE_SIZE =
  let! res := post route request (if limits self then Some MAX_RESPONSE_SIZE else None) in
  let res := take (Z.to_nat MAX_RESPONSE_SIZE) res in
  if is_utf8 res then qret res else qlift (Err (InvalidInterface "response wasn't utf-8")).
Proof. unfold rpc_call_core. rewrite response_limit. reflexivity. Qed.

(** A call whose response is within the limit returns it. *)
Lemma rpc_call_core_answer request s response s' limit :
  limit = (if limits self then Some MAX_RESPONSE_SIZE else None) ->
  post (bstr "json_rpc") request limit s = (Ok response, s') -> is_utf8 response = true -> len response <= MAX_RESPONSE_SIZE ->
  rpc_call_core self (bstr "json_rpc") (Some request) MAX_RESPONSE_SIZE s = (Ok response, s').
Proof.
  intros -> Hp Hu Hl. rewrite rpc_call_core_max. unfold qbind. rewrite Hp, take_ge by (unfold len in Hl; lia). rewrite Hu. reflexivity.
Qed.

Lemma honest_loop fuel first start last n s : Honest (first, last) -> first <= start -> per_request n -> 0 <= start -> last <= USIZE_MAX ->
  rounds start last n <= Z.of_nat fuel \/ last < start ->
  fst (contiguous_blocks_loop fuel self start last n s) = Ok (map chain (Interface.numbers (start, last))).
Proof.
  intros HH. revert start n s. induction fuel as [|fuel IH]; intros start n s Hfirst Hn H0 Hlast Hf; destruct (Z.ltb_spec last start) as [Hlt|Hle];
    try (cbn [contiguous_blocks_loop]; destruct (Z.ltb_spec last start); [|lia]; unfold Interface.numbers; cbn [fst snd]; rewrite seqZ_nil by lia; reflexivity).
  { destruct Hf; [unfold rounds in *; destruct (_ =? 1); lia|lia]. }
  destruct (contiguous_round self fuel start last n) as (m & end_ & request & e & Hm & Hr & He & Hend & H1 & Hreq & Heq); [exact Hn|lia|exact Hlast|destruct Hf; lia|].
  rewrite Heq. pose proof (honest_post (range := (first, last)) start end_ request e (if limits self then Some MAX_RESPONSE_SIZE else None) s ltac:(cbn [fst]; lia) ltac:(cbn [snd]; lia) Hreq) as Hp.
  destruct (post _ request _ s) as [[response|err|] s'] eqn:Hpost; cbn [fst] in Hp; [| |destruct Hp].
  - rewrite (rpc_call_core_answer _ _ _ _ _ eq_refl Hpost (proj1 Hp) (proj1 (proj2 Hp))). unfold round.
    assert (Hsingle : (start =? end_) = true -> start = e) by (destruct (Z.eqb_spec start end_); [lia|discriminate]).
    rewrite (blocks_of_answer (start =? end_) start e response), qbind_ok; [|lia|exact Hsingle| |exact Hp].
    2:{ intros i Hi. apply (honest_blob (range := (first, last))). cbn. lia. }
    assert (Hne : 0 < len response).
    { destruct response; [|unfold len; cbn [length]; lia]. destruct Hp as (_ & _ & Hp). exfalso. destruct (negb _).
      - destruct Hp as (js & Hj & _). rewrite blocks_empty in Hj. discriminate.
      - rewrite block_empty in Hp. discriminate. }
    assert (Hsplit : Interface.numbers (start, last) = Interface.numbers (start, e) ++ Interface.numbers (e + 1, last)).
    { unfold Interface.numbers. cbn [fst snd]. replace (last - start + 1) with ((e - start + 1) + (last - (e + 1) + 1)) by lia.
      rewrite seqZ_app by lia. do 2 f_equal. lia. }
    unfold checked_add. destruct (Z.leb_spec (start + (e - start + 1)) USIZE_MAX) as [|Hov].
    + destruct (next_blocks_per_request_ok m (len response) Hm Hne) as (m' & Hm'e & Hm'). rewrite Hm'e, qbind_ok.
      replace (start + (e - start + 1)) with (e + 1) by lia.
      specialize (IH (e + 1) m' s' ltac:(lia) Hm' ltac:(lia) Hlast ltac:(unfold rounds in *; destruct (m =? 1), (m' =? 1); lia)).
      unfold qbind. destruct (contiguous_blocks_loop fuel self (e + 1) last m' s') as [o s'']. cbn [fst] in IH. subst o.
      cbn [qret fst]. rewrite Hsplit, map_app. reflexivity.
    + cbn [qret fst]. replace last with e by lia. reflexivity.
  - assert (Hcall : exists s2, rpc_call_core self (bstr "json_rpc") (Some request) MAX_RESPONSE_SIZE s = (Err err, s2)).
    { rewrite rpc_call_core_max. unfold qbind. rewrite Hpost. eauto. }
    destruct Hcall as [s2 ->]. destruct (Z.eqb_spec start end_) as [|_]; [lia|].
    apply IH; [lia|pose proof target_pos; unfold per_request; lia|lia|lia|]. left. unfold rounds in *. change (1 =? 1) with true.
    cbv iota. destruct (Z.eqb_spec m 1); lia.
Qed.

(** C37: From a daemon which has the blocks of a range, and answers each request
    for a block and those for a batch it doesn't refuse, in any order, the
    client gets exactly the blocks of the range, in order: whatever the range,
    however the requests are split for their size or that of the responses,
    and whether the daemon takes batches at all. *)
Theorem honest_blocks range s : usize_range range -> Honest range ->
  fst (contiguous_blocks self range s) = Ok (map chain (Interface.numbers range)).
Proof.
  intros [[Hs _] [_ He]] HH. destruct range as [first last]. cbn [fst snd] in *. unfold contiguous_blocks. cbn [fst snd].
  apply (honest_loop _ first); [exact HH|lia|vm_compute; split; discriminate|exact Hs|unfold USIZE_MAX; lia|].
  unfold rounds. destruct (_ =? 1); lia.
Qed.
End Honest.

(** ** A daemon *)

Section Example.
Import Model.

Definition example_hex : Hex := {| hex_decode bs := if bool_decide (is_bytes bs) then Some bs else None; hex_encode bs := bs |}.

Definition example_reply (i : Z) : JsonRpcResponse BlockResponse := reply (fun _ => Block.write example_block) i.

(** Its JSON: a single byte for a response, [7] for the blocks six and five *)
Definition example_json : Json := {|
  json_values := {| Value := unit; value_get _ _ := None; value_is _ _ := false; value_to_string _ := [] |};
  json_value _ := Some tt;
  json_rpc_value _ := None;
  json_rpc_blocks _ := None;
  json_height bs := match bs with [h] => if bool_decide (U USIZE_BITS h) then Some (mk_height h) else None | _ => None end;
  json_transactions _ := None;
  json_send_raw _ := None;
  json_rpc_fee _ := None;
  json_rpc_block bs := match bs with [i] => Some (example_reply i) | _ => None end;
  json_rpc_block_batch bs := match bs with [7] => Some [example_reply 6; example_reply 5] | _ => None end;
  json_rpc_string _ := None
|}.

(** It answers any request other than for one of its blocks as it does for both. *)
Definition example_transport : HttpTransport unit := fun _ body _ s =>
  (Ok (if bool_decide (body = block_request 5) then [5] else if bool_decide (body = block_request 6) then [6] else [7]), s).

Lemma example_hex_laws : HexLaws example_hex.
Proof. intros bs x. cbn. destruct (bool_decide_reflect (is_bytes bs)); [|discriminate]. intros [= <-]. assumption. Qed.

Lemma example_json_laws : JsonLaws example_json.
Proof.
  split; cbn; try reflexivity; try discriminate. intros [|h [|h' bs]] x; try discriminate. cbn.
  destruct (bool_decide_reflect (U USIZE_BITS h)); [|discriminate]. intros [= <-]. assumption.
Qed.

Lemma example_transport_laws : TransportLaws example_transport.
Proof. intros route body limit s. cbn. do 2 (destruct (bool_decide _); [repeat constructor; discriminate|]). repeat constructor; discriminate. Qed.

Lemma example_honest : Honest (HX := example_hex) (J := example_json) (HT := example_transport) (fun _ => example_block) (fun _ => Block.write example_block) (5, 6).
Proof.
  split; cbn [fst snd].
  - intros i _. unfold read_block, rpc_hex. cbn [hex_decode example_hex].
    rewrite bool_decide_eq_true_2 by exact (codec_bytes (w := Block.write) _ example_block_ok). cbn [ok_or obind].
    pose proof (codec_rt (r := Block.read) example_block [] example_block_ok) as H. rewrite app_nil_r in H. rewrite H. reflexivity.
  - intros start last request end_ limit s Hs Hl Hreq. cbn [post example_transport fst].
    assert (Hc : start = 5 /\ last = 5 \/ start = 5 /\ last = 6 \/ start = 6 /\ last = 6) by lia.
    destruct Hc as [[-> ->]|[[-> ->]|[-> ->]]].
    + assert (H : batch_request 5 5 = Ok (block_request 5, 5)) by reflexivity. rewrite H in Hreq. injection Hreq as <- <-.
      rewrite bool_decide_eq_true_2 by reflexivity. repeat split. discriminate.
    + assert (H : exists r, batch_request 5 6 = Ok (r, 6) /\ bool_decide (r = block_request 5) = false /\ bool_decide (r = block_request 6) = false)
        by (eexists; split; [vm_compute; reflexivity|split; vm_compute; reflexivity]).
      destruct H as (r & H & H5 & H6). rewrite H in Hreq. injection Hreq as <- <-. rewrite H5, H6.
      split; [reflexivity|]. split; [discriminate|]. exists [example_reply 6; example_reply 5]. split; [reflexivity|]. apply Permutation_swap.
    + assert (H : batch_request 6 6 = Ok (block_request 6, 6)) by reflexivity. rewrite H in Hreq. injection Hreq as <- <-.
      assert (Hne : bool_decide (block_request 6 = block_request 5) = false) by (vm_compute; reflexivity).
      rewrite Hne, bool_decide_eq_true_2 by reflexivity. repeat split. discriminate.
Qed.

Lemma honest_blocks_witness :
  fst (contiguous_blocks (HX := example_hex) (J := example_json) (HT := example_transport) (mk true true) (5, 6) tt) = Ok [example_block; example_block].
Proof.
  exact (honest_blocks (HX := example_hex) (J := example_json) (JL := example_json_laws) (HT := example_transport) (mk true true)
    (fun _ => example_block) _ (5, 6) tt ltac:(split; decide_now) example_honest).
Defined.
End Example.
