(* ===== verification/DaemonBin.v ===== *)
(** [interface/daemon/src/bin_rpc/mod.rs] and [blocks_bin.rs]: the client of a
    daemon's binary routes, the requests it encodes, and the blocks it fetches
    to scan, by [get_blocks.bin] or over the JSON routes where that isn't
    applicable. *)

From Stdlib Require Import ZArith Lia.
From stdpp Require Import base list strings numbers.
From S2P Require Import Prelude Dalek MoneroIo Ed25519 RingCT Transaction Block Epee Interface DecoySelection DaemonEpee Daemon.

Import InterfaceError(InternalError, InvalidInterface).
Import MoneroDaemon.

(** ** Encoding *)

Module Encode.

(** [epee_key_len!], and the key *)
Definition key (name : string) : bytes := [len (bstr name)] ++ bstr name.
Definition header : bytes := HEADER ++ [VERSION].

(** [kind as u8], and with [Array::Array] *)
Definition kind (k : Type_) : bytes := [as_u8 k].
Definition array (k : Type_) : bytes := [Z.lor (as_u8 k) ARRAY].

Definition u64_field (name : string) (x : Z) : bytes := key name ++ kind Uint64 ++ to_le 8 x.
Definition bool_field (name : string) (x : Z) : bytes := key name ++ kind Bool ++ [x].

(** The requests *)
Definition o_indexes (hash : bytes) : bytes :=
  header ++ [Z.shiftl 1 2] ++ key "txid" ++ kind String ++ [Z.shiftl 32 2] ++ hash.

Definition outs_header : bytes := header ++ [Z.shiftl 1 2] ++ key "outputs" ++ array Object.

(** The length is shifted within a [u64]. *)
Definition outs (indexes : list Z) : bytes :=
  outs_header ++ to_le 8 (Z.lor (Z.shiftl (len indexes) 2 mod 2 ^ 64) 3) ++
  concat (map (fun index => [Z.shiftl 2 2] ++ u64_field "amount" 0 ++ u64_field "index" index) indexes).

Definition output_distribution (from_height to_height : Z) : bytes :=
  header ++ [Z.shiftl 5 2] ++ u64_field "from_height" from_height ++ u64_field "to_height" to_height ++
  bool_field "cumulative" 1 ++ bool_field "compress" 0 ++ key "amounts" ++ array Uint64 ++ [Z.shiftl 1 2] ++ to_le 8 0.

Definition blocks_header : bytes := header ++ [Z.shiftl 3 2] ++ bool_field "prune" 1 ++ key "start_height" ++ kind Uint64.

Definition blocks (start remaining_blocks : Z) : bytes :=
  blocks_header ++ to_le 8 start ++ u64_field "max_block_count" remaining_blocks.
End Encode.

Module DaemonBin.
Section Ops.
Context {D : Dalek} {K : Keccak} {HX : Hex} {J : Json} {S : Type} {HT : HttpTransport S}.

Definition bin_call (self : t) (route : bytes) (params : bytes) (response_size_limit : Z) : query S InterfaceError.t bytes :=
  let response_size_limit := Z.max response_size_limit MIN_RESPONSE_SIZE_IN_BYTES_ESTIMATE in
  let full_response_size_limit := sat_add HTTP_OVERHEAD_ESTIMATE response_size_limit in
  let response_size_limit := Z.min full_response_size_limit MAX_RESPONSE_SIZE in
  let! res := post route params (if limits self then Some response_size_limit else None) in
  let res := take (Z.to_nat response_size_limit) res in
  let! _ := qlift (DaemonEpee.check_status res) in
  qret res.

(** ** Outputs *)

Definition OUTPUTS_AMOUNT_BOUND : Z := div_ceil TRANSACTION_SIZE_BOUND Output.SIZE_LOWER_BOUND.

Definition output_indexes (self : t) (hash : bytes) : query S InterfaceError.t (list Z) :=
  let! epee := bin_call self (bstr "get_o_indexes.bin") (Encode.o_indexes hash) (sat_mul OUTPUTS_AMOUNT_BOUND 8) in
  qlift (DaemonEpee.extract_output_indexes epee).

Definition EXPLICIT_MAX_OUTS : Z := 5000.
Definition IMPLICIT_MAX_OUTS : Z := REQUEST_SIZE_TARGET / 32.
Definition MAX_OUTS : Z := Z.min EXPLICIT_MAX_OUTS IMPLICIT_MAX_OUTS.
Definition BOUND_PER_OUT : Z := 2 * (8 + 8 + 32 + 32 + 32 + 1).

(** [for indexes in indexes.chunks(MAX_OUTS)] *)
Fixpoint ringct_outputs_loop (fuel : nat) (self : t) (indexes : list Z) (res : list RingCtOutputInformation.t)
  : query S InterfaceError.t (list RingCtOutputInformation.t) :=
  match indexes with
  | [] => qret res
  | _ :: _ =>
      match fuel with
      | O => qlift Panic
      | Datatypes.S fuel =>
          let chunk := take (Z.to_nat MAX_OUTS) indexes in
          let! outs := bin_call self (bstr "get_outs.bin") (Encode.outs chunk) (sat_mul (len chunk) BOUND_PER_OUT) in
          let! res := qlift (DaemonEpee.accumulate_outs outs (len chunk) res) in
          ringct_outputs_loop fuel self (drop (Z.to_nat MAX_OUTS) indexes) res
      end
  end.

Definition ringct_outputs (self : t) (indexes : list Z) : query S InterfaceError.t (list RingCtOutputInformation.t) :=
  ringct_outputs_loop (length indexes) self indexes [].

Definition provides_outputs (self : t) : ProvidesUnvalidatedOutputs.t S :=
  {| ProvidesUnvalidatedOutputs.output_indexes := output_indexes self; ProvidesUnvalidatedOutputs.ringct_outputs := ringct_outputs self |}.

(** ** Decoys *)

Definition range_start (bound : Bound) : outcome InterfaceError.t Z :=
  match bound with
  | Included from => Ok from
  | Excluded from => ok_or (checked_add from 1) (InternalError "range's from wasn't representable")
  | Unbounded => Ok 0
  end.

Definition range_end (self : t) (bound : Bound) : query S InterfaceError.t Z :=
  match bound with
  | Included to => qret to
  | Excluded to => if 1 <=? to then qret (to - 1) else qlift (Err (InternalError "range's to wasn't representable"))
  | Unbounded => latest_block_number self
  end.

(** [Vec::pop] *)
Definition pop {A} (l : list A) : list A := take (length l - 1) l.

Definition ringct_output_distribution (self : t) (range : Bound * Bound) : query S InterfaceError.t (list Z) :=
  let! from := qlift (range_start (fst range)) in
  let! to := range_end self (snd range) in
  if to <? from then qlift (Err (InternalError "malformed range: inclusive start {from}, inclusive end {to}"))
  else
    let zero_zero_case := (from =? 0) && (to =? 0) in
    let request := Encode.output_distribution from (if zero_zero_case then 1 else to) in
    let! distributions := bin_call self (bstr "get_output_distribution.bin") request (sat_mul (sat_add (sat_sub to from) 2) 8) in
    let! start_height := qlift (DaemonEpee.extract_start_height distributions) in
    if start_height <? from then qlift (Err (InvalidInterface "requested distribution from {from} and got from {start_height}"))
    else if to <? start_height then qlift (Err (InvalidInterface "requested distribution to {to} and got from {start_height}"))
    else
      let! expected_len :=
        qlift (if zero_zero_case then Ok 2
               else let? n := usub to start_height in
                 ok_or (checked_add n 1) (InternalError "expected length of distribution exceeded usize")) in
      let! distribution := qlift (DaemonEpee.extract_distribution distributions expected_len) in
      qret (if zero_zero_case then pop distribution else distribution).

Definition ACCEPTED_TIMELOCK_DELTA : Z := 1.

(** The closure of [unlocked_ringct_outputs] *)
Definition unlocked_output (txs : list (Transaction Pruned)) (evaluate_unlocked : EvaluateUnlocked) (x : nat * RingCtOutputInformation.t)
  : outcome TransactionsError.t (option (Point * Point)) :=
  let (i, out) := x in
  match CompressedPoint.decompress (RingCtOutputInformation.key out) with
  | None => Ok None
  | Some key =>
      let? unlocked :=
        match evaluate_unlocked with
        | EvaluateNormal => Ok (RingCtOutputInformation.unlocked out)
        | FingerprintableDeterministic block_number =>
            let global_timelock_satisfied :=
              match checked_add (RingCtOutputInformation.block_number out) (Z.of_nat DEFAULT_LOCK_WINDOW - 1) with
              | Some locked => locked <=? block_number
              | None => false
              end in
            let? tx := index txs i in
            let transaction_timelock_satisfied :=
              match Timelock.partial_cmp (Timelock.Block (sat_add block_number ACCEPTED_TIMELOCK_DELTA))
                      (TransactionPrefix.additional_timelock (Transaction.prefix tx)) with
              | Some Gt | Some Eq => true
              | _ => false
              end in
            Ok (global_timelock_satisfied && transaction_timelock_satisfied)
        end in
      Ok (if unlocked then Some (key, RingCtOutputInformation.commitment out) else None)
  end.

(** The outputs and the transactions are those validated. *)
Definition unlocked_ringct_outputs (self : t) (indexes : list Z) (evaluate_unlocked : EvaluateUnlocked)
  : query S TransactionsError.t (list (option (Point * Point))) :=
  let! outs := transactions_error (ProvidesOutputs.ringct_outputs (t := ProvidesOutputs.blanket (provides_outputs self)) indexes) in
  let! txs :=
    match evaluate_unlocked with
    | FingerprintableDeterministic _ =>
        ProvidesTransactions.pruned_transactions (t := ProvidesTransactions.blanket (provides_transactions self))
          (map RingCtOutputInformation.transaction outs)
    | EvaluateNormal => qret []
    end in
  qlift (each (unlocked_output txs evaluate_unlocked) (enumerate outs)).

Definition provides_decoys (self : t) : ProvidesUnvalidatedDecoys.t S :=
  {| ProvidesUnvalidatedDecoys.decoys_meta := provides_blockchain_meta self;
     ProvidesUnvalidatedDecoys.ringct_output_distribution := ringct_output_distribution self;
     ProvidesUnvalidatedDecoys.unlocked_ringct_outputs := unlocked_ringct_outputs self |}.

(** ** Scannable blocks ([blocks_bin.rs]) *)

(** The loop over the blocks of a response, of which [remaining_blocks] are
    wanted: those pushed, and how many remain *)
Fixpoint push_blocks (remaining_blocks : Z) (blocks : list UnvalidatedScannableBlock.t)
  : outcome InterfaceError.t (list UnvalidatedScannableBlock.t * Z) :=
  match blocks with
  | [] => Ok ([], remaining_blocks)
  | block :: blocks =>
      let? remaining_blocks := usub remaining_blocks 1 in
      if remaining_blocks =? 0 then Ok ([block], 0)
      else let? (pushed, remaining_blocks) := push_blocks remaining_blocks blocks in Ok (block :: pushed, remaining_blocks)
  end.

(** ['outer: while start <= end], with whether the methodology was applicable *)
Fixpoint fetch_loop (fuel : nat) (self : t) (start last remaining_blocks : Z) (res : list UnvalidatedScannableBlock.t)
  : query S InterfaceError.t (bool * list UnvalidatedScannableBlock.t) :=
  if last <? start then qret (true, res)
  else
    match fuel with
    | O => qlift Panic
    | Datatypes.S fuel =>
        let! epee := bin_call self (bstr "get_blocks.bin") (Encode.blocks start remaining_blocks) MAX_RESPONSE_SIZE in
        let! blocks := qlift (DaemonEpee.extract_blocks_from_blocks_bin epee) in
        match blocks with
        | None => qret (false, res)
        | Some blocks =>
            let! (pushed, remaining_blocks) := qlift (push_blocks remaining_blocks blocks) in
            let res := res ++ pushed in
            if (remaining_blocks =? 0) && negb (len pushed =? 0) then qret (true, res)
            else if len pushed =? 0 then qlift (Err (InvalidInterface "received zero blocks when requesting multiple"))
            else
              let! n := qlift (usub last remaining_blocks) in
              let! start := qlift (uadd n 1) in
              fetch_loop fuel self start last remaining_blocks res
        end
    end.

Definition fetch_contiguous_blocks (self : t) (range : Z * Z) (res : list UnvalidatedScannableBlock.t)
  : query S InterfaceError.t (bool * list UnvalidatedScannableBlock.t) :=
  if fst range =? 0 then qlift (Err (InternalError "attempting to fetch contiguous blocks from 0"))
  else if snd range <? fst range then qret (true, res)
  else
    let! requested_blocks :=
      qlift (ok_or (checked_add (snd range - fst range) 1) (InternalError "requested more blocks than representable in a `usize`")) in
    fetch_loop (Z.to_nat requested_blocks) self (fst range) (snd range) requested_blocks res.

(** The next index of a RingCT output, and the first of the block's *)
Definition update_output_index {P : PotentiallyPruned} (x : option Z * option Z) (tx : Transaction P)
  : outcome InterfaceError.t (option Z * option Z) :=
  let (next, first) := x in
  match tx with
  | V1 _ _ => Ok (next, first)
  | V2 prefix _ =>
      let outputs := TransactionPrefix.outputs prefix in
      match next, outputs with
      | None, _ :: _ => Err (InternalError "RingCT transactions yet no RingCT output index")
      | None, [] => Ok (None, first)
      | Some n, _ =>
          let? n' := if n + len outputs <? 2 ^ 64 then Ok (n + len outputs) else Err (InvalidInterface "output index exceeded `u64::MAX`") in
          Ok (Some n', match first with Some first => Some first | None => Some n end)
      end
  end.

Definition update_output_index_with_fetch (self : t) {P : PotentiallyPruned} (x : option Z * option Z) (tx_hash : bytes) (tx : Transaction P)
  : query S InterfaceError.t (option Z * option Z) :=
  let (next, first) := x in
  let! next :=
    match tx, next with
    | V2 prefix _, None =>
        match TransactionPrefix.outputs prefix with
        | [] => qret next
        | outputs =>
            let! indexes := ProvidesOutputs.output_indexes (t := ProvidesOutputs.blanket (provides_outputs self)) tx_hash in
            if negb (length outputs =? length indexes)%nat
            then qlift (Err (InvalidInterface "TX had {} outputs yet `get_o_indexes` returned {}"))
            else let! index := qlift (index indexes 0) in qret (Some index)
        end
    | _, _ => qret next
    end in
  qlift (update_output_index (next, first) tx).

(** The loop over the transactions *)
Fixpoint update_loop (self : t) (x : option Z * option Z) (txs : list (bytes * PrunedTransactionWithPrunableHash.t))
  : query S InterfaceError.t (option Z * option Z) :=
  match txs with
  | [] => qret x
  | (hash, transaction) :: txs =>
      let! x := update_output_index_with_fetch self x hash (PrunedTransactionWithPrunableHash.transaction transaction) in
      update_loop self x txs
  end.

Definition expand_error (e : TransactionsError.t) : InterfaceError.t :=
  match e with
  | TransactionsError.InterfaceError e => e
  | TransactionsError.TransactionNotFound => InvalidInterface "daemon sent us a block it doesn't have the transactions for"
  | TransactionsError.PrunedTransaction =>
      InternalError "complaining about receiving a pruned transaction when requesting a pruned transaction"
  end.

Definition expand (self : t) (block : Block.t) : query S InterfaceError.t UnvalidatedScannableBlock.t :=
  let! transactions := qmap_err expand_error (pruned_transactions self (Block.transactions block)) in
  let! miner_hash := qlift (Transaction.hash (Block.miner_transaction block)) in
  let! x := update_output_index_with_fetch self (None, None) miner_hash (Block.miner_transaction block) in
  let! (_, first) := update_loop self x (zip (Block.transactions block) transactions) in
  qret (UnvalidatedScannableBlock.mk block transactions first).

Definition scannable_block (self : t) (hash : bytes) : query S InterfaceError.t UnvalidatedScannableBlock.t :=
  let! block := MoneroDaemon.block self hash in expand self block.

Definition scannable_block_by_number (self : t) (number : Z) : query S InterfaceError.t UnvalidatedScannableBlock.t :=
  let! hash := block_hash self number in scannable_block self hash.

(** What's fetched from a start other than zero *)
Definition fetch_or_expand (self : t) (range : Z * Z) (res : list UnvalidatedScannableBlock.t)
  : query S InterfaceError.t (list UnvalidatedScannableBlock.t) :=
  let len_before_fetch := len res in
  let! (applicable, res) := fetch_contiguous_blocks self range res in
  if applicable then qret res
  else
    let! len_successfully_fetched :=
      qlift (if len_before_fetch <=? len res then Ok (len res - len_before_fetch)
             else Err (InternalError "`fetch_contiguous_blocks` shortened the length of `res`")) in
    match checked_add (fst range) len_successfully_fetched with
    | None => qret res
    | Some new_start =>
        let! blocks := contiguous_blocks self (new_start, snd range) in
        let! expanded := qmap (expand self) blocks in
        qret (res ++ expanded)
    end.

Definition contiguous_scannable_blocks (self : t) (range : Z * Z) : query S InterfaceError.t (list UnvalidatedScannableBlock.t) :=
  if fst range =? 0 then
    let! genesis := scannable_block_by_number self 0 in
    fetch_or_expand self (1, snd range) [genesis]
  else fetch_or_expand self range [].

Definition provides_scannable_blocks (self : t) : ProvidesUnvalidatedScannableBlocks.t S :=
  {| ProvidesUnvalidatedScannableBlocks.contiguous_scannable_blocks := contiguous_scannable_blocks self;
     ProvidesUnvalidatedScannableBlocks.scannable_block := scannable_block self;
     ProvidesUnvalidatedScannableBlocks.scannable_block_by_number := scannable_block_by_number self |}.
End Ops.
End DaemonBin.
