(* ===== verification/DaemonBinProofs.v ===== *)
(** What the client of a daemon's binary routes promises
    ([interface/daemon/src/bin_rpc/]), and that the client as a whole keeps what
    the validated interface asks of it, over any transport. *)

From Stdlib Require Import ZArith Lia.
From stdpp Require Import base list strings numbers.
From S2P Require Import Prelude Dalek MoneroIo Ed25519 RingCT Transaction Block Address Epee Interface DecoySelection DaemonEpee DaemonEpeeProofs Daemon DaemonProofs DaemonBin.

Import InterfaceError(InternalError, InvalidInterface).
Import MoneroDaemon DaemonBin.

Section Proofs.
Context {D : Dalek} {DL : DalekLaws D} {K : Keccak} {KL : KeccakLaws K} {HX : Hex} {HL : HexLaws HX} {J : Json} {JL : JsonLaws J}.
Context {S : Type} {HT : HttpTransport S} {TL : TransportLaws HT} (self : t).

Lemma bin_call_ok route params limit : ensures (bin_call self route params limit) is_bytes.
Proof.
  unfold bin_call. cbv zeta. eapply ensures_bind; [apply post_law|]. intros res Hr. apply (is_bytes_take (Z.to_nat (Z.min
    (sat_add HTTP_OVERHEAD_ESTIMATE (Z.max limit MIN_RESPONSE_SIZE_IN_BYTES_ESTIMATE)) MAX_RESPONSE_SIZE))) in Hr.
  eapply ensures_bind; [apply ensures_yields, check_status_ok, Hr|]. intros _ _. apply ensures_ret, Hr.
Qed.

(** ** Outputs *)

Lemma output_indexes_returned hash : ensures (output_indexes self hash) (Forall (U 64)).
Proof. eapply ensures_bind; [apply bin_call_ok|]. intros e He. apply ensures_yields, extract_output_indexes_ok, He. Qed.

Lemma ringct_outputs_loop_ok fuel indexes res : (length indexes <= fuel)%nat -> Forall info_ok res ->
  ensures (ringct_outputs_loop fuel self indexes res) (fun outs => Forall info_ok outs /\ length outs = (length res + length indexes)%nat).
Proof.
  revert indexes res. induction fuel as [|fuel IH]; intros [|i indexes] res Hf Hres; cbn [ringct_outputs_loop];
    try (apply ensures_ret; split; [exact Hres|cbn; lia]); [cbn in Hf; lia|].
  set (l := i :: indexes) in *. assert (Hmax : 1 <= MAX_OUTS) by (vm_compute; discriminate). cbv zeta.
  assert (Hlen : (1 <= length l)%nat) by (unfold l; cbn [length]; lia). clearbody l.
  eapply ensures_bind; [apply bin_call_ok|]. intros e He.
  eapply ensures_bind; [apply ensures_yields, accumulate_outs_ok; [exact He|exact Hres]|]. intros res' [Hr' Hl'].
  eapply ensures_mono, IH; [|rewrite length_drop; lia|exact Hr'].
  cbn. intros outs [Ho Hlo]. split; [exact Ho|]. rewrite length_drop in Hlo. unfold len in Hl'. rewrite length_take in Hl'. lia.
Qed.

(** An output is returned for each index. *)
Lemma ringct_outputs_returned indexes :
  ensures (ringct_outputs self indexes) (fun outs => Forall info_ok outs /\ length outs = length indexes).
Proof. apply (ringct_outputs_loop_ok (length indexes) indexes []); [constructor|constructor]. Qed.

#[export] Instance outputs_deserialized : ProvidesUnvalidatedOutputs.Deserialized (provides_outputs self).
Proof.
  split; cbn; [exact output_indexes_returned|]. intros indexes. eapply ensures_mono, ringct_outputs_returned. auto.
Qed.

(** ** Decoys *)

Lemma distribution_returned range : ensures (ringct_output_distribution self range) (Forall (U 64)).
Proof.
  unfold ringct_output_distribution. apply (ensures_bind (fun _ => True)).
  { apply ensures_yields. destruct (fst range); try exact I. apply yields_ok_or. auto. }
  intros from _. apply (ensures_bind (fun _ => True)).
  { destruct (snd range); cbn [range_end]; [apply ensures_ret; exact I|destruct (_ <=? _); [apply ensures_ret; exact I|apply ensures_err]|].
    eapply ensures_mono, latest_block_number_ok. auto. }
  intros to _. destruct (_ <? _); [apply ensures_err|]. cbv zeta. eapply ensures_bind; [apply bin_call_ok|]. intros e He.
  eapply ensures_bind; [apply ensures_yields, extract_start_height_ok, He|]. intros start _.
  destruct (_ <? _); [apply ensures_err|]. destruct (Z.ltb_spec to start) as [|Hle]; [apply ensures_err|].
  apply (ensures_bind (fun _ => True)).
  { apply ensures_yields. destruct (_ && _); [exact I|]. unfold usub. destruct (Z.leb_spec start to); [|lia]. cbn [obind].
    apply yields_ok_or. auto. }
  intros n _. eapply ensures_bind; [apply ensures_yields, extract_distribution_ok, He|]. intros d [Hd _]. apply ensures_ret.
  destruct (_ && _); [apply Forall_take, Hd|exact Hd].
Qed.

(** A transaction is at hand for each output whose timelock is evaluated. *)
Lemma unlocked_output_ok txs evaluate_unlocked i out :
  match evaluate_unlocked with FingerprintableDeterministic _ => (i < length txs)%nat | EvaluateNormal => True end ->
  yields (unlocked_output txs evaluate_unlocked (i, out)) (fun _ => True).
Proof.
  intros Hi. unfold unlocked_output. destruct (CompressedPoint.decompress _); [|exact I].
  apply (yields_bind (fun _ => True)); [|intros; exact I]. destruct evaluate_unlocked as [|n]; [exact I|]. cbv zeta.
  unfold index. destruct (lookup_lt_is_Some_2 txs i Hi) as [tx Htx]. rewrite Htx. exact I.
Qed.

Lemma unlocked_returned indexes evaluate_unlocked : ensures (unlocked_ringct_outputs self indexes evaluate_unlocked) (fun _ => True).
Proof.
  unfold unlocked_ringct_outputs. eapply ensures_bind; [apply ensures_map_err, ProvidesOutputs.ringct_outputs_law|]. intros outs _.
  apply (ensures_bind (fun txs => match evaluate_unlocked with FingerprintableDeterministic _ => length txs = length outs | EvaluateNormal => True end)).
  - destruct evaluate_unlocked as [|n]; [apply ensures_ret; exact I|].
    eapply ensures_mono, ProvidesTransactions.pruned_transactions_law. cbn. intros txs Htxs. apply Forall2_length in Htxs.
    rewrite length_map in Htxs. congruence.
  - intros txs Htxs. apply ensures_yields. eapply yields_mono; [|apply (yields_each (fun _ => True))]; [auto|].
    intros [i out] Hin. apply unlocked_output_ok. destruct evaluate_unlocked as [|n]; [exact I|]. rewrite Htxs.
    unfold enumerate in Hin. apply elem_of_zip_l, elem_of_seq in Hin. lia.
Qed.

#[export] Instance decoys_deserialized : ProvidesUnvalidatedDecoys.Deserialized (provides_decoys self).
Proof. split; cbn; [exact (latest_block_number_ok self)|exact distribution_returned|exact unlocked_returned]. Qed.

(** ** Scannable blocks *)

Abbreviation block_ok' := UnvalidatedScannableBlock.ok.

(** Of the blocks received, those wanted are pushed. *)
Lemma push_blocks_ok remaining blocks : 1 <= remaining -> Forall block_ok' blocks ->
  yields (push_blocks remaining blocks) (fun x => Forall block_ok' (fst x) /\ snd x = remaining - len (fst x) /\ 0 <= snd x).
Proof.
  revert remaining. induction blocks as [|b blocks IH]; intros remaining Hr Hb; cbn [push_blocks];
    [cbn [yields fst snd]; split_and!; [constructor|change (len []) with 0; lia|lia]|].
  apply Forall_cons_iff in Hb as [Hb1 Hb]. unfold usub. destruct (Z.leb_spec 1 remaining); [|lia]. cbn [obind].
  destruct (Z.eqb_spec (remaining - 1) 0); [cbn [yields fst snd]; split_and!; [constructor; [exact Hb1|constructor]|change (len [b]) with 1; lia|lia]|].
  eapply yields_bind; [apply IH; [lia|exact Hb]|]. intros [pushed r] (H1 & H2 & H3). cbn [fst snd yields] in *.
  split_and!; [constructor; assumption|unfold len in *; cbn [length]; lia|exact H3].
Qed.

(** What a fetch of [remaining] blocks leaves, from those there were *)
Definition fetched (res : list UnvalidatedScannableBlock.t) (remaining : Z) (x : bool * list UnvalidatedScannableBlock.t) : Prop :=
  Forall block_ok' (snd x) /\ len res <= len (snd x) /\
  if fst x then len (snd x) = len res + remaining else len (snd x) < len res + remaining.

Lemma fetch_loop_ok fuel start last remaining res : Z.of_nat fuel >= remaining -> 1 <= remaining -> remaining = last - start + 1 ->
  0 <= start -> last <= USIZE_MAX -> Forall block_ok' res ->
  ensures (fetch_loop fuel self start last remaining res) (fetched res remaining).
Proof.
  revert start remaining res. induction fuel as [|fuel IH]; intros start remaining res Hf Hr He H0 Hl Hres; cbn [fetch_loop]; [lia|].
  destruct (Z.ltb_spec last start); [lia|]. eapply ensures_bind; [apply bin_call_ok|]. intros e Heb.
  eapply ensures_bind; [apply ensures_yields, extract_blocks_ok, Heb|]. intros [blocks|] Hblocks;
    [|apply ensures_ret; split_and!; [exact Hres|cbn [snd]; lia|cbn [fst snd]; lia]].
  eapply ensures_bind; [apply ensures_yields, (push_blocks_ok remaining blocks Hr Hblocks)|].
  intros [pushed r'] (Hp & Hr' & Hpos). cbn [fst snd] in *. cbv zeta.
  assert (Hok : Forall block_ok' (res ++ pushed)) by (apply Forall_app; auto).
  assert (Hlen : len (res ++ pushed) = len res + len pushed) by (unfold len; rewrite length_app; lia).
  assert (Hnn : 0 <= len pushed) by (unfold len; lia).
  destruct (Z.eqb_spec r' 0), (Z.eqb_spec (len pushed) 0); cbn [andb negb]; try lia.
  - apply ensures_ret. split_and!; cbn [fst snd]; [exact Hok|lia|lia].
  - apply ensures_err.
  - unfold usub, uadd. destruct (Z.leb_spec r' last); [|lia].
    apply (ensures_bind (eq (last - r'))); [apply ensures_ret; reflexivity|]. intros ? <-.
    destruct (Z.leb_spec (last - r' + 1) USIZE_MAX); [|lia].
    apply (ensures_bind (eq (last - r' + 1))); [apply ensures_ret; reflexivity|]. intros ? <-.
    eapply ensures_mono, IH; [|lia..|exact Hok]. intros [b res'] (G1 & G2 & G3). cbn [fst snd] in *.
    split_and!; cbn [fst snd]; [exact G1|lia|destruct b; lia].
Qed.

Lemma fetch_contiguous_blocks_ok range res : usize_range range -> Forall block_ok' res ->
  ensures (fetch_contiguous_blocks self range res) (fetched res (Z.max 0 (snd range - fst range + 1))).
Proof.
  intros [[H0 _] [_ Hl]] Hres. unfold fetch_contiguous_blocks. destruct (Z.eqb_spec (fst range) 0); [apply ensures_err|].
  destruct (Z.ltb_spec (snd range) (fst range)); [apply ensures_ret; split_and!; cbn [fst snd]; [exact Hres|lia|lia]|].
  apply (ensures_bind (eq (snd range - fst range + 1))).
  { apply ensures_yields, yields_ok_or. unfold checked_add. destruct (_ <=? _); congruence. }
  intros ? <-. eapply ensures_mono, fetch_loop_ok; [|lia..|unfold USIZE_MAX; lia|exact Hres].
  intros x Hx. rewrite Z.max_r by lia. exact Hx.
Qed.

(** The indexes, where there are any, are [u64]s. *)
Definition index_ok (i : option Z) : Prop := match i with Some i => U 64 i | None => True end.
Definition both_ok (x : option Z * option Z) : Prop := index_ok (fst x) /\ index_ok (snd x).

Lemma update_output_index_ok {P : PotentiallyPruned} x (tx : Transaction P) : both_ok x -> yields (update_output_index x tx) both_ok.
Proof.
  intros [Hn Hf]. destruct x as [next first]. cbn [fst snd] in *. destruct tx as [p s|p s]; [split; assumption|].
  unfold update_output_index. cbv zeta. destruct next as [n|]; [|destruct (TransactionPrefix.outputs p); [split; assumption|exact I]].
  apply (yields_bind (U 64)); [destruct (Z.ltb_spec (n + len (TransactionPrefix.outputs p)) (2 ^ 64)); [|exact I]; cbn [index_ok] in Hn; unfold U, len in *; cbn [yields]; lia|].
  intros n' Hn'. split; [exact Hn'|]. destruct first; assumption.
Qed.

Lemma update_with_fetch_ok {P : PotentiallyPruned} x hash (tx : Transaction P) : both_ok x ->
  ensures (update_output_index_with_fetch self x hash tx) both_ok.
Proof.
  intros [Hn Hf]. destruct x as [next first]. cbn [fst snd] in *. unfold update_output_index_with_fetch.
  apply (ensures_bind index_ok); [|intros next' Hn'; apply ensures_yields, update_output_index_ok; split; assumption].
  destruct tx as [p s|p s]; [apply ensures_ret, Hn|]. destruct next as [n|]; [apply ensures_ret, Hn|].
  destruct (TransactionPrefix.outputs p) as [|o outputs]; [apply ensures_ret, Hn|].
  eapply ensures_bind; [apply ProvidesOutputs.output_indexes_law|]. intros indexes Hi.
  destruct (Nat.eqb_spec (length (o :: outputs)) (length indexes)) as [Hl|]; cbn [negb]; [|apply ensures_err].
  destruct indexes as [|i indexes]; [discriminate Hl|].
  apply (ensures_bind (eq i)); [apply ensures_ret; reflexivity|]. intros ? <-. apply ensures_ret. exact (Forall_inv Hi).
Qed.

Lemma update_loop_ok txs x : both_ok x -> ensures (update_loop self x txs) both_ok.
Proof.
  revert x. induction txs as [|[hash tx] txs IH]; intros x Hx; cbn [update_loop]; [apply ensures_ret, Hx|].
  eapply ensures_bind; [apply update_with_fetch_ok, Hx|]. intros x' Hx'. apply IH, Hx'.
Qed.

Lemma expand_ok block : block_ok block -> ensures (expand self block) (fun x => block_ok' x /\ UnvalidatedScannableBlock.block x = block).
Proof.
  intros Hb. unfold expand. eapply ensures_bind; [apply ensures_map_err, pruned_transactions_returned|]. intros txs [Htxs _].
  destruct (tx_hash_total (Block.miner_transaction block)) as [h Hh]. rewrite Hh.
  apply (ensures_bind (eq h)); [apply ensures_ret; reflexivity|]. intros ? <-.
  eapply ensures_bind; [apply update_with_fetch_ok; split; exact I|]. intros x Hx.
  eapply ensures_bind; [apply update_loop_ok, Hx|]. intros [next first] [_ Hf]. apply ensures_ret.
  split; [split_and!; assumption|reflexivity].
Qed.

Lemma scannable_block_returned hash : ensures (scannable_block self hash) block_ok'.
Proof.
  eapply ensures_bind; [apply block_returned|]. intros b Hb. eapply ensures_mono, expand_ok, Hb. intros x [Hx _]. exact Hx.
Qed.

Lemma scannable_by_number_returned number : ensures (scannable_block_by_number self number) block_ok'.
Proof. eapply ensures_bind; [apply block_hash_returned|]. intros h _. apply scannable_block_returned. Qed.

(** What a fetch leaves off is expanded: the blocks of the range are returned. *)
Lemma fetch_or_expand_ok range res : usize_range range -> Forall block_ok' res ->
  ensures (fetch_or_expand self range res) (fun bs => Forall block_ok' bs /\ len bs = len res + Z.max 0 (snd range - fst range + 1)).
Proof.
  intros Hu Hres. unfold fetch_or_expand. cbv zeta. eapply ensures_bind; [apply fetch_contiguous_blocks_ok; assumption|].
  intros [applicable res'] (H1 & H2 & H3). cbn [fst snd] in *. destruct applicable; [apply ensures_ret; auto|].
  destruct (Z.leb_spec (len res) (len res')); [|lia].
  apply (ensures_bind (eq (len res' - len res))); [apply ensures_ret; reflexivity|]. intros ? <-.
  destruct Hu as [[H0 Hs] [He Hl]]. unfold USIZE_BITS in *.
  unfold checked_add. destruct (Z.leb_spec (fst range + (len res' - len res)) USIZE_MAX) as [Hm|Hm]; [|unfold USIZE_MAX, USIZE_BITS in Hm; lia].
  eapply ensures_bind; [apply contiguous_blocks_returned; split; cbn [fst snd]; unfold U, USIZE_MAX, USIZE_BITS in *; lia|].
  cbn [fst snd]. intros blocks [Hb Hlb].
  eapply ensures_bind; [apply (ensures_map (fun b x => block_ok' x /\ UnvalidatedScannableBlock.block x = b)); intros b Hin; apply expand_ok;
    exact (proj1 (list.Forall_forall _ _) Hb b Hin)|].
  intros expanded Hexp. apply ensures_ret. split.
  - apply Forall_app. split; [exact H1|]. clear -Hexp. induction Hexp as [|b x l l' [Hx _] _ IH]; constructor; assumption.
  - apply Forall2_length in Hexp. unfold len in *. rewrite length_app. lia.
Qed.

(** The blocks of a range are as many as the range has. *)
Lemma contiguous_scannable_returned range : usize_range range ->
  ensures (contiguous_scannable_blocks self range) (fun bs => Forall block_ok' bs /\ len bs = Z.max (if fst range =? 0 then 1 else 0) (snd range - fst range + 1)).
Proof.
  intros Hu. unfold contiguous_scannable_blocks. destruct (Z.eqb_spec (fst range) 0) as [Hz|].
  - eapply ensures_bind; [apply scannable_by_number_returned|]. intros genesis Hg.
    eapply ensures_mono, fetch_or_expand_ok; [|destruct Hu; split; [split; vm_compute; congruence|assumption]|constructor; [exact Hg|constructor]].
    cbn [fst snd]. intros bs [Hb Hl]. split; [exact Hb|]. change (len [genesis]) with 1 in Hl. lia.
  - eapply ensures_mono, fetch_or_expand_ok; [|exact Hu|constructor]. intros bs [Hb Hl]. split; [exact Hb|]. exact Hl.
Qed.

#[export] Instance scannable_deserialized : ProvidesUnvalidatedScannableBlocks.Deserialized (provides_scannable_blocks self).
Proof.
  split; cbn.
  - intros range Hu. eapply ensures_mono, contiguous_scannable_returned, Hu. intros bs [H _]. exact H.
  - exact scannable_block_returned.
  - intros number _. exact (scannable_by_number_returned number).
Qed.

(** C35: Whatever is answered over a transport, if answered at all, the client
    of the daemon keeps what the validated interface is built upon, so what it
    validates are the transactions of the hashes requested, blocks which form
    a chain, as many outputs as requested, distributions which never decrease.
    The fee rates it returns are within their bounds.  No response makes the
    client panic: no index is out of range, no subtraction underflows, nothing
    is divided by zero. *)
Theorem daemon_implements :
  ProvidesTransactions.Laws (ProvidesTransactions.blanket (provides_transactions self)) /\
  ProvidesBlockchain.Laws (ProvidesBlockchain.blanket (provides_blockchain self)) /\
  ProvidesOutputs.Laws (ProvidesOutputs.blanket (provides_outputs self)) /\
  ProvidesDecoys.Laws (ProvidesDecoys.blanket (provides_decoys self)) /\
  ProvidesUnvalidatedScannableBlocks.Deserialized (provides_scannable_blocks self) /\
  (forall priority, U 32 (FeePriority_to_u32 priority) ->
     ensures (ProvidesUnvalidatedFeeRates.fee_rate (t := provides_fee_rates self) priority) fee_rate_ok) /\
  forall tx, ensures (publish_transaction self tx) (fun _ => True).
Proof.
  split_and!; try apply _.
  - exact (fee_rate_ok' self).
  - exact (publish_transaction_ok self).
Qed.

(** C36: Every loop of the client ends whatever is answered, and one which
    succeeds has everything requested: a transaction for each hash, an output
    for each index, and the blocks of a range, over JSON or by
    [get_blocks.bin].  A batch which fails is requested again block by block,
    the responses' sizes never bring the blocks requested at once to zero, and
    what a binary response has beyond what was requested is left off. *)
Theorem daemon_returns_requested hashes indexes range : usize_range range ->
  ensures (transactions self hashes) (fun txs => length txs = length hashes) /\
  ensures (pruned_transactions self hashes) (fun txs => length txs = length hashes) /\
  ensures (ringct_outputs self indexes) (fun outs => length outs = length indexes) /\
  ensures (contiguous_blocks self range) (fun bs => len bs = Z.max 0 (snd range - fst range + 1)) /\
  ensures (contiguous_scannable_blocks self range)
    (fun bs => len bs = Z.max (if fst range =? 0 then 1 else 0) (snd range - fst range + 1)).
Proof.
  intros Hu. split_and!; (eapply ensures_mono;
    [|first [apply transactions_returned|apply pruned_transactions_returned|apply ringct_outputs_returned
            |exact (contiguous_blocks_returned self range Hu)|exact (contiguous_scannable_returned range Hu)]]); intros ? H; apply H.
Qed.
End Proofs.

Section Witness.
Import Model.

Lemma daemon_implements_witness : exists self : MoneroDaemon.t, supports_json_rpc_batch_requests self = true /\
  ProvidesOutputs.Laws (ProvidesOutputs.blanket (provides_outputs (HT := example_transport) self)).
Proof.
  exists (mk true true). split; [reflexivity|].
  exact (proj1 (proj2 (proj2 (daemon_implements (DL := dalek_laws) (KL := keccak_laws) (HL := example_hex_laws)
    (JL := example_json_laws) (TL := example_transport_laws) (mk true true))))).
Defined.

Lemma daemon_returns_requested_witness :
  match fst (contiguous_blocks (HX := example_hex) (J := example_json) (HT := example_transport) (mk true true) (5, 6) tt) with
  | Ok bs => len bs = 2 | Err _ => True | Panic => False
  end.
Proof.
  exact (proj1 (proj2 (proj2 (proj2 (daemon_returns_requested (DL := dalek_laws) (HL := example_hex_laws)
    (JL := example_json_laws) (TL := example_transport_laws) (mk true true) [] [] (5, 6) ltac:(split; decide_now))))) tt).
Defined.
End Witness.
