(* ===== verification/DaemonRequests.v ===== *)
(** The requests which the client of a daemon encodes
    ([interface/daemon/src/bin_rpc/mod.rs], [blocks_bin.rs]), read back by the
    repository's own EPEE decoder. *)

From Stdlib Require Import ZArith Lia.
From stdpp Require Import base list strings numbers.
From S2P Require Import Prelude Dalek MoneroIo Ed25519 Epee Interface DaemonEpee Daemon DaemonBin.

Import DaemonEpee.

(** ** Reads of what was written *)

Section Reads.
Lemma read_bytes_app a bs n : len a = n -> read_bytes n (a ++ bs) = (Ok a, bs).
Proof.
  intros <-. unfold read_bytes, len. rewrite length_app. destruct (Z.ltb_spec (Z.of_nat (length a + length bs)) (Z.of_nat (length a))); [lia|].
  rewrite Nat2Z.id, take_app_length, drop_app_length. reflexivity.
Qed.

Lemma read_byte_cons b bs : read_byte (b :: bs) = (Ok b, bs).
Proof. unfold read_byte. change (b :: bs) with ([b] ++ bs). erewrite rbind_ok by (apply read_bytes_app; reflexivity). reflexivity. Qed.

(** A varint of a byte *)
Lemma read_varint_1 x bs : 0 <= x < 64 -> read_varint (Z.shiftl x 2 :: bs) = (Ok x, bs).
Proof.
  intros Hx. unfold read_varint. erewrite rbind_ok by apply read_byte_cons.
  assert (H0 : Z.land (Z.shiftl x 2) 3 = 0).
  { change 3 with (Z.ones 2). rewrite Z.land_ones, Z.shiftl_mul_pow2 by lia. apply Z.mod_mul. lia. }
  rewrite H0. cbn [rbind rret]. unfold rbind, rret. cbn [Nat.sub varint_loop]. unfold rret.
  rewrite Z.shiftr_shiftl_l by lia. rewrite Z.shiftl_0_r. reflexivity.
Qed.

Lemma read_key_app name bs : 0 < len name < 256 -> read_key ([len name] ++ name ++ bs) = (Ok name, bs).
Proof.
  intros Hl. unfold read_key. cbn [app]. erewrite rbind_ok by apply read_byte_cons.
  destruct (Z.eqb_spec (len name) 0); [lia|]. apply read_bytes_app. reflexivity.
Qed.

Lemma read_type_single k bs : read_type (as_u8 k :: bs) = (Ok (k, 1), bs).
Proof. unfold read_type. erewrite rbind_ok by apply read_byte_cons. destruct k; reflexivity. Qed.

(** Bits above others *)
Lemma lor_high a b k : 0 <= k -> 0 <= a < 2 ^ k -> Z.lor a (Z.shiftl b k) = a + 2 ^ k * b.
Proof.
  intros Hk Ha. pose proof (Z.add_lor_land a (Z.shiftl b k)) as H. assert (H0 : Z.land a (Z.shiftl b k) = 0).
  { rewrite <- (Z.mod_small a (2 ^ k)), <- Z.land_ones, <- Z.land_assoc, (Z.land_comm (Z.ones k)), Z.land_ones by lia.
    rewrite Z.shiftl_mul_pow2, Z.mod_mul by lia. apply Z.land_0_r. }
  rewrite H0, Z.shiftl_mul_pow2 in * by lia. lia.
Qed.

(** The bytes after the first *)
Lemma varint_loop_le n i vi x bs : 0 <= i -> 0 <= vi < 2 ^ (8 * i) ->
  varint_loop n i vi (to_le n x ++ bs) = (Ok (vi + 2 ^ (8 * i) * (x mod 2 ^ (8 * Z.of_nat n))), bs).
Proof.
  revert i vi x. induction n as [|n IH]; intros i vi x Hi Hv; cbn [varint_loop to_le].
  - unfold rret. cbn. rewrite Z.mod_1_r. do 2 f_equal. lia.
  - cbn [app]. erewrite rbind_ok by apply read_byte_cons.
    assert (Hp : 0 < 2 ^ (8 * i)) by (apply Z.pow_pos_nonneg; lia). pose proof (Z.mod_pos_bound x 256 ltac:(lia)) as Hm.
    assert (Hor : Z.lor vi (Z.shiftl (x mod 256) (i * 8)) = vi + 2 ^ (8 * i) * (x mod 256)).
    { rewrite (Z.mul_comm i). apply lor_high; lia. }
    rewrite Hor, IH; [|lia|].
    + do 2 f_equal. replace (8 * (i + 1)) with (8 * i + 8) by lia. rewrite Z.pow_add_r by lia.
      replace (8 * Z.of_nat (S n)) with (8 + 8 * Z.of_nat n) by lia. rewrite Z.pow_add_r, Z.rem_mul_r by (try lia; apply Z.pow_nonzero; lia).
      change (2 ^ 8) with 256. lia.
    + replace (8 * (i + 1)) with (8 * i + 8) by lia. rewrite Z.pow_add_r by lia. change (2 ^ 8) with 256. nia.
Qed.

(** A length in eight bytes *)
Lemma read_varint_8 n bs : 0 <= n < 2 ^ 62 ->
  read_varint (to_le 8 (Z.lor (Z.shiftl n 2 mod 2 ^ 64) 3) ++ bs) = (Ok n, bs).
Proof.
  intros Hn. rewrite Z.shiftl_mul_pow2, Z.mod_small by lia. set (x := Z.lor (n * 2 ^ 2) 3).
  assert (Hx : x = n * 4 + 3).
  { unfold x. rewrite Z.lor_comm, <- Z.shiftl_mul_pow2, lor_high by lia. change (2 ^ 2) with 4. lia. }
  unfold read_varint. change (to_le 8 x) with (x mod 256 :: to_le 7 (x / 256)). cbn [app]. erewrite rbind_ok by apply read_byte_cons.
  assert (H3 : Z.land (x mod 256) 3 = 3).
  { change 3 with (Z.ones 2) at 1. rewrite Z.land_ones by lia. change 256 with (2 ^ 2 * 64). rewrite Z.rem_mul_r by lia.
    rewrite Z.mul_comm, Z.add_mod, Z.mod_mul, Z.add_0_r, !Z.mod_mod by lia. rewrite Hx. change (2 ^ 2) with 4.
    rewrite Z.add_comm, Z.mod_add by lia. reflexivity. }
  rewrite H3, rbind_rret. cbn [Nat.sub]. pose proof (Z.mod_pos_bound x 256 ltac:(lia)) as Hm.
  erewrite rbind_ok by (apply (varint_loop_le 7 1); [lia|change (2 ^ (8 * 1)) with 256; lia]). unfold rret. do 2 f_equal.
  assert (Hq : (x / 256) mod 2 ^ (8 * Z.of_nat 7) = x / 256).
  { apply Z.mod_small. split; [apply Z.div_pos; lia|]. apply Z.div_lt_upper_bound; lia. }
  rewrite Hq. change (2 ^ (8 * 1)) with 256. replace (x mod 256 + 256 * (x / 256)) with x by (pose proof (Z.div_mod x 256 ltac:(lia)); lia).
  rewrite Z.shiftr_div_pow2, Hx by lia. change (2 ^ 2) with 4. rewrite Z.div_add_l by lia. change (3 / 4) with 0. lia.
Qed.
End Reads.

(** ** The decoder over what was written *)

Section Decoder.
(** The decoder's stack and the bytes it has left *)
Definition at_ (d : Epee.t) (l : StackSpec.t) (bs : bytes) : Prop :=
  repr (Epee.stack d) l /\ Epee.current_encoding_state d = bs /\ is_bytes bs /\ Epee.error d = None.

(** A frame of [n] items, if there are any *)
Definition frame (k : TypeOrEntry) (n : Z) (l : StackSpec.t) : StackSpec.t := if n =? 0 then l else (k, n) :: l.

Lemma at_step d l bs r l' bs' : l <> [] -> at_ d l bs -> spec_single_step l bs = (Ok r, (l', bs')) ->
  exists d', Epee.run single_step d = (Ok r, d') /\ at_ d' l' bs'.
Proof.
  intros Hl (Hr & Hs & Hb & He) Hsp. destruct (single_step_refines _ _ _ Hr Hb) as (H1 & H2 & H3).
  destruct (spec_single_step_bytes _ _ _ _ _ Hb Hl Hsp) as (Hb' & _ & _). rewrite Hsp in H1, H2, H3. cbn [fst snd] in *.
  unfold Epee.run. rewrite Hs. destruct (single_step (Epee.stack d, bs)) as [o [s bs1]]. cbn [fst snd] in *. subst o bs1.
  eexists. split; [reflexivity|]. exact (conj H3 (conj eq_refl (conj Hb' He))).
Qed.

Lemma step_object l n m bs : 0 < m < 64 -> (length (popped (OfType Object) n l) < MAX_OBJECT_DEPTH)%nat ->
  spec_single_step ((OfType Object, n) :: l) (Z.shiftl m 2 :: bs) =
    (Ok (Some (StepObject m)), ((Entry, m) :: popped (OfType Object) n l, bs)).
Proof.
  unfold popped. intros Hm Hl. unfold spec_single_step. cbn [StackSpec.pop read_item].
  erewrite rbind_ok by (apply read_varint_1; lia). unfold to_usize. destruct (Z.leb_spec m USIZE_MAX); [|unfold USIZE_MAX, USIZE_BITS in *; lia].
  rewrite rbind_rret. unfold rret, StackSpec.push. destruct (Nat.eqb_spec (length (if n =? 1 then l else (OfType Object, n - 1) :: l)) MAX_OBJECT_DEPTH) as [Hd|_]; [destruct (Nat.lt_neq _ _ Hl Hd)|].
  destruct (Z.eqb_spec m 0); [lia|reflexivity].
Qed.

(** An entry whose type is read as [k], of [m] values *)
Lemma step_entry l n name k m t bs : 0 < len name < 256 -> 0 <= m <= USIZE_MAX -> read_type (t ++ bs) = (Ok (k, m), bs) ->
  (length (popped Entry n l) < MAX_OBJECT_DEPTH)%nat ->
  spec_single_step ((Entry, n) :: l) ([len name] ++ name ++ t ++ bs) =
    (Ok (Some (StepEntry name k m)), (frame (OfType k) m (popped Entry n l), bs)).
Proof.
  unfold popped. intros Hn Hm Ht Hl. unfold spec_single_step. cbn [StackSpec.pop read_item].
  erewrite rbind_ok by (apply read_key_app; exact Hn). erewrite rbind_ok by exact Ht. unfold to_usize.
  destruct (Z.leb_spec m USIZE_MAX); [|lia]. rewrite rbind_rret. unfold rret, StackSpec.push, frame.
  destruct (Nat.eqb_spec (length (if n =? 1 then l else (Entry, n - 1) :: l)) MAX_OBJECT_DEPTH) as [Hd|_]; [destruct (Nat.lt_neq _ _ Hl Hd)|]. destruct (m =? 0); reflexivity.
Qed.

Lemma at_fields d l n m bs : 0 < m < 64 -> (length (popped (OfType Object) n l) < MAX_OBJECT_DEPTH)%nat ->
  at_ d ((OfType Object, n) :: l) (Z.shiftl m 2 :: bs) ->
  exists d', epee (E := InterfaceError.t) (fields (EpeeEntry.mk true Object 1)) d = (Ok (FieldIterator.mk m), d') /\
    at_ d' ((Entry, m) :: popped (OfType Object) n l) bs.
Proof.
  intros Hm Hl Ha. destruct (at_step d ((OfType Object, n) :: l) _ _ _ _ ltac:(discriminate) Ha (step_object l n m bs Hm Hl)) as (d' & Hd & Ha').
  exists d'. split; [|exact Ha']. destruct Ha as (_ & _ & _ & He).
  unfold epee, qmap_err, fields, EpeeEntry.take. cbn [EpeeEntry.root EpeeEntry.kind EpeeEntry.len]. rewrite He.
  rewrite bool_decide_eq_true_2 by reflexivity. cbn [negb orb Z.eqb Pos.eqb]. rewrite Hd. reflexivity.
Qed.

Lemma at_next d l n m k amount name t bs : m <> 0 -> 0 < len name < 256 -> 0 <= amount <= USIZE_MAX ->
  read_type (t ++ bs) = (Ok (k, amount), bs) -> (length (popped Entry n l) < MAX_OBJECT_DEPTH)%nat ->
  at_ d ((Entry, n) :: l) ([len name] ++ name ++ t ++ bs) ->
  exists d', next_field (E := InterfaceError.t) (FieldIterator.mk m) d = (Ok (Some (name, EpeeEntry.mk true k amount), FieldIterator.mk (m - 1)), d') /\
    at_ d' (frame (OfType k) amount (popped Entry n l)) bs.
Proof.
  intros Hm Hn Hamt Ht Hl Ha.
  destruct (at_step d ((Entry, n) :: l) _ _ _ _ ltac:(discriminate) Ha (step_entry l n name k amount t bs Hn Hamt Ht Hl)) as (d' & Hd & Ha').
  exists d'. split; [|exact Ha']. destruct Ha as (_ & _ & _ & He). unfold next_field, FieldIterator.next. rewrite He. cbn [FieldIterator.len].
  destruct (Z.eqb_spec m 0); [contradiction|]. rewrite Hd. reflexivity.
Qed.

Lemma at_u64 d l n x bs : U 64 x -> at_ d ((OfType Uint64, n) :: l) (to_le 8 x ++ bs) ->
  exists d', epee (E := InterfaceError.t) (to_u64 (EpeeEntry.mk true Uint64 1)) d = (Ok x, d') /\ at_ d' (popped (OfType Uint64) n l) bs.
Proof.
  intros Hx (Hr & Hs & Hb & He). destruct (pop_refines (E := EpeeError) _ _ Hr) as (s' & Hp & Hr'). cbn [StackSpec.pop fst snd] in *.
  eexists (Epee.mk bs s' None). split; [|exact (conj Hr' (conj eq_refl (conj (is_bytes_app_r _ _ Hb) eq_refl)))].
  unfold epee, qmap_err, to_u64, map_res, to_primitive, to_read, EpeeEntry.take. cbn [EpeeEntry.root EpeeEntry.kind EpeeEntry.len].
  rewrite bool_decide_eq_true_2 by reflexivity. cbn [negb orb Z.eqb Pos.eqb]. rewrite He. unfold Epee.run, pop_and_read, dbind, dpop, on_encoding.
  cbn [fst snd]. rewrite Hp, Hs. cbn [fst snd]. rewrite read_bytes_app by reflexivity. cbn [dropping EpeeEntry.drop EpeeEntry.root obind].
  unfold dropping. cbn [EpeeEntry.drop EpeeEntry.root obind omap_err]. cbn [fst snd obind omap_err]. rewrite (from_to_le 8 x) by exact Hx. rewrite He. reflexivity.
Qed.

(** A field of one number *)
Lemma at_u64_field d l n m name x bs : m <> 0 -> 0 < len (bstr name) < 256 -> U 64 x -> 0 <= m ->
  (length (popped Entry n l) < MAX_OBJECT_DEPTH)%nat -> at_ d ((Entry, n) :: l) (Encode.u64_field name x ++ bs) ->
  exists d', optional_field (E := InterfaceError.t) name (fun e => epee (to_u64 e)) (FieldIterator.mk m) d =
      (Ok (Some x, FieldIterator.mk (m - 1)), d') /\ at_ d' (popped Entry n l) bs.
Proof.
  intros Hm Hn Hx Hm0 Hl Ha. unfold Encode.u64_field, Encode.key in Ha. rewrite <- !app_assoc in Ha.
  destruct (at_next d l n m Uint64 1 (bstr name) [as_u8 Uint64] (to_le 8 x ++ bs)) as (d1 & H1 & Ha1); try assumption; [vm_compute; split; discriminate|apply read_type_single|].
  destruct (at_u64 d1 _ 1 x bs Hx Ha1) as (d2 & H2 & Ha2). exists d2. split; [|exact Ha2]. unfold optional_field. cbn [optional_field_loop].
  unfold qbind at 1. rewrite H1. rewrite bytes_eqb_refl. unfold qbind. rewrite H2. reflexivity.
Qed.
End Decoder.

(** ** What a daemon reads of the requests *)

Import InterfaceError(InternalError).

Abbreviation reads A := (outcome InterfaceError.t A).

Definition u64_of (name : string) := optional_field (E := InterfaceError.t) name (fun e => epee (to_u64 e)).
Definition bool_of (name : string) := optional_field (E := InterfaceError.t) name (fun e => epee (to_bool e)).

Definition read_o_indexes (request : bytes) : reads bytes := with_root request (field "txid" epee_32).

(** An amount and an index *)
Definition read_out (outs : list (option Z * option Z)) (entry : EpeeEntry.t) : query Epee.t InterfaceError.t (list (option Z * option Z)) :=
  let! it := epee (fields entry) in
  let! (amount, it) := u64_of "amount" it in
  let! (index, _) := u64_of "index" it in
  qret (outs ++ [(amount, index)]).

Definition read_outs (request : bytes) : reads (list (option Z * option Z)) :=
  with_root request (fun it =>
    let! outs := field "outputs" (fun e => epee (iterate e)) it in
    while_items read_out [] outs).

Definition read_distribution (request : bytes) : reads (option Z * option Z * option bool * option bool * list Z) :=
  with_root request (fun it =>
    let! (from, it) := u64_of "from_height" it in
    let! (to, it) := u64_of "to_height" it in
    let! (cumulative, it) := bool_of "cumulative" it in
    let! (compress, it) := bool_of "compress" it in
    let! amounts := field "amounts" (fun e => epee (iterate e)) it in
    let! amounts := while_items push_u64 [] amounts in
    qret (from, to, cumulative, compress, amounts)).

Definition read_blocks (request : bytes) : reads (option bool * option Z * option Z) :=
  with_root request (fun it =>
    let! (prune, it) := bool_of "prune" it in
    let! (start, it) := u64_of "start_height" it in
    let! (count, _) := u64_of "max_block_count" it in
    qret (prune, start, count)).

Section Requests.
Lemma to_le_8 x : exists a b c d e f g h, to_le 8 x = [a; b; c; d; e; f; g; h].
Proof. do 8 eexists. reflexivity. Qed.

Ltac le_bytes x Hx :=
  let H := fresh in destruct (to_le_8 x) as (? & ? & ? & ? & ? & ? & ? & ? & H); pose proof (from_to_le 8 x Hx);
  rewrite H in *; clear H.

Lemma blocks_decode start count : U 64 start -> U 64 count ->
  read_blocks (Encode.blocks start count) = Ok (Some true, Some start, Some count).
Proof.
  intros Hs Hc. unfold Encode.blocks, Encode.u64_field. le_bytes start Hs. le_bytes count Hc. subst start count.
  lazy -[from_le]. reflexivity.
Qed.

Lemma distribution_decode from to : U 64 from -> U 64 to ->
  read_distribution (Encode.output_distribution from to) = Ok (Some from, Some to, Some true, Some false, [0]).
Proof.
  intros Hf Ht. unfold Encode.output_distribution, Encode.u64_field. le_bytes from Hf. le_bytes to Ht. subst from to.
  lazy -[from_le]. reflexivity.
Qed.

Lemma o_indexes_decode hash : is_array 32 hash -> read_o_indexes (Encode.o_indexes hash) = Ok hash.
Proof. intros [_ Hl]. do 32 (destruct hash as [|? hash]; [discriminate Hl|]). destruct hash; [|discriminate Hl]. lazy. reflexivity. Qed.

(** *** The outputs *)

Definition out_bytes (index : Z) : bytes := [Z.shiftl 2 2] ++ Encode.u64_field "amount" 0 ++ Encode.u64_field "index" index.

Lemma read_out_ok d n outs index bs : 0 < n -> U 64 index -> at_ d (frame (OfType Object) n []) (out_bytes index ++ bs) ->
  exists d', read_out outs (EpeeEntry.mk true Object 1) d = (Ok (outs ++ [(Some 0, Some index)]), d') /\ at_ d' (frame (OfType Object) (n - 1) []) bs.
Proof.
  intros Hn Hi Ha. unfold frame in Ha. destruct (Z.eqb_spec n 0); [lia|]. unfold out_bytes in Ha. rewrite <- !app_assoc in Ha.
  assert (Hp : forall n k (l : StackSpec.t), (length l < 10)%nat -> (length (popped k n l) < 11)%nat)
    by (intros n' k l Hl; unfold popped; destruct (n' =? 1); cbn [length]; lia).
  assert (Hd : (20 < MAX_OBJECT_DEPTH)%nat) by (unfold MAX_OBJECT_DEPTH, EPEE_LIB_MAX_OBJECT_DEPTH; lia).
  pose proof (Hp n (OfType Object) [] ltac:(cbn; lia)) as Hp0.
  destruct (at_fields d [] n 2 _ ltac:(lia) ltac:(lia) Ha) as (d1 & H1 & Ha1).
  assert (Hp1 : (length (popped (OfType Object) n []) < 2)%nat) by (unfold popped; destruct (n =? 1); cbn [length]; lia).
  destruct (at_u64_field d1 (popped (OfType Object) n []) 2 2 "amount" 0 _ ltac:(lia) ltac:(vm_compute; split; reflexivity) ltac:(vm_compute; split; congruence)
    ltac:(lia) ltac:(pose proof (Hp 2 Entry (popped (OfType Object) n []) ltac:(lia)); lia) Ha1) as (d2 & H2 & Ha2).
  change (popped Entry 2 (popped (OfType Object) n [])) with ((Entry, 1) :: popped (OfType Object) n []) in Ha2.
  destruct (at_u64_field d2 (popped (OfType Object) n []) 1 1 "index" index _ ltac:(lia) ltac:(vm_compute; split; reflexivity) Hi
    ltac:(lia) ltac:(change (popped Entry 1 ?l) with l; lia) Ha2) as (d3 & H3 & Ha3).
  change (2 - 1) with 1 in H2. exists d3. unfold read_out, u64_of. unfold qbind at 1. rewrite H1. unfold qbind at 1. rewrite H2. unfold qbind at 1. rewrite H3.
  split; [reflexivity|]. unfold popped, frame in *. destruct (Z.eqb_spec n 1) as [->|]; [exact Ha3|].
  destruct (Z.eqb_spec (n - 1) 0); [lia|exact Ha3].
Qed.

Lemma out_items_ok fuel indexes outs d : Forall (U 64) indexes -> (length indexes < fuel)%nat ->
  at_ d (frame (OfType Object) (len indexes) []) (concat (map out_bytes indexes)) ->
  exists d', items_loop fuel read_out outs (ArrayIterator.mk Object (len indexes)) d =
    (Ok (outs ++ map (fun index => (Some 0, Some index)) indexes), d').
Proof.
  revert indexes outs d. induction fuel as [|fuel IH]; intros indexes outs d Hi Hf Ha; [lia|]. cbn [items_loop].
  assert (He : Epee.error d = None) by apply Ha. unfold qbind at 1, next_item, ArrayIterator.next. rewrite He. cbn [ArrayIterator.len].
  destruct indexes as [|index indexes].
  - exists d. cbn. rewrite app_nil_r. reflexivity.
  - apply Forall_cons_iff in Hi as [Hx Hi]. assert (Hl : len (index :: indexes) = len indexes + 1) by (unfold len; cbn [length]; lia).
    assert (Hn : 0 <= len indexes) by (unfold len; lia). rewrite Hl in *. destruct (Z.eqb_spec (len indexes + 1) 0); [lia|].
    cbn [map concat] in Ha. destruct (read_out_ok d (len indexes + 1) outs index _ ltac:(lia) Hx Ha) as (d1 & H1 & Ha1).
    cbn [ArrayIterator.kind]. unfold qbind. rewrite H1. replace (len indexes + 1 - 1) with (len indexes) in * by lia.
    destruct (IH indexes (outs ++ [(Some 0, Some index)]) d1 Hi ltac:(cbn [length] in Hf; lia) Ha1) as (d2 & H2).
    exists d2. rewrite H2. cbn [map]. rewrite <- app_assoc. reflexivity.
Qed.

Lemma new_at bs : is_bytes bs -> exists d, Epee.new (Encode.header ++ bs) = Ok d /\ at_ d [(OfType Object, 1)] bs.
Proof.
  intros Hb. destruct (root_object_refines (E := EpeeError)) as (s & Hs & Hr). exists (Epee.mk bs s None).
  split; [|exact (conj Hr (conj eq_refl (conj Hb eq_refl)))]. unfold Epee.new, Encode.header. rewrite <- app_assoc, read_bytes_app by reflexivity.
  rewrite bool_decide_eq_true_2 by reflexivity. cbn [negb app]. unfold rok. rewrite read_byte_cons, bool_decide_eq_true_2 by reflexivity.
  cbn [negb]. rewrite Hs. reflexivity.
Qed.

Lemma read_type_array n bs : 0 <= n < 2 ^ 62 ->
  read_type (([Z.lor (as_u8 Object) ARRAY] ++ to_le 8 (Z.lor (Z.shiftl n 2 mod 2 ^ 64) 3)) ++ bs) = (Ok (Object, n), bs).
Proof.
  intros Hn. rewrite <- app_assoc. cbn [app]. unfold read_type. erewrite rbind_ok by apply read_byte_cons.
  change (type_of (Z.land (Z.lor (as_u8 Object) ARRAY) (Z.lxor 255 ARRAY))) with (Some Object).
  change (negb (Z.land (Z.lor (as_u8 Object) ARRAY) ARRAY =? 0)) with true. cbv iota zeta.
  erewrite rbind_ok by (apply read_varint_8, Hn). reflexivity.
Qed.

Lemma out_bytes_ok index : is_bytes (out_bytes index).
Proof.
  unfold out_bytes, Encode.u64_field. repeat apply is_bytes_app_2; try apply to_le_bytes; apply (bool_decide_unpack _); vm_compute; exact I.
Qed.

Lemma outs_decode indexes : Forall (U 64) indexes -> len indexes < 2 ^ 62 ->
  read_outs (Encode.outs indexes) = Ok (map (fun index => (Some 0, Some index)) indexes).
Proof.
  intros Hi Hl. set (n := len indexes) in *. assert (Hn : 0 <= n) by (unfold n, len; lia).
  set (items := concat (map out_bytes indexes)).
  assert (Hb : is_bytes items) by (unfold items; clear; induction indexes; [constructor|apply is_bytes_app_2; [apply out_bytes_ok|assumption]]).
  set (array := [Z.lor (as_u8 Object) ARRAY] ++ to_le 8 (Z.lor (Z.shiftl n 2 mod 2 ^ 64) 3)).
  assert (Hab : is_bytes array) by (unfold array; apply is_bytes_app_2; [repeat constructor; vm_compute; congruence|apply to_le_bytes]).
  assert (Henc : Encode.outs indexes = Encode.header ++ [Z.shiftl 1 2] ++ [len (bstr "outputs")] ++ bstr "outputs" ++ array ++ items)
    by (unfold Encode.outs, Encode.outs_header, Encode.key, Encode.array, array; rewrite <- !app_assoc; reflexivity).
  destruct (new_at ([Z.shiftl 1 2] ++ [len (bstr "outputs")] ++ bstr "outputs" ++ array ++ items)) as (d & Hd & Ha).
  { do 3 (apply is_bytes_app_2; [apply (bool_decide_unpack _); vm_compute; exact I|]). apply is_bytes_app_2; assumption. }
  assert (Hm : (2 < MAX_OBJECT_DEPTH)%nat) by (unfold MAX_OBJECT_DEPTH, EPEE_LIB_MAX_OBJECT_DEPTH; lia).
  unfold read_outs, with_root. rewrite Henc, Hd. cbn [omap_err obind].
  assert (Hentry : entry d = Ok (EpeeEntry.mk true Object 1)).
  { destruct Ha as ((_ & _ & _ & Hdep & _) & _ & _ & He). unfold entry. rewrite Hdep, He. reflexivity. }
  rewrite Hentry. unfold qbind at 1, qlift at 1. cbn [omap_err].
  destruct (at_fields d [] 1 1 _ ltac:(lia) ltac:(cbn; lia) Ha) as (d1 & H1 & Ha1). unfold qbind at 1. rewrite H1.
  change (popped (OfType Object) 1 []) with (@nil (TypeOrEntry * Z)) in Ha1.
  destruct (at_next d1 [] 1 1 Object n (bstr "outputs") array items ltac:(lia) ltac:(vm_compute; split; reflexivity)
    ltac:(unfold USIZE_MAX, USIZE_BITS; lia) (read_type_array n items ltac:(lia)) ltac:(cbn; lia) Ha1) as (d2 & H2 & Ha2).
  change (popped Entry 1 []) with (@nil (TypeOrEntry * Z)) in Ha2.
  assert (He2 : Epee.error d2 = None) by apply Ha2.
  destruct (out_items_ok (S (Z.to_nat n)) indexes [] d2 Hi ltac:(unfold n, len; lia) Ha2) as (d3 & H3).
  unfold field, optional_field. cbn [optional_field_loop]. unfold qbind at 1 2 3. rewrite H2. rewrite bytes_eqb_refl. unfold qbind at 1.
  unfold epee, qmap_err, iterate, EpeeEntry.take. cbn [EpeeEntry.root EpeeEntry.kind EpeeEntry.len]. rewrite He2.
  unfold dropping. cbn [EpeeEntry.drop EpeeEntry.root omap_err qret ok_or]. unfold while_items, try, qlift. cbn [omap_err ok_or ArrayIterator.len].
  fold n in H3. rewrite H3. reflexivity.
Qed.

(** C38: Each request which the client encodes reads, by the repository's own
    decoder, as what was requested: the hash of a transaction, the outputs of
    no amount with the indexes, however many, the range of a distribution which
    is cumulative and not compressed, and pruned blocks from a start, at most
    so many. *)
Theorem requests_decode :
  (forall hash, is_array 32 hash -> read_o_indexes (Encode.o_indexes hash) = Ok hash) /\
  (forall indexes, Forall (U 64) indexes -> len indexes < 2 ^ 62 ->
     read_outs (Encode.outs indexes) = Ok (map (fun index => (Some 0, Some index)) indexes)) /\
  (forall from to, U 64 from -> U 64 to ->
     read_distribution (Encode.output_distribution from to) = Ok (Some from, Some to, Some true, Some false, [0])) /\
  (forall start count, U 64 start -> U 64 count -> read_blocks (Encode.blocks start count) = Ok (Some true, Some start, Some count)).
Proof. split_and!; [exact o_indexes_decode|exact outs_decode|exact distribution_decode|exact blocks_decode]. Qed.

Lemma requests_decode_witness :
  read_outs (Encode.outs [7; 11]) = Ok [(Some 0, Some 7); (Some 0, Some 11)] /\
  read_blocks (Encode.blocks 3 10) = Ok (Some true, Some 3, Some 10).
Proof.
  split.
  - exact (proj1 (proj2 requests_decode) [7; 11] ltac:(repeat constructor; vm_compute; congruence) ltac:(vm_compute; reflexivity)).
  - exact (proj2 (proj2 (proj2 requests_decode)) 3 10 ltac:(vm_compute; split; congruence) ltac:(vm_compute; split; congruence)).
Defined.
End Requests.
