(* ===== verification/SimpleRequest.v ===== *)
(** [interface/daemon/simple-request/src/lib.rs]: the HTTP transport for a
    daemon, with digest authentication.  [simple-request]'s client,
    [digest_auth] and [http]'s types are parameters; a timeout of [tokio]
    interrupts the code at an [await], whose call is then the one it happens
    in.  What's behind the [Mutex]es is the state: the challenge of the
    connection, with its client nonce, and that of the network. *)

From Stdlib Require Import ZArith Lia.
From stdpp Require Import base list strings numbers.
From S2P Require Import Prelude Dalek Ed25519 Interface Daemon.

Import InterfaceError(InternalError, InvalidInterface).

(** ** Strings, as their bytes *)

Fixpoint starts_with (pat s : bytes) : bool :=
  match pat, s with
  | [], _ => true
  | a :: pat, b :: s => (a =? b) && starts_with pat s
  | _ :: _, [] => false
  end.

(** [str::contains] *)
Fixpoint contains (pat s : bytes) : bool :=
  starts_with pat s || match s with [] => false | _ :: s => contains pat s end.

(** [str::ends_with] *)
Definition ends_with (pat s : bytes) : bool := bytes_eqb pat (drop (length s - length pat) s).

(** [str::split], by a pattern which isn't empty: what precedes its first
    occurrence, and so on; [skip] is what's left of an occurrence. *)
Fixpoint split_from (pat : bytes) (skip : nat) (s : bytes) : list bytes :=
  match s with
  | [] => [[]]
  | b :: s =>
      match skip with
      | S skip => split_from pat skip s
      | O =>
          if starts_with pat (b :: s) then [] :: split_from pat (length pat - 1) s
          else match split_from pat 0 s with [] => [[b]] | part :: parts => (b :: part) :: parts end
      end
  end.

Definition split (pat s : bytes) : list bytes := split_from pat 0 s.

(** [join] *)
Definition join_with (sep : bytes) (l : list bytes) : bytes :=
  match l with [] => [] | s :: l => s ++ concat (map (fun s => sep ++ s) l) end.

(** ** What the transport is made of *)

(** Why an [await] doesn't return: the timeout, or an error *)
Inductive interrupt : Type := Elapsed | Fails (e : InterfaceError.t).

(** A request, with the limit set on its response *)
Record Request := mk_request { uri : bytes; json : bool; body : bytes; authorization : option bytes; response_size_limit : option Z }.

(** [http] and [simple_request] *)
Class Http (N : Type) := {
  Response : Type;
  valid_uri : bytes -> bool;
  client_of : bytes -> bool;
  client_request : bytes -> Request -> query N interrupt Response;
  locked : query N interrupt unit;
  status : Response -> Z;
  www_authenticate : Response -> option bytes;
  header_to_str : bytes -> option bytes;
  header_from_str : bytes -> option bytes;
  read_body : Response -> query N interrupt bytes
}.

(** [digest_auth]: a username, a password, a path and a client nonce are
    responded for, which counts the challenge's uses. *)
Class Digest := {
  Challenge : Type;
  parse_challenge : bytes -> option Challenge;
  respond : bytes -> bytes -> bytes -> bytes -> Challenge -> option bytes * Challenge
}.

Module SimpleRequestTransport.

Inductive Authentication : Type :=
| Unauthenticated (client : bytes)
| Authenticated (username password client : bytes).

Section Ops.
Context {N : Type} {HP : Http N} {DG : Digest} {HX : Hex} {J : MoneroDaemon.Json}.

(** The challenge of the connection, and the state of the network *)
Record state := mk_state { connection : option (Challenge * Z); network : N }.

Definition get_connection : query state interrupt (option (Challenge * Z)) := fun s => (Ok (connection s), s).
Definition set_connection (c : option (Challenge * Z)) : query state interrupt unit := fun s => (Ok tt, mk_state c (network s)).

(** A call to the network *)
Definition net {A} (m : query N interrupt A) : query state interrupt A := fun s =>
  let (o, n) := m (network s) in (o, mk_state (connection s) n).

Definition fail {A} (e : InterfaceError.t) : query state interrupt A := qlift (Err (Fails e)).
Definition ok_or_fail {A} (o : option A) (e : InterfaceError.t) : query state interrupt A := qlift (ok_or o (Fails e)).

Definition digest_auth_challenge (response : Response) : query state interrupt (option (Challenge * Z)) :=
  match www_authenticate response with
  | Some header =>
      let! header := ok_or_fail (header_to_str header) (InvalidInterface "www-authenticate header wasn't a string") in
      let! challenge := ok_or_fail (parse_challenge header) (InvalidInterface "invalid digest-auth response") in
      qret (Some (challenge, 0))
  | None => qret None
  end.

(** ** [inner_post] *)

Definition request_fn (route body : bytes) (limit : option Z) : query state interrupt Request :=
  let uri := [47] ++ route in
  ok_or_fail (if valid_uri uri then Some (mk_request uri (negb (ends_with (bstr ".bin") route)) body None limit) else None)
    (InterfaceError.InterfaceError "couldn't make request: {e:?}").

Definition body_from_response (response : Response) : query state interrupt bytes := net (read_body response).

(** [connection_lock.0.is_none()]: a challenge is obtained. *)
Definition obtain_challenge (client route body : bytes) (limit : option Z) (request : Request) : query state interrupt Request :=
  let! connection := get_connection in
  match connection with
  | Some _ => qret request
  | None =>
      let! response := net (client_request client request) in
      let! challenge := digest_auth_challenge response in
      let! _ := set_connection challenge in
      request_fn route body limit
  end.

Definition insert_response (username password route : bytes) (request : Request) : query state interrupt Request :=
  let! connection := get_connection in
  match connection with
  | None => qret request
  | Some (challenge, cnonce) =>
      let! cnonce := qlift (if cnonce + 1 <? 2 ^ 64 then Ok (cnonce + 1) else Panic) in
      let (response, challenge) := respond username password ([47] ++ route) (hex_encode (to_le 8 cnonce)) challenge in
      let! _ := set_connection (Some (challenge, cnonce)) in
      let! response := ok_or_fail response (InvalidInterface "couldn't respond to digest-auth challenge") in
      let! header := ok_or_fail (header_from_str response) (InternalError "digest-auth challenge response wasn't a valid string for an HTTP header") in
      qret (mk_request (uri request) (json request) (body request) (Some header) (response_size_limit request))
  end.

(** The response, or the error to retry on *)
Definition attempt_request (client : bytes) (request : Request) : query state interrupt (Response + InterfaceError.t) := fun s =>
  match net (client_request client request) s with
  | (Ok response, s) => (Ok (inl response), s)
  | (Err (Fails e), s) => (Ok (inr e), s)
  | (Err Elapsed, s) => (Err Elapsed, s)
  | (Panic, s) => (Panic, s)
  end.

Definition is_stale (response : Response) : query state interrupt bool :=
  if status response =? 401 then
    match www_authenticate response with
    | Some header =>
        let! header := ok_or_fail (header_to_str header) (InvalidInterface "www-authenticate header wasn't a string") in
        qret (contains (bstr "stale") header)
    | None => qret false
    end
  else qret false.

(** The body of the loop: the response's body, if it isn't to [continue] *)
Definition try_post (self : Authentication) (route body : bytes) (limit : option Z) (attempt : nat) : query state interrupt (option bytes) :=
  match self with
  | Unauthenticated client =>
      let! request := request_fn route body limit in
      let! response := net (client_request client request) in
      let! res := body_from_response response in
      qret (Some res)
  | Authenticated username password client =>
      let! _ := net locked in
      let! request := request_fn route body limit in
      let! request := obtain_challenge client route body limit request in
      let! request := insert_response username password route request in
      let! response := attempt_request client request in
      let! (error, is_stale) :=
        match response with
        | inr e => qret (Some e, false)
        | inl response => let! is_stale := is_stale response in qret (None, is_stale)
        end in
      if match error with Some _ => true | None => false end || is_stale then
        let! _ := set_connection None in
        if (attempt =? 0)%nat then qret None
        else
          match error with
          | Some e => fail e
          | None => fail (InvalidInterface "node claimed fresh connection had stale authentication")
          end
      else
        match response with
        | inl response => let! res := body_from_response response in qret (Some res)
        | inr _ => qlift Panic
        end
  end.

(** [for attempt in 0 .. 2], after which it's [unreachable!] *)
Fixpoint attempts (self : Authentication) (route body : bytes) (limit : option Z) (l : list nat) : query state interrupt bytes :=
  match l with
  | [] => qlift Panic
  | attempt :: l =>
      let! res := try_post self route body limit attempt in
      match res with
      | Some res => qret res
      | None => attempts self route body limit l
      end
  end.

Definition inner_post (self : Authentication) (route body : bytes) (limit : option Z) : query state interrupt bytes :=
  let! _ := net locked in
  attempts self route body limit [0%nat; 1%nat].

(** [tokio::time::timeout] *)
Definition timeout {A} (m : query state interrupt A) : query state InterfaceError.t A :=
  qmap_err (fun e => match e with Elapsed => InterfaceError.InterfaceError "timeout reached: {e:?}" | Fails e => e end) m.

#[export] Instance transport (self : Authentication) : HttpTransport state := fun route body limit =>
  timeout (inner_post self route body limit).

(** ** [with_custom_timeout] *)

(** The username and the password of a URL, and the URL without them *)
Definition credentials (url : bytes) : outcome InterfaceError.t (option (bytes * bytes) * bytes) :=
  if contains (bstr "@") url then
    let split_url := split (bstr "@") url in
    let? userpass := index split_url 0 in
    let url := join_with (bstr "@") (tail split_url) in
    let? (url, userpass) :=
      if contains (bstr "://") userpass then
        match split (bstr "://") userpass with
        | [protocol; userpass] => Ok (protocol ++ bstr "://" ++ url, userpass)
        | _ => Err (InterfaceError.InterfaceError "invalid amount of protocol specifications")
        end
      else Ok (url, userpass) in
    let split_userpass := split (bstr ":") userpass in
    let? username := index split_userpass 0 in
    Ok (Some (username, join_with (bstr ":") (tail split_userpass)), url)
  else Ok (None, url).

Definition authentication_of (url : bytes) : query state InterfaceError.t Authentication :=
  let! (userpass, url) := qlift (credentials url) in
  match userpass with
  | Some (username, password) =>
      let! _ := qlift (if client_of url then Ok tt else Err (InterfaceError.InterfaceError "invalid URL")) in
      let! challenge := timeout (
        let! request := ok_or_fail (if valid_uri url then Some (mk_request url false [] None None) else None)
          (InterfaceError.InterfaceError "couldn't make request: {e:?}") in
        let! response := net (client_request url request) in
        digest_auth_challenge response) in
      let! _ := timeout (set_connection challenge) in
      qret (Authenticated username password url)
  | None =>
      if client_of url then qret (Unauthenticated url)
      else qlift (Err (InternalError "couldn't create client with connection pool: {e:?}"))
  end.

(** The transport, and the daemon's client over it *)
Definition with_custom_timeout (url : bytes) : query state InterfaceError.t (Authentication * MoneroDaemon.t) :=
  let! self := authentication_of url in
  let! daemon := MoneroDaemon.new (HT := transport self) in
  qret (self, daemon).

(** [new], with the default timeout *)
Definition new (url : bytes) : query state InterfaceError.t (Authentication * MoneroDaemon.t) := with_custom_timeout url.
End Ops.
End SimpleRequestTransport.

(** ** Theorems *)

(** The network answers without a panic, with bytes. *)
Class HttpLaws {N} (HP : Http N) : Prop := {
  client_request_law url request : ensures (client_request url request) (fun _ => True);
  locked_law : ensures locked (fun _ => True);
  read_body_law response : ensures (read_body response) is_bytes
}.

Section Safe.
Import SimpleRequestTransport.
Context {N : Type} {HP : Http N} {HL : HttpLaws HP} {DG : Digest} {HX : Hex} {J : MoneroDaemon.Json}.

Abbreviation state := (SimpleRequestTransport.state (N := N)).

(** The client nonces spent on the challenge of the connection *)
Definition spent (s : state) : Z := match connection s with Some (_, cnonce) => cnonce | None => 0 end.
Definition spent_by (k : Z) (s : state) : Prop := 0 <= spent s <= k.

(** Without a panic, from states in [P], to those in [Q] or, with an error, in [R] *)
Definition goes {A E} (P : state -> Prop) (m : query state E A) (Q : A -> state -> Prop) (R : state -> Prop) : Prop := forall s, P s ->
  match m s with
  | (Ok a, s) => Q a s
  | (Err _, s) => R s
  | (Panic, _) => False
  end.

Lemma goes_bind {A B E} P (m : query state E A) (k : A -> query state E B) Q Q' R :
  goes P m Q R -> (forall a, goes (Q a) (k a) Q' R) -> goes P (qbind m k) Q' R.
Proof. intros Hm Hk s Hs. specialize (Hm s Hs). unfold qbind. destruct (m s) as [[a|e|] s']; [exact (Hk a s' Hm)|exact Hm|exact Hm]. Qed.

Lemma goes_mono {A E} (P P' : state -> Prop) (m : query state E A) (Q Q' : A -> state -> Prop) (R R' : state -> Prop) :
  (forall s, P' s -> P s) -> (forall a s, Q a s -> Q' a s) -> (forall s, R s -> R' s) -> goes P m Q R -> goes P' m Q' R'.
Proof. intros HP' HQ HR Hm s Hs. specialize (Hm s (HP' s Hs)). destruct (m s) as [[a|e|] s']; auto. Qed.

Lemma goes_ret {A E} (a : A) (Q : A -> state -> Prop) R : goes (Q a) (qret (E := E) a) Q R.
Proof. intros s Hs. exact Hs. Qed.

Lemma goes_err {A E} P (e : E) (Q : A -> state -> Prop) (R : state -> Prop) : (forall s, P s -> R s) -> goes P (qlift (Err e)) Q R.
Proof. intros H s Hs. exact (H s Hs). Qed.

Lemma goes_ok_or {A} P (o : option A) e (R : state -> Prop) : (forall s, P s -> R s) -> goes P (ok_or_fail o e) (fun _ => P) R.
Proof. intros H s Hs. unfold ok_or_fail, qlift. destruct o; cbn [ok_or]; [exact Hs|exact (H s Hs)]. Qed.

Lemma spent_mono k k' s : k <= k' -> spent_by k s -> spent_by k' s.
Proof. unfold spent_by. lia. Qed.

(** The network doesn't touch the challenge. *)
Lemma goes_net {A} (m : query N interrupt A) (Q : A -> Prop) k : ensures m Q ->
  goes (spent_by k) (net m) (fun a s => Q a /\ spent_by k s) (spent_by k).
Proof.
  intros Hm s Hs. unfold net. specialize (Hm (network s)). destruct (m (network s)) as [[a|e|] n]; cbn [fst] in Hm; [split; [exact Hm|]|..]; exact Hs || exact Hm.
Qed.

Lemma goes_challenge response k : goes (spent_by k) (digest_auth_challenge response)
  (fun c s => match c with Some (_, n) => n = 0 | None => True end /\ spent_by k s) (spent_by k).
Proof.
  unfold digest_auth_challenge. destruct (www_authenticate response) as [header|]; [|intros s Hs; split; [exact I|exact Hs]].
  eapply goes_bind; [apply goes_ok_or; auto|]. intros str. eapply goes_bind; [apply goes_ok_or; auto|]. intros c s Hs. split; [reflexivity|exact Hs].
Qed.

Lemma goes_obtain client route body limit request k : 0 <= k ->
  goes (spent_by k) (obtain_challenge client route body limit request) (fun _ => spent_by k) (spent_by k).
Proof.
  intros Hk s Hs. unfold obtain_challenge, qbind at 1, get_connection. destruct (connection s) as [c|]; [exact Hs|]. revert s Hs.
  change (goes (spent_by k) (let! response := net (client_request client request) in
    let! challenge := digest_auth_challenge response in let! _ := set_connection challenge in request_fn route body limit) (fun _ => spent_by k) (spent_by k)).
  eapply goes_bind; [apply goes_net, client_request_law|]. intros response s [_ Hs]. revert s Hs.
  eapply goes_bind; [apply goes_challenge|]. intros c s [Hc Hs]. unfold qbind, set_connection.
  assert (H : spent_by k (mk_state c (network s))) by (unfold spent_by, spent; cbn [connection]; destruct c as [[c n]|]; lia).
  revert H. generalize (mk_state c (network s)). apply goes_ok_or. auto.
Qed.

Lemma goes_insert username password route request k : 0 <= k -> k + 1 < 2 ^ 64 ->
  goes (spent_by k) (insert_response username password route request) (fun _ => spent_by (k + 1)) (spent_by (k + 1)).
Proof.
  intros Hk Hb s Hs. unfold insert_response, qbind at 1, get_connection. unfold spent_by, spent in Hs.
  destruct (connection s) as [[c n]|] eqn:Hc; [|cbn [qret]; unfold spent_by, spent; rewrite Hc; lia].
  destruct (Z.ltb_spec (n + 1) (2 ^ 64)); [|lia]. unfold qbind at 1, qlift at 1. destruct (respond _ _ _ _ c) as [o c'].
  unfold qbind at 1, set_connection.
  assert (H' : spent_by (k + 1) (mk_state (Some (c', n + 1)) (network s))) by (unfold spent_by, spent; cbn [connection]; lia).
  revert H'. generalize (mk_state (Some (c', n + 1)) (network s)).
  change (goes (spent_by (k + 1)) (let! response := ok_or_fail o (InvalidInterface "couldn't respond to digest-auth challenge") in
    let! header := ok_or_fail (header_from_str response) (InternalError "digest-auth challenge response wasn't a valid string for an HTTP header") in
    qret (mk_request (uri request) (json request) (SimpleRequest.body request) (Some header) (response_size_limit request))) (fun _ => spent_by (k + 1)) (spent_by (k + 1))).
  eapply goes_bind; [apply goes_ok_or; auto|]. intros r. eapply goes_bind; [apply goes_ok_or; auto|]. intros h s' Hs'. exact Hs'.
Qed.

Lemma goes_stale response k : goes (spent_by k) (is_stale response) (fun _ => spent_by k) (spent_by k).
Proof.
  unfold is_stale. destruct (_ =? _); [|intros s Hs; exact Hs]. destruct (www_authenticate response) as [header|]; [|intros s Hs; exact Hs].
  eapply goes_bind; [apply goes_ok_or; auto|]. intros str s Hs. exact Hs.
Qed.

Lemma goes_body response k : goes (spent_by k)
  (let! res := body_from_response response in qret (Some res)) (fun r s => match r with Some res => is_bytes res | None => False end /\ spent_by k s) (spent_by k).
Proof. eapply goes_bind; [apply goes_net, read_body_law|]. intros res s Hs. exact Hs. Qed.

(** A round which is to be retried is the first, and leaves no challenge. *)
Lemma goes_try self route body limit attempt k : 0 <= k -> k + 1 < 2 ^ 64 ->
  goes (spent_by k) (try_post self route body limit attempt)
    (fun r s => match r with Some res => is_bytes res /\ spent_by (k + 1) s | None => attempt = 0%nat /\ spent_by 0 s end) (spent_by (k + 1)).
Proof.
  intros Hk Hb. assert (Hm : forall s, spent_by k s -> spent_by (k + 1) s) by (intros s; apply spent_mono; lia).
  destruct self as [client|username password client]; cbn [try_post].
  - eapply goes_bind; [apply goes_ok_or; exact Hm|]. intros request.
    apply (goes_mono (spent_by (k + 1)) (spent_by k) _ _ _ (spent_by (k + 1)) _ Hm (fun r s H => H) (fun s H => H)).
    eapply goes_bind; [apply goes_net, client_request_law|]. intros response.
    eapply goes_mono; [| | |apply goes_body]; [intros s H; apply H| |auto]. intros [res|] s [H1 H2]; [auto|destruct H1].
  - intros s Hs. pose proof (goes_net locked _ k locked_law s Hs) as Hl. unfold qbind at 1. destruct (net locked s) as [[u|e|] s1]; [|exact (Hm _ Hl)|exact Hl].
    destruct Hl as [_ Hs1]. clear s Hs. revert s1 Hs1.
    eapply goes_bind; [apply goes_ok_or; exact Hm|]. intros request s Hs.
    pose proof (goes_obtain client route body limit request k Hk s Hs) as Ho. unfold qbind at 1.
    destruct (obtain_challenge client route body limit request s) as [[request'|e|] s1]; [|exact (Hm _ Ho)|exact Ho]. clear s Hs. revert s1 Ho.
    eapply goes_bind; [apply goes_insert; assumption|]. intros request2.
    apply (goes_bind _ _ _ (fun _ => spent_by (k + 1))).
    { intros s Hs. unfold attempt_request. pose proof (goes_net _ _ (k + 1) (client_request_law client request2) s Hs) as H.
      destruct (net (client_request client request2) s) as [[r|[|e]|] s']; exact (proj2 H) || exact H. }
    intros response.
    apply (goes_bind _ _ _ (fun x s => spent_by (k + 1) s /\ match response with inl _ => fst x = None | inr e => x = (Some e, false) end)).
    { destruct response as [response|e]; [|intros s Hs; split; [exact Hs|reflexivity]].
      eapply goes_bind; [apply goes_stale|]. intros stale s Hs. split; [exact Hs|reflexivity]. }
    intros [error stale] s [Hs Hr]. destruct (_ || stale) eqn:Hor.
    + unfold qbind, set_connection. assert (H0 : spent_by 0 (mk_state None (network s))) by (unfold spent_by, spent; cbn; lia).
      destruct (Nat.eqb_spec attempt 0); [split; assumption|]. destruct error; (apply (spent_mono 0); [lia|exact H0]).
    + destruct response as [response|e]; [|injection Hr as -> ->; discriminate Hor]. revert s Hs.
      change (goes (spent_by (k + 1)) (let! res := body_from_response response in qret (Some res))
        (fun r s => match r with Some res => is_bytes res /\ spent_by (k + 1) s | None => attempt = 0%nat /\ spent_by 0 s end) (spent_by (k + 1))).
      eapply goes_mono; [| | |apply goes_body]; [intros s H; apply H| |auto]. intros [res|] s [H1 H2]; [auto|destruct H1].
Qed.

(** Whatever the network does, a post doesn't panic: the code after the loop
    isn't reached, as a request is retried once at most, and then without the
    challenge it had.  It spends at most one nonce of a challenge, so that
    nonces don't overflow in fewer than 2^64 posts. *)
Theorem post_safe self route body limit s : 0 <= spent s -> spent s + 1 < 2 ^ 64 ->
  match post (HttpTransport := transport self) route body limit s with
  | (Ok res, s') => is_bytes res /\ 0 <= spent s' <= spent s + 1
  | (Err _, s') => 0 <= spent s' <= spent s + 1
  | (Panic, _) => False
  end.
Proof.
  intros H0 Hb. set (k := spent s) in *. assert (Hs : spent_by k s) by (split; [exact H0|reflexivity]). clearbody k.
  assert (H : goes (spent_by k) (inner_post self route body limit) (fun res s => is_bytes res /\ spent_by (k + 1) s) (spent_by (k + 1))).
  { intros s1 Hs1. unfold inner_post, qbind at 1. pose proof (goes_net locked _ k locked_law s1 Hs1) as Hl.
    destruct (net locked s1) as [[u|e|] s2]; [|apply (spent_mono k); [lia|exact Hl]|exact Hl]. destruct Hl as [_ Hs2]. cbn [attempts].
    pose proof (goes_try self route body limit 0 k H0 Hb s2 Hs2) as Ht. unfold qbind at 1.
    destruct (try_post self route body limit 0 s2) as [[[res|]|e|] s3]; try exact Ht. destruct Ht as [_ Hs3].
    pose proof (goes_try self route body limit 1 0 ltac:(lia) ltac:(lia) s3 Hs3) as Ht. unfold qbind.
    destruct (try_post self route body limit 1 s3) as [[[res|]|e|] s4].
    - destruct Ht as [Hr Hs4]. split; [exact Hr|apply (spent_mono (0 + 1)); [lia|exact Hs4]].
    - destruct Ht as [[=] _].
    - apply (spent_mono (0 + 1)); [lia|exact Ht].
    - exact Ht. }
  specialize (H s Hs). unfold post, transport, timeout, qmap_err. destruct (inner_post self route body limit s) as [[res|e|] s']; exact H.
Qed.
End Safe.

(** ** A node which asks for authentication *)

(** It refuses what it's asked without, or, as the state says, once, with a
    challenge it says is stale. *)
#[export] Program Instance node : Http bool := {|
  Response := Z * option bytes;
  valid_uri _ := true;
  client_of _ := true;
  client_request _ request stale :=
    match authorization request with
    | Some _ => if stale then (Ok (401, Some (bstr "stale")), false) else (Ok (200, None), false)
    | None => (Ok (401, Some (bstr "nonce")), stale)
    end;
  locked := qret tt;
  status := fst;
  www_authenticate := snd;
  header_to_str := Some;
  header_from_str := Some;
  read_body response := qret [fst response `mod` 256]
|}.

#[export] Instance node_laws : HttpLaws node.
Proof.
  split; [|intros s; exact I|].
  - intros client request s. cbn. destruct (authorization request); [destruct s|]; exact I.
  - intros [code header] s. cbn. repeat constructor; apply Z.mod_pos_bound; lia.
Qed.

(** It counts the uses of the challenge. *)
Definition counting : Digest := {|
  Challenge := Z;
  parse_challenge _ := Some 0;
  respond username password path cnonce uses := (Some (username ++ cnonce), uses + 1)
|}.

(** A challenge is obtained, found stale, and obtained anew for the retry. *)
Section Witness.
Import SimpleRequestTransport.
Local Instance witness_hex : Hex := {| hex_decode := Some; hex_encode bs := bs |}.
Local Existing Instance counting.

Definition example_self : Authentication := Authenticated (bstr "user") (bstr "pass") (bstr "url").
Definition example_post : query state InterfaceError.t bytes := transport example_self (bstr "get_height") [] None.

Lemma post_safe_witness :
  example_post (mk_state None true) = (Ok [200], mk_state (Some (1 : Challenge, 1)) false) /\
  match example_post (mk_state None true) with
  | (Ok res, s') => is_bytes res /\ 0 <= spent s' <= 1
  | (Err _, s') => 0 <= spent s' <= 1
  | (Panic, _) => False
  end.
Proof. split; [vm_compute; reflexivity|]. apply (post_safe example_self (bstr "get_height") [] None (mk_state None true)); vm_compute; congruence. Defined.
End Witness.

(** ** URLs *)

Section Urls.
Import SimpleRequestTransport.

Lemma starts_with_app pat s : starts_with pat (pat ++ s) = true.
Proof. induction pat as [|a pat IH]; [reflexivity|]. cbn. rewrite Z.eqb_refl. exact IH. Qed.

Lemma split_skip pat n a s : length a = n -> split_from pat n (a ++ s) = split_from pat 0 s.
Proof. revert a. induction n as [|n IH]; intros [|b a] [=]; [reflexivity|]. cbn [app split_from]. apply IH. assumption. Qed.

(** A string without the first character of a pattern has no part to split. *)
Lemma split_before c pat a s : c ∉ a -> split_from (c :: pat) 0 (a ++ (c :: pat) ++ s) = a :: split_from (c :: pat) 0 s.
Proof.
  induction a as [|b a IH]; intros Hc.
  - cbn [app split_from starts_with]. rewrite Z.eqb_refl. cbn [andb]. rewrite starts_with_app. cbn [length].
    replace (S (length pat) - 1)%nat with (length pat) by lia. rewrite split_skip by reflexivity. reflexivity.
  - apply not_elem_of_cons in Hc as [Hne Hc]. cbn [app split_from starts_with]. destruct (Z.eqb_spec c b); [contradiction|]. cbn [andb].
    cbn [app] in IH. rewrite (IH Hc). reflexivity.
Qed.

Lemma split_none c pat a : c ∉ a -> split_from (c :: pat) 0 a = [a].
Proof.
  induction a as [|b a IH]; intros Hc; [reflexivity|]. apply not_elem_of_cons in Hc as [Hne Hc]. cbn [split_from starts_with].
  destruct (Z.eqb_spec c b); [contradiction|]. cbn [andb]. rewrite (IH Hc). reflexivity.
Qed.

Lemma split_not_nil pat n s : split_from pat n s <> [].
Proof. revert n. induction s as [|b s IH]; intros [|n]; try discriminate; cbn [split_from]; [|apply IH]. destruct (starts_with _ _); [discriminate|]. destruct (split_from pat 0 s); discriminate. Qed.

Lemma split_join c s : join_with [c] (split_from [c] 0 s) = s.
Proof.
  induction s as [|b s IH]; [reflexivity|]. pose proof (split_not_nil [c] 0 s) as Hne.
  cbn [split_from starts_with length Nat.sub]. rewrite andb_true_r. destruct (Z.eqb_spec c b) as [->|].
  - destruct (split_from [b] 0 s) as [|part parts]; [contradiction|]. cbn [join_with map concat app] in *. rewrite IH. reflexivity.
  - destruct (split_from [c] 0 s) as [|part parts]; [contradiction|]. cbn [join_with app] in *. rewrite IH. reflexivity.
Qed.

Lemma contains_app pat a s : pat <> [] -> contains pat (a ++ pat ++ s) = true.
Proof.
  intros Hne. induction a as [|b a IH]; cbn [app].
  - destruct pat as [|c pat]; [contradiction|]. pose proof (starts_with_app (c :: pat) s) as H. cbn [app] in H. cbn [app contains]. rewrite H. reflexivity.
  - cbn [contains]. rewrite IH. apply orb_true_r.
Qed.

(** A pattern with a character isn't in a string without it. *)
Lemma starts_without pat s c : c ∈ pat -> c ∉ s -> starts_with pat s = false.
Proof.
  revert s. induction pat as [|a pat IH]; intros s Hc Hs; [apply not_elem_of_nil in Hc; contradiction|].
  destruct s as [|b s]; [reflexivity|]. cbn. apply not_elem_of_cons in Hs as [Hne Hs]. destruct (Z.eqb_spec a b) as [->|]; [|reflexivity].
  apply elem_of_cons in Hc as [->|Hc]; [contradiction|]. exact (IH s Hc Hs).
Qed.

Lemma contains_none pat s c : c ∈ pat -> c ∉ s -> contains pat s = false.
Proof.
  induction s as [|b s IH]; intros Hc Hs; cbn [contains]; rewrite (starts_without pat _ c Hc Hs); [reflexivity|].
  apply not_elem_of_cons in Hs as [_ Hs]. exact (IH Hc Hs).
Qed.

(** A character isn't in strings which don't have it, or which say what they're. *)
Ltac absent := rewrite ?not_elem_of_app; split_and?; try assumption; apply (bool_decide_unpack _); vm_compute; exact I.

(** The part after the protocol has no other, as it has no slash. *)
Lemma split_protocol s : 47 ∉ s -> split_from (bstr "://") 0 s = [s].
Proof.
  induction s as [|b s IH]; intros Hs; [reflexivity|]. assert (H : starts_with (bstr "://") (b :: s) = false).
  { apply (starts_without _ _ 47); [apply (bool_decide_unpack _); vm_compute; exact I|exact Hs]. }
  cbn [split_from]. rewrite H. apply not_elem_of_cons in Hs as [_ Hs]. rewrite (IH Hs). reflexivity.
Qed.

Lemma at_parts a rest : 64 ∉ a -> contains [64] (a ++ [64] ++ rest) = true /\
  split [64] (a ++ [64] ++ rest) = a :: split_from [64] 0 rest /\ join_with [64] (split_from [64] 0 rest) = rest.
Proof. intros Ha. split_and!; [apply (contains_app [64]); discriminate|apply (split_before 64 []); exact Ha|apply split_join]. Qed.

(** The username and the password are those of a URL which has them, the rest of
    which is the URL without them: a password may have colons, and what's
    after them any characters. *)
Theorem credentials_of_url protocol username password rest : 58 ∉ protocol -> 64 ∉ protocol ->
  58 ∉ username -> 64 ∉ username -> 47 ∉ username -> 64 ∉ password -> 47 ∉ password ->
  credentials (protocol ++ bstr "://" ++ username ++ [58] ++ password ++ [64] ++ rest) =
    Ok (Some (username, password), protocol ++ bstr "://" ++ rest) /\
  credentials (username ++ [58] ++ password ++ [64] ++ rest) = Ok (Some (username, password), rest) /\
  (64 ∉ rest -> credentials rest = Ok (None, rest)).
Proof.
  intros Hp1 Hp2 Hu1 Hu2 Hu3 Hw1 Hw2.
  assert (Hup : split [58] (username ++ [58] ++ password) = username :: split_from [58] 0 password) by (apply (split_before 58 []); exact Hu1).
  pose proof (split_join 58 password) as Hj. unfold credentials. change (bstr "@") with [64]. change (bstr ":") with [58]. split_and!.
  - replace (protocol ++ bstr "://" ++ username ++ [58] ++ password ++ [64] ++ rest)
      with ((protocol ++ bstr "://" ++ username ++ [58] ++ password) ++ [64] ++ rest) by (rewrite <- !app_assoc; reflexivity).
    destruct (at_parts (protocol ++ bstr "://" ++ username ++ [58] ++ password) rest) as (H1 & H2 & H3); [absent|].
    rewrite H1, H2. cbn [index lookup list_lookup expect obind tail]. rewrite H3, (contains_app (bstr "://")) by discriminate.
    replace (split (bstr "://") (protocol ++ bstr "://" ++ username ++ [58] ++ password)) with [protocol; username ++ [58] ++ password].
    + cbn [obind]. rewrite Hup. cbn [index lookup list_lookup expect obind tail]. rewrite Hj. reflexivity.
    + symmetry. unfold split. change (bstr "://") with (58 :: bstr "//"). rewrite (split_before 58 (bstr "//")) by exact Hp1.
      f_equal. apply split_protocol. absent.
  - replace (username ++ [58] ++ password ++ [64] ++ rest) with ((username ++ [58] ++ password) ++ [64] ++ rest) by (rewrite <- !app_assoc; reflexivity).
    destruct (at_parts (username ++ [58] ++ password) rest) as (H1 & H2 & H3); [absent|].
    rewrite H1, H2. cbn [index lookup list_lookup expect obind tail]. rewrite H3.
    rewrite (contains_none (bstr "://") _ 47); [|absent|absent].
    cbn [obind]. rewrite Hup. cbn [index lookup list_lookup expect obind tail]. rewrite Hj. reflexivity.
  - intros Hr. rewrite (contains_none [64] rest 64); [reflexivity|absent|exact Hr].
Qed.
End Urls.
