(* ===== verification/SendEquality.v ===== *)
(** Equality of signable transactions ([wallet/src/send/mod.rs]), which is
    written out, or derived, field by field: what the code decides is identity,
    of every field. *)

From Stdlib Require Import ZArith Lia.
From stdpp Require Import base list strings numbers.
From S2P Require Import Prelude Dalek MoneroIo Ed25519 Clsag Bulletproofs BpCore BpOriginal BpPlus RingCT Transaction Interface.
From S2P Require Import Address Extra WalletOutput ViewPair DecoySelection Send.

(** ** The equalities of the code *)

#[export] Instance address_type_eq_dec : EqDecision AddressType.
Proof. solve_decision. Defined.

#[local] Existing Instance Metadata.subaddress_eq_dec.

(** [Vec::eq] *)
Fixpoint list_eqb {A} (eqb : A -> A -> bool) (self other : list A) : bool :=
  match self, other with
  | [], [] => true
  | x :: self, y :: other => eqb x y && list_eqb eqb self other
  | _, _ => false
  end.

Module SendEquality.
Section Ops.
Context {D : Dalek}.

Definition address_eqb (self other : MoneroAddress) : bool :=
  bool_decide (Address.network self = Address.network other) && bool_decide (Address.kind self = Address.kind other) &&
  Point.eqb (Address.spend self) (Address.spend other) && Point.eqb (Address.view self) (Address.view other).

(** What both arms of [ChangeEnum::eq] compare *)
Definition view_pair_eqb (lhs_vp rhs_vp : ViewPair.t) : bool :=
  Point.eqb (ViewPair.spend lhs_vp) (ViewPair.spend rhs_vp) && Scalar.eqb (ViewPair.view_key lhs_vp) (ViewPair.view_key rhs_vp).

Definition change_eqb (self other : ChangeEnum) : bool :=
  match self, other with
  | AddressOnly lhs, AddressOnly rhs => address_eqb lhs rhs
  | Standard lhs_vp lhs_s, Standard rhs_vp rhs_s => view_pair_eqb lhs_vp rhs_vp && bool_decide (lhs_s = rhs_s)
  | Guaranteed lhs_vp lhs_s, Guaranteed rhs_vp rhs_s =>
      view_pair_eqb (GuaranteedViewPair.pair lhs_vp) (GuaranteedViewPair.pair rhs_vp) && bool_decide (lhs_s = rhs_s)
  | _, _ => false
  end.

Definition payment_eqb (self other : InternalPayment) : bool :=
  match self, other with
  | Payment lhs lhs_amount, Payment rhs rhs_amount => address_eqb lhs rhs && (lhs_amount =? rhs_amount)
  | ChangePayment lhs, ChangePayment rhs => change_eqb lhs rhs
  | _, _ => false
  end.

Definition fee_rate_eqb (self other : FeeRate.t) : bool :=
  (FeeRate.per_weight self =? FeeRate.per_weight other) && (FeeRate.mask self =? FeeRate.mask other).

Import SignableTransaction.

Definition eqb (self other : SignableTransaction.t) : bool :=
  bool_decide (rct_type self = rct_type other) &&
  bytes_eqb (outgoing_view_key self) (outgoing_view_key other) &&
  list_eqb OutputWithDecoys.eqb (inputs self) (inputs other) &&
  list_eqb payment_eqb (payments self) (payments other) &&
  bool_decide (data self = data other) &&
  fee_rate_eqb (fee_rate self) (fee_rate other).
End Ops.
End SendEquality.

(** ** They decide identity *)

Lemma list_eqb_spec {A} (eqb : A -> A -> bool) : (forall x y, eqb x y = true <-> x = y) ->
  forall l k, list_eqb eqb l k = true <-> l = k.
Proof.
  intros H. induction l as [|x l IH]; intros [|y k]; cbn [list_eqb]; try (split; discriminate || reflexivity).
  rewrite andb_true_iff, H, IH. split; [intros [-> ->]; reflexivity|intros [=]; auto].
Qed.

Section Decides.
Import SendEquality.
Context {D : Dalek} {DL : DalekLaws D}.

(** Field by field *)
Ltac fields := split; [intros; destruct_and?; subst; reflexivity|intros [=]; subst; auto 20].

Lemma address_eqb_spec x y : address_eqb x y = true <-> x = y.
Proof.
  destruct x as [n k s v], y as [n' k' s' v']. unfold address_eqb, Point.eqb. cbn.
  rewrite !andb_true_iff, !bool_decide_eq_true, !ed_eqb_spec. fields.
Qed.

Lemma view_pair_eqb_spec x y : view_pair_eqb x y = true <-> x = y.
Proof.
  destruct x as [s v], y as [s' v']. unfold view_pair_eqb, Point.eqb, Scalar.eqb. cbn. rewrite andb_true_iff, ed_eqb_spec, bytes_eqb_spec. fields.
Qed.

Lemma change_eqb_spec x y : change_eqb x y = true <-> x = y.
Proof.
  destruct x as [a|v s|[v] s], y as [a'|v' s'|[v'] s']; cbn [change_eqb GuaranteedViewPair.pair]; try (split; discriminate);
    rewrite ?andb_true_iff, ?bool_decide_eq_true, ?address_eqb_spec, ?view_pair_eqb_spec; fields.
Qed.

Lemma payment_eqb_spec x y : payment_eqb x y = true <-> x = y.
Proof.
  destruct x as [a n|c], y as [a' n'|c']; cbn [payment_eqb]; try (split; discriminate);
    rewrite ?andb_true_iff, ?Z.eqb_eq, ?address_eqb_spec, ?change_eqb_spec; fields.
Qed.

Lemma output_with_decoys_eqb_spec x y : OutputWithDecoys.eqb x y = true <-> x = y.
Proof.
  destruct x as [[k o [m a]] d], y as [[k' o' [m' a']] d'].
  unfold OutputWithDecoys.eqb, OutputData.eqb, Commitment.eqb, Point.eqb, Scalar.eqb. cbn.
  rewrite !andb_true_iff, decoys_eqb_spec, ed_eqb_spec, !bytes_eqb_spec, Z.eqb_eq. fields.
Qed.

(** Signable transactions are equal, as the code decides it, when they're the
    same: none of what a transaction is made with, or is signed as, is left out. *)
Theorem signable_eqb_decides x y : eqb x y = true <-> x = y.
Proof.
  destruct x as [r k i p d [w m]], y as [r' k' i' p' d' [w' m']]. unfold eqb, fee_rate_eqb. cbn.
  rewrite !andb_true_iff, !bool_decide_eq_true, bytes_eqb_spec, (list_eqb_spec _ output_with_decoys_eqb_spec), (list_eqb_spec _ payment_eqb_spec), !Z.eqb_eq.
  fields.
Qed.
End Decides.
